(* ===== verification/_CoqProject ===== *)
-Q . S2P
Prelude.v
Strings.v
Word.v
Float.v
GoLib.v
Json.v
TestConfig.v
Prng.v
Ring.v
Heap.v
SnapshotTree.v
SnapshotTreeInv.v
SnapshotTreeProps.v
SnapshotPersist.v
Frontier.v
Coverage.v
InputTree.v
ChoiceBuffer.v
Novelty.v
Mcts.v
Saturation.v
Fault.v
Schedule.v
Adaptive.v
Explorer.v
ExplorerProps.v
Output.v
Sha256.v
Sdk.v
Shrink.v
Ddmin.v
Network.v
Composer.v
Stores.v
Campaign.v
Director.v
EventStore.v
FaultInject.v
FaultSetup.v
Explore.v
ExploreLoop.v
ExploreProps.v
ExploreOutput.v
ExploreDemo.v
Analyses.v
Debugger.v
Interleave.v
Pool.v
PoolLoop.v
PoolProps.v
PoolTheorems.v
PoolBurst.v
PoolDemo.v
Windows.v
Triage.v
Report.v
PoolReport.v
ApiData.v
FileStore.v
FileStoreProps.v
Runner.v
TestManager.v
TestManagerProps.v
TestManagerPool.v
TestManagerDemo.v
