(* ===== verification/Prelude.v ===== *)
(** * OpenThesis: a verification development

    OpenThesis tests distributed systems by deterministic simulation: the
    system under test runs in a virtual machine whose entropy comes from a
    seed, a hypervisor takes and restores snapshots of it, and an explorer
    searches the tree of snapshots, injecting faults and steering by coverage.
    A violation it finds is replayed, minimised, attributed to faults and
    inspected in a time-travel debugger; campaigns of many rounds learn from
    what earlier rounds stored.  This library models the deterministic core of
    that system and proves what makes it correct.

    ** The program and the files that model it

    The explorer's main loop ([Explorer.Run] of [internal/explorer/explorer.go])
    pops the best entry of the frontier, asks the hypervisor to restore that
    snapshot, runs the machine forward under a branch seed, takes a new
    snapshot, records it in the snapshot tree, scores it with the signals the
    run produced (coverage, assertion novelty, sub-goals, saturation, fault
    masks) and pushes it on the frontier, until a limit is reached.  Around it,
    the orchestrator reads the configuration, injects the faults of every step,
    repeats explorations in campaigns and works on the violations they found.

    The orchestrator's own exploration ([Explore], [ExploreLoop]) drives the
    same components with phases, fault injection and the guest's output: what
    the Go SDK writes in the guest ([Sdk]) is parsed ([Output]) and recorded in
    the explorer.

    What the components share:

    - [Prelude] (this file): lists and their lemmas, record updates, tactics.
      [Strings]: the order of strings.  [Word]: machine integers as [Z] with
      wrap-around, and FNV-1a.  [Float]: IEEE 754 binary64 by the standard
      library's executable [SpecFloat], and JSON values.  [GoLib]:
      [time.ParseDuration] and paths.  [Json]: [encoding/json], its scanner,
      printer and decoders.  [Sha256].  [Ring]: ring buffers.  [Heap]: Go's
      [container/heap] over the class [HeapElem] (the [heap.Interface] of the
      client) whose laws [HeapLaws] the frontier discharges.

    The search:

    - [Prng]: [internal/prng].  [Source] is the SplitMix64 state.
    - [SnapshotTree], [SnapshotTreeInv], [SnapshotTreeProps],
      [SnapshotPersist]: [internal/snapshot].  [Tree] is the struct of the same
      name with its map of nodes, its current node, its next identifier and its
      history; every method is a definition of its name.
    - [Frontier], [Coverage], [InputTree], [Novelty], [Mcts], [Saturation]: the
      files of [internal/explorer] with these names; [Coverage] also holds
      [corpus.go], [Novelty] also [subgoal.go] and [strategy.go].  The roaring
      bitmap of the input tree is the class [Bitmap64].
    - [ChoiceBuffer]: the slice of choices that a burst appends to and that the
      recorded sequences keep: arrays, slices and [append], over any growth of
      arrays (the class [Growth]), and the tracker of [InputTree] over slices.
    - [Explorer], [ExplorerProps]: [explorer.go].  The hypervisor, the context
      and the clock are the class [World].

    - [Output]: [internal/orchestrator/parse.go] and the reader of the output
      file.  [Sdk]: the Go SDK of [sdk/go], the modules [Assert], [Guidance],
      [Lifecycle] and [Random], down to the bytes they write.
    - [Explore], [ExploreLoop], [ExploreProps], [ExploreOutput], [ExploreDemo]:
      [explore.go] and [comms.go] of [internal/orchestrator] and the pruning
      and reconnecting of [orchestrator.go].  [Orch] has the orchestrator's
      fields, those of fault injection in the field [fo]; the shared snapshot
      tree is written through [put_tree].  Hypervisor, listener, files, context
      and clock are the class [Machine], with the laws [MachineLaws];
      [ExploreDemo] has an instance to run.
    - [Pool], [PoolLoop], [PoolProps], [PoolTheorems], [PoolBurst], [PoolDemo]:
      the worker pool of [pool.go] and [parallel.go].  Workers own a machine, a
      tree and a frontier ([poolWorker]) and share the fields of [VMPool].  A
      worker is a program of [Interleave]: each critical section and each call of
      an object that locks itself is one step on the shared state, and the steps
      of the workers interleave in any order.  [Interleave] also has the logic,
      in the manner of rely and guarantee, in which [PoolProps] proves a worker
      correct against all that the others may do.

    Faults:

    - [Fault]: [fault.go], [network.go], [node.go], [script.go] of
      [internal/fault].  [Schedule]: [schedule.go], [pattern.go], [swarm.go].
      [Adaptive]: [adaptive.go].
    - [FaultInject]: [internal/orchestrator/faults.go], the handler that injects
      the faults of a step, live and on replay, and the messages it sends to
      the guest agent, in a state monad over the orchestrator's fields.  What
      agent and hypervisor answer is the class [Injection].
    - [FaultSetup]: [initFaults] of [lifecycle.go] and the swarm profile of a
      new cycle in [explore.go].

    Campaigns and stores:

    - [TestConfig]: [internal/testconfig].  [Stores]: [internal/history] and
      [internal/store], a module per store.
    - [Campaign]: the escalation policy, the evolver and the saturation detector
      of [internal/orchestrator], a module each.  [Director]: [director.go],
      which composes them with the stores; a round itself is the class [Rounds].
    - [Composer]: [internal/composer].  [Network]: [internal/network] and
      [internal/clock]; the fault injector is the class [Injector].
    - [EventStore]: [internal/eventstore], an append-only file of JSON lines.

    Work on a violation:

    - [Shrink]: [internal/debugger/shrink.go].  [Ddmin]:
      [internal/orchestrator/shrink.go].
    - [Analyses]: [replay.go], [likelihood.go], [multiverse.go]; preparing and
      running a replay is the class [Replays].
    - [Debugger]: [internal/debugger], the modules [Nav] (over [World]) and
      [Cursor] (over the event store).

    Reports:

    - [Windows]: the division of a run's time into windows, in floats.
      [Triage]: [triage.go], [artifact.go] and the fault statistics of
      [internal/report]; the disk is a map from paths to bytes, with the classes
      [Disk] and [Codec] for the calls that fail and for the JSON of a manifest.
      [Report]: [report.go], [properties.go], [findability.go], [findings.go],
      over the result of [Explorer].  [PoolReport]: the end of [Run], where the
      schedules of the pool are attached to the report's artifacts.

    The server:

    - [ApiData]: the resources of [internal/api].  [FileStore]: [store.go], the
      JSON files below the store's root as a map from paths to documents; what
      the operating system answers is the class [Files], the encodings are the
      class [Codecs].  [FileStoreProps]: the map of resources that it refines.
    - [Runner]: [internal/test/runner.go] around the orchestrator, which is the
      class [Orchestrator].
    - [TestManager]: [testmanager.go], whose goroutines are programs of
      [Interleave] over the server's state (store, job table, contexts); clock
      and random source are the class [Host].  [TestManagerProps]: one goroutine
      alone.  [TestManagerPool]: any interleaving.  [TestManagerDemo]: a server
      to run.

    A method that mutates its receiver takes the struct and returns the new one;
    a method with an error result returns [result] or a pair with an option; a
    method that draws random numbers takes the generator and returns it; where
    code passes a pointer that several parts write through (the configuration
    of a campaign or of a replay) the shared struct is part of the state.  Go's
    mutexes are left out where methods lock for their whole body, so that an
    execution is a sequence of these operations; the worker pool, whose sections
    are smaller, is modelled by its interleavings.

    ** What is proved

    - Snapshot tree: every tree the operations of the exploration build passes
      [Validate] ([reachable_validates]); [Validate] decides the documented
      invariants ([Validate_correct]); [Prune] keeps exactly the root and the
      ancestors of the frontier ([Prune_exact]); ancestor paths, the Merkle
      path hash, the size bound of [PruneOldestExcept] and the orphans it
      leaves; a saved tree loads as a valid tree that contains it
      ([LoadTree_SaveTree]).
    - Generator: [Intn] ends within threshold + 1 draws and is unbiased;
      [Shuffle] permutes.
    - Frontier: the heap refines an abstract priority queue
      ([Frontier_refines_queue]), and the order of exploration does not depend
      on the order of insertion ([drain_deterministic]).
    - Coverage: the bitmap, virgin map and counters stay consistent under any
      sequence of operations ([tracker_invariant]); [Update] is a saturated sum;
      export and import round trip; what [HasNewEdge] answers.
    - Input tree: directed bursts enumerate the untaken alternatives and end.
    - Scoring signals, MCTS, saturation: hashes that distinguish conditions, best
      sub-goals kept, selection and backpropagation end and touch exactly the
      parent path, the Chao1 inputs are those of the last window.
    - Explorer: [Run] ends within its limits on a valid tree ([Run_terminates]);
      assertion counts are exact; what some of the scoring code does to the
      order of exploration.
    - Guest and host: the violations of a program's calls of the SDK are those
      the orchestrator parses ([no_violation_lost]), guidance signals round trip
      ([guidance_roundtrip]), and the output file is drained line by line, each
      once ([drain_exactly_once]).
    - Orchestrated exploration: it ends on every machine, within its limits, with
      a valid shared tree and a reason that holds ([explore_terminates]); every
      violation and evaluation in the output is recorded once, with the context
      of its step ([processOutput_exact]); fault injection never panics
      ([injectFaults_total]).
    - Worker pool, under every interleaving: no worker panics, no run is infinite
      and every run can be finished, with a valid tree for each worker
      ([pool_terminates]); the schedule kept for a violation is that of its
      lowest step ([pool_keeps_shortest]); the limit of states is passed by less
      than workers times branch factor ([pool_state_budget]), which a run in
      [PoolDemo] reaches; a step belongs to one worker and no violation is lost
      ([pool_steps_owned]).  The schedule of a violation replays along its path
      ([buildViolationSchedule_replays]); the lengths of bursts are exact
      ([adaptBurstInsns_exact]) and the preemptions of a burst bounded.
    - Choice buffer: the sequences recorded through it all read as the last
      burst's ([reused_buffer_forgets]), so what [InputTree] shows of sequences
      that stay does not hold of the running program.
    - Faults: masks round trip, every decision has a fixed number of draws,
      parameters stay in range, an N-way partition is a partition, replay returns
      what was recorded, the adaptive selector explores every kind before it
      exploits.
    - Injection: the handler of a step is a refinement of a plan, the list of
      deciders in the documented order whose hits are sent and recorded
      ([injectFaults_refines_plan]); a recorded schedule is replayed entry by
      entry without drawing ([replay_from_file]); a kind a swarm profile
      disables is never planned, delays, clock jitter and dirty restarts apart
      ([swarm_respected]).
    - Configuration and stores: what [Load] accepts is well formed; run history
      classifies violations; merges are bounded and keep the best.
    - Campaigns: the escalation level is the number of completed quiet periods
      ([escalation_levels]) and scales the rates; the saturation detector equals
      its reference definition; a campaign ends ([campaign_ends]).
    - Network: messages are conserved, delivered when due, in order, once.
    - Event store: flushed events are read back through every query, whatever a
      crash leaves of the last line ([events_durable]).
    - Shrinking: the debugger's delta debugging gives a one-minimal schedule
      ([ShrinkFaults_one_minimal]); the orchestrator's result always reproduces
      ([Shrink_sound]).  Analyses: the likelihood curve and the causal
      attribution count exactly the replays that reproduce.
    - Debugger: it stays on nodes of a valid tree, seeks go where they say, and
      a session is a cursor over the stored events ([session_cursor]).
    - Reports: from recorded evaluations to the report, no panic, one property for
      each type and message with exact counts, and bug reports that count every
      failure ([Generate_exact]); no float puts an evaluation outside the windows
      of a timeline ([buildPropertyTimeline_exact]); one entry for each property
      and message, the lowest step, in a determined order ([Triage_exact]); branch
      indices lead back along the path ([PopulateBranchIndices_walks]); a saved
      bundle loads as its artifact with its schedule ([bundle_replayable]); and
      after any interleaving of the pool every artifact's schedule is one of a
      violation with its own key, step and seed ([parallel_artifacts]).

    - Server: on plain identifiers the file store is a map, whatever the sequence
      of operations ([store_refines]), while others reach files of other
      resources ([webhook_escapes]); an executed run leaves exactly what its
      result says in its record, findings, totals and job table
      ([executeRun_records]); under every interleaving of triggers, executions,
      starts and stops no goroutine panics and every run that is triggered is
      executed to its end ([runs_settle]); a run cancelled as it starts panics
      ([cancelled_run_panics]).

    Theorems that are the main claims about the program carry a number (C1, C2,
    ...) in their comment; each one with hypotheses is followed by a witness that
    applies it at a concrete input.  The other theorems of the list above are in
    the files of their components.

    ** Fuel and bounds

    The source's unbounded loops run on fuel and return [None] without it:
    walks along parent links get the size of the tree plus one, enough on a
    well-formed tree since every parent identifier is smaller ([walk_total],
    [mcts_fuel_enough]); [Intn] gets any fuel above its threshold, since the
    SplitMix64 output is a bijection of the state ([Intn_terminates]); [Run]
    gets [run_fuel], computed from [MaxStates] ([Run_terminates]), and [explore]
    the fuel [explore_fuel]; a worker of the pool gets [pool_fuel]; bursts and polls end by their caps and the clock
    ([takes_command_bursts], [poll_loop_ends]); the two
    shrinkers get a fuel that decreases with the length of the schedule; the
    director gets one step per round ([campaign_ends]).  Theorems say that the
    result is [Some], never only what it is when it is.

    ** Assumptions

    No axiom is used.  What the program gets from outside is a class or an
    argument: [World], [Machine], [PoolMachine], [Growth], [Injection], [Rounds], [Replays], the JSON codec of one
    event with its laws [json_laws], the file reader and decoder of [Load],
    oracles of the shrinkers, [Disk], [Codec] and [ScheduleCodec], [Files], [Codecs]
    (with [Lossless]: what is stored decodes as itself), [Orchestrator], [Host]
    (with [HostLaws]: random identifiers do not repeat).  [math.Log] and
    [math.Exp] are parameters of the sections that use them, with no law assumed.  Go may fuse a multiplication and an addition
    on some architectures; the model rounds every operation, as on amd64.  Map
    iteration order is modelled only where the code sorts what it collects.
    Go's sorts are modelled by an insertion sort, one of the results they may
    give: where elements can tie the theorems do not depend on the order of
    ties.

    ** What is not modelled

    Files, logs, HTTP and command lines; the hypervisor backends, guest agents
    and kernel patches; the HTTP handlers of the API server, the pages of reports, the SDKs in other
    languages and deployment scripts. *)
From stdpp Require Export base tactics numbers list list_numbers sorting gmap strings.
From Stdlib Require Export ZArith Lia.

Declare Scope ot_scope.
Delimit Scope ot_scope with ot.

(** A fallible Go call returns a value or an error value.  [result E A] is the
    pair (A, error) of the source with the convention the source follows: the
    value is only used when the error is nil. *)
Inductive result (E A : Type) : Type :=
| Ok (a : A)
| Err (e : E).
Arguments Ok {E A} a.
Arguments Err {E A} e.

Definition result_bind {E A B} (r : result E A) (f : A → result E B) : result E B :=
  match r with
  | Ok a => f a
  | Err e => Err e
  end.

Notation "'let!' x := r 'in' k" := (result_bind r (λ x, k))
  (at level 10, x pattern, r at level 100, k at level 200) : ot_scope.

Definition is_ok {E A} (r : result E A) : bool :=
  match r with Ok _ => true | Err _ => false end.

(** ** Records *)

(** Go assigns to one field of a struct; [r <| f := v |>] is [r] with [f] set
    to [v].  A record type gives its eta expansion as an instance of [Eta], and
    the setter of each field is derived from it. *)
Class Eta (R : Type) := mkEta { eta : R → R }.
Class Setter {R T} (proj : R → T) := mkSetter { setter : (T → T) → R → R }.
Arguments setter {R T} proj {_} f r.

Ltac derive_setter :=
  lazymatch goal with
  | |- @Setter ?R ?T ?proj =>
      let e := constr:(@eta R _) in
      let e := eval hnf in e in
      let f := fresh "f" in
      let r := fresh "r" in
      refine (mkSetter _ _ proj _);
      intros f r;
      let t := eval cbv beta in (e r) in
      lazymatch (eval pattern (proj r) in t) with
      | ?g _ => let t' := eval cbv beta in (g (f (proj r))) in exact t'
      end
  end.

#[export] Hint Extern 1 (Setter _) => derive_setter : typeclass_instances.

Notation "r <| proj := v |>" := (@setter _ _ proj _ (λ _, v) r) (at level 12, left associativity, proj at level 10).

(** ** Lists *)

(** [count_if p l] is the number of elements of [l] that satisfy [p]: the
    value of a counter that a Go loop increments under the condition [p]. *)
Fixpoint count_if {A} (p : A → bool) (l : list A) : nat :=
  match l with
  | [] => 0
  | x :: l' => (if p x then 1 else 0) + count_if p l'
  end.

(** First element of [l] (with its index) that satisfies [p]: the result of a
    Go loop [for i, x := range l { if p(x) { ...; break } }]. *)
Fixpoint find_index {A} (p : A → bool) (l : list A) : option nat :=
  match l with
  | [] => None
  | x :: l' => if p x then Some 0 else S <$> find_index p l'
  end.

(** [append(l[:i], l[i+1:]...)] for the first index [i] with [l[i] == x]; the
    list itself when [x] does not occur. *)
Fixpoint remove_first (x : Z) (l : list Z) : list Z :=
  match l with
  | [] => []
  | y :: l' => if Z.eqb y x then l' else y :: remove_first x l'
  end.

(** Swapping positions [i] and [j] of a slice ([s[i], s[j] = s[j], s[i]]).  Out
    of range the source would panic; every caller keeps its indices in range. *)
Definition swap {A} (i j : nat) (l : list A) : list A :=
  match l !! i, l !! j with
  | Some x, Some y => <[i:=y]> (<[j:=x]> l)
  | _, _ => l
  end.

(** The ascending list of the integers of a finite set: what
    [slices.SortFunc] makes of the keys of a Go map, whatever the order the
    randomized map iteration produced them in. *)
Definition sorted_keys (s : gset Z) : list Z := merge_sort Z.le (elements s).

(** [sort.Slice] and [slices.SortFunc] with the strict order [lt]: an insertion
    sort.  Go's sorts are not stable; the theorems only use that the result is
    a sorted permutation, which determines it when no two elements tie. *)
Fixpoint insert_by {A} (lt : A → A → bool) (x : A) (l : list A) : list A :=
  match l with
  | [] => [x]
  | y :: l' => if lt y x then y :: insert_by lt x l' else x :: l
  end.

Definition sort_by {A} (lt : A → A → bool) (l : list A) : list A :=
  foldr (insert_by lt) [] l.

(** ** Generic lemmas *)

Lemma count_if_app {A} (p : A → bool) l1 l2 :
  count_if p (l1 ++ l2) = count_if p l1 + count_if p l2.
Proof. induction l1 as [|x l1 IH]; simpl; [done|]. rewrite IH. lia. Qed.

Lemma count_if_le_length {A} (p : A → bool) l : count_if p l ≤ length l.
Proof. induction l as [|x l IH]; simpl; [done|]. destruct (p x); lia. Qed.

Lemma count_if_insert {A} (p : A → bool) (l : list A) i x y :
  l !! i = Some y →
  count_if p (<[i:=x]> l) + (if p y then 1 else 0)
  = count_if p l + (if p x then 1 else 0).
Proof.
  revert i. induction l as [|z l IH]; intros [|i] Hi; simplify_eq/=; [lia|].
  specialize (IH _ Hi). lia.
Qed.

Lemma count_if_replicate {A} (p : A → bool) n (x : A) :
  count_if p (replicate n x) = if p x then n else 0.
Proof. induction n as [|n IH]; simpl; [by destruct (p x)|]. rewrite IH. destruct (p x); lia. Qed.

Lemma find_index_Some {A} (p : A → bool) l i :
  find_index p l = Some i ↔
  ∃ x, l !! i = Some x ∧ p x = true ∧ ∀ j y, j < i → l !! j = Some y → p y = false.
Proof.
  revert i. induction l as [|x l IH]; intros i; simpl.
  { split; [done|]. intros (? & ? & _). by rewrite lookup_nil in H. }
  destruct (p x) eqn:Hx.
  - split.
    + intros [= <-]. exists x. split_and!; [done|done|lia].
    + intros (y & Hy & Hp & Hlt). destruct i as [|i]; [done|].
      specialize (Hlt 0 x ltac:(lia) eq_refl). congruence.
  - rewrite fmap_Some. split.
    + intros (j & (y & Hy & Hp & Hlt)%IH & ->). exists y. split_and!; [done|done|].
      intros [|k] z Hk Hz; simplify_eq/=; [done|]. eapply Hlt; [|done]. lia.
    + intros (y & Hy & Hp & Hlt). destruct i as [|i]; simplify_eq/=; [congruence|].
      exists i. split; [|done]. apply IH. exists y. split_and!; [done|done|].
      intros j z Hj Hz. apply (Hlt (S j)); [lia|done].
Qed.

Lemma find_index_None {A} (p : A → bool) l :
  find_index p l = None ↔ ∀ x, x ∈ l → p x = false.
Proof.
  induction l as [|x l IH]; simpl.
  { split; [intros _ y Hy; by apply not_elem_of_nil in Hy|done]. }
  destruct (p x) eqn:Hx.
  - split; [done|]. intros H. specialize (H x ltac:(left)). congruence.
  - rewrite fmap_None, IH. split.
    + intros H y [->|Hy]%elem_of_cons; auto.
    + intros H y Hy. apply H. by right.
Qed.

Lemma remove_first_elem x y l : y ∈ remove_first x l → y ∈ l.
Proof.
  induction l as [|z l IH]; simpl; [done|].
  case (Z.eqb_spec z x); intros ?; [by right|].
  rewrite !elem_of_cons. naive_solver.
Qed.

Lemma remove_first_ne x y l : y ≠ x → y ∈ l → y ∈ remove_first x l.
Proof.
  intros Hne. induction l as [|z l IH]; simpl; [done|].
  case (Z.eqb_spec z x); intros ?; rewrite !elem_of_cons; naive_solver.
Qed.

Lemma remove_first_NoDup x l : NoDup l → NoDup (remove_first x l).
Proof.
  induction 1 as [|z l Hz Hl IH]; simpl; [constructor|].
  case (Z.eqb_spec z x); intros ?; [done|].
  constructor; [|done]. intros ?%remove_first_elem. done.
Qed.

Lemma remove_first_not_in x l : NoDup l → x ∉ remove_first x l.
Proof.
  induction 1 as [|z l Hz Hl IH]; simpl; [apply not_elem_of_nil|].
  case (Z.eqb_spec z x); intros ?; [by subst|].
  rewrite elem_of_cons. naive_solver.
Qed.

Lemma swap_Permutation {A} i j (l : list A) : swap i j l ≡ₚ l.
Proof.
  unfold swap. destruct (l !! i) eqn:Hi; [|done]. destruct (l !! j) eqn:Hj; [|done].
  by apply Permutation_insert_swap.
Qed.

Lemma swap_length {A} i j (l : list A) : length (swap i j l) = length l.
Proof. by rewrite swap_Permutation. Qed.

Lemma swap_lookup {A} i j (l : list A) k :
  i < length l → j < length l →
  swap i j l !! k = if decide (k = i) then l !! j
                    else if decide (k = j) then l !! i else l !! k.
Proof.
  intros [x Hx]%lookup_lt_is_Some_2 [y Hy]%lookup_lt_is_Some_2.
  unfold swap. rewrite Hx, Hy. apply lookup_lt_Some in Hx as ?, Hy as ?.
  case_decide as Hki; [subst; rewrite list_lookup_insert_eq; [done|by rewrite length_insert]|].
  rewrite list_lookup_insert_ne by done.
  case_decide as Hkj; [subst; by rewrite list_lookup_insert_eq|].
  by rewrite list_lookup_insert_ne.
Qed.

Lemma filter_ext_in {A} (P Q : A → Prop) `{∀ x, Decision (P x), ∀ x, Decision (Q x)} (l : list A) :
  (∀ x, x ∈ l → P x ↔ Q x) → filter P l = filter Q l.
Proof.
  induction l as [|x l IH]; intros H1; [done|]. rewrite !filter_cons.
  rewrite IH by (intros; apply H1; by right). specialize (H1 x ltac:(left)).
  repeat case_decide; tauto.
Qed.

Lemma filter_all_in {A} (P : A → Prop) `{∀ x, Decision (P x)} (l : list A) :
  (∀ x, x ∈ l → P x) → filter P l = l.
Proof.
  induction l as [|x l IH]; intros H1; [done|]. rewrite filter_cons.
  rewrite decide_True by (apply H1; by left). f_equal. apply IH. intros. apply H1. by right.
Qed.

Lemma filter_filter {A} (P Q : A → Prop) `{∀ x, Decision (P x), ∀ x, Decision (Q x)} (l : list A) :
  filter P (filter Q l) = filter (λ x, P x ∧ Q x) l.
Proof.
  induction l as [|x l IH]; [done|]. rewrite !filter_cons.
  repeat case_decide; rewrite ?filter_cons; repeat case_decide; try tauto; by rewrite IH.
Qed.

Lemma insert_by_Permutation {A} (lt : A → A → bool) x l : insert_by lt x l ≡ₚ x :: l.
Proof.
  induction l as [|y l IH]; simpl; [done|]. destruct (lt y x); [|done].
  rewrite IH. constructor.
Qed.

Lemma sort_by_Permutation {A} (lt : A → A → bool) l : sort_by lt l ≡ₚ l.
Proof. induction l as [|x l IH]; simpl; [done|]. by rewrite insert_by_Permutation, IH. Qed.

(** On elements in [P], where "not above" is transitive, the sort sorts. *)
Lemma sort_by_sorted {A} (lt : A → A → bool) (P : A → Prop) l :
  (∀ x y, lt x y = true → lt y x = false) →
  (∀ x y z, P x → P y → P z → lt y x = false → lt z y = false → lt z x = false) →
  Forall P l → StronglySorted (λ x y, lt y x = false) (sort_by lt l).
Proof.
  intros Hasym Htrans. induction 1 as [|x l Hx Hl IH]; simpl; [constructor|].
  assert (Forall P (sort_by lt l)) as HP by (by rewrite sort_by_Permutation).
  induction IH as [|y l' Hs IH' Hall]; simpl; [by repeat constructor|].
  apply Forall_cons in HP as [Hy HP]. destruct (lt y x) eqn:E.
  - constructor; [auto|]. rewrite Forall_forall in *. intros z Hz.
    rewrite insert_by_Permutation in Hz. apply elem_of_cons in Hz as [->|Hz]; auto.
  - constructor; [by constructor|]. constructor; [done|]. rewrite Forall_forall in *.
    intros z Hz. apply (Htrans x y z); auto.
Qed.

Lemma StronglySorted_irrefl_NoDup {A} (R : A → A → Prop) (l : list A) :
  (∀ x, ¬ R x x) → StronglySorted R l → NoDup l.
Proof.
  intros Hirr. induction 1 as [|x l _ IH Hall]; constructor; [|done].
  intros Hx. rewrite Forall_forall in Hall. by apply (Hirr x), Hall.
Qed.

(** A prefix of a list sorted for [R] is [R]-below the rest. *)
Lemma sorted_take_drop {A} (R : A → A → Prop) n (l : list A) x y :
  StronglySorted R l → x ∈ take n l → y ∈ drop n l → R x y.
Proof.
  intros Hs Hx Hy. rewrite <- (take_drop n l) in Hs.
  induction (take n l) as [|z l' IH]; [by apply not_elem_of_nil in Hx|].
  simpl in Hs. apply StronglySorted_inv in Hs as [Hs Hall].
  apply elem_of_cons in Hx as [->|Hx]; [|auto].
  rewrite Forall_forall in Hall. apply Hall, elem_of_app. by right.
Qed.

(** A list without duplicates whose members all lie in another is no longer. *)
Lemma NoDup_subset_length {A} (l1 l2 : list A) :
  NoDup l1 → (∀ x, x ∈ l1 → x ∈ l2) → length l1 ≤ length l2.
Proof. intros Hnd Hsub. by apply submseteq_length, NoDup_submseteq. Qed.

Lemma elem_of_sorted_keys x s : x ∈ sorted_keys s ↔ x ∈ s.
Proof. unfold sorted_keys. by rewrite merge_sort_Permutation, elem_of_elements. Qed.

Lemma sorted_keys_NoDup s : NoDup (sorted_keys s).
Proof. unfold sorted_keys. rewrite merge_sort_Permutation. apply NoDup_elements. Qed.

Lemma sorted_keys_sorted s : StronglySorted Z.le (sorted_keys s).
Proof.
  unfold sorted_keys. apply (StronglySorted_merge_sort Z.le).
Qed.

Lemma sorted_keys_length s : length (sorted_keys s) = size s.
Proof. unfold sorted_keys. by rewrite merge_sort_Permutation. Qed.

Create HintDb ot discriminated.
#[export] Hint Resolve elem_of_sorted_keys sorted_keys_NoDup sorted_keys_sorted : ot.

(** Case analysis on the boolean comparisons of the translated guards. *)
Ltac case_bool :=
  match goal with
  | |- context [Z.eqb ?a ?b] => destruct (Z.eqb_spec a b)
  | |- context [Z.ltb ?a ?b] => destruct (Z.ltb_spec a b)
  | |- context [Z.leb ?a ?b] => destruct (Z.leb_spec a b)
  | H : context [Z.eqb ?a ?b] |- _ => destruct (Z.eqb_spec a b)
  | H : context [Z.ltb ?a ?b] |- _ => destruct (Z.ltb_spec a b)
  | H : context [Z.leb ?a ?b] |- _ => destruct (Z.leb_spec a b)
  end.
