(* ===== verification/Strings.v ===== *)
(** * Strings

    The order of strings that Go's [<] and [cmp.Compare] use (bytewise), and
    sorting by it. *)
From stdpp Require Import strings.
From S2P Require Import Prelude.

Lemma string_compare_refl s : String.compare s s = Eq.
Proof. induction s as [|c s IH]; [done|]. simpl. unfold Ascii.compare. by rewrite N.compare_refl. Qed.

Lemma string_ltb_lt s t : String.ltb s t = true ↔ String.compare s t = Lt.
Proof. unfold String.ltb. by destruct (String.compare s t). Qed.

Lemma string_compare_trans s : ∀ t u, String.compare s t = Lt → String.compare t u = Lt → String.compare s u = Lt.
Proof.
  induction s as [|c s IH]; intros [|d t] [|e u]; simpl; try done. unfold Ascii.compare.
  destruct (N.compare_spec (Ascii.N_of_ascii c) (Ascii.N_of_ascii d)),
    (N.compare_spec (Ascii.N_of_ascii d) (Ascii.N_of_ascii e)),
    (N.compare_spec (Ascii.N_of_ascii c) (Ascii.N_of_ascii e)); try done; try lia. apply IH.
Qed.

Lemma string_ltb_irrefl s : String.ltb s s = false.
Proof. unfold String.ltb. by rewrite string_compare_refl. Qed.

Lemma string_ltb_trans s t u : String.ltb s t = true → String.ltb t u = true → String.ltb s u = true.
Proof. rewrite !string_ltb_lt. apply string_compare_trans. Qed.

Lemma string_ltb_asym s t : String.ltb s t = true → String.ltb t s = false.
Proof.
  intros H. destruct (String.ltb t s) eqn:E; [|done]. pose proof (string_ltb_trans _ _ _ H E) as E'.
  by rewrite string_ltb_irrefl in E'.
Qed.

Lemma string_ltb_total s t : String.ltb s t = false → String.ltb t s = false → s = t.
Proof.
  unfold String.ltb. rewrite (String.compare_antisym t s). destruct (String.compare s t) eqn:E; try done.
  intros _ _. by apply String.compare_eq_iff.
Qed.

Lemma string_ltb_negtrans s t u : String.ltb t s = false → String.ltb u t = false → String.ltb u s = false.
Proof.
  intros H1 H2. destruct (String.ltb u s) eqn:E; [|done].
  destruct (String.ltb s t) eqn:E1; [by rewrite (string_ltb_trans _ _ _ E E1) in H2|].
  by rewrite (string_ltb_total t s H1 E1) in H2; rewrite E in H2.
Qed.

(** Sorting by a string key sorts. *)
Lemma sort_by_key_sorted {A} (key : A → string) (l : list A) :
  StronglySorted (λ x y, String.ltb (key y) (key x) = false) (sort_by (λ x y, String.ltb (key x) (key y)) l).
Proof.
  apply (sort_by_sorted (λ x y, String.ltb (key x) (key y)) (λ _, True)).
  - intros x y. apply string_ltb_asym.
  - intros x y z _ _ _. apply string_ltb_negtrans.
  - by apply Forall_forall.
Qed.

#[export] Hint Resolve string_ltb_irrefl string_ltb_trans string_ltb_asym : ot.
