(* ===== verification/Word.v ===== *)
(** * Machine integers

    Go's [uint64], [uint32], [uint16], [uint8] and [int64] values are integers
    in range; every arithmetic operation of the source is the operation on [Z]
    followed by the wrap-around of its width.  The file also holds FNV-1a, the
    hash that the coverage, novelty and input-tree components share. *)
From S2P Require Import Prelude.
Local Open Scope Z_scope.

(** Unsigned wrap-around at width [w]. *)
Definition wrap (w x : Z) : Z := x mod 2 ^ w.

Abbreviation u64 := (wrap 64).
Abbreviation u32 := (wrap 32).
Abbreviation u16 := (wrap 16).
Abbreviation u8 := (wrap 8).

(** Conversion to the two's complement [int64]. *)
Definition int64 (x : Z) : Z :=
  let y := wrap 64 x in if y <? 2 ^ 63 then y else y - 2 ^ 64.

Definition add64 (x y : Z) : Z := u64 (x + y).
Definition sub64 (x y : Z) : Z := u64 (x - y).
Definition mul64 (x y : Z) : Z := u64 (x * y).
Definition xor64 (x y : Z) : Z := Z.lxor x y.
Definition shr64 (x n : Z) : Z := Z.shiftr x n.

Definition is_word (w x : Z) : Prop := 0 <= x < 2 ^ w.
#[global] Instance is_word_dec w x : Decision (is_word w x).
Proof. unfold is_word. apply _. Defined.

Definition fnvOffset64 : Z := 14695981039346656037.
Definition fnvPrime64 : Z := 1099511628211.

(** One FNV-1a step: [h ^= uint64(c); h *= fnvPrime64]. *)
Definition fnv_step (h c : Z) : Z := mul64 (xor64 h c) fnvPrime64.

(** The bytes of a Go string. *)
Definition bytes_of (s : string) : list Z :=
  map (λ a, Z.of_nat (Ascii.nat_of_ascii a)) (String.list_ascii_of_string s).

(** ** Lemmas *)

Lemma wrap_bound w x : 0 <= w -> 0 <= wrap w x < 2 ^ w.
Proof. intros. unfold wrap. apply Z.mod_pos_bound. lia. Qed.

Lemma wrap_is_word w x : 0 <= w -> is_word w (wrap w x).
Proof. apply wrap_bound. Qed.

Lemma wrap_small w x : is_word w x -> wrap w x = x.
Proof. unfold wrap, is_word. intros. by apply Z.mod_small. Qed.

Lemma wrap_wrap w x : 0 <= w -> wrap w (wrap w x) = wrap w x.
Proof. intros. apply wrap_small, wrap_is_word. lia. Qed.

Lemma wrap_add_l w x y : wrap w (wrap w x + y) = wrap w (x + y).
Proof. unfold wrap. apply Zplus_mod_idemp_l. Qed.

Lemma wrap_add_r w x y : wrap w (x + wrap w y) = wrap w (x + y).
Proof. unfold wrap. apply Zplus_mod_idemp_r. Qed.

Lemma wrap_mul_l w x y : wrap w (wrap w x * y) = wrap w (x * y).
Proof. unfold wrap. apply Zmult_mod_idemp_l. Qed.

Lemma wrap_mul_r w x y : wrap w (x * wrap w y) = wrap w (x * y).
Proof. unfold wrap. apply Zmult_mod_idemp_r. Qed.

Lemma add64_word x y : is_word 64 (add64 x y).
Proof. apply wrap_is_word. lia. Qed.

Lemma mul64_word x y : is_word 64 (mul64 x y).
Proof. apply wrap_is_word. lia. Qed.

Lemma word_testbit_high w x n :
  0 <= w -> is_word w x -> w <= n -> Z.testbit x n = false.
Proof.
  intros Hw [H0 H1] Hn. destruct (decide (x = 0)) as [->|].
  - apply Z.testbit_0_l.
  - apply Z.bits_above_log2; [lia|].
    apply Z.lt_le_trans with w; [|lia]. apply Z.log2_lt_pow2; lia.
Qed.

Lemma word_bits w x :
  0 <= w -> 0 <= x -> (∀ n, w <= n -> Z.testbit x n = false) -> is_word w x.
Proof.
  intros Hw H0 Hbits. split; [done|].
  destruct (Z.lt_ge_cases x (2 ^ w)) as [|Hge]; [done|exfalso].
  assert (0 < x) by lia.
  assert (w <= Z.log2 x) by (apply Z.log2_le_pow2; lia).
  specialize (Hbits (Z.log2 x) ltac:(lia)).
  rewrite Z.bit_log2 in Hbits; [done|lia].
Qed.

Lemma xor64_word x y : is_word 64 x -> is_word 64 y -> is_word 64 (xor64 x y).
Proof.
  intros Hx Hy. apply word_bits; [lia| |].
  - apply Z.lxor_nonneg. destruct Hx, Hy. lia.
  - intros n Hn. unfold xor64. rewrite Z.lxor_spec.
    by rewrite !(word_testbit_high 64) by (done || lia).
Qed.

Lemma shr64_word x n : 0 <= n -> is_word 64 x -> is_word 64 (shr64 x n).
Proof.
  intros Hn [H0 H1]. unfold shr64. rewrite Z.shiftr_div_pow2 by lia.
  split; [apply Z.div_pos; lia|].
  apply Z.le_lt_trans with x; [|lia]. apply Z.div_le_upper_bound; nia.
Qed.

(** Multiplying by an odd constant (given by its inverse) loses nothing. *)
Lemma mul64_inj c ci x y :
  wrap 64 (c * ci) = 1 -> is_word 64 x -> is_word 64 y ->
  mul64 x c = mul64 y c -> x = y.
Proof.
  intros Hc Hx Hy Heq. unfold mul64 in Heq.
  assert (∀ z, is_word 64 z -> wrap 64 (wrap 64 (z * c) * ci) = z) as Hinv.
  { intros z Hz. rewrite wrap_mul_l, <- Z.mul_assoc, <- wrap_mul_r, Hc, Z.mul_1_r.
    by apply wrap_small. }
  rewrite <- (Hinv x), <- (Hinv y), Heq; done.
Qed.

(** The xorshift step [z ^ (z >> k)] loses nothing: the bits of [z] are
    recovered from the top down. *)
Lemma xorshift_inj k x y :
  0 < k -> is_word 64 x -> is_word 64 y ->
  xor64 x (shr64 x k) = xor64 y (shr64 y k) -> x = y.
Proof.
  intros Hk Hx Hy Heq.
  assert (∀ m : nat, ∀ n, 64 - Z.of_nat m <= n -> 0 <= n -> Z.testbit x n = Z.testbit y n) as Hbits.
  { induction m as [|m IH]; intros n Hn H0.
    - by rewrite !(word_testbit_high 64) by (done || lia).
    - assert (Z.testbit (xor64 x (shr64 x k)) n = Z.testbit (xor64 y (shr64 y k)) n) as Hb
        by (by rewrite Heq).
      unfold xor64, shr64 in Hb. rewrite !Z.lxor_spec, !Z.shiftr_spec in Hb by lia.
      rewrite (IH (n + k)) in Hb by lia.
      destruct (Z.testbit x n), (Z.testbit y n), (Z.testbit y (n + k)); done. }
  apply Z.bits_inj'. intros n Hn. apply (Hbits 64%nat); lia.
Qed.

Lemma fnv_step_word h c : is_word 64 (fnv_step h c).
Proof. apply mul64_word. Qed.

Lemma fnv_fold_word h cs : is_word 64 h -> is_word 64 (fold_left fnv_step cs h).
Proof.
  revert h. induction cs as [|c cs IH]; simpl; intros h Hh; [done|].
  apply IH, fnv_step_word.
Qed.

Lemma fnv_step_inj c x y :
  is_word 64 c -> is_word 64 x -> is_word 64 y -> fnv_step x c = fnv_step y c -> x = y.
Proof.
  intros Hc Hx Hy Heq.
  apply (mul64_inj fnvPrime64 14886173955864302971) in Heq; [|reflexivity|by apply xor64_word..].
  unfold xor64 in Heq. apply (f_equal (fun z => Z.lxor z c)) in Heq.
  by rewrite !Z.lxor_assoc, !Z.lxor_nilpotent, !Z.lxor_0_r in Heq.
Qed.

Lemma fnv_fold_inj cs x y :
  Forall (is_word 64) cs -> is_word 64 x -> is_word 64 y ->
  foldl fnv_step x cs = foldl fnv_step y cs -> x = y.
Proof.
  intros Hcs. revert x y. induction Hcs as [|c cs Hc Hcs IH]; intros x y Hx Hy Heq; [done|].
  apply (fnv_step_inj c); [done|done|done|]. by apply IH; [apply mul64_word..|].
Qed.

Lemma bytes_of_bound s : Forall (fun b => 0 <= b < 256) (bytes_of s).
Proof.
  unfold bytes_of. rewrite Forall_forall. intros b Hb. apply list_elem_of_In, in_map_iff in Hb as (a & <- & _).
  pose proof (Ascii.nat_ascii_bounded a). lia.
Qed.

#[export] Hint Resolve add64_word mul64_word xor64_word fnv_step_word fnv_fold_word : ot.
#[export] Hint Resolve wrap_is_word shr64_word : ot.
