(* ===== verification/Float.v ===== *)
(** * IEEE 754 binary64

    Go's [float64] is modelled by [SpecFloat], the executable specification of
    IEEE 754 of the standard library, at precision 53 and maximal exponent
    1024 with round-to-nearest-even.  Go may fuse [x*y + z] on some
    architectures; the model rounds after every operation, which is what the
    compiler emits on amd64.  Conversions from integers round, conversions to
    integers truncate. *)
From S2P Require Import Prelude Word.
From Stdlib Require Export SpecFloat.
Local Open Scope Z_scope.

Abbreviation float64 := spec_float.

Definition fadd : float64 -> float64 -> float64 := SFadd 53 1024.
Definition fsub : float64 -> float64 -> float64 := SFsub 53 1024.
Definition fmul : float64 -> float64 -> float64 := SFmul 53 1024.
Definition fdiv : float64 -> float64 -> float64 := SFdiv 53 1024.
Definition fsqrt : float64 -> float64 := SFsqrt 53 1024.
Definition fneg : float64 -> float64 := SFopp.
Definition flt : float64 -> float64 -> bool := SFltb.
Definition fle : float64 -> float64 -> bool := SFleb.
Definition feq : float64 -> float64 -> bool := SFeqb.
(** Go's [x > y], [x >= y] and [x != y]. *)
Definition fgt (x y : float64) : bool := flt y x.
Definition fge (x y : float64) : bool := fle y x.
Definition fne (x y : float64) : bool := negb (feq x y).

(** [float64(i)] for an integer [i]. *)
Definition float_of_Z (i : Z) : float64 := binary_normalize 53 1024 i 0 false.

(** The literal [p/q] of the source, the double nearest to it. *)
Definition flit (p q : Z) : float64 := fdiv (float_of_Z p) (float_of_Z q).

Definition fzero : float64 := S754_zero false.
Definition fone : float64 := float_of_Z 1.
Definition finf : float64 := S754_infinity false.
Definition fneginf : float64 := S754_infinity true.

(** [int(x)]: truncation towards zero.  The conversion of a value that does
    not fit (infinities and NaN included) is implementation-defined in Go; the
    model gives 0 there and every theorem is about values that fit. *)
Definition trunc (x : float64) : Z :=
  match x with
  | S754_finite s m e =>
      let a := if 0 <=? e then Z.pos m * 2 ^ e else Z.pos m / 2 ^ (- e) in
      if s then - a else a
  | _ => 0
  end.

Definition is_nan (x : float64) : bool :=
  match x with S754_nan => true | _ => false end.

(** A key whose lexicographic order is the order of the floats. *)
Definition fkey (x : float64) : Z * Z * Z :=
  match x with
  | S754_nan => (3, 0, 0)
  | S754_infinity s => (if s then -2 else 2, 0, 0)
  | S754_zero _ => (0, 0, 0)
  | S754_finite false m e => (1, e, Z.pos m)
  | S754_finite true m e => (-1, - e, - Z.pos m)
  end.

Definition lex3 (a b : Z * Z * Z) : comparison :=
  let '(a1, a2, a3) := a in
  let '(b1, b2, b3) := b in
  match a1 ?= b1 with
  | Eq => match a2 ?= b2 with Eq => a3 ?= b3 | c => c end
  | c => c
  end.

(** A value of Go's type [any], as maps of details and parameters hold them: a
    constructor for each dynamic type that is stored in one. *)
Inductive any :=
| AnyNil | AnyBool (b : bool) | AnyInt (i : Z) | AnyInt64 (i : Z) | AnyFloat (f : float64) | AnyString (s : string)
| AnyStrings (l : list string) | AnyStringLists (l : list (list string))
| AnyList (l : list any) | AnyMap (m : list (string * any)).

(** ** Order *)

Lemma SFcompare_lex x y :
  is_nan x = false -> is_nan y = false ->
  SFcompare x y = Some (lex3 (fkey x) (fkey y)).
Proof.
  destruct x as [sx|sx| |sx mx ex], y as [sy|sy| |sy my ey]; try done; intros _ _;
    try (destruct sx; done); try (destruct sy; done);
    try (destruct sx, sy; done).
  destruct sx, sy; simpl; try done.
  rewrite Z.compare_opp, (Z.compare_antisym ex ey). by destruct (ex ?= ey).
Qed.

Lemma lex3_refl a : lex3 a a = Eq.
Proof. destruct a as [[]]; simpl. by rewrite !Z.compare_refl. Qed.

Lemma lex3_antisym a b : lex3 b a = CompOpp (lex3 a b).
Proof.
  destruct a as [[a1 a2] a3], b as [[b1 b2] b3]; simpl.
  rewrite (Z.compare_antisym a1 b1), (Z.compare_antisym a2 b2), (Z.compare_antisym a3 b3).
  by destruct (a1 ?= b1), (a2 ?= b2).
Qed.

Lemma lex3_lt a b :
  lex3 a b = Lt <->
  fst (fst a) < fst (fst b) \/
  (fst (fst a) = fst (fst b) /\
   (snd (fst a) < snd (fst b) \/ (snd (fst a) = snd (fst b) /\ snd a < snd b))).
Proof.
  destruct a as [[a1 a2] a3], b as [[b1 b2] b3]; simpl.
  destruct (Z.compare_spec a1 b1), (Z.compare_spec a2 b2), (Z.compare_spec a3 b3);
    split; intros; try done; lia.
Qed.

Lemma flt_lex x y :
  is_nan x = false -> is_nan y = false ->
  flt x y = true <-> lex3 (fkey x) (fkey y) = Lt.
Proof.
  intros Hx Hy. unfold flt, SFltb. rewrite SFcompare_lex by done.
  by destruct (lex3 _ _).
Qed.

Lemma flt_irrefl x : flt x x = false.
Proof.
  destruct (is_nan x) eqn:Hx; [by destruct x|].
  unfold flt, SFltb. rewrite SFcompare_lex by done. by rewrite lex3_refl.
Qed.

Lemma flt_not_nan x y : flt x y = true -> is_nan x = false /\ is_nan y = false.
Proof. destruct x as [[]|[]| |[]], y as [[]|[]| |[]]; done. Qed.

Lemma flt_trans x y z : flt x y = true -> flt y z = true -> flt x z = true.
Proof.
  intros H1 H2. destruct (flt_not_nan _ _ H1), (flt_not_nan _ _ H2).
  rewrite flt_lex, lex3_lt in * by done. lia.
Qed.

(** On numbers, "neither below nor above" is an equivalence: the order is a
    strict weak order, which is what a heap or a sort needs. *)
Lemma flt_negtrans x y z :
  is_nan x = false -> is_nan y = false -> is_nan z = false ->
  flt x z = true -> flt x y = true \/ flt y z = true.
Proof. intros ???. rewrite !flt_lex, !lex3_lt by done. lia. Qed.

Lemma flt_asym x y : flt x y = true -> flt y x = false.
Proof.
  intros H. destruct (flt y x) eqn:H'; [|done].
  pose proof (flt_trans _ _ _ H H'). by rewrite flt_irrefl in *.
Qed.

Lemma feq_flt x y :
  is_nan x = false -> is_nan y = false ->
  feq x y = negb (flt x y) && negb (flt y x).
Proof.
  intros Hx Hy. unfold feq, flt, SFeqb, SFltb. rewrite !SFcompare_lex by done.
  rewrite (lex3_antisym (fkey x) (fkey y)). by destruct (lex3 _ _).
Qed.

Lemma fle_flt x y :
  is_nan x = false -> is_nan y = false -> fle x y = negb (flt y x).
Proof.
  intros Hx Hy. unfold fle, flt, SFleb, SFltb. rewrite !SFcompare_lex by done.
  rewrite (lex3_antisym (fkey x) (fkey y)). by destruct (lex3 _ _).
Qed.

(** ** Integers as floats, and products with a number in [0, 1) *)

Lemma iter_pos_nat {A} (f : A -> A) p x : iter_pos f p x = Nat.iter (Pos.to_nat p) f x.
Proof.
  revert x. induction p as [p IH|p IH|]; intros x; cbn [iter_pos]; [| |done].
  - rewrite !IH, Pos2Nat.inj_xI, <- Nat.iter_add, <- Nat.iter_succ_r. f_equal. lia.
  - rewrite !IH, Pos2Nat.inj_xO, <- Nat.iter_add. f_equal. lia.
Qed.

Lemma digits2_log2 p : Z.pos (digits2_pos p) = Z.log2 (Z.pos p) + 1.
Proof.
  induction p as [p IH|p IH|]; cbn [digits2_pos]; [| |done].
  - rewrite Pos2Z.inj_succ, IH. rewrite (Pos2Z.inj_xI p), Z.log2_succ_double by lia. lia.
  - rewrite Pos2Z.inj_succ, IH. rewrite (Pos2Z.inj_xO p), Z.log2_double by lia. lia.
Qed.

Lemma digits2_bounds p :
  2 ^ (Z.pos (digits2_pos p) - 1) <= Z.pos p < 2 ^ (Z.pos (digits2_pos p)).
Proof.
  rewrite digits2_log2. replace (Z.log2 (Z.pos p) + 1 - 1) with (Z.log2 (Z.pos p)) by lia.
  pose proof (Z.log2_spec (Z.pos p)). rewrite <- Z.add_1_r in *. lia.
Qed.

Lemma digits2_unique p d :
  0 < d -> 2 ^ (d - 1) <= Z.pos p < 2 ^ d -> Z.pos (digits2_pos p) = d.
Proof.
  intros Hd Hp. rewrite digits2_log2.
  rewrite (Z.log2_unique (Z.pos p) (d - 1)); [lia|lia|].
  replace (Z.succ (d - 1)) with d by lia. done.
Qed.

Lemma iter_xO m p : Z.pos (Pos.iter xO m p) = Z.pos m * 2 ^ Z.pos p.
Proof.
  induction p as [|p IH] using Pos.peano_ind; [simpl; lia|].
  rewrite Pos.iter_succ, Pos2Z.inj_xO, IH, Pos2Z.inj_succ, Z.pow_succ_r by lia. lia.
Qed.

(** The state of the right shift after [n] steps on [p]: quotient, round bit
    and sticky bit. *)
Definition shifted (p n : Z) (mrs : shr_record) : Prop :=
  shr_m mrs = p / 2 ^ n /\
  (n = 0 -> shr_r mrs = false /\ shr_s mrs = false) /\
  (0 < n -> shr_r mrs = Z.odd (p / 2 ^ (n - 1)) /\
            shr_s mrs = negb (p mod 2 ^ (n - 1) =? 0)).

Lemma shr_1_fields mrs :
  0 <= shr_m mrs ->
  shr_m (shr_1 mrs) = shr_m mrs / 2 /\
  shr_r (shr_1 mrs) = Z.odd (shr_m mrs) /\
  shr_s (shr_1 mrs) = shr_r mrs || shr_s mrs.
Proof.
  destruct mrs as [m r s]; simpl. intros Hm.
  rewrite <- Z.div2_div. by destruct m as [|[]|].
Qed.

Lemma mod_pow_succ p n : 0 <= n ->
  p mod 2 ^ (n + 1) = p mod 2 ^ n + 2 ^ n * Z.b2z (Z.odd (p / 2 ^ n)).
Proof.
  intros Hn. rewrite Z.pow_add_r, Z.pow_1_r by lia.
  rewrite Z.rem_mul_r by lia.
  f_equal. f_equal. rewrite Zmod_odd. by destruct (Z.odd _).
Qed.

Lemma shifted_step p n mrs :
  0 <= p -> 0 <= n -> shifted p n mrs -> shifted p (n + 1) (shr_1 mrs).
Proof.
  intros Hp Hn (Hm & H0 & Hpos).
  assert (0 <= shr_m mrs) as Hm0 by (rewrite Hm; apply Z.div_pos; lia).
  destruct (shr_1_fields mrs Hm0) as (Hm' & Hr' & Hs').
  split_and!; [|lia|intros _; split].
  - rewrite Hm', Hm, Z.div_div, Z.pow_add_r by lia. done.
  - rewrite Hr', Hm. by replace (n + 1 - 1) with n by lia.
  - rewrite Hs'. replace (n + 1 - 1) with n by lia.
    destruct (decide (n = 0)) as [->|Hn0].
    { destruct (H0 eq_refl) as [-> ->]. by rewrite Z.mod_1_r. }
    destruct Hpos as [-> ->]; [lia|].
    replace (p mod 2 ^ n) with (p mod 2 ^ (n - 1 + 1)) by (do 2 f_equal; lia).
    rewrite mod_pow_succ by lia.
    pose proof (Z.mod_pos_bound p (2 ^ (n - 1)) ltac:(lia)) as Hb.
    assert (0 < 2 ^ (n - 1)) as Hpow by lia.
    generalize dependent (p mod 2 ^ (n - 1)). generalize dependent (2 ^ (n - 1)).
    intros q Hq r Hb. 
    destruct (Z.odd (p / q)); simpl; repeat case_bool; simpl; try done; lia.
Qed.

Lemma shr_exact p e n :
  0 <= p -> 0 <= n ->
  ∃ mrs, shr (shr_record_of_loc p loc_Exact) e n = (mrs, e + n) /\ shifted p n mrs.
Proof.
  intros Hp Hn. destruct n as [|n|n]; [| |lia].
  - eexists. split; [simpl; f_equal; lia|]. split_and!; [|done|lia].
    by rewrite Z.pow_0_r, Z.div_1_r.
  - eexists. split; [done|]. rewrite iter_pos_nat.
    rewrite <- (positive_nat_Z n). induction (Pos.to_nat n) as [|k IH].
    + split_and!; [|done|lia]. by rewrite Z.pow_0_r, Z.div_1_r.
    + rewrite Nat.iter_succ, Nat2Z.inj_succ, <- Z.add_1_r.
      apply shifted_step; [done|lia|done].
Qed.

(** The rounded quotient is the floor, or the floor plus one when at least
    half a unit was lost. *)
Lemma round_nearest_even_bounds p n mrs :
  0 <= p -> 0 <= n -> shifted p n mrs ->
  let M := round_nearest_even (shr_m mrs) (loc_of_shr_record mrs) in
  M = p / 2 ^ n \/ (M = p / 2 ^ n + 1 /\ 2 ^ n <= 2 * (p mod 2 ^ n)).
Proof.
  intros Hp Hn (Hm & H0 & Hpos). destruct mrs as [m r s]; simpl in *. subst m.
  destruct (decide (n = 0)) as [->|Hn0].
  { destruct (H0 eq_refl) as [-> ->]. by left. }
  destruct Hpos as [-> ->]; [lia|].
  assert (2 ^ n = 2 * 2 ^ (n - 1)) as E by (rewrite <- Z.pow_succ_r by lia; f_equal; lia).
  pose proof (mod_pow_succ p (n - 1) ltac:(lia)) as Hmod.
  replace (n - 1 + 1) with n in Hmod by lia.
  pose proof (Z.mod_pos_bound p (2 ^ (n - 1)) ltac:(lia)).
  destruct (Z.odd _), (_ =? 0); simpl in *;
    try (destruct (Z.even _)); auto; right; split; lia.
Qed.

Lemma fexp_normal x : -1021 <= x -> fexp 53 1024 x = x - 53.
Proof. unfold fexp, emin. lia. Qed.

(** [float64(k)] is exact for [0 < k < 2^53]. *)
Lemma binary_normalize_exact k e d :
  0 < k -> 0 < d <= 53 -> -1000 <= e <= 0 ->
  2 ^ (d - 1) <= k < 2 ^ d ->
  binary_normalize 53 1024 k e false
  = S754_finite false (Z.to_pos (k * 2 ^ (53 - d))) (e + d - 53).
Proof.
  intros Hk Hd He Hb. destruct k as [|k|]; try lia.
  pose proof (digits2_unique k d ltac:(lia) Hb) as Hdig.
  unfold binary_normalize, binary_round, shl_align.
  rewrite Hdig, fexp_normal by lia.
  assert (∃ m, (match d + e - 53 - e with
     | Z.neg p => (Pos.iter xO k p, d + e - 53) | _ => (k, e) end) = (m, d + e - 53)
     /\ Z.pos m = Z.pos k * 2 ^ (53 - d)) as (m & -> & Hm).
  { destruct (d + e - 53 - e) as [|p|p] eqn:E; try lia.
    - exists k. split; [f_equal; lia|]. replace (53 - d) with 0 by lia. lia.
    - eexists. split; [done|]. rewrite iter_xO. f_equal. f_equal. lia. }
  assert (Z.pos (digits2_pos m) = 53) as Hdm.
  { apply digits2_unique; [lia|]. rewrite Hm.
    replace (2 ^ (53 - 1)) with (2 ^ (d - 1) * 2 ^ (53 - d)) by (rewrite <- Z.pow_add_r by lia; f_equal; lia).
    replace (2 ^ 53) with (2 ^ d * 2 ^ (53 - d)) by (rewrite <- Z.pow_add_r by lia; f_equal; lia).
    nia. }
  rewrite <- Hm. unfold binary_round_aux, shr_fexp. simpl Zdigits2. rewrite Hdm.
  rewrite fexp_normal by lia.
  replace (53 + (d + e - 53) - 53 - (d + e - 53)) with 0 by lia. simpl. rewrite Hdm, fexp_normal by lia.
  replace (53 + (d + e - 53) - 53 - (d + e - 53)) with 0 by lia. simpl.
  rewrite (proj2 (Z.leb_le _ _)) by lia. f_equal; lia.
Qed.

(** The position of the leading bit of [k]. *)
Lemma leading_bit k w : 0 < k < 2 ^ w -> 0 < w ->
  ∃ d, 0 < d <= w /\ 2 ^ (d - 1) <= k < 2 ^ d.
Proof.
  intros Hk Hw. exists (Z.log2 k + 1).
  assert (Z.log2 k < w) by (apply Z.log2_lt_pow2; lia).
  pose proof (Z.log2_nonneg k). pose proof (Z.log2_spec k ltac:(lia)) as Hs.
  rewrite <- Z.add_1_r in Hs. replace (Z.log2 k + 1 - 1) with (Z.log2 k) by lia. lia.
Qed.

Lemma float_of_Z_exact k d :
  0 < k -> 0 < d <= 53 -> 2 ^ (d - 1) <= k < 2 ^ d ->
  float_of_Z k = S754_finite false (Z.to_pos (k * 2 ^ (53 - d))) (d - 53).
Proof.
  intros. unfold float_of_Z. rewrite (binary_normalize_exact k 0 d) by lia. done.
Qed.

Lemma scaled_mantissa k d : 0 < k -> 0 < d <= 53 -> 2 ^ (d - 1) <= k < 2 ^ d ->
  2 ^ 52 <= k * 2 ^ (53 - d) < 2 ^ 53.
Proof.
  intros Hk Hd Hb.
  replace (2 ^ 52) with (2 ^ (d - 1) * 2 ^ (53 - d)) by (rewrite <- Z.pow_add_r by lia; f_equal; lia).
  replace (2 ^ 53) with (2 ^ d * 2 ^ (53 - d)) by (rewrite <- Z.pow_add_r by lia; f_equal; lia).
  nia.
Qed.

(** [float64(k) / float64(1<<53)]: the scaling is exact. *)
Lemma unit_float k d :
  0 < k -> 0 < d <= 53 -> 2 ^ (d - 1) <= k < 2 ^ d ->
  fdiv (float_of_Z k) (float_of_Z (2 ^ 53))
  = S754_finite false (Z.to_pos (k * 2 ^ (53 - d))) (d - 106).
Proof.
  intros Hk Hd Hb. rewrite (float_of_Z_exact k d) by lia.
  replace (float_of_Z (2 ^ 53)) with (S754_finite false (Z.to_pos (2 ^ 52)) 1) by (by vm_compute).
  pose proof (scaled_mantissa k d Hk Hd Hb) as Hm.
  set (m := k * 2 ^ (53 - d)) in *.
  assert (Zdigits2 (Z.pos (Z.to_pos m)) = 53) as Hdm.
  { simpl. apply digits2_unique; [lia|]. rewrite Z2Pos.id by lia. done. }
  unfold fdiv, SFdiv, SFdiv_core_binary. rewrite Hdm.
  replace (Zdigits2 (Z.pos (Z.to_pos (2 ^ 52)))) with 53 by done.
  rewrite fexp_normal by lia.
  replace (Z.min (53 + (d - 53) - (53 + 1) - 53) (d - 53 - 1)) with (d - 107) by lia.
  replace (d - 53 - 1 - (d - 107)) with 53 by lia.
  rewrite !Z2Pos.id by lia. rewrite Z.shiftl_mul_pow2 by lia.
  assert (m * 2 ^ 53 = 2 * m * 2 ^ 52) as Hmm by lia.
  assert (Z.div_eucl (m * 2 ^ 53) (2 ^ 52) = (2 * m, 0)) as ->.
  { rewrite (surjective_pairing (Z.div_eucl _ _)). f_equal.
    - change (m * 2 ^ 53 / 2 ^ 52 = 2 * m). rewrite Hmm. by apply Z.div_mul.
    - change (m * 2 ^ 53 mod 2 ^ 52 = 0). rewrite Hmm. by apply Z.mod_mul. }
  replace (new_location (2 ^ 52) 0) with loc_Exact by done.
  destruct m as [|m|m]; try lia. simpl xorb.
  change (2 * Z.pos m) with (Z.pos (xO m)). unfold binary_round_aux, shr_fexp.
  assert (Zdigits2 (Z.pos (xO m)) = 54) as ->.
  { simpl in *. rewrite Pos2Z.inj_succ. lia. }
  rewrite fexp_normal by lia. replace (54 + (d - 107) - 53 - (d - 107)) with 1 by lia.
  simpl shr. cbv beta iota. cbn [shr_m loc_of_shr_record round_nearest_even].
  change (Zdigits2 (Z.pos m) = 53) in Hdm. rewrite Hdm, fexp_normal by lia.
  replace (53 + (d - 107 + 1) - 53 - (d - 107 + 1)) with 0 by lia. simpl.
  rewrite (proj2 (Z.leb_le _ _)) by lia. f_equal; lia.
Qed.

(** Rounding an exact product: the mantissa [M] is the nearest-even rounding
    of [p / 2^s], renormalized when it carried into a new bit. *)
Lemma binary_round_aux_product p e D :
  2 ^ (D - 1) <= Z.pos p < 2 ^ D -> 54 <= D <= 106 -> -900 <= e <= 800 ->
  let s := D - 53 in
  ∃ M m E, binary_round_aux 53 1024 false (Z.pos p) e loc_Exact = S754_finite false m E /\
    ((Z.pos m = M /\ E = e + s) \/ (Z.pos m * 2 = M /\ E = e + s + 1)) /\
    (M = Z.pos p / 2 ^ s \/ (M = Z.pos p / 2 ^ s + 1 /\ 2 ^ s <= 2 * (Z.pos p mod 2 ^ s))).
Proof.
  intros Hp HD He s. unfold binary_round_aux, shr_fexp. simpl Zdigits2.
  rewrite (digits2_unique p D) by lia. rewrite fexp_normal by lia.
  replace (D + e - 53 - e) with s by (unfold s; lia).
  destruct (shr_exact (Z.pos p) e s) as (mrs & -> & Hs); [lia|unfold s; lia|].
  pose proof (round_nearest_even_bounds (Z.pos p) s mrs ltac:(lia) ltac:(unfold s; lia) Hs) as HM.
  cbv zeta in HM. set (M := round_nearest_even _ _) in *.
  assert (2 ^ 52 <= Z.pos p / 2 ^ s < 2 ^ 53) as Hq.
  { replace (2 ^ (D - 1)) with (2 ^ 52 * 2 ^ s) in Hp by (rewrite <- Z.pow_add_r by (unfold s; lia); f_equal; unfold s; lia).
    replace (2 ^ D) with (2 ^ s * 2 ^ 53) in Hp by (rewrite <- Z.pow_add_r by (unfold s; lia); f_equal; unfold s; lia).
    assert (0 < 2 ^ s) by (apply Z.pow_pos_nonneg; unfold s; lia). split.
    - apply Z.div_le_lower_bound; lia.
    - apply Z.div_lt_upper_bound; lia. }
  cbv beta iota. exists M. clearbody M. destruct M as [|M|M]; try lia. simpl Zdigits2.
  destruct (decide (Z.pos M = 2 ^ 53)) as [HMc|HMc].
  - rewrite (digits2_unique M 54) by lia. rewrite fexp_normal by (unfold s; lia).
    replace (54 + (e + s) - 53 - (e + s)) with 1 by lia.
    assert (M = xO (2 ^ 52)) as -> by lia. simpl.
    rewrite (proj2 (Z.leb_le _ _)) by (unfold s; lia).
    do 2 eexists. split; [done|]. split; [right; lia|lia].
  - rewrite (digits2_unique M 53) by lia. rewrite fexp_normal by (unfold s; lia).
    replace (53 + (e + s) - 53 - (e + s)) with 0 by lia. simpl.
    rewrite (proj2 (Z.leb_le _ _)) by (unfold s; lia).
    do 2 eexists. split; [done|]. split; [left; lia|lia].
Qed.

Lemma trunc_finite_lt m E n t :
  0 <= t -> (E = - t /\ Z.pos m < n * 2 ^ t) \/ (E = 1 - t /\ Z.pos m * 2 < n * 2 ^ t) ->
  0 <= trunc (S754_finite false m E) < n.
Proof.
  intros Ht H. unfold trunc. destruct (Z.leb_spec 0 E).
  - split; [nia|]. destruct H as [[-> H]|[-> H]].
    + assert (t = 0) as -> by lia. simpl in *. lia.
    + assert (t = 0 \/ t = 1) as [-> | ->] by lia; simpl in *; lia.
  - assert (0 < 2 ^ (- E)) by (apply Z.pow_pos_nonneg; lia).
    split; [apply Z.div_pos; lia|]. apply Z.div_lt_upper_bound; [lia|].
    destruct H as [[-> H]|[-> H]].
    + rewrite Z.opp_involutive. lia.
    + replace (- (1 - t)) with (t - 1) by lia.
      replace t with (Z.succ (t - 1)) in H by lia. rewrite Z.pow_succ_r in H by lia. lia.
Qed.

(** [int(u * float64(n))] for [u = k / 2^53] in [0, 1): despite the rounding of
    the product, the result stays strictly below [n]. *)
Lemma trunc_mul_unit k n :
  0 <= k < 2 ^ 53 -> 0 < n < 2 ^ 53 ->
  0 <= trunc (fmul (fdiv (float_of_Z k) (float_of_Z (2 ^ 53))) (float_of_Z n)) < n.
Proof.
  intros Hk Hn.
  destruct (leading_bit n 53) as (dn & Hdn & Hbn); [lia|lia|].
  pose proof (scaled_mantissa n dn ltac:(lia) Hdn Hbn) as Hmn.
  rewrite (float_of_Z_exact n dn) by lia.
  destruct (decide (k = 0)) as [->|Hk0].
  { replace (fdiv _ _) with (S754_zero false) by (by vm_compute). simpl. lia. }
  destruct (leading_bit k 53) as (dk & Hdk & Hbk); [lia|lia|].
  pose proof (scaled_mantissa k dk ltac:(lia) Hdk Hbk) as Hmk.
  rewrite (unit_float k dk) by lia. unfold fmul, SFmul. simpl xorb.
  set (mn := n * 2 ^ (53 - dn)) in *. set (A := 2 ^ (53 - dk)) in *.
  assert (1 <= A) as HA by (unfold A; lia).
  set (p := (Z.to_pos (k * A) * Z.to_pos mn)%positive).
  assert (Z.pos p = k * A * mn) as Hp by (unfold p; lia).
  assert (2 ^ 104 <= Z.pos p < 2 ^ 106) as Hpb by (rewrite Hp; nia).
  assert (∃ D, 105 <= D <= 106 /\ 2 ^ (D - 1) <= Z.pos p < 2 ^ D) as (D & HD & HpD).
  { destruct (Z.lt_ge_cases (Z.pos p) (2 ^ 105)); [exists 105|exists 106]; simpl; lia. }
  destruct (binary_round_aux_product p (dk - 106 + (dn - 53)) D) as (M & m & E & -> & HmE & HM);
    [done|lia|lia|].
  set (s := D - 53) in *. set (t := - (dk - 106 + (dn - 53) + s)).
  assert (0 <= t) as Ht by (unfold t, s; lia).
  assert (n * 2 ^ t * 2 ^ s = mn * A * 2 ^ 53) as HX.
  { unfold mn, A. rewrite <- !Z.mul_assoc, <- !Z.pow_add_r by (unfold s in *; lia).
    f_equal. f_equal. unfold t. lia. }
  assert (Z.pos p = Z.pos p / 2 ^ s * 2 ^ s + Z.pos p mod 2 ^ s) as Hdm.
  { rewrite Z.mul_comm. apply Z.div_mod. unfold s. lia. }
  pose proof (Z.mod_pos_bound (Z.pos p) (2 ^ s) ltac:(unfold s; lia)) as Hr.
  assert (2 ^ (D - 1) = 2 ^ 52 * 2 ^ s) as HD1.
  { rewrite <- Z.pow_add_r by (unfold s; lia). f_equal. unfold s. lia. }
  assert (M < n * 2 ^ t) as HMn.
  { apply (Z.mul_lt_mono_pos_r (2 ^ s)); [unfold s; lia|]. rewrite HX.
    assert (Z.pos p <= mn * A * 2 ^ 53 - mn * A) by (rewrite Hp; nia).
    destruct HM as [->|[-> Hhalf]]; [nia|]. nia. }
  apply (trunc_finite_lt m E n t Ht).
  destruct HmE as [[<- ->]|[<- ->]]; [left|right]; (split; [unfold t; lia|done]).
Qed.

(** ** Exact cases of the arithmetic *)

Lemma float_of_Z_finite k : 0 < k < 2 ^ 53 -> ∃ m e, float_of_Z k = S754_finite false m e.
Proof.
  intros Hk. destruct (leading_bit k 53 ltac:(lia) ltac:(lia)) as (d & Hd & Hb).
  rewrite (float_of_Z_exact k d) by lia. eauto.
Qed.

Lemma fadd_zero_r s m e : fadd (S754_finite s m e) fzero = S754_finite s m e.
Proof. done. Qed.

Lemma fsub_self s m e : fsub (S754_finite s m e) (S754_finite s m e) = fzero.
Proof. unfold fsub, SFsub. by rewrite Z.sub_diag. Qed.

Lemma fdiv_zero m e : fdiv fzero (S754_finite false m e) = fzero.
Proof. done. Qed.

(** ** Greatest scores

    The loop [if score > best { best = score; pick = x }] over the candidates,
    from minus infinity and a first pick. *)
(** Sorting by descending key sorts when no key is NaN. *)
Lemma sort_by_key_descending {A} (key : A -> float64) (l : list A) :
  Forall (fun x => is_nan (key x) = false) l ->
  StronglySorted (fun x y => flt (key x) (key y) = false) (sort_by (fun x y => fgt (key x) (key y)) l).
Proof.
  intros Hn. apply (sort_by_sorted _ (fun x => is_nan (key x) = false)); [| |done].
  - intros x y. unfold fgt. apply flt_asym.
  - intros x y z Hx Hy Hz. unfold fgt. intros H1 H2. destruct (flt (key x) (key z)) eqn:E; [|done].
    destruct (flt_negtrans _ (key y) _ Hx Hy Hz E); congruence.
Qed.

Section argmax.
Context {A : Type} (score : A -> float64).

Definition argmax_step (best : float64 * A) (x : A) : float64 * A :=
  if fgt (score x) best.1 then (score x, x) else best.

Definition argmax (first : A) (l : list A) : A := (foldl argmax_step (fneginf, first) l).2.

Lemma flt_neginf_r s t : flt fneginf s = false -> flt t s = false.
Proof. destruct s as [[]|[]| |[]], t as [[]|[]| |[]]; done. Qed.

Lemma argmax_fold l : ∀ b,
  let r := foldl argmax_step b l in
  (∀ x, x ∈ l -> flt r.1 (score x) = false) /\ (r.1 = b.1 \/ flt b.1 r.1 = true) /\
  (r = b \/ (r.2 ∈ l /\ r.1 = score r.2)).
Proof.
  induction l as [|x l IH]; intros b; simpl.
  { split_and!; [intros x Hx; by apply elem_of_nil in Hx|by left|by left]. }
  destruct (IH (argmax_step b x)) as (H1 & H2 & H3). set (r := foldl _ _ l) in *.
  assert (flt (argmax_step b x).1 (score x) = false /\
    ((argmax_step b x).1 = b.1 \/ flt b.1 (argmax_step b x).1 = true)) as [Hx Hb].
  { unfold argmax_step, fgt. destruct (flt b.1 (score x)) eqn:E; simpl; [|auto]. split; [apply flt_irrefl|auto]. }
  split_and!.
  - intros y [->|Hy]%elem_of_cons; [|by apply H1]. destruct H2 as [->|H2]; [done|].
    destruct (flt r.1 (score x)) eqn:E; [|done]. rewrite <- Hx. symmetry. by eapply flt_trans.
  - destruct H2 as [->|H2]; [done|]. right. destruct Hb as [<-|Hb]; [done|by eapply flt_trans].
  - destruct H3 as [->|[H3 H4]]; [|right; split; [by right|done]].
    unfold argmax_step. destruct (fgt (score x) b.1); [right; split; [by left|done]|by left].
Qed.

(** The pick is a candidate, and no candidate beats it. *)
Lemma argmax_spec first l : first ∈ l ->
  argmax first l ∈ l /\ ∀ x, x ∈ l -> flt (score (argmax first l)) (score x) = false.
Proof.
  intros Hf. unfold argmax. destruct (argmax_fold l (fneginf, first)) as (H1 & _ & H3).
  destruct H3 as [H3|[H3 H4]].
  - rewrite H3 in *. simpl in *. split; [done|]. intros x Hx. by apply flt_neginf_r, H1.
  - split; [done|]. intros x Hx. rewrite <- H4. by apply H1.
Qed.
End argmax.

#[global] Arguments fadd : simpl never.
#[global] Arguments fsub : simpl never.
#[global] Arguments fmul : simpl never.
#[global] Arguments fdiv : simpl never.
#[global] Arguments fsqrt : simpl never.
#[global] Arguments flit : simpl never.
#[global] Arguments float_of_Z : simpl never.
#[global] Arguments trunc : simpl never.
