(* ===== verification/GoLib.v ===== *)
(** * Functions of Go's standard library

    [time.ParseDuration] and the lexical part of [path/filepath] on Unix, as
    their documentation and source define them: the configuration, the fault
    set-up and the debugger call them. *)
From stdpp Require Import strings.
From S2P Require Import Prelude Word Float.
Local Open Scope Z_scope.

(** ** [time.ParseDuration] *)

Definition digit (c : Ascii.ascii) : option Z :=
  let n := Z.of_N (Ascii.N_of_ascii c) in if (48 <=? n) && (n <=? 57) then Some (n - 48) else None.

Definition is_dot (c : Ascii.ascii) : bool := (Ascii.N_of_ascii c =? 46)%N.

(** The integer at the head, with the rest; [None] on overflow. *)
Fixpoint leadingInt (x : Z) (s : list Ascii.ascii) : option (Z * list Ascii.ascii) :=
  match s with
  | [] => Some (x, [])
  | c :: s' =>
      match digit c with
      | None => Some (x, s)
      | Some d =>
          if 2 ^ 63 / 10 <? x then None
          else let y := x * 10 + d in if 2 ^ 63 <? y then None else leadingInt y s'
      end
  end.

(** The digits after the point, the power of ten they are over, and the rest;
    digits that do not fit are dropped. *)
Fixpoint leadingFraction (x : Z) (scale : float64) (overflow : bool) (s : list Ascii.ascii) :
    Z * float64 * list Ascii.ascii :=
  match s with
  | [] => (x, scale, [])
  | c :: s' =>
      match digit c with
      | None => (x, scale, s)
      | Some d =>
          if overflow then leadingFraction x scale true s'
          else if (2 ^ 63 - 1) / 10 <? x then leadingFraction x scale true s'
          else
            let y := x * 10 + d in
            if 2 ^ 63 <? y then leadingFraction x scale true s'
            else leadingFraction y (fmul scale (float_of_Z 10)) false s'
      end
  end.

(** The characters up to the next digit or point. *)
Fixpoint span_unit (s : list Ascii.ascii) : list Ascii.ascii * list Ascii.ascii :=
  match s with
  | [] => ([], [])
  | c :: s' =>
      if is_dot c || bool_decide (is_Some (digit c)) then ([], s)
      else let '(u, rest) := span_unit s' in (c :: u, rest)
  end.

Definition micro_sign : string := String (Ascii.ascii_of_nat 194) (String (Ascii.ascii_of_nat 181) "s").
Definition greek_mu : string := String (Ascii.ascii_of_nat 206) (String (Ascii.ascii_of_nat 188) "s").

Definition unitMap (u : string) : option Z :=
  if decide (u = "ns"%string) then Some 1
  else if decide (u = "us"%string ∨ u = micro_sign ∨ u = greek_mu) then Some 1000
  else if decide (u = "ms"%string) then Some 1000000
  else if decide (u = "s"%string) then Some 1000000000
  else if decide (u = "m"%string) then Some 60000000000
  else if decide (u = "h"%string) then Some 3600000000000
  else None.

(** The fraction after the integer, if a point follows it, the rest, and
    whether there was a digit after the point. *)
Definition fraction_part (s1 : list Ascii.ascii) : Z * float64 * list Ascii.ascii * bool :=
  match s1 with
  | c1 :: s1' =>
      if is_dot c1 then
        let '(f, scale, s2) := leadingFraction 0 fone false s1' in (f, scale, s2, negb (length s2 =? length s1')%nat)
      else (0, fone, s1, false)
  | [] => (0, fone, s1, false)
  end.

(** One number with its unit: the nanoseconds, and the rest. *)
Definition parse_term (s : list Ascii.ascii) : option (Z * list Ascii.ascii) :=
  match s with
  | [] => None
  | c :: _ =>
      if negb (is_dot c || bool_decide (is_Some (digit c))) then None
      else
        '(v, s1) ← leadingInt 0 s;
        let pre := negb (length s1 =? length s)%nat in
        let '(f, scale, s2, post) := fraction_part s1 in
        if negb pre && negb post then None
        else
          let '(u, s3) := span_unit s2 in
          if bool_decide (u = []) then None
          else
            unit ← unitMap (String.string_of_list_ascii u);
            if 2 ^ 63 / unit <? v then None
            else
              let v := v * unit in
              if 0 <? f then
                let v := add64 v (trunc (fmul (float_of_Z f) (fdiv (float_of_Z unit) scale))) in
                if 2 ^ 63 <? v then None else Some (v, s3)
              else Some (v, s3)
  end.

(** The loop over the terms; every term consumes a character, so the length of
    the string is enough fuel. *)
Fixpoint parse_terms (fuel : nat) (d : Z) (s : list Ascii.ascii) : option Z :=
  match s with
  | [] => Some d
  | _ =>
      match fuel with
      | O => None
      | S fuel =>
          '(v, s') ← parse_term s;
          let d := add64 d v in
          if 2 ^ 63 <? d then None else parse_terms fuel d s'
      end
  end.

Definition take_sign (s : list Ascii.ascii) : bool * list Ascii.ascii :=
  match s with
  | c :: s' =>
      if (Ascii.N_of_ascii c =? 45)%N then (true, s')
      else if (Ascii.N_of_ascii c =? 43)%N then (false, s') else (false, s)
  | [] => (false, s)
  end.

(** [time.ParseDuration]: nanoseconds, [None] for any error. *)
Definition ParseDuration (str : string) : option Z :=
  let s := String.list_ascii_of_string str in
  let '(neg, s) := take_sign s in
  if bool_decide (s = [Ascii.ascii_of_N 48]) then Some 0
  else if bool_decide (s = []) then None
  else
    d ← parse_terms (length s) 0 s;
    if neg then Some (int64 (- d)) else if 2 ^ 63 - 1 <? d then None else Some d.

(** [d, _ := time.ParseDuration(s)]. *)
Definition duration_or_zero (s : string) : Z := default 0 (ParseDuration s).

Example ParseDuration_ex :
  map ParseDuration ["1h15m30.5s"; "-1.5h"; "300ms"; "0"; "+5s"; ""; "3"; "1.s"; ".5s"; "."; "9223372036854775807ns";
    "9223372036854775808ns"; "-9223372036854775808ns"; "1x"; "10m "]%string =
  [Some 4530500000000; Some (-5400000000000); Some 300000000; Some 0; Some 5000000000; None; None; Some 1000000000;
   Some 500000000; None; Some 9223372036854775807; None; Some (-9223372036854775808); None; None].
Proof. vm_compute. reflexivity. Qed.

(** ** [path/filepath] *)

Definition slash : Ascii.ascii := Ascii.ascii_of_N 47.

(** [strings.Split(s, "/")]. *)
Fixpoint split_slash (s : list Ascii.ascii) : list (list Ascii.ascii) :=
  match s with
  | [] => [[]]
  | c :: s' =>
      if Ascii.eqb c slash then [] :: split_slash s'
      else match split_slash s' with
           | w :: ws => (c :: w) :: ws
           | [] => [[c]]
           end
  end.

Definition join_slash (ws : list (list Ascii.ascii)) : list Ascii.ascii :=
  match ws with
  | [] => []
  | w :: ws => foldl (λ acc w, acc ++ slash :: w) w ws
  end.

Definition dot : list Ascii.ascii := [Ascii.ascii_of_N 46].
Definition dotdot : list Ascii.ascii := [Ascii.ascii_of_N 46; Ascii.ascii_of_N 46].

(** One component onto the stack of those kept (innermost first). *)
Definition clean_step (rooted : bool) (stack : list (list Ascii.ascii)) (w : list Ascii.ascii) : list (list Ascii.ascii) :=
  if bool_decide (w = []) || bool_decide (w = dot) then stack
  else if bool_decide (w = dotdot) then
    match stack with
    | top :: rest => if bool_decide (top = dotdot) then w :: stack else rest
    | [] => if rooted then [] else [w]
    end
  else w :: stack.

Definition IsAbs (path : string) : bool := String.prefix "/" path.

Definition Clean (path : string) : string :=
  if bool_decide (path = ""%string) then "."%string
  else
    let rooted := IsAbs path in
    let ws := rev (foldl (clean_step rooted) [] (split_slash (String.list_ascii_of_string path))) in
    if rooted then String.string_of_list_ascii (slash :: join_slash ws)
    else if bool_decide (ws = []) then "."%string
    else String.string_of_list_ascii (join_slash ws).

(** [filepath.Join(a, b)]. *)
Definition Join (a b : string) : string :=
  if bool_decide (a = ""%string) then (if bool_decide (b = ""%string) then ""%string else Clean b)
  else Clean (a ++ "/" ++ b)%string.

(** The path up to its last slash. *)
Definition Dir (path : string) : string :=
  let ws := split_slash (String.list_ascii_of_string path) in
  match rev ws with
  | [] | [_] => Clean ""
  | _ :: dirs => Clean (String.string_of_list_ascii (join_slash (rev dirs) ++ [slash]))
  end.

Example filepath_ex :
  Clean "a//b/./../c/" = "a/c"%string ∧ Clean "/../a" = "/a"%string ∧ Clean "../../x/.." = "../.."%string ∧
  Clean "" = "."%string ∧ Clean "a/.." = "."%string ∧ Join "/etc/x" "../bin" = "/etc/bin"%string ∧
  Dir "/a/b/c.json" = "/a/b"%string ∧ Dir "c.json" = "."%string ∧ Dir "/c" = "/"%string.
Proof. vm_compute. auto 10. Qed.

(** ** Lemmas *)

Lemma string_prefix_nil s : String.prefix "" s = true.
Proof. by destruct s. Qed.

Lemma IsAbs_String c s : IsAbs (String c s) = true ↔ c = slash.
Proof.
  unfold IsAbs. cbn [String.prefix]. destruct (Ascii.ascii_dec _ c) as [<-|Hne]; [by rewrite string_prefix_nil|].
  split; [done|]. intros ->. by destruct Hne.
Qed.

(** Joining onto an absolute path gives an absolute path. *)
Lemma Join_abs a b : IsAbs a = true → IsAbs (Join a b) = true.
Proof.
  destruct a as [|c a]; [done|]. intros Ha%IsAbs_String. unfold Join, Clean.
  rewrite !bool_decide_eq_false_2 by done.
  assert (IsAbs (String c a ++ "/" ++ b) = true) as -> by by apply IsAbs_String.
  by apply IsAbs_String.
Qed.

(** A term consumes a character, so more fuel than characters changes nothing. *)
Lemma leadingInt_length s : ∀ x v s', leadingInt x s = Some (v, s') → (length s' ≤ length s)%nat.
Proof.
  induction s as [|c s IH]; intros x v s'; cbn [leadingInt]; [by intros [= <- <-]|].
  destruct (digit c); [|by intros [= <- <-]]. repeat case_match; try done. intros ?%IH. simpl. lia.
Qed.

Lemma leadingFraction_length s : ∀ x scale o, (length (leadingFraction x scale o s).2 ≤ length s)%nat.
Proof.
  induction s as [|c s IH]; intros x scale o; cbn [leadingFraction]; [done|].
  destruct (digit c); [|done]. repeat case_match; (etrans; [apply IH|simpl; lia]).
Qed.

Lemma span_unit_length s u rest : span_unit s = (u, rest) → length s = (length u + length rest)%nat.
Proof.
  revert u rest. induction s as [|c s IH]; intros u rest; cbn [span_unit]; [by intros [= <- <-]|].
  case_match; [by intros [= <- <-]|]. destruct (span_unit s) as [u' rest']. intros [= <- <-]. simpl. f_equal. by apply IH.
Qed.

Lemma parse_term_consumes s v s' : parse_term s = Some (v, s') → (length s' < length s)%nat.
Proof.
  destruct s as [|c s]; [done|]. unfold parse_term. destruct (negb _); [done|].
  destruct (leadingInt 0 (c :: s)) as [[w s1]|] eqn:Hi; [|done]. apply leadingInt_length in Hi. cbn [mbind option_bind].
  destruct (fraction_part s1) as [[[f scale] s2] post] eqn:Ht. unfold fraction_part in Ht.
  assert (length s2 ≤ length s1)%nat as H2.
  { destruct s1 as [|c1 s1]; [by injection Ht as <- <- <- <-|]. destruct (is_dot c1); [|by injection Ht as <- <- <- <-].
    pose proof (leadingFraction_length s1 0 fone false) as H. destruct (leadingFraction _ _ _ s1) as [[]].
    injection Ht as <- <- <- <-. cbn [length snd] in *. lia. }
  destruct (negb _ && negb post); [done|]. destruct (span_unit s2) as [u s3] eqn:Hs. apply span_unit_length in Hs.
  case_bool_decide as Hu; [done|]. assert (length u ≠ 0)%nat by (by destruct u).
  destruct (unitMap _); [|done]. cbn [mbind option_bind]. repeat case_match; intros; simplify_eq; lia.
Qed.

Lemma parse_terms_fuel fuel : ∀ d s, (length s ≤ fuel)%nat → parse_terms fuel d s = parse_terms (length s) d s.
Proof.
  enough (∀ f1 f2 d s, (length s ≤ f1)%nat → (length s ≤ f2)%nat → parse_terms f1 d s = parse_terms f2 d s) by auto.
  clear fuel. induction f1 as [|f1 IH]; intros f2 d s H1 H2; [by destruct s; [destruct f2|simpl in *; lia]|].
  destruct s as [|c s]; [by destruct f2|]. destruct f2 as [|f2]; [simpl in *; lia|]. cbn [parse_terms].
  destruct (parse_term (c :: s)) as [[v s']|] eqn:Ht; [|done]. apply parse_term_consumes in Ht. cbn [length mbind option_bind] in *.
  case_match; [done|]. apply IH; lia.
Qed.

(** Durations are 64-bit. *)
Lemma ParseDuration_range str d : ParseDuration str = Some d → - 2 ^ 63 ≤ d < 2 ^ 63.
Proof.
  unfold ParseDuration. destruct (take_sign _) as [neg s].
  case_bool_decide; [intros [= <-]; lia|]. case_bool_decide; [done|].
  assert (∀ fuel d0 s, 0 ≤ d0 → from_option (λ d, 0 ≤ d) True (parse_terms fuel d0 s)) as Hp.
  { induction fuel as [|fuel IH]; intros d0 [|c s0] Hd; cbn [parse_terms from_option]; try done.
    destruct (parse_term (c :: s0)) as [[v s']|]; cbn [mbind option_bind]; [|done]. case_match; [done|]. apply IH.
    apply add64_word. }
  specialize (Hp (length s) 0 s ltac:(lia)). destruct (parse_terms _ _ _) as [d'|]; cbn [mbind option_bind from_option] in *; [|done].
  destruct neg; [intros [= <-]|repeat case_match; try done; intros [= <-]; lia].
  unfold int64. pose proof (wrap_bound 64 (- d') ltac:(lia)). case_bool; lia.
Qed.

#[export] Hint Resolve Join_abs : ot.
