(* ===== verification/Json.v ===== *)
(** * JSON, as [encoding/json] reads and writes it

    The scanner is the push-down automaton of the package ([scanner.go]), run
    over the bytes with the values it builds; decoding into Go types follows
    [Unmarshal]: a struct field is found by its name or by its case-folded name,
    a value of the wrong type is an error that does not stop the decoding.
    A [json.RawMessage] is the value it denotes. *)
From stdpp Require Import strings pretty.
From S2P Require Import Prelude Strings Word Float.
Local Open Scope Z_scope.

Abbreviation bytes := (list Ascii.ascii).

Definition code (c : Ascii.ascii) : Z := Z.of_N (Ascii.N_of_ascii c).
Definition chr (n : Z) : Ascii.ascii := Ascii.ascii_of_N (Z.to_N n).

(** The number literals are kept as they are written. *)
Inductive json :=
| JNull | JBool (b : bool) | JNum (lit : bytes) | JStr (s : bytes)
| JArr (l : list json) | JObj (ms : list (bytes * json)).

(** ** UTF-8 *)

(** The replacement character, encoded. *)
Definition replacement : bytes := [chr 239; chr 191; chr 189].

Definition cont (lo hi : Z) (c : Ascii.ascii) : bool := (lo <=? code c) && (code c <=? hi).

(** The length of the valid encoding at the head of a string ([utf8.DecodeRune]). *)
Definition rune_len (s : bytes) : option nat :=
  match s with
  | [] => None
  | a :: s =>
      let c := code a in
      if c <? 128 then Some 1%nat
      else if (194 <=? c) && (c <=? 223) then
        match s with b :: _ => if cont 128 191 b then Some 2%nat else None | _ => None end
      else if (224 <=? c) && (c <=? 239) then
        match s with
        | b :: d :: _ =>
            let lo := if c =? 224 then 160 else 128 in
            let hi := if c =? 237 then 159 else 191 in
            if cont lo hi b && cont 128 191 d then Some 3%nat else None
        | _ => None
        end
      else if (240 <=? c) && (c <=? 244) then
        match s with
        | b :: d :: e :: _ =>
            let lo := if c =? 240 then 144 else 128 in
            let hi := if c =? 244 then 143 else 191 in
            if cont lo hi b && cont 128 191 d && cont 128 191 e then Some 4%nat else None
        | _ => None
        end
      else None
  end.

(** [utf8.AppendRune]. *)
Definition encode_rune (r : Z) : bytes :=
  if r <? 128 then [chr r]
  else if r <? 2048 then [chr (192 + r / 64); chr (128 + r mod 64)]
  else if ((55296 <=? r) && (r <=? 57343)) || (1114111 <? r) then replacement
  else if r <? 65536 then [chr (224 + r / 4096); chr (128 + r / 64 mod 64); chr (128 + r mod 64)]
  else [chr (240 + r / 262144); chr (128 + r / 4096 mod 64); chr (128 + r / 64 mod 64); chr (128 + r mod 64)].

(** The bytes of a string with every invalid one replaced; [skip] bytes of the
    current rune have been read. *)
Fixpoint sanitize_from (skip : nat) (s : bytes) : bytes :=
  match s with
  | [] => []
  | c :: s' =>
      match skip with
      | S skip => sanitize_from skip s'
      | O => match rune_len s with
             | Some n => take n s ++ sanitize_from (pred n) s'
             | None => replacement ++ sanitize_from 0 s'
             end
      end
  end.
Definition sanitize : bytes → bytes := sanitize_from 0.

(** ** Strings *)

Definition hex (c : Ascii.ascii) : option Z :=
  let n := code c in
  if (48 <=? n) && (n <=? 57) then Some (n - 48)
  else if (97 <=? n) && (n <=? 102) then Some (n - 87)
  else if (65 <=? n) && (n <=? 70) then Some (n - 55)
  else None.

(** [getu4]: the number after a [\u]. *)
Definition getu4 (s : bytes) : option Z :=
  match s with
  | b :: u :: h1 :: h2 :: h3 :: h4 :: _ =>
      if (code b =? 92) && (code u =? 117) then
        match hex h1, hex h2, hex h3, hex h4 with
        | Some a, Some b, Some c, Some d => Some (a * 4096 + b * 256 + c * 16 + d)
        | _, _, _, _ => None
        end
      else None
  | _ => None
  end.

(** [utf16.DecodeRune]. *)
Definition surrogates (r : Z) (r1 : option Z) : option Z :=
  match r1 with
  | Some r1 =>
      if (55296 <=? r) && (r <? 56320) && (56320 <=? r1) && (r1 <? 57344)
      then Some ((r - 55296) * 1024 + (r1 - 56320) + 65536) else None
  | None => None
  end.

(** The character of a one-letter escape. *)
Definition unescape (c : Ascii.ascii) : Ascii.ascii :=
  let n := code c in
  if n =? 98 then chr 8 else if n =? 102 then chr 12 else if n =? 110 then chr 10
  else if n =? 114 then chr 13 else if n =? 116 then chr 9 else c.

(** [unquote] of what is between the quotes. *)
Fixpoint unquote_from (skip : nat) (s : bytes) : bytes :=
  match s with
  | [] => []
  | c :: s' =>
      match skip with
      | S skip => unquote_from skip s'
      | O =>
          if code c =? 92 then
            match s' with
            | [] => []
            | e :: _ =>
                if code e =? 117 then
                  match getu4 s with
                  | None => []
                  | Some r =>
                      if (55296 <=? r) && (r <=? 57343) then
                        match surrogates r (getu4 (drop 6 s)) with
                        | Some d => encode_rune d ++ unquote_from 11 s'
                        | None => replacement ++ unquote_from 5 s'
                        end
                      else encode_rune r ++ unquote_from 5 s'
                  end
                else unescape e :: unquote_from 1 s'
            end
          else
            match rune_len s with
            | Some n => take n s ++ unquote_from (pred n) s'
            | None => replacement ++ unquote_from 0 s'
            end
      end
  end.
Definition unquote : bytes → bytes := unquote_from 0.

Definition hexdigit (n : Z) : Ascii.ascii := chr (if n <? 10 then 48 + n else 87 + n).

(** How [Marshal] writes one byte of ASCII, with HTML escaping. *)
Definition quote_ascii (c : Ascii.ascii) : bytes :=
  let n := code c in
  if (n =? 34) || (n =? 92) then [chr 92; c]
  else if n =? 8 then [chr 92; chr 98]
  else if n =? 12 then [chr 92; chr 102]
  else if n =? 10 then [chr 92; chr 110]
  else if n =? 13 then [chr 92; chr 114]
  else if n =? 9 then [chr 92; chr 116]
  else if (n <? 32) || (n =? 60) || (n =? 62) || (n =? 38)
  then [chr 92; chr 117; chr 48; chr 48; hexdigit (n / 16); hexdigit (n mod 16)]
  else [c].

(** [\u2028] and [\u2029], as bytes and as they are written. *)
Definition line_separator (s : bytes) : option Ascii.ascii :=
  match s with
  | a :: b :: c :: _ =>
      if (code a =? 226) && (code b =? 128) && ((code c =? 168) || (code c =? 169))
      then Some (if code c =? 168 then chr 56 else chr 57) else None
  | _ => None
  end.

Fixpoint quote_from (skip : nat) (s : bytes) : bytes :=
  match s with
  | [] => []
  | c :: s' =>
      match skip with
      | S skip => quote_from skip s'
      | O =>
          if code c <? 128 then quote_ascii c ++ quote_from 0 s'
          else
            match rune_len s with
            | None => [chr 92; chr 117; chr 102; chr 102; chr 102; chr 100] ++ quote_from 0 s'
            | Some n =>
                match line_separator s with
                | Some d => [chr 92; chr 117; chr 50; chr 48; chr 50; d] ++ quote_from (pred n) s'
                | None => take n s ++ quote_from (pred n) s'
                end
            end
      end
  end.
Definition quote (s : bytes) : bytes := [chr 34] ++ quote_from 0 s ++ [chr 34].

(** ** The scanner *)

(** An open array or object: the elements so far, the last one first, and in an
    object the key whose value is being read. *)
Inductive frame := FArr (acc : list json) | FObj (acc : list (bytes * json)) (key : option bytes).

Inductive number := NNeg | NZero | NInt | NDot | NFrac | NE | NESign | NExp.

Inductive escape := Plain | Escaped | Hex (n : nat).

Inductive mode :=
| BeginValue | BeginValueOrEmpty | BeginKey | BeginKeyOrEmpty | BeginColon
| InString (key : bool) (esc : escape) (acc : bytes)
| InLiteral (rest : bytes) (v : json)
| InNumber (n : number) (acc : bytes)
| EndValue
| EndTop (v : json).

Definition scan : Type := mode * list frame.

Definition is_space (c : Ascii.ascii) : bool :=
  let n := code c in (n =? 32) || (n =? 9) || (n =? 13) || (n =? 10).

Definition is_digit (c : Ascii.ascii) : bool := (48 <=? code c) && (code c <=? 57).

(** What a complete value is to the innermost open array or object. *)
Definition complete (v : json) (st : list frame) : scan :=
  match st with
  | [] => (EndTop v, [])
  | FArr acc :: st => (EndValue, FArr (v :: acc) :: st)
  | FObj acc (Some k) :: st => (EndValue, FObj ((k, v) :: acc) None :: st)
  | FObj acc None :: st => (EndValue, FObj acc None :: st)
  end.

Definition maxNestingDepth : nat := 10000.

Definition push (m : mode) (f : frame) (st : list frame) : option scan :=
  if (length st <? maxNestingDepth)%nat then Some (m, f :: st) else None.

Definition lit (s : string) : bytes := String.list_ascii_of_string s.

Definition begin_value (c : Ascii.ascii) (st : list frame) : option scan :=
  let n := code c in
  if n =? 123 then push BeginKeyOrEmpty (FObj [] None) st
  else if n =? 91 then push BeginValueOrEmpty (FArr []) st
  else if n =? 34 then Some (InString false Plain [], st)
  else if n =? 45 then Some (InNumber NNeg [c], st)
  else if n =? 48 then Some (InNumber NZero [c], st)
  else if (49 <=? n) && (n <=? 57) then Some (InNumber NInt [c], st)
  else if n =? 116 then Some (InLiteral (lit "rue") (JBool true), st)
  else if n =? 102 then Some (InLiteral (lit "alse") (JBool false), st)
  else if n =? 110 then Some (InLiteral (lit "ull") JNull, st)
  else None.

Definition end_value (c : Ascii.ascii) (st : list frame) : option scan :=
  let n := code c in
  match st with
  | FArr acc :: st' =>
      if n =? 44 then Some (BeginValue, st)
      else if n =? 93 then Some (complete (JArr (reverse acc)) st')
      else None
  | FObj acc None :: st' =>
      if n =? 44 then Some (BeginKey, st)
      else if n =? 125 then Some (complete (JObj (reverse acc)) st')
      else None
  | _ => None
  end.

(** The state of a number after one more byte; [None] when the byte does not
    belong to it. *)
Definition next_number (k : number) (c : Ascii.ascii) : option number :=
  let n := code c in
  let frac := if n =? 46 then Some NDot else if (n =? 101) || (n =? 69) then Some NE else None in
  match k with
  | NNeg => if n =? 48 then Some NZero else if is_digit c then Some NInt else None
  | NZero => frac
  | NInt => if is_digit c then Some NInt else frac
  | NDot => if is_digit c then Some NFrac else None
  | NFrac => if is_digit c then Some NFrac else if (n =? 101) || (n =? 69) then Some NE else None
  | NE => if (n =? 43) || (n =? 45) then Some NESign else if is_digit c then Some NExp else None
  | NESign => if is_digit c then Some NExp else None
  | NExp => if is_digit c then Some NExp else None
  end.

Definition number_done (k : number) : bool :=
  match k with NZero | NInt | NFrac | NExp => true | _ => false end.

(** After a value: at the top only space may follow. *)
Definition after_value (c : Ascii.ascii) (s : scan) : option scan :=
  if is_space c then Some s
  else match s with
       | (EndValue, st) => end_value c st
       | _ => None
       end.

Definition in_string (c : Ascii.ascii) (key : bool) (esc : escape) (acc : bytes) (st : list frame) : option scan :=
  let n := code c in
  let more e := Some (InString key e (c :: acc), st) in
  match esc with
  | Plain =>
      if n =? 34 then
        let s := unquote (reverse acc) in
        if key then
          match st with
          | FObj ms _ :: st => Some (BeginColon, FObj ms (Some s) :: st)
          | _ => None
          end
        else Some (complete (JStr s) st)
      else if n =? 92 then more Escaped
      else if n <? 32 then None
      else more Plain
  | Escaped =>
      if n =? 117 then more (Hex 4)
      else if (n =? 98) || (n =? 102) || (n =? 110) || (n =? 114) || (n =? 116) || (n =? 92) || (n =? 47) || (n =? 34)
      then more Plain else None
  | Hex k =>
      match hex c with
      | None => None
      | Some _ => more (match k with S (S k) => Hex (S k) | _ => Plain end)
      end
  end.

Definition scan_step (s : scan) (c : Ascii.ascii) : option scan :=
  let '(m, st) := s in
  let n := code c in
  match m with
  | BeginValue => if is_space c then Some s else begin_value c st
  | BeginValueOrEmpty =>
      if is_space c then Some s
      else if n =? 93 then end_value c st
      else begin_value c st
  | BeginKey => if is_space c then Some s else if n =? 34 then Some (InString true Plain [], st) else None
  | BeginKeyOrEmpty =>
      if is_space c then Some s
      else if n =? 125 then end_value c st
      else if n =? 34 then Some (InString true Plain [], st)
      else None
  | BeginColon => if is_space c then Some s else if n =? 58 then Some (BeginValue, st) else None
  | InString key esc acc => in_string c key esc acc st
  | InLiteral [] _ => None
  | InLiteral (d :: rest) v =>
      if Ascii.eqb c d then
        match rest with [] => Some (complete v st) | _ => Some (InLiteral rest v, st) end
      else None
  | InNumber k acc =>
      match next_number k c with
      | Some k => Some (InNumber k (c :: acc), st)
      | None => if number_done k then after_value c (complete (JNum (reverse acc)) st) else None
      end
  | EndValue | EndTop _ => after_value c s
  end.

Fixpoint scan_from (s : scan) (l : bytes) : option scan :=
  match l with
  | [] => Some s
  | c :: l => match scan_step s c with Some s => scan_from s l | None => None end
  end.

(** The end of the input. *)
Definition scan_end (s : scan) : option json :=
  match s with
  | (EndTop v, []) => Some v
  | (InNumber k acc, []) => if number_done k then Some (JNum (reverse acc)) else None
  | _ => None
  end.

Definition parse (l : bytes) : option json :=
  match scan_from (BeginValue, []) l with Some s => scan_end s | None => None end.

(** ** Marshal *)

Definition comma : Ascii.ascii := chr 44.

Fixpoint join (sep : bytes) (ls : list bytes) : bytes :=
  match ls with
  | [] => []
  | [l] => l
  | l :: ls => l ++ sep ++ join sep ls
  end.

Fixpoint print (j : json) : bytes :=
  match j with
  | JNull => lit "null"
  | JBool b => if b then lit "true" else lit "false"
  | JNum l => l
  | JStr s => quote s
  | JArr l => [chr 91] ++ join [comma] (map print l) ++ [chr 93]
  | JObj ms => [chr 123] ++ join [comma] (map (λ m, quote m.1 ++ [chr 58] ++ print m.2) ms) ++ [chr 125]
  end.

(** ** Unmarshal *)

(** Decoding a value into a variable that holds [a]: its new value and whether
    there was an error. *)
Definition decoder (A : Type) : Type := json → A → A * bool.

Definition dec_bool : decoder bool := λ j a,
  match j with JBool b => (b, false) | JNull => (a, false) | _ => (a, true) end.

Definition dec_string : decoder string := λ j a,
  match j with JStr s => (String.string_of_list_ascii s, false) | JNull => (a, false) | _ => (a, true) end.

Fixpoint digits (acc : Z) (l : bytes) : option Z :=
  match l with
  | [] => Some acc
  | c :: l => if is_digit c then digits (10 * acc + (code c - 48)) l else None
  end.

(** [strconv.ParseInt] of a number literal, with the range of [int64]. *)
Definition parse_int (l : bytes) : option Z :=
  let '(neg, l) := match l with c :: l' => if code c =? 45 then (true, l') else (false, l) | [] => (false, []) end in
  match digits 0 l with
  | None => None
  | Some n =>
      let n := if neg : bool then - n else n in
      if (- 2 ^ 63 <=? n) && (n <? 2 ^ 63) then Some n else None
  end.

Definition dec_int : decoder Z := λ j a,
  match j with
  | JNum l => match parse_int l with Some n => (n, false) | None => (a, true) end
  | JNull => (a, false)
  | _ => (a, true)
  end.

(** The digits before a byte that is none, and the rest. *)
Fixpoint span_digits (l : bytes) : bytes * bytes :=
  match l with
  | [] => ([], [])
  | c :: l' => if is_digit c then let '(d, r) := span_digits l' in (c :: d, r) else ([], l)
  end.

(** Leading zeros. *)
Fixpoint strip_zeros (l : bytes) : bytes :=
  match l with
  | c :: l' => if code c =? 48 then strip_zeros l' else l
  | [] => []
  end.

(** The double nearest to [m * 10 ^ e] ([m > 0]): the quotient has at least 64
    bits and its last one is sticky. *)
Definition decimal (s : bool) (m e : Z) : float64 :=
  if 0 <=? e then binary_normalize 53 1024 ((if s then -1 else 1) * (m * 10 ^ e)) 0 s
  else
    let d := 10 ^ (- e) in
    let k := 64 + Z.log2 d in
    let n := m * 2 ^ k in
    let q := 2 * (n / d) + (if n mod d =? 0 then 0 else 1) in
    binary_normalize 53 1024 ((if s then -1 else 1) * q) (- k - 1) s.

(** [strconv.ParseFloat] of a number literal; out of range is an error.  With
    [n] digits the value is at least [10 ^ (size - 1)] and less than [10 ^ size]:
    what no double can be is decided before the power is computed. *)
Definition parse_float (l : bytes) : option float64 :=
  let '(neg, l) := match l with c :: l' => if code c =? 45 then (true, l') else (false, l) | [] => (false, []) end in
  let '(int, l) := span_digits l in
  let '(frac, l) := match l with c :: l' => if code c =? 46 then span_digits l' else ([], l) | [] => ([], []) end in
  let e :=
    match l with
    | [] => 0
    | _ :: l =>
        match l with
        | c :: l' => if code c =? 45 then - default 0 (digits 0 l')
                     else if code c =? 43 then default 0 (digits 0 l') else default 0 (digits 0 l)
        | [] => 0
        end
    end in
  let ds := strip_zeros (int ++ frac) in
  let e := e - Z.of_nat (length frac) in
  let size := Z.of_nat (length ds) + e in
  match digits 0 ds with
  | None | Some 0 => Some (S754_zero neg)
  | Some m =>
      if 310 <=? size then None
      else if size <=? -324 then Some (S754_zero neg)
      else match decimal neg m e with S754_infinity _ => None | f => Some f end
  end.

Definition dec_float : decoder float64 := λ j a,
  match j with
  | JNum l => match parse_float l with Some f => (f, false) | None => (a, true) end
  | JNull => (a, false)
  | _ => (a, true)
  end.

(** [m[k] = v] of a map kept as a list. *)
Fixpoint put {A} (k : string) (v : A) (m : list (string * A)) : list (string * A) :=
  match m with
  | [] => [(k, v)]
  | (k', v') :: m => if bool_decide (k' = k) then (k, v) :: m else (k', v') :: put k v m
  end.

(** [m[k]]. *)
Fixpoint get {A} (k : string) (m : list (string * A)) : option A :=
  match m with
  | [] => None
  | (k', v) :: m => if bool_decide (k' = k) then Some v else get k m
  end.

(** A value of type [any]: numbers are [float64], one out of range is [nil]. *)
Fixpoint to_any (j : json) : any * bool :=
  match j with
  | JNull => (AnyNil, false)
  | JBool b => (AnyBool b, false)
  | JNum l => match parse_float l with Some f => (AnyFloat f, false) | None => (AnyNil, true) end
  | JStr s => (AnyString (String.string_of_list_ascii s), false)
  | JArr l =>
      let vs := map to_any l in (AnyList (map fst vs), existsb snd vs)
  | JObj ms =>
      let vs := map (λ m, (String.string_of_list_ascii m.1, to_any m.2)) ms in
      (AnyMap (foldl (λ acc v, put v.1 v.2.1 acc) [] vs), existsb (λ v, v.2.2) vs)
  end.

Definition dec_any : decoder any := λ j _, to_any j.

(** A map whose elements are decoded by [d] from the zero value; [None] is the
    nil map. *)
Definition dec_map {A} (zero : A) (d : decoder A) : decoder (option (list (string * A))) := λ j a,
  match j with
  | JNull => (None, false)
  | JObj ms =>
      let '(m, err) := foldl (λ '(m, err) '(k, v),
        let '(x, e) := d v zero in (put (String.string_of_list_ascii k) x m, err || e)) (default [] a, false) ms in
      (Some m, err)
  | _ => (a, true)
  end.

(** [json.RawMessage]. *)
Definition dec_raw : decoder (option json) := λ j _, (Some j, false).

(** A field of a struct: its name and the decoder of the struct's field. *)
Definition field (A : Type) : Type := string * decoder A.

Definition field_at {A T} (name : string) (proj : A → T) `{!Setter proj} (d : decoder T) : field A :=
  (name, λ j a, let '(v, err) := d j (proj a) in (a <| proj := v |>, err)).

(** [foldName]: the long s and the kelvin sign fold to ASCII. *)
Definition fold_byte (c : Ascii.ascii) : Ascii.ascii :=
  if (97 <=? code c) && (code c <=? 122) then chr (code c - 32) else c.

Fixpoint fold_name_from (skip : nat) (s : bytes) : bytes :=
  match s with
  | [] => []
  | a :: s' =>
      match skip with
      | S skip => fold_name_from skip s'
      | O =>
          match s' with
          | b :: c :: _ =>
              if (code a =? 226) && (code b =? 132) && (code c =? 170) then chr 75 :: fold_name_from 2 s'
              else if (code a =? 197) && (code b =? 191) then chr 83 :: fold_name_from 1 s'
              else fold_byte a :: fold_name_from 0 s'
          | b :: _ =>
              if (code a =? 197) && (code b =? 191) then chr 83 :: fold_name_from 1 s'
              else fold_byte a :: fold_name_from 0 s'
          | [] => [fold_byte a]
          end
      end
  end.
Definition fold_name : bytes → bytes := fold_name_from 0.

Definition find_field {A} (k : bytes) (fs : list (field A)) : option (decoder A) :=
  match list_find (λ f, lit f.1 = k) fs with
  | Some (_, f) => Some f.2
  | None => (λ p, p.2.2) <$> list_find (λ f, fold_name (lit f.1) = fold_name k) fs
  end.

Definition dec_struct {A} (fs : list (field A)) : decoder A := λ j a,
  match j with
  | JNull => (a, false)
  | JObj ms =>
      foldl (λ '(a, err) '(k, v),
        match find_field k fs with
        | None => (a, err)
        | Some d => let '(a, e) := d v a in (a, err || e)
        end) (a, false) ms
  | _ => (a, true)
  end.

(** [json.Unmarshal] of a value that has been scanned; [None] for an error. *)
Definition unmarshal {A} (d : decoder A) (zero : A) (j : json) : option A :=
  let '(a, err) := d j zero in if err : bool then None else Some a.

(** [json.Unmarshal] of a line into a [map[string]json.RawMessage]. *)
Definition unmarshal_map (line : bytes) : option (list (string * json)) :=
  match parse line with
  | None => None
  | Some j => default [] <$> unmarshal (dec_map JNull (λ j _, (j, false))) None j
  end.

(** ** Integers *)

(** [strconv.AppendInt], of a number with at most [fuel] digits. *)
Fixpoint dec_digits (fuel : nat) (n : Z) (acc : bytes) : bytes :=
  match fuel with
  | O => acc
  | S fuel => if n <? 10 then chr (48 + n) :: acc else dec_digits fuel (n / 10) (chr (48 + n mod 10) :: acc)
  end.

Definition itoa (n : Z) : bytes := if n <? 0 then chr 45 :: dec_digits 20 (- n) [] else dec_digits 20 n [].

(** ** Lemmas: strings *)

Lemma rune_len_high c s n : rune_len (c :: s) = Some n → (code c <? 128) = false →
  (n ≤ length (c :: s))%nat ∧ Forall (λ b, 128 ≤ code b) (take n (c :: s)) ∧ (0 < n)%nat.
Proof.
  unfold rune_len, cont. intros E H. rewrite H in E. apply Z.ltb_ge in H.
  repeat case_match; simplify_eq; simpl; (split; [lia|split; [|lia]]); repeat constructor; try lia;
    repeat match goal with H : (_ && _) = true |- _ => apply andb_prop in H as [? ?] end; try lia.
Qed.

Lemma rune_len_take c s n rest : rune_len (c :: s) = Some n → rune_len (take n (c :: s) ++ rest) = Some n.
Proof.
  intros E. assert (E' := E). unfold rune_len in E.
  repeat case_match; simplify_eq; cbn [take app];
    unfold rune_len; repeat match goal with H : ?x = true |- context [?x] => rewrite H | H : ?x = false |- context [?x] => rewrite H end; done.
Qed.

Lemma unquote_skip l rest : unquote_from (length l) (l ++ rest) = unquote_from 0 rest.
Proof. by induction l as [|c l IH]; [destruct rest|]. Qed.

Lemma unquote_ascii c rest : code c < 128 → unquote_from 0 (quote_ascii c ++ rest) = c :: unquote_from 0 rest.
Proof.
  intros H. destruct c as [[] [] [] [] [] [] [] []]; try (exfalso; revert H; vm_compute; done); reflexivity.
Qed.

Lemma code_eq c n : code c = n → c = chr n.
Proof. intros <-. unfold chr, code. by rewrite N2Z.id, Ascii.ascii_N_embedding. Qed.

Lemma unquote_quote s : ∀ k, unquote_from 0 (quote_from k s) = sanitize_from k s.
Proof.
  induction s as [|c s IH]; intros k; [done|]. destruct k as [|k]; [|apply IH]. cbn [quote_from sanitize_from].
  destruct (code c <? 128) eqn:E.
  { rewrite unquote_ascii by lia. rewrite IH. unfold rune_len. rewrite E. done. }
  destruct (rune_len (c :: s)) as [n|] eqn:En; [|by rewrite <- IH].
  destruct (rune_len_high _ _ _ En E) as (Hn & Hhigh & Hpos).
  destruct (line_separator (c :: s)) as [d|] eqn:El.
  - rewrite <- IH. unfold line_separator in El. destruct s as [|b [|e s]]; try done.
    destruct ((code c =? 226) && (code b =? 128) && ((code e =? 168) || (code e =? 169))) eqn:Eb; [|done].
    apply andb_prop in Eb as [Eb Ee]. apply andb_prop in Eb as [Ec Eb].
    apply Z.eqb_eq, code_eq in Ec as ->. apply Z.eqb_eq, code_eq in Eb as ->.
    apply orb_prop in Ee as [Ee|Ee]; apply Z.eqb_eq, code_eq in Ee as ->; injection El as <-; injection En as <-; reflexivity.
  - assert (Hrune := rune_len_take _ _ _ (quote_from (pred n) s) En).
    destruct n as [|n]; [lia|]. cbn [take app pred unquote_from] in *.
    destruct (code c =? 92) eqn:E92; [lia|]. rewrite Hrune. cbn [take pred].
    assert (length (take n s) = n) as Hlen by (rewrite length_take; simpl in Hn; lia).
    rewrite take_app_le, take_ge by lia. cbn [app]. f_equal. f_equal.
    rewrite <- IH, <- (unquote_skip (take n s)). by rewrite Hlen.
Qed.

(** A string of valid UTF-8. *)
Definition valid_utf8 (s : bytes) : Prop := sanitize s = s.

Lemma sanitize_ascii s : Forall (λ c, code c < 128) s → valid_utf8 s.
Proof.
  unfold valid_utf8, sanitize. induction 1 as [|c s Hc Hs IH]; [done|]. cbn [sanitize_from]. unfold rune_len.
  apply Z.ltb_lt in Hc as ->. cbn [take app pred]. by rewrite IH.
Qed.

(** ** Lemmas: the scanner *)

Lemma scan_from_app l1 : ∀ s l2, scan_from s (l1 ++ l2) = match scan_from s l1 with Some s => scan_from s l2 | None => None end.
Proof. induction l1 as [|c l1 IH]; intros s l2; [done|]. simpl. by destruct (scan_step s c). Qed.

(** Bytes that keep the scanner inside a string. *)
Definition inside (l : bytes) : Prop := ∀ key acc st,
  scan_from (InString key Plain acc, st) l = Some (InString key Plain (reverse l ++ acc), st).

Lemma inside_app l1 l2 : inside l1 → inside l2 → inside (l1 ++ l2).
Proof. intros H1 H2 key acc st. by rewrite scan_from_app, H1, H2, reverse_app, <- app_assoc. Qed.

Lemma inside_high l : Forall (λ b, 128 ≤ code b) l → inside l.
Proof.
  induction 1 as [|c l Hc Hl IH]; intros key acc st; [done|]. cbn [scan_from scan_step]. unfold in_string.
  destruct (code c =? 34) eqn:E1; [lia|]. destruct (code c =? 92) eqn:E2; [lia|]. destruct (code c <? 32) eqn:E3; [lia|].
  by rewrite IH, reverse_cons, <- app_assoc.
Qed.

Lemma inside_ascii c : code c < 128 → inside (quote_ascii c).
Proof.
  intros H key acc st. destruct c as [[] [] [] [] [] [] [] []]; try (exfalso; revert H; vm_compute; done); reflexivity.
Qed.

Lemma inside_quote s : ∀ k, inside (quote_from k s).
Proof.
  induction s as [|c s IH]; intros k; [by intros ???|]. destruct k as [|k]; [|apply IH]. cbn [quote_from].
  destruct (code c <? 128) eqn:E.
  { apply inside_app; [apply inside_ascii; lia|apply IH]. }
  destruct (rune_len (c :: s)) as [n|] eqn:En.
  - destruct (rune_len_high _ _ _ En E) as (_ & Hhigh & _).
    destruct (line_separator (c :: s)) as [d|] eqn:El; [|apply inside_app; [by apply inside_high|apply IH]].
    assert (d = chr 56 ∨ d = chr 57) as [-> | ->].
    { unfold line_separator in El. repeat case_match; simplify_eq; auto. }
    all: apply inside_app; [intros ???; reflexivity|apply IH].
  - apply inside_app; [intros ???; reflexivity|apply IH].
Qed.

Lemma scan_quote (key : bool) m s st : m = (if key then BeginKey else BeginValue) →
  scan_from (m, st) (quote s) = scan_from (InString key Plain (reverse (quote_from 0 s)), st) [chr 34].
Proof.
  intros ->. unfold quote. change ([chr 34] ++ quote_from 0 s ++ [chr 34]) with (chr 34 :: (quote_from 0 s ++ [chr 34])).
  assert (scan_step (if key then BeginKey else BeginValue, st) (chr 34) = Some (InString key Plain [], st)) as E by by destruct key.
  cbn [scan_from]. rewrite E, scan_from_app, inside_quote. by rewrite app_nil_r.
Qed.

Lemma scan_quote_value s st : scan_from (BeginValue, st) (quote s) = Some (complete (JStr (sanitize s)) st).
Proof.
  rewrite (scan_quote false) by done. cbn [scan_from scan_step]. unfold in_string. change (code (chr 34) =? 34) with true.
  cbn iota beta. unfold unquote. by rewrite reverse_involutive, unquote_quote.
Qed.

Lemma scan_quote_key s ms k st : scan_from (BeginKey, FObj ms k :: st) (quote s) = Some (BeginColon, FObj ms (Some (sanitize s)) :: st).
Proof.
  rewrite (scan_quote true) by done. cbn [scan_from scan_step]. unfold in_string. change (code (chr 34) =? 34) with true.
  cbn iota beta. unfold unquote. by rewrite reverse_involutive, unquote_quote.
Qed.

(** ** Round trip *)

Fixpoint scan_number (k : number) (l : bytes) : option number :=
  match l with
  | [] => Some k
  | c :: l => match next_number k c with Some k => scan_number k l | None => None end
  end.

(** The literals of the grammar. *)
Definition number_literal (l : bytes) : bool :=
  match l with
  | [] => false
  | c :: l =>
      match begin_value c [] with
      | Some (InNumber k _, _) => match scan_number k l with Some k => number_done k | None => false end
      | _ => false
      end
  end.

Fixpoint literals_ok (j : json) : bool :=
  match j with
  | JNum l => number_literal l
  | JArr l => forallb literals_ok l
  | JObj ms => forallb (λ m, literals_ok m.2) ms
  | _ => true
  end.

Fixpoint nesting (j : json) : nat :=
  match j with
  | JArr l => S (list_max (map nesting l))
  | JObj ms => S (list_max (map (λ m, nesting m.2) ms))
  | _ => 0%nat
  end.

(** What comes back: the same value with its strings made valid. *)
Fixpoint valid_json (j : json) : json :=
  match j with
  | JStr s => JStr (sanitize s)
  | JArr l => JArr (map valid_json l)
  | JObj ms => JObj (map (λ m, (sanitize m.1, valid_json m.2)) ms)
  | _ => j
  end.

Fixpoint json_nested_ind (P : json → Prop) (Hnull : P JNull) (Hbool : ∀ b, P (JBool b)) (Hnum : ∀ l, P (JNum l))
    (Hstr : ∀ s, P (JStr s)) (Harr : ∀ l, Forall P l → P (JArr l)) (Hobj : ∀ ms, Forall (λ m, P m.2) ms → P (JObj ms))
    (j : json) : P j :=
  let ind := json_nested_ind P Hnull Hbool Hnum Hstr Harr Hobj in
  match j with
  | JNull => Hnull
  | JBool b => Hbool b
  | JNum l => Hnum l
  | JStr s => Hstr s
  | JArr l => Harr l ((fix go l := match l return Forall P l with [] => Forall_nil_2 P | v :: l => Forall_cons_2 P v l (ind v) (go l) end) l)
  | JObj ms => Hobj ms ((fix go ms := match ms return Forall (λ m, P m.2) ms with
                                       | [] => Forall_nil_2 _ | m :: ms => Forall_cons_2 _ m ms (ind m.2) (go ms) end) ms)
  end.

Lemma scan_number_from l : ∀ k k' acc st, scan_number k l = Some k' →
  scan_from (InNumber k acc, st) l = Some (InNumber k' (reverse l ++ acc), st).
Proof.
  induction l as [|c l IH]; intros k k' acc st H; [by injection H as ->|]. cbn [scan_number] in H.
  destruct (next_number k c) as [k1|] eqn:E; [|done]. cbn [scan_from scan_step]. rewrite E.
  by rewrite (IH _ _ _ _ H), reverse_cons, <- app_assoc.
Qed.

Lemma begin_value_stack c st k acc : begin_value c [] = Some (InNumber k acc, []) → begin_value c st = Some (InNumber k acc, st).
Proof. unfold begin_value, push. repeat case_match; intros E; simplify_eq; done. Qed.

(** A value has been read: it is complete, or a number that the next byte
    completes. *)
Inductive settled (v : json) (st : list frame) : scan → Prop :=
| settled_done : settled v st (complete v st)
| settled_number k acc : number_done k = true → v = JNum (reverse acc) → settled v st (InNumber k acc, st).

Lemma scan_literal l st : number_literal l = true → ∃ s, scan_from (BeginValue, st) l = Some s ∧ settled (JNum l) st s.
Proof.
  destruct l as [|c l]; [done|]. cbn [number_literal].
  destruct (begin_value c []) as [[m st']|] eqn:E; [|done]. destruct m as [ | | | | | | |k acc| |]; try done.
  destruct (scan_number k l) as [k'|] eqn:Ek; [|done]. intros Hdone.
  assert (is_space c = false ∧ acc = [c] ∧ st' = []) as (Hs & -> & ->).
  { unfold begin_value, push in E. unfold is_space. repeat case_match; simplify_eq; split_and!; try done; lia. }
  cbn [scan_from scan_step]. rewrite Hs, (begin_value_stack _ st _ _ E), (scan_number_from _ _ _ _ _ Ek).
  eexists. split; [done|]. apply settled_number; [done|]. by rewrite reverse_app, reverse_involutive.
Qed.

(** A byte that may follow a value inside an array or object. *)
Definition delimiter (c : Ascii.ascii) : Prop := c = comma ∨ c = chr 93 ∨ c = chr 125.

Lemma settled_step v st s c : settled v st s → delimiter c → scan_step s c = after_value c (complete v st).
Proof.
  intros [|k acc Hk ->] Hc.
  - by destruct st as [|[acc|acc [k|]] st].
  - cbn [scan_step]. assert (next_number k c = None) as ->; [|by rewrite Hk].
    by destruct Hc as [->|[->| ->]], k.
Qed.

Lemma close_array v acc st :
  after_value (chr 93) (complete v (FArr acc :: st)) = Some (complete (JArr (reverse acc ++ [v])) st).
Proof. by rewrite <- reverse_cons. Qed.

Lemma close_object k v acc st :
  after_value (chr 125) (complete v (FObj acc (Some k) :: st)) = Some (complete (JObj (reverse acc ++ [(k, v)])) st).
Proof. by rewrite <- reverse_cons. Qed.

Lemma next_element v acc st : after_value comma (complete v (FArr acc :: st)) = Some (BeginValue, FArr (v :: acc) :: st).
Proof. done. Qed.

Lemma next_member k v acc st :
  after_value comma (complete v (FObj acc (Some k) :: st)) = Some (BeginKey, FObj ((k, v) :: acc) None :: st).
Proof. done. Qed.

Lemma print_head j : literals_ok j = true → ∃ c l, print j = c :: l ∧ is_space c = false ∧ (code c =? 93) = false.
Proof.
  destruct j as [|[]|l|s|l|ms]; try (intros _; by eexists _, _). destruct l as [|c l]; [done|]. intros H. eexists _, _. split; [done|].
  cbn [literals_ok number_literal] in H. destruct (begin_value c []) as [[m st]|] eqn:E; [|done].
  destruct m; try done. unfold begin_value, push in E. unfold is_space. repeat case_match; simplify_eq; lia.
Qed.

Lemma begin_or_empty j st rest : literals_ok j = true →
  scan_from (BeginValueOrEmpty, st) (print j ++ rest) = scan_from (BeginValue, st) (print j ++ rest).
Proof.
  intros H. destruct (print_head j H) as (c & l & -> & Hs & Hc). cbn [app scan_from scan_step]. by rewrite Hs, Hc.
Qed.

Definition scans (j : json) : Prop := literals_ok j = true → ∀ st, (length st + nesting j ≤ maxNestingDepth)%nat →
  ∃ s, scan_from (BeginValue, st) (print j) = Some s ∧ settled (valid_json j) st s.

Lemma scan_elements l : Forall scans l → forallb literals_ok l = true → ∀ acc st,
  (S (length st) + list_max (map nesting l) ≤ maxNestingDepth)%nat → l ≠ [] →
  scan_from (BeginValue, FArr acc :: st) (join [comma] (map print l) ++ [chr 93])
  = Some (complete (JArr (reverse acc ++ map valid_json l)) st).
Proof.
  induction 1 as [|v l Hv Hl IH]; intros Hok acc st Hd Hne; [done|].
  cbn [forallb] in Hok. apply andb_prop in Hok as [Hokv Hok]. change (list_max (map nesting (v :: l))) with (Nat.max (nesting v) (list_max (map nesting l))) in Hd.
  destruct (Hv Hokv (FArr acc :: st)) as (s & Hs & Hset); [cbn [length]; lia|].
  destruct l as [|v' l].
  - cbn [map join]. rewrite scan_from_app, Hs. cbn [scan_from].
    rewrite (settled_step _ _ _ _ Hset) by (unfold delimiter; auto). by rewrite close_array.
  - change (join [comma] (map print (v :: v' :: l))) with (print v ++ [comma] ++ join [comma] (map print (v' :: l))).
    rewrite <- app_assoc, scan_from_app, Hs. cbn [app scan_from].
    rewrite (settled_step _ _ _ _ Hset) by (unfold delimiter; auto). rewrite next_element.
    rewrite IH by (done || lia). cbn [map]. by rewrite reverse_cons, <- app_assoc.
Qed.

Lemma scan_members ms : Forall (λ m, scans m.2) ms → forallb (λ m, literals_ok m.2) ms = true → ∀ acc st,
  (S (length st) + list_max (map (λ m, nesting m.2) ms) ≤ maxNestingDepth)%nat → ms ≠ [] →
  scan_from (BeginKey, FObj acc None :: st) (join [comma] (map (λ m, quote m.1 ++ [chr 58] ++ print m.2) ms) ++ [chr 125])
  = Some (complete (JObj (reverse acc ++ map (λ m, (sanitize m.1, valid_json m.2)) ms)) st).
Proof.
  induction 1 as [|[k v] ms Hv Hms IH]; intros Hok acc st Hd Hne; [done|].
  cbn [forallb snd] in Hok. apply andb_prop in Hok as [Hokv Hok]. change (list_max (map _ ((k, v) :: ms))) with (Nat.max (nesting v) (list_max (map (λ m, nesting m.2) ms))) in Hd.
  destruct (Hv Hokv (FObj acc (Some (sanitize k)) :: st)) as (s & Hs & Hset); [cbn [length snd]; lia|].
  assert (∀ rest, scan_from (BeginKey, FObj acc None :: st) ((quote k ++ [chr 58] ++ print v) ++ rest)
                  = scan_from s rest) as Hmember.
  { intros rest. rewrite !scan_from_app, scan_quote_key. cbn [app scan_from scan_step]. change (is_space (chr 58)) with false.
    change (code (chr 58) =? 58) with true. cbn iota. cbn [snd] in Hs. by rewrite Hs. }
  destruct ms as [|m' ms].
  - cbn [map join fst snd]. rewrite Hmember. cbn [scan_from].
    rewrite (settled_step _ _ _ _ Hset) by (unfold delimiter; auto). by rewrite close_object.
  - set (pr := λ m : bytes * json, quote m.1 ++ [chr 58] ++ print m.2) in *.
    change (join [comma] (map pr ((k, v) :: m' :: ms))) with ((quote k ++ [chr 58] ++ print v) ++ [comma] ++ join [comma] (map pr (m' :: ms))).
    rewrite <- app_assoc, Hmember. cbn [app scan_from].
    rewrite (settled_step _ _ _ _ Hset) by (unfold delimiter; auto). rewrite next_member.
    rewrite IH by (done || lia). cbn [map fst snd]. by rewrite reverse_cons, <- app_assoc.
Qed.

Lemma scan_print j : scans j.
Proof.
  induction j as [| [] |l|s|l IH|ms IH] using json_nested_ind; intros Hok st Hd.
  1-3: eexists; split; [reflexivity|constructor].
  - by apply scan_literal.
  - eexists. split; [apply scan_quote_value|constructor].
  - cbn [nesting] in Hd. assert (push BeginValueOrEmpty (FArr []) st = Some (BeginValueOrEmpty, FArr [] :: st)) as Hpush.
    { unfold push. by rewrite (proj2 (Nat.ltb_lt _ _)) by lia. }
    cbn [print app scan_from scan_step]. change (is_space (chr 91)) with false. cbn iota.
    change (begin_value (chr 91) st) with (push BeginValueOrEmpty (FArr []) st). rewrite Hpush.
    eexists. split; [|constructor]. destruct l as [|v l]; [done|].
    change (join [comma] (map print (v :: l)) ++ [chr 93]) with (join [comma] (print v :: map print l) ++ [chr 93]).
    assert (∃ rest, join [comma] (print v :: map print l) ++ [chr 93] = print v ++ rest) as [rest E].
    { destruct l; cbn [map join]; rewrite <- ?app_assoc; by eexists. }
    rewrite E, begin_or_empty, <- E by (cbn [literals_ok forallb] in Hok; by apply andb_prop in Hok as [? _]).
    apply (scan_elements (v :: l)); [done|done|lia|done].
  - cbn [nesting] in Hd. assert (push BeginKeyOrEmpty (FObj [] None) st = Some (BeginKeyOrEmpty, FObj [] None :: st)) as Hpush.
    { unfold push. by rewrite (proj2 (Nat.ltb_lt _ _)) by lia. }
    cbn [print app scan_from scan_step]. change (is_space (chr 123)) with false. cbn iota.
    change (begin_value (chr 123) st) with (push BeginKeyOrEmpty (FObj [] None) st). rewrite Hpush.
    eexists. split; [|constructor]. destruct ms as [|m ms]; [done|].
    refine (eq_trans _ (scan_members (m :: ms) IH Hok [] st _ _)); [|lia|done].
    by destruct ms.
Qed.

(** Reading back what was written, with literals of the grammar and at most
    10000 levels. *)
Lemma parse_print j : literals_ok j = true → (nesting j ≤ maxNestingDepth)%nat → parse (print j) = Some (valid_json j).
Proof.
  intros Hok Hd. destruct (scan_print j Hok []) as (s & Hs & Hset); [done|]. unfold parse. rewrite Hs.
  destruct Hset as [|k acc Hk ->]; [done|]. cbn [scan_end]. by rewrite Hk.
Qed.

(** ** Integers are read back *)

Lemma code_chr n : 0 ≤ n < 256 → code (chr n) = n.
Proof. intros H. unfold code, chr. rewrite Ascii.N_ascii_embedding; lia. Qed.

Lemma is_digit_chr n : 0 ≤ n < 10 → is_digit (chr (48 + n)) = true.
Proof. intros H. unfold is_digit. rewrite code_chr by lia. lia. Qed.

Lemma digits_app l1 : ∀ a l2, digits a (l1 ++ l2) = match digits a l1 with Some b => digits b l2 | None => None end.
Proof. induction l1 as [|c l1 IH]; intros a l2; [done|]. cbn [app digits]. by destruct (is_digit c). Qed.

Lemma dec_digits_app fuel : ∀ n acc, dec_digits fuel n acc = dec_digits fuel n [] ++ acc.
Proof.
  induction fuel as [|fuel IH]; intros n acc; [done|]. cbn [dec_digits]. destruct (n <? 10); [done|].
  rewrite IH, (IH _ [_]), <- app_assoc. done.
Qed.

Lemma dec_digits_value fuel : ∀ n, 0 ≤ n < 10 ^ Z.of_nat fuel → (0 < fuel)%nat → digits 0 (dec_digits fuel n []) = Some n.
Proof.
  induction fuel as [|fuel IH]; intros n Hn Hf; [lia|]. cbn [dec_digits]. destruct (n <? 10) eqn:E.
  - cbn [digits]. rewrite is_digit_chr, code_chr by lia. f_equal. lia.
  - assert (0 ≤ n mod 10 < 10) by (apply Z.mod_pos_bound; lia).
    rewrite Nat2Z.inj_succ, Z.pow_succ_r in Hn by lia.
    destruct fuel as [|fuel]; [simpl in Hn; lia|].
    rewrite dec_digits_app, digits_app, IH by first [lia|split; [apply Z.div_pos; lia|apply Z.div_lt_upper_bound; lia]].
    cbn [digits]. rewrite is_digit_chr, code_chr by lia. f_equal. pose proof (Z.div_mod n 10 ltac:(lia)). lia.
Qed.

Lemma dec_digits_head fuel : ∀ n, 0 ≤ n → (0 < fuel)%nat → ∃ d l, dec_digits fuel n [] = chr (48 + d) :: l ∧ 0 ≤ d < 10.
Proof.
  induction fuel as [|fuel IH]; intros n Hn Hf; [lia|]. cbn [dec_digits]. destruct (n <? 10) eqn:E; [eexists _, _; split; [done|lia]|].
  assert (0 ≤ n mod 10 < 10) by (apply Z.mod_pos_bound; lia).
  destruct fuel as [|fuel]; [cbn [dec_digits]; by eexists _, _|].
  rewrite dec_digits_app. destruct (IH (n / 10)) as (d & l & -> & Hd); [apply Z.div_pos; lia|lia|]. by eexists _, _.
Qed.

Lemma parse_itoa n : - 2 ^ 63 ≤ n < 2 ^ 63 → parse_int (itoa n) = Some n.
Proof.
  intros H. assert (10 ^ Z.of_nat 20 = 100000000000000000000) as E20 by done. unfold itoa, parse_int.
  destruct (n <? 0) eqn:E.
  - change (code (chr 45) =? 45) with true. cbn iota.
    rewrite dec_digits_value by lia. rewrite (proj2 (andb_true_iff _ _)); [by rewrite Z.opp_involutive|lia].
  - destruct (dec_digits_head 20 n) as (d & l & Ed & Hd); [lia..|]. pose proof (dec_digits_value 20 n ltac:(lia) ltac:(lia)) as Hv.
    rewrite Ed in *. rewrite code_chr by lia. destruct (48 + d =? 45) eqn:E45; [lia|].
    rewrite Hv, (proj2 (andb_true_iff _ _)); [done|lia].
Qed.

(** The literal is one of the grammar: a digit that is not zero, or zero alone. *)
Lemma dec_digits_nonzero fuel : ∀ n, 0 < n < 10 ^ Z.of_nat fuel → (0 < fuel)%nat →
  ∃ d l, dec_digits fuel n [] = chr (48 + d) :: l ∧ 0 < d < 10 ∧ Forall (λ c, is_digit c = true) l.
Proof.
  induction fuel as [|fuel IH]; intros n Hn Hf; [lia|]. cbn [dec_digits].
  destruct (n <? 10) eqn:E; [eexists _, _; split; [done|split; [lia|constructor]]|].
  assert (0 ≤ n mod 10 < 10) by (apply Z.mod_pos_bound; lia).
  assert (1 ≤ n / 10) by (apply Z.div_le_lower_bound; lia).
  rewrite Nat2Z.inj_succ, Z.pow_succ_r in Hn by lia. destruct fuel as [|fuel]; [simpl in Hn; lia|].
  rewrite dec_digits_app. destruct (IH (n / 10)) as (d & l & -> & Hd & Hl).
  { split; [lia|]. apply Z.div_lt_upper_bound; lia. }
  { lia. }
  eexists _, _. split; [done|]. split; [done|]. apply Forall_app_2; [done|]. repeat constructor. by apply is_digit_chr.
Qed.

Lemma scan_digits l : Forall (λ c, is_digit c = true) l → scan_number NInt l = Some NInt.
Proof. induction 1 as [|c l Hc Hl IH]; [done|]. cbn [scan_number next_number]. by rewrite Hc. Qed.

Lemma itoa_literal n : - 2 ^ 63 ≤ n < 2 ^ 63 → number_literal (itoa n) = true.
Proof.
  intros H. assert (10 ^ Z.of_nat 20 = 100000000000000000000) as E20 by done.
  destruct (Z.eq_dec n 0) as [-> | Hn]; [done|]. unfold itoa, number_literal. destruct (n <? 0) eqn:E.
  - change (begin_value (chr 45) []) with (Some (InNumber NNeg [chr 45], @nil frame)). cbn iota.
    destruct (dec_digits_nonzero 20 (- n)) as (d & l & -> & Hd & Hl); [lia..|].
    cbn [scan_number next_number]. rewrite code_chr, is_digit_chr by lia. destruct (48 + d =? 48) eqn:E0; [lia|].
    by rewrite scan_digits.
  - destruct (dec_digits_nonzero 20 n) as (d & l & -> & Hd & Hl); [lia..|].
    assert (begin_value (chr (48 + d)) [] = Some (InNumber NInt [chr (48 + d)], [])) as ->.
    { unfold begin_value. rewrite code_chr by lia. repeat (case_match; try lia); done. }
    by rewrite scan_digits.
Qed.

(** ** What is written fits on a line *)

Definition no_newline (l : bytes) : Prop := Forall (λ c, c ≠ chr 10) l.

Lemma no_newline_high l : Forall (λ b, 128 ≤ code b) l → no_newline l.
Proof. intros H. eapply Forall_impl; [exact H|]. intros c Hc ->. by vm_compute in Hc. Qed.

Lemma no_newline_quote_from s : ∀ k, no_newline (quote_from k s).
Proof.
  unfold no_newline. induction s as [|c s IH]; intros k; [constructor|]. destruct k as [|k]; [|apply IH]. cbn [quote_from].
  destruct (code c <? 128) eqn:E.
  { apply Forall_app_2; [|apply IH]. destruct c as [[] [] [] [] [] [] [] []]; vm_compute; repeat constructor; done. }
  destruct (rune_len (c :: s)) as [n|] eqn:En; [|apply Forall_app_2; [repeat constructor; done|apply IH]].
  destruct (rune_len_high _ _ _ En E) as (_ & Hhigh & _).
  destruct (line_separator (c :: s)) as [d|] eqn:El; (apply Forall_app_2; [|apply IH]); [|by apply no_newline_high].
  unfold line_separator in El. repeat constructor; repeat case_match; simplify_eq; done.
Qed.

Lemma no_newline_literal l : number_literal l = true → no_newline l.
Proof.
  unfold number_literal, no_newline. destruct l as [|c l]; [done|]. destruct (begin_value c []) as [[m st]|] eqn:E; [|done].
  destruct m as [ | | | | | | |k acc| |]; try done. intros H. constructor.
  { intros ->. done. }
  clear E. revert k H. induction l as [|d l IH]; intros k H; [constructor|]. cbn [scan_number] in H.
  destruct (next_number k d) as [k'|] eqn:E; [|done]. constructor; [|by eapply IH]. intros ->. by destruct k.
Qed.

Lemma no_newline_join ls : Forall no_newline ls → no_newline (join [comma] ls).
Proof.
  induction 1 as [|l ls Hl Hls IH]; [constructor|]. destruct ls as [|l' ls]; [done|].
  cbn [join]. apply Forall_app_2; [done|]. constructor; [done|]. exact IH.
Qed.

Lemma no_newline_print j : literals_ok j = true → no_newline (print j).
Proof.
  assert (∀ s, no_newline (quote s)) as Hquote.
  { intros s. unfold quote. apply Forall_app_2; [repeat constructor; done|].
    apply Forall_app_2; [apply no_newline_quote_from|repeat constructor; done]. }
  induction j as [| [] |l|s|l IH|ms IH] using json_nested_ind; intros Hok; cbn [print].
  1-3: repeat constructor; done.
  - by apply no_newline_literal.
  - done.
  - cbn [literals_ok] in Hok. constructor; [done|]. apply Forall_app_2; [|repeat constructor; done]. apply no_newline_join, Forall_map.
    apply Forall_forall. intros v Hv. rewrite Forall_forall in IH. apply IH; [done|].
    rewrite forallb_forall in Hok. apply Hok. by apply list_elem_of_In.
  - cbn [literals_ok] in Hok. constructor; [done|]. apply Forall_app_2; [|repeat constructor; done].
    apply no_newline_join, Forall_map, Forall_forall. intros m Hm. rewrite Forall_forall in IH. rewrite forallb_forall in Hok.
    apply Forall_app_2; [apply Hquote|]. constructor; [done|]. apply IH; [done|]. apply Hok. by apply list_elem_of_In.
Qed.

(** ** A line with one member *)

Lemma shallow n : (n ≤ 200)%nat → (n ≤ maxNestingDepth)%nat.
Proof. intros H. apply (Nat.le_trans _ 200); [done|]. by apply Nat.leb_le. Qed.

(** A string as it comes back. *)
Definition clean (s : string) : string := String.string_of_list_ascii (sanitize (lit s)).

Lemma unmarshal_line k p : literals_ok p = true → (S (nesting p) ≤ maxNestingDepth)%nat →
  unmarshal_map (print (JObj [(lit k, p)])) = Some [(clean k, valid_json p)].
Proof.
  intros Hok Hd. unfold unmarshal_map. rewrite parse_print; [done| |].
  - cbn [literals_ok forallb snd]. by rewrite Hok.
  - cbn [nesting map snd]. change (list_max [nesting p]) with (Nat.max (nesting p) 0). lia.
Qed.

Lemma clean_valid s : valid_utf8 (lit s) → clean s = s.
Proof. intros H. unfold clean. rewrite H. apply String.string_of_list_ascii_of_string. Qed.

Lemma sanitize_nil s : sanitize s = [] → s = [].
Proof.
  destruct s as [|c s]; [done|]. unfold sanitize. cbn [sanitize_from].
  destruct (rune_len (c :: s)) as [[|n]|] eqn:E; [|done|done].
  exfalso. unfold rune_len in E. repeat case_match; simplify_eq.
Qed.

Lemma clean_nil s : clean s = ""%string → s = ""%string.
Proof.
  intros H. assert (sanitize (lit s) = []) as Hs.
  { unfold clean in H. by destruct (sanitize (lit s)). }
  apply sanitize_nil in Hs. by destruct s.
Qed.

(** ** Decoding one member *)

Lemma decode_fold {A} (fs : list (field A)) ms : ∀ a (err : bool),
  foldl (λ '(a, err) '(k, v), match find_field k fs with None => (a, err) | Some d => let '(a, e) := d v a in (a, err || e) end) (a, err) ms
  = let '(b, e) := dec_struct fs (JObj ms) a in (b, err || e).
Proof.
  induction ms as [|[k v] ms IH]; intros a err; cbn [foldl dec_struct]; [by rewrite orb_false_r|].
  destruct (find_field k fs) as [d|]; [|by rewrite IH]. destruct (d v a) as [a' e]. rewrite IH, (IH a' (false || e)).
  destruct (dec_struct fs (JObj ms) a') as [b e']. by rewrite orb_assoc.
Qed.

Lemma decode_field {A} (fs : list (field A)) (f : field A) k v ms a a' :
  find_field k fs = Some f.2 → f.2 v a = (a', false) →
  dec_struct fs (JObj ((k, v) :: ms)) a = dec_struct fs (JObj ms) a'.
Proof.
  intros Hf Hd. cbn [dec_struct foldl]. rewrite Hf, Hd. cbn [orb]. rewrite decode_fold. by destruct (dec_struct fs (JObj ms) a').
Qed.

Lemma decode_skip {A} (fs : list (field A)) k v ms a :
  find_field k fs = None → dec_struct fs (JObj ((k, v) :: ms)) a = dec_struct fs (JObj ms) a.
Proof. intros Hf. cbn [dec_struct foldl]. by rewrite Hf. Qed.

Lemma dec_string_eq s a : dec_string (JStr s) a = (String.string_of_list_ascii s, false).
Proof. done. Qed.

Lemma dec_int_itoa n a : - 2 ^ 63 ≤ n < 2 ^ 63 → dec_int (JNum (itoa n)) a = (n, false).
Proof. intros H. cbn [dec_int]. by rewrite parse_itoa. Qed.
