(* ===== verification/TestConfig.v ===== *)
(** * The test configuration ([internal/testconfig])

    The structs of the configuration with all their fields, presets, loading and
    the two validations.  Reading the file and decoding JSON are parameters of
    [Load]; [os.Stat] is a parameter of [ValidateFull].  An error message is a
    constructor that carries what the text is made of, the hints are left out. *)
From stdpp Require Import strings pretty.
From S2P Require Import Prelude Word Float GoLib.
Local Open Scope Z_scope.

(** ** Data *)

Record K3sConfig := mkK3sConfig {
  k3_Enabled : bool;
  k3_HelmChart : string;
  k3_HelmValues : string;
  k3_Namespace : string;
  k3_WaitForReady : string;
  k3_Services : list string;
  k3_ExtraArgs : list string }.
#[export] Instance K3sConfig_eta : Eta K3sConfig := mkEta _ (λ r,
  mkK3sConfig (k3_Enabled r) (k3_HelmChart r) (k3_HelmValues r) (k3_Namespace r) (k3_WaitForReady r) (k3_Services r)
    (k3_ExtraArgs r)).

Record EmailNotifyConfig := mkEmailNotifyConfig {
  em_SMTPHost : string;
  em_SMTPPort : Z;
  em_Username : string;
  em_Password : string;
  em_From : string;
  em_To : list string }.
#[export] Instance EmailNotifyConfig_eta : Eta EmailNotifyConfig := mkEta _ (λ r,
  mkEmailNotifyConfig (em_SMTPHost r) (em_SMTPPort r) (em_Username r) (em_Password r) (em_From r) (em_To r)).

Record NotifyConfig := mkNotifyConfig {
  no_WebhookURL : string;
  no_OnEvents : list string;
  no_SlackFormat : bool;
  no_Email : option EmailNotifyConfig }.
#[export] Instance NotifyConfig_eta : Eta NotifyConfig := mkEta _ (λ r,
  mkNotifyConfig (no_WebhookURL r) (no_OnEvents r) (no_SlackFormat r) (no_Email r)).

Record Node := mkNode {
  nd_Name : string;
  nd_Binary : string;
  nd_Args : list string;
  nd_Env : gmap string string;
  nd_ReadyProbe : string;
  nd_FaultProbe : string;
  nd_Daemon : option bool;
  nd_CoverDir : string;
  nd_StorageFaultFsyncRate : float64;
  nd_StorageFaultWriteRate : float64 }.
#[export] Instance Node_eta : Eta Node := mkEta _ (λ r,
  mkNode (nd_Name r) (nd_Binary r) (nd_Args r) (nd_Env r) (nd_ReadyProbe r) (nd_FaultProbe r) (nd_Daemon r)
    (nd_CoverDir r) (nd_StorageFaultFsyncRate r) (nd_StorageFaultWriteRate r)).

Record Exploration := mkExploration {
  ex_Strategy : string;
  ex_MaxStates : Z;
  ex_MaxDepth : Z;
  ex_BranchFactor : Z;
  ex_Seed : Z;
  ex_GCInterval : Z;
  ex_InitInsns : Z;
  ex_DrainInsns : Z;
  ex_WarmupInsns : Z;
  ex_ReconnectBurstInsns : Z;
  ex_CoverageMapSize : Z;
  ex_BurstMinNS : Z;
  ex_BurstMaxNS : Z;
  ex_BurstTimeoutSecs : Z;
  ex_UseWallClockBursts : bool;
  ex_WallClockBurstMinMS : Z;
  ex_WallClockBurstMaxMS : Z;
  ex_NoHostPatches : bool }.
#[export] Instance Exploration_eta : Eta Exploration := mkEta _ (λ r,
  mkExploration (ex_Strategy r) (ex_MaxStates r) (ex_MaxDepth r) (ex_BranchFactor r) (ex_Seed r) (ex_GCInterval r)
    (ex_InitInsns r) (ex_DrainInsns r) (ex_WarmupInsns r) (ex_ReconnectBurstInsns r) (ex_CoverageMapSize r)
    (ex_BurstMinNS r) (ex_BurstMaxNS r) (ex_BurstTimeoutSecs r) (ex_UseWallClockBursts r)
    (ex_WallClockBurstMinMS r) (ex_WallClockBurstMaxMS r) (ex_NoHostPatches r)).

Record Adaptation := mkAdaptation {
  ad_Enabled : bool;
  ad_SatWindowSize : Z;
  ad_SatThreshold : float64;
  ad_SatRoundsBeforeShift : Z;
  ad_EscalationFactor : float64;
  ad_EscalationMaxFactor : float64;
  ad_ViolationlessRoundsBeforeEscalate : Z;
  ad_MaxRounds : Z;
  ad_StopOnViolation : bool }.
#[export] Instance Adaptation_eta : Eta Adaptation := mkEta _ (λ r,
  mkAdaptation (ad_Enabled r) (ad_SatWindowSize r) (ad_SatThreshold r) (ad_SatRoundsBeforeShift r)
    (ad_EscalationFactor r) (ad_EscalationMaxFactor r) (ad_ViolationlessRoundsBeforeEscalate r)
    (ad_MaxRounds r) (ad_StopOnViolation r)).

Record NetworkFaultCfg := mkNetworkFaultCfg {
  nw_DropRate : float64;
  nw_DelayMin : string;
  nw_DelayMax : string;
  nw_CrashRate : float64;
  nw_PartitionRate : float64;
  nw_DirectedPartitionRatio : float64;
  nw_ThrottleRate : float64;
  nw_ThrottleMinKbps : Z;
  nw_ThrottleMaxKbps : Z;
  nw_ReorderRate : float64;
  nw_ReorderCorrelation : Z;
  nw_NWayPartitionRate : float64;
  nw_NWayPartitionMaxGroups : Z }.
#[export] Instance NetworkFaultCfg_eta : Eta NetworkFaultCfg := mkEta _ (λ r,
  mkNetworkFaultCfg (nw_DropRate r) (nw_DelayMin r) (nw_DelayMax r) (nw_CrashRate r) (nw_PartitionRate r)
    (nw_DirectedPartitionRatio r) (nw_ThrottleRate r) (nw_ThrottleMinKbps r) (nw_ThrottleMaxKbps r)
    (nw_ReorderRate r) (nw_ReorderCorrelation r) (nw_NWayPartitionRate r) (nw_NWayPartitionMaxGroups r)).

Record NodeFaultCfg := mkNodeFaultCfg {
  nf_HangRate : float64;
  nf_HangMin : string;
  nf_HangMax : string;
  nf_TerminateRate : float64;
  nf_DirtyRestartRate : float64;
  nf_ClockJitterMax : string;
  nf_PauseRate : float64;
  nf_PauseMin : string;
  nf_PauseMax : string;
  nf_CPUThrottleRate : float64;
  nf_CPUThrottleMinPct : Z;
  nf_CPUThrottleMaxPct : Z;
  nf_DiskSlowRate : float64;
  nf_DiskSlowMinBps : Z;
  nf_DiskSlowMaxBps : Z;
  nf_DiskFullRate : float64;
  nf_DiskFullTargetFreeBytes : Z;
  nf_DiskCorruptRate : float64;
  nf_DiskCorruptDataDir : string;
  nf_DiskFlakeyRate : float64;
  nf_DiskFlakeyInterval : Z;
  nf_DiskFlakeyDuration : Z;
  nf_MemPressureRate : float64;
  nf_MemPressureMinMB : Z;
  nf_MemPressureMaxMB : Z;
  nf_ScriptRate : float64;
  nf_ScriptPath : string;
  nf_ScriptArgs : list string;
  nf_ScriptTimeoutSeconds : Z;
  nf_CPUModulateRate : float64;
  nf_CPUModulateMinPct : Z;
  nf_CPUModulateMaxPct : Z }.
#[export] Instance NodeFaultCfg_eta : Eta NodeFaultCfg := mkEta _ (λ r,
  mkNodeFaultCfg (nf_HangRate r) (nf_HangMin r) (nf_HangMax r) (nf_TerminateRate r) (nf_DirtyRestartRate r)
    (nf_ClockJitterMax r) (nf_PauseRate r) (nf_PauseMin r) (nf_PauseMax r) (nf_CPUThrottleRate r)
    (nf_CPUThrottleMinPct r) (nf_CPUThrottleMaxPct r) (nf_DiskSlowRate r) (nf_DiskSlowMinBps r)
    (nf_DiskSlowMaxBps r) (nf_DiskFullRate r) (nf_DiskFullTargetFreeBytes r) (nf_DiskCorruptRate r)
    (nf_DiskCorruptDataDir r) (nf_DiskFlakeyRate r) (nf_DiskFlakeyInterval r) (nf_DiskFlakeyDuration r)
    (nf_MemPressureRate r) (nf_MemPressureMinMB r) (nf_MemPressureMaxMB r) (nf_ScriptRate r)
    (nf_ScriptPath r) (nf_ScriptArgs r) (nf_ScriptTimeoutSeconds r) (nf_CPUModulateRate r)
    (nf_CPUModulateMinPct r) (nf_CPUModulateMaxPct r)).

Record FaultConfig := mkFaultConfig {
  fc_Enabled : bool;
  fc_Preset : string;
  fc_Network : NetworkFaultCfg;
  fc_Node : NodeFaultCfg;
  fc_SwarmTesting : bool;
  fc_AdaptiveFaults : bool }.
#[export] Instance FaultConfig_eta : Eta FaultConfig := mkEta _ (λ r,
  mkFaultConfig (fc_Enabled r) (fc_Preset r) (fc_Network r) (fc_Node r) (fc_SwarmTesting r) (fc_AdaptiveFaults r)).

Record Config := mkConfig {
  c_Name : string;
  c_Description : string;
  c_Nodes : list Node;
  c_TestDir : string;
  c_BaseImage : string;
  c_KernelPath : string;
  c_ComposeFile : string;
  c_MemoryMB : Z;
  c_SUTImage : string;
  c_SetupTimeout : string;
  c_K3s : option K3sConfig;
  c_Exploration : Exploration;
  c_Faults : FaultConfig;
  c_Adaptation : Adaptation;
  c_Duration : string;
  c_Backend : string;
  c_Parallel : Z;
  c_Notifications : NotifyConfig }.
#[export] Instance Config_eta : Eta Config := mkEta _ (λ r,
  mkConfig (c_Name r) (c_Description r) (c_Nodes r) (c_TestDir r) (c_BaseImage r) (c_KernelPath r)
    (c_ComposeFile r) (c_MemoryMB r) (c_SUTImage r) (c_SetupTimeout r) (c_K3s r) (c_Exploration r)
    (c_Faults r) (c_Adaptation r) (c_Duration r) (c_Backend r) (c_Parallel r) (c_Notifications r)).

(** ** Errors *)

(** What an [ErrInvalidConfig] is wrapped with. *)
Inductive invalid_config :=
| ParseFailed
| InvalidDuration (d : string)
| NodeMissingName
| DuplicateNode (name : string)
| NodeMissingBinary (name : string).

Inductive ConfigError :=
| ErrNoConfig
| ErrRead
| ErrInvalidConfig (why : invalid_config)
| ErrNoNodes
| ErrNoTestDir.

(** The messages of a full validation. *)
Inductive Problem :=
| NotADuration (v : string)
| UnknownStrategy (v : string)
| BranchFactorRange (v : Z)
| UnknownPreset (v : string)
| RateRange (v : float64)
| FileNotFound (path : string)
| NoNodes
| NoTestDir
| MissingName
| DuplicateName (name : string)
| MissingBinary.

Record ValidationError := mkValidationError { ve_Field : string; ve_Message : Problem }.

(** ** Presets *)

Record rates := mkRates { r_drop : float64; r_crash : float64; r_hang : float64; r_terminate : float64 }.

Definition presets (name : string) : option rates :=
  if decide (name = "calm"%string) then Some (mkRates (flit 5 100) fzero (flit 1 100) (flit 1 100))
  else if decide (name = "moderate"%string) then Some (mkRates (flit 1 10) fzero (flit 5 100) (flit 5 100))
  else if decide (name = "chaos"%string) then Some (mkRates (flit 3 10) (flit 5 100) (flit 1 10) (flit 1 10))
  else None.

(** [if x == 0 { x = p }]. *)
Definition fill (x p : float64) : float64 := if feq x fzero then p else x.

Definition ApplyPreset (f : FaultConfig) : FaultConfig :=
  match presets (fc_Preset f) with
  | None => f
  | Some p =>
      let n := fc_Network f in
      let n := n <| nw_DropRate := fill (nw_DropRate n) (r_drop p) |> <| nw_CrashRate := fill (nw_CrashRate n) (r_crash p) |> in
      let d := fc_Node f in
      let d := d <| nf_HangRate := fill (nf_HangRate d) (r_hang p) |>
                 <| nf_TerminateRate := fill (nf_TerminateRate d) (r_terminate p) |> in
      f <| fc_Network := n |> <| fc_Node := d |> <| fc_Enabled := true |>
  end.

(** ** Validation *)

Definition valid_duration (s : string) : bool := bool_decide (is_Some (ParseDuration s)).

Definition k3s_enabled (c : Config) : bool := match c_K3s c with Some k => k3_Enabled k | None => false end.

(** The loop over the nodes: the first error. *)
Fixpoint check_nodes (seen : gset string) (nodes : list Node) : option ConfigError :=
  match nodes with
  | [] => None
  | n :: nodes =>
      if decide (nd_Name n = ""%string) then Some (ErrInvalidConfig NodeMissingName)
      else if decide (nd_Name n ∈ seen) then Some (ErrInvalidConfig (DuplicateNode (nd_Name n)))
      else
        let seen := {[nd_Name n]} ∪ seen in
        if decide (nd_Binary n = ""%string) then Some (ErrInvalidConfig (NodeMissingBinary (nd_Name n)))
        else check_nodes seen nodes
  end.

(** [nil] is [None]. *)
Definition Validate (c : Config) : option ConfigError :=
  let check_duration :=
    if bool_decide (c_Duration c ≠ ""%string) && negb (valid_duration (c_Duration c))
    then Some (ErrInvalidConfig (InvalidDuration (c_Duration c))) else None in
  if decide (c_ComposeFile c ≠ ""%string) then check_duration
  else if (length (c_Nodes c) =? 0)%nat && negb (k3s_enabled c) then Some ErrNoNodes
  else if decide (c_TestDir c = ""%string) then Some ErrNoTestDir
  else
    match check_nodes ∅ (c_Nodes c) with
    | Some e => Some e
    | None => check_duration
    end.

Definition ValidateStrategies : list string := ["coverage"; "bfs"; "dfs"; "random"]%string.
Definition validPresets : list string := ["calm"; "moderate"; "chaos"]%string.

Definition add (field : string) (msg : Problem) : list ValidationError := [mkValidationError field msg].

Definition checkRate (field : string) (v : float64) : list ValidationError :=
  if flt v fzero || fgt v fone then add field (RateRange v) else [].

(** [if val != "" { if _, err := time.ParseDuration(val); err != nil { add(...) } }]. *)
Definition check_duration_field (field val : string) : list ValidationError :=
  if bool_decide (val ≠ ""%string) && negb (valid_duration val) then add field (NotADuration val) else [].

Definition node_prefix (i : nat) : string := "nodes[" ++ pretty i ++ "]".

Section full.
(** [os.Stat] succeeds. *)
Context (exists_file : string → bool) (checkFiles : bool).

Definition check_file (field path : string) : list ValidationError :=
  if checkFiles && negb (exists_file path) then add field (FileNotFound path) else [].

Fixpoint full_nodes (i : nat) (seen : gset string) (nodes : list Node) : list ValidationError :=
  match nodes with
  | [] => []
  | n :: nodes =>
      let prefix := node_prefix i in
      if decide (nd_Name n = ""%string) then add (prefix ++ ".name") MissingName ++ full_nodes (S i) seen nodes
      else
        (if decide (nd_Name n ∈ seen) then add (prefix ++ ".name") (DuplicateName (nd_Name n)) else []) ++
        (if decide (nd_Binary n = ""%string) then add (prefix ++ ".binary") MissingBinary
         else check_file (prefix ++ ".binary") (nd_Binary n)) ++
        full_nodes (S i) ({[nd_Name n]} ∪ seen) nodes
  end%list.

Definition check_k3s (k : option K3sConfig) : list ValidationError :=
  match k with
  | Some k =>
      if k3_Enabled k then
        (if bool_decide (k3_HelmChart k ≠ ""%string) then check_file "k3s.helm_chart" (k3_HelmChart k) else []) ++
        (if bool_decide (k3_HelmValues k ≠ ""%string) then check_file "k3s.helm_values" (k3_HelmValues k) else []) ++
        check_duration_field "k3s.wait_for_ready" (k3_WaitForReady k)
      else []
  | None => []
  end.

(** The checks made in compose mode too. *)
Definition common_problems (c : Config) : list ValidationError :=
  check_duration_field "duration" (c_Duration c) ++
  (if bool_decide (ex_Strategy (c_Exploration c) ≠ ""%string) &&
      negb (bool_decide (ex_Strategy (c_Exploration c) ∈ ValidateStrategies))
   then add "exploration.strategy" (UnknownStrategy (ex_Strategy (c_Exploration c))) else []) ++
  (if (ex_BranchFactor (c_Exploration c) <? 0) || (64 <? ex_BranchFactor (c_Exploration c))
   then add "exploration.branch_factor" (BranchFactorRange (ex_BranchFactor (c_Exploration c))) else []) ++
  (if bool_decide (fc_Preset (c_Faults c) ≠ ""%string) && negb (bool_decide (fc_Preset (c_Faults c) ∈ validPresets))
   then add "faults.preset" (UnknownPreset (fc_Preset (c_Faults c))) else []) ++
  checkRate "faults.network.drop_rate" (nw_DropRate (fc_Network (c_Faults c))) ++
  checkRate "faults.network.crash_rate" (nw_CrashRate (fc_Network (c_Faults c))) ++
  checkRate "faults.node.hang_rate" (nf_HangRate (fc_Node (c_Faults c))) ++
  checkRate "faults.node.terminate_rate" (nf_TerminateRate (fc_Node (c_Faults c))) ++
  check_duration_field "faults.node.hang_min" (nf_HangMin (fc_Node (c_Faults c))) ++
  check_duration_field "faults.node.hang_max" (nf_HangMax (fc_Node (c_Faults c))) ++
  check_duration_field "faults.network.delay_min" (nw_DelayMin (fc_Network (c_Faults c))) ++
  check_duration_field "faults.network.delay_max" (nw_DelayMax (fc_Network (c_Faults c))) ++
  check_duration_field "faults.node.clock_jitter_max" (nf_ClockJitterMax (fc_Node (c_Faults c))) ++
  check_k3s (c_K3s c).

Definition ValidateFull (c : Config) : list ValidationError :=
  let errs := common_problems c in
  if decide (c_ComposeFile c ≠ ""%string) then errs ++ check_file "compose_file" (c_ComposeFile c)
  else
    errs ++
    (if (length (c_Nodes c) =? 0)%nat then add "nodes" NoNodes else []) ++
    (if decide (c_TestDir c = ""%string) then add "test_dir" NoTestDir else []) ++
    full_nodes 0 ∅ (c_Nodes c) ++
    (if bool_decide (c_TestDir c ≠ ""%string) then check_file "test_dir" (c_TestDir c) else []).
End full.

(** ** Loading *)

(** [if p != "" && !filepath.IsAbs(p) { p = filepath.Join(base, p) }]. *)
Definition resolve (base p : string) : string :=
  if bool_decide (p ≠ ""%string) && negb (IsAbs p) then Join base p else p.

Definition resolve_paths (base : string) (c : Config) : Config :=
  c <| c_Nodes := map (λ n, n <| nd_Binary := resolve base (nd_Binary n) |>) (c_Nodes c) |>
    <| c_TestDir := resolve base (c_TestDir c) |>
    <| c_SUTImage := resolve base (c_SUTImage c) |>
    <| c_K3s := (λ k, k <| k3_HelmChart := resolve base (k3_HelmChart k) |>
                        <| k3_HelmValues := resolve base (k3_HelmValues k) |>) <$> c_K3s c |>.

Definition Load {data : Type} (readFile : string → option data) (unmarshal : data → option Config) (path : string) :
    result ConfigError Config :=
  if decide (path = ""%string) then Err ErrNoConfig
  else
    match readFile path with
    | None => Err ErrRead
    | Some bytes =>
        match unmarshal bytes with
        | None => Err (ErrInvalidConfig ParseFailed)
        | Some cfg =>
            let cfg := resolve_paths (Dir (Clean path)) cfg in
            let cfg := cfg <| c_Faults := ApplyPreset (c_Faults cfg) |> in
            match Validate cfg with
            | Some e => Err e
            | None => Ok cfg
            end
        end
    end.

(** 30 minutes. *)
Definition default_duration : Z := 30 * 60000000000.

Definition ParsedDuration (c : Config) : Z :=
  if decide (c_Duration c = ""%string) then default_duration
  else match ParseDuration (c_Duration c) with Some d => d | None => default_duration end.

Definition IsDaemon (n : Node) : bool := match nd_Daemon n with None => true | Some b => b end.

Definition NodeNames (c : Config) : list string := map nd_Name (c_Nodes c).

(** ** Specification *)

Definition duration_ok (s : string) : Prop := s = ""%string ∨ is_Some (ParseDuration s).

Definition rate_ok (v : float64) : Prop := flt v fzero = false ∧ fgt v fone = false.

(** The configurations a test may start from. *)
Record WellFormed (c : Config) : Prop := {
  wf_duration : duration_ok (c_Duration c);
  wf_nodes : c_ComposeFile c = ""%string →
    (c_Nodes c ≠ [] ∨ k3s_enabled c = true) ∧ c_TestDir c ≠ ""%string ∧ NoDup (NodeNames c) ∧
    Forall (λ n, nd_Name n ≠ ""%string ∧ nd_Binary n ≠ ""%string) (c_Nodes c) }.

(** The paths of a configuration that [Load] resolves. *)
Definition config_paths (c : Config) : list string :=
  map nd_Binary (c_Nodes c) ++ [c_TestDir c; c_SUTImage c] ++
  match c_K3s c with Some k => [k3_HelmChart k; k3_HelmValues k] | None => [] end.

(** ** Lemmas *)

Lemma invalid_duration_spec s : bool_decide (s ≠ ""%string) && negb (valid_duration s) = false ↔ duration_ok s.
Proof.
  unfold duration_ok, valid_duration. rewrite andb_false_iff, negb_false_iff, bool_decide_eq_true, bool_decide_eq_false.
  split; (intros [H|H]; [|by right]); left; [by destruct (decide (s = ""%string))|tauto].
Qed.

Lemma check_nodes_spec nodes : ∀ seen,
  check_nodes seen nodes = None ↔
  (Forall (λ n, nd_Name n ∉ seen) nodes ∧ NoDup (map nd_Name nodes)) ∧
  Forall (λ n, nd_Name n ≠ ""%string ∧ nd_Binary n ≠ ""%string) nodes.
Proof.
  induction nodes as [|n nodes IH]; intros seen; cbn [check_nodes map]; [by split; [repeat constructor|]|].
  rewrite !Forall_cons, NoDup_cons. destruct (decide (nd_Name n = "")%string) as [E|E]; [split; [done|naive_solver]|].
  destruct (decide (nd_Name n ∈ seen)) as [Es|Es]; [split; [done|naive_solver]|].
  destruct (decide (nd_Binary n = "")%string) as [Eb|Eb]; [split; [done|naive_solver]|]. rewrite IH, !Forall_forall. split.
  - intros [[H1 H2] H3]. split_and!; try done; [set_solver|]. intros Hin.
    apply list_elem_of_fmap in Hin as (m & Hm & Hin). apply (H1 m Hin). set_solver.
  - intros [[[_ H1] [H2 H3]] [_ H4]]. split_and!; try done. intros m Hm. apply not_elem_of_union. split; [|by apply H1].
    rewrite elem_of_singleton. intros Heq. apply H2. apply list_elem_of_fmap. by exists m.
Qed.

(** [Validate] decides well-formedness. *)
Lemma Validate_spec c : Validate c = None ↔ WellFormed c.
Proof.
  unfold Validate.
  assert ((if bool_decide (c_Duration c ≠ ""%string) && negb (valid_duration (c_Duration c))
           then Some (ErrInvalidConfig (InvalidDuration (c_Duration c))) else None) = None ↔ duration_ok (c_Duration c)) as Hd.
  { rewrite <- invalid_duration_spec. by destruct (_ && _). }
  destruct (decide (c_ComposeFile c ≠ ""%string)) as [Hc|Hc].
  { rewrite Hd. split; [intros ?; by split|by intros []]. }
  assert (c_ComposeFile c = ""%string) as Hc' by by destruct (decide (c_ComposeFile c = ""%string)). clear Hc.
  destruct (_ && negb (k3s_enabled c)) eqn:Hn.
  { apply andb_true_iff in Hn as [Hl%Nat.eqb_eq Hk%negb_true_iff]. split; [done|]. intros [_ H].
    destruct (H Hc') as ([Hne|Hk'] & _); [|congruence]. by destruct (c_Nodes c). }
  assert (c_Nodes c ≠ [] ∨ k3s_enabled c = true) as Hn'.
  { apply andb_false_iff in Hn as [Hn%Nat.eqb_neq|Hn%negb_false_iff]; [left; by intros E; rewrite E in Hn|by right]. }
  destruct (decide (c_TestDir c = ""%string)) as [Ht|Ht]; [split; [done|]; intros [_ H]; by destruct (H Hc') as (_ & ? & _)|].
  pose proof (check_nodes_spec (c_Nodes c) ∅) as Hs. unfold NodeNames. destruct (check_nodes ∅ (c_Nodes c)) as [e|].
  - split; [done|]. intros [_ H]. destruct (H Hc') as (_ & _ & Hnd & Hf).
    assert (Some e = None) as E; [|by inversion E]. apply Hs. split_and!; try done. apply Forall_forall. set_solver.
  - rewrite Hd. destruct (proj1 Hs eq_refl) as [[_ H1] H2]. split; [intros ?; by split|by intros []].
Qed.

Lemma check_nodes_error nodes : ∀ seen e, check_nodes seen nodes = Some e → ∃ why, e = ErrInvalidConfig why.
Proof. induction nodes as [|n nodes IH]; intros seen e; cbn [check_nodes]; repeat case_match; naive_solver. Qed.

Lemma Validate_error c e : Validate c = Some e → e = ErrNoNodes ∨ e = ErrNoTestDir ∨ ∃ why, e = ErrInvalidConfig why.
Proof.
  unfold Validate. destruct (check_nodes ∅ (c_Nodes c)) eqn:Hn; repeat case_match; intros; simplify_eq; eauto.
  right; right. by eapply check_nodes_error.
Qed.

Lemma resolve_spec base p : IsAbs base = true → resolve base p = ""%string ∨ IsAbs (resolve base p) = true.
Proof.
  intros Hb. unfold resolve. case_bool_decide as Hp; cbn [andb]; [|left; by destruct (decide (p = ""%string))].
  right. destruct (IsAbs p) eqn:E; cbn [negb]; auto with ot.
Qed.

Lemma resolve_paths_spec base c :
  IsAbs base = true → Forall (λ p, p = ""%string ∨ IsAbs p = true) (config_paths (resolve_paths base c)).
Proof.
  intros Hb. unfold config_paths, resolve_paths. simpl. rewrite map_map. apply Forall_app. split.
  - apply Forall_forall. intros p (n & -> & _)%list_elem_of_fmap. by apply resolve_spec.
  - destruct (c_K3s c); simpl; rewrite ?Forall_cons, ?Forall_nil; split_and!; auto using resolve_spec.
Qed.

Lemma fill_spec x p : feq x fzero = false → fill x p = x.
Proof. unfold fill. by intros ->. Qed.

Lemma fill_fill x p : fill (fill x p) p = fill x p.
Proof. unfold fill. destruct (feq x fzero) eqn:E; [by destruct (feq p fzero)|by rewrite E]. Qed.

(** A preset never changes a rate that is set, and applying it again changes
    nothing. *)
Lemma ApplyPreset_idempotent f : ApplyPreset (ApplyPreset f) = ApplyPreset f.
Proof.
  unfold ApplyPreset at 2 3. destruct (presets (fc_Preset f)) as [p|] eqn:Hp.
  - unfold ApplyPreset. simpl. rewrite Hp. by rewrite !fill_fill.
  - unfold ApplyPreset. by rewrite Hp.
Qed.

Lemma app_nil_iff {A} (l1 l2 : list A) : l1 ++ l2 = [] ↔ l1 = [] ∧ l2 = [].
Proof. split; [apply app_eq_nil|by intros [-> ->]]. Qed.

Lemma unlisted_nil {A} (P Q : Prop) `{Decision P, Decision Q} (l : list A) :
  (if bool_decide P && negb (bool_decide Q) then l else []) = [] → l ≠ [] → ¬ P ∨ Q.
Proof. repeat case_bool_decide; try tauto. Qed.

Lemma check_duration_field_nil field v : check_duration_field field v = [] ↔ duration_ok v.
Proof. rewrite <- invalid_duration_spec. unfold check_duration_field. by destruct (_ && _). Qed.

Lemma checkRate_nil field v : checkRate field v = [] ↔ rate_ok v.
Proof.
  unfold checkRate, rate_ok. destruct (flt v fzero), (fgt v fone); cbn [orb]; split; intros H; try done;
    by destruct H.
Qed.

Lemma full_nodes_nil ef cf nodes : ∀ i seen,
  full_nodes ef cf i seen nodes = [] →
  check_nodes seen nodes = None ∧ (cf = true → Forall (λ n, ef (nd_Binary n) = true) nodes).
Proof.
  induction nodes as [|n nodes IH]; intros i seen; cbn [full_nodes check_nodes]; [by split|].
  destruct (decide (nd_Name n = ""%string)); [done|]. rewrite !app_nil_iff.
  destruct (decide (nd_Name n ∈ seen)); [by intros []|]. destruct (decide (nd_Binary n = ""%string)); [by intros (_ & ? & _)|].
  intros (_ & Hf & H). destruct (IH _ _ H) as [H1 H2]. split; [done|]. intros ->. constructor; [|by apply H2].
  unfold check_file in Hf. by destruct (ef (nd_Binary n)).
Qed.

(** ** Properties *)

(** What [Load] makes of the decoded file. *)
Definition loaded (path : string) (raw : Config) : Config :=
  let c := resolve_paths (Dir (Clean path)) raw in c <| c_Faults := ApplyPreset (c_Faults c) |>.

(** C32: [Load] on every branch.  A configuration it returns is the decoded
    file with its paths resolved and its preset applied, and it is well-formed: a
    valid duration, and outside compose mode a test directory, distinct non-empty
    node names, binaries, and at least one node unless k3s is enabled; relative to
    an absolute directory all its paths are absolute.  Every error has its cause:
    no path, an unreadable file, a file that does not decode, or a configuration
    that is not well-formed. *)
Theorem Load_well_formed {data : Type} (readFile : string → option data) (unmarshal : data → option Config) (path : string) :
  match Load readFile unmarshal path with
  | Ok c =>
      ∃ bytes raw, readFile path = Some bytes ∧ unmarshal bytes = Some raw ∧ c = loaded path raw ∧
        WellFormed c ∧
        (IsAbs (Dir (Clean path)) = true → Forall (λ p, p = ""%string ∨ IsAbs p = true) (config_paths c))
  | Err ErrNoConfig => path = ""%string
  | Err ErrRead => readFile path = None
  | Err e =>
      ∃ bytes, readFile path = Some bytes ∧
        match unmarshal bytes with
        | None => e = ErrInvalidConfig ParseFailed
        | Some raw => ¬ WellFormed (loaded path raw) ∧ Validate (loaded path raw) = Some e
        end
  end.
Proof.
  unfold Load. destruct (decide (path = ""%string)); [done|]. destruct (readFile path) as [bytes|]; [|done].
  destruct (unmarshal bytes) as [raw|] eqn:Hr; [|by exists bytes; rewrite Hr].
  cbv zeta. change (resolve_paths _ raw <| c_Faults := _ |>) with (loaded path raw).
  destruct (Validate (loaded path raw)) as [e|] eqn:Hv.
  - assert (¬ WellFormed (loaded path raw)) by (rewrite <- Validate_spec; congruence).
    pose proof (Validate_error _ _ Hv) as He.
    destruct e; try (exists bytes; by rewrite Hr); naive_solver.
  - exists bytes, raw. split_and!; try done; [by apply Validate_spec|].
    intros Hb. apply (resolve_paths_spec (Dir (Clean path)) raw Hb).
Qed.

(** A full validation without problems implies that [Validate] accepts the
    configuration, and moreover that the strategy and the preset are known, the
    branch factor is at most 64, and the four rates it looks at are not outside
    [0,1]; when files are checked every binary exists.  The converse fails:
    [Validate], the only one [Load] calls, looks at no rate. *)
Theorem ValidateFull_sound (exists_file : string → bool) (checkFiles : bool) (c : Config)
    (Hok : ValidateFull exists_file checkFiles c = []) :
  Validate c = None ∧
  (ex_Strategy (c_Exploration c) = ""%string ∨ ex_Strategy (c_Exploration c) ∈ ValidateStrategies) ∧
  0 ≤ ex_BranchFactor (c_Exploration c) ≤ 64 ∧
  (fc_Preset (c_Faults c) = ""%string ∨ is_Some (presets (fc_Preset (c_Faults c)))) ∧
  Forall rate_ok [nw_DropRate (fc_Network (c_Faults c)); nw_CrashRate (fc_Network (c_Faults c));
    nf_HangRate (fc_Node (c_Faults c)); nf_TerminateRate (fc_Node (c_Faults c))] ∧
  (checkFiles = true → c_ComposeFile c = ""%string → Forall (λ n, exists_file (nd_Binary n) = true) (c_Nodes c)).
Proof.
  unfold ValidateFull in Hok.
  assert (common_problems exists_file checkFiles c = [] ∧ Validate c = None ∧
    (checkFiles = true → c_ComposeFile c = ""%string → Forall (λ n, exists_file (nd_Binary n) = true) (c_Nodes c)))
    as (He & Hv & Hf).
  { destruct (decide (c_ComposeFile c ≠ ""%string)) as [Hc|Hc].
    - apply app_nil_iff in Hok as [He _]. split_and!; [done| |done]. unfold common_problems in He.
      apply app_nil_iff in He as [Hd%check_duration_field_nil _]. apply Validate_spec. by split.
    - apply app_nil_iff in Hok as [He Hok]. unfold common_problems in He. rewrite !app_nil_iff in Hok.
      destruct Hok as (Hn & Ht & [Hcn Hfiles]%full_nodes_nil & _). split_and!; [done| |intros Hcf _; by apply Hfiles].
      apply app_nil_iff in He as [Hd%check_duration_field_nil _].
      destruct (Nat.eqb_spec (length (c_Nodes c)) 0) as [|Hl]; [done|].
      destruct (decide (c_TestDir c = ""%string)) as [|Htd]; [done|].
      apply check_nodes_spec in Hcn as [[_ Hnd] Hff]. apply Validate_spec. split; [done|]. intros _.
      split_and!; try done. left. by intros E; rewrite E in Hl. }
  unfold common_problems in He. rewrite !app_nil_iff in He. destruct He as (_ & Hs & Hb & Hp & H1 & H2 & H3 & H4 & _).
  apply checkRate_nil in H1, H2, H3, H4. split_and!; [done| | | | |by rewrite !Forall_cons, Forall_nil|done].
  - apply unlisted_nil in Hs as [Hs|Hs]; [left; by destruct (decide (ex_Strategy (c_Exploration c) = ""%string))|by right|done].
  - case_bool; [done|lia].
  - case_bool; [done|]. case_bool; [done|lia].
  - apply unlisted_nil in Hp as [Hp|Hp]; [left; by destruct (decide (fc_Preset (c_Faults c) = ""%string))|right|done].
    unfold validPresets in Hp. rewrite !elem_of_cons, elem_of_nil in Hp. destruct Hp as [->|[->|[->|[]]]]; by eexists.
Qed.

(** ** Witnesses and examples *)

Definition example_node (name : string) : Node :=
  mkNode name "/bin/etcd" [] ∅ ":2379" "" None "" fzero fzero.

Definition empty_exploration : Exploration := mkExploration "" 0 0 0 0 0 0 0 0 0 0 0 0 0 false 0 0 false.

Definition empty_faults : FaultConfig :=
  mkFaultConfig false ""
    (mkNetworkFaultCfg fzero "" "" fzero fzero fzero fzero 0 0 fzero 0 fzero 0)
    (mkNodeFaultCfg fzero "" "" fzero fzero "" fzero "" "" fzero 0 0 fzero 0 0 fzero 0 fzero "" fzero 0 0 fzero 0 0
       fzero "" [] 0 fzero 0 0) false false.

Definition empty_adaptation : Adaptation := mkAdaptation false 0 fzero 0 fzero fzero 0 0 false.

Definition example_config : Config :=
  mkConfig "p" "" [example_node "n1"; example_node "n2"] "/tests" "" "" "" 0 "" "" None
    (empty_exploration <| ex_Strategy := "bfs"%string |>) (empty_faults <| fc_Preset := "chaos"%string |>)
    empty_adaptation "30m" "" 0 (mkNotifyConfig "" [] false None).

Lemma ValidateFull_sound_witness :
  ValidateFull (λ _, true) true example_config = [] ∧ Validate example_config = None.
Proof.
  assert (ValidateFull (λ _, true) true example_config = []) as H by (vm_compute; reflexivity).
  split; [exact H|]. exact (proj1 (ValidateFull_sound (λ _, true) true example_config H)).
Defined.

(** A drop rate of five passes [Load]. *)
Example Load_accepts_rate :
  let raw := example_config <| c_Faults := empty_faults <| fc_Network :=
    fc_Network empty_faults <| nw_DropRate := float_of_Z 5 |> |> |> in
  match Load (λ _, Some raw) Some "/etc/t.json" with
  | Ok c => map ve_Field (ValidateFull (λ _, true) false c) = ["faults.network.drop_rate"]%string
  | Err _ => False
  end.
Proof. vm_compute. reflexivity. Qed.

(** A k3s configuration without nodes passes [Load] but not the full validation. *)
Example k3s_without_nodes :
  let c := example_config <| c_Nodes := [] |> <| c_K3s := Some (mkK3sConfig true "" "" "" "" [] []) |> in
  Validate c = None ∧ map ve_Field (ValidateFull (λ _, true) false c) = ["nodes"]%string.
Proof. split; vm_compute; reflexivity. Qed.
