(* ===== verification/Prng.v ===== *)
(** * The SplitMix64 generator ([internal/prng])

    [Source] is the generator's state; an operation takes the state and
    returns its result with the next state.  [Intn] is a rejection-sampling
    loop: the model runs it with explicit fuel, the theorems show how much
    fuel always suffices. *)
From S2P Require Import Prelude Word Float.
Local Open Scope Z_scope.

Record Source := mkSource { state : Z }.

#[global] Instance Source_eq_dec : EqDecision Source.
Proof. solve_decision. Defined.

Definition gamma : Z := 0x9e3779b97f4a7c15.

Definition New (seed : Z) : Source := mkSource seed.

(** The output function: two xorshift-multiply rounds and a final xorshift. *)
Definition mix (z : Z) : Z :=
  let z := mul64 (xor64 z (shr64 z 30)) 0xbf58476d1ce4e5b9 in
  let z := mul64 (xor64 z (shr64 z 27)) 0x94d049bb133111eb in
  xor64 z (shr64 z 31).

Definition Uint64 (s : Source) : Z * Source :=
  let st := add64 (state s) gamma in
  (mix st, mkSource st).

Definition Intn_threshold (bound : Z) : Z := u64 (- bound) mod bound.

(** The body of the [for] loop, with fuel; [None] when the fuel ran out. *)
Fixpoint Intn_loop (fuel : nat) (bound threshold : Z) (s : Source) : option (Z * Source) :=
  match fuel with
  | O => None
  | S fuel =>
      let '(v, s') := Uint64 s in
      if threshold <=? v then Some (v mod bound, s')
      else Intn_loop fuel bound threshold s'
  end.

(** The number of draws after which the loop has always stopped. *)
Definition Intn_fuel (n : Z) : nat := S (Z.to_nat (Intn_threshold n)).

(** [None] is the panic on [n <= 0] ([Intn_total] below: it is nothing else). *)
Definition Intn (n : Z) (s : Source) : option (Z * Source) :=
  if n <=? 0 then None
  else Intn_loop (Intn_fuel n) n (Intn_threshold n) s.

Definition Float64 (s : Source) : float64 * Source :=
  let '(v, s') := Uint64 s in
  (fdiv (float_of_Z (shr64 v 11)) (float_of_Z (2 ^ 53)), s').

Definition Bool (s : Source) : bool * Source :=
  let '(v, s') := Uint64 s in (Z.land v 1 =? 1, s').

(** [for i := n - 1; i > 0; i-- { j := s.Intn(i + 1); swap(i, j) }], the loop
    variable counted down structurally; [swap] acts on a slice of [n] elements. *)
Fixpoint Shuffle_loop {A} (i : nat) (l : list A) (s : Source) : option (list A * Source) :=
  match i with
  | O => Some (l, s)
  | S i' =>
      match Intn (Z.of_nat (S i)) s with
      | None => None
      | Some (j, s') => Shuffle_loop i' (swap i (Z.to_nat j) l) s'
      end
  end.

Definition Shuffle {A} (l : list A) (s : Source) : option (list A * Source) :=
  Shuffle_loop (pred (length l)) l s.

Definition Fork (s : Source) (salt : Z) : Source := New (xor64 (state s) salt).

Definition State (s : Source) : Z := state s.

Definition SetState (s : Source) (st : Z) : Source := mkSource st.

(** The state after [k] draws. *)
Definition advance (k : nat) (s : Source) : Source :=
  mkSource (add64 (state s) (Z.of_nat k * gamma)).

(** The [k]-th output from [s] on, counting from 0. *)
Definition draw (k : nat) (s : Source) : Z := mix (state (advance (S k) s)).

(** ** Lemmas *)

#[global] Arguments advance : simpl never.

Definition Source_ok (s : Source) : Prop := is_word 64 (state s).

Lemma mix_word z : is_word 64 z -> is_word 64 (mix z).
Proof.
  intros Hz. unfold mix. apply xor64_word; [apply mul64_word|].
  apply shr64_word; [lia|apply mul64_word].
Qed.

(** Different states give different outputs: each round of [mix] can be undone. *)
Lemma mix_inj x y : is_word 64 x -> is_word 64 y -> mix x = mix y -> x = y.
Proof.
  intros Hx Hy H. unfold mix in H.
  apply xorshift_inj in H; [|lia|apply mul64_word|apply mul64_word].
  apply (mul64_inj 0x94d049bb133111eb 0x319642b2d24d8ec3) in H; [|done| |];
    [|apply xor64_word; [|apply shr64_word]; (apply mul64_word || lia)..].
  apply xorshift_inj in H; [|lia|apply mul64_word|apply mul64_word].
  apply (mul64_inj 0xbf58476d1ce4e5b9 0x96de1b173f119089) in H; [|done| |];
    [|apply xor64_word; [|apply shr64_word]; (done || lia)..].
  apply xorshift_inj in H; done.
Qed.

Lemma Uint64_word s : is_word 64 (fst (Uint64 s)).
Proof. apply mix_word, add64_word. Qed.

Lemma advance_0 s : Source_ok s -> advance 0 s = s.
Proof.
  destruct s as [st]. unfold Source_ok, advance, add64; simpl. intros.
  rewrite Z.add_0_r, wrap_small; done.
Qed.

Lemma advance_ok k s : Source_ok (advance k s).
Proof. apply add64_word. Qed.

Lemma advance_advance j k s : advance j (advance k s) = advance (k + j) s.
Proof.
  unfold advance, add64; simpl. f_equal. rewrite wrap_add_l. f_equal. lia.
Qed.

Lemma Uint64_advance s : Uint64 s = (draw 0 s, advance 1 s).
Proof. done. Qed.

Lemma draw_word k s : is_word 64 (draw k s).
Proof. apply mix_word, advance_ok. Qed.

Lemma draw_advance j k s : draw j (advance k s) = draw (k + j) s.
Proof. unfold draw. by rewrite advance_advance, Nat.add_succ_r. Qed.


(** [gamma] is odd, so the first [2^64] states are pairwise different. *)
Lemma advance_inj j k s :
  Z.of_nat j < 2 ^ 64 -> Z.of_nat k < 2 ^ 64 -> advance j s = advance k s -> j = k.
Proof.
  intros Hj Hk [= H]. unfold add64 in H.
  assert (mul64 (Z.of_nat j) gamma = mul64 (Z.of_nat k) gamma) as Hm.
  { unfold mul64.
    replace (Z.of_nat j * gamma) with ((state s + Z.of_nat j * gamma) + (- state s)) by lia.
    replace (Z.of_nat k * gamma) with ((state s + Z.of_nat k * gamma) + (- state s)) by lia.
    rewrite <- wrap_add_l, H. by rewrite wrap_add_l. }
  apply (mul64_inj gamma 0xf1de83e19937733d) in Hm; [lia|done|split; lia..].
Qed.

Lemma Intn_loop_Some fuel b t s v s' :
  Source_ok s ->
  Intn_loop fuel b t s = Some (v, s') <->
  ∃ k, (k < fuel)%nat /\ s' = advance (S k) s /\
       v = draw k s mod b /\
       t <= draw k s /\
       ∀ j, (j < k)%nat -> draw j s < t.
Proof.
  revert s. induction fuel as [|fuel IH]; intros s Hs; simpl.
  { split; [done|]. intros (k & ? & _). lia. }
  change (mkSource (add64 (state s) gamma)) with (advance 1 s).
  change (mix (add64 (state s) gamma)) with (draw 0 s).
  destruct (Z.leb_spec t (draw 0 s)) as [Hle|Hlt].
  - split.
    + intros [= <- <-]. exists 0%nat. split_and!; try done; lia.
    + intros (k & Hk & -> & -> & Ht & Hj). destruct k as [|k]; [done|].
      specialize (Hj 0%nat ltac:(lia)). lia.
  - rewrite (IH _ (advance_ok _ _)). split.
    + intros (k & Hk & -> & -> & Ht & Hj). exists (S k).
      rewrite advance_advance, draw_advance in *. split_and!; try done; [lia|].
      intros [|j] Hjk; [done|]. specialize (Hj j ltac:(lia)). by rewrite draw_advance in Hj.
    + intros ([|k] & Hk & -> & -> & Ht & Hj); [lia|]. exists k.
      rewrite advance_advance, draw_advance. split_and!; try done; [lia|].
      intros j Hjk. rewrite draw_advance. apply (Hj (S j)). lia.
Qed.

Lemma Intn_threshold_bound n : 0 < n -> 0 <= Intn_threshold n < n.
Proof. intros. by apply Z.mod_pos_bound. Qed.

(** Among [threshold + 1] consecutive draws one is accepted: they are pairwise
    different and only [threshold] values are rejected. *)
Lemma Intn_accepts n s :
  0 < n < 2 ^ 63 -> Source_ok s ->
  ∃ k, (k < Intn_fuel n)%nat /\ Intn_threshold n <= draw k s.
Proof.
  intros Hn Hs. pose proof (Intn_threshold_bound n ltac:(lia)) as Ht.
  unfold Intn_fuel. set (t := Intn_threshold n) in *.
  destruct (decide (Forall (λ k, draw k s < t) (seq 0 (S (Z.to_nat t)))))
    as [Hall|Hex].
  - exfalso.
    assert (length (map (λ k, draw k s) (seq 0 (S (Z.to_nat t))))
            ≤ length (seqZ 0 t))%nat as Hlen.
    { apply NoDup_subset_length.
      - apply NoDup_fmap_2_strong; [|apply NoDup_seq].
        intros j k Hj%elem_of_seq Hk%elem_of_seq Hm.
        unfold draw in Hm. apply mix_inj in Hm; [|apply advance_ok..].
        assert (advance (S j) s = advance (S k) s) as Ha
          by (destruct (advance (S j) s), (advance (S k) s); simpl in *; congruence).
        apply advance_inj in Ha; lia.
      - intros x (k & -> & Hk)%list_elem_of_fmap. rewrite Forall_forall in Hall.
        specialize (Hall k Hk). apply elem_of_seqZ.
        pose proof (draw_word k s) as [? _]. lia. }
    rewrite length_map, length_seq, length_seqZ in Hlen. lia.
  - apply not_Forall_Exists in Hex; [|apply _].
    apply Exists_exists in Hex as (k & Hk%elem_of_seq & Hlt). exists k.
    simpl in Hlt. split; lia.
Qed.

Lemma Intn_unfold n s :
  0 < n < 2 ^ 63 -> Source_ok s ->
  ∃ k, (k < Intn_fuel n)%nat /\
    Intn n s = Some (draw k s mod n, advance (S k) s) /\
    Intn_threshold n <= draw k s /\
    ∀ j, (j < k)%nat -> draw j s < Intn_threshold n.
Proof.
  intros Hn Hs. destruct (Intn_accepts n s Hn Hs) as (k & Hk & Hacc).
  destruct (find_index (λ j, Intn_threshold n <=? draw j s)
             (seq 0 (Intn_fuel n))) as [i|] eqn:Hf.
  - apply find_index_Some in Hf as (x & Hx & Hle & Hmin).
    apply lookup_seq in Hx as [-> Hi]. change (0 + i)%nat with i in *. apply Z.leb_le in Hle.
    exists i. unfold Intn. rewrite (proj2 (Z.leb_gt _ _)) by lia.
    assert (∀ j, (j < i)%nat -> draw j s < Intn_threshold n) as Hmin'.
    { intros j Hj. apply Z.leb_gt. apply (Hmin j); [done|]. apply lookup_seq. lia. }
    split_and!; try done. apply Intn_loop_Some; [done|]. by exists i.
  - rewrite find_index_None in Hf. specialize (Hf k). 
    rewrite elem_of_seq in Hf. specialize (Hf ltac:(lia)). apply Z.leb_gt in Hf. lia.
Qed.

Lemma Intn_spec n s :
  0 < n < 2 ^ 63 -> Source_ok s ->
  ∃ v s', Intn n s = Some (v, s') /\ 0 <= v < n /\ Source_ok s'.
Proof.
  intros Hn Hs. destruct (Intn_unfold n s Hn Hs) as (k & _ & -> & _ & _).
  do 2 eexists. split_and!; [done|..|apply advance_ok]; apply Z.mod_pos_bound; lia.
Qed.

Lemma Intn_threshold_eq n : 0 < n < 2 ^ 64 -> Intn_threshold n = 2 ^ 64 mod n.
Proof.
  intros Hn. unfold Intn_threshold, wrap.
  rewrite <- (Z_mod_plus_full (- n) 1 (2 ^ 64)), (Z.mod_small (- n + 1 * 2 ^ 64)) by lia.
  replace (- n + 1 * 2 ^ 64) with (2 ^ 64 + (-1) * n) by lia. by rewrite Z_mod_plus_full.
Qed.

Lemma Float64_draw s :
  Source_ok s ->
  ∃ k, 0 <= k < 2 ^ 53 /\
    Float64 s = (fdiv (float_of_Z k) (float_of_Z (2 ^ 53)), advance 1 s).
Proof.
  intros Hs. unfold Float64. rewrite Uint64_advance. exists (shr64 (draw 0 s) 11).
  split; [|done]. pose proof (draw_word 0 s) as [H0 H1]. unfold shr64.
  rewrite Z.shiftr_div_pow2 by lia. split; [apply Z.div_pos; lia|].
  apply Z.div_lt_upper_bound; lia.
Qed.

Lemma unit_range k :
  0 <= k < 2 ^ 53 ->
  let r := fdiv (float_of_Z k) (float_of_Z (2 ^ 53)) in
  is_nan r = false /\ fle fzero r = true /\ flt r fone = true.
Proof.
  intros Hk r. destruct (decide (k = 0)) as [->|]; [by vm_compute|].
  destruct (leading_bit k 53) as (d & Hd & Hb); [lia|lia|].
  unfold r. rewrite (unit_float k d) by lia. split_and!; [done|done|].
  replace fone with (S754_finite false (Z.to_pos (2 ^ 52)) (-52)) by (by vm_compute).
  apply flt_lex; [done..|]. apply lex3_lt. simpl. right. split; [done|]. left. lia.
Qed.

Lemma Float64_range s :
  Source_ok s ->
  is_nan (fst (Float64 s)) = false /\ fle fzero (fst (Float64 s)) = true /\
  flt (fst (Float64 s)) fone = true /\ snd (Float64 s) = advance 1 s.
Proof.
  intros Hs. destruct (Float64_draw s Hs) as (k & Hk & ->).
  destruct (unit_range k Hk) as (? & ? & ?). done.
Qed.

(** [int(rng.Float64() * float64(n))] is an index below [n]. *)
Lemma Float64_scaled s n :
  Source_ok s -> 0 < n < 2 ^ 53 ->
  0 <= trunc (fmul (fst (Float64 s)) (float_of_Z n)) < n.
Proof.
  intros Hs Hn. destruct (Float64_draw s Hs) as (k & Hk & ->). by apply trunc_mul_unit.
Qed.

Lemma Shuffle_loop_spec {A} i (l : list A) s :
  Z.of_nat (S i) < 2 ^ 63 -> Source_ok s ->
  ∃ l' s', Shuffle_loop i l s = Some (l', s') /\ l' ≡ₚ l /\ Source_ok s'.
Proof.
  revert l s. induction i as [|i IH]; intros l s Hi Hs.
  { exists l, s. done. }
  cbn [Shuffle_loop].
  destruct (Intn_spec (Z.of_nat (S (S i))) s) as (v & s' & -> & Hv & Hs'); [lia|done|].
  destruct (IH (swap (S i) (Z.to_nat v) l) s') as (l' & s'' & -> & Hp & Hs''); [lia|done|].
  exists l', s''. split_and!; [done| |done]. by rewrite Hp, swap_Permutation.
Qed.

#[export] Hint Resolve advance_ok draw_word : ot.

(** ** Properties *)

(** [Intn] terminates.  For every [n] that fits an [int] and every
    generator state, the rejection loop accepts a draw within
    [threshold + 1] iterations, whatever larger fuel it is given, so [Intn]
    panics only on [n <= 0]; its value lies in [0, n). *)
Theorem Intn_terminates n s fuel :
  0 < n < 2 ^ 63 -> Source_ok s -> (Intn_fuel n <= fuel)%nat ->
  ∃ v s', Intn_loop fuel n (Intn_threshold n) s = Some (v, s') /\
          Intn n s = Some (v, s') /\ 0 <= v < n /\ Source_ok s'.
Proof.
  intros Hn Hs Hfuel. destruct (Intn_unfold n s Hn Hs) as (k & Hk & Heq & Hle & Hmin).
  do 2 eexists. split_and!; [|exact Heq|apply Z.mod_pos_bound; lia..|apply advance_ok].
  apply Intn_loop_Some; [done|]. exists k. split_and!; try done; lia.
Qed.

Lemma Intn_terminates_witness :
  ∃ v s', Intn_loop 100 10 (Intn_threshold 10) (New 42) = Some (v, s') /\
          Intn 10 (New 42) = Some (v, s') /\ 0 <= v < 10 /\ Source_ok s'.
Proof.
  apply (Intn_terminates 10 (New 42) 100); [lia|split; simpl; lia|].
  apply Nat.leb_le. vm_compute. reflexivity.
Defined.

(** [Intn] has no modulo bias.  The accepted outputs, those in
    [threshold, 2^64), split into [(2^64 - threshold) / n] full rounds: every
    residue [k] below [n] is hit exactly once in every round, so all residues
    are equally likely. *)
Theorem Intn_unbiased n k q :
  0 < n < 2 ^ 63 -> 0 <= k < n -> 0 <= q < (2 ^ 64 - Intn_threshold n) / n ->
  (n | 2 ^ 64 - Intn_threshold n) /\
  exists! v, Intn_threshold n <= v < 2 ^ 64 /\ v mod n = k /\ (v - Intn_threshold n) / n = q.
Proof.
  intros Hn Hk Hq. rewrite Intn_threshold_eq in * by lia.
  pose proof (Z.mod_pos_bound (2 ^ 64) n ltac:(lia)) as Ht.
  pose proof (Z.div_mod (2 ^ 64) n ltac:(lia)) as Hdm.
  set (t := 2 ^ 64 mod n) in *. set (Q := 2 ^ 64 / n) in *.
  assert (2 ^ 64 - t = Q * n) as HQ by lia. rewrite HQ in *.
  rewrite Z.div_mul in Hq by lia. split; [by exists Q|].
  exists (t + (q * n + (k - t) mod n)).
  pose proof (Z.mod_pos_bound (k - t) n ltac:(lia)) as Hm.
  split; [split_and!|].
  - lia.
  - nia.
  - replace (t + (q * n + (k - t) mod n)) with (t + (k - t) mod n + q * n) by lia.
    rewrite Z_mod_plus_full, Zplus_mod_idemp_r.
    replace (t + (k - t)) with k by lia. by apply Z.mod_small.
  - replace (t + (q * n + (k - t) mod n) - t) with ((k - t) mod n + q * n) by lia.
    rewrite Z.div_add, Z.div_small by lia. lia.
  - intros v (Hv & <- & <-).
    rewrite Zminus_mod_idemp_l. pose proof (Z.div_mod (v - t) n ltac:(lia)). lia.
Qed.

Lemma Intn_unbiased_witness :
  (10 | 2 ^ 64 - Intn_threshold 10) /\
  exists! v, Intn_threshold 10 <= v < 2 ^ 64 /\ v mod 10 = 3 /\ (v - Intn_threshold 10) / 10 = 7.
Proof. apply (Intn_unbiased 10 3 7); [lia|lia|]. vm_compute. split; [discriminate|reflexivity]. Defined.

(** [Shuffle] never panics and returns a permutation of its slice. *)
Theorem Shuffle_permutes {A} (l : list A) s :
  Z.of_nat (length l) < 2 ^ 63 -> Source_ok s ->
  ∃ l' s', Shuffle l s = Some (l', s') /\ l' ≡ₚ l /\ Source_ok s'.
Proof. intros Hl Hs. apply Shuffle_loop_spec; [lia|done]. Qed.

Lemma Shuffle_permutes_witness :
  ∃ l' s', Shuffle [1; 2; 3; 4] (New 7) = Some (l', s') /\ l' ≡ₚ [1; 2; 3; 4] /\ Source_ok s'.
Proof. apply (Shuffle_permutes [1; 2; 3; 4] (New 7)); [reflexivity|split; simpl; lia]. Defined.
