(* ===== verification/Ring.v ===== *)
(** * Ring buffers

    [buf[cursor % len] = v; cursor++], the idiom the saturation tracker and the
    explorer's marginal window share.  [ring_of] says what such a buffer holds
    after a list of writes. *)
From S2P Require Import Prelude.
Local Open Scope Z_scope.

(** [buf[cursor % window] = v], for a nonnegative cursor. *)
Definition ring_write (window cursor v : Z) (buf : list Z) : list Z :=
  <[Z.to_nat (Z.rem cursor window) := v]> buf.

(** The last [w] elements. *)
Definition last_n {A} (w : nat) (l : list A) : list A := drop (length l - w) l.

(** The buffer after the writes [ds], oldest first: every write that is not yet
    overwritten is in its slot, and the slots in use hold the last [w] writes in
    some order. *)
Record ring_of (w : nat) (ds buf : list Z) : Prop := {
  ring_length : length buf = w;
  ring_slot k v : ds !! k = Some v → (length ds ≤ k + w)%nat → buf !! (k mod w)%nat = Some v;
  ring_perm : take (length ds `min` w)%nat buf ≡ₚ last_n w ds }.

Lemma last_n_le {A} w (l : list A) : (length l ≤ w)%nat → last_n w l = l.
Proof. intros. unfold last_n. by replace (length l - w)%nat with 0%nat by lia. Qed.

Lemma last_n_snoc {A} w (l : list A) x y :
  (0 < w ≤ length l)%nat → l !! (length l - w)%nat = Some y → last_n w l ++ [x] = y :: last_n w (l ++ [x]).
Proof.
  intros Hw Hy. unfold last_n. rewrite length_app, Nat.add_1_r.
  replace (S (length l) - w)%nat with (S (length l - w)) by lia.
  rewrite drop_app_le by lia. rewrite (drop_S l y) by done. done.
Qed.

Lemma ring_new w v : (0 < w)%nat → ring_of w [] (replicate w v).
Proof. split; [by rewrite length_replicate|done|done]. Qed.

Lemma ring_step w ds buf v :
  (0 < w)%nat → ring_of w ds buf →
  ring_of w (ds ++ [v]) (ring_write (Z.of_nat w) (Z.of_nat (length ds)) v buf).
Proof.
  intros Hw [Hl Hs Hp]. unfold ring_write.
  replace (Z.to_nat (Z.rem (Z.of_nat (length ds)) (Z.of_nat w))) with (length ds mod w)%nat
    by (rewrite Z.rem_mod_nonneg by lia; rewrite <- Nat2Z.inj_mod; lia).
  pose proof (Nat.mod_upper_bound (length ds) w ltac:(lia)) as Hm.
  split; rewrite ?length_insert; [done| |].
  - intros k x Hk Hle. rewrite length_app in Hle. simpl in Hle.
    apply lookup_app_Some in Hk as [Hk|[Hk Hx]].
    + apply lookup_lt_Some in Hk as Hlt. rewrite list_lookup_insert_ne; [by apply Hs; [|lia]|].
      intros Heq. pose proof (Nat.div_mod_eq (length ds) w). pose proof (Nat.div_mod_eq k w).
      rewrite Heq in H. set (q1 := (length ds / w)%nat) in *. set (q2 := (k / w)%nat) in *.
      assert (q1 = q2 ∨ (q2 + 1 ≤ q1)%nat ∨ (q1 + 1 ≤ q2)%nat) as [->|[Hq|Hq]] by lia; nia.
    + destruct (k - length ds)%nat eqn:E; simplify_eq/=. replace k with (length ds) by lia.
      apply list_lookup_insert_eq. lia.
  - rewrite length_app. simpl. destruct (decide (length ds < w)%nat) as [Hlt|Hge].
    + rewrite Nat.mod_small by done. rewrite Nat.min_l by lia.
      rewrite last_n_le by (rewrite length_app; simpl; lia).
      rewrite Nat.min_l, last_n_le in Hp by lia. rewrite Nat.add_1_r.
      rewrite (take_S_r _ _ v) by (apply list_lookup_insert_eq; lia). by rewrite take_insert_ge, Hp by lia.
    + rewrite Nat.min_r in Hp |- * by lia. rewrite take_ge in Hp |- * by (rewrite ?length_insert; lia).
      destruct (lookup_lt_is_Some_2 ds (length ds - w)) as [y Hy]; [lia|].
      assert (buf !! (length ds mod w)%nat = Some y) as Hold.
      { rewrite <- (Hs _ _ Hy) by lia. f_equal. replace (length ds) with ((length ds - w) + 1 * w)%nat at 1 by lia.
        by rewrite Nat.Div0.mod_add. }
      apply (Permutation_cons_inv (a := y)). rewrite <- (last_n_snoc w ds v y) by (done || lia).
      rewrite <- Hp, <- Permutation_cons_append.
      rewrite <- (take_drop_middle buf _ _ Hold) at 2.
      rewrite insert_take_drop by lia. rewrite <- !Permutation_middle. apply perm_swap.
Qed.

Lemma count_if_Permutation {A} (p : A → bool) l1 l2 : l1 ≡ₚ l2 → count_if p l1 = count_if p l2.
Proof. induction 1; simpl; lia. Qed.
