(* ===== verification/Heap.v ===== *)
(** * Binary heaps (Go's [container/heap])

    The heap operations of the standard library that the frontier is built on,
    over a list for the backing slice.  [HeapElem] is what the package asks of
    its client through [heap.Interface]: the order [Less], and the bookkeeping
    its [Swap] does on an element that moves to a position ([place]).
    [HeapLaws] states what the client promises; the frontier discharges it. *)
From S2P Require Import Prelude.

Class HeapElem (A : Type) := {
  less : A → A → bool;
  place : Z → A → A }.

(** On the elements in [good], [less] is a strict weak order, and neither
    [less] nor [good] looks at the recorded position. *)
Class HeapLaws (A : Type) `{HeapElem A} (good : A → Prop) := {
  less_irrefl x : less x x = false;
  less_trans x y z : less x y = true → less y z = true → less x z = true;
  less_negtrans x y z : good x → good y → good z →
    less x z = true → less x y = true ∨ less y z = true;
  less_place_l i x y : less (place i x) y = less x y;
  less_place_r i x y : less x (place i y) = less x y;
  place_place i j x : place i (place j x) = place i x;
  good_place i x : good (place i x) ↔ good x }.

Section heap.
Context {A : Type} `{HeapElem A}.

Definition parent (i : nat) : nat := (i - 1) / 2.

(** [h.Less(i, j)] on positions; out of range the source would panic, which
    the bounds of every caller exclude. *)
Definition less_at (l : list A) (i j : nat) : bool :=
  match l !! i, l !! j with Some x, Some y => less x y | _, _ => false end.

(** [h.Swap(i, j)]. *)
Definition hswap (i j : nat) (l : list A) : list A :=
  match l !! i, l !! j with
  | Some x, Some y =>
      let l := <[i := place (Z.of_nat i) y]> l in
      <[j := place (Z.of_nat j) x]> l
  | _, _ => l
  end.

Fixpoint up (fuel : nat) (l : list A) (j : nat) : list A :=
  match fuel with
  | O => l
  | S fuel =>
      let i := parent j in
      if (i =? j)%nat || negb (less_at l j i) then l
      else up fuel (hswap i j l) i
  end.

(** The child that [down] compares with position [i]. *)
Definition best_child (l : list A) (i n : nat) : nat :=
  let j1 := 2 * i + 1 in
  let j2 := j1 + 1 in
  if (j2 <? n)%nat && less_at l j2 j1 then j2 else j1.

Fixpoint down (fuel : nat) (l : list A) (i n : nat) : list A :=
  match fuel with
  | O => l
  | S fuel =>
      if (n <=? 2 * i + 1)%nat then l
      else
        let j := best_child l i n in
        if negb (less_at l j i) then l
        else down fuel (hswap i j l) j n
  end.

(** [heap.Push]: the client appends with the new index, then [up]. *)
Definition hpush (x : A) (l : list A) : list A :=
  let n := length l in
  up (S n) (l ++ [place (Z.of_nat n) x]) n.

(** [heap.Pop]: swap the ends, [down], and the client removes the last. *)
Definition hpop (l : list A) : option (A * list A) :=
  match l with
  | [] => None
  | _ =>
      let n := length l - 1 in
      let l := down (S n) (hswap 0 n l) 0 n in
      match last l with
      | Some e => Some (place (-1) e, take n l)
      | None => None
      end
  end.

(** [for i := n/2 - 1; i >= 0; i-- { down(h, i, n) }], [i] counted down. *)
Fixpoint init_loop (i : nat) (l : list A) : list A :=
  match i with
  | O => l
  | S i => init_loop i (down (S (length l)) l i (length l))
  end.

Definition hinit (l : list A) : list A := init_loop (length l / 2) l.

(** [y] may stand below [x]. *)
Definition under (x y : A) : Prop := less y x = false.

Definition ok (l : list A) (p c : nat) : Prop :=
  ∀ x y, l !! p = Some x → l !! c = Some y → under x y.

(** Order between the parents from position [k] on and their children below
    position [n]. *)
Definition heap_from (k n : nat) (l : list A) : Prop :=
  ∀ c, (0 < c < n)%nat → (k ≤ parent c)%nat → ok l (parent c) c.

Definition heap (l : list A) : Prop := heap_from 0 (length l) l.

(** The recorded indices are right. *)
Definition indexed (l : list A) : Prop :=
  ∀ i x, l !! i = Some x → place (Z.of_nat i) x = x.

(** Contents up to recorded positions. *)
Definition contents (l : list A) : list A := place (-1) <$> l.

Context (good : A → Prop) `{!HeapLaws A good}.

Lemma parent_lt i : (0 < i → parent i < i)%nat.
Proof. unfold parent. intros. pose proof (Nat.div_lt (i - 1) 2). destruct (decide (i = 1)) as [->|]; [simpl; lia|]. lia. Qed.

Lemma parent_children i c : (0 < c)%nat → parent c = i ↔ c = (2 * i + 1)%nat ∨ c = (2 * i + 2)%nat.
Proof.
  unfold parent. intros Hc. pose proof (Nat.div_mod_eq (c - 1) 2).
  pose proof (Nat.mod_upper_bound (c - 1) 2). lia.
Qed.

Lemma less_asym x y : less x y = true → less y x = false.
Proof.
  intros Hxy. destruct (less y x) eqn:Hyx; [|done].
  pose proof (less_trans (good := good) _ _ _ Hxy Hyx). by rewrite (less_irrefl (good := good)) in *.
Qed.

Lemma under_trans x y z : good x → good y → good z → under x y → under y z → under x z.
Proof.
  unfold under. intros Hx Hy Hz Hxy Hyz. destruct (less z x) eqn:E; [|done].
  destruct (less_negtrans (good := good) z y x); try done; congruence.
Qed.

Lemma under_place_l i x y : under (place i x) y ↔ under x y.
Proof. unfold under. by rewrite (less_place_r (good := good)). Qed.

Lemma under_place_r i x y : under x (place i y) ↔ under x y.
Proof. unfold under. by rewrite (less_place_l (good := good)). Qed.

Lemma hswap_lookup i j l k x y :
  l !! i = Some x → l !! j = Some y → i ≠ j →
  hswap i j l !! k = if decide (k = i) then Some (place (Z.of_nat i) y)
                     else if decide (k = j) then Some (place (Z.of_nat j) x) else l !! k.
Proof.
  intros Hi Hj Hne. unfold hswap. rewrite Hi, Hj.
  apply lookup_lt_Some in Hi as Hil, Hj as Hjl.
  repeat case_decide; subst.
  - rewrite list_lookup_insert_ne by done. by apply list_lookup_insert_eq.
  - apply list_lookup_insert_eq. by rewrite length_insert.
  - by rewrite !list_lookup_insert_ne.
Qed.

Lemma hswap_length i j l : length (hswap i j l) = length l.
Proof. unfold hswap. destruct (l !! i), (l !! j); by rewrite ?length_insert. Qed.

Lemma hswap_contents i j l : contents (hswap i j l) ≡ₚ contents l.
Proof.
  unfold hswap, contents. destruct (l !! i) as [x|] eqn:Hi; [|done].
  destruct (l !! j) as [y|] eqn:Hj; [|done].
  rewrite !list_fmap_insert, !(place_place (good := good)).
  apply Permutation_insert_swap; by rewrite list_lookup_fmap, ?Hi, ?Hj.
Qed.

Lemma contents_good l l' : contents l ≡ₚ contents l' → Forall good l → Forall good l'.
Proof.
  assert (∀ l, Forall good l ↔ Forall good (contents l)) as E.
  { intros k. unfold contents. rewrite Forall_fmap. apply Forall_iff. intros x. simpl.
    symmetry. apply (good_place (good := good)). }
  rewrite (E l), (E l'). by intros ->.
Qed.

Lemma hswap_indexed i j l : indexed l → indexed (hswap i j l).
Proof.
  intros Hl k z. destruct (l !! i) as [x|] eqn:Hi; [|unfold hswap; rewrite Hi; apply Hl].
  destruct (l !! j) as [y|] eqn:Hj; [|unfold hswap; rewrite Hi, Hj; apply Hl].
  unfold hswap. rewrite Hi, Hj. rewrite !list_lookup_insert, !length_insert.
  repeat case_decide; try (by apply Hl); intros [= <-]; destruct_and?; subst;
    apply (place_place (good := good)).
Qed.

(** The values at two swapped positions, for order reasoning. *)
Lemma ok_hswap_other i j l p c :
  p ≠ i → p ≠ j → c ≠ i → c ≠ j → ok (hswap i j l) p c ↔ ok l p c.
Proof.
  intros Hpi Hpj Hci Hcj. unfold ok, hswap.
  destruct (l !! i) eqn:Hi; [|done]. destruct (l !! j) eqn:Hj; [|done].
  by rewrite !list_lookup_insert_ne by done.
Qed.

(** [up] has to repair the order only between [j] and its parent. *)
Definition almost_up (j : nat) (l : list A) : Prop :=
  (∀ c, (0 < c < length l)%nat → c ≠ j → ok l (parent c) c) ∧
  (∀ c, (0 < c < length l)%nat → parent c = j → (0 < j)%nat → ok l (parent j) c).

Lemma less_at_Some l i j : less_at l i j = true → ∃ x y, l !! i = Some x ∧ l !! j = Some y ∧ less x y = true.
Proof. unfold less_at. destruct (l !! i), (l !! j); naive_solver. Qed.

Lemma less_at_false l i j : less_at l j i = false → ok l i j.
Proof. unfold less_at, ok, under. intros Hl x y Hx Hy. by rewrite Hx, Hy in Hl. Qed.

Lemma ok_trans l a b c : Forall good l → is_Some (l !! b) → ok l a b → ok l b c → ok l a c.
Proof.
  intros Hg [y Hy] Hab Hbc x z Hx Hz. apply (under_trans x y z); [| | |by apply Hab|by apply Hbc];
    by eapply Forall_lookup_1.
Qed.

Lemma almost_up_swap l j x y :
  Forall good l → (0 < j)%nat → l !! j = Some x → l !! parent j = Some y → less x y = true →
  almost_up j l → almost_up (parent j) (hswap (parent j) j l).
Proof.
  intros Hg Hj Hx Hy Hlt [H1 H2]. pose proof (parent_lt j Hj) as Hpj.
  apply lookup_lt_Some in Hx as Hjl.
  assert (under x y) as Hxy by (by apply less_asym).
  assert (∀ k, hswap (parent j) j l !! k =
    if decide (k = parent j) then Some (place (Z.of_nat (parent j)) x)
    else if decide (k = j) then Some (place (Z.of_nat j) y) else l !! k) as Hlook
    by (intros k; apply hswap_lookup; [done|done|lia]).
  split; rewrite hswap_length.
  - intros c Hc Hne u v. rewrite !Hlook. rewrite (decide_False (P := c = parent j)) by done.
    destruct (decide (parent c = parent j)) as [Hpc|Hpc].
    + intros [= <-]. destruct (decide (c = j)) as [->|Hcj]; intros Hv.
      * simplify_eq. by apply under_place_l, under_place_r.
      * apply under_place_l. apply (under_trans x y v); [by eapply Forall_lookup_1..| |done|].
        { by eapply Forall_lookup_1. }
        apply (H1 c Hc Hcj); [by rewrite Hpc|done].
    + destruct (decide (parent c = j)) as [Hpcj|Hpcj].
      * intros [= <-]. destruct (decide (c = j)) as [->|Hcj]; [lia|]. intros Hv.
        apply under_place_l. by apply (H2 c Hc Hpcj Hj).
      * destruct (decide (c = j)) as [->|Hcj]; [done|]. by apply H1.
  - intros c Hc Hpc H0 u v. rewrite !Hlook.
    pose proof (parent_lt (parent j) H0) as Hpp.
    rewrite (decide_False (P := parent (parent j) = parent j)) by lia.
    rewrite (decide_False (P := parent (parent j) = j)) by lia.
    destruct (decide (c = parent j)) as [->|Hcp]; [pose proof (parent_lt (parent j) H0); lia|].
    assert (ok l (parent (parent j)) (parent j)) as Hpok by (apply H1; lia).
    destruct (decide (c = j)) as [->|Hcj].
    + intros Hu [= <-]. apply under_place_r. by apply Hpok.
    + intros Hu Hv. apply (under_trans u y v); [by eapply Forall_lookup_1..| |].
      * by apply Hpok.
      * apply (H1 c Hc Hcj); [by rewrite Hpc|done].
Qed.

Lemma up_spec fuel l j :
  (j < fuel)%nat → (j < length l)%nat → Forall good l → almost_up j l →
  heap (up fuel l j) ∧ contents (up fuel l j) ≡ₚ contents l ∧
  length (up fuel l j) = length l ∧ (indexed l → indexed (up fuel l j)).
Proof.
  revert l j. induction fuel as [|fuel IH]; intros l j Hf Hj Hg Hal; [lia|]. simpl.
  destruct (Nat.eqb_spec (parent j) j) as [Hpj|Hpj]; simpl.
  { split_and!; try done. intros c Hc _. apply Hal; [done|].
    intros ->. pose proof (parent_lt j). lia. }
  destruct (less_at l j (parent j)) eqn:Hlt; simpl.
  - assert (0 < j)%nat as H0 by (destruct j; [done|lia]).
    destruct (less_at_Some _ _ _ Hlt) as (x & y & Hx & Hy & Hxy).
    pose proof (parent_lt j H0).
    destruct (IH (hswap (parent j) j l) (parent j)) as (Hh & Hc & Hl & Hix).
    + lia.
    + rewrite hswap_length. lia.
    + by eapply contents_good; [symmetry; apply hswap_contents|].
    + by eapply almost_up_swap.
    + split_and!; [done|by rewrite Hc, hswap_contents|by rewrite Hl, hswap_length|].
      intros Hi. by apply Hix, hswap_indexed.
  - split_and!; try done. intros c Hc _. destruct (decide (c = j)) as [->|Hne]; [|by apply Hal].
    by apply less_at_false.
Qed.

(** ** [down] *)

(** [down] has to repair the order only between [i] and its children. *)
Definition almost_down (k i n : nat) (l : list A) : Prop :=
  (∀ c, (0 < c < n)%nat → (k ≤ parent c)%nat → parent c ≠ i → ok l (parent c) c) ∧
  (∀ c, (0 < c < n)%nat → parent c = i → (0 < i)%nat → (k ≤ parent i)%nat → ok l (parent i) c).

Lemma best_child_spec l i n :
  (2 * i + 1 < n)%nat → (n ≤ length l)%nat → Forall good l →
  let j := best_child l i n in
  (0 < j < n)%nat ∧ parent j = i ∧
  ∀ c, (0 < c < n)%nat → parent c = i → ok l j c.
Proof.
  intros Hn Hlen Hg j. unfold j, best_child.
  assert (∀ a, ok l a a) as Hself.
  { intros a x y Hx Hy. simplify_eq. apply (less_irrefl (good := good)). }
  destruct (Nat.ltb_spec (2 * i + 1 + 1) n) as [H2|H2]; cbn [andb].
  - destruct (less_at l (2 * i + 1 + 1) (2 * i + 1)) eqn:Hlt.
    + split; [lia|]. split; [apply parent_children; lia|].
      intros c Hc [->| ->]%parent_children; [|replace (2 * i + 1 + 1)%nat with (2 * i + 2)%nat by lia; apply Hself|lia].
      destruct (less_at_Some _ _ _ Hlt) as (x & y & Hx & Hy & Hxy).
      intros x' y' Hx' Hy'. simplify_eq. by apply less_asym.
    + split; [lia|]. split; [apply parent_children; lia|].
      intros c Hc [->| ->]%parent_children; [apply Hself| |lia].
      replace (2 * i + 2)%nat with (2 * i + 1 + 1)%nat by lia. by apply less_at_false.
  - split; [lia|]. split; [apply parent_children; lia|].
    intros c Hc [->| ->]%parent_children; [apply Hself|lia|lia].
Qed.

Lemma almost_down_swap l k i j n x y :
  Forall good l → (n ≤ length l)%nat → (k ≤ i)%nat → (0 < j < n)%nat → parent j = i →
  (∀ c, (0 < c < n)%nat → parent c = i → ok l j c) →
  l !! j = Some x → l !! i = Some y → less x y = true →
  almost_down k i n l → almost_down k j n (hswap i j l).
Proof.
  intros Hg Hlen Hki Hj Hpj Hbest Hx Hy Hlt [Ha1 Ha2].
  assert (i < j)%nat as Hij by (rewrite <- Hpj; apply parent_lt; lia).
  assert (under x y) as Hxy by (by apply less_asym).
  assert (∀ a, hswap i j l !! a = if decide (a = i) then Some (place (Z.of_nat i) x)
    else if decide (a = j) then Some (place (Z.of_nat j) y) else l !! a) as Hlook
    by (intros a; apply hswap_lookup; [done|done|lia]).
  split.
  - intros c Hc Hk Hne u v. rewrite !Hlook. rewrite (decide_False (P := parent c = j)) by done.
    destruct (decide (parent c = i)) as [Hpc|Hpc].
    + rewrite decide_False by (pose proof (parent_lt c); lia).
      intros [= <-]. destruct (decide (c = j)) as [->|Hcj].
      * intros [= <-]. by apply under_place_l, under_place_r.
      * intros Hv. apply under_place_l. by apply (Hbest c Hc Hpc).
    + destruct (decide (c = i)) as [->|Hci].
      * intros Hu [= <-]. apply under_place_r. apply (Ha2 j Hj Hpj ltac:(lia) Hk); done.
      * destruct (decide (c = j)) as [->|Hcj]; [done|]. by apply Ha1.
  - intros c Hc Hpc H0 Hk u v. rewrite Hpj, !Hlook. rewrite decide_True by done.
    pose proof (parent_lt c ltac:(lia)).
    rewrite !decide_False by lia. intros [= <-] Hv. apply under_place_l.
    assert (ok l (parent c) c) as Hok by (apply Ha1; lia). apply Hok; [by rewrite Hpc|done].
Qed.

Lemma down_spec fuel l k i n :
  (n ≤ fuel + i)%nat → (n ≤ length l)%nat → (k ≤ i)%nat → Forall good l → almost_down k i n l →
  heap_from k n (down fuel l i n) ∧ contents (down fuel l i n) ≡ₚ contents l ∧
  length (down fuel l i n) = length l ∧ (indexed l → indexed (down fuel l i n)) ∧
  ∀ a, (n ≤ a)%nat → down fuel l i n !! a = l !! a.
Proof.
  revert l i. induction fuel as [|fuel IH]; intros l i Hf Hn Hki Hg Hal.
  { simpl. split_and!; try done. intros c Hc Hk. apply Hal; [done|done|].
    pose proof (parent_lt c). lia. }
  simpl. destruct (Nat.leb_spec n (i + (i + 0) + 1)) as [Hle|Hgt].
  { split_and!; try done. intros c Hc Hk. apply Hal; [done|done|].
    intros Hpc%parent_children; lia. }
  destruct (best_child_spec l i n ltac:(lia) Hn Hg) as (Hj & Hpj & Hbest).
  set (j := best_child l i n) in *.
  destruct (less_at l j i) eqn:Hlt; simpl.
  - destruct (less_at_Some _ _ _ Hlt) as (x & y & Hx & Hy & Hxy).
    assert (i < j)%nat as Hij by (rewrite <- Hpj; apply parent_lt; lia).
    destruct (IH (hswap i j l) j) as (Hh & Hc & Hl & Hix & Hout).
    + lia.
    + by rewrite hswap_length.
    + lia.
    + by eapply contents_good; [symmetry; apply hswap_contents|].
    + by eapply almost_down_swap.
    + split_and!; [done|by rewrite Hc, hswap_contents|by rewrite Hl, hswap_length| |].
      * intros Hi. by apply Hix, hswap_indexed.
      * intros a Ha. rewrite Hout by done. rewrite (hswap_lookup _ _ _ _ y x) by (done || lia).
        by rewrite !decide_False by lia.
  - split_and!; try done. intros c Hc Hk. destruct (decide (parent c = i)) as [Hpc|Hpc]; [|by apply Hal].
    rewrite Hpc. intros u v Hu Hv. assert (is_Some (l !! j)) as [w Hw] by (apply lookup_lt_is_Some_2; lia).
    apply (ok_trans l i j c Hg ltac:(eauto)); [by apply less_at_false|by apply Hbest|done|done].
Qed.

(** ** The package's operations *)

Lemma heap_root l r i x :
  heap l → Forall good l → l !! 0%nat = Some r → l !! i = Some x → under r x.
Proof.
  intros Hh Hg Hr. revert x. induction (lt_wf i) as [i _ IH]; intros x Hx.
  destruct (decide (i = 0%nat)) as [->|H0].
  { simplify_eq. apply (less_irrefl (good := good)). }
  pose proof (parent_lt i ltac:(lia)) as Hp. apply lookup_lt_Some in Hx as Hi.
  destruct (lookup_lt_is_Some_2 l (parent i) ltac:(lia)) as [p Hpl].
  apply (under_trans r p x); [by eapply Forall_lookup_1..| |].
  - by apply (IH _ Hp).
  - apply (Hh i); [lia|lia|done|done].
Qed.

Lemma hpush_spec l x :
  heap l → Forall good l → good x →
  heap (hpush x l) ∧ contents (hpush x l) ≡ₚ place (-1) x :: contents l ∧
  Forall good (hpush x l) ∧ (indexed l → indexed (hpush x l)).
Proof.
  intros Hh Hg Hx. unfold hpush. set (l' := l ++ [place _ x]).
  assert (Forall good l') as Hg'.
  { apply Forall_app. split; [done|]. constructor; [|done]. by apply (good_place (good := good)). }
  destruct (up_spec (S (length l)) l' (length l)) as (Hheap & Hc & _ & Hix).
  - lia.
  - unfold l'. rewrite length_app. simpl. lia.
  - done.
  - split; unfold l'; rewrite length_app; simpl.
    + intros c Hc Hne. pose proof (parent_lt c ltac:(lia)). intros u v.
      rewrite !lookup_app_l by lia. apply Hh; lia.
    + intros c Hc Hpc. pose proof (parent_lt c ltac:(lia)). lia.
  - split_and!; [done| |by eapply contents_good|].
    + rewrite Hc. unfold l', contents. rewrite fmap_app. simpl.
      rewrite (place_place (good := good)). by rewrite Permutation_app_comm.
    + intros Hi. apply Hix. intros k z Hk. unfold l' in Hk.
      apply lookup_app_Some in Hk as [Hk|[Hk Hz]]; [by apply Hi|].
      destruct (k - length l)%nat eqn:E; [|done]. simpl in Hz. simplify_eq.
      replace k with (length l) by lia. apply (place_place (good := good)).
Qed.

Lemma hpop_spec l :
  heap l → Forall good l → l ≠ [] →
  ∃ e rest, hpop l = Some (e, rest) ∧ heap rest ∧ Forall good rest ∧ good e ∧
    contents l ≡ₚ e :: contents rest ∧ (∀ x, x ∈ rest → under e x) ∧
    (indexed l → indexed rest).
Proof.
  intros Hh Hg Hne. unfold hpop. destruct l as [|r0 l0] eqn:El; [done|]. rewrite <- El in *.
  clear Hne. set (n := (length l - 1)%nat).
  assert (length l = S n) as Hlen by (unfold n; rewrite El; simpl; lia).
  assert (l !! 0%nat = Some r0) as Hr by (by rewrite El).
  destruct (lookup_lt_is_Some_2 l n ltac:(lia)) as [y Hy].
  assert (hswap 0 n l !! n = Some (place (Z.of_nat n) r0)) as Hlast.
  { unfold hswap. rewrite Hr, Hy. apply list_lookup_insert_eq. rewrite length_insert. lia. }
  assert (Forall good (hswap 0 n l)) as Hg'
    by (by eapply contents_good; [symmetry; apply hswap_contents|]).
  destruct (down_spec (S n) (hswap 0 n l) 0 0 n) as (Hd & Hc & Hl & Hix & Hout).
  - lia.
  - rewrite hswap_length. lia.
  - lia.
  - done.
  - split; [|lia]. intros c Hcn _ Hp0. pose proof (parent_lt c ltac:(lia)).
    apply ok_hswap_other; [lia..|]. apply Hh; lia.
  - set (d := down _ _ _ _) in *. rewrite hswap_length in Hl.
    assert (d !! n = Some (place (Z.of_nat n) r0)) as Hdn by (by rewrite Hout).
    assert (d = take n d ++ [place (Z.of_nat n) r0]) as Hsplit.
    { rewrite <- (take_drop n d) at 1. f_equal. erewrite drop_S by done.
      by rewrite drop_ge by lia. }
    assert (contents l ≡ₚ place (-1) r0 :: contents (take n d)) as Hperm.
    { rewrite <- (hswap_contents 0 n l), <- Hc. rewrite Hsplit at 1. unfold contents.
      rewrite fmap_app. simpl. rewrite (place_place (good := good)). by rewrite Permutation_app_comm. }
    assert (Forall good d) as Hgd by (by eapply contents_good; [symmetry; apply Hc|]).
    rewrite last_lookup, Hl, Hlen. simpl. rewrite Hdn.
    exists (place (-1) (place (Z.of_nat n) r0)), (take n d). rewrite (place_place (good := good)).
    split_and!; [done| |by apply Forall_take| |done| |].
    + intros c Hcn _ u v. rewrite length_take in Hcn. pose proof (parent_lt c ltac:(lia)).
      rewrite !lookup_take_lt by lia. apply Hd; lia.
    + apply (good_place (good := good) (-1) r0). exact (Forall_lookup_1 _ _ _ _ Hg Hr).
    + intros x Hx. apply under_place_l.
      assert (place (-1) x ∈ contents l) as Hin.
      { rewrite Hperm. apply elem_of_cons. right. by apply list_elem_of_fmap_2. }
      apply list_elem_of_fmap in Hin as (x' & Hxx & [i Hi]%list_elem_of_lookup).
      apply (under_place_r (-1)). rewrite Hxx. apply under_place_r. by eapply heap_root.
    + intros Hi i x Hxi. apply (Hix (hswap_indexed _ _ _ Hi) i x).
      by apply lookup_take_Some in Hxi as [? _].
Qed.

Lemma init_loop_spec i l :
  (i ≤ length l)%nat → Forall good l → heap_from i (length l) l →
  heap (init_loop i l) ∧ contents (init_loop i l) ≡ₚ contents l ∧
  (indexed l → indexed (init_loop i l)).
Proof.
  revert l. induction i as [|i IH]; intros l Hi Hg Hh; [done|]. simpl.
  destruct (down_spec (S (length l)) l i i (length l)) as (Hd & Hc & Hl & Hix & _);
    [lia|lia|lia|done| |].
  { split; [|pose proof (parent_lt i); lia]. intros c Hcl Hk Hne. apply Hh; lia. }
  destruct (IH (down (S (length l)) l i (length l))) as (H1 & H2 & H3).
  - rewrite Hl. lia.
  - by eapply contents_good; [symmetry; apply Hc|].
  - by rewrite Hl.
  - split_and!; [done|by rewrite H2|]. intros ?. by apply H3, Hix.
Qed.

Lemma hinit_spec l :
  Forall good l →
  heap (hinit l) ∧ contents (hinit l) ≡ₚ contents l ∧ (indexed l → indexed (hinit l)).
Proof.
  intros Hg. apply init_loop_spec; [|done|].
  - pose proof (Nat.div_mod_eq (length l) 2). lia.
  - intros c Hc Hp. pose proof (Nat.div_mod_eq (length l) 2) as Hl.
    pose proof (Nat.mod_upper_bound (length l) 2).
    destruct (proj1 (parent_children (parent c) c ltac:(lia)) eq_refl); lia.
Qed.

(** The contents, whatever the elements: no order law is needed. *)
Lemma up_contents fuel l j : contents (up fuel l j) ≡ₚ contents l.
Proof.
  revert l j. induction fuel as [|fuel IH]; intros l j; [done|]. simpl.
  destruct (_ || _); [done|]. by rewrite IH, hswap_contents.
Qed.

Lemma down_contents fuel l i n : contents (down fuel l i n) ≡ₚ contents l.
Proof.
  revert l i. induction fuel as [|fuel IH]; intros l i; [done|]. simpl.
  destruct (_ <=? _)%nat; [done|]. destruct (negb _); [done|]. by rewrite IH, hswap_contents.
Qed.

Lemma hinit_contents l : contents (hinit l) ≡ₚ contents l.
Proof.
  unfold hinit. generalize (length l / 2)%nat. intros n. revert l. induction n as [|n IH]; intros l; [done|]. cbn [init_loop].
  rewrite IH. apply down_contents.
Qed.

Lemma hpush_contents x l : contents (hpush x l) ≡ₚ place (-1) x :: contents l.
Proof.
  unfold hpush. rewrite up_contents. unfold contents. rewrite fmap_app. simpl.
  rewrite (place_place (good := good)). by rewrite Permutation_app_comm.
Qed.

Lemma hpop_None l : hpop l = None → l = [].
Proof.
  unfold hpop. destruct l as [|x l]; [done|]. set (d := down _ _ _ _). intros Hl.
  destruct (last d) eqn:E; [done|]. apply last_None in E.
  assert (length (contents d) = length (contents (x :: l))) as Hlen.
  { apply Permutation_length. unfold d. by rewrite down_contents, hswap_contents. }
  rewrite E in Hlen. done.
Qed.

Lemma hpop_contents l e rest : hpop l = Some (e, rest) → contents l ≡ₚ e :: contents rest.
Proof.
  unfold hpop. destruct l as [|x l]; [done|]. set (n := (length (x :: l) - 1)%nat). set (d := down _ _ _ _).
  assert (contents d ≡ₚ contents (x :: l)) as Hp by (unfold d; by rewrite down_contents, hswap_contents).
  destruct (last d) as [y|] eqn:Hy; [|done]. intros [= <- <-].
  apply last_Some in Hy as [d' Hd]. rewrite <- Hp, Hd. unfold contents.
  assert (n = length d') as ->.
  { apply Permutation_length in Hp. rewrite Hd in Hp. unfold contents in Hp.
    rewrite !length_fmap, length_app in Hp. unfold n. simpl in *. lia. }
  rewrite take_app_length, fmap_app. simpl. by rewrite Permutation_app_comm.
Qed.

End heap.

#[global] Arguments heap {A _} l : simpl never.
