(* ===== verification/SnapshotTree.v ===== *)
(** * The snapshot tree ([internal/snapshot])

    [Tree] is the struct of [tree.go] without its mutex: every method locks it
    for its whole body, so a concurrent execution is a sequence of the
    operations below.  The map of pointers is a map of values: no method
    returns before the objects it changed are back in the map, and [Children],
    [History] return copies.  [Snapshot]'s [DataPath], [Tags] and [CreatedAt]
    are left out, no method of the package reads or writes them.

    Walks along parent links are loops without a bound in the source; they run
    here on fuel, one unit more than the number of nodes, and return [None]
    when it is used up.  On well-formed trees they never are ([walk_total]). *)
From S2P Require Import Prelude Word.
Local Open Scope Z_scope.

Definition RootID : Z := 0.

Record NodeInfo := mkNodeInfo {
  n_ID : Z; n_ParentID : Z; n_Depth : Z; n_TimeNS : Z; n_Coverage : Z;
  n_ICount : Z; n_Faults : Z; n_FaultKindMask : Z }.

Record Snapshot := mkSnapshot {
  s_ID : Z; s_ParentID : Z; s_HypervisorID : Z; s_Children : list Z; s_TimeNS : Z;
  s_Depth : Z; s_Coverage : Z; s_RNGState : Z; s_ICount : Z; s_Faults : Z;
  s_FaultKindMask : Z }.

Record Tree := mkTree {
  snapshots : gmap Z Snapshot; current : Z; nextID : Z; history : list NodeInfo }.

(** The errors of the package, [ErrInvalidParent] and [ErrNotFound] with the
    identifier the message carries. *)
Inductive Error :=
| ErrInvalidParent (id : Z)
| ErrNotFound (id : Z).

(** The violations [Validate] reports, in the order of its checks. *)
Inductive ValidateError :=
| RootCount (roots : Z)
| CurrentNotFound (id : Z)
| MissingParent (id parent : Z)
| DepthNotGreater (id parent : Z)
| NotInChildren (id parent : Z)
| NonexistentChild (id child : Z)
| WrongParent (id child : Z).

Definition set_children (s : Snapshot) (cs : list Z) : Snapshot :=
  mkSnapshot (s_ID s) (s_ParentID s) (s_HypervisorID s) cs (s_TimeNS s) (s_Depth s)
    (s_Coverage s) (s_RNGState s) (s_ICount s) (s_Faults s) (s_FaultKindMask s).

Definition root_snapshot : Snapshot := mkSnapshot RootID RootID 0 [] 0 0 0 0 0 0 0.

Definition NewTree : Tree :=
  mkTree {[RootID := root_snapshot]} RootID 1
    [mkNodeInfo RootID RootID 0 0 0 0 0 0].

Definition node_info (s : Snapshot) : NodeInfo :=
  mkNodeInfo (s_ID s) (s_ParentID s) (s_Depth s) (s_TimeNS s) (s_Coverage s)
    (s_ICount s) (s_Faults s) (s_FaultKindMask s).

Definition Create (t : Tree) (parentID hypervisorID timeNS coverage rngState faults
    faultKindMask : Z) : result Error Z * Tree :=
  match snapshots t !! parentID with
  | None => (Err (ErrInvalidParent parentID), t)
  | Some parent =>
      let id := nextID t in
      let snap := mkSnapshot id parentID hypervisorID [] timeNS (u32 (s_Depth parent + 1))
                    coverage rngState (timeNS / 128) faults faultKindMask in
      (Ok id,
       mkTree
         (<[id := snap]>
            (<[parentID := set_children parent (s_Children parent ++ [id])]> (snapshots t)))
         (current t) (add64 id 1)
         (history t ++ [node_info snap]))
  end.

Definition Get (t : Tree) (id : Z) : result Error Snapshot :=
  match snapshots t !! id with
  | None => Err (ErrNotFound id)
  | Some s => Ok s
  end.

Definition Current (t : Tree) : Z := current t.

Definition SetCurrent (t : Tree) (id : Z) : result Error unit * Tree :=
  match snapshots t !! id with
  | None => (Err (ErrNotFound id), t)
  | Some _ => (Ok tt, mkTree (snapshots t) id (nextID t) (history t))
  end.

Definition Root (t : Tree) : Z := RootID.

(** The snapshots from [current] up to the root, or to the first identifier
    that is not in the map; the backwards walk of [PathHash]. *)
Fixpoint chain (fuel : nat) (m : gmap Z Snapshot) (cur : Z) : option (list Snapshot) :=
  match fuel with
  | O => None
  | S fuel =>
      match m !! cur with
      | None => Some []
      | Some snap =>
          if cur =? RootID then Some [snap]
          else (λ c, snap :: c) <$> chain fuel m (s_ParentID snap)
      end
  end.

Definition hash_mix (h : Z) (s : Snapshot) : Z :=
  let h := xor64 h (xor64 (mul64 (s_Depth s) 0x9E3779B97F4A7C15) (s_RNGState s)) in
  add64 (mul64 h 6364136223846793005) 1442695040888963407.

Definition walk_fuel (t : Tree) : nat := S (size (snapshots t)).

Definition PathHash (t : Tree) (id seed : Z) : option Z :=
  (λ c, fold_left hash_mix (reverse c) seed) <$> chain (walk_fuel t) (snapshots t) id.

(** [PathToRoot]'s loop appends the identifier before it looks it up. *)
Fixpoint path_loop (fuel : nat) (m : gmap Z Snapshot) (cur : Z) : option (list Z) :=
  match fuel with
  | O => None
  | S fuel =>
      match m !! cur with
      | None => Some [cur]
      | Some snap =>
          if cur =? RootID then Some [cur]
          else if s_ParentID snap =? cur then Some [cur]
          else (λ p, cur :: p) <$> path_loop fuel m (s_ParentID snap)
      end
  end.

Definition PathToRoot (t : Tree) (id : Z) : option (list Z) :=
  reverse <$> path_loop (walk_fuel t) (snapshots t) id.

Definition Children (t : Tree) (id : Z) : result Error (list Z) :=
  match snapshots t !! id with
  | None => Err (ErrNotFound id)
  | Some s => Ok (s_Children s)
  end.

Fixpoint ancestors_loop (fuel : nat) (m : gmap Z Snapshot) (cur : Z) : option (list Z) :=
  match fuel with
  | O => None
  | S fuel =>
      match m !! cur with
      | None => Some []
      | Some snap =>
          if cur =? RootID then Some [cur]
          else (λ p, cur :: p) <$> ancestors_loop fuel m (s_ParentID snap)
      end
  end.

Definition Ancestors (t : Tree) (id : Z) : option (list Z) :=
  reverse <$> ancestors_loop (walk_fuel t) (snapshots t) id.

Definition Depth (t : Tree) (id : Z) : Z :=
  match snapshots t !! id with None => 0 | Some s => s_Depth s end.

Definition Len (t : Tree) : Z := Z.of_nat (size (snapshots t)).

Definition HypervisorID (t : Tree) (id : Z) : result Error Z :=
  match snapshots t !! id with
  | None => Err (ErrNotFound id)
  | Some s => Ok (s_HypervisorID s)
  end.

(** [for !keep[cur] { keep[cur] = true; ... }]: marks [cur] and its ancestors
    up to the first one that is marked already. *)
Fixpoint mark (fuel : nat) (m : gmap Z Snapshot) (keep : gset Z) (cur : Z) : option (gset Z) :=
  match fuel with
  | O => None
  | S fuel =>
      if decide (cur ∈ keep) then Some keep
      else
        let keep := {[cur]} ∪ keep in
        match m !! cur with
        | None => Some keep
        | Some snap =>
            if cur =? RootID then Some keep
            else mark fuel m keep (s_ParentID snap)
        end
  end.

Definition mark_fuel (m : gmap Z Snapshot) : nat := S (S (size m)).

Definition mark_all (m : gmap Z Snapshot) (ids : list Z) : option (gset Z) :=
  foldl (λ k id, keep ← k; mark (mark_fuel m) m keep id) (Some {[RootID]}) ids.

(** Removes node [id] from the map and from its parent's list of children. *)
Definition remove_node (m : gmap Z Snapshot) (id : Z) : gmap Z Snapshot :=
  match m !! id with
  | None => m
  | Some snap =>
      delete id
        match m !! s_ParentID snap with
        | Some parent =>
            <[s_ParentID snap := set_children parent (remove_first id (s_Children parent))]> m
        | None => m
        end
  end.

Definition hyp_of (m : gmap Z Snapshot) (id : Z) : Z :=
  match m !! id with None => 0 | Some s => s_HypervisorID s end.

Definition reset_current (m : gmap Z Snapshot) (cur : Z) : Z :=
  match m !! cur with None => RootID | Some _ => cur end.

(** The nodes outside [keep], oldest first, the root excepted. *)
Definition prunable (m : gmap Z Snapshot) (keep : gset Z) : list Z :=
  filter (λ id, id ≠ RootID ∧ id ∉ keep) (sorted_keys (dom m)).

Definition Prune (t : Tree) (frontierIDs : list Z) : option (list Z * Tree) :=
  keep ← mark_all (snapshots t) frontierIDs;
  let pruned := prunable (snapshots t) keep in
  let m := foldl remove_node (snapshots t) pruned in
  Some (map (hyp_of (snapshots t)) pruned,
        mkTree m (reset_current m (current t)) (nextID t) (history t)).

Definition PruneOldestExcept (t : Tree) (currentID maxSize : Z) : option (list Z * Tree) :=
  if Len t <=? maxSize then Some ([], t)
  else
    protected ← mark (mark_fuel (snapshots t)) (snapshots t) {[RootID]} currentID;
    let candidates := prunable (snapshots t) protected in
    let toEvict := Z.min (Len t - maxSize) (Z.of_nat (length candidates)) in
    let evicted := take (Z.to_nat toEvict) candidates in
    let m := foldl remove_node (snapshots t) evicted in
    Some (map (hyp_of (snapshots t)) evicted,
          mkTree m (reset_current m (current t)) (nextID t) (history t)).

(** The first error of a list of checks. *)
Fixpoint first_error {A E} (f : A → option E) (l : list A) : option E :=
  match l with
  | [] => None
  | x :: l => match f x with Some e => Some e | None => first_error f l end
  end.

(** The three checks of one non-root node against its parent. *)
Definition check_parent (m : gmap Z Snapshot) (id : Z) : option ValidateError :=
  if id =? RootID then None
  else match m !! id with
  | None => None
  | Some snap =>
      match m !! s_ParentID snap with
      | None => Some (MissingParent id (s_ParentID snap))
      | Some parent =>
          if s_Depth snap <=? s_Depth parent then Some (DepthNotGreater id (s_ParentID snap))
          else if existsb (Z.eqb id) (s_Children parent) then None
          else Some (NotInChildren id (s_ParentID snap))
      end
  end.

Definition check_child (m : gmap Z Snapshot) (id child : Z) : option ValidateError :=
  match m !! child with
  | None => Some (NonexistentChild id child)
  | Some c => if s_ParentID c =? id then None else Some (WrongParent id child)
  end.

Definition check_children (m : gmap Z Snapshot) (id : Z) : option ValidateError :=
  match m !! id with
  | None => None
  | Some snap => first_error (check_child m id) (s_Children snap)
  end.

(** [None] is Go's nil error. *)
Definition Validate (t : Tree) : option ValidateError :=
  let m := snapshots t in
  let roots := Z.of_nat (count_if (λ p, s_ID p.2 =? RootID) (map_to_list m)) in
  if negb (roots =? 1) then Some (RootCount roots)
  else match m !! current t with
  | None => Some (CurrentNotFound (current t))
  | Some _ =>
      let ids := sorted_keys (dom m) in
      match first_error (check_parent m) ids with
      | Some e => Some e
      | None => first_error (check_children m) ids
      end
  end.

Definition History (t : Tree) : list NodeInfo := history t.

Definition IsChildOf (t : Tree) (candidate parentID : Z) : bool :=
  match snapshots t !! candidate with
  | None => false
  | Some snap => s_ParentID snap =? parentID
  end.

(** ** Persistence ([persist.go])

    [SaveTree] writes [tree_state t] as JSON, [LoadTree] rebuilds a tree from
    the record it reads back.  The file and JSON layers are the standard
    library's: the record is a struct of unsigned integers, which
    [encoding/json] writes and reads exactly. *)
Record treeState := mkTreeState { st_NextID : Z; st_Current : Z; st_History : list NodeInfo }.

Definition SaveTree (t : Tree) : treeState := mkTreeState (nextID t) (current t) (history t).

Definition load_node (m : gmap Z Snapshot) (n : NodeInfo) : gmap Z Snapshot :=
  if n_ID n =? RootID then
    alter (λ r, mkSnapshot (s_ID r) (s_ParentID r) (s_HypervisorID r) (s_Children r)
                  (n_TimeNS n) (s_Depth r) (n_Coverage n) (s_RNGState r) (n_ICount n)
                  (n_Faults n) (s_FaultKindMask r)) RootID m
  else
    <[n_ID n := mkSnapshot (n_ID n) (n_ParentID n) 0 [] (n_TimeNS n) (n_Depth n)
                  (n_Coverage n) 0 (n_ICount n) (n_Faults n) 0]> m.

Definition link_child (m : gmap Z Snapshot) (id : Z) : gmap Z Snapshot :=
  if id =? RootID then m
  else match m !! id with
  | None => m
  | Some snap =>
      match m !! s_ParentID snap with
      | None => m
      | Some parent =>
          <[s_ParentID snap := set_children parent (s_Children parent ++ [id])]> m
      end
  end.

Definition LoadTree (st : treeState) : Tree :=
  let snaps := foldl load_node {[RootID := root_snapshot]} (st_History st) in
  let linked := foldl link_child snaps (sorted_keys (dom snaps)) in
  mkTree linked (reset_current linked (st_Current st)) (st_NextID st) (st_History st).
