(* ===== verification/SnapshotTreeInv.v ===== *)
(** * The snapshot tree: invariant, pruning, validation

    The well-formedness invariant of the tree, that every operation the
    explorer uses keeps it, what pruning removes exactly, and that [Validate]
    decides the invariants the package documents. *)
From S2P Require Import Prelude Word SnapshotTree.
Local Open Scope Z_scope.

(** [x] is [y] or an ancestor of [y]. *)
Inductive ancestor (m : gmap Z Snapshot) (x : Z) : Z → Prop :=
| ancestor_refl : ancestor m x x
| ancestor_step y s :
    m !! y = Some s → y ≠ RootID → ancestor m x (s_ParentID s) → ancestor m x y.

(** What one node of a well-formed map satisfies.  [Depth <= id] is what keeps
    the 32-bit depth from wrapping. *)
Record wf_node (m : gmap Z Snapshot) (id : Z) (s : Snapshot) : Prop := mkWfNode {
  wn_id : s_ID s = id;
  wn_depth : 0 <= s_Depth s <= id;
  wn_parent : id ≠ RootID → s_ParentID s < id ∧ ∃ p, m !! s_ParentID s = Some p ∧
                s_Depth s = s_Depth p + 1 ∧ id ∈ s_Children p;
  wn_children : ∀ c, c ∈ s_Children s →
                ∃ cs, m !! c = Some cs ∧ s_ParentID cs = id ∧ c ≠ RootID;
  wn_nodup : NoDup (s_Children s) }.

Record wf_map (m : gmap Z Snapshot) : Prop := mkWfMap {
  wm_root : ∃ r, m !! RootID = Some r ∧ s_ParentID r = RootID ∧ s_Depth r = 0;
  wm_node : ∀ id s, m !! id = Some s → wf_node m id s }.

Record wf (t : Tree) : Prop := mkWf {
  wf_tree : wf_map (snapshots t);
  wf_current : is_Some (snapshots t !! current t);
  wf_next : 1 <= nextID t ∧ ∀ id s, snapshots t !! id = Some s → id < nextID t }.

(** Links from parents to children are sound; weaker than [wf_map], and kept
    even while a pruning loop has removed only some of its nodes. *)
Definition linked (m : gmap Z Snapshot) : Prop :=
  ∀ id s, m !! id = Some s →
    NoDup (s_Children s) ∧
    ∀ c, c ∈ s_Children s → ∃ cs, m !! c = Some cs ∧ s_ParentID cs = id.

(** The invariants of the doc comment of [Tree], word for word: what
    [Validate] checks. *)
Record valid (t : Tree) : Prop := mkValid {
  v_root : ∃ k s, snapshots t !! k = Some s ∧ s_ID s = RootID ∧
             ∀ k' s', snapshots t !! k' = Some s' → s_ID s' = RootID → k' = k;
  v_current : is_Some (snapshots t !! current t);
  v_parent : ∀ id s, id ≠ RootID → snapshots t !! id = Some s →
    ∃ p, snapshots t !! s_ParentID s = Some p ∧ s_Depth p < s_Depth s ∧ id ∈ s_Children p;
  v_children : ∀ id s c, snapshots t !! id = Some s → c ∈ s_Children s →
    ∃ cs, snapshots t !! c = Some cs ∧ s_ParentID cs = id }.

(** [s] with the children of [L] taken off its list. *)
Definition restrict (L : list Z) (s : Snapshot) : Snapshot :=
  set_children s (filter (λ c, c ∉ L) (s_Children s)).

(** The parent of every marked node but the root is marked, or is [cur]. *)
Definition closed_but (m : gmap Z Snapshot) (cur : option Z) (keep : gset Z) : Prop :=
  RootID ∈ keep ∧
  ∀ x s, x ∈ keep → x ≠ RootID → m !! x = Some s →
    s_ParentID s ∈ keep ∨ cur = Some (s_ParentID s).

(** The number of nodes at or below identifier [cur]: what a walk along parent
    links decreases. *)
Definition below (m : gmap Z Snapshot) (cur : Z) : nat :=
  size (filter (λ x, x <= cur) (dom m)).

(** The operations of the exploration loop as a step relation; the first index
    counts the [Create] calls. *)
Inductive step : nat → Tree → Tree → Prop :=
| step_Create t p h tm cov rng f mask :
    step 1 t (Create t p h tm cov rng f mask).2
| step_SetCurrent t id : step 0 t (SetCurrent t id).2
| step_Prune t ids deleted t' : Prune t ids = Some (deleted, t') → step 0 t t'.

Inductive reachable : nat → Tree → Prop :=
| reach_New : reachable 0 NewTree
| reach_step n k t t' : reachable n t → step k t t' → reachable (n + k) t'.

(** ** Restriction and removal *)

Lemma set_children_eta s : set_children s (s_Children s) = s.
Proof. by destruct s. Qed.

Lemma restrict_nil s : restrict [] s = s.
Proof.
  unfold restrict. rewrite filter_all_in; [apply set_children_eta|].
  intros c _. apply not_elem_of_nil.
Qed.

Lemma restrict_restrict L1 L2 s : restrict L2 (restrict L1 s) = restrict (L1 ++ L2) s.
Proof.
  unfold restrict, set_children; simpl. f_equal. rewrite filter_filter.
  apply filter_ext_in. intros c _. rewrite elem_of_app. tauto.
Qed.

Lemma remove_first_filter x l : NoDup l → remove_first x l = filter (λ c, c ∉ [x]) l.
Proof.
  induction 1 as [|y l Hy Hl IH]; [done|]. simpl remove_first.
  rewrite filter_cons. case (Z.eqb_spec y x); intros Hyx.
  - subst. rewrite decide_False by (intros H; apply H; by left).
    symmetry. apply filter_all_in. by intros c Hc ->%list_elem_of_singleton.
  - rewrite decide_True by (by rewrite list_elem_of_singleton). by rewrite IH.
Qed.

Lemma linked_no_child m id s j :
  linked m → m !! id = None → m !! j = Some s → id ∉ s_Children s.
Proof. intros Hl Hid Hj Hc. destruct (Hl _ _ Hj) as [_ H]. destruct (H _ Hc) as (? & ? & _). congruence. Qed.

Lemma restrict_not_in L s : (∀ c, c ∈ L → c ∉ s_Children s) → restrict L s = s.
Proof.
  intros H. unfold restrict. rewrite filter_all_in; [apply set_children_eta|].
  intros c Hc HcL. by apply (H c).
Qed.

Lemma remove_node_lookup m id j :
  linked m →
  remove_node m id !! j = if decide (j = id) then None else restrict [id] <$> m !! j.
Proof.
  intros Hl. unfold remove_node. destruct (m !! id) as [s|] eqn:Hid; last first.
  { case_decide as Hj; [by subst|]. destruct (m !! j) as [sj|] eqn:Hmj; [|done].
    simpl. rewrite restrict_not_in; [done|].
    intros c ->%list_elem_of_singleton. by eapply linked_no_child. }
  case_decide as Hj; [subst; apply lookup_delete_eq|].
  rewrite lookup_delete_ne by done.
  destruct (decide (j = s_ParentID s)) as [->|Hjp].
  - destruct (m !! s_ParentID s) as [p|] eqn:Hp; [|by rewrite Hp].
    rewrite lookup_insert_eq. simpl. f_equal. unfold restrict. f_equal.
    apply remove_first_filter. by apply (Hl _ _ Hp).
  - assert ((match m !! s_ParentID s with
             | Some parent => <[s_ParentID s := set_children parent (remove_first id (s_Children parent))]> m
             | None => m end) !! j = m !! j) as ->.
    { destruct (m !! s_ParentID s); [by rewrite lookup_insert_ne|done]. }
    destruct (m !! j) as [sj|] eqn:Hmj; [|done]. simpl. rewrite restrict_not_in; [done|].
    intros c ->%list_elem_of_singleton Hc. destruct (Hl _ _ Hmj) as [_ H].
    destruct (H _ Hc) as (cs & Hcs & Hpar). simplify_eq.
Qed.

Lemma remove_node_linked m id : linked m → linked (remove_node m id).
Proof.
  intros Hl j sj. rewrite remove_node_lookup by done. case_decide as Hj; [done|].
  intros (s & Hs & ->)%fmap_Some. destruct (Hl _ _ Hs) as [Hnd Hch]. split.
  - simpl. by apply NoDup_filter.
  - simpl. intros c [Hcid Hc]%list_elem_of_filter.
    destruct (Hch _ Hc) as (cs & Hcs & Hp). exists (restrict [id] cs).
    rewrite remove_node_lookup by done. rewrite decide_False by (intros ->; apply Hcid; by left).
    by rewrite Hcs.
Qed.

Lemma foldl_remove_lookup L m j :
  linked m →
  foldl remove_node m L !! j = if decide (j ∈ L) then None else restrict L <$> m !! j.
Proof.
  revert m. induction L as [|id L IH]; intros m Hl; simpl.
  { destruct (m !! j); simpl; [by rewrite restrict_nil|done]. }
  rewrite IH by (by apply remove_node_linked). rewrite remove_node_lookup by done.
  destruct (decide (j ∈ L)) as [HjL|HjL].
  { by rewrite decide_True by (by right). }
  destruct (decide (j = id)) as [->|Hne].
  { rewrite decide_True by (by left). done. }
  rewrite decide_False by (rewrite elem_of_cons; tauto).
  destruct (m !! j); simpl; [|done]. by rewrite restrict_restrict.
Qed.

(** ** Marking *)

(** Marking [cur] moves the open obligation from [cur] to its parent. *)
Lemma closed_but_mark m keep cur :
  closed_but m (Some cur) keep →
  closed_but m (s_ParentID <$> m !! cur) ({[cur]} ∪ keep).
Proof.
  intros [Hroot Hcl]. split; [set_solver|].
  intros x sx Hx Hx0 Hsx. apply elem_of_union in Hx as [->%elem_of_singleton|Hx].
  - right. by rewrite Hsx.
  - destruct (Hcl _ _ Hx Hx0 Hsx) as [?|[= ->]]; left; set_solver.
Qed.

Lemma mark_spec fuel m keep cur :
  (size (dom m ∖ keep) < fuel)%nat → closed_but m (Some cur) keep →
  ∃ keep', mark fuel m keep cur = Some keep' ∧ closed_but m None keep' ∧
    keep ⊆ keep' ∧ cur ∈ keep' ∧ ∀ x, x ∈ keep' → x ∈ keep ∨ ancestor m x cur.
Proof.
  revert keep cur. induction fuel as [|fuel IH]; intros keep cur Hf Hcl; [lia|].
  simpl. case_decide as Hin.
  { exists keep. destruct Hcl as [Hroot Hcl]. split_and!; [done| |done|done|naive_solver].
    split; [done|]. intros x s Hx Hx0 Hs.
    destruct (Hcl _ _ Hx Hx0 Hs) as [?|[= ->]]; by left. }
  pose proof (closed_but_mark _ _ _ Hcl) as Hcl'. destruct (m !! cur) as [s|] eqn:Hs; last first.
  { exists ({[cur]} ∪ keep). split_and!; [done|done|set_solver|set_solver|].
    intros x [->%elem_of_singleton|?]%elem_of_union; [right; constructor|by left]. }
  destruct (Z.eqb_spec cur RootID) as [->|Hne]; [by destruct Hcl|].
  destruct (IH ({[cur]} ∪ keep) (s_ParentID s)) as (k' & Hk' & Hc' & Hsub & Hcur & Hanc).
  - assert (cur ∈ dom m) by (by apply elem_of_dom_2 in Hs).
    assert (size (dom m ∖ ({[cur]} ∪ keep)) < size (dom m ∖ keep))%nat; [|lia].
    apply subset_size. set_solver.
  - done.
  - exists k'. split_and!; [done|done|set_solver|set_solver|].
    intros x Hx. destruct (Hanc x Hx) as [Hx'|?]; [|right; by eapply ancestor_step].
    apply elem_of_union in Hx' as [->%elem_of_singleton|?]; [right; constructor|by left].
Qed.

Lemma closed_but_None m keep cur : closed_but m None keep → closed_but m (Some cur) keep.
Proof.
  intros [Hr Hcl]. split; [done|]. intros x s Hx H0 Hs. left.
  by destruct (Hcl x s Hx H0 Hs).
Qed.

Lemma mark_fuel_enough m keep : (size (dom m ∖ keep) < mark_fuel m)%nat.
Proof.
  unfold mark_fuel. rewrite <- (size_dom m).
  assert (size (dom m ∖ keep) ≤ size (dom m))%nat by (apply subseteq_size; set_solver). lia.
Qed.

Lemma mark_all_spec m ids :
  ∃ keep, mark_all m ids = Some keep ∧ closed_but m None keep ∧
    (∀ id, id ∈ ids → id ∈ keep) ∧
    ∀ x, x ∈ keep → x = RootID ∨ ∃ f, f ∈ ids ∧ ancestor m x f.
Proof.
  unfold mark_all. induction ids as [|id ids IH] using rev_ind.
  { exists {[RootID]}. split_and!; [done| |by intros ? ?%not_elem_of_nil|set_solver].
    split; [set_solver|]. intros x s ->%elem_of_singleton. done. }
  destruct IH as (k & Hk & Hcl & Hin & Hanc). rewrite foldl_app, Hk. cbn [foldl mbind option_bind].
  destruct (mark_spec (mark_fuel m) m k id) as (k' & -> & Hcl' & Hsub & Hid & Hanc').
  { apply mark_fuel_enough. }
  { by apply closed_but_None. }
  exists k'. split_and!; [done|done| |].
  - intros x [Hx| ->%list_elem_of_singleton]%elem_of_app; [set_solver|done].
  - intros x [Hx|Hx]%Hanc'.
    + destruct (Hanc x Hx) as [?|(f & Hf & ?)]; [by left|right].
      exists f. rewrite elem_of_app. auto.
    + right. exists id. split; [|done]. apply elem_of_app. right. by left.
Qed.

(** A marked set contains the ancestors of its members. *)
Lemma closed_ancestor m keep x y :
  closed_but m None keep → ancestor m x y → y ∈ keep → x ∈ keep.
Proof.
  intros [Hr Hcl] Hanc. induction Hanc as [|y s Hs Hy Hanc IH]; [done|].
  intros Hin. apply IH. by destruct (Hcl _ _ Hin Hy Hs).
Qed.

Lemma prunable_elem m keep id :
  id ∈ prunable m keep ↔ id ≠ RootID ∧ id ∉ keep ∧ is_Some (m !! id).
Proof.
  unfold prunable. rewrite list_elem_of_filter, elem_of_sorted_keys, elem_of_dom. tauto.
Qed.

Lemma prunable_NoDup m keep : NoDup (prunable m keep).
Proof. apply NoDup_filter, sorted_keys_NoDup. Qed.

(** ** Well-formedness is kept *)

Lemma wf_map_linked m : wf_map m → linked m.
Proof.
  intros Hm id s Hs. destruct (wm_node _ Hm _ _ Hs) as [_ _ _ Hch Hnd]. split; [done|].
  intros c Hc. destruct (Hch c Hc) as (cs & ? & ? & _). eauto.
Qed.

Lemma wf_NewTree : wf NewTree.
Proof.
  split; simpl.
  - split; [by exists root_snapshot|]. intros id s [<- <-]%lookup_singleton_Some.
    split; simpl; [done|unfold RootID; lia|done| |constructor]. by intros c ?%not_elem_of_nil.
  - by exists root_snapshot.
  - split; [lia|]. intros id s [<- _]%lookup_singleton_Some. unfold RootID. lia.
Qed.

(** Removing nodes outside a set closed under parents keeps a map well formed. *)
Lemma wf_map_remove m keep :
  wf_map m → closed_but m None keep → wf_map (foldl remove_node m (prunable m keep)).
Proof.
  intros Hm [Hroot Hcl]. pose proof (wf_map_linked m Hm) as Hl.
  set (L := prunable m keep).
  assert (∀ j sj, foldl remove_node m L !! j = Some sj ↔
                  ∃ s, m !! j = Some s ∧ j ∉ L ∧ sj = restrict L s) as Hlook.
  { intros j sj. rewrite foldl_remove_lookup by done. case_decide; [naive_solver|].
    rewrite fmap_Some. naive_solver. }
  assert (∀ j s, m !! j = Some s → j ∉ L → j = RootID ∨ j ∈ keep) as HL.
  { intros j s Hj HjL. destruct (decide (j = RootID)); [by left|right].
    destruct (decide (j ∈ keep)) as [|Hk]; [done|]. destruct HjL.
    apply prunable_elem. by rewrite Hj. }
  split.
  - destruct (wm_root _ Hm) as (r & Hr & ? & ?). exists (restrict L r).
    split; [|done]. apply Hlook. exists r. split_and!; [done| |done].
    intros [? _]%prunable_elem. done.
  - intros id sj (s & Hs & HidL & ->)%Hlook.
    destruct (wm_node _ Hm _ _ Hs) as [Hid Hdep Hpar Hch Hnd].
    split; [done|done| | |by apply NoDup_filter].
    + intros H0. destruct (Hpar H0) as (Hlt & p & Hp & Hd & Hin). split; [done|].
      exists (restrict L p). split_and!; [|done|].
      * apply Hlook. exists p. split_and!; [done| |done].
        intros (_ & Hnk & _)%prunable_elem. apply Hnk.
        destruct (HL _ _ Hs HidL) as [|Hk]; [done|]. by destruct (Hcl _ _ Hk H0 Hs).
      * simpl. by apply list_elem_of_filter.
    + intros c [HcL Hc]%list_elem_of_filter. destruct (Hch c Hc) as (cs & Hcs & Hpc & Hc0).
      exists (restrict L cs). split_and!; [|done|done]. apply Hlook. eauto.
Qed.

Lemma reset_current_Some m cur :
  is_Some (m !! RootID) → is_Some (m !! reset_current m cur).
Proof. intros Hr. unfold reset_current. destruct (m !! cur) eqn:E; [by rewrite E|done]. Qed.

(** Everything [Prune] does, on a well-formed tree. *)
Lemma Prune_spec t ids :
  wf t →
  ∃ keep t', mark_all (snapshots t) ids = Some keep ∧
    Prune t ids = Some (map (hyp_of (snapshots t)) (prunable (snapshots t) keep), t') ∧
    wf t' ∧ nextID t' = nextID t ∧ history t' = history t ∧
    current t' = reset_current (snapshots t') (current t) ∧
    ∀ j, snapshots t' !! j =
      if decide (j ∈ prunable (snapshots t) keep) then None
      else restrict (prunable (snapshots t) keep) <$> snapshots t !! j.
Proof.
  intros [Hm Hc Hn]. pose proof (wf_map_linked _ Hm) as Hl.
  destruct (mark_all_spec (snapshots t) ids) as (keep & Hk & Hcl & _).
  unfold Prune. rewrite Hk. cbn [mbind option_bind]. exists keep.
  eexists. split_and!; [done|done| |done|done|done|].
  - pose proof (wf_map_remove _ _ Hm Hcl) as Hm'. split; simpl; [done| |].
    + apply reset_current_Some. destruct (wm_root _ Hm') as (r & -> & _). done.
    + destruct Hn as [Hn1 Hn2]. split; [done|]. intros id s.
      rewrite foldl_remove_lookup by done. case_decide; [done|].
      intros (s0 & Hs0 & _)%fmap_Some. eauto.
  - intros j. simpl. by apply foldl_remove_lookup.
Qed.

Lemma add_child_lookup (m : gmap Z Snapshot) p parent id snap j :
  m !! p = Some parent → id ≠ p →
  <[id := snap]> (<[p := set_children parent (s_Children parent ++ [id])]> m) !! j =
  if decide (j = id) then Some snap
  else if decide (j = p) then Some (set_children parent (s_Children parent ++ [id]))
  else m !! j.
Proof.
  intros Hp Hne. case_decide; [subst; apply lookup_insert_eq|].
  rewrite lookup_insert_ne by done. case_decide; [subst; apply lookup_insert_eq|].
  by rewrite lookup_insert_ne.
Qed.

(** Every node survives an insertion, with the same links and depth. *)
Lemma add_child_extends (m : gmap Z Snapshot) p parent id snap k sk :
  m !! p = Some parent → id ≠ p → m !! id = None → m !! k = Some sk →
  ∃ sk', <[id := snap]> (<[p := set_children parent (s_Children parent ++ [id])]> m) !! k = Some sk' ∧
    s_ParentID sk' = s_ParentID sk ∧ s_Depth sk' = s_Depth sk ∧
    ∀ c, c ∈ s_Children sk → c ∈ s_Children sk'.
Proof.
  intros Hp Hne Hfresh Hk. rewrite add_child_lookup by done.
  destruct (decide (k = id)) as [->|]; [congruence|].
  destruct (decide (k = p)) as [->|]; [|eauto]. simplify_eq. eexists. split_and!; [done..|].
  intros c Hc. simpl. apply elem_of_app. by left.
Qed.

Lemma add_child_old_node (m : gmap Z Snapshot) p parent snap j s s' :
  wf_map m → m !! p = Some parent → s_ID snap ≠ p → m !! s_ID snap = None →
  m !! j = Some s → s_ID s' = s_ID s → s_ParentID s' = s_ParentID s → s_Depth s' = s_Depth s →
  NoDup (s_Children s') →
  (∀ c, c ∈ s_Children s' → c ∈ s_Children s ∨
     (c = s_ID snap ∧ s_ParentID snap = j ∧ s_ID snap ≠ RootID)) →
  wf_node (<[s_ID snap := snap]>
    (<[p := set_children parent (s_Children parent ++ [s_ID snap])]> m)) j s'.
Proof.
  intros Hm Hp Hne Hfresh Hj Hi Hpar Hdep Hnd Hch'.
  destruct (wm_node _ Hm _ _ Hj) as [Hid Hd Hparent Hch _].
  split; [congruence|lia| | |done].
  - intros H0. destruct (Hparent H0) as (? & q & Hq & ? & Hin). split; [lia|].
    destruct (add_child_extends m p parent (s_ID snap) snap _ _ Hp Hne Hfresh Hq)
      as (q' & Hq' & _ & Hdq & Hin'). exists q'. rewrite Hpar. split_and!; [done|lia|auto].
  - intros c [Hc|(-> & Hpc & H0)]%Hch'.
    + destruct (Hch c Hc) as (cs & Hcs & Hpc & ?).
      destruct (add_child_extends m p parent (s_ID snap) snap _ _ Hp Hne Hfresh Hcs)
        as (cs' & ? & Hpc' & _). exists cs'. split_and!; [done|congruence|done].
    + exists snap. by rewrite lookup_insert_eq.
Qed.

Lemma wf_map_add (m : gmap Z Snapshot) p parent snap :
  wf_map m → m !! p = Some parent → s_Children snap = [] → s_ParentID snap = p →
  p < s_ID snap → m !! s_ID snap = None → s_Depth snap = s_Depth parent + 1 →
  wf_map (<[s_ID snap := snap]>
    (<[p := set_children parent (s_Children parent ++ [s_ID snap])]> m)).
Proof.
  intros Hm Hp Hc0 Hpar Hlt Hfresh Hdep.
  assert (s_ID snap ≠ p) as Hne by lia.
  destruct (wm_node _ Hm _ _ Hp) as [Hip Hdp _ Hchp Hndp].
  split.
  - destruct (wm_root _ Hm) as (r & Hr & Hr1 & Hr2).
    destruct (add_child_extends m p parent (s_ID snap) snap _ _ Hp Hne Hfresh Hr)
      as (r' & Hr' & ? & ? & _). exists r'. split_and!; [done|congruence|congruence].
  - intros j s. rewrite add_child_lookup by done. intros Hj.
    destruct (decide (j = s_ID snap)) as [->|Hj1]; [|destruct (decide (j = p)) as [->|Hj2]]; simplify_eq.
    + split; [done|lia| | |by rewrite Hc0; constructor].
      * intros _. split; [done|]. rewrite add_child_lookup, decide_False, decide_True by done.
        eexists. split_and!; [done|done|]. simpl. apply elem_of_app. right. by left.
      * rewrite Hc0. by intros c ?%not_elem_of_nil.
    + apply (add_child_old_node _ _ _ _ _ parent); try done.
      * simpl. apply NoDup_app. split_and!; [done| |apply NoDup_singleton].
        intros c Hc ->%list_elem_of_singleton. destruct (Hchp _ Hc) as (? & ? & _). congruence.
      * simpl. intros c [?| ->%list_elem_of_singleton]%elem_of_app; [by left|right].
        split_and!; [done|done|unfold RootID; lia].
    + apply (add_child_old_node _ _ _ _ _ s); try done; [|by left].
      by apply (wm_node _ Hm _ _ Hj).
Qed.

Lemma wf_Create t p h tm cov rng f mask :
  wf t → nextID t < 2 ^ 32 → wf (Create t p h tm cov rng f mask).2.
Proof.
  intros [Hm Hc [Hn1 Hn2]] Hlt. unfold Create.
  destruct (snapshots t !! p) as [parent|] eqn:Hp; [|by split].
  pose proof (Hn2 _ _ Hp) as Hpn.
  destruct (wm_node _ Hm _ _ Hp) as [_ Hdp _ _ _].
  assert (snapshots t !! nextID t = None) as Hfresh.
  { destruct (snapshots t !! nextID t) eqn:E; [|done]. specialize (Hn2 _ _ E). lia. }
  assert (u32 (s_Depth parent + 1) = s_Depth parent + 1) as Hu by (apply wrap_small; split; lia).
  split; simpl.
  - rewrite Hu. by apply (wf_map_add (snapshots t) p parent
      (mkSnapshot (nextID t) p h [] tm (s_Depth parent + 1) cov rng (tm / 128) f mask)).
  - rewrite add_child_lookup by (done || lia). destruct Hc as [sc Hc]. repeat case_decide; eauto.
  - unfold add64. rewrite wrap_small by (split; lia). split; [lia|].
    intros id s. rewrite add_child_lookup by (done || lia).
    repeat case_decide; intros; simplify_eq; [lia|lia|].
    assert (id < nextID t) by eauto. lia.
Qed.

Lemma wf_SetCurrent t id : wf t → wf (SetCurrent t id).2.
Proof.
  intros [Hm Hc Hn]. unfold SetCurrent. destruct (snapshots t !! id) eqn:E; [|by split].
  split; simpl; [done|by rewrite E|done].
Qed.

Lemma reachable_wf n t :
  reachable n t → Z.of_nat n < 2 ^ 32 - 1 → wf t ∧ nextID t <= 1 + Z.of_nat n.
Proof.
  induction 1 as [|n k t t' Ht IH Hstep]; intros Hlt.
  { split; [apply wf_NewTree|]. simpl. lia. }
  destruct IH as [Hwf Hnext]; [lia|]. destruct Hstep as [t p h tm cov rng f mask|t id|t ids deleted t' HP].
  - split; [by apply wf_Create; [|lia]|]. unfold Create.
    destruct (snapshots t !! p); simpl; [|lia].
    unfold add64. rewrite wrap_small; [lia|]. destruct (wf_next _ Hwf). split; lia.
  - split; [by apply wf_SetCurrent|]. unfold SetCurrent. destruct (snapshots t !! id); simpl; lia.
  - destruct (Prune_spec t ids Hwf) as (keep & t'' & _ & HP' & Hwf' & Hn & _).
    rewrite HP in HP'. simplify_eq. split; [done|lia].
Qed.

(** ** Walks to the root *)

Lemma below_step m cur p :
  is_Some (m !! cur) → p < cur → (below m p < below m cur)%nat.
Proof.
  intros Hc Hlt. unfold below. apply subset_size. split.
  - intros x. rewrite !elem_of_filter. intros [? ?]. split; [lia|done].
  - intros Hsub. specialize (Hsub cur). rewrite !elem_of_filter, elem_of_dom in Hsub.
    destruct Hsub; [split; [lia|done]|lia].
Qed.

Lemma below_size m cur : (below m cur ≤ size m)%nat.
Proof. unfold below. rewrite <- size_dom. apply subseteq_size. intros x. rewrite elem_of_filter. tauto. Qed.

(** The walk from [id] up: a list of snapshots, each the parent of the one
    before, ending at the root, one longer than the depth of [id]. *)
Lemma chain_total m fuel id s :
  wf_map m → m !! id = Some s → (below m id < fuel)%nat →
  ∃ c, chain fuel m id = Some c ∧ head c = Some s ∧ (s_ID <$> last c) = Some RootID ∧
    Z.of_nat (length c) = s_Depth s + 1 ∧
    (∀ i x y, c !! i = Some x → c !! S i = Some y → m !! s_ParentID x = Some y) ∧
    ancestors_loop fuel m id = Some (s_ID <$> c) ∧ path_loop fuel m id = Some (s_ID <$> c).
Proof.
  intros Hm. revert id s. induction fuel as [|fuel IH]; intros id s Hs Hf; [lia|].
  simpl. rewrite Hs. destruct (wm_node _ Hm _ _ Hs) as [Hid Hd Hpar _ _].
  destruct (Z.eqb_spec id RootID) as [->|Hne].
  - exists [s]. simpl. rewrite Hid. destruct (wm_root _ Hm) as (r & Hr & _ & Hr0).
    simplify_eq. split_and!; try done; lia.
  - destruct (Hpar Hne) as (Hlt & p & Hp & Hdp & _).
    destruct (IH _ _ Hp) as (c & -> & Hh & Hl & Hlen & Hlink & -> & ->).
    { pose proof (below_step m id (s_ParentID s) ltac:(eauto) Hlt). lia. }
    destruct (Z.eqb_spec (s_ParentID s) id) as [|_]; [lia|].
    exists (s :: c). destruct c as [|c0 c]; [done|]. simpl in Hh. simplify_eq.
    simpl. split_and!; try done; [simpl in *; lia|].
    intros [|i] x y; simpl; intros; simplify_eq; [done|eauto].
Qed.

Lemma walk_total t id s :
  wf t → snapshots t !! id = Some s →
  ∃ c, chain (walk_fuel t) (snapshots t) id = Some c ∧
    (s_ID <$> last c) = Some RootID ∧ head c = Some s ∧
    Z.of_nat (length c) = s_Depth s + 1 ∧
    (∀ i x y, c !! i = Some x → c !! S i = Some y → snapshots t !! s_ParentID x = Some y) ∧
    Ancestors t id = Some (reverse (s_ID <$> c)) ∧ PathToRoot t id = Some (reverse (s_ID <$> c)).
Proof.
  intros [Hm _ _] Hs.
  destruct (chain_total (snapshots t) (walk_fuel t) id s Hm Hs) as (c & Hc & Hh & Hl & Hlen & Hlink & Ha & Hp).
  { unfold walk_fuel. pose proof (below_size (snapshots t) id). lia. }
  exists c. unfold Ancestors, PathToRoot. rewrite Ha, Hp. done.
Qed.

(** ** Validation *)

Lemma first_error_None {A E} (f : A → option E) l :
  first_error f l = None ↔ ∀ x, x ∈ l → f x = None.
Proof.
  induction l as [|x l IH]; simpl.
  - split; [by intros _ x ?%not_elem_of_nil|done].
  - destruct (f x) eqn:Hx.
    + split; [done|]. intros H. specialize (H x ltac:(left)). congruence.
    + rewrite IH. split; intros H y; [intros [->|]%elem_of_cons|]; auto.
      intros. apply H. by right.
Qed.

Lemma count_if_one {A} (p : A → bool) l :
  NoDup l → count_if p l = 1%nat ↔
  ∃ x, x ∈ l ∧ p x = true ∧ ∀ y, y ∈ l → p y = true → y = x.
Proof.
  assert (∀ l, count_if p l = 0%nat ↔ ∀ y, y ∈ l → p y = false) as H0.
  { clear l. intros l. induction l as [|x l IH]; simpl.
    - split; [by intros _ y ?%not_elem_of_nil|done].
    - setoid_rewrite elem_of_cons. destruct (p x) eqn:Hx; [split; [lia|]|].
      + intros H. rewrite H in Hx; [done|by left].
      + rewrite IH. naive_solver. }
  induction 1 as [|x l Hx Hl IH]; simpl.
  { split; [lia|]. by intros (? & ?%not_elem_of_nil & _). }
  setoid_rewrite elem_of_cons. destruct (p x) eqn:Hpx.
  - transitivity (count_if p l = 0%nat); [lia|]. rewrite H0. split.
    + intros Hy. exists x. split_and!; [by left|done|]. intros y [->|Hin] Hpy; [done|].
      rewrite Hy in Hpy; done.
    + intros (z & _ & _ & Huniq) y Hy. destruct (p y) eqn:Hpy; [|done].
      assert (y = z) as -> by auto. assert (x = z) as -> by auto. done.
  - rewrite Nat.add_0_l, IH. split; intros (z & Hz & Hpz & Hu); exists z.
    + split_and!; [by right|done|]. intros y [->|Hy] Hpy; [congruence|auto].
    + destruct Hz as [->|Hz]; [congruence|]. auto.
Qed.

Lemma check_parent_None m id s :
  m !! id = Some s → check_parent m id = None ↔
  (id ≠ RootID → ∃ p, m !! s_ParentID s = Some p ∧ s_Depth p < s_Depth s ∧ id ∈ s_Children p).
Proof.
  intros Hs. unfold check_parent. rewrite Hs.
  destruct (Z.eqb_spec id RootID) as [->|Hne]; [naive_solver|].
  destruct (m !! s_ParentID s) as [p|] eqn:Hp; [|naive_solver].
  destruct (Z.leb_spec (s_Depth s) (s_Depth p)).
  { split; [done|]. intros H'. destruct (H' Hne) as (q & ? & ? & _). simplify_eq. lia. }
  destruct (existsb (Z.eqb id) (s_Children p)) eqn:He.
  - split; [|done]. intros _ _. exists p. split_and!; [done|done|].
    apply existsb_exists in He as (c & Hc & ->%Z.eqb_eq). by apply list_elem_of_In.
  - split; [done|]. intros H'. destruct (H' Hne) as (q & ? & _ & Hin). simplify_eq.
    assert (existsb (Z.eqb id) (s_Children q) = true); [|congruence].
    apply existsb_exists. exists id. by rewrite <- list_elem_of_In, Z.eqb_refl.
Qed.

Lemma check_child_None m id c :
  check_child m id c = None ↔ ∃ cs, m !! c = Some cs ∧ s_ParentID cs = id.
Proof.
  unfold check_child. destruct (m !! c) as [cs|]; [|naive_solver].
  destruct (Z.eqb_spec (s_ParentID cs) id); naive_solver.
Qed.

Lemma root_count_spec (m : gmap Z Snapshot) :
  count_if (λ p, s_ID p.2 =? RootID) (map_to_list m) = 1%nat ↔
  ∃ k s, m !! k = Some s ∧ s_ID s = RootID ∧
    ∀ k' s', m !! k' = Some s' → s_ID s' = RootID → k' = k.
Proof.
  rewrite count_if_one by apply NoDup_map_to_list. split.
  - intros ([k s] & Hin%elem_of_map_to_list & Hp%Z.eqb_eq & Hu). exists k, s.
    split_and!; [done|done|]. intros k' s' Hk' Hs'.
    specialize (Hu (k', s')). rewrite elem_of_map_to_list in Hu.
    specialize (Hu Hk' (proj2 (Z.eqb_eq _ _) Hs')). congruence.
  - intros (k & s & Hk & Hs & Hu). exists (k, s). rewrite elem_of_map_to_list.
    split_and!; [done|by apply Z.eqb_eq|]. intros [k' s'] Hk'%elem_of_map_to_list Hs'%Z.eqb_eq.
    assert (k' = k) as -> by eauto. congruence.
Qed.

Lemma Validate_valid t : Validate t = None ↔ valid t.
Proof.
  unfold Validate. set (m := snapshots t).
  destruct (Z.eqb_spec (Z.of_nat (count_if (λ p, s_ID p.2 =? RootID) (map_to_list m))) 1) as [Hr|Hr];
    simpl; last first.
  { split; [done|]. intros [Hroot _ _ _]. apply root_count_spec in Hroot. fold m in Hroot. lia. }
  assert (∃ k s, m !! k = Some s ∧ s_ID s = RootID ∧
    ∀ k' s', m !! k' = Some s' → s_ID s' = RootID → k' = k) as Hroot
    by (apply root_count_spec; lia).
  destruct (m !! current t) as [sc|] eqn:Hc; last first.
  { split; [done|]. intros [_ [? Hc'] _ _]. fold m in Hc'. congruence. }
  transitivity (first_error (check_parent m) (sorted_keys (dom m)) = None ∧
                first_error (check_children m) (sorted_keys (dom m)) = None).
  { destruct (first_error (check_parent m) _); naive_solver. }
  rewrite !first_error_None. setoid_rewrite elem_of_sorted_keys. setoid_rewrite elem_of_dom. split.
  - intros [Hp Hch]. split; fold m; [done|by exists sc| |].
    + intros id s Hne Hs. apply (check_parent_None m id s Hs); eauto.
    + intros id s c Hs Hin. specialize (Hch id ltac:(eauto)). unfold check_children in Hch.
      rewrite Hs, first_error_None in Hch. by apply check_child_None, Hch.
  - intros [_ _ Hp Hch]. fold m in Hp, Hch. split; intros id [s Hs].
    + apply (check_parent_None m id s Hs). eauto.
    + unfold check_children. rewrite Hs. apply first_error_None.
      intros c Hin. apply check_child_None. eauto.
Qed.

Lemma wf_valid t : wf t → valid t.
Proof.
  intros [Hm Hc _]. split; [|done| |].
  - destruct (wm_root _ Hm) as (r & Hr & _). exists RootID, r. split_and!; [done| |].
    + by apply (wm_node _ Hm).
    + intros k sk Hk Hs. by rewrite <- (wn_id _ _ _ (wm_node _ Hm _ _ Hk)).
  - intros id s H0 Hs. destruct (wn_parent _ _ _ (wm_node _ Hm _ _ Hs) H0) as (_ & p & ? & ? & ?).
    exists p. split_and!; [done|lia|done].
  - intros id s c Hs Hin. destruct (wn_children _ _ _ (wm_node _ Hm _ _ Hs) c Hin) as (cs & ? & ? & _). eauto.
Qed.

(** ** Pruning, seen through ancestors *)

Lemma survivors_in_prunable m keep j :
  is_Some (m !! j) → j ∉ prunable m keep ↔ j = RootID ∨ j ∈ keep.
Proof.
  intros Hj. rewrite prunable_elem. destruct (decide (j = RootID)), (decide (j ∈ keep)); tauto.
Qed.

Lemma mark_all_keep m ids keep :
  mark_all m ids = Some keep →
  ∀ x, x ∈ keep ↔ x = RootID ∨ ∃ f, f ∈ ids ∧ ancestor m x f.
Proof.
  destruct (mark_all_spec m ids) as (k & -> & Hcl & Hin & Hanc). intros [= <-] x.
  split; [apply Hanc|]. intros [->|(f & Hf & Ha)]; [by destruct Hcl|].
  by eapply closed_ancestor, Hin.
Qed.

(** The walk from a surviving node is the same before and after pruning. *)
Lemma chain_restrict fuel m m' L id :
  (∀ j, m' !! j = if decide (j ∈ L) then None else restrict L <$> m !! j) →
  (∀ x s, x ∉ L → x ≠ RootID → m !! x = Some s → s_ParentID s ∉ L) →
  id ∉ L → chain fuel m' id = fmap (M := list) (restrict L) <$> chain fuel m id.
Proof.
  intros Hlook Hcl. revert id. induction fuel as [|fuel IH]; intros id Hid; [done|].
  simpl. rewrite Hlook, decide_False by done. destruct (m !! id) as [s|] eqn:Hs; [|done]. simpl.
  destruct (Z.eqb_spec id RootID) as [|Hne]; [done|].
  rewrite IH by eauto. by destruct (chain fuel m (s_ParentID s)).
Qed.

Lemma hash_mix_restrict L c h :
  fold_left hash_mix (restrict L <$> c) h = fold_left hash_mix c h.
Proof. revert h. induction c as [|s c IH]; intros h; simpl; [done|]. by rewrite IH. Qed.

Lemma chain_mono f1 f2 m id c : chain f1 m id = Some c → (f1 ≤ f2)%nat → chain f2 m id = Some c.
Proof.
  revert f2 id c. induction f1 as [|f1 IH]; intros [|f2] id c; simpl; try done; try lia.
  destruct (m !! id) as [s|]; [|done]. case_bool; [done|].
  intros (c' & Hc' & ->)%fmap_Some Hle. rewrite (IH f2 _ _ Hc') by lia. done.
Qed.

(** ** Oldest-first eviction *)

Lemma sorted_filter {A} (R : A → A → Prop) (P : A → Prop) `{∀ x, Decision (P x)} l :
  StronglySorted R l → StronglySorted R (filter P l).
Proof.
  induction 1 as [|x l Hl IH Hall]; [constructor|]. rewrite filter_cons. case_decide; [|done].
  constructor; [done|]. rewrite Forall_forall in *. intros y [_ Hy]%list_elem_of_filter. auto.
Qed.

Lemma prunable_sorted m keep : StronglySorted Z.le (prunable m keep).
Proof. apply sorted_filter, sorted_keys_sorted. Qed.

Lemma foldl_remove_dom m L :
  linked m → dom (foldl remove_node m L) = dom m ∖ list_to_set L.
Proof.
  intros Hl. apply set_eq. intros j. rewrite elem_of_difference, elem_of_list_to_set, !elem_of_dom.
  rewrite foldl_remove_lookup by done. case_decide; [naive_solver|].
  rewrite fmap_is_Some. tauto.
Qed.

Lemma foldl_remove_size m L :
  linked m → NoDup L → (∀ x, x ∈ L → is_Some (m !! x)) →
  (size (foldl remove_node m L) + length L = size m)%nat.
Proof.
  intros Hl Hnd Hin. rewrite <- !size_dom, foldl_remove_dom by done.
  rewrite size_difference by (intros x Hx%elem_of_list_to_set; by apply elem_of_dom, Hin).
  rewrite size_list_to_set by done.
  assert (length L ≤ size (dom m))%nat; [|lia].
  rewrite <- (size_list_to_set (C := gset Z) L) by done. apply subseteq_size.
  intros x Hx%elem_of_list_to_set. by apply elem_of_dom, Hin.
Qed.

Lemma mark_one_keep m cur :
  ∃ keep, mark (mark_fuel m) m {[RootID]} cur = Some keep ∧
    ∀ x, x ∈ keep ↔ x = RootID ∨ ancestor m x cur.
Proof.
  destruct (mark_spec (mark_fuel m) m {[RootID]} cur) as (k & Hk & Hcl & Hsub & Hcur & Hanc).
  { apply mark_fuel_enough. }
  { split; [set_solver|]. by intros x s ->%elem_of_singleton. }
  exists k. split; [done|]. intros x. split.
  - intros [->%elem_of_singleton|?]%Hanc; auto.
  - intros [->|Ha]; [set_solver|]. by eapply closed_ancestor.
Qed.
