(* ===== verification/SnapshotTreeProps.v ===== *)
(** * The snapshot tree: properties

    The theorems about [internal/snapshot]'s tree, each with a witness on a
    concrete tree where it has hypotheses. *)
From S2P Require Import Prelude Word SnapshotTree SnapshotTreeInv.
Local Open Scope Z_scope.

(** A concrete tree: the root with children 1 and 2, node 3 under 1, node 4
    under 2; node [i]'s hypervisor snapshot is [100 + i]. *)
Definition t1 : Tree := (Create NewTree 0 101 128 7 11 0 0).2.
Definition t2 : Tree := (Create t1 0 102 256 8 12 1 1).2.
Definition t3 : Tree := (Create t2 1 103 384 9 13 0 0).2.
Definition t4 : Tree := (Create t3 2 104 512 9 14 2 3).2.

Lemma t4_reachable : reachable 4 t4.
Proof.
  apply (reach_step 3 1 t3); [|apply step_Create].
  apply (reach_step 2 1 t2); [|apply step_Create].
  apply (reach_step 1 1 t1); [|apply step_Create].
  apply (reach_step 0 1 NewTree); [constructor|apply step_Create].
Defined.

Lemma t4_wf : wf t4.
Proof. by apply (reachable_wf 4 t4 t4_reachable). Qed.

(** C19: Every tree the exploration loop can build, from [NewTree] by any
    sequence of [Create], [SetCurrent] and [Prune] calls (with any arguments,
    failing calls included), passes [Validate], as long as fewer than
    [2^32 - 1] [Create] calls keep the 32-bit depth from wrapping. *)
Theorem reachable_validates n t :
  reachable n t → Z.of_nat n < 2 ^ 32 - 1 → Validate t = None.
Proof. intros Ht Hn. apply Validate_valid, wf_valid. by destruct (reachable_wf n t Ht Hn). Qed.

Lemma reachable_validates_witness : Validate t4 = None.
Proof. apply (reachable_validates 4 t4); [exact t4_reachable|reflexivity]. Defined.

(** C21: [Validate] is a sound and complete check of the invariants listed on
    [Tree]: it returns nil exactly when there is exactly one root, the current
    snapshot exists, every other node has an existing parent of smaller depth
    that lists it, and every listed child exists and names the right parent. *)
Theorem Validate_correct t : Validate t = None ↔ valid t.
Proof. apply Validate_valid. Qed.

(** C20: [Prune] terminates, keeps exactly the root and the frontier entries
    with their ancestors, and returns the hypervisor IDs of exactly the nodes
    it removed, in ascending node order; survivors only lose removed children
    and the tree stays valid. *)
Theorem Prune_exact t frontierIDs :
  wf t →
  ∃ removed t', Prune t frontierIDs = Some (map (hyp_of (snapshots t)) removed, t') ∧
    StronglySorted Z.le removed ∧ NoDup removed ∧
    (∀ id, id ∈ removed ↔ is_Some (snapshots t !! id) ∧ id ≠ RootID ∧
             ∀ f, f ∈ frontierIDs → ¬ ancestor (snapshots t) id f) ∧
    (∀ id s, snapshots t !! id = Some s → id ∉ removed →
             snapshots t' !! id = Some (restrict removed s)) ∧
    (∀ id, is_Some (snapshots t' !! id) ↔ is_Some (snapshots t !! id) ∧ id ∉ removed) ∧
    Validate t' = None.
Proof.
  intros Hwf. destruct (Prune_spec t frontierIDs Hwf) as (keep & t' & Hk & HP & Hwf' & _ & _ & _ & Hlook).
  pose proof (mark_all_keep _ _ _ Hk) as Hkeep. exists (prunable (snapshots t) keep), t'.
  split_and!; [done|apply prunable_sorted|apply prunable_NoDup| | | |by apply Validate_valid, wf_valid].
  - intros id. rewrite prunable_elem, Hkeep. naive_solver.
  - intros id s Hs Hid. by rewrite Hlook, decide_False, Hs by done.
  - intros id. rewrite Hlook. case_decide; [naive_solver|]. rewrite fmap_is_Some. tauto.
Qed.

Lemma Prune_exact_witness :
  ∃ removed t', Prune t4 [4] = Some (map (hyp_of (snapshots t4)) removed, t') ∧
    StronglySorted Z.le removed ∧ NoDup removed ∧
    (∀ id, id ∈ removed ↔ is_Some (snapshots t4 !! id) ∧ id ≠ RootID ∧
             ∀ f, f ∈ [4] → ¬ ancestor (snapshots t4) id f) ∧
    (∀ id s, snapshots t4 !! id = Some s → id ∉ removed →
             snapshots t' !! id = Some (restrict removed s)) ∧
    (∀ id, is_Some (snapshots t' !! id) ↔ is_Some (snapshots t4 !! id) ∧ id ∉ removed) ∧
    Validate t' = None.
Proof. apply (Prune_exact t4 [4]), t4_wf. Defined.

(** The doc comment's picture: pruning towards {4} deletes snapshots 101, 103. *)
Example Prune_t4 : fst <$> Prune t4 [4] = Some [101; 103].
Proof. vm_compute. reflexivity. Qed.

(** On a well-formed tree [Ancestors] and [PathToRoot] terminate and agree:
    both return the path that starts at the root, ends at the node, is one
    longer than the node's depth, and steps from each node to a child of it. *)
Theorem Ancestors_path t id s :
  wf t → snapshots t !! id = Some s →
  ∃ p, Ancestors t id = Some p ∧ PathToRoot t id = Some p ∧
    head p = Some RootID ∧ last p = Some id ∧ Z.of_nat (length p) = s_Depth s + 1 ∧
    ∀ i x y, p !! i = Some x → p !! S i = Some y → IsChildOf t y x = true.
Proof.
  intros Hwf Hs.
  destruct (walk_total t id s Hwf Hs) as (c & Hc & Hroot & Hhead & Hlen & Hlink & Ha & Hp).
  exists (reverse (s_ID <$> c)). split_and!; [done|done| | | |].
  - rewrite head_reverse, fmap_last. done.
  - rewrite last_reverse. destruct c as [|s0 c]; [done|]. simpl in *. simplify_eq.
    by rewrite (wn_id _ _ _ (wm_node _ (wf_tree _ Hwf) _ _ Hs)).
  - by rewrite length_reverse, length_fmap.
  - intros i x y Hx Hy. pose proof (lookup_lt_Some _ _ _ Hy) as Hlt.
    rewrite length_reverse, length_fmap in Hlt.
    rewrite reverse_lookup in Hx, Hy by (rewrite length_fmap; lia).
    rewrite length_fmap in Hx, Hy. apply list_lookup_fmap_Some in Hx as (sx & -> & Hx).
    apply list_lookup_fmap_Some in Hy as (sy & -> & Hy).
    replace (length c - S i)%nat with (S (length c - S (S i))) in Hx by lia.
    pose proof (Hlink _ _ _ Hy Hx) as Hpar.
    assert (∃ k, snapshots t !! k = Some sy) as [k Hk].
    { destruct (length c - S (S i))%nat as [|n] eqn:En.
      - destruct c; simpl in *; simplify_eq. eauto.
      - destruct (lookup_lt_is_Some_2 c n) as [z Hz]; [apply lookup_lt_Some in Hy; lia|].
        eauto. }
    unfold IsChildOf. rewrite (wn_id _ _ _ (wm_node _ (wf_tree _ Hwf) _ _ Hk)), Hk.
    rewrite (wn_id _ _ _ (wm_node _ (wf_tree _ Hwf) _ _ Hpar)). apply Z.eqb_refl.
Qed.

Lemma Ancestors_path_witness :
  ∃ s p, Ancestors t4 4 = Some p ∧ PathToRoot t4 4 = Some p ∧
    head p = Some RootID ∧ last p = Some 4 ∧ Z.of_nat (length p) = s_Depth s + 1 ∧
    ∀ i x y, p !! i = Some x → p !! S i = Some y → IsChildOf t4 y x = true.
Proof.
  eexists. apply (Ancestors_path t4 4); [apply t4_wf|]. vm_compute. reflexivity.
Defined.

(** [PathHash] is a Merkle-style hash: a child's hash is one mixing step
    of its depth and RNG state on its parent's hash, and pruning changes the
    hash of no surviving node, so the hash identifies the execution path. *)
Theorem PathHash_merkle t id s seed frontierIDs :
  wf t → snapshots t !! id = Some s →
  (∃ h, PathHash t id seed = Some h) ∧
  (id ≠ RootID →
     PathHash t id seed = (λ h, hash_mix h s) <$> PathHash t (s_ParentID s) seed) ∧
  (∀ deleted t', Prune t frontierIDs = Some (deleted, t') →
     is_Some (snapshots t' !! id) → PathHash t' id seed = PathHash t id seed).
Proof.
  intros Hwf Hs. pose proof (wf_tree _ Hwf) as Hm.
  destruct (walk_total t id s Hwf Hs) as (c & Hc & _).
  split_and!.
  - unfold PathHash. rewrite Hc. eauto.
  - intros Hne. unfold PathHash. rewrite Hc.
    unfold walk_fuel in *. simpl in Hc. rewrite Hs in Hc.
    destruct (Z.eqb_spec id RootID); [done|].
    apply fmap_Some in Hc as (c' & Hc' & ->).
    rewrite (chain_mono _ (S (size (snapshots t))) _ _ _ Hc') by lia. simpl.
    by rewrite reverse_cons, fold_left_app.
  - intros deleted t' HP Hin.
    destruct (Prune_spec t frontierIDs Hwf) as (keep & t'' & Hk & HP' & Hwf' & _ & _ & _ & Hlook).
    rewrite HP in HP'. simplify_eq. set (L := prunable (snapshots t) keep) in *.
    assert (id ∉ L) as HidL. { intros HL. rewrite Hlook, decide_True in Hin by done. by destruct Hin. }
    destruct Hin as [s' Hs']. destruct (walk_total t'' id s' Hwf' Hs') as (c'' & Hc'' & _).
    unfold PathHash. rewrite Hc, Hc''. simpl. f_equal.
    assert (c'' = restrict L <$> c) as ->; [|by rewrite <- fmap_reverse, hash_mix_restrict].
    assert (chain (walk_fuel t) (snapshots t'') id = Some c'') as Hc1.
    { apply (chain_mono (walk_fuel t'')); [done|]. unfold walk_fuel.
      rewrite <- !size_dom. apply le_n_S, subseteq_size. intros j. rewrite !elem_of_dom, Hlook.
      case_decide; [by intros []|]. by rewrite fmap_is_Some. }
    rewrite (chain_restrict _ (snapshots t) _ L) in Hc1; [| |  |done].
    + rewrite Hc in Hc1. by simplify_eq/=.
    + done.
    + intros x sx HxL Hx0 Hx HpL. apply HxL, prunable_elem.
      apply prunable_elem in HpL as (_ & Hpk & _). split_and!; [done| |by rewrite Hx].
      intros Hxk. apply Hpk. rewrite (mark_all_keep _ _ _ Hk) in *.
      destruct Hxk as [|(f & Hf & Ha)]; [done|]. right. exists f. split; [done|].
      clear -Ha Hx Hx0. induction Ha as [|y sy Hy Hy0 Ha IH]; [|by eapply ancestor_step].
      eapply ancestor_step; [done|done|constructor].
Qed.

Lemma PathHash_merkle_witness :
  ∃ s, (∃ h, PathHash t4 4 99 = Some h) ∧
    (4 ≠ RootID → PathHash t4 4 99 = (λ h, hash_mix h s) <$> PathHash t4 (s_ParentID s) 99) ∧
    (∀ deleted t', Prune t4 [4] = Some (deleted, t') →
       is_Some (snapshots t' !! 4) → PathHash t' 4 99 = PathHash t4 4 99).
Proof.
  eexists. apply (PathHash_merkle t4 4 _ 99 [4]); [apply t4_wf|]. vm_compute. reflexivity.
Defined.

(** [PruneOldestExcept] terminates, never evicts the root or an ancestor of
    the protected node, evicts oldest nodes first, and brings the tree down to
    [maxSize] unless only protected nodes are left. *)
Theorem PruneOldestExcept_bound t currentID maxSize :
  wf t → 0 <= maxSize →
  ∃ evicted t', PruneOldestExcept t currentID maxSize = Some (map (hyp_of (snapshots t)) evicted, t') ∧
    (∀ id, is_Some (snapshots t' !! id) ↔ is_Some (snapshots t !! id) ∧ id ∉ evicted) ∧
    (∀ id, id ∈ evicted → id ≠ RootID ∧ ¬ ancestor (snapshots t) id currentID) ∧
    (∀ e id, e ∈ evicted → is_Some (snapshots t' !! id) →
       id = RootID ∨ ancestor (snapshots t) id currentID ∨ e <= id) ∧
    (Len t' <= maxSize ∨
     ∀ id, is_Some (snapshots t' !! id) → id = RootID ∨ ancestor (snapshots t) id currentID).
Proof.
  intros Hwf Hmax. pose proof (wf_map_linked _ (wf_tree _ Hwf)) as Hl.
  unfold PruneOldestExcept. destruct (Z.leb_spec (Len t) maxSize) as [Hle|Hgt].
  { exists [], t. split_and!; [done| | | |left; lia].
    - intros id. rewrite elem_of_nil. tauto.
    - by intros id ?%elem_of_nil.
    - by intros e id ?%elem_of_nil. }
  destruct (mark_one_keep (snapshots t) currentID) as (keep & -> & Hkeep). cbn [mbind option_bind].
  set (cand := prunable (snapshots t) keep). set (n := Z.to_nat _).
  assert (∀ id, id ∈ cand ↔ id ≠ RootID ∧ ¬ ancestor (snapshots t) id currentID ∧ is_Some (snapshots t !! id))
    as Hcand by (intros id; unfold cand; rewrite prunable_elem, Hkeep; naive_solver).
  assert (∀ j, is_Some (foldl remove_node (snapshots t) (take n cand) !! j) ↔
               is_Some (snapshots t !! j) ∧ j ∉ take n cand) as Hlook.
  { intros j. rewrite foldl_remove_lookup by done. case_decide; [naive_solver|].
    rewrite fmap_is_Some. tauto. }
  exists (take n cand). eexists. split_and!; [done|exact Hlook| | |].
  - intros id Hid. assert (id ∈ cand) as Hc by (by eapply elem_of_take in Hid as (? & Hi & _); apply list_elem_of_lookup_2 in Hi).
    apply Hcand in Hc. tauto.
  - intros e id He [Hid Hnt]%Hlook.
    destruct (decide (id ∈ cand)) as [Hc|Hc]; [|rewrite Hcand in Hc].
    + do 2 right. rewrite <- (take_drop n cand) in Hc. apply elem_of_app in Hc as [?|Hd]; [done|].
      by eapply sorted_take_drop; [apply prunable_sorted|..].
    + destruct (decide (id = RootID)) as [|H0]; [by left|]. right. left.
      assert (id ∈ keep) as [?|?]%Hkeep; [|done|done].
      destruct (decide (id ∈ keep)) as [|Hk]; [done|]. destruct Hc.
      split_and!; [done| |done]. intros Ha. apply Hk, Hkeep. by right.
  - destruct (Z.le_gt_cases (Len t - maxSize) (Z.of_nat (length cand))) as [Hfew|Hall].
    + left. unfold Len; simpl.
      pose proof (foldl_remove_size (snapshots t) (take n cand) Hl) as Hsz.
      rewrite length_take in Hsz. unfold Len in *.
      assert (NoDup (take n cand)) as Hnd
        by (eapply sublist_NoDup; [apply prunable_NoDup|apply sublist_take]).
      assert (∀ x, x ∈ take n cand → is_Some (snapshots t !! x)) as Hin.
      { intros x Hx. eapply elem_of_take in Hx as (? & Hi & _). apply list_elem_of_lookup_2, Hcand in Hi. tauto. }
      specialize (Hsz Hnd Hin). unfold n in *. lia.
    + right. intros id [Hid Hnt]%Hlook. rewrite take_ge in Hnt by (unfold n; lia).
      rewrite Hcand in Hnt. destruct (decide (id = RootID)) as [|H0]; [by left|right].
      assert (id ∈ keep) as [?|?]%Hkeep; [|done|done].
      destruct (decide (id ∈ keep)) as [|Hk]; [done|]. destruct Hnt.
      split_and!; [done| |done]. intros Ha. apply Hk, Hkeep. by right.
Qed.

Lemma PruneOldestExcept_bound_witness :
  ∃ evicted t', PruneOldestExcept t4 4 3 = Some (map (hyp_of (snapshots t4)) evicted, t') ∧
    (∀ id, is_Some (snapshots t' !! id) ↔ is_Some (snapshots t4 !! id) ∧ id ∉ evicted) ∧
    (∀ id, id ∈ evicted → id ≠ RootID ∧ ¬ ancestor (snapshots t4) id 4) ∧
    (∀ e id, e ∈ evicted → is_Some (snapshots t' !! id) →
       id = RootID ∨ ancestor (snapshots t4) id 4 ∨ e <= id) ∧
    (Len t' <= 3 ∨
     ∀ id, is_Some (snapshots t' !! id) → id = RootID ∨ ancestor (snapshots t4) id 4).
Proof. apply (PruneOldestExcept_bound t4 4 3); [apply t4_wf|lia]. Defined.

(** [PruneOldestExcept] breaks the tree's "no orphan snapshots" invariant:
    evicting an old interior node leaves its children behind, and [Validate]
    then fails on a tree that only the package's own operations built. *)
Theorem PruneOldestExcept_orphans :
  reachable 4 t4 ∧ Validate t4 = None ∧
  ∃ deleted t', PruneOldestExcept t4 4 4 = Some (deleted, t') ∧
    Validate t' = Some (MissingParent 3 1).
Proof.
  split; [exact t4_reachable|]. split; [vm_compute; reflexivity|].
  do 2 eexists. split; vm_compute; reflexivity.
Qed.
