(* ===== verification/SnapshotPersist.v ===== *)
(** * Saving and loading a snapshot tree

    [SaveTree] persists the never-pruned history; [LoadTree] rebuilds the map
    from it.  The file shows that what comes back from any tree the
    exploration loop can build is a valid tree that contains it. *)
From S2P Require Import Prelude Word SnapshotTree SnapshotTreeInv SnapshotTreeProps.
Local Open Scope Z_scope.

(** The history lists the nodes in order of creation, each after its parent. *)
Definition history_entry (h : list NodeInfo) (i : nat) (n : NodeInfo) : Prop :=
  n_ID n = Z.of_nat i ∧
  (i = 0%nat → n_ParentID n = RootID ∧ n_Depth n = 0) ∧
  (i ≠ 0%nat → 0 <= n_ParentID n < Z.of_nat i ∧
     ∃ p, h !! Z.to_nat (n_ParentID n) = Some p ∧ n_Depth n = n_Depth p + 1).

Record hist_ok (t : Tree) : Prop := mkHistOk {
  ho_length : Z.of_nat (length (history t)) = nextID t;
  ho_entry : ∀ i n, history t !! i = Some n → history_entry (history t) i n;
  ho_live : ∀ id s, snapshots t !! id = Some s → 0 <= id ∧ history t !! Z.to_nat id = Some (node_info s) }.

(** What [LoadTree] makes of a history entry. *)
Definition loaded (n : NodeInfo) : Snapshot :=
  mkSnapshot (n_ID n) (n_ParentID n) 0 [] (n_TimeNS n) (n_Depth n)
    (n_Coverage n) 0 (n_ICount n) (n_Faults n) 0.

(** [node_info] as [LoadTree] preserves it: everything but the fault mask. *)
Definition same_info (s s' : Snapshot) : Prop :=
  s_ID s' = s_ID s ∧ s_ParentID s' = s_ParentID s ∧ s_Depth s' = s_Depth s ∧
  s_TimeNS s' = s_TimeNS s ∧ s_Coverage s' = s_Coverage s ∧ s_ICount s' = s_ICount s ∧
  s_Faults s' = s_Faults s.

(** The children that linking the identifiers [ids] gives to node [j]. *)
Definition linked_to (m : gmap Z Snapshot) (ids : list Z) (j : Z) : list Z :=
  filter (λ c, c ≠ RootID ∧ s_ParentID <$> m !! c = Some j) ids.

(** ** The history invariant *)

Lemma history_entry_app h l i n : history_entry h i n → history_entry (h ++ l) i n.
Proof.
  intros (Hid & H0 & Hp). split_and!; [done|done|]. intros Hi.
  destruct (Hp Hi) as (? & p & Hlook & ?). split; [done|]. exists p.
  split; [|done]. by apply lookup_app_l_Some.
Qed.

Lemma hist_ok_NewTree : hist_ok NewTree.
Proof.
  split; simpl; [done| |].
  - intros [|i] n; simpl; [|done]. intros [= <-]. by split_and!.
  - intros id s [<- <-]%lookup_singleton_Some. done.
Qed.

Lemma hist_ok_Create t p h tm cov rng f mask :
  wf t → hist_ok t → nextID t < 2 ^ 32 → hist_ok (Create t p h tm cov rng f mask).2.
Proof.
  intros Hwf [Hlen Hent Hlive] Hlt. unfold Create.
  destruct (snapshots t !! p) as [parent|] eqn:Hp; [|by split].
  destruct (Hlive _ _ Hp) as [Hp0 Hhp]. destruct (wf_next _ Hwf) as [Hn1 Hn2].
  pose proof (Hn2 _ _ Hp) as Hpn.
  destruct (wm_node _ (wf_tree _ Hwf) _ _ Hp) as [_ Hdp _ _ _].
  assert (u32 (s_Depth parent + 1) = s_Depth parent + 1) as Hu by (apply wrap_small; split; lia).
  assert (length (history t) = Z.to_nat (nextID t)) as Hlen' by lia.
  split; simpl.
  - rewrite length_app. unfold add64. rewrite (wrap_small 64) by (split; lia). cbn [length]. lia.
  - intros i n [Hi|[Hi Hn]]%lookup_app_Some; [by apply history_entry_app, Hent|].
    destruct (i - length (history t))%nat eqn:E; [|done]. simplify_eq/=.
    split_and!; simpl; [lia|lia|]. intros _. split; [lia|]. exists (node_info parent).
    split; [by apply lookup_app_l_Some|]. simpl. lia.
  - intros id s. rewrite add_child_lookup by (done || lia).
    repeat case_decide; intros; simplify_eq.
    + split; [lia|]. rewrite lookup_app_r by lia. by rewrite Hlen', Nat.sub_diag.
    + split; [lia|]. apply lookup_app_l_Some. done.
    + destruct (Hlive id s) as [? ?]; [done|]. split; [done|]. by apply lookup_app_l_Some.
Qed.

Lemma reachable_hist_ok n t :
  reachable n t → Z.of_nat n < 2 ^ 32 - 1 → wf t ∧ nextID t <= 1 + Z.of_nat n ∧ hist_ok t.
Proof.
  intros Ht Hlt. destruct (reachable_wf n t Ht Hlt) as [Hwf Hnx]. split_and!; [done|done|].
  clear Hwf Hnx. induction Ht as [|n k t t' Ht IH Hstep]; [apply hist_ok_NewTree|].
  destruct (reachable_wf n t Ht ltac:(lia)) as [Hwf Hnx].
  specialize (IH ltac:(lia)). destruct Hstep as [t p h tm cov rng f mask|t id|t ids deleted t' HP].
  - apply hist_ok_Create; [done|done|lia].
  - unfold SetCurrent. by destruct (snapshots t !! id), IH.
  - destruct (Prune_spec t ids Hwf) as (keep & t'' & _ & HP' & _ & Hn & Hh & _ & Hlook).
    rewrite HP in HP'. simplify_eq. destruct IH as [Hlen Hent Hlive].
    split; rewrite ?Hh, ?Hn; [done|done|]. intros id s. rewrite Hlook. case_decide; [done|].
    intros (s0 & Hs0 & ->)%fmap_Some. by apply (Hlive id s0).
Qed.

(** ** What [LoadTree] builds *)

Lemma load_nodes_lookup h k :
  (∀ i n, h !! i = Some n → history_entry h i n) → (k ≤ length h)%nat →
  ∀ id, foldl load_node {[RootID := root_snapshot]} (take k h) !! id =
    if decide (id = RootID ∧ k = 0%nat) then Some root_snapshot
    else if decide (0 <= id < Z.of_nat k) then loaded <$> h !! Z.to_nat id else None.
Proof.
  intros Hent. induction k as [|k IH]; intros Hk id.
  { simpl. destruct (decide (id = RootID)) as [->|].
    - rewrite decide_True by done. apply lookup_singleton_eq.
    - rewrite !decide_False by lia || tauto. by apply lookup_singleton_ne. }
  destruct (lookup_lt_is_Some_2 h k ltac:(lia)) as [n Hn].
  rewrite (take_S_r _ _ _ Hn), foldl_app. simpl foldl.
  destruct (Hent _ _ Hn) as (Hid & H0 & _). rewrite (decide_False (P := id = RootID ∧ S k = 0%nat)) by lia.
  specialize (IH ltac:(lia)). unfold load_node. rewrite Hid. unfold RootID in *.
  destruct (Z.eqb_spec (Z.of_nat k) 0) as [Hk0|Hk0].
  - assert (k = 0%nat) as -> by lia. destruct (H0 eq_refl) as [Hpar Hdep].
    destruct (decide (id = 0)) as [->|Hne].
    + rewrite lookup_alter_eq, IH, decide_True, decide_True by (done || lia).
      change (Z.to_nat 0) with 0%nat. rewrite Hn. simpl. unfold loaded. by rewrite Hid, Hpar, Hdep.
    + rewrite lookup_alter_ne, IH by done. by rewrite !decide_False by lia.
  - destruct (decide (id = Z.of_nat k)) as [->|Hne].
    + rewrite lookup_insert_eq, decide_True, Nat2Z.id, Hn by lia. simpl. unfold loaded. by rewrite Hid.
    + rewrite lookup_insert_ne, IH, decide_False by (done || lia).
      destruct (decide (0 <= id < Z.of_nat k)); [by rewrite decide_True by lia|].
      by rewrite decide_False by lia.
Qed.

Lemma link_child_lookup m id j :
  link_child m id !! j =
  (λ s, set_children s (s_Children s ++ linked_to m [id] j)) <$> m !! j.
Proof.
  unfold link_child, linked_to. rewrite filter_cons, filter_nil.
  destruct (Z.eqb_spec id RootID) as [->|Hne].
  { rewrite decide_False by tauto. destruct (m !! j); simpl; [|done].
    by rewrite app_nil_r, set_children_eta. }
  destruct (m !! id) as [s|] eqn:Hid; simpl; last first.
  { rewrite decide_False by naive_solver. destruct (m !! j); simpl; [|done].
    by rewrite app_nil_r, set_children_eta. }
  destruct (m !! s_ParentID s) as [p|] eqn:Hp.
  - destruct (decide (j = s_ParentID s)) as [->|Hj].
    + by rewrite lookup_insert_eq, Hp, decide_True by done.
    + rewrite lookup_insert_ne, decide_False by (done || naive_solver).
      destruct (m !! j); simpl; [|done]. by rewrite app_nil_r, set_children_eta.
  - case_decide as Hd; [destruct Hd; simplify_eq; by rewrite Hp|].
    destruct (m !! j); simpl; [|done]. by rewrite app_nil_r, set_children_eta.
Qed.

Lemma link_children_lookup ids m j :
  foldl link_child m ids !! j =
  (λ s, set_children s (s_Children s ++ linked_to m ids j)) <$> m !! j.
Proof.
  revert m. induction ids as [|id ids IH]; intros m; simpl.
  { destruct (m !! j); simpl; [|done]. by rewrite app_nil_r, set_children_eta. }
  rewrite IH, link_child_lookup.
  assert (linked_to (link_child m id) ids j = linked_to m ids j) as ->.
  { apply filter_ext_in. intros c _. rewrite link_child_lookup. by destruct (m !! c). }
  assert (linked_to m (id :: ids) j = linked_to m [id] j ++ linked_to m ids j) as ->
    by apply (filter_app _ [id] ids).
  destruct (m !! j); simpl; [|done]. by rewrite app_assoc.
Qed.

Lemma LoadTree_lookup t j :
  wf t → hist_ok t →
  ∃ kids, NoDup kids ∧
    (∀ c, c ∈ kids ↔ c ≠ RootID ∧ 0 <= c ∧ ∃ n, history t !! Z.to_nat c = Some n ∧ n_ParentID n = j) ∧
    snapshots (LoadTree (SaveTree t)) !! j =
      if decide (0 <= j) then (λ n, set_children (loaded n) kids) <$> history t !! Z.to_nat j else None.
Proof.
  intros Hwf [Hlen Hent _]. set (h := history t) in *.
  destruct (wf_next _ Hwf) as [Hn _].
  set (snaps := foldl load_node {[RootID := root_snapshot]} h).
  assert (∀ id, snaps !! id = if decide (0 <= id) then loaded <$> h !! Z.to_nat id else None) as Hsn.
  { intros id. replace (snaps !! id) with
      (foldl load_node {[RootID := root_snapshot]} (take (length h) h) !! id)
      by (by rewrite take_ge).
    rewrite load_nodes_lookup, decide_False by (done || lia).
    repeat case_decide; try done; try lia. by rewrite lookup_ge_None_2 by lia. }
  exists (linked_to snaps (sorted_keys (dom snaps)) j). split_and!.
  - apply NoDup_filter, sorted_keys_NoDup.
  - intros c. unfold linked_to. rewrite list_elem_of_filter, elem_of_sorted_keys, elem_of_dom, Hsn.
    destruct (decide (0 <= c)); [|naive_solver].
    destruct (h !! Z.to_nat c) as [n|] eqn:Hc; simpl; naive_solver.
  - unfold LoadTree, SaveTree. simpl. fold h snaps. rewrite link_children_lookup, Hsn.
    case_decide; [|done]. destruct (h !! Z.to_nat j); done.
Qed.

Lemma LoadTree_wf t : wf t → hist_ok t → wf (LoadTree (SaveTree t)).
Proof.
  intros Hwf Hh. pose proof Hh as [Hlen Hent Hlive]. destruct (wf_next _ Hwf) as [Hn _].
  assert (∃ r, snapshots (LoadTree (SaveTree t)) !! RootID = Some r ∧
               s_ParentID r = RootID ∧ s_Depth r = 0) as Hroot.
  { destruct (LoadTree_lookup t RootID Hwf Hh) as (kids & _ & _ & Hl).
    destruct (lookup_lt_is_Some_2 (history t) 0) as [n Hn0]; [lia|].
    destruct (Hent _ _ Hn0) as (_ & H0 & _). destruct (H0 eq_refl).
    rewrite Hl. simpl. change (Z.to_nat RootID) with 0%nat. rewrite Hn0.
    eexists. split_and!; done. }
  split; [split; [done|]| |].
  - intros id s Hs. destruct (LoadTree_lookup t id Hwf Hh) as (kids & Hnd & Hkids & Hl).
    rewrite Hl in Hs. case_decide as Hid; [|done]. apply fmap_Some in Hs as (n & Hln & ->).
    destruct (Hent _ _ Hln) as (Hnid & Hn0 & Hnp). unfold RootID in *.
    split; cbn [s_ID s_Depth s_ParentID s_Children set_children loaded].
    + lia.
    + assert (∀ k i n, (i < k)%nat → history t !! i = Some n → 0 <= n_Depth n <= Z.of_nat i) as Hdep.
      { clear -Hent. induction k as [|k IH]; intros i n Hi Hn; [lia|].
        destruct (Hent _ _ Hn) as (_ & H0 & Hp). destruct (decide (i = 0%nat)) as [->|Hne].
        { destruct (H0 eq_refl). lia. }
        destruct (Hp Hne) as (Hlt & p & Hpp & Hd). specialize (IH _ _ (ltac:(lia) : (Z.to_nat (n_ParentID n) < k)%nat) Hpp). lia. }
      specialize (Hdep (S (Z.to_nat id)) _ _ (Nat.lt_succ_diag_r _) Hln). lia.
    + intros H0. unfold RootID in H0. destruct Hnp as (Hlt & p & Hpp & Hd); [lia|]. split; [lia|].
      destruct (LoadTree_lookup t (n_ParentID n) Hwf Hh) as (pk & _ & Hpk & Hpl).
      rewrite Hpl, decide_True, Hpp by lia. simpl. eexists. split_and!; [done|done|].
      simpl. apply Hpk. unfold RootID. eauto.
    + intros c (Hc0 & Hc & nc & Hnc & Hpar)%Hkids.
      destruct (LoadTree_lookup t c Hwf Hh) as (ck & _ & _ & Hcl).
      rewrite Hcl, decide_True, Hnc by done. simpl. eexists. split_and!; done.
    + done.
  - apply reset_current_Some. destruct Hroot as (r & Hr & _). by exists r.
  - split; [done|]. intros id s. destruct (LoadTree_lookup t id Hwf Hh) as (kids & _ & _ & ->).
    case_decide; [|done]. intros (n & Hnl%lookup_lt_Some & _)%fmap_Some. simpl. lia.
Qed.

(** ** Properties *)

(** C22: Saving any tree the exploration loop can build and loading it back
    gives a tree that passes [Validate], keeps the history and the ID counter,
    has exactly the nodes ever created, and contains every live node with its
    links, depth, time, coverage and fault count, children included; the
    current node is restored when it is live, which it always is. *)
Theorem LoadTree_SaveTree n t :
  reachable n t → Z.of_nat n < 2 ^ 32 - 1 →
  let t' := LoadTree (SaveTree t) in
  Validate t' = None ∧ history t' = history t ∧ nextID t' = nextID t ∧ current t' = current t ∧
  (∀ id, is_Some (snapshots t' !! id) ↔ 0 <= id < nextID t) ∧
  (∀ id s, snapshots t !! id = Some s →
     ∃ s', snapshots t' !! id = Some s' ∧ same_info s s' ∧
           ∀ c, c ∈ s_Children s → c ∈ s_Children s').
Proof.
  intros Ht Hlt t'. destruct (reachable_hist_ok n t Ht Hlt) as (Hwf & _ & Hh).
  pose proof (LoadTree_wf t Hwf Hh) as Hwf'. pose proof Hh as [Hlen _ Hlive].
  assert (∀ id, is_Some (snapshots t' !! id) ↔ 0 <= id < nextID t) as Hdom.
  { intros id. destruct (LoadTree_lookup t id Hwf Hh) as (kids & _ & _ & Hl).
    unfold t'. rewrite Hl. case_decide; [|split; [by intros []|lia]].
    rewrite fmap_is_Some, lookup_lt_is_Some. lia. }
  split_and!; [by apply Validate_valid, wf_valid|done|done| |done|].
  - simpl. unfold reset_current. destruct (wf_current _ Hwf) as [sc Hsc].
    assert (is_Some (snapshots t' !! current t)) as [s' Hs'].
    { apply Hdom. destruct (Hlive _ _ Hsc). destruct (wf_next _ Hwf) as [_ Hn]. eauto. }
    unfold t', LoadTree, SaveTree in Hs'. simpl in Hs'. by rewrite Hs'.
  - intros id s Hs. destruct (Hlive _ _ Hs) as [Hid0 Hhist].
    destruct (LoadTree_lookup t id Hwf Hh) as (kids & _ & Hkids & Hl).
    unfold t'. rewrite Hl, decide_True, Hhist by done. simpl. eexists. split; [done|].
    split; [by split_and!|]. simpl. intros c Hc. apply Hkids.
    destruct (wn_children _ _ _ (wm_node _ (wf_tree _ Hwf) _ _ Hs) c Hc) as (cs & Hcs & Hp & H0).
    destruct (Hlive _ _ Hcs). split_and!; [done|done|]. eauto.
Qed.

Lemma LoadTree_SaveTree_witness :
  let t' := LoadTree (SaveTree t4) in
  Validate t' = None ∧ history t' = history t4 ∧ nextID t' = nextID t4 ∧ current t' = current t4 ∧
  (∀ id, is_Some (snapshots t' !! id) ↔ 0 <= id < nextID t4) ∧
  (∀ id s, snapshots t4 !! id = Some s →
     ∃ s', snapshots t' !! id = Some s' ∧ same_info s s' ∧
           ∀ c, c ∈ s_Children s → c ∈ s_Children s').
Proof. apply (LoadTree_SaveTree 4 t4); [exact t4_reachable|reflexivity]. Defined.

(** What is lost: the fault-kind mask is in the file but not read back. *)
Example LoadTree_drops_mask :
  (s_FaultKindMask <$> snapshots t4 !! 4) = Some 3 ∧
  (s_FaultKindMask <$> snapshots (LoadTree (SaveTree t4)) !! 4) = Some 0.
Proof. split; vm_compute; reflexivity. Qed.
