(* ===== verification/Frontier.v ===== *)
(** * The exploration frontier ([internal/explorer/frontier.go])

    A max-heap of candidate snapshots on top of [Heap].  Entries are pointers
    in the source, owned by the frontier while they are in it; the model holds
    the values, the heap index included. *)
From S2P Require Import Prelude Word Float Heap.
Local Open Scope Z_scope.

Record FrontierEntry := mkEntry {
  SnapshotID : Z; Score : float64; Depth : Z; NewEdges : Z;
  NoveltyScore : float64; RarityScore : float64; SometimesBoost : float64;
  Energy : Z; CreatedAtStep : Z; PathHash : Z; FaultKindMask : Z;
  ReachableBoost : float64; SaturationScore : float64; RecentNewEdges : Z;
  ActiveFaultKind : string; GlobalSaturation : float64; FaultActiveEvalScore : float64;
  index : Z }.

Definition set_index (i : Z) (e : FrontierEntry) : FrontierEntry :=
  mkEntry (SnapshotID e) (Score e) (Depth e) (NewEdges e) (NoveltyScore e)
    (RarityScore e) (SometimesBoost e) (Energy e) (CreatedAtStep e) (PathHash e)
    (FaultKindMask e) (ReachableBoost e) (SaturationScore e) (RecentNewEdges e)
    (ActiveFaultKind e) (GlobalSaturation e) (FaultActiveEvalScore e) i.

Definition set_score (s : float64) (e : FrontierEntry) : FrontierEntry :=
  mkEntry (SnapshotID e) s (Depth e) (NewEdges e) (NoveltyScore e)
    (RarityScore e) (SometimesBoost e) (Energy e) (CreatedAtStep e) (PathHash e)
    (FaultKindMask e) (ReachableBoost e) (SaturationScore e) (RecentNewEdges e)
    (ActiveFaultKind e) (GlobalSaturation e) (FaultActiveEvalScore e) (index e).

(** [frontierHeap.Less]: descending score, then ascending identifier. *)
Definition entry_less (a b : FrontierEntry) : bool :=
  if fne (Score a) (Score b) then fgt (Score a) (Score b)
  else SnapshotID a <? SnapshotID b.

#[global] Instance FrontierEntry_heap : HeapElem FrontierEntry :=
  {| less := entry_less; place := set_index |}.

Abbreviation Frontier := (list FrontierEntry).

Definition NewFrontier : Frontier := hinit [].

Definition Push (f : Frontier) (e : FrontierEntry) : Frontier := hpush e f.

Definition Pop (f : Frontier) : option (FrontierEntry * Frontier) := hpop f.

Definition Peek (f : Frontier) : option FrontierEntry := head f.

Definition Len (f : Frontier) : Z := Z.of_nat (length f).

Definition IDs (f : Frontier) : list Z := map SnapshotID f.

(** [Trim]'s comparison function, as the strict order it induces. *)
Definition trim_less (a b : FrontierEntry) : bool :=
  if fgt (Score a) (Score b) then true
  else if flt (Score a) (Score b) then false
  else SnapshotID a <? SnapshotID b.

(** [n] is not negative: the source would slice out of range. *)
Definition Trim (f : Frontier) (n : nat) : list Z * Frontier :=
  if (length f <=? n)%nat then ([], f)
  else
    let all := sort_by trim_less f in
    (map SnapshotID (drop n all),
     hinit (imap (λ i e, set_index (Z.of_nat i) e) (take n all))).

(** An entry whose score is a number. *)
Definition scored (e : FrontierEntry) : Prop := is_nan (Score e) = false.

Definition frontier_ok (f : Frontier) : Prop := heap f ∧ indexed f ∧ Forall scored f.

(** Popping until the frontier is empty. *)
Fixpoint drain (fuel : nat) (f : Frontier) : list FrontierEntry :=
  match fuel with
  | O => []
  | S fuel => match Pop f with
              | None => []
              | Some (e, f') => e :: drain fuel f'
              end
  end.

Definition push_all (f : Frontier) (es : list FrontierEntry) : Frontier := foldl Push f es.

(** An abstract priority queue: a multiset of entries from which a top one is
    removed.  [queue_step] is what each operation may do to it. *)
Inductive queue_op := OpPush (e : FrontierEntry) | OpPop (r : option FrontierEntry)
  | OpTrim (n : nat) (dropped : list Z).

Inductive queue_step : list FrontierEntry → queue_op → list FrontierEntry → Prop :=
| queue_push q e q' : scored e → q' ≡ₚ set_index (-1) e :: q → queue_step q (OpPush e) q'
| queue_pop_empty : queue_step [] (OpPop None) []
| queue_pop q e q' : q ≡ₚ e :: q' → (∀ x, x ∈ q' → under e x) → queue_step q (OpPop (Some e)) q'
| queue_trim_all q n : (length q ≤ n)%nat → queue_step q (OpTrim n []) q
| queue_trim q n kept out : q ≡ₚ kept ++ out → length kept = n → (n < length q)%nat →
    (∀ x y, x ∈ kept → y ∈ out → under x y) → StronglySorted under out →
    queue_step q (OpTrim n (map SnapshotID out)) kept.

(** One operation, with what it returned. *)
Definition run_op (f : Frontier) (op : queue_op) : queue_op * Frontier :=
  match op with
  | OpPush e => (OpPush e, Push f e)
  | OpPop _ => match Pop f with Some (e, f') => (OpPop (Some e), f') | None => (OpPop None, f) end
  | OpTrim n _ => (OpTrim n (Trim f n).1, (Trim f n).2)
  end.

Definition demo (id : Z) (score : float64) : FrontierEntry :=
  mkEntry id score 1 0 fzero fzero fzero 0 0 0 0 fzero fzero 0 "" fzero fzero 0.

(** ** The order *)

Lemma fne_flt x y : is_nan x = false → is_nan y = false → fne x y = flt x y || flt y x.
Proof. intros. unfold fne. rewrite feq_flt by done. by destruct (flt x y), (flt y x). Qed.

Lemma entry_less_spec a b : scored a → scored b →
  entry_less a b = true ↔
  flt (Score b) (Score a) = true ∨
  (flt (Score a) (Score b) = false ∧ flt (Score b) (Score a) = false ∧ SnapshotID a < SnapshotID b).
Proof.
  intros Ha Hb. unfold entry_less. rewrite fne_flt by done. unfold fgt.
  destruct (flt (Score a) (Score b)) eqn:Eab, (flt (Score b) (Score a)) eqn:Eba; simpl;
    rewrite ?Z.ltb_lt; naive_solver.
Qed.

Lemma trim_less_entry_less a b : trim_less a b = entry_less a b ∨ ¬ scored a ∨ ¬ scored b.
Proof.
  destruct (is_nan (Score a)) eqn:Ha; [right; left; unfold scored; congruence|].
  destruct (is_nan (Score b)) eqn:Hb; [do 2 right; unfold scored; congruence|]. left.
  unfold trim_less, entry_less. rewrite fne_flt by done. unfold fgt.
  destruct (flt (Score b) (Score a)) eqn:E1, (flt (Score a) (Score b)) eqn:E2; simpl; try done.
Qed.

Lemma entry_less_scored a b : entry_less a b = true → scored a ∧ scored b.
Proof.
  unfold entry_less, scored, fne, fgt. destruct (feq (Score a) (Score b)) eqn:E; simpl.
  - intros _. destruct (Score a) as [[]|[]| |[]], (Score b) as [[]|[]| |[]]; done.
  - intros H%flt_not_nan. naive_solver.
Qed.

#[global] Instance FrontierEntry_laws : HeapLaws FrontierEntry scored.
Proof.
  split; simpl; try done.
  - intros x. destruct (entry_less x x) eqn:E; [|done].
    destruct (entry_less_scored _ _ E) as [Hx _].
    apply entry_less_spec in E; [|done..]. rewrite flt_irrefl in E. destruct E as [|(_ & _ & ?)]; [done|lia].
  - intros x y z Hxy Hyz. destruct (entry_less_scored _ _ Hxy) as [Hx Hy].
    destruct (entry_less_scored _ _ Hyz) as [_ Hz].
    rewrite entry_less_spec in * by done. rewrite <- !not_true_iff_false in *.
    rewrite !flt_lex, !lex3_lt in * by done. lia.
  - intros x y z Hx Hy Hz. rewrite !entry_less_spec by done. rewrite <- !not_true_iff_false.
    rewrite !flt_lex, !lex3_lt by done. lia.
Qed.

Lemma sorted_trim f : Forall scored f → StronglySorted under (sort_by trim_less f).
Proof.
  intros Hf. assert (sort_by trim_less f = sort_by entry_less f) as ->.
  { induction Hf as [|x l Hx Hl IH]; [done|]. simpl. rewrite IH.
    assert (Forall scored (sort_by entry_less l)) as Hs by (by rewrite sort_by_Permutation).
    clear IH. induction Hs as [|y l' Hy Hs IH]; [done|]. simpl.
    destruct (trim_less_entry_less y x) as [->|[?|?]]; [|done..]. by rewrite IH. }
  apply (sort_by_sorted entry_less scored); [| |done].
  - intros x y. exact (less_asym scored x y).
  - intros x y z. exact (under_trans scored x y z).
Qed.

(** Two scored entries of which neither is better have the same identifier. *)
Lemma under_antisymm x y : scored x → scored y → under x y → under y x → SnapshotID x = SnapshotID y.
Proof.
  unfold under. simpl. intros Hx Hy. rewrite <- !not_true_iff_false, !entry_less_spec by done.
  rewrite <- !not_true_iff_false, !flt_lex, !lex3_lt by done. lia.
Qed.

Lemma scored_place i x : scored (set_index i x) ↔ scored x.
Proof. done. Qed.

Lemma contents_scored f : Forall scored (contents f) ↔ Forall scored f.
Proof. unfold contents. rewrite Forall_fmap. by apply Forall_iff. Qed.

Lemma under_contents (e : FrontierEntry) f : (∀ x, x ∈ f → under e x) → ∀ x, x ∈ contents f → under e x.
Proof.
  intros H x (y & -> & Hy)%list_elem_of_fmap. by apply (under_place_r scored), H.
Qed.

Lemma frontier_ok_nil : frontier_ok [].
Proof. split_and!; [intros c Hc; simpl in Hc; lia|by intros i x|constructor]. Qed.

Lemma Push_ok f e : frontier_ok f → scored e →
  frontier_ok (Push f e) ∧ contents (Push f e) ≡ₚ set_index (-1) e :: contents f.
Proof.
  intros (Hh & Hi & Hg) He. destruct (hpush_spec scored f e Hh Hg He) as (H1 & H2 & H3 & H4).
  unfold frontier_ok. auto.
Qed.

Lemma Pop_ok f : frontier_ok f → f ≠ [] →
  ∃ e f', Pop f = Some (e, f') ∧ frontier_ok f' ∧ scored e ∧
    contents f ≡ₚ e :: contents f' ∧ ∀ x, x ∈ contents f' → under e x.
Proof.
  intros (Hh & Hi & Hg) Hne.
  destruct (hpop_spec scored f Hh Hg Hne) as (e & r & H1 & H2 & H3 & H4 & H5 & H6 & H7).
  exists e, r. unfold frontier_ok. split_and!; auto. by apply under_contents.
Qed.

(** What [Push] and [Pop] do to the contents, without any hypothesis. *)
Lemma Push_contents f e : contents (Push f e) ≡ₚ set_index (-1) e :: contents f.
Proof. exact (hpush_contents scored e f). Qed.

Lemma Pop_None f : Pop f = None → f = [].
Proof. exact (hpop_None scored f). Qed.

Lemma Pop_contents f e f' : Pop f = Some (e, f') → contents f ≡ₚ e :: contents f'.
Proof. exact (hpop_contents scored f e f'). Qed.

Lemma contents_length (f : Frontier) : length (contents f) = length f.
Proof. apply length_fmap. Qed.

Lemma contents_IDs f : map SnapshotID (contents f) = IDs f.
Proof. unfold contents, IDs. rewrite map_map. done. Qed.

Lemma contents_IDs_perm f en f' :
  contents f ≡ₚ en :: contents f' → IDs f ≡ₚ SnapshotID en :: IDs f'.
Proof.
  intros Hp. rewrite <- (contents_IDs f), <- (contents_IDs f').
  exact (Permutation_map SnapshotID Hp).
Qed.

Lemma Push_IDs_perm f en : IDs (Push f en) ≡ₚ SnapshotID en :: IDs f.
Proof.
  rewrite <- (contents_IDs (Push f en)), <- (contents_IDs f).
  exact (Permutation_map SnapshotID (Push_contents f en)).
Qed.

Lemma Push_length f en : length (Push f en) = S (length f).
Proof.
  rewrite <- (contents_length (Push f en)), <- (contents_length f).
  exact (Permutation_length (Push_contents f en)).
Qed.

Lemma imap_index_contents l : contents (imap (λ i e, set_index (Z.of_nat i) e) l) = contents l.
Proof. unfold contents. rewrite fmap_imap. apply list_eq. intros i. by rewrite list_lookup_imap, list_lookup_fmap. Qed.

Lemma imap_index_indexed l : indexed (imap (λ i e, set_index (Z.of_nat i) e) l).
Proof. intros i x Hx. rewrite list_lookup_imap in Hx. by apply fmap_Some in Hx as (y & _ & ->). Qed.

Lemma StronglySorted_fmap_index l : StronglySorted under l → StronglySorted under (contents l).
Proof.
  induction 1 as [|x l Hl IH Hx]; [constructor|]. simpl. constructor; [done|].
  rewrite Forall_forall in *. intros y Hy. change (under (place (-1) x) y). rewrite (under_place_l scored). by apply (under_contents x l).
Qed.

Lemma Trim_ok f n : frontier_ok f →
  frontier_ok (Trim f n).2 ∧ queue_step (contents f) (OpTrim n (Trim f n).1) (contents (Trim f n).2).
Proof.
  intros Hf. pose proof Hf as (Hh & Hi & Hg). unfold Trim.
  destruct (Nat.leb_spec (length f) n) as [Hle|Hgt]; simpl.
  { split; [done|]. constructor. unfold contents. by rewrite length_fmap. }
  set (all := sort_by trim_less f). assert (Hall : all ≡ₚ f) by apply sort_by_Permutation.
  assert (Forall scored all) as Hga by (by rewrite Hall).
  set (kept := imap _ (take n all)).
  assert (Forall scored kept) as Hk.
  { apply contents_scored. unfold kept. rewrite imap_index_contents. by apply contents_scored, Forall_take. }
  destruct (hinit_spec scored kept Hk) as (H1 & H2 & H3). split.
  - split_and!; [done|by apply H3, imap_index_indexed|]. rewrite <- contents_scored, H2. by apply contents_scored.
  - replace (map SnapshotID (drop n all)) with (map SnapshotID (contents (drop n all)))
      by (unfold contents; rewrite <- list_fmap_compose; done).
    pose proof (sorted_trim f Hg) as Hs. fold all in Hs. pose proof (StronglySorted_fmap_index _ Hs) as Hs'.
    assert (contents all = contents (take n all) ++ contents (drop n all)) as Hsplit.
    { unfold contents. by rewrite <- fmap_app, take_drop. }
    rewrite Hsplit in Hs'. assert (contents (hinit kept) ≡ₚ contents (take n all)) as Hkeep.
    { rewrite H2. unfold kept. by rewrite imap_index_contents. }
    constructor.
    + rewrite Hkeep, <- Hsplit. unfold contents. by rewrite Hall.
    + rewrite Hkeep. unfold contents. rewrite length_fmap, length_take, Hall. lia.
    + unfold contents. rewrite length_fmap. lia.
    + intros x y Hx Hy. rewrite Hkeep in Hx. by eapply StronglySorted_app_1_elem_of.
    + by eapply StronglySorted_app_1_r.
Qed.

Lemma drain_spec fuel f : frontier_ok f → (length f ≤ fuel)%nat →
  drain fuel f ≡ₚ contents f ∧ StronglySorted under (drain fuel f).
Proof.
  revert f. induction fuel as [|fuel IH]; intros f Hf Hl.
  { destruct f; simpl in *; [by repeat constructor|lia]. }
  simpl. destruct (decide (f = [])) as [->|Hne]; [by repeat constructor|].
  destruct (Pop_ok f Hf Hne) as (e & f' & -> & Hf' & He & Hc & Hu).
  assert (length f = S (length f')) as Hlen.
  { apply Permutation_length in Hc. unfold contents in Hc. simpl in Hc. by rewrite !length_fmap in Hc. }
  destruct (IH f' Hf' ltac:(lia)) as [Hp Hs]. split; [by rewrite Hp, Hc|].
  constructor; [done|]. rewrite Hp, Forall_forall. done.
Qed.

Lemma push_all_spec es : ∀ f, frontier_ok f → Forall scored es →
  frontier_ok (push_all f es) ∧ contents (push_all f es) ≡ₚ contents es ++ contents f.
Proof.
  induction es as [|e es IH]; intros f Hf Hes; simpl; [done|].
  apply Forall_cons in Hes as [He Hes]. destruct (Push_ok f e Hf He) as [H1 H2].
  destruct (IH (Push f e) H1 Hes) as [H3 H4]. split; [done|]. rewrite H4, H2. simpl. by rewrite Permutation_middle.
Qed.

(** C23: The frontier implements an abstract priority queue.  From a frontier
    whose slice is a heap with right indices and no NaN score, [Push], [Pop]
    and [Trim] keep that invariant, and on the multiset of entries each does
    what a priority queue may do: [Push] adds the entry, [Pop] removes one that
    no other entry beats (or nil exactly when empty), [Trim] keeps n entries
    none of which is beaten by a dropped one and returns the dropped
    identifiers best first. *)
Theorem Frontier_refines_queue (f : Frontier) (op : queue_op)
    (Hf : frontier_ok f) (Hop : match op with OpPush e => scored e | _ => True end) :
  frontier_ok (run_op f op).2 ∧
  queue_step (contents f) (run_op f op).1 (contents (run_op f op).2).
Proof.
  destruct op as [e|r|n out]; simpl.
  - destruct (Push_ok f e Hf Hop) as [H1 H2]. split; [done|]. by constructor.
  - destruct (decide (f = [])) as [->|Hne]; [split; [done|constructor]|].
    destruct (Pop_ok f Hf Hne) as (e & f' & -> & H1 & H2 & H3 & H4). split; [done|]. by constructor.
  - by apply Trim_ok.
Qed.

(** Exploration order does not depend on insertion order.  Entries with
    distinct snapshot IDs and no NaN score, pushed in any two orders onto an
    empty frontier, are popped in one and the same order, best score first and
    ties by ascending snapshot ID. *)
Theorem drain_deterministic (es1 es2 : list FrontierEntry)
    (Hp : es1 ≡ₚ es2) (Hs : Forall scored es1) (Hd : NoDup (map SnapshotID es1)) :
  drain (length es1) (push_all NewFrontier es1) = drain (length es1) (push_all NewFrontier es2) ∧
  drain (length es1) (push_all NewFrontier es1) ≡ₚ map (set_index (-1)) es1 ∧
  StronglySorted under (drain (length es1) (push_all NewFrontier es1)).
Proof.
  assert (∀ es, es ≡ₚ es1 → drain (length es1) (push_all NewFrontier es) ≡ₚ contents es1 ∧
    StronglySorted under (drain (length es1) (push_all NewFrontier es))) as Hdrain.
  { intros es He. destruct (push_all_spec es NewFrontier frontier_ok_nil) as [Hok Hc]; [by rewrite He|].
    unfold contents at 3 in Hc. simpl in Hc. rewrite app_nil_r in Hc.
    assert (contents es ≡ₚ contents es1) as Hce by (unfold contents; by rewrite He).
    destruct (drain_spec (length es1) _ Hok) as [H1 H2].
    { apply Permutation_length in Hc. unfold contents in Hc. rewrite !length_fmap in Hc. rewrite Hc, He. done. }
    split; [|done]. by rewrite H1, Hc. }
  destruct (Hdrain es1) as [H1 H2]; [done|]. destruct (Hdrain es2) as [H3 H4]; [done|].
  split_and!; [|done|done].
  apply (StronglySorted_unique_strong under); [|done|done|by rewrite H1, H3].
  intros x y Hx Hy Hxy Hyx. rewrite H1 in Hx. rewrite H3 in Hy.
  apply list_elem_of_fmap in Hx as (x' & -> & Hx), Hy as (y' & -> & Hy). f_equal.
  rewrite Forall_forall in Hs.
  pose proof (under_antisymm _ _ (Hs x' Hx) (Hs y' Hy) Hxy Hyx) as Heq. simpl in Heq.
  apply list_elem_of_lookup in Hx as [i Hi], Hy as [j Hj].
  enough (i = j) by (subst; congruence). eapply (NoDup_lookup (map SnapshotID es1)); [done| |].
  - by rewrite list_lookup_fmap, Hi.
  - rewrite list_lookup_fmap, Hj. simpl. by rewrite Heq.
Qed.

Lemma Frontier_refines_queue_witness :
  let f := push_all NewFrontier [demo 1 fone; demo 2 fzero; demo 3 fone] in
  frontier_ok f ∧ queue_step (contents f) (run_op f (OpPop None)).1 (contents (run_op f (OpPop None)).2) ∧
  match (run_op f (OpPop None)).1 with OpPop (Some e) => SnapshotID e = 1 | _ => False end.
Proof.
  intros f. assert (frontier_ok f) as Hf.
  { apply push_all_spec; [apply frontier_ok_nil|]. repeat constructor. }
  split_and!; [exact Hf|apply (Frontier_refines_queue f (OpPop None) Hf I)|vm_compute; reflexivity].
Defined.

Lemma drain_deterministic_witness :
  map SnapshotID (drain 3 (push_all NewFrontier [demo 2 fzero; demo 3 fone; demo 1 fone])) = [1; 3; 2].
Proof.
  assert ([demo 1 fone; demo 2 fzero; demo 3 fone] ≡ₚ [demo 2 fzero; demo 3 fone; demo 1 fone]) as Hp.
  { rewrite (Permutation_cons_append [demo 2 fzero; demo 3 fone]). reflexivity. }
  destruct (drain_deterministic _ _ Hp ltac:(repeat constructor)) as (E & _).
  { simpl. repeat (constructor; [rewrite ?elem_of_cons, elem_of_nil; lia|]). constructor. }
  change 3%nat with (length [demo 1 fone; demo 2 fzero; demo 3 fone]). rewrite <- E.
  vm_compute. reflexivity.
Defined.
