(* ===== verification/Coverage.v ===== *)
(** * The coverage tracker ([internal/explorer/coverage.go], [corpus.go])

    The AFL-style bitmap with its virgin map and edge frequencies, the IJON max
    map, the assertion novelty set and the per-step counters.  The mutex is
    left out: each method is one atomic step.  A Go [map] is a [gmap] or a
    [gset]; a byte is an integer in range. *)
From S2P Require Import Prelude Word Float.
From stdpp Require Import strings.
Local Open Scope Z_scope.

Definition defaultCoverageMapSize : Z := Z.shiftl 1 16.

Record CoverageTracker := mkTracker {
  mapSize : Z; bitmap : list Z; virgin : list Z; totalEdges : Z; newEdges : Z;
  edgeHits : list Z; maxMap : gmap string Z; seenAsserts : gset string;
  assertionNoveltyCount : Z; corpusEdges : Z;
  stepNewMax : Z; stepNewExplore : Z; stepNewAsserts : Z; stepEdgeRarity : float64 }.

Record FaultArmRecord := mkArmRecord {
  Kind : string; Pulls : Z; AvgReward : float64; BaseRate : float64 }.

Record Corpus := mkCorpus {
  Version : Z; Bitmap : list Z; cTotalEdges : Z; MaxMap : gmap string Z;
  SeenAsserts : list string; SometimesSatisfied : list string; CorpusEdges : Z;
  FaultArms : list FaultArmRecord }.

(** Assignments to the groups of fields that the methods write together. *)
Definition set_maps (c : CoverageTracker) (bm vg eh : list Z) (te ne : Z) : CoverageTracker :=
  mkTracker (mapSize c) bm vg te ne eh (maxMap c) (seenAsserts c)
    (assertionNoveltyCount c) (corpusEdges c)
    (stepNewMax c) (stepNewExplore c) (stepNewAsserts c) (stepEdgeRarity c).

Definition set_step (c : CoverageTracker) (m e a : Z) (r : float64) : CoverageTracker :=
  mkTracker (mapSize c) (bitmap c) (virgin c) (totalEdges c) (newEdges c) (edgeHits c)
    (maxMap c) (seenAsserts c) (assertionNoveltyCount c) (corpusEdges c) m e a r.

Definition set_known (c : CoverageTracker) (mm : gmap string Z) (sa : gset string)
    (n ce : Z) : CoverageTracker :=
  mkTracker (mapSize c) (bitmap c) (virgin c) (totalEdges c) (newEdges c) (edgeHits c)
    mm sa n ce (stepNewMax c) (stepNewExplore c) (stepNewAsserts c) (stepEdgeRarity c).

(** The variadic [size]: its first element, if there is one. *)
Definition NewCoverageTracker (size : option Z) : CoverageTracker :=
  let n := match size with
           | Some s => if 0 <? s then s else defaultCoverageMapSize
           | None => defaultCoverageMapSize
           end in
  mkTracker n (replicate (Z.to_nat n) 0) (replicate (Z.to_nat n) 255) 0 0
    (replicate (Z.to_nat n) 0) ∅ ∅ 0 0 0 0 0 fzero.

(** [l[i]]; every use has [i] in range. *)
Definition slot (l : list Z) (i : nat) : Z := default 0 (l !! i).

Definition hitBucket (count : Z) : Z :=
  if count =? 0 then 0
  else if count =? 1 then 1
  else if count =? 2 then 2
  else if count =? 3 then 3
  else if count <=? 7 then 4
  else if count <=? 15 then 5
  else if count <=? 31 then 6
  else if count <=? 127 then 7
  else 8.

(** [uint16] sum of two bytes, saturated at 255. *)
Definition saturating_add (old v : Z) : Z :=
  let sum := u16 (old + v) in if 255 <? sum then 255 else u8 sum.

(** The body of [Update]'s loop for a nonzero [v]. *)
Definition update_edge (i : nat) (v : Z) (c : CoverageTracker) : CoverageTracker * bool :=
  let old := slot (bitmap c) i in
  let te := if old =? 0 then add64 (totalEdges c) 1 else totalEdges c in
  let now := saturating_add old v in
  let hits := u32 (slot (edgeHits c) i + 1) in
  let c' := set_maps c (<[i := now]> (bitmap c)) (virgin c) (<[i := hits]> (edgeHits c)) te (newEdges c) in
  if negb (slot (virgin c') i =? 0) && (negb (hitBucket old =? hitBucket now) || (old =? 0)) then
    let c'' := set_maps c' (bitmap c') (<[i := 0]> (virgin c')) (edgeHits c') te (add64 (newEdges c') 1) in
    (set_step c'' (stepNewMax c) (stepNewExplore c) (stepNewAsserts c)
       (fadd (stepEdgeRarity c) (fdiv fone (float_of_Z hits))), true)
  else (c', false).

Fixpoint update_loop (i : nat) (edges : list Z) (c : CoverageTracker) (foundNew : bool)
    : CoverageTracker * bool :=
  match edges with
  | [] => (c, foundNew)
  | v :: edges =>
      if mapSize c <=? Z.of_nat i then (c, foundNew)
      else if v =? 0 then update_loop (S i) edges c foundNew
      else let '(c', n) := update_edge i v c in update_loop (S i) edges c' (foundNew || n)
  end.

Definition Update (c : CoverageTracker) (edges : list Z) : CoverageTracker * bool :=
  update_loop 0 edges c false.

Definition fnvHashString (s : string) : Z := foldl fnv_step fnvOffset64 (bytes_of s).

Definition fnvHash (name : string) (value : Z) : Z :=
  foldl (λ h shift, fnv_step h (Z.land (u64 (Z.shiftr value shift)) 255))
    (fnvHashString name) [0; 8; 16; 24; 32; 40; 48; 56].

(** [v / k * k] with Go's division, for positive [v]. *)
Definition bucketInt64 (v : Z) : Z :=
  if v <=? 0 then 0
  else if v <=? 10 then v
  else if v <=? 100 then Z.quot v 10 * 10
  else if v <=? 1000 then Z.quot v 100 * 100
  else if v <=? 10000 then Z.quot v 1000 * 1000
  else Z.quot v 10000 * 10000.

(** [if c.virgin[pos] == 0xFF { ... }] for the slot a signal hashes to. *)
Definition mark_slot (h : Z) (c : CoverageTracker) : CoverageTracker * bool :=
  let pos := Z.to_nat (h mod mapSize c) in
  if slot (virgin c) pos =? 255 then
    (set_maps c (<[pos := 1]> (bitmap c)) (<[pos := 0]> (virgin c)) (edgeHits c)
       (add64 (totalEdges c) 1) (add64 (newEdges c) 1), true)
  else (c, false).

(** Counting a novel value in [stepNewExplore]. *)
Definition explored (r : CoverageTracker * bool) : CoverageTracker * bool :=
  let '(c, n) := r in
  if n then (set_step c (stepNewMax c) (stepNewExplore c + 1) (stepNewAsserts c) (stepEdgeRarity c), true)
  else (c, false).

Definition UpdateGuidance (c : CoverageTracker) (guidanceType name : string) (value : Z)
    : CoverageTracker * bool :=
  if bool_decide (guidanceType = "explore"%string) then explored (mark_slot (fnvHash name value) c)
  else if bool_decide (guidanceType = "maximize"%string) then
    match maxMap c !! name with
    | Some old =>
        if value <=? old then (c, false)
        else
          let c := set_known c (<[name := value]> (maxMap c)) (seenAsserts c) (assertionNoveltyCount c) (corpusEdges c) in
          let c := set_step c (stepNewMax c + 1) (stepNewExplore c) (stepNewAsserts c) (stepEdgeRarity c) in
          ((mark_slot (fnvHash ("max:" +:+ name) (bucketInt64 value)) c).1, true)
    | None =>
        let c := set_known c (<[name := value]> (maxMap c)) (seenAsserts c) (assertionNoveltyCount c) (corpusEdges c) in
        let c := set_step c (stepNewMax c + 1) (stepNewExplore c) (stepNewAsserts c) (stepEdgeRarity c) in
        ((mark_slot (fnvHash ("max:" +:+ name) (bucketInt64 value)) c).1, true)
    end
  else (c, false).

Definition RecordRandomBranch (c : CoverageTracker) (chosenIndex totalChoices : Z) : CoverageTracker * bool :=
  explored (mark_slot (xor64 (mul64 (u64 chosenIndex) 2654435761) (u64 totalChoices)) c).

Definition RecordAssertionNovelty (c : CoverageTracker) (key : string) : CoverageTracker * bool :=
  if bool_decide (key ∈ seenAsserts c) then (c, false)
  else
    let c := set_known c (maxMap c) ({[key]} ∪ seenAsserts c) (add64 (assertionNoveltyCount c) 1) (corpusEdges c) in
    let c := set_step c (stepNewMax c) (stepNewExplore c) (stepNewAsserts c + 1) (stepEdgeRarity c) in
    ((mark_slot (fnvHashString ("assert:" +:+ key)) c).1, true).

Definition StepNovelty (c : CoverageTracker) : Z * Z * Z :=
  (stepNewMax c, stepNewExplore c, stepNewAsserts c).

Definition AssertionNoveltyCount (c : CoverageTracker) : Z := assertionNoveltyCount c.

Definition StepEdgeRarity (c : CoverageTracker) : float64 := stepEdgeRarity c.

Definition ClearStepAssertionNovelty (c : CoverageTracker) : CoverageTracker :=
  set_step c (stepNewMax c) (stepNewExplore c) 0 (stepEdgeRarity c).

Definition ResetStepNovelty (c : CoverageTracker) : CoverageTracker := set_step c 0 0 0 fzero.

Definition ResetBitmap (c : CoverageTracker) : CoverageTracker :=
  let n := Z.to_nat (mapSize c) in
  set_step (set_maps c (replicate n 0) (replicate (length (virgin c)) 255) (replicate n 0) 0 0) 0 0 0 fzero.

Definition StepNewEdges (c : CoverageTracker) : Z :=
  Z.of_nat (count_if (λ h, h =? 1) (take (Z.to_nat (mapSize c)) (edgeHits c))).

Definition MaxMapSize (c : CoverageTracker) : Z := Z.of_nat (size (maxMap c)).

Fixpoint has_new_loop (i : nat) (edges : list Z) (c : CoverageTracker) : bool :=
  match edges with
  | [] => false
  | v :: edges =>
      if mapSize c <=? Z.of_nat i then false
      else if v =? 0 then has_new_loop (S i) edges c
      else if slot (bitmap c) i =? 0 then true
      else
        let oldBucket := hitBucket (slot (bitmap c) i) in
        let combined := u16 (slot (bitmap c) i + v) in
        let combined := if 255 <? combined then 255 else combined in
        if negb (oldBucket =? hitBucket (u8 combined)) then true
        else has_new_loop (S i) edges c
  end.

Definition HasNewEdge (c : CoverageTracker) (edges : list Z) : bool := has_new_loop 0 edges c.

Definition TotalEdges (c : CoverageTracker) : Z := totalEdges c.

Definition NewEdges (c : CoverageTracker) : Z := newEdges c.

Definition CorpusEdgeCount (c : CoverageTracker) : Z := corpusEdges c.

Definition Hash (c : CoverageTracker) : Z := foldl fnv_step fnvOffset64 (bitmap c).

(** [make] and [copy]: as many bytes as fit, zeros after them. *)
Definition Export (c : CoverageTracker) : Corpus :=
  let n := Z.to_nat (mapSize c) in
  mkCorpus 1 (take n (bitmap c ++ replicate n 0)) (totalEdges c) (maxMap c)
    (sort_by String.ltb (elements (seenAsserts c))) [] (corpusEdges c) [].

(** The body of [Import]'s first loop. *)
Definition import_edge (i : nat) (v : Z) (c : CoverageTracker) : CoverageTracker :=
  let old := slot (bitmap c) i in
  set_maps c (<[i := saturating_add old v]> (bitmap c)) (<[i := 0]> (virgin c)) (edgeHits c)
    (if old =? 0 then add64 (totalEdges c) 1 else totalEdges c) (newEdges c).

Fixpoint import_loop (i : nat) (bm : list Z) (c : CoverageTracker) : CoverageTracker :=
  match bm with
  | [] => c
  | v :: bm =>
      if mapSize c <=? Z.of_nat i then c
      else if v =? 0 then import_loop (S i) bm c
      else import_loop (S i) bm (import_edge i v c)
  end.

(** The larger of the two values of a metric. *)
Definition merge_max (old new : option Z) : option Z :=
  match old, new with
  | Some x, Some v => if x <? v then Some v else Some x
  | None, Some v => Some v
  | x, None => x
  end.

Definition Import (c : CoverageTracker) (corpus : option Corpus) : CoverageTracker :=
  match corpus with
  | None => c
  | Some k =>
      let c := import_loop 0 (Bitmap k) c in
      set_known c (merge merge_max (maxMap c) (MaxMap k))
        (list_to_set (SeenAsserts k) ∪ seenAsserts c) (assertionNoveltyCount c) (totalEdges c)
  end.

(** ** The invariant *)

Definition seen (b : Z) : bool := negb (b =? 0).

Definition virgin_of (b : Z) : Z := if b =? 0 then 255 else 0.

Definition byte (b : Z) : Prop := 0 ≤ b ≤ 255.

(** The virgin map is a function of the bitmap, the edge counter counts its
    nonzero slots, and the slices have the length of the map. *)
Definition tracker_ok (c : CoverageTracker) : Prop :=
  0 < mapSize c < 2 ^ 63 ∧ Z.of_nat (length (bitmap c)) = mapSize c ∧
  length (edgeHits c) = length (bitmap c) ∧
  Forall byte (bitmap c) ∧ virgin c = map virgin_of (bitmap c) ∧
  totalEdges c = Z.of_nat (count_if seen (bitmap c)).

Inductive op :=
| OpUpdate (edges : list Z) | OpGuidance (t name : string) (v : Z) | OpBranch (i n : Z)
| OpAssert (key : string) | OpImport (k : option Corpus) | OpResetBitmap | OpResetStep | OpClear.

Definition op_ok (o : op) : Prop :=
  match o with
  | OpUpdate es => Forall byte es
  | OpImport (Some k) => Forall byte (Bitmap k)
  | _ => True
  end.

Definition apply_op (c : CoverageTracker) (o : op) : CoverageTracker :=
  match o with
  | OpUpdate es => (Update c es).1
  | OpGuidance t name v => (UpdateGuidance c t name v).1
  | OpBranch i n => (RecordRandomBranch c i n).1
  | OpAssert key => (RecordAssertionNovelty c key).1
  | OpImport k => Import c k
  | OpResetBitmap => ResetBitmap c
  | OpResetStep => ResetStepNovelty c
  | OpClear => ClearStepAssertionNovelty c
  end.

(** Number of slots an edge vector hits for the first time. *)
Fixpoint fresh_hits (bm edges : list Z) : nat :=
  match bm, edges with
  | b :: bm, v :: edges => (if seen v && (b =? 0) then 1 else 0) + fresh_hits bm edges
  | _, _ => 0
  end.

(** Slot-wise saturated sum, the rest unchanged. *)
Fixpoint merge_hits (bm edges : list Z) : list Z :=
  match bm, edges with
  | b :: bm, v :: edges => Z.min 255 (b + v) :: merge_hits bm edges
  | bm, _ => bm
  end.

(** ** Lemmas *)

Lemma slot_lookup l i x : l !! i = Some x → slot l i = x.
Proof. unfold slot. by intros ->. Qed.

Lemma count_if_lt_length {A} (p : A → bool) l i x :
  l !! i = Some x → p x = false → (count_if p l < length l)%nat.
Proof.
  revert i. induction l as [|y l IH]; intros i Hi Hp; [done|]. simpl.
  destruct i as [|i]; simplify_eq/=.
  - rewrite Hp. pose proof (count_if_le_length p l). lia.
  - specialize (IH i Hi Hp). destruct (p y); lia.
Qed.

Lemma saturating_add_min old v : byte old → byte v → saturating_add old v = Z.min 255 (old + v).
Proof.
  unfold byte, saturating_add. intros. rewrite (wrap_small 16) by (unfold is_word; lia).
  destruct (Z.ltb_spec 255 (old + v)); [lia|]. rewrite wrap_small by (unfold is_word; lia). lia.
Qed.

Lemma ok_lengths c : tracker_ok c → length (virgin c) = length (bitmap c).
Proof. intros (_ & _ & _ & _ & -> & _). by rewrite length_map. Qed.

Lemma ok_slot c i : tracker_ok c → Z.of_nat i < mapSize c →
  ∃ b, bitmap c !! i = Some b ∧ virgin c !! i = Some (virgin_of b) ∧ byte b.
Proof.
  intros (H0 & Hl & _ & Hb & Hv & _) Hi. destruct (lookup_lt_is_Some_2 (bitmap c) i) as [b Hbi]; [lia|].
  exists b. rewrite Hv, list_lookup_fmap, Hbi. split_and!; [done|done|]. by eapply Forall_lookup_1 in Hb.
Qed.

(** Writing a nonzero count into a slot and clearing its virgin mark. *)
Lemma ok_write c c' i b s :
  tracker_ok c → bitmap c !! i = Some b → byte s → s ≠ 0 →
  mapSize c' = mapSize c → bitmap c' = <[i := s]> (bitmap c) → virgin c' = <[i := 0]> (virgin c) →
  length (edgeHits c') = length (edgeHits c) →
  totalEdges c' = (if b =? 0 then add64 (totalEdges c) 1 else totalEdges c) →
  tracker_ok c' ∧ totalEdges c' = totalEdges c + (if b =? 0 then 1 else 0).
Proof.
  intros (H0 & Hl & He & Hb & Hv & Ht) Hi Hs Hs0 Em Eb Ev Ee Et.
  assert (totalEdges c' = totalEdges c + (if b =? 0 then 1 else 0)) as Et'.
  { rewrite Et. destruct (Z.eqb_spec b 0) as [->|]; [|lia]. unfold add64. apply wrap_small.
    pose proof (count_if_lt_length seen (bitmap c) i 0 Hi eq_refl). unfold is_word. lia. }
  split; [|done]. split_and!; rewrite ?Em, ?Eb, ?Ev, ?length_insert; try lia.
  - by apply Forall_insert.
  - rewrite Hv, list_fmap_insert. f_equal. unfold virgin_of. by destruct (Z.eqb_spec s 0).
  - rewrite Et', Ht. pose proof (count_if_insert seen (bitmap c) i s b Hi) as Hc.
    assert (seen s = true) as Hss by (unfold seen; by apply Z.eqb_neq in Hs0 as ->).
    assert (seen b = negb (b =? 0)) as Hsb by done. rewrite Hss, Hsb in Hc.
    destruct (b =? 0); simpl in Hc; lia.
Qed.

Lemma ok_same_maps c c' :
  tracker_ok c → mapSize c' = mapSize c → bitmap c' = bitmap c → virgin c' = virgin c →
  edgeHits c' = edgeHits c → totalEdges c' = totalEdges c → tracker_ok c'.
Proof. unfold tracker_ok. by intros ? -> -> -> -> ->. Qed.

Lemma update_edge_spec i v c b :
  tracker_ok c → bitmap c !! i = Some b → byte v → v ≠ 0 →
  let r := update_edge i v c in
  tracker_ok r.1 ∧ mapSize r.1 = mapSize c ∧ bitmap r.1 = <[i := Z.min 255 (b + v)]> (bitmap c) ∧
  r.2 = (b =? 0) ∧ totalEdges r.1 = totalEdges c + (if b =? 0 then 1 else 0) ∧
  newEdges r.1 = (if b =? 0 then add64 (newEdges c) 1 else newEdges c).
Proof.
  intros Hok Hi Hv Hv0. pose proof Hok as (H0 & Hl & He & Hb & Hvg & Ht).
  assert (byte b) as Hbb by by eapply Forall_lookup_1 in Hb.
  assert (virgin c !! i = Some (virgin_of b)) as Hvi by (by rewrite Hvg, list_lookup_fmap, Hi).
  assert (Z.min 255 (b + v) ≠ 0 ∧ byte (Z.min 255 (b + v))) as [Hs0 Hs] by (unfold byte in *; lia).
  unfold update_edge. rewrite (slot_lookup _ _ _ Hi), saturating_add_min by done. cbn [virgin set_maps].
  rewrite (slot_lookup _ _ _ Hvi). unfold virgin_of. destruct (Z.eqb_spec b 0) as [->|Hb0]; cbn -[Z.min].
  - rewrite orb_true_r. cbn -[Z.min].
    match goal with |- tracker_ok ?c' ∧ _ =>
      destruct (ok_write c c' i 0 (Z.min 255 (0 + v)) Hok Hi Hs Hs0) as [H1 H2] end;
      [done|done|done|by simpl; rewrite length_insert|done|]. split_and!; try done.
  - match goal with |- tracker_ok ?c' ∧ _ =>
      destruct (ok_write c c' i b (Z.min 255 (b + v)) Hok Hi Hs Hs0) as [H1 H2] end.
    + done.
    + done.
    + simpl. symmetry. apply list_insert_id. rewrite Hvi. unfold virgin_of.
      by apply Z.eqb_neq in Hb0 as ->.
    + by simpl; rewrite length_insert.
    + simpl. by apply Z.eqb_neq in Hb0 as ->.
    + split_and!; try done. simpl. lia.
Qed.

(** The loops of [Update] and [Import] from a position on: the part before it
    is fixed, the part after it is merged. *)
Lemma update_loop_spec edges : ∀ i c found pre bm,
  tracker_ok c → Forall byte edges → bitmap c = pre ++ bm → length pre = i →
  let r := update_loop i edges c found in
  tracker_ok r.1 ∧ mapSize r.1 = mapSize c ∧ bitmap r.1 = pre ++ merge_hits bm edges ∧
  r.2 = found || negb (fresh_hits bm edges =? 0)%nat ∧
  totalEdges r.1 = totalEdges c + Z.of_nat (fresh_hits bm edges) ∧
  u64 (newEdges r.1) = u64 (newEdges c + Z.of_nat (fresh_hits bm edges)).
Proof.
  induction edges as [|v edges IH]; intros i c found pre bm Hok Hes Hbm Hpre.
  { simpl. assert (fresh_hits bm [] = 0%nat) as -> by (by destruct bm).
    rewrite orb_false_r. destruct bm; simpl; split_and!; auto with lia; f_equal; lia. }
  apply Forall_cons in Hes as [Hv Hes]. pose proof Hok as (H0 & Hl & _ & Hb & _ & _).
  rewrite Hbm, length_app, Hpre in Hl. simpl. destruct (Z.leb_spec (mapSize c) (Z.of_nat i)).
  { destruct bm; [|simpl in Hl; lia]. simpl.
    rewrite orb_false_r. split_and!; auto with lia; f_equal; lia. }
  destruct bm as [|b bm]; [simpl in Hl; lia|].
  assert (bitmap c !! i = Some b) as Hi by (rewrite Hbm, lookup_app_r by lia; by replace (i - length pre)%nat with 0%nat by lia).
  assert (byte b) as Hbb by by eapply Forall_lookup_1 in Hb.
  destruct (Z.eqb_spec v 0) as [->|Hv0].
  - destruct (IH (S i) c found (pre ++ [b]) bm) as (H1 & H2 & H3 & H4 & H5 & H6).
    + done.
    + done.
    + by rewrite Hbm, <- app_assoc.
    + rewrite length_app. simpl. lia.
    + cbn -[Z.min]. split_and!; [done|done|rewrite H3, <- app_assoc; simpl|done|done|done].
      do 2 f_equal. unfold byte in Hbb. lia.
  - destruct (update_edge_spec i v c b Hok Hi Hv Hv0) as (G1 & G2 & G3 & G4 & G5 & G6).
    destruct (update_edge i v c) as [c' n]. cbn [fst snd] in *.
    destruct (IH (S i) c' (found || n) (pre ++ [Z.min 255 (b + v)]) bm) as (H1 & H2 & H3 & H4 & H5 & H6).
    + done.
    + done.
    + by rewrite G3, Hbm, insert_app_r_alt, Hpre, Nat.sub_diag, <- app_assoc by lia.
    + rewrite length_app. simpl. lia.
    + assert (seen v = true) as Hsv by (unfold seen; by apply Z.eqb_neq in Hv0 as ->).
      cbn -[Z.min Z.of_nat]. rewrite Hsv. cbn -[Z.min Z.of_nat]. split_and!.
      * done.
      * congruence.
      * by rewrite H3, <- app_assoc.
      * rewrite H4, G4. by destruct (b =? 0), found, (fresh_hits bm edges).
      * rewrite H5, G5. destruct (b =? 0); lia.
      * rewrite H6, G6. destruct (b =? 0); [|f_equal; lia]. unfold add64. rewrite wrap_add_l. f_equal. lia.
Qed.

Lemma import_edge_spec i v c b :
  tracker_ok c → bitmap c !! i = Some b → byte v → v ≠ 0 →
  tracker_ok (import_edge i v c) ∧ bitmap (import_edge i v c) = <[i := Z.min 255 (b + v)]> (bitmap c).
Proof.
  intros Hok Hi Hv Hv0. pose proof Hok as (_ & _ & _ & Hb & _ & _).
  assert (byte b) as Hbb by by eapply Forall_lookup_1 in Hb.
  assert (bitmap (import_edge i v c) = <[i := Z.min 255 (b + v)]> (bitmap c)) as E.
  { unfold import_edge. simpl. by rewrite (slot_lookup _ _ _ Hi), saturating_add_min. }
  split; [|done]. apply (ok_write c (import_edge i v c) i b (Z.min 255 (b + v))); try done.
  - unfold byte in *. lia.
  - unfold byte in *. lia.
  - unfold import_edge. simpl. by rewrite (slot_lookup _ _ _ Hi).
Qed.

Lemma import_loop_spec bs : ∀ i c pre bm,
  tracker_ok c → Forall byte bs → bitmap c = pre ++ bm → length pre = i →
  tracker_ok (import_loop i bs c) ∧ bitmap (import_loop i bs c) = pre ++ merge_hits bm bs.
Proof.
  induction bs as [|v bs IH]; intros i c pre bm Hok Hes Hbm Hpre; [by destruct bm|].
  apply Forall_cons in Hes as [Hv Hes]. pose proof Hok as (H0 & Hl & _ & Hb & _ & _).
  rewrite Hbm, length_app, Hpre in Hl. simpl. destruct (Z.leb_spec (mapSize c) (Z.of_nat i)).
  { destruct bm; [done|simpl in Hl; lia]. }
  destruct bm as [|b bm]; [simpl in Hl; lia|].
  assert (bitmap c !! i = Some b) as Hi by (rewrite Hbm, lookup_app_r by lia; by replace (i - length pre)%nat with 0%nat by lia).
  assert (byte b) as Hbb by by eapply Forall_lookup_1 in Hb.
  assert (length (pre ++ [Z.min 255 (b + v)]) = S i) as Hlen by (rewrite length_app; simpl; lia).
  cbn -[Z.min]. destruct (Z.eqb_spec v 0) as [->|Hv0].
  - replace (Z.min 255 (b + 0)) with b in * by (unfold byte in Hbb; lia).
    replace (pre ++ b :: merge_hits bm bs) with ((pre ++ [b]) ++ merge_hits bm bs) by (by rewrite <- app_assoc).
    apply IH; [done|done|by rewrite Hbm, <- app_assoc|done].
  - destruct (import_edge_spec i v c b Hok Hi Hv Hv0) as [G1 G2].
    replace (pre ++ Z.min 255 (b + v) :: merge_hits bm bs)
      with ((pre ++ [Z.min 255 (b + v)]) ++ merge_hits bm bs) by (by rewrite <- app_assoc).
    apply IH; [done|done| |done].
    by rewrite G2, Hbm, insert_app_r_alt, Hpre, Nat.sub_diag, <- app_assoc by lia.
Qed.

Lemma mark_slot_spec h c :
  tracker_ok c →
  let r := mark_slot h c in let pos := Z.to_nat (h mod mapSize c) in
  tracker_ok r.1 ∧ (pos < length (bitmap c))%nat ∧
  r.2 = (slot (bitmap c) pos =? 0) ∧
  bitmap r.1 = (if r.2 then <[pos := 1]> (bitmap c) else bitmap c) ∧
  maxMap r.1 = maxMap c ∧ seenAsserts r.1 = seenAsserts c.
Proof.
  intros Hok. pose proof Hok as (H0 & Hl & _). cbv zeta.
  pose proof (Z.mod_pos_bound h (mapSize c) ltac:(lia)).
  destruct (ok_slot c (Z.to_nat (h mod mapSize c)) Hok ltac:(lia)) as (b & Hb & Hv & Hbb).
  unfold mark_slot. rewrite (slot_lookup _ _ _ Hv), (slot_lookup _ _ _ Hb). unfold virgin_of.
  destruct (Z.eqb_spec b 0) as [->|Hb0]; simpl; [|by split_and!; auto with lia].
  split_and!; try done; [|lia].
  match goal with |- tracker_ok ?c' => by apply (ok_write c c' (Z.to_nat (h mod mapSize c)) 0 1 Hok Hb) end.
Qed.

Lemma explored_maps r : bitmap (explored r).1 = bitmap r.1 ∧ (explored r).2 = r.2 ∧
  (tracker_ok r.1 → tracker_ok (explored r).1) ∧ maxMap (explored r).1 = maxMap r.1.
Proof.
  destruct r as [c []]; simpl; split_and!; done.
Qed.

Lemma Import_ok c k : tracker_ok c → Forall byte (Bitmap k) →
  tracker_ok (Import c (Some k)) ∧ bitmap (Import c (Some k)) = merge_hits (bitmap c) (Bitmap k).
Proof.
  intros Hok Hk. destruct (import_loop_spec (Bitmap k) 0 c [] (bitmap c) Hok Hk eq_refl eq_refl) as [H1 H2].
  split; [|done]. by eapply ok_same_maps.
Qed.

Lemma new_tracker_ok size : (∀ s, size = Some s → s < 2 ^ 63) → tracker_ok (NewCoverageTracker size).
Proof.
  intros Hs. set (n := mapSize (NewCoverageTracker size)).
  assert (0 < n < 2 ^ 63) as Hn.
  { unfold n, NewCoverageTracker. simpl. destruct size as [s|]; [|done].
    specialize (Hs s eq_refl). destruct (Z.ltb_spec 0 s); [lia|done]. }
  change (NewCoverageTracker size) with (mkTracker n (replicate (Z.to_nat n) 0) (replicate (Z.to_nat n) 255) 0 0
    (replicate (Z.to_nat n) 0) ∅ ∅ 0 0 0 0 0 fzero).
  split_and!; simpl; rewrite ?length_replicate; try lia.
  - by apply Forall_replicate.
  - by rewrite (fmap_replicate virgin_of).
  - by rewrite count_if_replicate.
Qed.

Lemma reset_ok c : tracker_ok c → tracker_ok (ResetBitmap c).
Proof.
  intros Hok. pose proof (ok_lengths c Hok) as Hlv. destruct Hok as (H0 & Hl & _).
  unfold ResetBitmap. split_and!; simpl; rewrite ?length_replicate; try lia.
  - by apply Forall_replicate.
  - rewrite (fmap_replicate virgin_of). f_equal. lia.
  - by rewrite count_if_replicate.
Qed.

Lemma UpdateGuidance_ok c t name v : tracker_ok c → tracker_ok (UpdateGuidance c t name v).1.
Proof.
  intros Hok. unfold UpdateGuidance. repeat case_bool_decide; [|destruct (maxMap c !! name) as [old|]|done].
  - by apply explored_maps, mark_slot_spec.
  - destruct (v <=? old); [done|]. apply mark_slot_spec. by eapply ok_same_maps.
  - apply mark_slot_spec. by eapply ok_same_maps.
Qed.

Lemma RecordAssertionNovelty_ok c key : tracker_ok c → tracker_ok (RecordAssertionNovelty c key).1.
Proof.
  intros Hok. unfold RecordAssertionNovelty. case_bool_decide; [done|].
  apply mark_slot_spec. by eapply ok_same_maps.
Qed.

Lemma apply_op_ok c o : tracker_ok c → op_ok o → tracker_ok (apply_op c o).
Proof.
  intros Hok Ho. destruct o as [es|t name v|i n|key|[k|]| | |]; simpl.
  - by apply (update_loop_spec es 0 c false [] (bitmap c)).
  - by apply UpdateGuidance_ok.
  - by apply explored_maps, mark_slot_spec.
  - by apply RecordAssertionNovelty_ok.
  - by apply Import_ok.
  - done.
  - by apply reset_ok.
  - by eapply ok_same_maps.
  - by eapply ok_same_maps.
Qed.

Lemma merge_hits_lookup bm edges : ∀ i b,
  Forall byte bm → bm !! i = Some b →
  merge_hits bm edges !! i = Some (Z.min 255 (b + slot edges i)).
Proof.
  revert edges. induction bm as [|x bm IH]; intros edges i b Hb Hi; [done|].
  apply Forall_cons in Hb as [Hx Hb]. destruct edges as [|v edges].
  - cbn -[Z.min]. rewrite Hi. f_equal. assert (byte b) by (by eapply Forall_lookup_1; [by constructor|]).
    unfold slot, byte in *. rewrite lookup_nil. cbn -[Z.min]. lia.
  - destruct i as [|i]; simplify_eq/=; [done|]. exact (IH edges i b Hb Hi).
Qed.

Lemma merge_hits_length bm edges : length (merge_hits bm edges) = length bm.
Proof. revert edges. induction bm as [|b bm IH]; intros [|v edges]; simpl; auto. Qed.

Lemma fresh_hits_zero bm edges :
  fresh_hits bm edges = 0%nat ↔
  ∀ i v, edges !! i = Some v → bm !! i = Some 0 → v = 0.
Proof.
  revert edges. induction bm as [|b bm IH]; intros edges; [by split|].
  destruct edges as [|v edges]; [by split|]. simpl. split.
  - intros H i w. destruct i as [|i]; simpl; [|apply IH; lia].
    intros [= <-] [= ->]. unfold seen in H. destruct (Z.eqb_spec v 0); simpl in H; [done|lia].
  - intros H. rewrite (proj2 (IH edges)) by (intros i w; apply (H (S i))).
    unfold seen. destruct (Z.eqb_spec b 0) as [->|]; [|by rewrite andb_false_r].
    by rewrite (H 0%nat v eq_refl eq_refl).
Qed.

Lemma fresh_hits_pos bm edges :
  fresh_hits bm edges ≠ 0%nat → ∃ i v, edges !! i = Some v ∧ v ≠ 0 ∧ bm !! i = Some 0.
Proof.
  revert edges. induction bm as [|b bm IH]; intros [|v edges]; simpl; try done. intros H.
  destruct (seen v && (b =? 0)) eqn:E.
  - apply andb_true_iff in E as [Ev ->%Z.eqb_eq]. exists 0%nat, v. split_and!; [done| |done].
    unfold seen in Ev. by destruct (Z.eqb_spec v 0).
  - destruct (IH edges H) as (i & w & Hw). by exists (S i), w.
Qed.

Lemma hitBucket_pos v : 0 < v → hitBucket v ≠ 0.
Proof. intros. unfold hitBucket. repeat case_match; lia. Qed.

Lemma hitBucket_mono x y : x ≤ y → 0 ≤ x → hitBucket x ≤ hitBucket y.
Proof.
  intros. unfold hitBucket.
  repeat match goal with |- context [?a =? ?b] => destruct (Z.eqb_spec a b)
    | |- context [?a <=? ?b] => destruct (Z.leb_spec a b) end; lia.
Qed.

Lemma has_new_loop_spec edges : ∀ i c,
  tracker_ok c → Forall byte edges →
  has_new_loop i edges c = true ↔
  ∃ k v b, edges !! k = Some v ∧ v ≠ 0 ∧ bitmap c !! (i + k)%nat = Some b ∧
    hitBucket b ≠ hitBucket (Z.min 255 (b + v)).
Proof.
  induction edges as [|v edges IH]; intros i c Hok Hes; simpl.
  { split; [done|]. intros (k & v & b & Hk & _). by rewrite lookup_nil in Hk. }
  apply Forall_cons in Hes as [Hv Hes]. pose proof Hok as (H0 & Hl & _).
  destruct (Z.leb_spec (mapSize c) (Z.of_nat i)) as [Hge|Hlt].
  { split; [done|]. intros (k & w & b & _ & _ & Hb%lookup_lt_Some & _). lia. }
  destruct (ok_slot c i Hok Hlt) as (b & Hb & _ & Hbb). rewrite (slot_lookup _ _ _ Hb).
  assert (∀ (P : Prop), (¬ (v ≠ 0 ∧ hitBucket b ≠ hitBucket (Z.min 255 (b + v)))) →
    has_new_loop (S i) edges c = true ↔
    ∃ k w d, (v :: edges) !! k = Some w ∧ w ≠ 0 ∧ bitmap c !! (i + k)%nat = Some d ∧
      hitBucket d ≠ hitBucket (Z.min 255 (d + w))) as Hskip.
  { intros _ Hno. rewrite IH by done. split.
    - intros (k & w & d & ?). exists (S k), w, d. by rewrite Nat.add_succ_r.
    - intros ([|k] & w & d & Hk & Hw & Hd & Hne).
      + rewrite Nat.add_0_r in Hd. simplify_eq/=. by destruct Hno.
      + exists k, w, d. rewrite Nat.add_succ_r in Hd. done. }
  destruct (Z.eqb_spec v 0) as [->|Hv0]; [apply (Hskip True); naive_solver|].
  assert (hitBucket b ≠ hitBucket (Z.min 255 (b + v)) →
    ∃ k w d, (v :: edges) !! k = Some w ∧ w ≠ 0 ∧ bitmap c !! (i + k)%nat = Some d ∧
      hitBucket d ≠ hitBucket (Z.min 255 (d + w))) as Hhere.
  { intros ?. exists 0%nat, v, b. by rewrite Nat.add_0_r. }
  destruct (Z.eqb_spec b 0) as [->|Hb0].
  { split; [intros _|done]. apply Hhere. unfold byte in Hv. rewrite Z.min_r by lia.
    pose proof (hitBucket_pos v). change (hitBucket 0) with 0. intros Heq. symmetry in Heq. revert Heq. rewrite Z.add_0_l. apply hitBucket_pos. lia. }
  assert (u8 (if 255 <? u16 (b + v) then 255 else u16 (b + v)) = Z.min 255 (b + v)) as ->.
  { unfold byte in *. rewrite (wrap_small 16) by (unfold is_word; lia).
    destruct (Z.ltb_spec 255 (b + v)); rewrite wrap_small by (unfold is_word; lia); lia. }
  destruct (Z.eqb_spec (hitBucket b) (hitBucket (Z.min 255 (b + v)))) as [He|Hne]; simpl.
  - apply (Hskip True). naive_solver.
  - split; [intros _; by apply Hhere|done].
Qed.

Lemma merge_zeros bm : Forall byte bm → merge_hits (replicate (length bm) 0) bm = bm.
Proof.
  induction 1 as [|b bm Hb Hbm IH]; [done|]. cbn -[Z.min]. rewrite IH. f_equal. unfold byte in Hb. lia.
Qed.

(** ** Properties *)

(** C25: Whatever signals a tracker receives, the virgin map, the bitmap and the
    edge counter stay consistent: a slot is virgin (0xFF) exactly when its hit
    count is zero and cleared (0) otherwise, TotalEdges is the number of nonzero
    slots and never exceeds the map size, and hit counts stay in a byte. *)
Theorem tracker_invariant (size : option Z) (ops : list op)
    (Hs : ∀ s, size = Some s → s < 2 ^ 63) (Hops : Forall op_ok ops) :
  let c := foldl apply_op (NewCoverageTracker size) ops in
  Forall byte (bitmap c) ∧ virgin c = map virgin_of (bitmap c) ∧
  TotalEdges c = Z.of_nat (count_if seen (bitmap c)) ∧ TotalEdges c ≤ mapSize c.
Proof.
  assert (tracker_ok (foldl apply_op (NewCoverageTracker size) ops)) as Hok.
  { pose proof (new_tracker_ok size Hs) as Hok. revert Hok. generalize (NewCoverageTracker size).
    induction Hops as [|o ops Ho Hops IH]; intros c Hok; [done|]. by apply IH, apply_op_ok. }
  destruct Hok as (H0 & Hl & _ & Hb & Hv & Ht). cbv zeta. unfold TotalEdges. split_and!; try done.
  pose proof (count_if_le_length seen (bitmap (foldl apply_op (NewCoverageTracker size) ops))). lia.
Qed.

(** [Update] adds an edge vector slot by slot with saturation at 255 and
    ignores what exceeds the map; it reports new coverage exactly when some slot
    is hit for the first time, and adds the number of such slots to the total
    and to the new-edge counter. *)
Theorem Update_spec (c : CoverageTracker) (edges : list Z)
    (Hok : tracker_ok c) (Hes : Forall byte edges) :
  let r := Update c edges in
  tracker_ok r.1 ∧
  (∀ i b, bitmap c !! i = Some b → bitmap r.1 !! i = Some (Z.min 255 (b + slot edges i))) ∧
  (r.2 = true ↔ ∃ i v, edges !! i = Some v ∧ v ≠ 0 ∧ bitmap c !! i = Some 0) ∧
  TotalEdges r.1 = TotalEdges c + Z.of_nat (fresh_hits (bitmap c) edges) ∧
  u64 (NewEdges r.1) = u64 (NewEdges c + Z.of_nat (fresh_hits (bitmap c) edges)).
Proof.
  destruct (update_loop_spec edges 0 c false [] (bitmap c) Hok Hes eq_refl eq_refl)
    as (H1 & H2 & H3 & H4 & H5 & H6).
  unfold Update, TotalEdges, NewEdges. cbv zeta. split_and!; [done| | |done|done].
  - intros i b Hi. rewrite H3. apply merge_hits_lookup; [apply Hok|done].
  - rewrite H4. simpl. rewrite negb_true_iff, Nat.eqb_neq. split.
    + apply fresh_hits_pos.
    + intros (i & v & Hv & Hv0 & Hi) Hz. apply Hv0. by apply (proj1 (fresh_hits_zero _ _) Hz i v).
Qed.

(** [HasNewEdge] answers whether merging the edges would move some slot to
    another hit-count bucket. *)
Theorem HasNewEdge_buckets (c : CoverageTracker) (edges : list Z)
    (Hok : tracker_ok c) (Hes : Forall byte edges) :
  HasNewEdge c edges = true ↔
  ∃ i v b, edges !! i = Some v ∧ v ≠ 0 ∧ bitmap c !! i = Some b ∧
    hitBucket b < hitBucket (Z.min 255 (b + v)).
Proof.
  unfold HasNewEdge. rewrite has_new_loop_spec by done. simpl.
  split; intros (i & v & b & Hv & Hv0 & Hb & Hne); exists i, v, b; (split_and!; [done|done|done|]); [|lia].
  assert (byte v) by by eapply Forall_lookup_1 in Hes. assert (byte b).
  { destruct Hok as (_ & _ & _ & Hbs & _). by eapply Forall_lookup_1 in Hbs. }
  pose proof (hitBucket_mono b (Z.min 255 (b + v))). unfold byte in *. lia.
Qed.

(** [Update] does not report hit-count bucket transitions: on a tracker that
    has seen one hit of an edge, a second hit moves the edge to another bucket
    and [HasNewEdge] calls it new, yet [Update] returns false and counts
    nothing. *)
Theorem Update_ignores_bucket_transitions :
  let c := (Update (NewCoverageTracker (Some 4)) [1]).1 in
  HasNewEdge c [1] = true ∧ hitBucket 1 ≠ hitBucket 2 ∧
  (Update c [1]).2 = false ∧ NewEdges (Update c [1]).1 = NewEdges c ∧
  bitmap (Update c [1]).1 = [2; 0; 0; 0].
Proof. vm_compute. split_and!; congruence. Qed.

(** A corpus carries the learned state across runs: importing what a tracker
    exported into a fresh tracker of the same size restores the bitmap, the max
    map, the seen assertions and the edge total, counts none of it as new, and
    no later [Update] that stays within the corpus reports new coverage. *)
Theorem Import_Export (c : CoverageTracker) (Hok : tracker_ok c) :
  let r := Import (NewCoverageTracker (Some (mapSize c))) (Some (Export c)) in
  bitmap r = bitmap c ∧ maxMap r = maxMap c ∧ seenAsserts r = seenAsserts c ∧
  TotalEdges r = TotalEdges c ∧ CorpusEdgeCount r = TotalEdges c ∧ NewEdges r = 0 ∧
  ∀ edges, Forall byte edges → (∀ i v, edges !! i = Some v → v ≠ 0 → slot (bitmap c) i ≠ 0) →
    (Update r edges).2 = false.
Proof.
  pose proof Hok as (H0 & Hl & _ & Hb & _ & Ht). set (n := mapSize c) in *.
  set (c0 := NewCoverageTracker (Some n)). intros r.
  assert (bitmap c0 = replicate (length (bitmap c)) 0) as Hb0.
  { unfold c0, NewCoverageTracker. destruct (Z.ltb_spec 0 n); [|lia]. simpl. f_equal. lia. }
  assert (tracker_ok c0) as Hok0 by (apply new_tracker_ok; intros s [= <-]; lia).
  assert (Bitmap (Export c) = bitmap c) as HB.
  { simpl. fold n. rewrite take_app_le by lia. apply take_ge. lia. }
  destruct (Import_ok c0 (Export c) Hok0 ltac:(by rewrite HB)) as [Hokr Hbr]. fold r in Hokr, Hbr.
  rewrite HB, Hb0, merge_zeros in Hbr by done.
  assert (totalEdges r = totalEdges c) as Htr.
  { rewrite Ht. destruct Hokr as (_ & _ & _ & _ & _ & ->). by rewrite Hbr. }
  assert (∀ bs i k, maxMap (import_loop i bs k) = maxMap k ∧ seenAsserts (import_loop i bs k) = seenAsserts k
    ∧ newEdges (import_loop i bs k) = newEdges k) as Hsame.
  { induction bs as [|v bs IH]; intros i k; [done|]. simpl. destruct (_ <=? _); [done|].
    destruct (v =? 0); [done|]. apply (IH (S i) (import_edge i v k)). }
  destruct (Hsame (Bitmap (Export c)) 0%nat c0) as (Hm & Ha & Hn).
  split_and!.
  - done.
  - unfold r, Import. cbn [set_known maxMap]. rewrite Hm. apply map_eq. intros k.
    rewrite lookup_merge. unfold c0. simpl. rewrite lookup_empty. simpl. by destruct (maxMap c !! k).
  - unfold r, Import. cbn [set_known seenAsserts]. rewrite Ha. unfold c0. simpl.
    apply set_eq. intros k. rewrite elem_of_union, elem_of_list_to_set, sort_by_Permutation, elem_of_elements.
    split; [intros [?|?%elem_of_empty]|]; tauto.
  - done.
  - exact Htr.
  - unfold r, Import, NewEdges. cbn [set_known newEdges]. by rewrite Hn.
  - intros edges Hes Hin.
    destruct (update_loop_spec edges 0 r false [] (bitmap r) Hokr Hes eq_refl eq_refl) as (_ & _ & _ & H4 & _).
    unfold Update. rewrite H4. simpl. rewrite negb_false_iff, Nat.eqb_eq. apply fresh_hits_zero.
    intros i v Hv Hi. destruct (decide (v = 0)); [done|]. destruct (Hin i v Hv); [done|].
    apply slot_lookup. by rewrite <- Hbr.
Qed.

Lemma tracker_invariant_witness :
  let c := foldl apply_op (NewCoverageTracker (Some 8))
    [OpUpdate [1; 0; 200]; OpUpdate [0; 3; 100]; OpBranch 1 2; OpAssert "a"; OpResetStep] in
  TotalEdges c ≤ 8 ∧ take 3 (bitmap c) = [1; 3; 255].
Proof.
  split; [|vm_compute; reflexivity].
  eapply (tracker_invariant (Some 8)); [intros s [= <-]; lia|].
  repeat constructor; unfold byte; lia.
Defined.

Lemma Update_spec_witness :
  let c := NewCoverageTracker (Some 4) in
  (Update c [0; 7]).2 = true ∧ TotalEdges (Update c [0; 7]).1 = 1.
Proof.
  intros c. assert (tracker_ok c) as Hok by (apply new_tracker_ok; intros s [= <-]; lia).
  destruct (Update_spec c [0; 7] Hok) as (_ & _ & H & Ht & _); [repeat constructor; unfold byte; lia|].
  split; [|rewrite Ht; reflexivity].
  apply H. exists 1%nat, 7. split_and!; [reflexivity|lia|reflexivity].
Defined.

Lemma HasNewEdge_buckets_witness : HasNewEdge (NewCoverageTracker (Some 4)) [0; 7] = true.
Proof.
  apply HasNewEdge_buckets; [apply new_tracker_ok; intros s [= <-]; lia|repeat constructor; unfold byte; lia|].
  exists 1%nat, 7, 0. split_and!; [reflexivity|lia|reflexivity|vm_compute; reflexivity].
Defined.

Lemma Import_Export_witness :
  let c := (Update (NewCoverageTracker (Some 4)) [0; 7]).1 in
  bitmap (Import (NewCoverageTracker (Some 4)) (Some (Export c))) = [0; 7; 0; 0].
Proof.
  intros c. assert (tracker_ok c) as Hok.
  { unfold c. apply (apply_op_ok (NewCoverageTracker (Some 4)) (OpUpdate [0; 7]));
      [apply new_tracker_ok; intros s [= <-]; lia|repeat constructor; unfold byte; lia]. }
  destruct (Import_Export c Hok) as (H & _). exact H.
Defined.
