(* ===== verification/InputTree.v ===== *)
(** * Systematic exploration of random choices ([internal/explorer/input_tree.go])

    The tracker of choice sequences.  The set of hashes is a roaring bitmap, a
    library: it is a parameter of the model through the class [Bitmap64], with
    what the library documents of the operations used as its laws. *)
From S2P Require Import Prelude Word.
From stdpp Require Import strings.
Local Open Scope Z_scope.

(** [roaring64.Bitmap]: [New], [Contains], [Add], [GetCardinality]. *)
Class Bitmap64 (B : Type) := {
  bm_new : B;
  bm_contains : B → Z → bool;
  bm_add : B → Z → B;
  bm_cardinality : B → Z }.

Class Bitmap64Laws (B : Type) `{Bitmap64 B} := {
  bm_contains_new x : bm_contains bm_new x = false;
  bm_contains_add b x y : bm_contains (bm_add b x) y = (y =? x) || bm_contains b y;
  bm_cardinality_new : bm_cardinality bm_new = 0;
  bm_cardinality_add b x :
    bm_cardinality (bm_add b x) = bm_cardinality b + if bm_contains b x then 0 else 1 }.

Record ChoiceEvent := mkChoice { ChosenIndex : Z; TotalChoices : Z; ValueType : string }.

Record ChoiceSequence := mkSequence { Choices : list ChoiceEvent; Hash : Z }.

Definition hashChoiceSequence (choices : list ChoiceEvent) : Z :=
  foldl (λ h c, fnv_step (fnv_step h (u64 (ChosenIndex c))) (u64 (TotalChoices c)))
    fnvOffset64 choices.

Definition NewChoiceSequence (choices : list ChoiceEvent) : ChoiceSequence :=
  mkSequence choices (hashChoiceSequence choices).

Record InputTreeTracker (B : Type) := mkTracker {
  seen : B; history : gmap string (list ChoiceSequence) }.
Arguments mkTracker {B} _ _.
Arguments seen {B} _.
Arguments history {B} _.

Section tracker.
Context {B : Type} `{Bitmap64 B}.

Definition NewInputTreeTracker : InputTreeTracker B := mkTracker bm_new ∅.

Definition RecordSequence (t : InputTreeTracker B) (seq : ChoiceSequence)
    : bool * InputTreeTracker B :=
  match Choices seq with
  | [] => (false, t)
  | _ =>
      if bm_contains (seen t) (Hash seq) then (false, t)
      else (true, mkTracker (bm_add (seen t) (Hash seq)) (history t))
  end.

(** [t.history[snapID]]: nil when there is none. *)
Definition history_of (t : InputTreeTracker B) (snapID : string) : list ChoiceSequence :=
  default [] (history t !! snapID).

Definition RecordFromSnapshot (t : InputTreeTracker B) (snapID : string) (seq : ChoiceSequence)
    : InputTreeTracker B :=
  match Choices seq with
  | [] => t
  | _ => mkTracker (seen t) (<[snapID := history_of t snapID ++ [seq]]> (history t))
  end.

(** [tried[pos][idx] = true] for every choice of a sequence. *)
Fixpoint mark_tried (pos : nat) (cs : list ChoiceEvent) (tried : gmap nat (gset Z)) : gmap nat (gset Z) :=
  match cs with
  | [] => tried
  | ev :: cs =>
      mark_tried (S pos) cs
        (<[pos := {[ChosenIndex ev]} ∪ default ∅ (tried !! pos)]> tried)
  end.

Definition collect_tried (seqs : list ChoiceSequence) : gmap nat (gset Z) :=
  foldl (λ tried seq, mark_tried 0 (Choices seq) tried) ∅ seqs.

(** [tried[pos][idx]], false when there is no entry. *)
Definition is_tried (tried : gmap nat (gset Z)) (pos : nat) (idx : Z) : bool :=
  bool_decide (idx ∈ default ∅ (tried !! pos)).

(** The first [idx] of [range ev.TotalChoices] that was not tried. *)
Definition first_untried (tried : gmap nat (gset Z)) (pos : nat) (total : Z) : option Z :=
  Z.of_nat <$> find_index (λ idx, negb (is_tried tried pos idx)) (seqZ 0 total).

Fixpoint next_loop (tried : gmap nat (gset Z)) (len pos : nat) (cs : list ChoiceEvent) : option (list Z) :=
  match cs with
  | [] => None
  | ev :: cs =>
      if TotalChoices ev <=? 1 then next_loop tried len (S pos) cs
      else
        match first_untried tried pos (TotalChoices ev) with
        | Some idx => Some (<[pos := idx]> (replicate len (-1)))
        | None => next_loop tried len (S pos) cs
        end
  end.

Definition NextOverrides (t : InputTreeTracker B) (snapID : string) : option (list Z) :=
  match history_of t snapID with
  | [] => None
  | ref :: seqs =>
      next_loop (collect_tried (ref :: seqs)) (length (Choices ref)) 0 (Choices ref)
  end.

Definition Len (t : InputTreeTracker B) : Z := bm_cardinality (seen t).

(** ** Specification *)

(** Some sequence took alternative [idx] at position [pos]. *)
Definition took (seqs : list ChoiceSequence) (pos : nat) (idx : Z) : Prop :=
  ∃ s ev, s ∈ seqs ∧ Choices s !! pos = Some ev ∧ ChosenIndex ev = idx.

(** Every alternative of position [pos] of the reference was taken. *)
Definition exhausted (seqs : list ChoiceSequence) (cs : list ChoiceEvent) (pos : nat) : Prop :=
  ∀ ev idx, cs !! pos = Some ev → 1 < TotalChoices ev → 0 ≤ idx < TotalChoices ev → took seqs pos idx.

(** Directing bursts from one snapshot until nothing is left to direct, [n] at
    most; [burst] is the guest run under an override vector. *)
Fixpoint explore (burst : list Z → ChoiceSequence) (snapID : string) (n : nat)
    (t : InputTreeTracker B) : InputTreeTracker B :=
  match n with
  | O => t
  | S n =>
      match NextOverrides t snapID with
      | None => t
      | Some ov => explore burst snapID n (RecordFromSnapshot t snapID (burst ov))
      end
  end.

(** The guest follows an override: at a position with a nonnegative entry it
    chooses that index. *)
Definition follows (burst : list Z → ChoiceSequence) : Prop :=
  ∀ ov pos idx, ov !! pos = Some idx → 0 ≤ idx →
    ∃ ev, Choices (burst ov) !! pos = Some ev ∧ ChosenIndex ev = idx.

(** All alternatives of the reference sequence. *)
Definition cells (cs : list ChoiceEvent) : list (nat * Z) :=
  concat (imap (λ pos ev, (λ idx, (pos, idx)) <$> seqZ 0 (TotalChoices ev)) cs).

End tracker.
Arguments NewInputTreeTracker {B _}.

#[global] Instance gset_bitmap : Bitmap64 (gset Z) := {|
  bm_new := ∅; bm_contains b x := bool_decide (x ∈ b);
  bm_add b x := {[x]} ∪ b; bm_cardinality b := Z.of_nat (size b) |}.

(** ** Lemmas *)

Lemma is_tried_insert m pos idx s p i :
  is_tried (<[pos := {[idx]} ∪ s]> m) p i = true ↔
  (p = pos ∧ (i = idx ∨ i ∈ s)) ∨ (p ≠ pos ∧ is_tried m p i = true).
Proof.
  unfold is_tried. rewrite !bool_decide_eq_true. destruct (decide (p = pos)) as [->|Hne].
  - rewrite lookup_insert_eq. simpl. rewrite elem_of_union, elem_of_singleton. naive_solver.
  - rewrite lookup_insert_ne by done. naive_solver.
Qed.

Lemma is_tried_mark cs : ∀ pos m p i,
  is_tried (mark_tried pos cs m) p i = true ↔
  is_tried m p i = true ∨ ∃ k ev, cs !! k = Some ev ∧ p = (pos + k)%nat ∧ ChosenIndex ev = i.
Proof.
  induction cs as [|ev cs IH]; intros pos m p i; simpl.
  { split; [auto|]. intros [?|(k & ev & Hk & _)]; [done|]. by rewrite lookup_nil in Hk. }
  rewrite IH, is_tried_insert. split.
  - intros [[[-> [->|Hi]]|[Hne Hi]]|(k & e & Hk & -> & He)].
    + right. exists 0%nat, ev. rewrite Nat.add_0_r. done.
    + left. unfold is_tried. by apply bool_decide_eq_true.
    + by left.
    + right. exists (S k), e. rewrite Nat.add_succ_r. done.
  - intros [Hi|([|k] & e & Hk & -> & He)].
    + left. destruct (decide (p = pos)) as [->|]; [left|by right].
      split; [done|]. right. by apply bool_decide_eq_true in Hi.
    + simplify_eq/=. left. left. rewrite Nat.add_0_r. auto.
    + right. exists k, e. by rewrite Nat.add_succ_r.
Qed.

Lemma is_tried_collect seqs p i : is_tried (collect_tried seqs) p i = true ↔ took seqs p i.
Proof.
  unfold collect_tried. assert (∀ m, is_tried (foldl (λ tried seq, mark_tried 0 (Choices seq) tried) m seqs) p i = true
    ↔ is_tried m p i = true ∨ took seqs p i) as E.
  { induction seqs as [|s seqs IH]; intros m; simpl.
    - split; [auto|]. intros [?|(s & ev & Hs & _)]; [done|]. by apply elem_of_nil in Hs.
    - rewrite IH, is_tried_mark. unfold took. setoid_rewrite elem_of_cons. split.
      + intros [[?|(k & ev & Hk & -> & Hi)]|(s' & ev & Hs & Hk)]; [by left| |]; right; [exists s|exists s']; exists ev; auto.
      + intros [?|(s' & ev & [->|Hs] & Hk & Hi)]; [by left; left| |].
        * left; right. by exists p, ev.
        * right. by exists s', ev. }
  rewrite E. unfold is_tried at 1. rewrite lookup_empty, bool_decide_eq_true. simpl.
  rewrite elem_of_empty. naive_solver.
Qed.

Lemma first_untried_Some seqs pos total idx :
  first_untried (collect_tried seqs) pos total = Some idx →
  0 ≤ idx < total ∧ ¬ took seqs pos idx ∧ ∀ j, 0 ≤ j < idx → took seqs pos j.
Proof.
  unfold first_untried. intros (k & (x & Hk & Hp & Hlt)%find_index_Some & ->)%fmap_Some.
  apply lookup_seqZ in Hk as [-> Hk]. split; [lia|]. split.
  - rewrite <- is_tried_collect. by apply negb_true_iff, not_true_iff_false in Hp.
  - intros j Hj. assert (seqZ 0 total !! Z.to_nat j = Some j) as Hl by (apply lookup_seqZ; lia).
    specialize (Hlt (Z.to_nat j) j ltac:(lia) Hl). apply negb_false_iff in Hlt. by apply is_tried_collect.
Qed.

Lemma first_untried_None seqs pos total :
  first_untried (collect_tried seqs) pos total = None → ∀ j, 0 ≤ j < total → took seqs pos j.
Proof.
  unfold first_untried. intros Hn%fmap_None j Hj.
  pose proof (proj1 (find_index_None _ _) Hn j) as Hx.
  apply is_tried_collect, negb_false_iff, Hx, elem_of_seqZ. lia.
Qed.

(** The override vector that sets position [pos] to [idx]. *)
Definition override (len pos : nat) (idx : Z) : list Z := <[pos := idx]> (replicate len (-1)).

Lemma next_loop_spec seqs len cs : ∀ pre,
  match next_loop (collect_tried seqs) len (length pre) cs with
  | None => ∀ pos, (length pre ≤ pos)%nat → exhausted seqs (pre ++ cs) pos
  | Some ov => ∃ pos ev idx, (length pre ≤ pos)%nat ∧ (pre ++ cs) !! pos = Some ev ∧
      0 ≤ idx < TotalChoices ev ∧ 1 < TotalChoices ev ∧ ¬ took seqs pos idx ∧
      (∀ j, 0 ≤ j < idx → took seqs pos j) ∧
      (∀ q, (length pre ≤ q < pos)%nat → exhausted seqs (pre ++ cs) q) ∧
      ov = override len pos idx
  end.
Proof.
  induction cs as [|ev cs IH]; intros pre; simpl.
  { intros pos Hpos e i He. rewrite app_nil_r in He. apply lookup_lt_Some in He. lia. }
  assert ((pre ++ ev :: cs) !! length pre = Some ev) as Hev by (by rewrite lookup_app_r, Nat.sub_diag by lia).
  assert (exhausted seqs (pre ++ ev :: cs) (length pre) →
    match next_loop (collect_tried seqs) len (S (length pre)) cs with
    | None => ∀ pos, (length pre ≤ pos)%nat → exhausted seqs (pre ++ ev :: cs) pos
    | Some ov => ∃ pos e idx, (length pre ≤ pos)%nat ∧ (pre ++ ev :: cs) !! pos = Some e ∧
        0 ≤ idx < TotalChoices e ∧ 1 < TotalChoices e ∧ ¬ took seqs pos idx ∧
        (∀ j, 0 ≤ j < idx → took seqs pos j) ∧
        (∀ q, (length pre ≤ q < pos)%nat → exhausted seqs (pre ++ ev :: cs) q) ∧
        ov = override len pos idx
    end) as Hskip.
  { intros Hex. specialize (IH (pre ++ [ev])). rewrite length_app, <- !app_assoc in IH. simpl in IH.
    rewrite Nat.add_1_r in IH. destruct (next_loop _ _ _ cs).
    - destruct IH as (pos & e & idx & H1 & H2 & H3 & H4 & H5 & H6 & H7 & H8).
      exists pos, e, idx. split_and!; try done; try lia.
      intros q Hq. destruct (decide (q = length pre)) as [->|]; [done|]. apply H7. lia.
    - intros pos Hpos. destruct (decide (pos = length pre)) as [->|]; [done|]. apply IH. lia. }
  destruct (Z.leb_spec (TotalChoices ev) 1) as [Hle|Hgt].
  { apply Hskip. intros e i He ?. rewrite Hev in He. simplify_eq. lia. }
  destruct (first_untried _ _ _) as [idx|] eqn:Hf.
  - destruct (first_untried_Some _ _ _ _ Hf) as (H1 & H2 & H3).
    exists (length pre), ev, idx. split_and!; try done; try lia.
  - apply Hskip. intros e i He _ Hi. rewrite Hev in He. simplify_eq.
    by apply (first_untried_None seqs (length pre) (TotalChoices e)).
Qed.

Lemma took_app seqs s pos idx : took seqs pos idx → took (seqs ++ [s]) pos idx.
Proof. intros (s' & ev & Hs & Hrest). exists s', ev. rewrite elem_of_app. auto. Qed.

Lemma count_if_le {A} (p q : A → bool) l :
  (∀ x, x ∈ l → q x = true → p x = true) → (count_if q l ≤ count_if p l)%nat.
Proof.
  induction l as [|x l IH]; intros H; [done|]. simpl.
  pose proof (H x ltac:(left)). assert (count_if q l ≤ count_if p l)%nat by (apply IH; intros; apply H; [by right|done]).
  destruct (q x); [rewrite H0 by done|destruct (p x)]; lia.
Qed.

Lemma count_if_lt {A} (p q : A → bool) l x :
  (∀ x, x ∈ l → q x = true → p x = true) → x ∈ l → p x = true → q x = false →
  (count_if q l < count_if p l)%nat.
Proof.
  intros H Hx Hp Hq. apply list_elem_of_split in Hx as (l1 & l2 & ->).
  rewrite !count_if_app. simpl. rewrite Hp, Hq.
  assert (count_if q l1 ≤ count_if p l1)%nat by (apply count_if_le; intros; apply H; [set_solver|done]).
  assert (count_if q l2 ≤ count_if p l2)%nat by (apply count_if_le; intros; apply H; [set_solver|done]).
  lia.
Qed.

Lemma elem_of_cells cs pos idx ev :
  cs !! pos = Some ev → 0 ≤ idx < TotalChoices ev → (pos, idx) ∈ cells cs.
Proof.
  intros Hp Hi. unfold cells. apply list_elem_of_In, in_concat.
  exists ((λ idx, (pos, idx)) <$> seqZ 0 (TotalChoices ev)). rewrite <- !list_elem_of_In. split.
  - apply list_elem_of_lookup. exists pos. by rewrite list_lookup_imap, Hp.
  - apply list_elem_of_fmap. exists idx. split; [done|]. apply elem_of_seqZ. lia.
Qed.

(** The alternatives not yet taken: the measure that an obeyed override
    decreases. *)
Definition remaining (seqs : list ChoiceSequence) (cs : list ChoiceEvent) : nat :=
  count_if (λ c, negb (is_tried (collect_tried seqs) c.1 c.2)) (cells cs).

Section props.
Context {B : Type} `{Bitmap64Laws B}.
Implicit Types t : InputTreeTracker B.

Lemma NextOverrides_cases t snapID ref seqs :
  history_of t snapID = ref :: seqs →
  match NextOverrides t snapID with
  | None => ∀ pos, exhausted (ref :: seqs) (Choices ref) pos
  | Some ov => ∃ pos ev idx, Choices ref !! pos = Some ev ∧ 0 ≤ idx < TotalChoices ev ∧
      1 < TotalChoices ev ∧ ¬ took (ref :: seqs) pos idx ∧
      (∀ j, 0 ≤ j < idx → took (ref :: seqs) pos j) ∧
      (∀ q, (q < pos)%nat → exhausted (ref :: seqs) (Choices ref) q) ∧
      ov = override (length (Choices ref)) pos idx
  end.
Proof.
  intros Hh. unfold NextOverrides. rewrite Hh.
  pose proof (next_loop_spec (ref :: seqs) (length (Choices ref)) (Choices ref) []) as Hs.
  simpl length in Hs. rewrite app_nil_l in Hs. destruct (next_loop _ _ 0 _).
  - destruct Hs as (pos & ev & idx & _ & H1 & H2 & H3 & H4 & H5 & H6 & H7).
    exists pos, ev, idx. split_and!; try done; try lia. intros q Hq. apply H6. lia.
  - intros pos. apply Hs. lia.
Qed.

Lemma history_record t snapID s :
  Choices s ≠ [] → history_of (RecordFromSnapshot t snapID s) snapID = history_of t snapID ++ [s].
Proof.
  intros Hs. unfold RecordFromSnapshot. destruct (Choices s) eqn:E; [done|].
  unfold history_of at 1. simpl. by rewrite lookup_insert_eq.
Qed.

Lemma override_step burst t snapID ref seqs ov :
  follows burst → history_of t snapID = ref :: seqs → NextOverrides t snapID = Some ov →
  history_of (RecordFromSnapshot t snapID (burst ov)) snapID = ref :: (seqs ++ [burst ov]) ∧
  (remaining (ref :: seqs ++ [burst ov]) (Choices ref) < remaining (ref :: seqs) (Choices ref))%nat.
Proof.
  intros Hf Hh Ho. pose proof (NextOverrides_cases t snapID ref seqs Hh) as Hc. rewrite Ho in Hc.
  destruct Hc as (pos & ev & idx & Hp & Hi & Ht & Hno & _ & _ & Hov).
  assert (ov !! pos = Some idx) as Hl.
  { rewrite Hov. apply list_lookup_insert_eq. rewrite length_replicate. by eapply lookup_lt_Some. }
  destruct (Hf ov pos idx Hl ltac:(lia)) as (e & He & Hidx). split.
  - rewrite history_record by (intros E; by rewrite E in He). by rewrite Hh.
  - unfold remaining. apply (count_if_lt _ _ _ (pos, idx)).
    + intros [q i] _. simpl. rewrite !negb_true_iff, <- !not_true_iff_false, !is_tried_collect.
      intros Hn Ht'. apply Hn. change (took ((ref :: seqs) ++ [burst ov]) q i). by apply took_app.
    + by eapply elem_of_cells.
    + simpl. rewrite negb_true_iff, <- not_true_iff_false, is_tried_collect. done.
    + simpl. rewrite negb_false_iff, is_tried_collect. exists (burst ov), e.
      rewrite elem_of_cons, elem_of_app, elem_of_cons. auto.
Qed.

Lemma explore_end burst snapID : follows burst → ∀ n t ref seqs,
  history_of t snapID = ref :: seqs → (remaining (ref :: seqs) (Choices ref) ≤ n)%nat →
  NextOverrides (explore burst snapID n t) snapID = None ∧
  ∃ more, history_of (explore burst snapID n t) snapID = ref :: seqs ++ more.
Proof.
  intros Hf. induction n as [|n IH]; intros t ref seqs Hh Hn; simpl;
    destruct (NextOverrides t snapID) as [ov|] eqn:Ho.
  - destruct (override_step burst t snapID ref seqs ov Hf Hh Ho). lia.
  - split; [done|]. exists []. by rewrite app_nil_r.
  - destruct (override_step burst t snapID ref seqs ov Hf Hh Ho) as [Hh' Hlt].
    destruct (IH _ ref (seqs ++ [burst ov]) Hh' ltac:(lia)) as [H1 (more & H2)].
    split; [done|]. exists (burst ov :: more). by rewrite H2, <- app_assoc.
  - split; [done|]. exists []. by rewrite app_nil_r.
Qed.

(** C26: [NextOverrides] is complete for the first recorded sequence of a
    snapshot: it answers nil exactly when nothing was recorded or every
    alternative at every position of that sequence was taken by some recorded
    sequence; otherwise its answer overrides the first position with an untaken
    alternative by the least such alternative and leaves every other position
    to the generator (-1). *)
Theorem NextOverrides_complete t (snapID : string) :
  match NextOverrides t snapID with
  | None => ∀ ref seqs, history_of t snapID = ref :: seqs →
      ∀ pos, exhausted (ref :: seqs) (Choices ref) pos
  | Some ov => ∃ ref seqs pos ev idx, history_of t snapID = ref :: seqs ∧
      Choices ref !! pos = Some ev ∧ 0 ≤ idx < TotalChoices ev ∧ 1 < TotalChoices ev ∧
      ¬ took (ref :: seqs) pos idx ∧ (∀ j, 0 ≤ j < idx → took (ref :: seqs) pos j) ∧
      (∀ q, (q < pos)%nat → exhausted (ref :: seqs) (Choices ref) q) ∧
      ov = <[pos := idx]> (replicate (length (Choices ref)) (-1))
  end.
Proof.
  destruct (history_of t snapID) as [|ref seqs] eqn:Hh.
  - unfold NextOverrides. by rewrite Hh.
  - pose proof (NextOverrides_cases t snapID ref seqs Hh) as Hc.
    destruct (NextOverrides t snapID).
    + destruct Hc as (pos & ev & idx & Hc). exists ref, seqs, pos, ev, idx. done.
    + intros r s [= <- <-]. done.
Qed.

(** Directing terminates and exhausts the branches of the reference
    sequence: when the guest obeys its overrides, recording a directed burst
    and asking again reaches nil within as many bursts as the first sequence
    has alternatives in total, and then every alternative of every position of
    it was taken. *)
Theorem overrides_exhaust (burst : list Z → ChoiceSequence) t (snapID : string)
    (ref : ChoiceSequence) (seqs : list ChoiceSequence)
    (Hf : follows burst) (Hh : history_of t snapID = ref :: seqs) :
  let t' := explore burst snapID (length (cells (Choices ref))) t in
  NextOverrides t' snapID = None ∧
  ∀ pos, exhausted (history_of t' snapID) (Choices ref) pos.
Proof.
  destruct (explore_end burst snapID Hf (length (cells (Choices ref))) t ref seqs Hh) as [H1 (more & H2)].
  { apply count_if_le_length. }
  split; [done|]. rewrite H2. pose proof (NextOverrides_cases _ _ _ _ H2) as Hc. by rewrite H1 in Hc.
Qed.

(** [RecordSequence] reports a nonempty sequence as new exactly once per
    hash, and [Len] counts the hashes reported. *)
Theorem RecordSequence_once t (seq : ChoiceSequence) :
  let r := RecordSequence t seq in
  (r.1 = true ↔ Choices seq ≠ [] ∧ bm_contains (seen t) (Hash seq) = false) ∧
  (RecordSequence r.2 seq).1 = false ∧
  Len r.2 = Len t + (if r.1 then 1 else 0).
Proof.
  unfold RecordSequence, Len. destruct (Choices seq) eqn:Hc; simpl.
  { split_and!; [naive_solver|done|lia]. }
  destruct (bm_contains (seen t) (Hash seq)) eqn:Hb; simpl.
  - rewrite Hb. split_and!; [naive_solver|done|lia].
  - rewrite bm_contains_add, Z.eqb_refl, bm_cardinality_add, Hb. by split_and!.
Qed.

End props.

#[global] Instance gset_bitmap_laws : Bitmap64Laws (gset Z).
Proof.
  split; simpl.
  - intros x. by apply bool_decide_eq_false, not_elem_of_empty.
  - intros b x y. apply eq_bool_prop_intro. rewrite orb_True, !bool_decide_spec, elem_of_union, elem_of_singleton.
    rewrite Z.eqb_compare. destruct (Z.compare_spec y x); naive_solver lia.
  - done.
  - intros b x. case_bool_decide.
    + rewrite (subseteq_union_1_L {[x]} b) by set_solver. lia.
    + rewrite size_union by set_solver. rewrite size_singleton. lia.
Qed.

(** Branches outside the first sequence are missed: after a run that chose
    0 of 2 and a run that chose 1 of 2 and then met a second choice of 0 of 2,
    [NextOverrides] answers nil although alternative 1 of the second choice was
    never taken. *)
Theorem NextOverrides_misses_later_branches :
  let t := RecordFromSnapshot (RecordFromSnapshot (NewInputTreeTracker (B := gset Z)) "s"
             (NewChoiceSequence [mkChoice 0 2 "int"])) "s"
             (NewChoiceSequence [mkChoice 1 2 "int"; mkChoice 0 2 "int"]) in
  NextOverrides t "s" = None ∧ ¬ took (history_of t "s") 1 1.
Proof.
  intros t. split; [vm_compute; reflexivity|].
  rewrite <- is_tried_collect, not_true_iff_false. vm_compute. reflexivity.
Qed.

(** A guest with a choice among two and a choice among three, which takes 0
    unless told otherwise. *)
Definition obey (ov : list Z) (pos : nat) : Z :=
  match ov !! pos with Some i => if 0 <=? i then i else 0 | None => 0 end.

Definition demo_burst (ov : list Z) : ChoiceSequence :=
  NewChoiceSequence (imap (λ pos total, mkChoice (obey ov pos) total "int")
    (replicate (Nat.max 2 (length ov)) 3)).

Lemma demo_follows : follows demo_burst.
Proof.
  intros ov pos idx Hl Hi. exists (mkChoice (obey ov pos) 3 "int"). simpl. split.
  - unfold demo_burst. simpl Choices. rewrite list_lookup_imap, lookup_replicate_2; [done|].
    apply lookup_lt_Some in Hl. lia.
  - unfold obey. rewrite Hl. by apply Z.leb_le in Hi as ->.
Qed.

Definition demo_tracker : InputTreeTracker (gset Z) :=
  RecordFromSnapshot NewInputTreeTracker "s" (demo_burst []).

Lemma NextOverrides_complete_witness :
  NextOverrides demo_tracker "s" = Some [1; -1] ∧ ¬ took (history_of demo_tracker "s") 0 1.
Proof.
  split; [vm_compute; reflexivity|]. pose proof (NextOverrides_complete demo_tracker "s") as H.
  assert (NextOverrides demo_tracker "s" = Some [1; -1]) as E by (vm_compute; reflexivity).
  rewrite E in H. destruct H as (ref & seqs & pos & ev & idx & Hh & Hp & Hi & _ & Hn & _ & _ & Hov).
  rewrite Hh. change (history_of demo_tracker "s") with [demo_burst []] in Hh. injection Hh as <- <-.
  destruct pos as [|[|pos]]; simpl in Hov; [|congruence|discriminate Hp].
  injection Hov as <-. exact Hn.
Defined.

Lemma overrides_exhaust_witness :
  NextOverrides (explore demo_burst "s" 6 demo_tracker) "s" = None.
Proof. exact (proj1 (overrides_exhaust demo_burst demo_tracker "s" (demo_burst []) [] demo_follows eq_refl)). Defined.

Lemma RecordSequence_once_witness :
  (RecordSequence (NewInputTreeTracker (B := gset Z)) (demo_burst [])).1 = true.
Proof. apply (RecordSequence_once NewInputTreeTracker (demo_burst [])). split; [discriminate|reflexivity]. Defined.
