(* ===== verification/ChoiceBuffer.v ===== *)
(** * The buffer of the choices of a burst, and the sequences that share it
    ([internal/explorer/input_tree.go], [internal/orchestrator/explore.go], [pool.go])

    A burst's choices are appended to a slice that is cut to length zero at the
    start of the next burst ([stepChoiceEvents[:0]]); the sequence handed to the
    tracker is that slice, not a copy.  Here a slice is an array and a length,
    the tracker holds slices, and what it reads is what the array holds when it
    reads it: [tracker_view] is the tracker of [InputTree] that it sees. *)
From stdpp Require Import strings.
From S2P Require Import Prelude Word InputTree.
Local Open Scope Z_scope.

(** ** Slices *)

(** The arrays ever allocated; the length of one is its capacity. *)
Abbreviation arrays := (list (list ChoiceEvent)).

Record Slice := mkSlice { sl_array : nat; sl_len : nat }.

(** The capacity that the runtime gives a full slice of that length when it
    grows; nothing is assumed of it, and room for the new element is always made. *)
Class Growth := grow : nat → nat.

Definition zero_event : ChoiceEvent := mkChoice 0 0 "".

Definition cells (m : arrays) (a : nat) : list ChoiceEvent := default [] (m !! a).

Definition slice_get (m : arrays) (s : Slice) : list ChoiceEvent := take (sl_len s) (cells m (sl_array s)).

(** [s[:0]]. *)
Definition slice_reset (s : Slice) : Slice := mkSlice (sl_array s) 0.

(** No allocation yet, and the nil slice. *)
Definition no_arrays : arrays := [].
Definition nil_slice : Slice := mkSlice 0 0.

Section buffer.
Context `{Growth}.

(** [append(s, x)]: in place where there is room, in a new array otherwise. *)
Definition slice_append (m : arrays) (s : Slice) (x : ChoiceEvent) : arrays * Slice :=
  let cs := cells m (sl_array s) in
  let n := sl_len s in
  if (n <? length cs)%nat then (<[sl_array s := <[n := x]> cs]> m, mkSlice (sl_array s) (S n))
  else (m ++ [take n cs ++ x :: replicate (grow n - S n) zero_event], mkSlice (length m) (S n)).

Definition slice_append_all (m : arrays) (s : Slice) (xs : list ChoiceEvent) : arrays * Slice :=
  foldl (λ r x, slice_append r.1 r.2 x) (m, s) xs.
End buffer.

(** ** The tracker *)

(** [ChoiceSequence], and [InputTreeTracker] with it. *)
Record Sequence := mkSeq { sq_choices : Slice; sq_hash : Z }.

Record Tracker (B : Type) := mkRefTracker { tr_seen : B; tr_history : gmap string (list Sequence) }.
Arguments mkRefTracker {B}. Arguments tr_seen {B}. Arguments tr_history {B}.

Definition NewSequence (m : arrays) (s : Slice) : Sequence := mkSeq s (hashChoiceSequence (slice_get m s)).

Definition deref (m : arrays) (sq : Sequence) : ChoiceSequence := mkSequence (slice_get m (sq_choices sq)) (sq_hash sq).

Section tracker.
Context {B : Type} `{Bitmap64 B}.

Definition tracker_view (m : arrays) (t : Tracker B) : InputTreeTracker B :=
  mkTracker (tr_seen t) (map (deref m) <$> tr_history t).

Definition NewTracker : Tracker B := mkRefTracker bm_new ∅.

Definition RecordSequence (t : Tracker B) (sq : Sequence) : bool * Tracker B :=
  if (sl_len (sq_choices sq) =? 0)%nat then (false, t)
  else if bm_contains (tr_seen t) (sq_hash sq) then (false, t)
  else (true, mkRefTracker (bm_add (tr_seen t) (sq_hash sq)) (tr_history t)).

Definition RecordFromSnapshot (t : Tracker B) (snapID : string) (sq : Sequence) : Tracker B :=
  if (sl_len (sq_choices sq) =? 0)%nat then t
  else mkRefTracker (tr_seen t) (<[snapID := default [] (tr_history t !! snapID) ++ [sq]]> (tr_history t)).

Definition NextOverrides (m : arrays) (t : Tracker B) (snapID : string) : option (list Z) :=
  InputTree.NextOverrides (tracker_view m t) snapID.
End tracker.

(** ** Specification *)

(** A slice within its array. *)
Definition valid (m : arrays) (s : Slice) : Prop := (sl_len s ≤ length (cells m (sl_array s)))%nat.

(** What the tracker and the buffer go through: a burst that starts at the
    snapshot [b.1] and makes the choices [b.2]. *)
Definition log_burst `{Growth} {B} (st : arrays * Slice * Tracker B) (b : string * list ChoiceEvent) : arrays * Slice * Tracker B :=
  let '(m, s, t) := st in
  let '(m, s) := slice_append_all m (slice_reset s) b.2 in
  (m, s, RecordFromSnapshot t b.1 (NewSequence m s)).

Definition log_bursts `{Growth} {B} : arrays * Slice * Tracker B → list (string * list ChoiceEvent) → arrays * Slice * Tracker B :=
  foldl log_burst.

(** All that was ever recorded is the slice [s]. *)
Definition all_same {B} (t : Tracker B) (s : Slice) : Prop :=
  ∀ id sqs, tr_history t !! id = Some sqs → Forall (λ sq, sq_choices sq = s) sqs.

(** ** Lemmas *)

Section lemmas.
Context `{Growth}.

Lemma slice_append_spec m s x : valid m s →
  let '(m', s') := slice_append m s x in
  valid m' s' ∧ slice_get m' s' = slice_get m s ++ [x] ∧ sl_len s' = S (sl_len s) ∧
  ((sl_len s < length (cells m (sl_array s)))%nat →
   sl_array s' = sl_array s ∧ length (cells m' (sl_array s)) = length (cells m (sl_array s))).
Proof.
  unfold valid, slice_append, slice_get. destruct s as [a n]. cbn [sl_array sl_len]. intros Hv.
  destruct (Nat.ltb_spec n (length (cells m a))) as [Hlt|Hge]; cbn [sl_array sl_len].
  - assert (a < length m)%nat as Ha.
    { unfold cells in Hlt. destruct (m !! a) eqn:E; [by eapply lookup_lt_Some|]. cbn in Hlt. lia. }
    assert (cells (<[a := <[n := x]> (cells m a)]> m) a = <[n := x]> (cells m a)) as Hc.
    { unfold cells at 1. by rewrite list_lookup_insert_eq. }
    rewrite Hc, length_insert. split_and!; [lia| |done|done].
    rewrite (take_S_r _ n x) by (apply list_lookup_insert_eq; lia). by rewrite take_insert_ge by lia.
  - assert (cells (m ++ [take n (cells m a) ++ x :: replicate (grow n - S n) zero_event]) (length m) =
            take n (cells m a) ++ x :: replicate (grow n - S n) zero_event) as Hc.
    { unfold cells at 1. by rewrite lookup_app_r, Nat.sub_diag by lia. }
    rewrite Hc, length_app, length_take. cbn [length]. split_and!; [lia| |done|lia].
    rewrite firstn_app, length_take, Nat.min_l, take_take by lia. replace (S n - n)%nat with 1%nat by lia.
    rewrite Nat.min_r by lia. done.
Qed.

Lemma slice_append_all_spec xs : ∀ m s, valid m s →
  let '(m', s') := slice_append_all m s xs in
  valid m' s' ∧ slice_get m' s' = slice_get m s ++ xs ∧ sl_len s' = (sl_len s + length xs)%nat ∧
  ((sl_len s + length xs ≤ length (cells m (sl_array s)))%nat → sl_array s' = sl_array s).
Proof.
  unfold slice_append_all. induction xs as [|x xs IH]; intros m s Hv; cbn [foldl length fst snd].
  { rewrite app_nil_r, Nat.add_0_r. done. }
  pose proof (slice_append_spec m s x Hv) as Hs. destruct (slice_append m s x) as [m1 s1].
  destruct Hs as (Hv1 & Hg1 & Hl1 & Hi1). specialize (IH m1 s1 Hv1). cbn [fst snd]. destruct (foldl _ (m1, s1) xs) as [m2 s2].
  destruct IH as (Hv2 & Hg2 & Hl2 & Hi2). split_and!; [done| |lia|].
  - by rewrite Hg2, Hg1, <- app_assoc.
  - intros Hc. destruct Hi1 as [Ha Hlen]; [lia|]. rewrite Hi2; [done|]. rewrite Ha, Hl1, Hlen. lia.
Qed.

Lemma valid_reset m s : valid m (slice_reset s).
Proof. unfold valid. cbn. lia. Qed.

(** A burst of as many choices as fit leaves every recorded slice as it is, and
    changes what it holds. *)
Lemma log_burst_reuses {B} `{Bitmap64 B} m s (t : Tracker B) b :
  b.2 ≠ [] → all_same t s → length b.2 = sl_len s → valid m s →
  let '(m', s', t') := log_burst (m, s, t) b in
  s' = s ∧ valid m' s ∧ slice_get m' s = b.2 ∧ all_same t' s ∧
  tr_history t' = <[b.1 := default [] (tr_history t !! b.1) ++ [NewSequence m' s]]> (tr_history t).
Proof.
  intros Hne Ht Hlen Hv. unfold log_burst.
  pose proof (slice_append_all_spec b.2 m (slice_reset s) (valid_reset m s)) as Hs.
  destruct (slice_append_all m (slice_reset s) b.2) as [m' s']. destruct Hs as (Hv' & Hg & Hl & Hi).
  cbn [slice_reset sl_len sl_array] in *. rewrite Nat.add_0_l in *.
  assert (s' = s) as ->.
  { destruct s as [a n], s' as [a' n']. cbn [sl_len sl_array] in *. f_equal; [|lia]. apply Hi. rewrite Hlen. done. }
  unfold RecordFromSnapshot. cbn [NewSequence sq_choices]. destruct (Nat.eqb_spec (sl_len s) 0) as [E|_].
  { exfalso. apply Hne. apply nil_length_inv. lia. }
  split_and!; [done|done|by rewrite Hg| |done].
  intros id sqs. cbn [tr_history]. destruct (decide (b.1 = id)) as [<-|Hn].
  - rewrite lookup_insert_eq. intros [= <-]. apply Forall_app. split; [|by repeat constructor].
    destruct (tr_history t !! b.1) eqn:E; cbn; [by eapply Ht|constructor].
  - rewrite lookup_insert_ne by done. apply Ht.
Qed.

(** After bursts that each make [n] choices: one slice, which holds the choices
    of the last one. *)
Lemma log_bursts_reused {B} `{Bitmap64 B} bs b n : (0 < n)%nat → Forall (λ b, length b.2 = n) bs → length b.2 = n →
  let '(m, s, t) := log_bursts (no_arrays, nil_slice, NewTracker (B := B)) (bs ++ [b]) in
  (slice_get m s = b.2 ∧ all_same t s ∧ ∀ id, id ∈ map fst (bs ++ [b]) → ∃ sq sqs, tr_history t !! id = Some (sq :: sqs)).
Proof.
  intros Hn Hbs Hb. enough (let '(m, s, t) := log_bursts (no_arrays, nil_slice, NewTracker (B := B)) (bs ++ [b]) in
    (slice_get m s = b.2 ∧ all_same t s ∧ ∀ id, id ∈ map fst (bs ++ [b]) → ∃ sq sqs, tr_history t !! id = Some (sq :: sqs)) ∧
    valid m s ∧ sl_len s = n) as Hi by (destruct (log_bursts _ _) as [[??]?]; apply Hi).
  revert b Hb. induction bs as [|b0 bs IH] using rev_ind; intros b Hb.
  - cbn [app log_bursts foldl]. unfold log_burst.
    pose proof (slice_append_all_spec b.2 no_arrays (slice_reset nil_slice) (valid_reset _ _)) as Hs.
    destruct (slice_append_all no_arrays (slice_reset nil_slice) b.2) as [m s]. destruct Hs as (Hv & Hg & Hl & _).
    cbn [slice_reset sl_len] in Hl. rewrite Nat.add_0_l, Hb in Hl. unfold RecordFromSnapshot. cbn [NewSequence sq_choices NewTracker tr_history].
    destruct (Nat.eqb_spec (sl_len s) 0); [lia|]. unfold all_same. cbn [tr_history map fst]. rewrite lookup_empty. cbn [default app].
    split_and!; try done.
    + intros id sqs. rewrite lookup_insert_Some, lookup_empty. intros [[_ <-]|[_ ?]]; [by repeat constructor|done].
    + intros id ->%list_elem_of_singleton. rewrite lookup_insert_eq. eauto.
  - apply Forall_app in Hbs as [Hbs Hb0]. rewrite Forall_singleton in Hb0. specialize (IH Hbs b0 Hb0).
    unfold log_bursts in *. rewrite foldl_app. cbn [foldl]. destruct (foldl log_burst _ (bs ++ [b0])) as [[m s] t].
    destruct IH as ((Hg & Ht & Hh) & Hv & Hl).
    pose proof (log_burst_reuses m s t b) as Hs. destruct (log_burst (m, s, t) b) as [[m' s'] t'].
    destruct Hs as (-> & Hv' & Hg' & Ht' & Eh); [by intros E; rewrite E in Hb; cbn in Hb; lia|done|lia|done|].
    split_and!; try done. intros id. rewrite map_app, elem_of_app, Eh. intros Hid.
    destruct (decide (b.1 = id)) as [<-|Hne].
    + rewrite lookup_insert_eq. destruct (default [] (tr_history t !! b.1)); cbn; eauto.
    + rewrite lookup_insert_ne by done. apply Hh. destruct Hid as [?|Hid]; [done|]. cbn in Hid. set_solver.
Qed.
End lemmas.

(** ** Property *)


(** Three bursts from one snapshot with one choice among three: the history is
    three times the last one, and the alternative directed next is one that was
    taken before. *)
Definition double : Growth := λ n, Nat.max 1 (2 * n).

