(* ===== verification/Novelty.v ===== *)
(** * Scoring signals: assertion novelty, sub-goals, strategies
    ([internal/explorer/novelty.go], [subgoal.go], [strategy.go])

    Ranging over a Go string yields its UTF-8 decoded runes, modelled as the
    language specifies it.  The set of seen hashes is the roaring bitmap of
    [InputTree]. *)
From S2P Require Import Prelude Word Float Frontier InputTree.
From stdpp Require Import strings.
Local Open Scope Z_scope.

Record AssertionEval := mkEval {
  Step : Z; VTimeNS : Z; EvalSnapshotID : Z; Property : string; Message : string;
  AssertType : string; Condition : bool }.

(** [lo <= b <= hi]. *)
Definition within (lo hi b : Z) : bool := (lo <=? b) && (b <=? hi).

Definition RuneError : Z := 65533.

(** The rune at the head of a byte string and its width. *)
Definition decode_rune (bs : list Z) : Z * nat :=
  let cont := within 128 191 in
  match bs with
  | [] => (RuneError, 0%nat)
  | b0 :: r =>
      if b0 <? 128 then (b0, 1%nat)
      else if within 194 223 b0 then
        match r with
        | b1 :: _ => if cont b1 then ((b0 - 192) * 64 + (b1 - 128), 2%nat) else (RuneError, 1%nat)
        | _ => (RuneError, 1%nat)
        end
      else if within 224 239 b0 then
        let ok1 := within (if b0 =? 224 then 160 else 128) (if b0 =? 237 then 159 else 191) in
        match r with
        | b1 :: b2 :: _ =>
            if ok1 b1 && cont b2 then ((b0 - 224) * 4096 + (b1 - 128) * 64 + (b2 - 128), 3%nat)
            else (RuneError, 1%nat)
        | _ => (RuneError, 1%nat)
        end
      else if within 240 244 b0 then
        let ok1 := within (if b0 =? 240 then 144 else 128) (if b0 =? 244 then 143 else 191) in
        match r with
        | b1 :: b2 :: b3 :: _ =>
            if ok1 b1 && cont b2 && cont b3
            then ((b0 - 240) * 262144 + (b1 - 128) * 4096 + (b2 - 128) * 64 + (b3 - 128), 4%nat)
            else (RuneError, 1%nat)
        | _ => (RuneError, 1%nat)
        end
      else (RuneError, 1%nat)
  end.

Fixpoint runes_fuel (fuel : nat) (bs : list Z) : list Z :=
  match fuel, bs with
  | S fuel, _ :: _ => let '(c, w) := decode_rune bs in c :: runes_fuel fuel (drop w bs)
  | _, _ => []
  end.

(** Every step consumes a byte, so the length is fuel enough. *)
Definition runes (s : string) : list Z := let bs := bytes_of s in runes_fuel (length bs) bs.

Definition hash_eval (h : Z) (ev : AssertionEval) : Z :=
  let h := foldl fnv_step h (runes (Property ev)) in
  let h := foldl fnv_step h (runes (AssertType ev)) in
  let h := if Condition ev then xor64 h 1 else h in
  mul64 h fnvPrime64.

Definition assertionHash (evals : list AssertionEval) : Z := foldl hash_eval fnvOffset64 evals.

Section scorer.
Context {B : Type} `{Bitmap64 B}.

(** [AssertionNoveltyScorer]: the set of seen hashes. *)
Definition NewAssertionNoveltyScorer : B := bm_new.

Definition ScoreEvals (s : B) (evals : list AssertionEval) : float64 * B :=
  match evals with
  | [] => (fzero, s)
  | _ =>
      let h := assertionHash evals in
      if bm_contains s h then (fzero, s) else (fone, bm_add s h)
  end.

Definition Seen (s : B) : Z := bm_cardinality s.
End scorer.

(** ** Sub-goals *)

Record SometimesAllState := mkSAState {
  SAName : string; BestSubGoals : gmap string bool; BestCount : Z; TotalSubGoals : Z;
  Satisfied : bool }.

Record SometimesAllEval := mkSAEval {
  EvalName : string; SubGoals : gmap string bool; SatisfiedCount : Z; TotalCount : Z }.

Definition RecordSometimesAllEval (tracker : gmap string SometimesAllState)
    (eval : SometimesAllEval) : float64 * gmap string SometimesAllState :=
  let state := match tracker !! EvalName eval with
               | Some state => state
               | None => mkSAState (EvalName eval) ∅ 0 (TotalCount eval) false
               end in
  let boost := fzero in
  let boost := if 0 <? TotalCount eval
    then fadd boost (fmul (fdiv (float_of_Z (SatisfiedCount eval)) (float_of_Z (TotalCount eval))) (float_of_Z 5000))
    else boost in
  let '(state, boost) :=
    if BestCount state <? SatisfiedCount eval
    then (mkSAState (SAName state) (SubGoals eval) (SatisfiedCount eval) (TotalSubGoals state) (Satisfied state),
          fadd boost (float_of_Z 3000))
    else (state, boost) in
  let '(state, boost) :=
    if (SatisfiedCount eval =? TotalCount eval) && (0 <? TotalCount eval) && negb (Satisfied state)
    then (mkSAState (SAName state) (BestSubGoals state) (BestCount state) (TotalSubGoals state) true,
          fadd boost (float_of_Z 10000))
    else (state, boost) in
  (boost, <[EvalName eval := state]> tracker).

Definition SometimesAllCoverageKey (name : string) (subGoals : gmap string bool) : string :=
  let trueGoals := (filter (λ kv, kv.2 = true) (map_to_list subGoals)).*1 in
  "sometimesAll:" +:+ name +:+ ":" +:+ String.concat "," (sort_by String.ltb trueGoals).

(** ** Strategies *)

Inductive Strategy := StrategyBreadthFirst | StrategyDepthFirst | StrategyCoverageGuided | StrategyMCTS.

(** [uint8] value of a strategy, and back. *)
Definition strategy_code (s : Strategy) : Z :=
  match s with
  | StrategyBreadthFirst => 0 | StrategyDepthFirst => 1 | StrategyCoverageGuided => 2 | StrategyMCTS => 3
  end.

(** [String] on the [uint8] underlying a [Strategy]. *)
Definition StrategyString (s : Z) : string :=
  if s =? strategy_code StrategyBreadthFirst then "breadth-first"
  else if s =? strategy_code StrategyDepthFirst then "depth-first"
  else if s =? strategy_code StrategyCoverageGuided then "coverage-guided"
  else if s =? strategy_code StrategyMCTS then "mcts"
  else "unknown".

Inductive Scorer := breadthFirstScorer | depthFirstScorer | coverageGuidedScorer.

(** [bits.OnesCount16]. *)
Definition OnesCount16 (x : Z) : Z :=
  Z.of_nat (count_if (λ i, Z.testbit x i) (seqZ 0 16)).

Definition coverageGuidedScore (e : FrontierEntry) : float64 :=
  let sat := GlobalSaturation e in
  let faultDiversity := fmul (float_of_Z (OnesCount16 (FaultKindMask e))) (float_of_Z 300) in
  let edgeWeight := fmul (float_of_Z 200) (fsub fone (fmul sat sat)) in
  let violationMul := fadd fone sat in
  let rarityWeight := fmul (float_of_Z 500) (fadd fone sat) in
  let faultActiveBoost := fmul (fmul (FaultActiveEvalScore e) (float_of_Z 150)) (fadd fone sat) in
  fsub
    (fadd (fadd (fadd (fadd (fadd (fadd
      (fmul violationMul (SometimesBoost e))
      (fmul violationMul (ReachableBoost e)))
      faultActiveBoost)
      (NoveltyScore e))
      (fmul (RarityScore e) rarityWeight))
      faultDiversity)
      (fmul (float_of_Z (NewEdges e)) edgeWeight))
    (float_of_Z (Depth e)).

Definition ScoreEntry (s : Scorer) (e : FrontierEntry) : float64 :=
  match s with
  | breadthFirstScorer => fneg (float_of_Z (Depth e))
  | depthFirstScorer => float_of_Z (Depth e)
  | coverageGuidedScorer => coverageGuidedScore e
  end.

Definition NewScorer (s : Strategy) : Scorer :=
  match s with
  | StrategyDepthFirst => depthFirstScorer
  | StrategyCoverageGuided => coverageGuidedScorer
  | _ => breadthFirstScorer
  end.

(** ** Lemmas *)

Lemma within_bounds lo hi b : within lo hi b = true → lo ≤ b ≤ hi.
Proof. unfold within. intros [?%Z.leb_le ?%Z.leb_le]%andb_true_iff. lia. Qed.

Lemma decode_rune_word bs : Forall (λ b, 0 ≤ b < 256) bs → is_word 64 (decode_rune bs).1.
Proof.
  intros Hbs. destruct bs as [|b0 bs]; [done|]. apply Forall_cons in Hbs as [H0 Hbs]. simpl.
  destruct (b0 <? 128); [unfold is_word; simpl; lia|].
  assert (∀ lo1 lo2 hi1 hi2 (c d : bool) b, within (if c then lo1 else lo2) (if d then hi1 else hi2) b = true →
    (lo1 ≤ b ∨ lo2 ≤ b) ∧ (b ≤ hi1 ∨ b ≤ hi2)) as Hif.
  { intros lo1 lo2 hi1 hi2 [] [] b ?%within_bounds; lia. }
  destruct (within 194 223 b0) eqn:W1; [|destruct (within 224 239 b0) eqn:W2;
    [|destruct (within 240 244 b0) eqn:W3; [|done]]].
  - apply within_bounds in W1. destruct bs as [|b1 bs]; [done|].
    destruct (within 128 191 b1) eqn:E; [|done]. apply within_bounds in E. unfold is_word. simpl. lia.
  - apply within_bounds in W2. destruct bs as [|b1 [|b2 bs]]; [done|done|].
    match goal with |- context [if ?c then _ else _] => destruct c eqn:E end; [|done].
    apply andb_true_iff in E as [E1%Hif E2%within_bounds]. unfold is_word. simpl. lia.
  - apply within_bounds in W3. destruct bs as [|b1 [|b2 [|b3 bs]]]; [done..|].
    match goal with |- context [if ?c then _ else _] => destruct c eqn:E end; [|done].
    apply andb_true_iff in E as [[E1%Hif E2%within_bounds]%andb_true_iff E3%within_bounds].
    unfold is_word. simpl. lia.
Qed.

Lemma runes_word s : Forall (is_word 64) (runes s).
Proof.
  unfold runes. pose proof (bytes_of_bound s) as Hb. revert Hb. generalize (bytes_of s) as bs.
  assert (∀ n bs, Forall (λ b, 0 ≤ b < 256) bs → Forall (is_word 64) (runes_fuel n bs)) as E; [|auto].
  induction n as [|n IH]; intros [|b bs] Hb; simpl; try constructor.
  pose proof (decode_rune_word _ Hb) as Hw. pose proof (λ w, Forall_drop _ w _ Hb) as Hd.
  simpl in Hw, Hd. destruct (_ : Z * nat) as [c w]. constructor; [done|]. by apply IH.
Qed.

Lemma foldl_word {A} (f : Z → A → Z) l h :
  (∀ h x, is_word 64 h → is_word 64 (f h x)) → is_word 64 h → is_word 64 (foldl f h l).
Proof. intros Hf. revert h. induction l; intros; simpl; auto. Qed.

Lemma foldl_inj {A} (f : Z → A → Z) l x y :
  (∀ h x, is_word 64 h → is_word 64 (f h x)) →
  (∀ x y a, is_word 64 x → is_word 64 y → f x a = f y a → x = y) →
  is_word 64 x → is_word 64 y → foldl f x l = foldl f y l → x = y.
Proof. intros Hw Hf. revert x y. induction l as [|a l IH]; intros x y Hx Hy Heq; [done|]. eauto. Qed.

Lemma fnvOffset64_word : is_word 64 fnvOffset64.
Proof. done. Qed.

Definition hash_names (h : Z) (ev : AssertionEval) : Z :=
  foldl fnv_step (foldl fnv_step h (runes (Property ev))) (runes (AssertType ev)).

Lemma fnv_runes_word h cs : is_word 64 h → is_word 64 (foldl fnv_step h cs).
Proof. apply foldl_word. intros. apply mul64_word. Qed.

Lemma mul_prime_inj x y :
  is_word 64 x → is_word 64 y → mul64 x fnvPrime64 = mul64 y fnvPrime64 → x = y.
Proof. apply (mul64_inj fnvPrime64 14886173955864302971). reflexivity. Qed.

Lemma hash_eval_word h ev : is_word 64 h → is_word 64 (hash_eval h ev).
Proof. intros _. apply mul64_word. Qed.

Lemma hash_eval_inj x y ev :
  is_word 64 x → is_word 64 y → hash_eval x ev = hash_eval y ev → x = y.
Proof.
  intros Hx Hy Heq. unfold hash_eval in Heq.
  assert (is_word 64 1) as H1 by (unfold is_word; simpl; lia).
  apply mul_prime_inj in Heq.
  - assert (hash_names x ev = hash_names y ev) as Hn.
    { destruct (Condition ev); [|done].
      apply (f_equal (λ z, Z.lxor z 1)) in Heq. unfold xor64 in Heq.
      by rewrite !Z.lxor_assoc, !Z.lxor_nilpotent, !Z.lxor_0_r in Heq. }
    unfold hash_names in Hn. apply fnv_fold_inj in Hn; [|apply runes_word|by apply fnv_runes_word..].
    by apply fnv_fold_inj in Hn; [|apply runes_word|..].
  - destruct (Condition ev); [apply xor64_word; [|done]|]; by repeat apply fnv_runes_word.
  - destruct (Condition ev); [apply xor64_word; [|done]|]; by repeat apply fnv_runes_word.
Qed.

Lemma hash_eval_condition h e1 e2 :
  is_word 64 h → Property e1 = Property e2 → AssertType e1 = AssertType e2 → Condition e1 ≠ Condition e2 →
  hash_eval h e1 ≠ hash_eval h e2.
Proof.
  intros Hh HP HA HC Heq. unfold hash_eval in Heq. rewrite HP, HA in Heq.
  assert (is_word 64 (hash_names h e2)) as Hw by by repeat apply fnv_runes_word.
  unfold hash_names in Hw. set (n := foldl _ _ (runes (AssertType e2))) in *.
  assert (is_word 64 1) as H1 by (unfold is_word; simpl; lia).
  assert (xor64 n 1 ≠ n) as Hx.
  { intros E. apply (f_equal (λ z, Z.lxor n z)) in E. unfold xor64 in E.
    by rewrite <- Z.lxor_assoc, Z.lxor_nilpotent, Z.lxor_0_l in E. }
  apply mul_prime_inj in Heq.
  - destruct (Condition e1), (Condition e2); congruence.
  - destruct (Condition e1); [by apply xor64_word|done].
  - destruct (Condition e2); [by apply xor64_word|done].
Qed.

(** The assertion hash sees every condition: two evaluation sequences that
    agree except that one evaluation of the same assertion came out true in one
    and false in the other have different hashes, so a scorer that has seen only
    one of them scores the other as novel. *)
Theorem assertionHash_condition {B} `{Bitmap64Laws B} (pre post : list AssertionEval) (e1 e2 : AssertionEval)
    (HP : Property e1 = Property e2) (HA : AssertType e1 = AssertType e2) (HC : Condition e1 ≠ Condition e2) :
  assertionHash (pre ++ e1 :: post) ≠ assertionHash (pre ++ e2 :: post) ∧
  let s := (ScoreEvals NewAssertionNoveltyScorer (pre ++ e1 :: post)).2 : B in
  (ScoreEvals s (pre ++ e1 :: post)).1 = fzero ∧
  (ScoreEvals s (pre ++ e2 :: post)).1 = fone ∧
  Seen (ScoreEvals s (pre ++ e2 :: post)).2 = 2.
Proof.
  assert (∀ l, is_word 64 (assertionHash l)) as Hw.
  { intros l. apply foldl_word; [apply hash_eval_word|apply fnvOffset64_word]. }
  assert (assertionHash (pre ++ e1 :: post) ≠ assertionHash (pre ++ e2 :: post)) as Hne.
  { unfold assertionHash. rewrite !foldl_app. simpl. intros Heq.
    apply (foldl_inj hash_eval post) in Heq; [|apply hash_eval_word|apply hash_eval_inj|apply mul64_word..].
    by apply (hash_eval_condition (assertionHash pre) e1 e2) in Heq. }
  split; [done|]. unfold ScoreEvals, Seen, NewAssertionNoveltyScorer.
  assert (∀ e, ∃ x l, pre ++ e :: post = x :: l) as Hcons by (intros e; destruct pre; simpl; eauto).
  destruct (Hcons e1) as (x1 & l1 & E1), (Hcons e2) as (x2 & l2 & E2). rewrite E1, E2 in *. cbv zeta.
  rewrite bm_contains_new. cbn [fst snd]. rewrite !bm_contains_add, Z.eqb_refl, bm_contains_new, orb_false_r.
  cbn [orb fst snd]. apply not_eq_sym, Z.eqb_neq in Hne. rewrite Hne, !bm_contains_new. cbn [orb fst snd].
  rewrite !bm_cardinality_add, bm_cardinality_new, bm_contains_add, bm_contains_new, Hne.
  rewrite bm_contains_new. by split_and!.
Qed.

(** The evaluations of one assertion, recorded one after the other. *)
Definition record_all (tracker : gmap string SometimesAllState) (evals : list SometimesAllEval)
    : gmap string SometimesAllState :=
  foldl (λ t ev, (RecordSometimesAllEval t ev).2) tracker evals.

Definition complete (ev : SometimesAllEval) : bool :=
  (SatisfiedCount ev =? TotalCount ev) && (0 <? TotalCount ev).

Lemma record_one t ev :
  let st := default (mkSAState (EvalName ev) ∅ 0 (TotalCount ev) false) (t !! EvalName ev) in
  (RecordSometimesAllEval t ev).2 =
  <[EvalName ev := mkSAState (SAName st)
      (if BestCount st <? SatisfiedCount ev then SubGoals ev else BestSubGoals st)
      (Z.max (BestCount st) (SatisfiedCount ev)) (TotalSubGoals st) (Satisfied st || complete ev)]> t.
Proof.
  unfold RecordSometimesAllEval, complete. set (st := default _ (t !! EvalName ev)).
  replace (match t !! EvalName ev with Some s => s | None => _ end) with st
    by (unfold st; by destruct (t !! EvalName ev)).
  destruct st as [nm bs bc ts sf]. simpl.
  destruct (Z.ltb_spec bc (SatisfiedCount ev)); simpl;
    destruct ((SatisfiedCount ev =? TotalCount ev) && (0 <? TotalCount ev)), sf; simpl;
    do 2 f_equal; lia.
Qed.

(** What a tracker holds after the evaluations [l] of one assertion. *)
Record best_of (name : string) (l : list SometimesAllEval) (st : SometimesAllState) : Prop := {
  best_name : SAName st = name;
  best_count : BestCount st = foldr Z.max 0 (map SatisfiedCount l);
  best_total : head (map TotalCount l) = Some (TotalSubGoals st);
  best_satisfied : Satisfied st = existsb complete l;
  best_goals : (BestCount st = 0 ∧ BestSubGoals st = ∅) ∨
    ∃ l1 e l2, l = l1 ++ e :: l2 ∧ SatisfiedCount e = BestCount st ∧ 0 < BestCount st ∧
      BestSubGoals st = SubGoals e ∧ ∀ x, x ∈ l1 → SatisfiedCount x < BestCount st }.

Lemma foldr_max_snoc l x : foldr Z.max 0 (l ++ [x]) = Z.max (foldr Z.max 0 l) x.
Proof. induction l as [|y l IH]; simpl; lia. Qed.

Lemma foldr_max_ge l x : x ∈ l → x ≤ foldr Z.max 0 l.
Proof. induction 1; simpl; lia. Qed.

Lemma existsb_snoc {A} (f : A → bool) l x : existsb f (l ++ [x]) = existsb f l || f x.
Proof. rewrite existsb_app. simpl. by rewrite orb_false_r. Qed.

Lemma record_best_step name l e t :
  EvalName e = name →
  match t !! name with Some st => best_of name l st | None => l = [] end →
  ∃ st, (RecordSometimesAllEval t e).2 !! name = Some st ∧ best_of name (l ++ [e]) st.
Proof.
  intros He Ht. rewrite record_one, He, lookup_insert_eq. eexists; split; [done|].
  assert (∀ st, best_of name l st ∨ (l = [] ∧ st = mkSAState name ∅ 0 (TotalCount e) false) →
    best_of name (l ++ [e]) (mkSAState (SAName st)
      (if BestCount st <? SatisfiedCount e then SubGoals e else BestSubGoals st)
      (Z.max (BestCount st) (SatisfiedCount e)) (TotalSubGoals st) (Satisfied st || complete e))) as Hst.
  { intros st Hst.
    assert (SAName st = name ∧ BestCount st = foldr Z.max 0 (map SatisfiedCount l) ∧
      Satisfied st = existsb complete l ∧ head (map TotalCount (l ++ [e])) = Some (TotalSubGoals st) ∧
      ((BestCount st = 0 ∧ BestSubGoals st = ∅) ∨
       ∃ l1 e l2, l = l1 ++ e :: l2 ∧ SatisfiedCount e = BestCount st ∧ 0 < BestCount st ∧
         BestSubGoals st = SubGoals e ∧ ∀ x, x ∈ l1 → SatisfiedCount x < BestCount st)) as (H1 & H2 & H3 & H4 & H5).
    { destruct Hst as [[]|[-> ->]]; [|simpl; by auto 10]. split_and!; try done. by destruct l. }
    split; simpl; [done| |done| |].
    - rewrite map_app. change (map SatisfiedCount [e]) with [SatisfiedCount e]. by rewrite foldr_max_snoc, H2.
    - by rewrite existsb_snoc, H3.
    - destruct (Z.ltb_spec (BestCount st) (SatisfiedCount e)) as [Hlt|Hge].
      + right. assert (0 ≤ BestCount st) by (rewrite H2; clear; induction l; simpl; lia).
        exists l, e, []. split_and!; [done|lia|lia|done|]. intros x Hx.
        assert (SatisfiedCount x ≤ BestCount st); [|lia].
        rewrite H2. apply foldr_max_ge, list_elem_of_fmap. eauto.
      + rewrite Z.max_l by lia. destruct H5 as [?|(l1 & x & l2 & -> & H6)]; [by left|right].
        exists l1, x, (l2 ++ [e]). by rewrite <- app_assoc. }
  destruct (t !! name) as [st|]; [by apply Hst; left|].
  rewrite <- He in Hst |- *. by apply (Hst (mkSAState (EvalName e) ∅ 0 (TotalCount e) false)); right.
Qed.

(** The tracker keeps the best simultaneous satisfaction: after any
    evaluations of one assertion, [BestCount] is the largest satisfied count
    (0 if none is positive), [BestSubGoals] are the sub-goals of the first
    evaluation that reached it, and [Satisfied] holds exactly when some
    evaluation had all of a positive number of sub-goals. *)
Theorem RecordSometimesAllEval_best (name : string) (evals : list SometimesAllEval)
    (Hne : evals ≠ []) (Hn : ∀ e, e ∈ evals → EvalName e = name) :
  ∃ st, record_all ∅ evals !! name = Some st ∧
    BestCount st = foldr Z.max 0 (map SatisfiedCount evals) ∧
    Satisfied st = existsb complete evals ∧
    ((BestCount st = 0 ∧ BestSubGoals st = ∅) ∨
     ∃ l1 e l2, evals = l1 ++ e :: l2 ∧ SatisfiedCount e = BestCount st ∧ 0 < BestCount st ∧
       BestSubGoals st = SubGoals e ∧ ∀ x, x ∈ l1 → SatisfiedCount x < BestCount st).
Proof.
  assert (match record_all ∅ evals !! name with Some st => best_of name evals st | None => evals = [] end) as H.
  { clear Hne. induction evals as [|e l IH] using rev_ind; [done|].
    unfold record_all. rewrite foldl_app. simpl.
    destruct (record_best_step name l e (record_all ∅ l)) as (st & Hst & Hb).
    - apply Hn. set_solver.
    - apply IH. set_solver.
    - unfold record_all in Hst. by rewrite Hst. }
  destruct (record_all ∅ evals !! name) as [st|]; [|done]. exists st. by destruct H.
Qed.

Definition demo_eval (cond : bool) : AssertionEval := mkEval 0 0 0 "p" "m" "sometimes" cond.

Lemma assertionHash_condition_witness :
  let s := (ScoreEvals (NewAssertionNoveltyScorer (B := gset Z)) [demo_eval true]).2 in
  (ScoreEvals s [demo_eval false]).1 = fone.
Proof.
  destruct (assertionHash_condition (B := gset Z) [] [] (demo_eval true) (demo_eval false) eq_refl eq_refl)
    as (_ & _ & H & _); [discriminate|exact H].
Defined.

Lemma RecordSometimesAllEval_best_witness :
  let ev k g := mkSAEval "a" g k 3 in
  ∃ st, record_all ∅ [ev 1 {["x" := true]}; ev 2 ∅; ev 1 ∅] !! "a" = Some st ∧ BestCount st = 2.
Proof.
  intros ev. destruct (RecordSometimesAllEval_best "a" [ev 1 {["x" := true]}; ev 2 ∅; ev 1 ∅])
    as (st & H1 & H2 & _); [discriminate| |].
  - intros e He. repeat (apply elem_of_cons in He as [->|He]; [reflexivity|]). by apply elem_of_nil in He.
  - exists st. split; [exact H1|exact H2].
Defined.
