(* ===== verification/Mcts.v ===== *)
(** * Monte Carlo tree search over the snapshot tree ([internal/explorer/mcts.go])

    [math.Log] is a parameter of the section: nothing here depends on its
    values.  [Select] and [Backpropagate] loop without a bound in the source and
    take fuel here; the theorems give fuel that is enough. *)
From S2P Require Import Prelude Word Float Prng.
Local Open Scope Z_scope.

Record MCTSNode := mkNode {
  SnapshotID : Z; ParentID : Z; Children : list Z; Visits : Z; TotalReward : float64; Depth : Z }.

Record MCTSSelector := mkSelector { nodes : gmap Z MCTSNode; root : Z; explorationC : float64 }.

(** [math.Sqrt2], rounded to [float64]. *)
Definition Sqrt2 : float64 := flit 6369051672525773 4503599627370496.

Definition NewMCTSSelector (rootID : Z) (c : float64) : MCTSSelector :=
  mkSelector {[rootID := mkNode rootID rootID [] 0 fzero 0]} rootID (if fle c fzero then Sqrt2 else c).

Definition add_child (id : Z) (n : MCTSNode) : MCTSNode :=
  mkNode (SnapshotID n) (ParentID n) (Children n ++ [id]) (Visits n) (TotalReward n) (Depth n).

Definition RegisterNode (m : MCTSSelector) (id parentID depth : Z) : MCTSSelector :=
  match nodes m !! id with
  | Some _ => m
  | None =>
      let ns := <[id := mkNode id parentID [] 0 fzero depth]> (nodes m) in
      let ns := match ns !! parentID with
                | Some parent => <[parentID := add_child id parent]> ns
                | None => ns
                end in
      mkSelector ns (root m) (explorationC m)
  end.

Definition credit (reward : float64) (n : MCTSNode) : MCTSNode :=
  mkNode (SnapshotID n) (ParentID n) (Children n) (add64 (Visits n) 1) (fadd (TotalReward n) reward) (Depth n).

Fixpoint backprop_loop (fuel : nat) (ns : gmap Z MCTSNode) (root current : Z) (reward : float64)
    : option (gmap Z MCTSNode) :=
  match fuel with
  | O => None
  | S fuel =>
      match ns !! current with
      | None => Some ns
      | Some node =>
          let ns := <[current := credit reward node]> ns in
          if current =? root then Some ns
          else backprop_loop fuel ns root (ParentID node) reward
      end
  end.

Definition mcts_fuel (m : MCTSSelector) : nat := S (size (nodes m)).

Definition Backpropagate (m : MCTSSelector) (id : Z) (reward : float64) : option MCTSSelector :=
  (λ ns, mkSelector ns (root m) (explorationC m)) <$>
  backprop_loop (mcts_fuel m) (nodes m) (root m) id reward.

Definition NodeCount (m : MCTSSelector) : Z := Z.of_nat (size (nodes m)).

(** Visit count and average reward. *)
Definition Stats (m : MCTSSelector) (id : Z) : Z * float64 :=
  match nodes m !! id with
  | None => (0, fzero)
  | Some node =>
      if Visits node =? 0 then (0, fzero)
      else (Visits node, fdiv (TotalReward node) (float_of_Z (Visits node)))
  end.

Section select.
Context (log : float64 → float64).

Definition ucb1 (m : MCTSSelector) (node : MCTSNode) (logParentVisits : float64) : float64 :=
  if Visits node =? 0 then finf
  else
    let exploitation := fdiv (TotalReward node) (float_of_Z (Visits node)) in
    let exploration := fmul (explorationC m) (fsqrt (fdiv logParentVisits (float_of_Z (Visits node)))) in
    fadd exploitation exploration.

(** The unvisited children, in order. *)
Definition unvisited (m : MCTSSelector) (node : MCTSNode) : list Z :=
  filter (λ id, Visits <$> nodes m !! id = Some 0) (Children node).

Definition log_visits (visits : Z) : float64 :=
  log (float_of_Z (if visits =? 0 then 1 else visits)).

(** One candidate of the UCB1 loop, with the best so far. *)
Definition consider (m : MCTSSelector) (logParent : float64) (best : float64 * Z) (childID : Z)
    : float64 * Z :=
  match nodes m !! childID with
  | None => best
  | Some child =>
      let score := ucb1 m child logParent in
      if fgt score best.1 then (score, childID) else best
  end.

Definition best_child (m : MCTSSelector) (node : MCTSNode) (first : Z) : Z :=
  (foldl (consider m (log_visits (Visits node))) (fneginf, first) (Children node)).2.

Fixpoint select_loop (fuel : nat) (m : MCTSSelector) (rng : Source) (current : Z)
    : option (Z * Source) :=
  match fuel with
  | O => None
  | S fuel =>
      match nodes m !! current with
      | None => Some (current, rng)
      | Some node =>
          match Children node with
          | [] => Some (current, rng)
          | first :: _ =>
              match unvisited m node with
              | [] => select_loop fuel m rng (best_child m node first)
              | us =>
                  let '(x, rng') := Uint64 rng in
                  let idx := x mod Z.of_nat (length us) in
                  (λ id, (id, rng')) <$> us !! Z.to_nat idx
              end
          end
      end
  end.

Definition Select (m : MCTSSelector) (rng : Source) : option (Z * Source) :=
  select_loop (mcts_fuel m) m rng (root m).

Definition UCB1Score (m : MCTSSelector) (id : Z) : float64 :=
  match nodes m !! id with
  | None => finf
  | Some node =>
      if Visits node =? 0 then finf
      else
        match nodes m !! ParentID node with
        | None => fdiv (TotalReward node) (float_of_Z (Visits node))
        | Some parent => ucb1 m node (log_visits (Visits parent))
        end
  end.

End select.

(** ** The shape of the tree

    Snapshot identifiers grow from parent to child, and a recorded child is a
    registered node with that parent.  A parent need not be registered. *)
Record mcts_ok (m : MCTSSelector) : Prop := {
  ok_root : is_Some (nodes m !! root m);
  ok_parent id n : nodes m !! id = Some n → id ≠ root m → ParentID n < id;
  ok_children p n c : nodes m !! p = Some n → c ∈ Children n →
    c ≠ root m ∧ ∃ nc, nodes m !! c = Some nc ∧ ParentID nc = p }.

(** [y] is a child of [x] in the tree of the selector. *)
Definition child_of (m : MCTSSelector) (x y : Z) : Prop :=
  ∃ n, nodes m !! x = Some n ∧ y ∈ Children n.

(** The path of parent links from [id] that ends at the root [r] or at the first
    node that is not registered; [on_path r ns id x] says [x] is on it. *)
Inductive on_path (r : Z) (ns : gmap Z MCTSNode) : Z → Z → Prop :=
| path_here id n : ns !! id = Some n → on_path r ns id id
| path_up id n x : ns !! id = Some n → id ≠ r → on_path r ns (ParentID n) x → on_path r ns id x.

(** Nothing more to choose from at [id]: unvisited, or without children. *)
Definition frontier_node (m : MCTSSelector) (id : Z) : Prop :=
  ∃ n, nodes m !! id = Some n ∧ (Visits n = 0 ∨ Children n = []).

Definition visited (m : MCTSSelector) (id : Z) : Prop :=
  ∃ n, nodes m !! id = Some n ∧ Visits n ≠ 0.

(** ** Lemmas *)

Lemma nodes_filter_lt (m : gmap Z MCTSNode) (P Q : Z → Prop) `{∀ x, Decision (P x), ∀ x, Decision (Q x)} x :
  (∀ y, Q y → P y) → x ∈ dom m → P x → ¬ Q x →
  (size (filter Q (dom m)) < size (filter P (dom m)))%nat.
Proof. intros HQP Hx HP HQ. apply subset_size. set_solver. Qed.

Lemma new_selector_ok r c : mcts_ok (NewMCTSSelector r c).
Proof.
  split; simpl.
  - exists (mkNode r r [] 0 fzero 0). by rewrite lookup_singleton_eq.
  - intros id n [<- <-]%lookup_singleton_Some Hne. done.
  - intros p n c' [<- <-]%lookup_singleton_Some Hc. simpl in Hc. by apply elem_of_nil in Hc.
Qed.

Lemma RegisterNode_ok m id p d :
  mcts_ok m → p < id → mcts_ok (RegisterNode m id p d).
Proof.
  intros [Hr Hp Hc] Hlt. unfold RegisterNode. destruct (nodes m !! id) as [|] eqn:Hid; [done|].
  assert (id ≠ root m) as Hne by (intros ->; rewrite Hid in Hr; by destruct Hr).
  rewrite lookup_insert_ne by lia. set (new := mkNode id p [] 0 fzero d).
  destruct (nodes m !! p) as [pn|] eqn:Hpn.
  - split; simpl.
    + destruct (decide (root m = p)) as [->|]; [rewrite lookup_insert_eq; eauto|].
      by rewrite !lookup_insert_ne by done.
    + intros x n. rewrite !lookup_insert_Some. intros [[<- <-]|[? [[<- <-]|[? Hx]]]] Hxr; simpl; [by apply Hp in Hpn|done|by apply Hp in Hx].
    + assert (∀ q nq c, nodes m !! q = Some nq → c ∈ Children nq → c ≠ root m ∧
        ∃ nc, <[p:=add_child id pn]> (<[id:=new]> (nodes m)) !! c = Some nc ∧ ParentID nc = q) as Hold.
      { intros q nq c Hq Hin. destruct (Hc q nq c Hq Hin) as [Hcr (nc & Hnc & Hpc)]. split; [done|].
        destruct (decide (c = p)) as [->|].
        - exists (add_child id pn). rewrite lookup_insert_eq. simpl. split; [done|]. congruence.
        - exists nc. rewrite !lookup_insert_ne by congruence. done. }
      intros q nq c. rewrite !lookup_insert_Some. intros [[<- <-]|[? [[<- <-]|[? Hx]]]] Hin.
      * simpl in Hin. apply elem_of_app in Hin as [Hin|Hin%list_elem_of_singleton]; [by eapply Hold|subst c].
        split; [done|]. exists new. rewrite lookup_insert_ne by lia. by rewrite lookup_insert_eq.
      * by apply elem_of_nil in Hin.
      * by eapply Hold.
  - split; simpl.
    + by rewrite lookup_insert_ne by done.
    + intros x n. rewrite lookup_insert_Some. intros [[<- <-]|[? Hx]] Hxr; simpl; [done|by apply Hp in Hx].
    + intros q nq c. rewrite lookup_insert_Some. intros [[<- <-]|[? Hx]] Hin; [by apply elem_of_nil in Hin|].
      destruct (Hc q nq c Hx Hin) as [Hcr (nc & Hnc & Hpc)]. split; [done|]. exists nc.
      by rewrite lookup_insert_ne by congruence.
Qed.

Lemma best_child_in log m node first : first ∈ Children node → best_child log m node first ∈ Children node.
Proof.
  intros Hf. unfold best_child. generalize (log_visits log (Visits node)) as lp. intros lp.
  assert (∀ l b, b.2 ∈ Children node → (∀ x, x ∈ l → x ∈ Children node) →
    (foldl (consider m lp) b l).2 ∈ Children node) as E; [|by apply E].
  induction l as [|x l IH]; intros b Hb Hl; [done|]. simpl. apply IH; [|set_solver].
  unfold consider. destruct (nodes m !! x); [|done]. destruct (fgt _ _); [|done]. simpl. set_solver.
Qed.

(** ** Selection *)

Lemma above_lt m x y : is_Some (nodes m !! y) → x < y →
  (size (filter (λ z, (y < z)%Z) (dom (nodes m))) < size (filter (λ z, (x < z)%Z) (dom (nodes m))))%nat.
Proof.
  intros Hy Hxy. apply (nodes_filter_lt (nodes m) (λ z, (x < z)%Z) (λ z, (y < z)%Z) y).
  - intros z ?. lia.
  - by apply elem_of_dom.
  - done.
  - lia.
Qed.

Lemma child_above m x y : mcts_ok m → child_of m x y → x < y ∧ is_Some (nodes m !! y).
Proof.
  intros Hok (n & Hn & Hy). destruct (ok_children m Hok x n y Hn Hy) as [Hr (nc & Hnc & <-)].
  split; [by apply (ok_parent m Hok y nc)|by eexists].
Qed.

Lemma unvisited_spec m node c :
  c ∈ unvisited m node ↔ c ∈ Children node ∧ ∃ n, nodes m !! c = Some n ∧ Visits n = 0.
Proof. unfold unvisited. rewrite list_elem_of_filter, fmap_Some. naive_solver. Qed.

(** A branch point that selection passes: all children visited. *)
Definition passed (m : MCTSSelector) (x y : Z) : Prop :=
  child_of m x y ∧ ∀ c, child_of m x c → visited m c.

Lemma unvisited_nil m x n : mcts_ok m → nodes m !! x = Some n → unvisited m n = [] →
  ∀ c, child_of m x c → visited m c.
Proof.
  intros Hok Hn Hu c (n' & Hn' & Hc). simplify_eq.
  destruct (ok_children m Hok x n c Hn Hc) as [_ (nc & Hnc & _)]. exists nc. split; [done|]. intros Hv.
  assert (c ∈ unvisited m n) as Hin by (apply unvisited_spec; eauto). rewrite Hu in Hin. by apply elem_of_nil in Hin.
Qed.

Lemma select_loop_spec log m rng : mcts_ok m → ∀ fuel current,
  is_Some (nodes m !! current) → (size (filter (λ z, (current < z)%Z) (dom (nodes m))) < fuel)%nat →
  ∃ last id rng', select_loop log fuel m rng current = Some (id, rng') ∧
    rtc (passed m) current last ∧ frontier_node m id ∧
    ((id = last ∧ rng' = rng ∧ ∃ n, nodes m !! id = Some n ∧ Children n = []) ∨
     (child_of m last id ∧ ¬ visited m id ∧ rng' = (Uint64 rng).2)).
Proof.
  intros Hok. induction fuel as [|fuel IH]; intros current [node Hn] Hf; [lia|].
  cbn [select_loop]. rewrite Hn.
  destruct (Children node) as [|first cs] eqn:Hcs.
  { exists current, current, rng. split_and!; [done|done|exists node; by auto|left; by eauto]. }
  destruct (unvisited m node) as [|u us] eqn:Hu.
  - assert (child_of m current (best_child log m node first)) as Hc.
    { exists node. split; [done|]. apply best_child_in. rewrite Hcs. by left. }
    destruct (child_above m _ _ Hok Hc) as [Hlt Hreg]. pose proof (above_lt m _ _ Hreg Hlt).
    destruct (IH (best_child log m node first) Hreg ltac:(lia)) as (last & id & rng' & H1 & H2 & H3 & H4).
    exists last, id, rng'. split_and!; [done| |done|done].
    eapply rtc_l; [|done]. split; [done|]. by apply (unvisited_nil m current node).
  - destruct (Uint64 rng) as [x rng'] eqn:Hx.
    pose proof (Z.mod_pos_bound x (Z.of_nat (length (u :: us))) ltac:(simpl; lia)) as Hb.
    destruct (lookup_lt_is_Some_2 (u :: us) (Z.to_nat (x mod Z.of_nat (length (u :: us)))) ltac:(lia)) as [id Hid].
    rewrite Hid. exists current, id, rng'.
    assert (id ∈ unvisited m node) as Hin by (rewrite Hu; by eapply list_elem_of_lookup_2).
    apply unvisited_spec in Hin as [Hin (nid & Hnid & Hv)].
    split_and!; [done|done|by exists nid; auto|right]. split_and!; [by exists node| |done].
    intros (n' & Hn' & Hv'). congruence.
Qed.

Lemma mcts_fuel_enough m (P : Z → Prop) `{∀ x, Decision (P x)} :
  (size (filter P (dom (nodes m))) < mcts_fuel m)%nat.
Proof.
  unfold mcts_fuel. rewrite <- size_dom.
  assert (size (filter P (dom (nodes m))) ≤ size (dom (nodes m)))%nat; [|lia]. apply subseteq_size. set_solver.
Qed.

(** ** Backpropagation *)

Lemma on_path_credit r ns c n reward id x :
  ns !! c = Some n → on_path r (<[c := credit reward n]> ns) id x ↔ on_path r ns id x.
Proof.
  intros Hc. split; induction 1 as [id k Hk|id k x Hk Hne _ IH].
  - apply lookup_insert_Some in Hk as [[<- _]|[_ Hk]]; by eapply path_here.
  - apply lookup_insert_Some in Hk as [[<- <-]|[_ Hk]]; by eapply path_up.
  - destruct (decide (id = c)) as [->|].
    + eapply path_here. apply lookup_insert_eq.
    + eapply path_here. by rewrite lookup_insert_ne.
  - destruct (decide (id = c)) as [->|].
    + simplify_eq. eapply (path_up _ _ c (credit reward n)); [apply lookup_insert_eq|done|done].
    + eapply path_up; [by rewrite lookup_insert_ne|done|done].
Qed.

Lemma on_path_le r (ns : gmap Z MCTSNode) id x :
  (∀ i n, ns !! i = Some n → i ≠ r → ParentID n < i) → on_path r ns id x → x ≤ id.
Proof. intros Hs. induction 1 as [id k Hk|id k x Hk Hne _ IH]; [lia|]. pose proof (Hs _ _ Hk Hne). lia. Qed.

Lemma backprop_loop_spec r reward fuel : ∀ ns current,
  (∀ i n, ns !! i = Some n → i ≠ r → ParentID n < i) →
  (size (filter (λ z, (z ≤ current)%Z) (dom ns)) < fuel)%nat →
  ∃ ns', backprop_loop fuel ns r current reward = Some ns' ∧
    (∀ x, on_path r ns current x → ns' !! x = credit reward <$> ns !! x) ∧
    (∀ x, ¬ on_path r ns current x → ns' !! x = ns !! x) ∧
    (∀ x, ns' !! x = ns !! x ∨ ns' !! x = credit reward <$> ns !! x).
Proof.
  induction fuel as [|fuel IH]; intros ns current Hs Hf; [lia|]. simpl.
  destruct (ns !! current) as [node|] eqn:Hn.
  2: { exists ns. split_and!; [done| |done|by left]. intros x Hx. destruct Hx; congruence. }
  set (ns1 := <[current := credit reward node]> ns).
  destruct (Z.eqb_spec current r) as [->|Hne].
  { exists ns1. split_and!; [done| | |].
    - intros x Hx. inversion Hx; [|done]. subst. unfold ns1. by rewrite lookup_insert_eq, Hn.
    - intros x Hx. unfold ns1. rewrite lookup_insert_ne; [done|]. intros <-. apply Hx. by eapply path_here.
    - intros x. unfold ns1. destruct (decide (x = r)) as [->|]; [right|left].
      + by rewrite lookup_insert_eq, Hn.
      + by rewrite lookup_insert_ne. }
  pose proof (Hs _ _ Hn Hne) as Hlt.
  assert (∀ i n, ns1 !! i = Some n → i ≠ r → ParentID n < i) as Hs1.
  { intros i n [[<- <-]|[_ Hi]]%lookup_insert_Some Hi'; [done|by apply Hs]. }
  assert (dom ns1 = dom ns) as Hd.
  { apply dom_insert_lookup_L. by eexists. }
  destruct (IH ns1 (ParentID node) Hs1) as (ns' & H1 & H2 & H3 & H4).
  { rewrite Hd. enough (size (filter (λ z, (z ≤ ParentID node)%Z) (dom ns)) < size (filter (λ z, (z ≤ current)%Z) (dom ns)))%nat by lia.
    apply (nodes_filter_lt ns (λ z, (z ≤ current)%Z) (λ z, (z ≤ ParentID node)%Z) current).
    - intros z ?. lia.
    - by apply elem_of_dom.
    - lia.
    - lia. }
  exists ns'. split_and!; [done| | |].
  - intros x Hx. destruct (decide (x = current)) as [->|Hxc].
    + rewrite H3; [unfold ns1; by rewrite lookup_insert_eq, Hn|].
      intros Hp. apply (on_path_le r ns1) in Hp; [lia|done].
    + inversion Hx as [|? k ? Hk ? Hp]; [congruence|]. simplify_eq.
      rewrite H2 by (by apply on_path_credit). unfold ns1. by rewrite lookup_insert_ne.
  - intros x Hx. assert (x ≠ current) by (intros ->; apply Hx; by eapply path_here).
    rewrite H3; [unfold ns1; by rewrite lookup_insert_ne|].
    intros Hp%on_path_credit; [|done]. apply Hx. by eapply path_up.
  - intros x. destruct (decide (x = current)) as [->|Hxc].
    + right. rewrite H3; [unfold ns1; by rewrite lookup_insert_eq, Hn|].
      intros Hp. apply (on_path_le r ns1) in Hp; [lia|done].
    + destruct (H4 x) as [E|E]; rewrite E; unfold ns1; rewrite lookup_insert_ne by done; auto.
Qed.

(** Crediting nodes does not change the shape of the tree. *)
Lemma same_shape_ok m m' reward :
  mcts_ok m → root m' = root m →
  (∀ x, nodes m' !! x = nodes m !! x ∨ nodes m' !! x = credit reward <$> nodes m !! x) → mcts_ok m'.
Proof.
  intros [Hr Hp Hc] Er Hsame.
  assert (∀ x n', nodes m' !! x = Some n' →
    ∃ n, nodes m !! x = Some n ∧ Children n = Children n' ∧ ParentID n = ParentID n') as Hback.
  { intros x n' Hx. destruct (Hsame x) as [E|E]; rewrite Hx in E; [by exists n'|].
    symmetry in E. apply fmap_Some in E as (n & Hn & ->). by exists n. }
  assert (∀ x n, nodes m !! x = Some n → ∃ n', nodes m' !! x = Some n' ∧ ParentID n' = ParentID n) as Hfwd.
  { intros x n Hx. destruct (Hsame x) as [E|E]; rewrite Hx in E; by eexists. }
  split; rewrite ?Er.
  - destruct Hr as [n Hn]. destruct (Hfwd _ _ Hn) as (n' & ? & _). by exists n'.
  - intros x n' Hx Hne. destruct (Hback _ _ Hx) as (n & Hn & _ & <-). by eapply Hp.
  - intros p n' c Hx Hin. destruct (Hback _ _ Hx) as (n & Hn & Hch & _). rewrite <- Hch in Hin.
    destruct (Hc p n c Hn Hin) as [? (nc & Hnc & <-)]. split; [done|].
    destruct (Hfwd _ _ Hnc) as (nc' & ? & ?). by exists nc'.
Qed.

(** ** Properties *)

(** [Select] terminates on a selector whose tree has the shape the explorer
    builds.  It descends from the root through branch points whose children
    were all visited, and stops at a node that was never visited, for which it
    drew one random number, or at one without children, having drawn none. *)
Theorem Select_stops (log : float64 → float64) (m : MCTSSelector) (rng : Source) (Hok : mcts_ok m) :
  ∃ last id rng', Select log m rng = Some (id, rng') ∧
    rtc (passed m) (root m) last ∧ frontier_node m id ∧
    ((id = last ∧ rng' = rng ∧ ∃ n, nodes m !! id = Some n ∧ Children n = []) ∨
     (child_of m last id ∧ ¬ visited m id ∧ rng' = (Uint64 rng).2)).
Proof. apply select_loop_spec; [done|by apply ok_root|apply mcts_fuel_enough]. Qed.

(** [Backpropagate] terminates and credits one visit and the reward to
    exactly the registered nodes on the parent path from the given node to the
    root, each once; every other node, and the shape of the tree, is
    unchanged. *)
Theorem Backpropagate_path (m : MCTSSelector) (id : Z) (reward : float64) (Hok : mcts_ok m) :
  ∃ m', Backpropagate m id reward = Some m' ∧ mcts_ok m' ∧
    (∀ x n, on_path (root m) (nodes m) id x → nodes m !! x = Some n →
      nodes m' !! x = Some (mkNode (SnapshotID n) (ParentID n) (Children n) (u64 (Visits n + 1))
                              (fadd (TotalReward n) reward) (Depth n))) ∧
    (∀ x, ¬ on_path (root m) (nodes m) id x → nodes m' !! x = nodes m !! x).
Proof.
  destruct (backprop_loop_spec (root m) reward (mcts_fuel m) (nodes m) id) as (ns' & H1 & H2 & H3 & H4).
  { intros i n. apply (ok_parent m Hok). }
  { apply mcts_fuel_enough. }
  exists (mkSelector ns' (root m) (explorationC m)). unfold Backpropagate. rewrite H1.
  split_and!; [done|by apply (same_shape_ok m _ reward)| |done].
  intros x n Hx Hn. cbn [nodes]. by rewrite H2, Hn.
Qed.

(** [math.Log] replaced by a constant: any function will do. *)
Definition demo_log (x : float64) : float64 := fone.

Definition demo_tree : MCTSSelector :=
  RegisterNode (RegisterNode (RegisterNode (NewMCTSSelector 0 fzero) 1 0 1) 2 0 1) 3 1 2.

Lemma demo_tree_ok : mcts_ok demo_tree.
Proof. repeat (apply RegisterNode_ok; [|lia]). apply new_selector_ok. Qed.

Lemma Select_stops_witness :
  ∃ id rng', Select demo_log demo_tree (New 7) = Some (id, rng') ∧ frontier_node demo_tree id.
Proof.
  destruct (Select_stops demo_log demo_tree (New 7) demo_tree_ok) as (last & id & rng' & H1 & _ & H2 & _).
  exists id, rng'. split; [exact H1|exact H2].
Defined.

Lemma Backpropagate_path_witness :
  ∃ m', Backpropagate demo_tree 3 fone = Some m' ∧
    (Visits <$> nodes m' !! 1) = Some 1 ∧ nodes m' !! 2 = nodes demo_tree !! 2.
Proof.
  destruct (Backpropagate_path demo_tree 3 fone demo_tree_ok) as (m' & H1 & _ & H2 & H3).
  exists m'. split_and!; [exact H1| |].
  - destruct (nodes demo_tree !! 1) as [n|] eqn:Hn; [|vm_compute in Hn; discriminate].
    rewrite (H2 1 n); [| |exact Hn].
    + vm_compute in Hn. injection Hn as <-. vm_compute. reflexivity.
    + eapply path_up; [vm_compute; reflexivity|discriminate|]. eapply path_here. vm_compute. reflexivity.
  - apply H3. intros Hp. inversion Hp as [|? k ? Hk _ Hp']; subst. vm_compute in Hk. injection Hk as <-.
    simpl in Hp'. inversion Hp' as [|? k ? Hk _ Hp'']; subst. vm_compute in Hk. injection Hk as <-.
    simpl in Hp''. inversion Hp'' as [|? k ? Hk Hne _]; subst. by apply Hne.
Defined.
