(* ===== verification/Saturation.v ===== *)
(** * Coverage saturation per subtree ([internal/explorer/saturation.go])

    The ring buffer of discoveries and the Chao1 estimate over it. *)
From S2P Require Import Prelude Word Float Ring.
Local Open Scope Z_scope.

Record SubtreeSaturation := mkSubtree {
  RootID : Z; TotalSteps : Z; TotalDiscovery : Z; RecentWindow : list Z; WindowCursor : Z;
  F1 : Z; F2 : Z; ObservedInWindow : Z; EstRemaining : float64; Saturated : bool }.

Record SaturationTracker := mkTracker { subtrees : gmap Z SubtreeSaturation; window : Z }.

Definition NewSaturationTracker (windowSize : Z) : SaturationTracker :=
  mkTracker ∅ (if windowSize <=? 0 then 200 else windowSize).

Definition new_subtree (s : SaturationTracker) (subtreeRoot : Z) : SubtreeSaturation :=
  mkSubtree subtreeRoot 0 0 (replicate (Z.to_nat (window s)) 0) 0 0 0 0 fzero false.

Definition RecordDiscovery (s : SaturationTracker) (subtreeRoot newEdges : Z) : SaturationTracker :=
  let st := default (new_subtree s subtreeRoot) (subtrees s !! subtreeRoot) in
  let st' := mkSubtree (RootID st) (add64 (TotalSteps st) 1) (add64 (TotalDiscovery st) newEdges)
    (ring_write (window s) (WindowCursor st) newEdges (RecentWindow st)) (WindowCursor st + 1)
    (F1 st) (F2 st) (ObservedInWindow st) (EstRemaining st) (Saturated st) in
  mkTracker (<[subtreeRoot := st']> (subtrees s)) (window s).

(** [chao1Est]. *)
Definition chao1 (f1 f2 sObs : Z) : float64 :=
  if 0 <? f2 then
    fadd (float_of_Z sObs) (fdiv (float_of_Z (mul64 f1 f1)) (float_of_Z (mul64 2 f2)))
  else if 0 <? f1 then
    fadd (float_of_Z sObs) (fdiv (float_of_Z (mul64 f1 (sub64 f1 1))) (float_of_Z 2))
  else float_of_Z sObs.

Definition est_remaining (f1 f2 sObs : Z) : float64 :=
  let est := fsub (chao1 f1 f2 sObs) (float_of_Z sObs) in
  if flt est fzero then fzero else est.

(** [entries >= s.window/2 && sObs > 0] guards the update of [Saturated]. *)
Definition update_subtree (w : Z) (st : SubtreeSaturation) : SubtreeSaturation :=
  let entries := Z.min (int64 (TotalSteps st)) w in
  let slots := take (Z.to_nat entries) (RecentWindow st) in
  let sObs := Z.of_nat (count_if (λ v, 0 <? v) slots) in
  let f1 := Z.of_nat (count_if (λ v, v =? 1) slots) in
  let f2 := Z.of_nat (count_if (λ v, v =? 2) slots) in
  let est := est_remaining f1 f2 sObs in
  let sat := if (0 <? sObs) && (Z.quot w 2 <=? entries)
             then flt (fdiv est (float_of_Z sObs)) (flit 1 100) else Saturated st in
  mkSubtree (RootID st) (TotalSteps st) (TotalDiscovery st) (RecentWindow st) (WindowCursor st)
    f1 f2 sObs est sat.

Definition UpdateChao1 (s : SaturationTracker) (subtreeRoot : Z) : SaturationTracker :=
  match subtrees s !! subtreeRoot with
  | None => s
  | Some st => mkTracker (<[subtreeRoot := update_subtree (window s) st]> (subtrees s)) (window s)
  end.

Definition IsSaturated (s : SaturationTracker) (subtreeRoot : Z) : bool :=
  match subtrees s !! subtreeRoot with Some st => Saturated st | None => false end.

Definition SaturationScore (s : SaturationTracker) (subtreeRoot : Z) : float64 :=
  match subtrees s !! subtreeRoot with
  | None => fone
  | Some st =>
      if Saturated st then flit 1 10
      else if ObservedInWindow st =? 0 then fone
      else
        let ratio := fdiv (EstRemaining st) (float_of_Z (ObservedInWindow st)) in
        if fge ratio (flit 1 10) then fone
        else fadd (flit 1 10) (fmul ratio (float_of_Z 9))
  end.

(** The interface is asked for the ancestors of [id]. *)
Definition SubtreeRoot (ancestors : Z → list Z) (id : Z) : Z :=
  match ancestors id with _ :: a :: _ => a | _ => id end.

(** The discoveries [ds] recorded for one subtree. *)
Definition record_discoveries (s : SaturationTracker) (r : Z) (ds : list Z) : SaturationTracker :=
  foldl (λ s d, RecordDiscovery s r d) s ds.

(** ** Lemmas *)

Lemma int64_small x : 0 ≤ x < 2 ^ 63 → int64 x = x.
Proof.
  intros H. unfold int64. rewrite wrap_small by (unfold is_word; lia).
  destruct (Z.ltb_spec x (2 ^ 63)); lia.
Qed.

(** What a subtree holds after the discoveries [ds]. *)
Definition subtree_of (w : Z) (ds : list Z) (st : SubtreeSaturation) : Prop :=
  ring_of (Z.to_nat w) ds (RecentWindow st) ∧ WindowCursor st = Z.of_nat (length ds) ∧
  TotalSteps st = u64 (Z.of_nat (length ds)) ∧ TotalDiscovery st = u64 (foldr Z.add 0 ds).

Lemma foldr_add_snoc l x : foldr Z.add 0 (l ++ [x]) = foldr Z.add 0 l + x.
Proof. induction l as [|y l IH]; simpl; lia. Qed.

Lemma record_discoveries_spec s r ds :
  0 < window s → subtrees s !! r = None →
  let s' := record_discoveries s r ds in
  let st := default (new_subtree s r) (subtrees s' !! r) in
  window s' = window s ∧ (ds ≠ [] → is_Some (subtrees s' !! r)) ∧
  subtree_of (window s) ds st ∧ ObservedInWindow st = 0 ∧ Saturated st = false.
Proof.
  intros Hw Hr. induction ds as [|d ds IH] using rev_ind; cbv zeta.
  { simpl. rewrite Hr. split_and!; try done. simpl. split_and!; [|done..]. apply ring_new. lia. }
  unfold record_discoveries in *. rewrite foldl_app. cbn [foldl].
  set (s' := foldl _ s ds) in *. destruct IH as (Hw' & _ & (Hring & Hc & Ht & Hd) & Hob & Hsat).
  unfold RecordDiscovery. cbn [subtrees window].
  replace (new_subtree s' r) with (new_subtree s r) by (unfold new_subtree; by rewrite Hw').
  set (st := default (new_subtree s r) (subtrees s' !! r)) in *.
  rewrite lookup_insert_eq. cbn [default from_option id]. split_and!; [done|by eexists| |done|done].
  split_and!; simpl.
  - rewrite Hw', Hc. replace (window s) with (Z.of_nat (Z.to_nat (window s))) at 2 by lia.
    apply ring_step; [lia|done].
  - rewrite Hc, length_app. simpl. lia.
  - rewrite Ht, length_app. unfold add64. rewrite wrap_add_l. f_equal. simpl. lia.
  - rewrite Hd, foldr_add_snoc. unfold add64. by rewrite wrap_add_l.
Qed.

Lemma last_n_min {A} w (l : list A) : (length (last_n w l) = length l `min` w)%nat.
Proof. unfold last_n. rewrite length_drop. lia. Qed.

Lemma update_subtree_window w ds st :
  0 < w → Z.of_nat (length ds) < 2 ^ 63 → subtree_of w ds st →
  let recent := last_n (Z.to_nat w) ds in
  let count p := Z.of_nat (count_if p recent) in
  let st' := update_subtree w st in
  F1 st' = count (λ v, v =? 1) ∧ F2 st' = count (λ v, v =? 2) ∧
  ObservedInWindow st' = count (λ v, 0 <? v) ∧
  EstRemaining st' = est_remaining (F1 st') (F2 st') (ObservedInWindow st') ∧
  Saturated st' =
    (if (0 <? ObservedInWindow st') && (Z.quot w 2 <=? Z.of_nat (length recent))
     then flt (fdiv (EstRemaining st') (float_of_Z (ObservedInWindow st'))) (flit 1 100)
     else Saturated st).
Proof.
  intros Hw Hlen (Hring & Hc & Ht & Hd). cbv zeta.
  assert (int64 (TotalSteps st) = Z.of_nat (length ds)) as Hts.
  { rewrite Ht. rewrite wrap_small by (unfold is_word; lia). apply int64_small. lia. }
  assert (Z.min (int64 (TotalSteps st)) w = Z.of_nat (length (last_n (Z.to_nat w) ds))) as Hent.
  { rewrite Hts, last_n_min. lia. }
  assert (∀ p, count_if p (take (Z.to_nat (Z.min (int64 (TotalSteps st)) w)) (RecentWindow st))
    = count_if p (last_n (Z.to_nat w) ds)) as Hcount.
  { intros p. apply count_if_Permutation. rewrite <- (ring_perm _ _ _ Hring), Hent, last_n_min.
    by rewrite Nat2Z.id. }
  unfold update_subtree. cbn [F1 F2 ObservedInWindow EstRemaining Saturated].
  rewrite !Hcount, Hent. done.
Qed.

Lemma flt_zero_hundredth : flt fzero (flit 1 100) = true.
Proof. vm_compute. reflexivity. Qed.

Lemma est_remaining_no_singletons f2 sObs :
  0 ≤ f2 < 2 ^ 52 → 0 < sObs < 2 ^ 53 → est_remaining 0 f2 sObs = fzero.
Proof.
  intros Hf2 Hs. destruct (float_of_Z_finite sObs Hs) as (m & e & Hm).
  unfold est_remaining, chao1. destruct (Z.ltb_spec 0 f2).
  - change (mul64 0 0) with 0. change (float_of_Z 0) with fzero. unfold mul64.
    rewrite wrap_small by (unfold is_word; lia).
    destruct (float_of_Z_finite (2 * f2)) as (m2 & e2 & ->); [lia|].
    rewrite fdiv_zero, Hm, fadd_zero_r, fsub_self. done.
  - simpl. rewrite Hm, fsub_self. done.
Qed.

Lemma count_if_le_all {A} (p : A → bool) l : (∀ x, x ∈ l → p x = false) → count_if p l = 0%nat.
Proof. induction l as [|x l IH]; intros H; [done|]. simpl. rewrite (H x), IH by set_solver. done. Qed.

(** ** Properties *)

(** The Chao1 inputs describe the most recent observations whatever the
    position of the cursor: after any discoveries recorded for a new subtree,
    [UpdateChao1] sets F1, F2 and S_obs to the number of ones, twos and
    positive values among the last [window] discoveries, takes the estimate from
    these, and sets [Saturated] by the 1% rule when something was observed and
    half the window is filled (and leaves it false otherwise). *)
Theorem UpdateChao1_window (s : SaturationTracker) (r : Z) (ds : list Z)
    (Hw : 0 < window s) (Hr : subtrees s !! r = None) (Hne : ds ≠ [])
    (Hlen : Z.of_nat (length ds) < 2 ^ 63) :
  let recent := last_n (Z.to_nat (window s)) ds in
  let count p := Z.of_nat (count_if p recent) in
  ∃ st, subtrees (UpdateChao1 (record_discoveries s r ds) r) !! r = Some st ∧
    F1 st = count (λ v, v =? 1) ∧ F2 st = count (λ v, v =? 2) ∧ ObservedInWindow st = count (λ v, 0 <? v) ∧
    EstRemaining st = est_remaining (F1 st) (F2 st) (ObservedInWindow st) ∧
    Saturated st =
      ((0 <? ObservedInWindow st) && (Z.quot (window s) 2 <=? Z.of_nat (length recent)) &&
       flt (fdiv (EstRemaining st) (float_of_Z (ObservedInWindow st))) (flit 1 100)).
Proof.
  destruct (record_discoveries_spec s r ds Hw Hr) as (Hw' & Hsome & Hsub & _ & Hsat).
  destruct (Hsome Hne) as [st Hst]. rewrite Hst in *. cbn [default from_option id] in *. cbv zeta.
  exists (update_subtree (window s) st). unfold UpdateChao1. rewrite Hst, Hw'. cbn [subtrees].
  rewrite lookup_insert_eq. split; [done|].
  destruct (update_subtree_window (window s) ds st Hw Hlen Hsub) as (H1 & H2 & H3 & H4 & H5).
  rewrite Hsat in H5. split_and!; done.
Qed.

(** Repetition saturates and barrenness does not.  When half the window is
    filled and the recent discoveries have no singleton but some positive value,
    the subtree is saturated and its multiplier is 0.1; when they are all zero
    it is not saturated and keeps the multiplier 1.0. *)
Theorem saturation_extremes (s : SaturationTracker) (r : Z) (ds : list Z)
    (Hw : 0 < window s < 2 ^ 52) (Hr : subtrees s !! r = None)
    (Hhalf : Z.quot (window s) 2 ≤ Z.of_nat (length ds)) (Hne : ds ≠ [])
    (Hlen : Z.of_nat (length ds) < 2 ^ 63) :
  let recent := last_n (Z.to_nat (window s)) ds in
  let s' := UpdateChao1 (record_discoveries s r ds) r in
  ((∀ d, d ∈ recent → d ≠ 1) → (∃ d, d ∈ recent ∧ 0 < d) →
     IsSaturated s' r = true ∧ SaturationScore s' r = flit 1 10) ∧
  ((∀ d, d ∈ recent → d = 0) →
     IsSaturated s' r = false ∧ SaturationScore s' r = fone).
Proof.
  destruct (record_discoveries_spec s r ds ltac:(lia) Hr) as (Hw' & Hsome & Hsub & _ & Hsat).
  destruct (Hsome Hne) as [st Hst]. rewrite Hst in *. cbn [default from_option id] in *. cbv zeta.
  set (recent := last_n _ ds).
  destruct (update_subtree_window (window s) ds st ltac:(lia) Hlen Hsub) as (H1 & H2 & H3 & H4 & H5).
  fold recent in H1, H2, H3, H5. set (st' := update_subtree (window s) st) in *.
  assert (subtrees (UpdateChao1 (record_discoveries s r ds) r) !! r = Some st') as Hst'.
  { unfold UpdateChao1. rewrite Hst, Hw'. cbn [subtrees]. apply lookup_insert_eq. }
  unfold IsSaturated, SaturationScore. rewrite Hst'.
  assert (length recent = (length ds `min` Z.to_nat (window s))%nat) as Hl by apply last_n_min.
  assert (Z.quot (window s) 2 ≤ window s) by (apply Z.quot_le_upper_bound; lia).
  split.
  - intros H1' (d & Hd & Hd0).
    assert (F1 st' = 0) as HF1.
    { rewrite H1, count_if_le_all; [done|]. intros x Hx. apply Z.eqb_neq. by apply H1'. }
    assert (0 < ObservedInWindow st' ≤ window s) as HO.
    { rewrite H3. pose proof (count_if_le_length (λ v, 0 <? v) recent).
      assert (count_if (λ v, 0 <? v) recent ≠ 0%nat); [|lia].
      apply list_elem_of_split in Hd as (l1 & l2 & ->). rewrite count_if_app. simpl.
      destruct (Z.ltb_spec 0 d); lia. }
    assert (Saturated st' = true) as ->; [|done].
    rewrite H5, H4, HF1. rewrite est_remaining_no_singletons; [|rewrite H2|lia].
    + destruct (float_of_Z_finite (ObservedInWindow st')) as (m & e & ->); [lia|].
      rewrite fdiv_zero, flt_zero_hundredth. destruct (Z.ltb_spec 0 (ObservedInWindow st')); [|lia].
      destruct (Z.leb_spec (Z.quot (window s) 2) (Z.of_nat (length recent))); [done|lia].
    + pose proof (count_if_le_length (λ v, v =? 2) recent). lia.
  - intros Hz. assert (ObservedInWindow st' = 0) as HO.
    { rewrite H3, count_if_le_all; [done|]. intros x Hx. by rewrite (Hz x Hx). }
    by rewrite H5, HO, Hsat.
Qed.

Lemma UpdateChao1_window_witness :
  ∃ st, subtrees (UpdateChao1 (record_discoveries (NewSaturationTracker 3) 7 [1; 1; 5; 2; 1]) 7) !! 7 = Some st
    ∧ F1 st = 1 ∧ F2 st = 1 ∧ ObservedInWindow st = 3.
Proof.
  destruct (UpdateChao1_window (NewSaturationTracker 3) 7 [1; 1; 5; 2; 1]) as (st & H1 & H2 & H3 & H4 & _);
    [reflexivity|reflexivity|discriminate|reflexivity|].
  exists st. split_and!; [exact H1|exact H2|exact H3|exact H4].
Defined.

Lemma saturation_extremes_witness :
  IsSaturated (UpdateChao1 (record_discoveries (NewSaturationTracker 4) 7 [1; 2; 2; 0; 3]) 7) 7 = true.
Proof.
  apply (saturation_extremes (NewSaturationTracker 4) 7 [1; 2; 2; 0; 3]);
    [split; reflexivity|reflexivity|discriminate|discriminate|reflexivity| |].
  - intros d Hd. vm_compute in Hd. repeat (apply elem_of_cons in Hd as [->|Hd]; [discriminate|]).
    by apply elem_of_nil in Hd.
  - exists 2. split; [|reflexivity]. vm_compute. left.
Defined.
