(* ===== verification/Fault.v ===== *)
(** * Fault kinds and injectors ([internal/fault/fault.go], [network.go],
    [node.go])

    A [Kind] is a string.  The decisions take the generator and return it after
    their draws.  Durations are integers of nanoseconds; [time.Duration(x)] of a
    float is [trunc]. *)
From S2P Require Import Prelude Word Float Prng.
Local Open Scope Z_scope.

Abbreviation NodeID := string.
Abbreviation Kind := string.

Definition KindDrop : Kind := "drop".
Definition KindDelay : Kind := "delay".
Definition KindPartition : Kind := "partition".
Definition KindThrottle : Kind := "throttle".
Definition KindHang : Kind := "hang".
Definition KindTerminate : Kind := "terminate".
Definition KindClockJitter : Kind := "clock_jitter".
Definition KindThreadPause : Kind := "thread_pause".
Definition KindReorder : Kind := "reorder".
Definition KindCPUThrottle : Kind := "cpu_throttle".
Definition KindNWayPartition : Kind := "nway_partition".
Definition KindDiskSlow : Kind := "disk_slow".
Definition KindDiskFull : Kind := "disk_full".
Definition KindDiskCorrupt : Kind := "disk_corrupt".
Definition KindMemPressure : Kind := "mem_pressure".
Definition KindClear : Kind := "clear".
Definition KindScript : Kind := "script".
Definition KindCPUModulate : Kind := "cpu_modulate".
Definition KindDiskFlakey : Kind := "disk_flakey".

(** The pairs of [MaskToKinds]: the bits in order, with their kinds. *)
Definition mask_pairs : list (Z * Kind) :=
  [(Z.shiftl 1 0, KindDrop); (Z.shiftl 1 1, KindDelay); (Z.shiftl 1 2, KindPartition);
   (Z.shiftl 1 3, KindThrottle); (Z.shiftl 1 4, KindHang); (Z.shiftl 1 5, KindTerminate);
   (Z.shiftl 1 6, KindClockJitter); (Z.shiftl 1 7, KindThreadPause); (Z.shiftl 1 8, KindReorder);
   (Z.shiftl 1 9, KindCPUThrottle); (Z.shiftl 1 10, KindNWayPartition);
   (Z.shiftl 1 11, KindDiskSlow); (Z.shiftl 1 12, KindDiskFull); (Z.shiftl 1 13, KindDiskCorrupt);
   (Z.shiftl 1 14, KindMemPressure); (Z.shiftl 1 15, KindScript)].

(** The switch of [KindToMask], case by case. *)
Definition KindToMask (k : Kind) : Z :=
  if bool_decide (k = KindDrop) then Z.shiftl 1 0
  else if bool_decide (k = KindDelay) then Z.shiftl 1 1
  else if bool_decide (k = KindPartition) then Z.shiftl 1 2
  else if bool_decide (k = KindThrottle) then Z.shiftl 1 3
  else if bool_decide (k = KindHang) then Z.shiftl 1 4
  else if bool_decide (k = KindTerminate) then Z.shiftl 1 5
  else if bool_decide (k = KindClockJitter) then Z.shiftl 1 6
  else if bool_decide (k = KindThreadPause) then Z.shiftl 1 7
  else if bool_decide (k = KindReorder) then Z.shiftl 1 8
  else if bool_decide (k = KindCPUThrottle) then Z.shiftl 1 9
  else if bool_decide (k = KindNWayPartition) then Z.shiftl 1 10
  else if bool_decide (k = KindDiskSlow) then Z.shiftl 1 11
  else if bool_decide (k = KindDiskFull) then Z.shiftl 1 12
  else if bool_decide (k = KindDiskCorrupt) then Z.shiftl 1 13
  else if bool_decide (k = KindMemPressure) then Z.shiftl 1 14
  else if bool_decide (k = KindScript) then Z.shiftl 1 15
  else 0.

Definition MaskToKinds (m : Z) : list Kind :=
  (filter (λ p, Z.land m p.1 ≠ 0) mask_pairs).*2.

(** The mask of a set of kinds, as the callers accumulate it with [|=]. *)
Definition mask_of (ks : list Kind) : Z := foldl (λ m k, Z.lor m (KindToMask k)) 0 ks.

(** ** The network injector *)

Record NetworkConfig := mkNetworkConfig {
  DropRate : float64; DelayMin : Z; DelayMax : Z; CrashRate : float64;
  PartitionRate : float64; DirectedPartitionRatio : float64;
  ThrottleRate : float64; ThrottleMinKbps : Z; ThrottleMaxKbps : Z;
  ReorderRate : float64; ReorderCorrelation : Z;
  NWayPartitionRate : float64; NWayPartitionMaxGroups : Z }.

Inductive PartitionDirection := PartitionBoth | PartitionOutbound | PartitionInbound.

Definition DirectionString (d : PartitionDirection) : string :=
  match d with
  | PartitionOutbound => "outbound"
  | PartitionInbound => "inbound"
  | PartitionBoth => "both"
  end.

Record Partition := mkPartition { GroupA : list NodeID; GroupB : list NodeID; Directed : bool }.

Record NetworkInjector := mkNetwork { netCfg : NetworkConfig; partitions : list Partition }.

Definition NewNetwork (cfg : NetworkConfig) : NetworkInjector := mkNetwork cfg [].

Definition AddPartition (n : NetworkInjector) (p : Partition) : NetworkInjector :=
  mkNetwork (netCfg n) (partitions n ++ [p]).

Definition ClearPartitions (n : NetworkInjector) : NetworkInjector := mkNetwork (netCfg n) [].

Definition inGroup (node : NodeID) (group : list NodeID) : bool :=
  existsb (λ n, bool_decide (n = node)) group.

Definition isPartitioned (n : NetworkInjector) (src dst : NodeID) : bool :=
  existsb (λ p, (inGroup src (GroupA p) && inGroup dst (GroupB p)) ||
                (negb (Directed p) && inGroup src (GroupB p) && inGroup dst (GroupA p)))
    (partitions n).

Definition ShouldDrop (n : NetworkInjector) (src dst : NodeID) (rng : Source) : bool * Source :=
  if isPartitioned n src dst then (true, rng)
  else let '(r, rng) := Float64 rng in (flt r (DropRate (netCfg n)), rng).

Definition Delay (n : NetworkInjector) (src dst : NodeID) (rng : Source) : Z * Source :=
  let span := DelayMax (netCfg n) - DelayMin (netCfg n) in
  if span <=? 0 then (DelayMin (netCfg n), rng)
  else
    let '(r, rng) := Float64 rng in
    (DelayMin (netCfg n) + trunc (fmul r (float_of_Z span)), rng).

Definition ShouldCrash (n : NetworkInjector) (node : NodeID) (rng : Source) : bool * Source :=
  let '(r, rng) := Float64 rng in (flt r (CrashRate (netCfg n)), rng).

(** [rate <= 0 || roll >= rate]: the fault does not fire. *)
Definition misses (rate roll : float64) : bool := fle rate fzero || fge roll rate.

Definition ShouldPartition (n : NetworkInjector) (src dst : NodeID) (rng : Source)
    : bool * PartitionDirection * Source :=
  let '(roll, rng) := Float64 rng in
  let '(dirRoll, rng) := Float64 rng in
  let ratio := DirectedPartitionRatio (netCfg n) in
  if misses (PartitionRate (netCfg n)) roll then (false, PartitionBoth, rng)
  else if fge dirRoll ratio then (true, PartitionBoth, rng)
  else if flt dirRoll (fdiv ratio (float_of_Z 2)) then (true, PartitionOutbound, rng)
  else (true, PartitionInbound, rng).

(** [groups[i%numGroups] = append(groups[i%numGroups], node)]. *)
Fixpoint assign_groups (i numGroups : nat) (nodes : list NodeID) (groups : list (list NodeID))
    : list (list NodeID) :=
  match nodes with
  | [] => groups
  | node :: nodes =>
      assign_groups (S i) numGroups nodes (alter (λ g, g ++ [node]) (i mod numGroups)%nat groups)
  end.

(** The bound on the number of groups. *)
Definition max_groups (cfg : NetworkConfig) (count : Z) : Z :=
  let m := if NWayPartitionMaxGroups cfg <? 2 then 3 else NWayPartitionMaxGroups cfg in
  if count <? m then count else m.

Definition ShouldNWayPartition (n : NetworkInjector) (nodes : list NodeID) (rng : Source)
    : bool * list (list NodeID) * Source :=
  let '(roll, rng) := Float64 rng in
  let '(groupRoll, rng) := Float64 rng in
  if misses (NWayPartitionRate (netCfg n)) roll then (false, [], rng)
  else if (length nodes <? 2)%nat then (false, [], rng)
  else
    let maxGroups := max_groups (netCfg n) (Z.of_nat (length nodes)) in
    let numGroups := 2 + trunc (fmul groupRoll (float_of_Z (maxGroups - 1))) in
    let numGroups := Z.to_nat (if maxGroups <? numGroups then maxGroups else numGroups) in
    let groups := assign_groups 0 numGroups nodes (replicate numGroups []) in
    let result := filter (λ g, g ≠ []) groups in
    if (length result <? 2)%nat then (false, [], rng) else (true, result, rng).

Definition ShouldReorder (n : NetworkInjector) (src dst : NodeID) (rng : Source) : bool * Z * Source :=
  let '(roll, rng) := Float64 rng in
  let '(corrRoll, rng) := Float64 rng in
  if misses (ReorderRate (netCfg n)) roll then (false, 0, rng)
  else
    let corr := ReorderCorrelation (netCfg n) in
    let corr := if corr <=? 0 then 25 else corr in
    let corr := if 100 <? corr then 100 else corr in
    (true, corr / 2 + trunc (fmul corrRoll (float_of_Z (corr / 2 + 1))), rng).

Definition ShouldThrottle (n : NetworkInjector) (src dst : NodeID) (rng : Source) : bool * Z * Source :=
  let '(roll, rng) := Float64 rng in
  let '(rateRoll, rng) := Float64 rng in
  if misses (ThrottleRate (netCfg n)) roll then (false, 0, rng)
  else
    let lo := if ThrottleMinKbps (netCfg n) <=? 0 then 64 else ThrottleMinKbps (netCfg n) in
    let hi := ThrottleMaxKbps (netCfg n) in
    if hi <=? lo then (true, lo, rng)
    else (true, lo + trunc (fmul rateRoll (float_of_Z (hi - lo))), rng).

(** ** The node injector *)

Record NodeConfig := mkNodeConfig {
  ThrottleCPUPercent : float64; HangDurationMin : Z; HangDurationMax : Z; HangRate : float64;
  TerminateRate : float64; ClockJitterMax : Z;
  PauseRate : float64; PauseDurationMin : Z; PauseDurationMax : Z;
  CPUThrottleRate : float64; CPUThrottleMinPct : Z; CPUThrottleMaxPct : Z;
  DiskSlowRate : float64; DiskSlowMinBps : Z; DiskSlowMaxBps : Z;
  DiskFullRate : float64; DiskFullTargetFreeBytes : Z;
  DiskCorruptRate : float64; DiskCorruptDataDir : string;
  MemPressureRate : float64; MemPressureMinMB : Z; MemPressureMaxMB : Z;
  ScriptRate : float64; ScriptPath : string; ScriptArgs : list string; ScriptTimeoutSeconds : Z;
  DirtyRestartRate : float64;
  DiskFlakeyRate : float64; DiskFlakeyInterval : Z; DiskFlakeyDuration : Z;
  CPUModulateRate : float64; CPUModulateMinPct : Z; CPUModulateMaxPct : Z }.

(** [NodeInjector] holds its configuration and nothing else. *)
Abbreviation NodeInjector := NodeConfig.

Definition NewNode (cfg : NodeConfig) : NodeInjector := cfg.

Definition ShouldHang (n : NodeInjector) (node : NodeID) (rng : Source) : bool * Z * Source :=
  let '(roll, rng) := Float64 rng in
  if fge roll (HangRate n) then (false, 0, rng)
  else
    let span := HangDurationMax n - HangDurationMin n in
    if span <=? 0 then (true, HangDurationMin n, rng)
    else
      let '(r, rng) := Float64 rng in
      (true, HangDurationMin n + trunc (fmul r (float_of_Z span)), rng).

(** The decisions that compare one draw with a rate. *)
Definition roll_below (rate : float64) (rng : Source) : bool * Source :=
  let '(r, rng) := Float64 rng in (flt r rate, rng).

Definition ShouldTerminate (n : NodeInjector) (node : NodeID) : Source → bool * Source :=
  roll_below (TerminateRate n).

Definition ShouldDirtyRestart (n : NodeInjector) (node : NodeID) : Source → bool * Source :=
  roll_below (DirtyRestartRate n).

Definition ClockJitter (n : NodeInjector) (rng : Source) : Z * Source :=
  if ClockJitterMax n <=? 0 then (0, rng)
  else
    let '(r, rng) := Float64 rng in
    let f := fsub (fmul r (float_of_Z 2)) fone in
    (trunc (fmul f (float_of_Z (ClockJitterMax n))), rng).

Definition ThrottlePercent (n : NodeInjector) : float64 := ThrottleCPUPercent n.

Definition ShouldDiskSlow (n : NodeInjector) (node : NodeID) (rng : Source) : bool * Z * Source :=
  let '(roll, rng) := Float64 rng in
  let '(bpsRoll, rng) := Float64 rng in
  if misses (DiskSlowRate n) roll then (false, 0, rng)
  else
    let lo := if DiskSlowMinBps n <=? 0 then Z.shiftl 1 20 else DiskSlowMinBps n in
    let hi := if DiskSlowMaxBps n <=? lo then lo * 10 else DiskSlowMaxBps n in
    (true, lo + trunc (fmul bpsRoll (float_of_Z (hi - lo))), rng).

Definition ShouldDiskFull (n : NodeInjector) (node : NodeID) : Source → bool * Source :=
  roll_below (DiskFullRate n).

Definition ShouldDiskCorrupt (n : NodeInjector) (node : NodeID) : Source → bool * Source :=
  roll_below (DiskCorruptRate n).

Definition ShouldDiskFlakey (n : NodeInjector) (node : NodeID) (rng : Source) : bool * Z * Z * Source :=
  let '(roll, rng) := Float64 rng in
  let '(_, rng) := Float64 rng in
  if misses (DiskFlakeyRate n) roll then (false, 0, 0, rng)
  else
    let interval := if DiskFlakeyInterval n <=? 0 then 60 else DiskFlakeyInterval n in
    let duration := if DiskFlakeyDuration n <=? 0 then 5 else DiskFlakeyDuration n in
    (true, interval, duration, rng).

Definition ShouldMemPressure (n : NodeInjector) (node : NodeID) (rng : Source) : bool * Z * Source :=
  let '(roll, rng) := Float64 rng in
  let '(mbRoll, rng) := Float64 rng in
  if misses (MemPressureRate n) roll then (false, 0, rng)
  else
    let lo := if MemPressureMinMB n <=? 0 then 64 else MemPressureMinMB n in
    let hi := if MemPressureMaxMB n <=? lo then lo * 8 else MemPressureMaxMB n in
    let mb := lo + trunc (fmul mbRoll (float_of_Z (hi - lo + 1))) in
    (true, Z.shiftl mb 20, rng).

(** The percentage that [ShouldCPUThrottle] and [ShouldCPUModulate] draw from
    their bounds; they differ in the default of the upper bound. *)
Definition draw_percent (minPct maxPct default : Z) (roll : float64) : Z :=
  let lo := if minPct <=? 0 then 10 else minPct in
  let hi := if (maxPct <=? 0) || (99 <? maxPct) then default else maxPct in
  let hi := if hi <? lo then lo else hi in
  let pct := lo + trunc (fmul roll (float_of_Z (hi - lo + 1))) in
  if 99 <? pct then 99 else pct.

Definition ShouldCPUThrottle (n : NodeInjector) (node : NodeID) (rng : Source) : bool * Z * Source :=
  let '(roll, rng) := Float64 rng in
  let '(pctRoll, rng) := Float64 rng in
  if misses (CPUThrottleRate n) roll then (false, 0, rng)
  else (true, draw_percent (CPUThrottleMinPct n) (CPUThrottleMaxPct n) 50 pctRoll, rng).

Definition ShouldCPUModulate (n : NodeInjector) (node : NodeID) (rng : Source) : bool * Z * Source :=
  let '(roll, rng) := Float64 rng in
  let '(pctRoll, rng) := Float64 rng in
  if misses (CPUModulateRate n) roll then (false, 0, rng)
  else (true, draw_percent (CPUModulateMinPct n) (CPUModulateMaxPct n) 90 pctRoll, rng).

Definition ShouldScript (n : NodeInjector) (rng : Source) : bool * string * list string * Z * Source :=
  let '(roll, rng) := Float64 rng in
  if misses (ScriptRate n) roll || bool_decide (ScriptPath n = ""%string) then (false, ""%string, [], 0, rng)
  else
    let timeout := if ScriptTimeoutSeconds n <=? 0 then 30 else ScriptTimeoutSeconds n in
    (true, ScriptPath n, ScriptArgs n, timeout, rng).

Definition ShouldPause (n : NodeInjector) (node : NodeID) (rng : Source) : bool * Z * Source :=
  let '(roll, rng) := Float64 rng in
  let '(durRoll, rng) := Float64 rng in
  if misses (PauseRate n) roll then (false, 0, rng)
  else
    let span := PauseDurationMax n - PauseDurationMin n in
    if span <=? 0 then
      (if PauseDurationMin n <=? 0 then (true, 50000000, rng) else (true, PauseDurationMin n, rng))
    else (true, PauseDurationMin n + trunc (fmul durRoll (float_of_Z span)), rng).

(** ** Lemmas *)

Lemma mask_land_known : forallb (λ k, forallb (λ p, bool_decide (Z.land (KindToMask k) p.1 ≠ 0 ↔ k = p.2)) mask_pairs)
  mask_pairs.*2 = true.
Proof. vm_compute. reflexivity. Qed.

Lemma KindToMask_unknown k : k ∉ mask_pairs.*2 → KindToMask k = 0.
Proof.
  intros Hk. unfold KindToMask.
  repeat (rewrite bool_decide_eq_false_2 by (intros ->; apply Hk, (bool_decide_unpack _); vm_compute; exact I)).
  done.
Qed.

(** The bit of a pair is set in the mask of exactly its kind. *)
Lemma mask_land k p : p ∈ mask_pairs → Z.land (KindToMask k) p.1 ≠ 0 ↔ k = p.2.
Proof.
  intros Hp. destruct (decide (k ∈ mask_pairs.*2)) as [Hk|Hk].
  - pose proof mask_land_known as H. rewrite forallb_forall in H.
    specialize (H k (proj1 (list_elem_of_In _ _) Hk)). rewrite forallb_forall in H.
    specialize (H p (proj1 (list_elem_of_In _ _) Hp)). by apply bool_decide_eq_true in H.
  - rewrite KindToMask_unknown by done. rewrite Z.land_0_l. split; [done|]. intros ->.
    exfalso. apply Hk, list_elem_of_fmap. eauto.
Qed.

Lemma mask_of_land ks p m :
  p ∈ mask_pairs →
  Z.land (foldl (λ m k, Z.lor m (KindToMask k)) m ks) p.1 ≠ 0 ↔ Z.land m p.1 ≠ 0 ∨ p.2 ∈ ks.
Proof.
  intros Hp. revert m. induction ks as [|k ks IH]; intros m; simpl.
  - rewrite elem_of_nil. tauto.
  - rewrite IH, Z.land_lor_distr_l, Z.lor_eq_0_iff, elem_of_cons.
    pose proof (mask_land k p Hp). destruct (decide (Z.land m p.1 = 0)), (decide (Z.land (KindToMask k) p.1 = 0)); naive_solver.
Qed.

(** Accumulating masks is an or with the mask of all. *)
Lemma mask_fold m ks : foldl (λ m k, Z.lor m (KindToMask k)) m ks = Z.lor m (mask_of ks).
Proof.
  unfold mask_of. revert m. induction ks as [|k ks IH]; intros m; cbn [foldl]; [by rewrite Z.lor_0_r|].
  rewrite IH, (IH (Z.lor 0 _)), Z.lor_0_l. by rewrite Z.lor_assoc.
Qed.

Lemma filter_fmap_snd {A B} (P : A * B → Prop) (Q : B → Prop)
    `{∀ x, Decision (P x), ∀ x, Decision (Q x)} (l : list (A * B)) :
  (∀ p, p ∈ l → P p ↔ Q p.2) → (filter P l).*2 = filter Q l.*2.
Proof.
  intros HPQ. induction l as [|p l IH]; [done|].
  rewrite fmap_cons, !filter_cons. rewrite <- IH by (intros; apply HPQ; by right).
  specialize (HPQ p ltac:(left)). by repeat case_decide; try tauto.
Qed.

Lemma Float64_facts s r s' :
  Source_ok s → Float64 s = (r, s') →
  s' = advance 1 s ∧ ∀ n, 0 < n < 2 ^ 53 → 0 ≤ trunc (fmul r (float_of_Z n)) < n.
Proof.
  intros Hs E. destruct (Float64_range s Hs) as (_ & _ & _ & Ha). rewrite E in Ha. split; [done|].
  intros n Hn. pose proof (Float64_scaled s n Hs Hn) as Hb. by rewrite E in Hb.
Qed.

(** Two draws, with what they are good for. *)
Lemma Float64_twice s r1 s1 r2 s2 :
  Source_ok s → Float64 s = (r1, s1) → Float64 s1 = (r2, s2) →
  s2 = advance 2 s ∧ ∀ n, 0 < n < 2 ^ 53 → 0 ≤ trunc (fmul r2 (float_of_Z n)) < n.
Proof.
  intros Hs E1 E2. destruct (Float64_facts s r1 s1 Hs E1) as [-> _].
  destruct (Float64_facts _ r2 s2 (advance_ok 1 s) E2) as [-> Hn]. split; [|done].
  apply advance_advance.
Qed.

Ltac two_draws rng :=
  let r1 := fresh "r" in let s1 := fresh "s" in let E1 := fresh "E" in
  let r2 := fresh "r" in let s2 := fresh "s" in let E2 := fresh "E" in
  destruct (Float64 rng) as [r1 s1] eqn:E1; destruct (Float64 s1) as [r2 s2] eqn:E2;
  let H1 := fresh "Hadv" in let H2 := fresh "Hdraw" in
  match goal with Hok : Source_ok rng |- _ =>
    destruct (Float64_twice rng r1 s1 r2 s2 Hok E1 E2) as [H1 H2] end.

Lemma assign_groups_spec k nodes : ∀ i groups,
  (0 < k)%nat → length groups = k →
  let r := assign_groups i k nodes groups in
  length r = k ∧ concat r ≡ₚ concat groups ++ nodes ∧
  (∀ j g, groups !! j = Some g → ∃ g', r !! j = Some (g ++ g')) ∧
  (∀ d, (d < length nodes)%nat → ∃ g, r !! ((i + d) mod k)%nat = Some g ∧ g ≠ []).
Proof.
  induction nodes as [|node nodes IH]; intros i groups Hk Hl; cbv zeta.
  { simpl. split_and!; [done|by rewrite app_nil_r| |intros d Hd; simpl in Hd; lia].
    intros j g Hg. exists []. by rewrite app_nil_r. }
  simpl. pose proof (Nat.mod_upper_bound i k ltac:(lia)) as Hm.
  destruct (lookup_lt_is_Some_2 groups (i mod k)%nat) as [g0 Hg0]; [lia|].
  set (groups1 := alter (λ g, g ++ [node]) (i mod k)%nat groups).
  assert (groups1 !! (i mod k)%nat = Some (g0 ++ [node])) as Hg1.
  { unfold groups1. by rewrite list_lookup_alter_eq, Hg0. }
  destruct (IH (S i) groups1 Hk) as (H1 & H2 & H3 & H4); [by unfold groups1; rewrite length_alter|].
  split_and!; [done| | |].
  - rewrite H2. unfold groups1. rewrite <- (take_drop_middle groups _ _ Hg0) at 2.
    rewrite <- (take_drop_middle groups _ _ Hg0) at 1.
    assert (length (take (i mod k)%nat groups) = (i mod k)%nat) as Ht by (rewrite length_take; lia).
    rewrite alter_app_r_alt by lia. rewrite Ht, Nat.sub_diag. simpl.
    rewrite !concat_app. simpl. rewrite <- !app_assoc. simpl.
    apply Permutation_app_head, Permutation_app_head. by rewrite Permutation_middle.
  - intros j g Hg. destruct (decide (j = i mod k)%nat) as [->|Hne].
    + rewrite Hg0 in Hg. injection Hg as <-. destruct (H3 _ _ Hg1) as [g' Hg']. exists ([node] ++ g'). by rewrite Hg', <- app_assoc.
    + apply H3. unfold groups1. by rewrite list_lookup_alter_ne.
  - intros [|d] Hd.
    + rewrite Nat.add_0_r. destruct (H3 _ _ Hg1) as [g' Hg']. exists ((g0 ++ [node]) ++ g'). split; [done|].
      by destruct g0.
    + rewrite Nat.add_succ_r. apply (H4 d). simpl in Hd. lia.
Qed.

Lemma assign_nonempty k nodes :
  (0 < k ≤ length nodes)%nat →
  let r := assign_groups 0 k nodes (replicate k []) in
  length r = k ∧ concat r ≡ₚ nodes ∧ Forall (λ g, g ≠ []) r.
Proof.
  intros Hk. destruct (assign_groups_spec k nodes 0 (replicate k [])) as (H1 & H2 & _ & H4); [lia|by rewrite length_replicate|].
  cbv zeta. split_and!; [done| |].
  - rewrite H2. replace (concat (replicate k [])) with (@nil NodeID); [done|].
    clear. by induction k.
  - apply Forall_lookup. intros j g Hj. apply lookup_lt_Some in Hj as Hjl. rewrite H1 in Hjl.
    destruct (H4 j ltac:(lia)) as (g' & Hg' & Hne). rewrite Nat.add_0_l, Nat.mod_small in Hg' by lia. congruence.
Qed.

Lemma draw_percent_range minPct maxPct r default d :
  (∀ n, 0 < n < 2 ^ 53 → 0 ≤ trunc (fmul r (float_of_Z n)) < n) →
  d = default → 1 ≤ default ≤ 99 → minPct < 2 ^ 52 →
  1 ≤ draw_percent minPct maxPct default r ≤ 99.
Proof.
  intros Hdraw -> Hd Hmin. unfold draw_percent.
  set (lo := if minPct <=? 0 then 10 else minPct).
  assert (1 ≤ lo < 2 ^ 52) as Hlo by (unfold lo; destruct (Z.leb_spec minPct 0); lia).
  set (hi := if (maxPct <=? 0) || (99 <? maxPct) then default else maxPct).
  assert (hi ≤ 99) as Hhi.
  { unfold hi. destruct (Z.leb_spec maxPct 0), (Z.ltb_spec 99 maxPct); simpl; lia. }
  set (hi' := if hi <? lo then lo else hi).
  assert (lo ≤ hi' ∧ hi' < 2 ^ 52) as Hhi' by (unfold hi'; destruct (Z.ltb_spec hi lo); lia).
  pose proof (Hdraw (hi' - lo + 1) ltac:(lia)). destruct (Z.ltb_spec 99 (lo + trunc (fmul r (float_of_Z (hi' - lo + 1))))); lia.
Qed.

(** ** Properties *)

(** The bit mask of a set of fault kinds decodes to the set: the kinds
    listed by [MaskToKinds] for the accumulated bits of any kinds are exactly
    those among the sixteen that have a bit, in bit order and without
    duplicates; a kind without a bit contributes nothing. *)
Theorem MaskToKinds_roundtrip (ks : list Kind) :
  MaskToKinds (mask_of ks) = filter (λ k, k ∈ ks) mask_pairs.*2 ∧ NoDup (MaskToKinds (mask_of ks)).
Proof.
  assert (MaskToKinds (mask_of ks) = filter (λ k, k ∈ ks) mask_pairs.*2) as E.
  { unfold MaskToKinds. apply filter_fmap_snd. intros p Hp.
    unfold mask_of. rewrite (mask_of_land ks p 0 Hp), Z.land_0_l. tauto. }
  split; [done|]. rewrite E. apply NoDup_filter. apply (bool_decide_unpack _). vm_compute. exact I.
Qed.

(** The decisions consume a fixed number of draws whatever they decide: two
    for the pair and node decisions with a parameter, one for the script and the
    plain rate decisions, so the generator's state after a step does not depend
    on the configured rates or the outcome. *)
Theorem decisions_fixed_draws (n : NetworkInjector) (m : NodeInjector) (a b : NodeID) (nodes : list NodeID)
    (rng : Source) (Hok : Source_ok rng) :
  (ShouldPartition n a b rng).2 = advance 2 rng ∧ (ShouldNWayPartition n nodes rng).2 = advance 2 rng ∧
  (ShouldReorder n a b rng).2 = advance 2 rng ∧ (ShouldThrottle n a b rng).2 = advance 2 rng ∧
  (ShouldDiskSlow m a rng).2 = advance 2 rng ∧ (ShouldDiskFlakey m a rng).2 = advance 2 rng ∧
  (ShouldMemPressure m a rng).2 = advance 2 rng ∧ (ShouldCPUThrottle m a rng).2 = advance 2 rng ∧
  (ShouldCPUModulate m a rng).2 = advance 2 rng ∧ (ShouldPause m a rng).2 = advance 2 rng ∧
  (ShouldScript m rng).2 = advance 1 rng ∧ (ShouldTerminate m a rng).2 = advance 1 rng ∧
  (ShouldDirtyRestart m a rng).2 = advance 1 rng ∧ (ShouldDiskFull m a rng).2 = advance 1 rng ∧
  (ShouldDiskCorrupt m a rng).2 = advance 1 rng ∧ (ShouldCrash n a rng).2 = advance 1 rng.
Proof.
  unfold ShouldPartition, ShouldNWayPartition, ShouldReorder, ShouldThrottle, ShouldDiskSlow, ShouldDiskFlakey,
    ShouldMemPressure, ShouldCPUThrottle, ShouldCPUModulate, ShouldPause, ShouldScript, ShouldTerminate,
    ShouldDirtyRestart, ShouldDiskFull, ShouldDiskCorrupt, ShouldCrash, roll_below.
  destruct (Float64 rng) as [r0 s0] eqn:E0. destruct (Float64_facts rng r0 s0 Hok E0) as [Ha _].
  destruct (Float64 s0) as [r1 s1] eqn:E1. destruct (Float64_twice rng r0 s0 r1 s1 Hok E0 E1) as [Hb _].
  split_and!; try done; repeat case_match; done.
Qed.

(** An n-way partition is a partition: when it fires, the groups are between
    2 and the configured bound (the default 3, and never more than the nodes),
    none is empty, and together they hold every node exactly once. *)
Theorem ShouldNWayPartition_partitions (n : NetworkInjector) (nodes : list NodeID) (rng : Source)
    (groups : list (list NodeID))
    (Hok : Source_ok rng) (Hn : Z.of_nat (length nodes) < 2 ^ 53)
    (Hfire : (ShouldNWayPartition n nodes rng).1 = (true, groups)) :
  2 ≤ Z.of_nat (length groups) ≤ max_groups (netCfg n) (Z.of_nat (length nodes)) ∧
  Forall (λ g, g ≠ []) groups ∧ concat groups ≡ₚ nodes.
Proof.
  revert Hfire. unfold ShouldNWayPartition. two_draws rng.
  destruct (misses _ r); [done|]. destruct (Nat.ltb_spec (length nodes) 2) as [|Hlen]; [done|].
  set (mx := max_groups (netCfg n) (Z.of_nat (length nodes))).
  assert (2 ≤ mx ≤ Z.of_nat (length nodes)) as Hmx.
  { unfold mx, max_groups. destruct (Z.ltb_spec (NWayPartitionMaxGroups (netCfg n)) 2);
      match goal with |- context [if ?c then _ else _] => destruct c eqn:E3 end; apply Z.ltb_lt in E3 || apply Z.ltb_ge in E3; lia. }
  pose proof (Hdraw (mx - 1) ltac:(lia)) as Hd. set (t := trunc _) in *. destruct (Z.ltb_spec mx (2 + t)); [lia|].
  destruct (assign_nonempty (Z.to_nat (2 + t)) nodes ltac:(lia)) as (H1 & H2 & H3).
  set (gs := assign_groups 0 _ nodes _) in *.
  assert (filter (λ g, g ≠ []) gs = gs) as ->.
  { apply filter_all_in. by rewrite <- Forall_forall. }
  destruct (Nat.ltb_spec (length gs) 2); simpl; [done|]. intros [= <-]. split_and!; [lia|lia|done|done].
Qed.

(** The drawn parameters stay in their ranges although they go through
    floating point: a throttle lies in [lo, hi) (so the configured maximum is
    never drawn), a disk rate likewise, a CPU percentage in [1, 99], and a
    memory limit between its bounds, both included. *)
Theorem parameter_ranges (n : NetworkInjector) (m : NodeInjector) (a b : NodeID) (rng : Source) (v : Z)
    (Hok : Source_ok rng) :
  (ThrottleMaxKbps (netCfg n) < 2 ^ 53 → 0 < ThrottleMinKbps (netCfg n) < ThrottleMaxKbps (netCfg n) →
   (ShouldThrottle n a b rng).1 = (true, v) → ThrottleMinKbps (netCfg n) ≤ v < ThrottleMaxKbps (netCfg n)) ∧
  (DiskSlowMaxBps m < 2 ^ 53 → 0 < DiskSlowMinBps m < DiskSlowMaxBps m →
   (ShouldDiskSlow m a rng).1 = (true, v) → DiskSlowMinBps m ≤ v < DiskSlowMaxBps m) ∧
  (CPUThrottleMinPct m < 2 ^ 52 → (ShouldCPUThrottle m a rng).1 = (true, v) → 1 ≤ v ≤ 99) ∧
  (CPUModulateMinPct m < 2 ^ 52 → (ShouldCPUModulate m a rng).1 = (true, v) → 1 ≤ v ≤ 99) ∧
  (MemPressureMaxMB m < 2 ^ 52 → 0 < MemPressureMinMB m < MemPressureMaxMB m →
   (ShouldMemPressure m a rng).1 = (true, v) →
   Z.shiftl (MemPressureMinMB m) 20 ≤ v ≤ Z.shiftl (MemPressureMaxMB m) 20).
Proof.
  unfold ShouldThrottle, ShouldDiskSlow, ShouldCPUThrottle, ShouldCPUModulate, ShouldMemPressure.
  two_draws rng. split_and!.
  - intros Hhi Hlo. destruct (misses _ _); [done|]. destruct (Z.leb_spec (ThrottleMinKbps (netCfg n)) 0); [lia|].
    destruct (Z.leb_spec (ThrottleMaxKbps (netCfg n)) (ThrottleMinKbps (netCfg n))); [lia|]. simpl. intros [= <-].
    pose proof (Hdraw (ThrottleMaxKbps (netCfg n) - ThrottleMinKbps (netCfg n))). lia.
  - intros Hhi Hlo. destruct (misses _ _); [done|]. destruct (Z.leb_spec (DiskSlowMinBps m) 0); [lia|].
    destruct (Z.leb_spec (DiskSlowMaxBps m) (DiskSlowMinBps m)); [lia|]. simpl. intros [= <-].
    pose proof (Hdraw (DiskSlowMaxBps m - DiskSlowMinBps m)). lia.
  - intros Hlo. destruct (misses _ _); [done|]. simpl. intros [= <-]. by apply (draw_percent_range _ _ _ 50 50).
  - intros Hlo. destruct (misses _ _); [done|]. simpl. intros [= <-]. by apply (draw_percent_range _ _ _ 90 90).
  - intros Hhi Hlo. destruct (misses _ _); [done|]. destruct (Z.leb_spec (MemPressureMinMB m) 0); [lia|].
    destruct (Z.leb_spec (MemPressureMaxMB m) (MemPressureMinMB m)); [lia|]. simpl. intros [= <-].
    pose proof (Hdraw (MemPressureMaxMB m - MemPressureMinMB m + 1)). rewrite !Z.shiftl_mul_pow2 by lia. nia.
Qed.

(** Every rate 1, so that everything fires. *)
Definition demo_network : NetworkInjector :=
  NewNetwork (mkNetworkConfig fone 1 9 fone fone fone fone 100 200 fone 0 fone 0).

Definition demo_node : NodeInjector :=
  NewNode (mkNodeConfig fone 1 9 fone fone 5 fone 1 9 fone 10 90 fone 1000 2000 fone 1 fone "d" fone 64 128
             fone "s" [] 0 fone fone 0 0 fone 10 90).

Lemma demo_ok : Source_ok (New 7).
Proof. split; [discriminate|reflexivity]. Qed.

Lemma decisions_fixed_draws_witness :
  (ShouldPartition demo_network "a" "b" (New 7)).2 = advance 2 (New 7) ∧
  (ShouldScript demo_node (New 7)).2 = advance 1 (New 7).
Proof.
  destruct (decisions_fixed_draws demo_network demo_node "a" "b" [] (New 7) demo_ok)
    as (H1 & _ & _ & _ & _ & _ & _ & _ & _ & _ & H2 & _).
  split; [exact H1|exact H2].
Defined.

Lemma ShouldNWayPartition_partitions_witness :
  ∃ groups, (ShouldNWayPartition demo_network ["a"; "b"; "c"]%string (New 7)).1 = (true, groups) ∧
    concat groups ≡ₚ ["a"; "b"; "c"]%string.
Proof.
  exists [["a"; "c"]; ["b"]]%string.
  assert ((ShouldNWayPartition demo_network ["a"; "b"; "c"]%string (New 7)).1 = (true, [["a"; "c"]; ["b"]]%string)) as H
    by (vm_compute; reflexivity).
  split; [exact H|].
  apply (ShouldNWayPartition_partitions demo_network ["a"; "b"; "c"]%string (New 7)); [exact demo_ok|reflexivity|exact H].
Defined.

Lemma parameter_ranges_witness :
  ∃ v, (ShouldThrottle demo_network "a" "b" (New 7)).1 = (true, v) ∧ 100 ≤ v < 200.
Proof.
  destruct ((ShouldThrottle demo_network "a" "b" (New 7)).1) as [fired v] eqn:E.
  assert (fired = true) as -> by (apply (f_equal fst) in E; vm_compute in E; congruence).
  exists v. split; [reflexivity|].
  apply (parameter_ranges demo_network demo_node "a" "b" (New 7) v demo_ok); [reflexivity|split; reflexivity|exact E].
Defined.
