(* ===== verification/Schedule.v ===== *)
(** * Fault schedules, patterns and swarm profiles ([internal/fault/schedule.go],
    [pattern.go], [swarm.go])

    The schedule is modelled from its decoded form on; the JSON files are left
    to the standard library. *)
From S2P Require Import Prelude Word Float Prng Fault.
From stdpp Require Import strings.
Local Open Scope Z_scope.

Record ScheduleEntry := mkScheduleEntry {
  Step : Z; FaultKind : Kind; Target : string; TargetB : string; DurationNS : Z;
  Params : list (string * any); SnapshotPathHash : Z; VirtualTimeNS : Z }.

Record SwarmProfile := mkProfile {
  ActiveFaults : gset Kind; ProfileRates : gmap Kind float64; ProfileName : string }.

Record Schedule := mkSchedule {
  Entries : list ScheduleEntry; scheduleProfile : option SwarmProfile; replay : bool; cursor : nat }.

Definition NewSchedule : Schedule := mkSchedule [] None false 0.

(** [NewReplaySchedule], from the decoded entries. *)
Definition NewReplaySchedule (entries : list ScheduleEntry) (profile : option SwarmProfile) : Schedule :=
  mkSchedule entries profile true 0.

Definition Record_ (s : Schedule) (entry : ScheduleEntry) : Schedule :=
  if replay s then s
  else mkSchedule (Entries s ++ [entry]) (scheduleProfile s) (replay s) (cursor s).

(** The loop of [FaultsAt] from the cursor on: the entries it returns, and how
    far the cursor moves. *)
Fixpoint due (step : Z) (es : list ScheduleEntry) : list ScheduleEntry * nat :=
  match es with
  | [] => ([], 0%nat)
  | e :: es =>
      if step <? Step e then ([], 0%nat)
      else
        let '(r, k) := due step es in
        (if Step e =? step then e :: r else r, S k)
  end.

Definition FaultsAt (s : Schedule) (step : Z) : list ScheduleEntry * Schedule :=
  if negb (replay s) then ([], s)
  else
    let '(r, k) := due step (drop (cursor s) (Entries s)) in
    (r, mkSchedule (Entries s) (scheduleProfile s) (replay s) (cursor s + k)).

Definition ScheduleLen (s : Schedule) : Z := Z.of_nat (length (Entries s)).

Definition IsReplay (s : Schedule) : bool := replay s.

(** ** Patterns *)

Record PatternStep := mkPatternStep { At : Z; Entry : ScheduleEntry }.

Record Pattern := mkPattern { PatternName : string; Steps : list PatternStep }.

Definition second : Z := 1000000000.
Definition millisecond : Z := 1000000.

(** An entry of a pattern: the kind, the targets, the duration, the parameters. *)
Definition pattern_entry (k : Kind) (target targetB : string) (dur : Z) (params : list (string * any)) : ScheduleEntry :=
  mkScheduleEntry 0 k target targetB dur params 0 0.

Definition clear_entry : ScheduleEntry := pattern_entry KindClear "" "" 0 [].

Definition PartitionHealPattern : Pattern :=
  mkPattern "partition_heal"
    [mkPatternStep 0 (pattern_entry KindPartition "node0" "node1" 0 []);
     mkPatternStep (2 * second) clear_entry].

Definition CascadeRestartPattern : Pattern :=
  mkPattern "cascade_restart"
    [mkPatternStep 0 (pattern_entry KindTerminate "node0" "" 0 []);
     mkPatternStep (500 * millisecond) (pattern_entry KindTerminate "node1" "" 0 []);
     mkPatternStep (1000 * millisecond) (pattern_entry KindTerminate "node2" "" 0 [])].

Definition SplitBrainPattern : Pattern :=
  mkPattern "split_brain"
    [mkPatternStep 0 (pattern_entry KindNWayPartition "" "" 0
       [("groups"%string, AnyList [AnyList [AnyString "node0"; AnyString "node1"]; AnyList [AnyString "node2"]])]);
     mkPatternStep (5 * second) clear_entry].

Definition LeaderKillPattern : Pattern :=
  mkPattern "leader_kill"
    [mkPatternStep 0 (pattern_entry KindHang "node0" "" (3 * second) []);
     mkPatternStep (1 * second) (pattern_entry KindDrop "node0" "" 0 []);
     mkPatternStep (3 * second) clear_entry].

Definition BuiltinPatterns : list Pattern :=
  [PartitionHealPattern; CascadeRestartPattern; SplitBrainPattern; LeaderKillPattern].

Definition PatternByName (name : string) : option Pattern :=
  find_index (λ p, bool_decide (PatternName p = name)) BuiltinPatterns ≫= λ i, BuiltinPatterns !! i.

(** ** Swarm profiles *)

(** A rate drawn in [[0.01, maxRate]], with the floor for the bound. *)
Definition draw_rate (maxRate : float64) (rng : Source) : float64 * Source :=
  let lo := flit 1 100 in
  let maxRate := if flt maxRate lo then lo else maxRate in
  let '(r, rng) := Float64 rng in
  (fadd lo (fmul r (fsub maxRate lo)), rng).

(** [p.ActiveFaults[k] = true; p.Rates[k] = rate]. *)
Definition activate (k : Kind) (rate : float64) (p : SwarmProfile) : SwarmProfile :=
  mkProfile ({[k]} ∪ ActiveFaults p) (<[k := rate]> (ProfileRates p)) (ProfileName p).

Definition half : float64 := flit 1 2.

(** One kind of the inclusion loop. *)
Definition include_kind (maxRates : gmap Kind float64) (acc : SwarmProfile * Source) (k : Kind) : SwarmProfile * Source :=
  let '(p, rng) := acc in
  let '(r, rng) := Float64 rng in
  if flt r half then
    let '(rate, rng) := draw_rate (default fzero (maxRates !! k)) rng in (activate k rate p, rng)
  else (p, rng).

Definition profile_name (kinds active : list Kind) : string :=
  if (length active =? length kinds)%nat then "all-faults"
  else match active with
       | [k] => k +:+ "-only"
       | _ => String.concat "+" active
       end.

(** The fallback draw when no kind was included. *)
Definition force_kind (maxRates : gmap Kind float64) (kinds : list Kind) (acc : SwarmProfile * Source)
    : SwarmProfile * Source :=
  let '(p, rng) := acc in
  if (size (ActiveFaults p) =? 0)%nat && (0 <? length kinds)%nat then
    let '(x, rng) := Uint64 rng in
    match kinds !! Z.to_nat (x mod Z.of_nat (length kinds)) with
    | Some k =>
        let '(rate, rng) := draw_rate (default fzero (maxRates !! k)) rng in (activate k rate p, rng)
    | None => (p, rng)
    end
  else (p, rng).

Definition GenerateSwarmProfile (rng : Source) (maxRates : gmap Kind float64) : SwarmProfile * Source :=
  let kinds := sort_by String.ltb (elements (dom maxRates)) in
  let '(p, rng) := foldl (include_kind maxRates) (mkProfile ∅ ∅ "", rng) kinds in
  let '(p, rng) := force_kind maxRates kinds (p, rng) in
  let active := filter (λ k, k ∈ ActiveFaults p) kinds in
  (mkProfile (ActiveFaults p) (ProfileRates p) (profile_name kinds active), rng).

Definition Rate (p : SwarmProfile) (k : Kind) : float64 :=
  if bool_decide (k ∈ ActiveFaults p) then default fzero (ProfileRates p !! k) else fzero.

Definition IsActive (p : SwarmProfile) (k : Kind) : bool := bool_decide (k ∈ ActiveFaults p).

(** ** Replaying *)

(** Asking a schedule for the faults of several steps in turn. *)
Fixpoint replay_steps (s : Schedule) (steps : list Z) : list (list ScheduleEntry) :=
  match steps with
  | [] => []
  | t :: steps => let '(r, s) := FaultsAt s t in r :: replay_steps s steps
  end.

(** What a run records: entries in record mode, at steps that do not decrease. *)
Definition record_all (entries : list ScheduleEntry) : Schedule := foldl Record_ NewSchedule entries.

Definition by_step (e e' : ScheduleEntry) : Prop := Step e ≤ Step e'.

(** ** Lemmas *)

Lemma filter_none_in {A} (P : A → Prop) `{∀ x, Decision (P x)} (l : list A) :
  (∀ x, x ∈ l → ¬ P x) → filter P l = [].
Proof.
  intros HP. induction l as [|x l IH]; [done|].
  rewrite filter_cons_False by (apply HP; by left). apply IH. intros. apply HP. by right.
Qed.

(** On sorted entries the loop returns the entries of the step and leaves the
    later ones. *)
Lemma due_spec step es :
  StronglySorted by_step es →
  (due step es).1 = filter (λ e, Step e = step) es ∧
  drop (due step es).2 es = filter (λ e, step < Step e) es.
Proof.
  induction 1 as [|e es Hs IH Hall]; [done|]. simpl. rewrite Forall_forall in Hall. unfold by_step in Hall.
  destruct (Z.ltb_spec step (Step e)) as [Hlt|Hge].
  - split.
    + symmetry. apply filter_none_in. intros x [->|Hx]%elem_of_cons; [lia|]. specialize (Hall x Hx). lia.
    + symmetry. apply filter_all_in. intros x [->|Hx]%elem_of_cons; [lia|]. specialize (Hall x Hx). lia.
  - destruct (due step es) as [r k]. destruct IH as [IH1 IH2]. simpl in *.
    rewrite filter_cons. rewrite (filter_cons_False _ e es) by lia. split; [|done].
    destruct (Z.eqb_spec (Step e) step); case_decide; try done. simpl. by rewrite IH1.
Qed.

Lemma sorted_filter_by (P : ScheduleEntry → Prop) `{∀ x, Decision (P x)} es :
  StronglySorted by_step es → StronglySorted by_step (filter P es).
Proof.
  induction 1 as [|e es Hs IH Hall]; [constructor|]. rewrite filter_cons. case_decide; [|done].
  constructor; [done|]. rewrite Forall_forall in *. intros x Hx. apply list_elem_of_filter in Hx as [_ Hx]. by apply Hall.
Qed.

Lemma replay_steps_spec steps : ∀ s last,
  replay s = true → StronglySorted by_step (Entries s) →
  drop (cursor s) (Entries s) = filter (λ e, last < Step e) (Entries s) →
  StronglySorted Z.lt steps → Forall (λ t, last < t) steps →
  replay_steps s steps = map (λ t, filter (λ e, Step e = t) (Entries s)) steps.
Proof.
  induction steps as [|t steps IH]; intros s last Hr Hs Hcur Hst Hlast; [done|].
  apply StronglySorted_inv in Hst as [Hst Hall]. apply Forall_cons in Hlast as [Ht Hlast].
  simpl. unfold FaultsAt. rewrite Hr. simpl. rewrite Hcur.
  destruct (due_spec t (filter (λ e, last < Step e) (Entries s)) (sorted_filter_by _ _ Hs)) as [H1 H2].
  destruct (due t _) as [r k]. simpl in H1, H2. f_equal.
  - rewrite H1, filter_filter. apply Prelude.filter_ext_in. intros e _. lia.
  - apply (IH (mkSchedule (Entries s) (scheduleProfile s) true (cursor s + k)) t); simpl; [done|done| |done|done].
    rewrite <- drop_drop, Hcur, H2, filter_filter. apply Prelude.filter_ext_in. intros e _. lia.
Qed.

Lemma record_all_entries entries :
  Entries (record_all entries) = entries ∧ replay (record_all entries) = false.
Proof.
  unfold record_all. assert (∀ s, replay s = false → Entries (foldl Record_ s entries) = Entries s ++ entries ∧
    replay (foldl Record_ s entries) = false) as E.
  { induction entries as [|e entries IH]; intros s Hs; simpl; [by rewrite app_nil_r|].
    destruct (IH (Record_ s e)) as [H1 H2]; [unfold Record_; by rewrite Hs|].
    split; [|done]. rewrite H1. unfold Record_. rewrite Hs. simpl. by rewrite <- app_assoc. }
  by destruct (E NewSchedule eq_refl).
Qed.

(** ** Swarm lemmas *)

(** Active kinds come from the configured ones and are those with a rate. *)
Definition profile_ok (maxRates : gmap Kind float64) (p : SwarmProfile) : Prop :=
  ActiveFaults p ⊆ dom maxRates ∧ dom (ProfileRates p) = ActiveFaults p.

Lemma activate_ok maxRates k rate p : k ∈ dom maxRates → profile_ok maxRates p → profile_ok maxRates (activate k rate p).
Proof. intros Hk [H1 H2]. split; simpl; [set_solver|]. rewrite dom_insert_L. set_solver. Qed.

Lemma include_ok maxRates ks : ∀ acc,
  (∀ k, k ∈ ks → k ∈ dom maxRates) → profile_ok maxRates acc.1 →
  profile_ok maxRates (foldl (include_kind maxRates) acc ks).1.
Proof.
  induction ks as [|k ks IH]; intros [p rng] Hks Hp; [done|].
  cbn [foldl]. apply IH; [intros; apply Hks; by right|]. unfold include_kind.
  destruct (Float64 rng) as [r rng1]. destruct (flt r half); [|done].
  destruct (draw_rate _ rng1) as [rate rng2]. apply activate_ok; [apply Hks; by left|done].
Qed.

Lemma force_ok maxRates ks p rng :
  (∀ k, k ∈ ks → k ∈ dom maxRates) → profile_ok maxRates p →
  profile_ok maxRates (force_kind maxRates ks (p, rng)).1 ∧
  (ks ≠ [] → ActiveFaults (force_kind maxRates ks (p, rng)).1 ≠ ∅).
Proof.
  intros Hks Hp. unfold force_kind. destruct (Nat.eqb_spec (size (ActiveFaults p)) 0) as [H0|H0]; cbn [andb].
  - destruct ks as [|k0 ks0]; [done|]. destruct (Nat.ltb_spec 0 (length (k0 :: ks0))); [|simpl in *; lia].
    destruct (Uint64 rng) as [x rng1].
    pose proof (Z.mod_pos_bound x (Z.of_nat (length (k0 :: ks0))) ltac:(simpl; lia)) as Hb.
    destruct (lookup_lt_is_Some_2 (k0 :: ks0) (Z.to_nat (x mod Z.of_nat (length (k0 :: ks0))))) as [k Hk]; [lia|].
    rewrite Hk.
    destruct (draw_rate _ _) as [rate rng2]. split.
    + apply activate_ok; [|done]. apply Hks. by eapply list_elem_of_lookup_2.
    + intros _. cbn [ActiveFaults activate fst]. set_solver.
  - split; [done|]. cbn [fst]. intros _ He. apply H0. rewrite He. apply size_empty.
Qed.

(** ** Properties *)

(** Replay reproduces the recording: entries recorded at steps that do not
    decrease, loaded into a replay schedule and asked for at any ascending
    steps, come back at exactly their own step, in recording order and each
    once; recording into a replay schedule changes nothing. *)
Theorem FaultsAt_replays (entries : list ScheduleEntry) (profile : option SwarmProfile) (steps : list Z)
    (He : StronglySorted by_step entries) (Hst : StronglySorted Z.lt steps) :
  let s := NewReplaySchedule (Entries (record_all entries)) profile in
  replay_steps s steps = map (λ t, filter (λ e, Step e = t) entries) steps ∧
  ∀ e, Record_ s e = s.
Proof.
  destruct (record_all_entries entries) as [-> _]. split; [|done].
  set (last := match steps, entries with t :: _, e :: _ => Z.min (t - 1) (Step e - 1) | t :: _, [] => t - 1 | _, _ => 0 end).
  destruct steps as [|t steps]; [done|].
  apply (replay_steps_spec (t :: steps) (NewReplaySchedule entries profile) last); simpl; [done|done| |done|].
  - symmetry. apply filter_all_in. intros x Hx. unfold last. destruct entries as [|e entries]; [by apply elem_of_nil in Hx|].
    apply StronglySorted_inv in He as [_ He]. rewrite Forall_forall in He.
    apply elem_of_cons in Hx as [->|Hx]; [lia|]. specialize (He x Hx). unfold by_step in He. lia.
  - apply StronglySorted_inv in Hst as [_ Hst]. unfold last.
    constructor; [destruct entries; lia|]. eapply Forall_impl; [exact Hst|]. intros x Hx. destruct entries; simpl in *; lia.
Qed.

(** A swarm profile always tests something it was given: with at least one
    configured kind the active set is not empty, it contains configured kinds
    only, exactly the active kinds have a rate, and the rate of any other kind
    is 0. *)
Theorem GenerateSwarmProfile_active (rng : Source) (maxRates : gmap Kind float64) (Hne : maxRates ≠ ∅) :
  let p := (GenerateSwarmProfile rng maxRates).1 in
  ActiveFaults p ≠ ∅ ∧ ActiveFaults p ⊆ dom maxRates ∧ dom (ProfileRates p) = ActiveFaults p ∧
  ∀ k, IsActive p k = false → Rate p k = fzero.
Proof.
  unfold GenerateSwarmProfile. set (kinds := sort_by String.ltb (elements (dom maxRates))).
  assert (∀ k, k ∈ kinds → k ∈ dom maxRates) as Hk.
  { intros k. unfold kinds. by rewrite sort_by_Permutation, elem_of_elements. }
  assert (kinds ≠ []) as Hkne.
  { intros E. apply Hne. apply dom_empty_iff_L. apply leibniz_equiv, elements_empty_iff.
    apply Permutation_nil_r. rewrite <- E. unfold kinds. by rewrite sort_by_Permutation. }
  pose proof (include_ok maxRates kinds (mkProfile ∅ ∅ "", rng) Hk) as Hi.
  destruct (foldl _ _ kinds) as [p1 rng1]. cbn [fst] in Hi.
  destruct (force_ok maxRates kinds p1 rng1 Hk) as [Hf Hfne].
  { apply Hi. split; simpl; [set_solver|by rewrite dom_empty_L]. }
  destruct (force_kind maxRates kinds (p1, rng1)) as [p2 rng2]. cbn [fst] in *. destruct Hf as [H1 H2].
  split_and!; simpl; auto. intros k. unfold IsActive, Rate. simpl. intros ->. done.
Qed.

Definition demo_entry (step : Z) (target : string) : ScheduleEntry :=
  mkScheduleEntry step KindHang target "" 0 [] 0 0.

Lemma FaultsAt_replays_witness :
  replay_steps (NewReplaySchedule [demo_entry 1 "a"; demo_entry 1 "b"; demo_entry 4 "c"] None) [0; 1; 3; 4]
  = [[]; [demo_entry 1 "a"; demo_entry 1 "b"]; []; [demo_entry 4 "c"]].
Proof.
  destruct (FaultsAt_replays [demo_entry 1 "a"; demo_entry 1 "b"; demo_entry 4 "c"] None [0; 1; 3; 4]) as [H _].
  - repeat constructor; unfold by_step; simpl; lia.
  - repeat constructor; lia.
  - exact H.
Defined.

Lemma GenerateSwarmProfile_active_witness :
  ActiveFaults (GenerateSwarmProfile (New 7) {[KindDrop := flit 1 10]}).1 ≠ ∅.
Proof. apply (GenerateSwarmProfile_active (New 7) {[KindDrop := flit 1 10]}). discriminate. Defined.
