(* ===== verification/Adaptive.v ===== *)
(** * Adaptive fault selection ([internal/fault/adaptive.go])

    The UCB1 bandit over fault kinds.  [math.Log] is a parameter.  [sort.Slice]
    leaves the order of equal scores open; the model's sort is one of the
    results it may give, and the theorems do not depend on the order of ties. *)
From stdpp Require Import strings.
From S2P Require Import Prelude Word Float Prng Fault.
Local Open Scope Z_scope.

Record FaultArm := mkArm { ArmKind : Kind; Pulls : Z; TotalReward : float64; BaseRate : float64 }.

Record AdaptiveFaultSelector := mkSelector {
  arms : gmap Kind FaultArm; kinds : list Kind; total : Z; ucbC : float64; maxAvgRwd : float64 }.

Record ArmStats := mkArmStats { asKind : Kind; asPulls : Z; asAvgReward : float64; asBaseRate : float64 }.

(** [math.Sqrt2]. *)
Definition Sqrt2 : float64 := flit 6369051672525773 4503599627370496.

Definition NewAdaptiveFaultSelector (baseRates : gmap Kind float64) (c : float64) : AdaptiveFaultSelector :=
  mkSelector (map_imap (λ k rate, Some (mkArm k 0 fzero rate)) baseRates)
    (sort_by String.ltb (elements (dom baseRates))) 0 (if fle c fzero then Sqrt2 else c) fzero.

(** [a.arms[k]] for a kind of [a.kinds]: always present. *)
Definition arm (a : AdaptiveFaultSelector) (k : Kind) : FaultArm :=
  default (mkArm k 0 fzero fzero) (arms a !! k).

Definition set_arm (a : AdaptiveFaultSelector) (k : Kind) (x : FaultArm) (total' : Z) (mx : float64) : AdaptiveFaultSelector :=
  mkSelector (<[k := x]> (arms a)) (kinds a) total' (ucbC a) mx.

Definition RecordReward (a : AdaptiveFaultSelector) (kind : Kind) (reward : float64) : AdaptiveFaultSelector :=
  match arms a !! kind with
  | None => a
  | Some x =>
      let x := mkArm (ArmKind x) (add64 (Pulls x) 1) (fadd (TotalReward x) reward) (BaseRate x) in
      let avgRwd := fdiv (TotalReward x) (float_of_Z (Pulls x)) in
      set_arm a kind x (add64 (total a) 1) (if fgt avgRwd (maxAvgRwd a) then avgRwd else maxAvgRwd a)
  end.

Definition Rates (a : AdaptiveFaultSelector) : gmap Kind float64 := BaseRate <$> arms a.

Definition Stats (a : AdaptiveFaultSelector) (kind : Kind) : Z * float64 :=
  match arms a !! kind with
  | None => (0, fzero)
  | Some x => if Pulls x =? 0 then (0, fzero) else (Pulls x, fdiv (TotalReward x) (float_of_Z (Pulls x)))
  end.

(** One saved record. *)
Definition warm_one (a : AdaptiveFaultSelector) (s : ArmStats) : AdaptiveFaultSelector :=
  if asPulls s =? 0 then a
  else
    match arms a !! asKind s with
    | None => a
    | Some x =>
        let scaledPulls := asPulls s / 2 in
        let scaledPulls := if scaledPulls =? 0 then 1 else scaledPulls in
        set_arm a (asKind s)
          (mkArm (ArmKind x) scaledPulls (fmul (asAvgReward s) (float_of_Z scaledPulls)) (BaseRate x))
          (add64 (total a) scaledPulls)
          (if fgt (asAvgReward s) (maxAvgRwd a) then asAvgReward s else maxAvgRwd a)
    end.

Definition WarmStart (a : AdaptiveFaultSelector) (saved : list ArmStats) : AdaptiveFaultSelector :=
  foldl warm_one a saved.

Definition AllStats (a : AdaptiveFaultSelector) : list ArmStats :=
  map (λ k, let x := arm a k in
    mkArmStats k (Pulls x)
      (if 0 <? Pulls x then fdiv (TotalReward x) (float_of_Z (Pulls x)) else fzero) (BaseRate x)) (kinds a).

Section select.
Context (log : float64 → float64).

(** The UCB1 score of a pulled arm. *)
Definition ucb (a : AdaptiveFaultSelector) (logTotal : float64) (k : Kind) : float64 :=
  let x := arm a k in
  let scale := if fle (maxAvgRwd a) fzero then fone else maxAvgRwd a in
  let exploitation := fdiv (fdiv (TotalReward x) (float_of_Z (Pulls x))) scale in
  let exploration := fmul (ucbC a) (fsqrt (fdiv logTotal (float_of_Z (Pulls x)))) in
  fadd exploitation exploration.

Definition unvisited (a : AdaptiveFaultSelector) : list Kind :=
  filter (λ k, Pulls (arm a k) = 0) (kinds a).

Definition Select (a : AdaptiveFaultSelector) (rng : Source) : Kind * Source :=
  match kinds a with
  | [] => (""%string, rng)
  | first :: _ =>
      match unvisited a with
      | [] => (argmax (ucb a (log (float_of_Z (total a)))) first (kinds a), rng)
      | us =>
          let '(x, rng) := Uint64 rng in
          (default ""%string (us !! Z.to_nat (x mod Z.of_nat (length us))), rng)
      end
  end.

(** The score of any arm in [SelectMultiple]: infinite before the first pull. *)
Definition multi_score (a : AdaptiveFaultSelector) (k : Kind) : float64 :=
  if Pulls (arm a k) =? 0 then finf
  else ucb a (if 0 <? total a then log (float_of_Z (total a)) else fzero) k.

Definition by_score (a : AdaptiveFaultSelector) (k k' : Kind) : bool := fgt (multi_score a k) (multi_score a k').

(** The generator is passed and not used. *)
Definition SelectMultiple (a : AdaptiveFaultSelector) (rng : Source) (n : Z) : list Kind :=
  if n <=? 0 then []
  else
    let n := if Z.of_nat (length (kinds a)) <=? n then length (kinds a) else Z.to_nat n in
    take n (sort_by (by_score a) (kinds a)).

End select.

(** ** Specification *)

(** Sum of the pulls of the arms. *)
Definition pulls_sum (a : AdaptiveFaultSelector) : Z :=
  map_fold (λ _ x n, Pulls x + n) 0 (arms a).

(** The rounds of the bandit: select a kind, inject it, record its reward. *)
Definition round (log : float64 → float64) (st : AdaptiveFaultSelector * Source) (reward : float64)
    : AdaptiveFaultSelector * Source :=
  let '(k, rng) := Select log st.1 st.2 in (RecordReward st.1 k reward, rng).

(** A selector whose arms are the kinds it lists, pulled at most once each. *)
Record exploring (a : AdaptiveFaultSelector) : Prop := mkExploring {
  ex_nodup : NoDup (kinds a);
  ex_arms : ∀ k, k ∈ kinds a ↔ is_Some (arms a !! k);
  ex_once : ∀ k, k ∈ kinds a → Pulls (arm a k) = 0 ∨ Pulls (arm a k) = 1 }.

(** ** Lemmas *)

Lemma pulls_sum_insert_new (m : gmap Kind FaultArm) k x :
  m !! k = None → map_fold (λ _ x n, Pulls x + n) 0 (<[k := x]> m) = Pulls x + map_fold (λ _ x n, Pulls x + n) 0 m.
Proof. intros Hk. apply (map_fold_insert_L (λ _ (x : FaultArm) n, Pulls x + n)); [intros; lia|done]. Qed.

Lemma pulls_sum_set a k x y t mx :
  arms a !! k = Some y → pulls_sum (set_arm a k x t mx) = pulls_sum a - Pulls y + Pulls x.
Proof.
  intros Hk. unfold pulls_sum, set_arm. simpl.
  rewrite <- (insert_delete_id (arms a) k y) at 2 by done.
  rewrite <- (insert_delete_eq (arms a)), !pulls_sum_insert_new by apply lookup_delete_eq. lia.
Qed.

Lemma pulls_sum_new m c : pulls_sum (NewAdaptiveFaultSelector m c) = 0.
Proof.
  unfold pulls_sum. simpl.
  induction m as [|k r m Hk Hm IH] using map_first_key_ind; [done|].
  rewrite map_imap_insert_Some with (y := mkArm k 0 fzero r) by done.
  rewrite pulls_sum_insert_new; [rewrite IH; done|]. by rewrite map_lookup_imap, Hk.
Qed.

Lemma elem_of_unvisited a k : k ∈ unvisited a ↔ Pulls (arm a k) = 0 ∧ k ∈ kinds a.
Proof. unfold unvisited. by rewrite list_elem_of_filter. Qed.

Lemma arm_set a k x t mx k' : arm (set_arm a k x t mx) k' = if decide (k' = k) then x else arm a k'.
Proof.
  unfold arm, set_arm. simpl. case_decide as E; [subst; by rewrite lookup_insert_eq|].
  by rewrite lookup_insert_ne.
Qed.

Lemma drawn_unvisited a rng :
  unvisited a ≠ [] →
  default ""%string (unvisited a !! Z.to_nat ((Uint64 rng).1 mod Z.of_nat (length (unvisited a)))) ∈ unvisited a.
Proof.
  intros Hne. set (i := Z.to_nat _).
  assert (i < length (unvisited a))%nat as [k Hk]%lookup_lt_is_Some.
  { assert (0 < length (unvisited a))%nat by (by destruct (unvisited a); [|simpl; lia]). unfold i.
    pose proof (Z.mod_pos_bound (Uint64 rng).1 (Z.of_nat (length (unvisited a)))). lia. }
  rewrite Hk. simpl. by eapply list_elem_of_lookup_2.
Qed.

Lemma Select_unvisited log a rng :
  unvisited a ≠ [] → (Select log a rng).1 ∈ unvisited a ∧ (Select log a rng).2 = (Uint64 rng).2.
Proof.
  intros Hne. pose proof (drawn_unvisited a rng Hne) as Hd. unfold Select.
  destruct (kinds a) eqn:Hk; [by unfold unvisited in Hne; rewrite Hk in Hne|].
  destruct (unvisited a) eqn:Hu; [done|]. by destruct (Uint64 rng).
Qed.

Lemma exploring_new m c : exploring (NewAdaptiveFaultSelector m c).
Proof.
  assert (∀ k, k ∈ kinds (NewAdaptiveFaultSelector m c) ↔ is_Some (m !! k)) as Hk.
  { intros k. simpl. by rewrite sort_by_Permutation, elem_of_elements, elem_of_dom. }
  split.
  - simpl. rewrite sort_by_Permutation. apply NoDup_elements.
  - intros k. rewrite Hk. simpl. rewrite map_lookup_imap. destruct (m !! k); simpl; [done|].
    by split; intros [].
  - intros k _. left. unfold arm. simpl. rewrite map_lookup_imap. by destruct (m !! k).
Qed.

(** One pull of an unvisited arm. *)
Lemma reward_unvisited a k r :
  exploring a → k ∈ unvisited a →
  exploring (RecordReward a k r) ∧ kinds (RecordReward a k r) = kinds a ∧
  length (unvisited a) = S (length (unvisited (RecordReward a k r))) ∧
  total (RecordReward a k r) = add64 (total a) 1 ∧ Rates (RecordReward a k r) = Rates a.
Proof.
  intros [Hnd Harms Honce] [Hp Hk]%elem_of_unvisited. pose proof (proj1 (Harms k) Hk) as [x Hx].
  assert (arm a k = x) as Ha by (unfold arm; by rewrite Hx). rewrite Ha in Hp.
  unfold RecordReward. rewrite Hx. rewrite Hp. set (x' := mkArm _ _ _ _).
  assert (∀ t mx, unvisited (set_arm a k x' t mx) = filter (λ k', k' ≠ k) (unvisited a)) as Hu.
  { intros t mx. unfold unvisited. rewrite filter_filter. simpl. apply Prelude.filter_ext_in.
    intros k' _. rewrite arm_set. case_decide as E; [|tauto].
    split; [intros H; by vm_compute in H|tauto]. }
  split_and!.
  - split; [done| |].
    + intros k'. rewrite (Harms k'). simpl. rewrite lookup_insert. case_decide as E; [|done].
      subst. rewrite Hx. split; intros _; by eexists.
    + intros k' Hk'. rewrite arm_set. case_decide; [by right|by apply Honce].
  - done.
  - rewrite Hu. assert (NoDup (unvisited a)) as Hnd' by (by apply NoDup_filter).
    assert (k ∈ unvisited a) as [l1 [l2 E]]%list_elem_of_split by (apply elem_of_unvisited; by rewrite Ha).
    rewrite E in *. rewrite filter_app, filter_cons, decide_False by tauto.
    apply NoDup_app in Hnd' as (_ & H1 & [H2 _]%NoDup_cons).
    rewrite !filter_all_in; [rewrite !length_app; simpl; lia|by intros y Hy ->|].
    intros y Hy ->. apply (H1 k Hy). by left.
  - done.
  - unfold Rates, set_arm. simpl. rewrite fmap_insert. apply insert_id. rewrite lookup_fmap, Hx. done.
Qed.

Lemma rounds_unvisited log rs : ∀ a rng,
  exploring a → length rs = length (unvisited a) →
  let a' := (foldl (round log) (a, rng) rs).1 in
  exploring a' ∧ kinds a' = kinds a ∧ unvisited a' = [] ∧
  total a' = foldl (λ n _, add64 n 1) (total a) rs ∧ Rates a' = Rates a.
Proof.
  induction rs as [|r rs IH]; intros a rng Ha Hl.
  { simpl in *. destruct (unvisited a); [done|discriminate]. }
  assert (unvisited a ≠ []) as Hne by (by intros E; rewrite E in Hl).
  destruct (Select_unvisited log a rng Hne) as [Hs _]. cbn [foldl]. unfold round at 2 4 6 8 10. cbn [fst snd].
  destruct (Select log a rng) as [k rng'] eqn:E. cbn [fst snd] in *.
  destruct (reward_unvisited a k r Ha Hs) as (Ha' & Hk & Hlen & Ht & Hr).
  destruct (IH (RecordReward a k r) rng' Ha') as (H1 & H2 & H3 & H4 & H5).
  { simpl in Hl. lia. }
  split_and!; [done|congruence|done|by rewrite H4, Ht|congruence].
Qed.

Lemma count_rewards {A} (rs : list A) : ∀ n,
  0 ≤ n → n + Z.of_nat (length rs) < 2 ^ 64 → foldl (λ n _, add64 n 1) n rs = n + Z.of_nat (length rs).
Proof.
  induction rs as [|r rs IH]; intros n Hn Hl; cbn [foldl length] in *; [lia|].
  assert (add64 n 1 = n + 1) as -> by (apply wrap_small; unfold is_word; lia). rewrite IH; lia.
Qed.

(** What the generator-free part of [Select] returns. *)
Lemma Select_visited log a rng :
  kinds a ≠ [] → unvisited a = [] →
  (Select log a rng).2 = rng ∧ (Select log a rng).1 ∈ kinds a ∧
  ∀ k, k ∈ kinds a →
    flt (ucb a (log (float_of_Z (total a))) (Select log a rng).1) (ucb a (log (float_of_Z (total a))) k) = false.
Proof.
  intros Hne Hu. unfold Select. destruct (kinds a) as [|first ks] eqn:Hk; [done|]. rewrite Hu. cbn [fst snd].
  split; [done|]. apply argmax_spec. left.
Qed.

Lemma total_ok_set a k x y t mx :
  arms a !! k = Some y → total a = u64 (pulls_sum a) →
  t = u64 (total a - Pulls y + Pulls x) → t = u64 (pulls_sum (set_arm a k x t mx)).
Proof.
  intros Hy Ha ->. rewrite (pulls_sum_set a k x y) by done. rewrite Ha.
  replace (u64 (pulls_sum a) - Pulls y + Pulls x) with (u64 (pulls_sum a) + (Pulls x - Pulls y)) by lia.
  rewrite wrap_add_l. f_equal. lia.
Qed.

Lemma reward_total a k r :
  total a = u64 (pulls_sum a) → total (RecordReward a k r) = u64 (pulls_sum (RecordReward a k r)).
Proof.
  intros Ha. unfold RecordReward. destruct (arms a !! k) as [y|] eqn:Hy; [|done].
  cbn [set_arm total]. apply (total_ok_set a k _ y _ _ Hy Ha). cbn [Pulls]. unfold add64.
  rewrite wrap_add_r. f_equal. lia.
Qed.

Lemma warm_total saved : ∀ a,
  NoDup (asKind <$> saved) → (∀ s, s ∈ saved → Pulls (arm a (asKind s)) = 0) →
  total a = u64 (pulls_sum a) → total (WarmStart a saved) = u64 (pulls_sum (WarmStart a saved)).
Proof.
  induction saved as [|s saved IH]; intros a Hnd Hp Ha; [done|].
  apply NoDup_cons in Hnd as [Hs Hnd]. unfold WarmStart. cbn [foldl].
  assert (total (warm_one a s) = u64 (pulls_sum (warm_one a s)) ∧
    ∀ k, k ≠ asKind s → arm (warm_one a s) k = arm a k) as [H1 H2].
  { unfold warm_one. case_bool; [done|]. destruct (arms a !! asKind s) as [y|] eqn:Hy; [|done].
    cbv zeta. split.
    - cbn [set_arm total]. apply (total_ok_set a _ _ y _ _ Hy Ha). cbn [Pulls].
      assert (Pulls y = 0) as -> by (rewrite <- (Hp s ltac:(left)); unfold arm; by rewrite Hy).
      unfold add64. f_equal. lia.
    - intros k Hk. rewrite arm_set. by rewrite decide_False. }
  apply IH; [done| |done]. intros s' Hs'. rewrite H2; [apply Hp; by right|].
  intros E. apply Hs. rewrite <- E. by apply list_elem_of_fmap_2.
Qed.

Lemma by_score_sorted log a l :
  Forall (λ k, is_nan (multi_score log a k) = false) l →
  StronglySorted (λ k k', flt (multi_score log a k) (multi_score log a k') = false) (sort_by (by_score log a) l).
Proof. apply (sort_by_key_descending (multi_score log a)). Qed.

(** ** Properties *)


(** The counter of all pulls is the sum of the arms' pulls (modulo 2^64)
    after a warm start of a new selector with one record per kind and any
    rewards.  A warm start over pulls already counted breaks the equality. *)
Theorem total_counts_pulls (baseRates : gmap Kind float64) (c : float64) (saved : list ArmStats)
    (rewards : list (Kind * float64)) (Hsaved : NoDup (asKind <$> saved)) :
  let a := foldl (λ a r, RecordReward a r.1 r.2) (WarmStart (NewAdaptiveFaultSelector baseRates c) saved) rewards in
  total a = u64 (pulls_sum a) ∧
  ∃ a' s, total a' = u64 (pulls_sum a') ∧ total (WarmStart a' [s]) ≠ u64 (pulls_sum (WarmStart a' [s])).
Proof.
  cbv zeta. split.
  - assert (∀ rs a, total a = u64 (pulls_sum a) →
      total (foldl (λ a r, RecordReward a r.1 r.2) a rs) = u64 (pulls_sum (foldl (λ a r, RecordReward a r.1 r.2) a rs))) as Hrs.
    { induction rs as [|r rs IH]; intros a Ha; [done|]. cbn [foldl]. by apply IH, reward_total. }
    apply Hrs, warm_total; [done| |by rewrite pulls_sum_new].
    intros s _. unfold arm. simpl. rewrite map_lookup_imap. by destruct (baseRates !! asKind s).
  - exists (RecordReward (NewAdaptiveFaultSelector {["hang" := fone]} fone) "hang" fone), (mkArmStats "hang" 4 fone fone).
    split; [by vm_compute|]. intros H. by vm_compute in H.
Qed.

(** SelectMultiple returns min(n, number of kinds) distinct kinds; when
    no score is NaN they come in descending order of score, none of those left
    out scores higher than one returned, and so the kinds never pulled come
    before every pulled one. *)
Theorem SelectMultiple_top (log : float64 → float64) (a : AdaptiveFaultSelector) (rng : Source) (n : Z)
    (Hnd : NoDup (kinds a)) (Hnan : ∀ k, k ∈ kinds a → is_nan (multi_score log a k) = false) :
  let r := SelectMultiple log a rng n in
  NoDup r ∧ (∀ k, k ∈ r → k ∈ kinds a) ∧ length r = Nat.min (Z.to_nat n) (length (kinds a)) ∧
  StronglySorted (λ k k', flt (multi_score log a k) (multi_score log a k') = false) r ∧
  ∀ k k', k ∈ r → k' ∈ kinds a → k' ∉ r →
    flt (multi_score log a k) (multi_score log a k') = false ∧
    (Pulls (arm a k') = 0 → multi_score log a k = finf).
Proof.
  cbv zeta. unfold SelectMultiple. case_bool.
  { split_and!; [constructor|by intros k ?%elem_of_nil|simpl; lia|constructor|by intros k k' ?%elem_of_nil]. }
  set (m := if Z.of_nat (length (kinds a)) <=? n then _ else _). set (l := sort_by (by_score log a) (kinds a)).
  assert (l ≡ₚ kinds a) as Hp by apply sort_by_Permutation.
  assert (StronglySorted (λ k k', flt (multi_score log a k) (multi_score log a k') = false) l) as Hs.
  { apply by_score_sorted, Forall_forall, Hnan. }
  assert (NoDup (take m l ++ drop m l)) as Hnd' by (by rewrite take_drop, Hp).
  split_and!.
  - by apply NoDup_app in Hnd' as (? & _).
  - intros k Hk. rewrite <- Hp. by eapply subseteq_take.
  - rewrite length_take, Hp. unfold m. case_bool; lia.
  - rewrite <- (take_drop m l) in Hs. by apply StronglySorted_app in Hs as (_ & ? & _).
  - intros k k' Hk Hk' Hnk'.
    assert (flt (multi_score log a k) (multi_score log a k') = false) as Hf.
    { apply (sorted_take_drop (λ k k', flt (multi_score log a k) (multi_score log a k') = false) m l k k' Hs Hk).
      rewrite <- Hp, <- (take_drop m l), elem_of_app in Hk'. tauto. }
    split; [done|]. intros H0. assert (multi_score log a k' = finf) as Hinf by (unfold multi_score; by rewrite H0).
    rewrite Hinf in Hf. assert (is_nan (multi_score log a k) = false) as Hnk.
    { apply Hnan. rewrite <- Hp. by eapply subseteq_take. }
    destruct (multi_score log a k) as [[]|[]| |[]]; done.
Qed.

(** ** Witnesses *)

Definition demo_rates : gmap Kind float64 := {["drop" := fone; "delay" := fone; "hang" := fone]}.
Definition demo_arms : AdaptiveFaultSelector := NewAdaptiveFaultSelector demo_rates fone.
Definition demo_pulled : AdaptiveFaultSelector :=
  RecordReward (RecordReward demo_arms "drop" (float_of_Z 5)) "hang" (float_of_Z 9).

Example SelectMultiple_demo : SelectMultiple (λ x, x) demo_pulled (New 1) 2 = ["delay"; "hang"]%string.
Proof. by vm_compute. Qed.


Lemma total_counts_pulls_witness :
  let a := foldl (λ a r, RecordReward a r.1 r.2)
    (WarmStart demo_arms [mkArmStats "hang" 9 fone fone; mkArmStats "drop" 1 fone fone]) [("drop"%string, fone)] in
  total a = 6 ∧ total a = u64 (pulls_sum a).
Proof.
  cbv zeta. split; [by vm_compute|].
  apply (total_counts_pulls demo_rates fone [mkArmStats "hang" 9 fone fone; mkArmStats "drop" 1 fone fone]).
  apply (bool_decide_unpack _). by vm_compute.
Defined.

Lemma SelectMultiple_top_witness :
  length (SelectMultiple (λ x, x) demo_pulled (New 1) 2) = 2%nat ∧ NoDup (SelectMultiple (λ x, x) demo_pulled (New 1) 2).
Proof.
  split; [by vm_compute|].
  refine (proj1 (SelectMultiple_top (λ x, x) demo_pulled (New 1) 2 _ _)).
  - apply (bool_decide_unpack _). by vm_compute.
  - apply Forall_forall. change (kinds demo_pulled) with ["delay"; "drop"; "hang"]%string.
    repeat constructor; by vm_compute.
Defined.
