(* ===== verification/Explorer.v ===== *)
(** * The explorer ([internal/explorer/explorer.go])

    [Explorer] ties the components together: it takes snapshots of the machine
    into the snapshot tree, scores them with the signals of the step, keeps the
    candidates in the frontier, and runs the exploration loop.  The hypervisor
    interface, the context and the clock are the class [World]: a state and what
    each call may do to it.  Its implementations are other packages.  Mutexes
    and log lines are left out; a value of [map[string]any] is a tree of
    basic values. *)
From S2P Require Import Prelude Word Float Prng Ring.
From S2P Require Import SnapshotTree Mcts Saturation Heap Frontier InputTree Novelty Coverage.
Local Open Scope Z_scope.

(** [hypervisor.Hypervisor], [context.Context] and [time.Now] as the explorer
    uses them. *)
Class World (W E : Type) := {
  hyp_Snapshot : W → result E Z * W;
  hyp_Restore : W → Z → result E unit * W;
  hyp_SetSeed : W → Z → result E unit * W;
  ctx_Err : W → bool * W;
  time_Now : W → Z * W }.

Record Config := mkConfig {
  MaxDepth : Z; MaxStates : Z; MaxDuration : Z; cfgStrategy : Strategy; Seed : Z;
  BranchFactor : Z; CoverageMapSize : Z; CorpusPath : string }.

Record Violation := mkViolation {
  vProperty : string; vMessage : string; vSnapshotID : Z; vHypervisorID : Z; vSeed : Z; vStep : Z;
  vBurstInsns : Z; vDetails : list (string * any); vPath : list Z; vFaultKindMask : Z;
  vConcurrentCmds : Z }.

Record AssertionCounts := mkCounts {
  AlwaysTotal : Z; AlwaysPassed : Z; AlwaysFailed : Z; SometimesTotal : Z; SometimesPassed : Z;
  ReachableTotal : Z; ReachablePassed : Z }.

Record PropertyCount := mkPropertyCount {
  pcAssertType : string; pcMessage : string; Total : Z; Passed : Z; Failed : Z }.

Record Result := mkResult {
  rViolations : list Violation; rAssertions : AssertionCounts; rAssertionEvals : list AssertionEval;
  rPropertyCounts : list PropertyCount; rTotalStates : Z; rTotalEdges : Z; rNewEdges : Z;
  rDuration : Z; rSometimesAllStates : option (gmap string SometimesAllState) }.

Record Explorer := mkExplorer {
  tree : Tree;
  cfg : Config;
  rng : Source;
  coverage : CoverageTracker;
  frontier : Frontier;
  scorer : Scorer;
  violations : list Violation;
  assertions : AssertionCounts;
  assertionEvals : list AssertionEval;
  propertyCounts : gmap string PropertyCount;
  states : Z;
  sometimesSatisfied : gset string;
  stepSometimesEvals : gmap string bool;
  pathFrequency : gmap Z Z;
  mcts : option MCTSSelector;
  saturation : SaturationTracker;
  sometimesAllTracker : gmap string SometimesAllState;
  stepSometimesAllEvals : list SometimesAllEval;
  reachableSeen : gset string;
  stepReachableEvals : gmap string bool;
  loadedArmStats : list FaultArmRecord;
  pendingArmStats : list FaultArmRecord;
  marginalWindow : list Z;
  marginalWindowSize : Z;
  marginalPos : Z;
  deterministicCoverage : bool }.

(** Assignments to single fields. *)
Definition set_tree (v : Tree) (e : Explorer) : Explorer :=
  mkExplorer v (cfg e) (rng e) (coverage e) (frontier e) (scorer e) (violations e)
    (assertions e) (assertionEvals e) (propertyCounts e) (states e) (sometimesSatisfied e)
    (stepSometimesEvals e) (pathFrequency e) (mcts e) (saturation e) (sometimesAllTracker e)
    (stepSometimesAllEvals e) (reachableSeen e) (stepReachableEvals e) (loadedArmStats e)
    (pendingArmStats e) (marginalWindow e) (marginalWindowSize e) (marginalPos e)
    (deterministicCoverage e).

Definition set_rng (v : Source) (e : Explorer) : Explorer :=
  mkExplorer (tree e) (cfg e) v (coverage e) (frontier e) (scorer e) (violations e)
    (assertions e) (assertionEvals e) (propertyCounts e) (states e) (sometimesSatisfied e)
    (stepSometimesEvals e) (pathFrequency e) (mcts e) (saturation e) (sometimesAllTracker e)
    (stepSometimesAllEvals e) (reachableSeen e) (stepReachableEvals e) (loadedArmStats e)
    (pendingArmStats e) (marginalWindow e) (marginalWindowSize e) (marginalPos e)
    (deterministicCoverage e).

Definition set_coverage (v : CoverageTracker) (e : Explorer) : Explorer :=
  mkExplorer (tree e) (cfg e) (rng e) v (frontier e) (scorer e) (violations e) (assertions
    e) (assertionEvals e) (propertyCounts e) (states e) (sometimesSatisfied e)
    (stepSometimesEvals e) (pathFrequency e) (mcts e) (saturation e) (sometimesAllTracker e)
    (stepSometimesAllEvals e) (reachableSeen e) (stepReachableEvals e) (loadedArmStats e)
    (pendingArmStats e) (marginalWindow e) (marginalWindowSize e) (marginalPos e)
    (deterministicCoverage e).

Definition set_frontier (v : Frontier) (e : Explorer) : Explorer :=
  mkExplorer (tree e) (cfg e) (rng e) (coverage e) v (scorer e) (violations e) (assertions
    e) (assertionEvals e) (propertyCounts e) (states e) (sometimesSatisfied e)
    (stepSometimesEvals e) (pathFrequency e) (mcts e) (saturation e) (sometimesAllTracker e)
    (stepSometimesAllEvals e) (reachableSeen e) (stepReachableEvals e) (loadedArmStats e)
    (pendingArmStats e) (marginalWindow e) (marginalWindowSize e) (marginalPos e)
    (deterministicCoverage e).

Definition set_violations (v : list Violation) (e : Explorer) : Explorer :=
  mkExplorer (tree e) (cfg e) (rng e) (coverage e) (frontier e) (scorer e) v (assertions e)
    (assertionEvals e) (propertyCounts e) (states e) (sometimesSatisfied e)
    (stepSometimesEvals e) (pathFrequency e) (mcts e) (saturation e) (sometimesAllTracker e)
    (stepSometimesAllEvals e) (reachableSeen e) (stepReachableEvals e) (loadedArmStats e)
    (pendingArmStats e) (marginalWindow e) (marginalWindowSize e) (marginalPos e)
    (deterministicCoverage e).

Definition set_assertions (v : AssertionCounts) (e : Explorer) : Explorer :=
  mkExplorer (tree e) (cfg e) (rng e) (coverage e) (frontier e) (scorer e) (violations e) v
    (assertionEvals e) (propertyCounts e) (states e) (sometimesSatisfied e)
    (stepSometimesEvals e) (pathFrequency e) (mcts e) (saturation e) (sometimesAllTracker e)
    (stepSometimesAllEvals e) (reachableSeen e) (stepReachableEvals e) (loadedArmStats e)
    (pendingArmStats e) (marginalWindow e) (marginalWindowSize e) (marginalPos e)
    (deterministicCoverage e).

Definition set_assertionEvals (v : list AssertionEval) (e : Explorer) : Explorer :=
  mkExplorer (tree e) (cfg e) (rng e) (coverage e) (frontier e) (scorer e) (violations e)
    (assertions e) v (propertyCounts e) (states e) (sometimesSatisfied e)
    (stepSometimesEvals e) (pathFrequency e) (mcts e) (saturation e) (sometimesAllTracker e)
    (stepSometimesAllEvals e) (reachableSeen e) (stepReachableEvals e) (loadedArmStats e)
    (pendingArmStats e) (marginalWindow e) (marginalWindowSize e) (marginalPos e)
    (deterministicCoverage e).

Definition set_propertyCounts (v : gmap string PropertyCount) (e : Explorer) : Explorer :=
  mkExplorer (tree e) (cfg e) (rng e) (coverage e) (frontier e) (scorer e) (violations e)
    (assertions e) (assertionEvals e) v (states e) (sometimesSatisfied e)
    (stepSometimesEvals e) (pathFrequency e) (mcts e) (saturation e) (sometimesAllTracker e)
    (stepSometimesAllEvals e) (reachableSeen e) (stepReachableEvals e) (loadedArmStats e)
    (pendingArmStats e) (marginalWindow e) (marginalWindowSize e) (marginalPos e)
    (deterministicCoverage e).

Definition set_states (v : Z) (e : Explorer) : Explorer :=
  mkExplorer (tree e) (cfg e) (rng e) (coverage e) (frontier e) (scorer e) (violations e)
    (assertions e) (assertionEvals e) (propertyCounts e) v (sometimesSatisfied e)
    (stepSometimesEvals e) (pathFrequency e) (mcts e) (saturation e) (sometimesAllTracker e)
    (stepSometimesAllEvals e) (reachableSeen e) (stepReachableEvals e) (loadedArmStats e)
    (pendingArmStats e) (marginalWindow e) (marginalWindowSize e) (marginalPos e)
    (deterministicCoverage e).

Definition set_sometimesSatisfied (v : gset string) (e : Explorer) : Explorer :=
  mkExplorer (tree e) (cfg e) (rng e) (coverage e) (frontier e) (scorer e) (violations e)
    (assertions e) (assertionEvals e) (propertyCounts e) (states e) v (stepSometimesEvals e)
    (pathFrequency e) (mcts e) (saturation e) (sometimesAllTracker e) (stepSometimesAllEvals
    e) (reachableSeen e) (stepReachableEvals e) (loadedArmStats e) (pendingArmStats e)
    (marginalWindow e) (marginalWindowSize e) (marginalPos e) (deterministicCoverage e).

Definition set_stepSometimesEvals (v : gmap string bool) (e : Explorer) : Explorer :=
  mkExplorer (tree e) (cfg e) (rng e) (coverage e) (frontier e) (scorer e) (violations e)
    (assertions e) (assertionEvals e) (propertyCounts e) (states e) (sometimesSatisfied e) v
    (pathFrequency e) (mcts e) (saturation e) (sometimesAllTracker e) (stepSometimesAllEvals
    e) (reachableSeen e) (stepReachableEvals e) (loadedArmStats e) (pendingArmStats e)
    (marginalWindow e) (marginalWindowSize e) (marginalPos e) (deterministicCoverage e).

Definition set_pathFrequency (v : gmap Z Z) (e : Explorer) : Explorer :=
  mkExplorer (tree e) (cfg e) (rng e) (coverage e) (frontier e) (scorer e) (violations e)
    (assertions e) (assertionEvals e) (propertyCounts e) (states e) (sometimesSatisfied e)
    (stepSometimesEvals e) v (mcts e) (saturation e) (sometimesAllTracker e)
    (stepSometimesAllEvals e) (reachableSeen e) (stepReachableEvals e) (loadedArmStats e)
    (pendingArmStats e) (marginalWindow e) (marginalWindowSize e) (marginalPos e)
    (deterministicCoverage e).

Definition set_mcts (v : option MCTSSelector) (e : Explorer) : Explorer :=
  mkExplorer (tree e) (cfg e) (rng e) (coverage e) (frontier e) (scorer e) (violations e)
    (assertions e) (assertionEvals e) (propertyCounts e) (states e) (sometimesSatisfied e)
    (stepSometimesEvals e) (pathFrequency e) v (saturation e) (sometimesAllTracker e)
    (stepSometimesAllEvals e) (reachableSeen e) (stepReachableEvals e) (loadedArmStats e)
    (pendingArmStats e) (marginalWindow e) (marginalWindowSize e) (marginalPos e)
    (deterministicCoverage e).

Definition set_saturation (v : SaturationTracker) (e : Explorer) : Explorer :=
  mkExplorer (tree e) (cfg e) (rng e) (coverage e) (frontier e) (scorer e) (violations e)
    (assertions e) (assertionEvals e) (propertyCounts e) (states e) (sometimesSatisfied e)
    (stepSometimesEvals e) (pathFrequency e) (mcts e) v (sometimesAllTracker e)
    (stepSometimesAllEvals e) (reachableSeen e) (stepReachableEvals e) (loadedArmStats e)
    (pendingArmStats e) (marginalWindow e) (marginalWindowSize e) (marginalPos e)
    (deterministicCoverage e).

Definition set_sometimesAllTracker (v : gmap string SometimesAllState) (e : Explorer) : Explorer :=
  mkExplorer (tree e) (cfg e) (rng e) (coverage e) (frontier e) (scorer e) (violations e)
    (assertions e) (assertionEvals e) (propertyCounts e) (states e) (sometimesSatisfied e)
    (stepSometimesEvals e) (pathFrequency e) (mcts e) (saturation e) v
    (stepSometimesAllEvals e) (reachableSeen e) (stepReachableEvals e) (loadedArmStats e)
    (pendingArmStats e) (marginalWindow e) (marginalWindowSize e) (marginalPos e)
    (deterministicCoverage e).

Definition set_stepSometimesAllEvals (v : list SometimesAllEval) (e : Explorer) : Explorer :=
  mkExplorer (tree e) (cfg e) (rng e) (coverage e) (frontier e) (scorer e) (violations e)
    (assertions e) (assertionEvals e) (propertyCounts e) (states e) (sometimesSatisfied e)
    (stepSometimesEvals e) (pathFrequency e) (mcts e) (saturation e) (sometimesAllTracker e)
    v (reachableSeen e) (stepReachableEvals e) (loadedArmStats e) (pendingArmStats e)
    (marginalWindow e) (marginalWindowSize e) (marginalPos e) (deterministicCoverage e).

Definition set_reachableSeen (v : gset string) (e : Explorer) : Explorer :=
  mkExplorer (tree e) (cfg e) (rng e) (coverage e) (frontier e) (scorer e) (violations e)
    (assertions e) (assertionEvals e) (propertyCounts e) (states e) (sometimesSatisfied e)
    (stepSometimesEvals e) (pathFrequency e) (mcts e) (saturation e) (sometimesAllTracker e)
    (stepSometimesAllEvals e) v (stepReachableEvals e) (loadedArmStats e) (pendingArmStats
    e) (marginalWindow e) (marginalWindowSize e) (marginalPos e) (deterministicCoverage e).

Definition set_stepReachableEvals (v : gmap string bool) (e : Explorer) : Explorer :=
  mkExplorer (tree e) (cfg e) (rng e) (coverage e) (frontier e) (scorer e) (violations e)
    (assertions e) (assertionEvals e) (propertyCounts e) (states e) (sometimesSatisfied e)
    (stepSometimesEvals e) (pathFrequency e) (mcts e) (saturation e) (sometimesAllTracker e)
    (stepSometimesAllEvals e) (reachableSeen e) v (loadedArmStats e) (pendingArmStats e)
    (marginalWindow e) (marginalWindowSize e) (marginalPos e) (deterministicCoverage e).

Definition set_pendingArmStats (v : list FaultArmRecord) (e : Explorer) : Explorer :=
  mkExplorer (tree e) (cfg e) (rng e) (coverage e) (frontier e) (scorer e) (violations e)
    (assertions e) (assertionEvals e) (propertyCounts e) (states e) (sometimesSatisfied e)
    (stepSometimesEvals e) (pathFrequency e) (mcts e) (saturation e) (sometimesAllTracker e)
    (stepSometimesAllEvals e) (reachableSeen e) (stepReachableEvals e) (loadedArmStats e) v
    (marginalWindow e) (marginalWindowSize e) (marginalPos e) (deterministicCoverage e).

Definition set_deterministicCoverage (v : bool) (e : Explorer) : Explorer :=
  mkExplorer (tree e) (cfg e) (rng e) (coverage e) (frontier e) (scorer e) (violations e)
    (assertions e) (assertionEvals e) (propertyCounts e) (states e) (sometimesSatisfied e)
    (stepSometimesEvals e) (pathFrequency e) (mcts e) (saturation e) (sometimesAllTracker e)
    (stepSometimesAllEvals e) (reachableSeen e) (stepReachableEvals e) (loadedArmStats e)
    (pendingArmStats e) (marginalWindow e) (marginalWindowSize e) (marginalPos e) v.

Definition set_marginal (w : list Z) (p : Z) (e : Explorer) : Explorer :=
  mkExplorer (tree e) (cfg e) (rng e) (coverage e) (frontier e) (scorer e) (violations e)
    (assertions e) (assertionEvals e) (propertyCounts e) (states e) (sometimesSatisfied e)
    (stepSometimesEvals e) (pathFrequency e) (mcts e) (saturation e) (sometimesAllTracker e)
    (stepSometimesAllEvals e) (reachableSeen e) (stepReachableEvals e) (loadedArmStats e)
    (pendingArmStats e) w (marginalWindowSize e) p (deterministicCoverage e).

(** [New], with the corpus that [LoadCorpus] returned: [None] when no path is
    configured, the file is missing or cannot be read. *)
Definition New (tree : Tree) (cfg0 : Config) (corpus : option Corpus) : Explorer :=
  let cfg := if BranchFactor cfg0 <=? 0
    then mkConfig (MaxDepth cfg0) (MaxStates cfg0) (MaxDuration cfg0) (cfgStrategy cfg0) (Seed cfg0)
           1 (CoverageMapSize cfg0) (CorpusPath cfg0)
    else cfg0 in
  let cov := NewCoverageTracker (Some (CoverageMapSize cfg)) in
  let mcts := match cfgStrategy cfg with
              | StrategyMCTS => Some (NewMCTSSelector (Root tree) fzero)
              | _ => None
              end in
  let loaded := match corpus with Some c => if bool_decide (CorpusPath cfg = ""%string) then None else Some c | None => None end in
  mkExplorer tree cfg (Prng.New (Seed cfg)) (Import cov loaded) NewFrontier (NewScorer (cfgStrategy cfg))
    [] (mkCounts 0 0 0 0 0 0 0) [] ∅ 0
    (match loaded with Some c => list_to_set (Coverage.SometimesSatisfied c) | None => ∅ end) ∅
    ∅ mcts (NewSaturationTracker 200) ∅ [] ∅ ∅
    (match loaded with Some c => FaultArms c | None => [] end) []
    (replicate 50 0) 50 0 false.

Definition LoadedArmStats (e : Explorer) : list FaultArmRecord := loadedArmStats e.

Definition SetPendingArmStats (e : Explorer) (records : list FaultArmRecord) : Explorer :=
  set_pendingArmStats records e.

(** The corpus that [SaveCorpus] writes; [None] when no path is configured. *)
Definition SaveCorpus (e : Explorer) : option Corpus :=
  if bool_decide (CorpusPath (cfg e) = ""%string) then None
  else
    let c := Export (coverage e) in
    Some (mkCorpus (Version c) (Bitmap c) (cTotalEdges c) (MaxMap c) (SeenAsserts c)
            (elements (sometimesSatisfied e)) (CorpusEdges c) (pendingArmStats e)).

Definition ReportViolation (e : Explorer) (v : Violation) : Explorer :=
  let v :=
    if vSnapshotID v =? 0 then v
    else
      mkViolation (vProperty v) (vMessage v) (vSnapshotID v) (vHypervisorID v) (vSeed v) (vStep v)
        (vBurstInsns v) (vDetails v)
        (default [] (PathToRoot (tree e) (vSnapshotID v)))
        (match Get (tree e) (vSnapshotID v) with
         | Ok snap => s_FaultKindMask snap
         | Err _ => vFaultKindMask v
         end)
        (vConcurrentCmds v) in
  set_violations (violations e ++ [v]) e.

Definition ViolationCount (e : Explorer) : Z := Z.of_nat (length (violations e)).

(** [assertType + "\x00" + message]. *)
Definition count_key (assertType message : string) : string :=
  assertType +:+ String (Ascii.ascii_of_nat 0) message.

Definition bump (c : PropertyCount) (condition : bool) : PropertyCount :=
  mkPropertyCount (pcAssertType c) (pcMessage c) (Total c + 1)
    (if condition then Passed c + 1 else Passed c) (if condition then Failed c else Failed c + 1).

(** [m[k]] of a [map[string]bool]. *)
Definition flag (m : gmap string bool) (k : string) : bool := default false (m !! k).

(** The common body of the two "sometimes" cases. *)
Definition record_sometimes (eval : AssertionEval) (e : Explorer) : Explorer :=
  let msg := Message eval in
  if Condition eval then
    set_stepSometimesEvals (<[msg := true]> (stepSometimesEvals e))
      (set_sometimesSatisfied ({[msg]} ∪ sometimesSatisfied e) e)
  else if negb (flag (stepSometimesEvals e) msg) then
    set_stepSometimesEvals (<[msg := false]> (stepSometimesEvals e)) e
  else e.

Definition record_reachable (eval : AssertionEval) (e : Explorer) : Explorer :=
  let msg := Message eval in
  let seen := bool_decide (msg ∈ reachableSeen e) in
  if Condition eval && negb seen then
    set_stepReachableEvals (<[msg := true]> (stepReachableEvals e))
      (set_reachableSeen ({[msg]} ∪ reachableSeen e) e)
  else if negb (Condition eval) && negb seen then
    match stepReachableEvals e !! msg with
    | Some _ => e
    | None => set_stepReachableEvals (<[msg := false]> (stepReachableEvals e)) e
    end
  else e.

Definition RecordAssertionEval (e : Explorer) (eval : AssertionEval) : Explorer :=
  let key := count_key (AssertType eval) (Message eval) in
  let pc := default (mkPropertyCount (AssertType eval) (Message eval) 0 0 0) (propertyCounts e !! key) in
  let pc := bump pc (Condition eval) in
  let e := set_propertyCounts (<[key := pc]> (propertyCounts e)) e in
  let e := if bool_decide (AssertType eval = "sometimes"%string) then record_sometimes eval e else e in
  let e := if bool_decide (AssertType eval = "sometimes_all"%string) then record_sometimes eval e else e in
  let e := if bool_decide (AssertType eval = "reachable"%string) then record_reachable eval e else e in
  if Condition eval && (5 <? Total pc) && negb (states e mod 10 =? 0) then e
  else set_assertionEvals (assertionEvals e ++ [eval]) e.

Definition RecordAssertion (e : Explorer) (assertType : string) (condition : bool) : Explorer :=
  let a := assertions e in
  let one := if condition then 1 else 0 in
  let ty t := bool_decide (assertType = t%string) in
  set_assertions
    (if ty "always"%string || ty "always_or_unreachable"%string then
       mkCounts (AlwaysTotal a + 1) (AlwaysPassed a + one) (AlwaysFailed a + (1 - one))
         (SometimesTotal a) (SometimesPassed a) (ReachableTotal a) (ReachablePassed a)
     else if ty "unreachable"%string then
       mkCounts (AlwaysTotal a + 1) (AlwaysPassed a) (AlwaysFailed a + 1)
         (SometimesTotal a) (SometimesPassed a) (ReachableTotal a) (ReachablePassed a)
     else if ty "sometimes"%string || ty "sometimes_all"%string then
       mkCounts (AlwaysTotal a) (AlwaysPassed a) (AlwaysFailed a)
         (SometimesTotal a + 1) (SometimesPassed a + one) (ReachableTotal a) (ReachablePassed a)
     else if ty "reachable"%string then
       mkCounts (AlwaysTotal a) (AlwaysPassed a) (AlwaysFailed a)
         (SometimesTotal a) (SometimesPassed a) (ReachableTotal a + 1) (ReachablePassed a + one)
     else a) e.

Definition IncrementStates (e : Explorer) : Explorer := set_states (add64 (states e) 1) e.

Definition States (e : Explorer) : Z := states e.

Definition RecordSometimesAllEval (e : Explorer) (eval : SometimesAllEval) : Explorer :=
  set_stepSometimesAllEvals (stepSometimesAllEvals e ++ [eval]) e.

Definition UpdateSaturation (e : Explorer) : Explorer :=
  set_saturation
    (foldl UpdateChao1 (saturation e) (sorted_keys (dom (subtrees (saturation e))))) e.

(** [SetDeterministicCoverage]. *)
Definition SetDeterministicCoverage (e : Explorer) (v : bool) : Explorer := set_deterministicCoverage v e.

(** The three assignments that start a new step. *)
Definition clear_step (e : Explorer) : Explorer :=
  set_stepReachableEvals ∅ (set_stepSometimesAllEvals [] (set_stepSometimesEvals ∅ e)).

Definition ClearStepAssertionEvals (e : Explorer) : Explorer :=
  let e := clear_step e in set_coverage (ClearStepAssertionNovelty (coverage e)) e.

Definition RecordBurst (e : Explorer) (newEdges : Z) : Explorer :=
  set_marginal (ring_write (marginalWindowSize e) (marginalPos e) newEdges (marginalWindow e))
    (marginalPos e + 1) e.

Definition MarginalRate (e : Explorer) : float64 :=
  if marginalPos e =? 0 then fone
  else
    let n := if marginalPos e <? marginalWindowSize e then marginalPos e else marginalWindowSize e in
    let total := foldl Z.add 0 (take (Z.to_nat n) (marginalWindow e)) in
    fdiv (float_of_Z total) (float_of_Z n).

Definition clampF64 (v lo hi : float64) : float64 :=
  if flt v lo then lo else if fgt v hi then hi else v.

(** [computeEnergy]: the frequency of the path comes from the explorer, the
    rest from the entry. *)
Definition computeEnergy (e : Explorer) (entry : FrontierEntry) : Z :=
  let freq := default 0 (pathFrequency e !! PathHash entry) in
  let freq := if freq =? 0 then 1 else freq in
  let base := BranchFactor (cfg e) in
  let energy := fdiv (float_of_Z base) (float_of_Z freq) in
  let energy := if fgt (SometimesBoost entry) fzero || fgt (ReachableBoost entry) fzero
                then fmul energy (float_of_Z 2) else energy in
  let maxEnergy := base * 4 in
  if flt energy fone then 1
  else if maxEnergy <? trunc energy then maxEnergy
  else trunc energy.

(** ** Scoring a snapshot *)

(** One entry of [stepSometimesEvals]: the boost and the satisfied set. *)
Definition sometimes_boost (acc : float64 * gset string) (ev : string * bool) : float64 * gset string :=
  let '(boost, sat) := acc in
  let '(msg, condition) := ev in
  if condition && negb (bool_decide (msg ∈ sat)) then
    (fadd boost (float_of_Z 5000), {[msg]} ∪ sat)
  else if negb condition && negb (bool_decide (msg ∈ sat)) then
    (fadd boost (float_of_Z 2000), sat)
  else (boost, sat).

(** One evaluation of [stepSometimesAllEvals]. *)
Definition sub_goal_boost (acc : float64 * gmap string SometimesAllState * CoverageTracker)
    (eval : SometimesAllEval) : float64 * gmap string SometimesAllState * CoverageTracker :=
  let '(boost, tracker, cov) := acc in
  let '(b, tracker) := Novelty.RecordSometimesAllEval tracker eval in
  (fadd boost b, tracker,
   (RecordAssertionNovelty cov (SometimesAllCoverageKey (EvalName eval) (SubGoals eval))).1).

Definition reachable_boost (seen : gset string) (boost : float64) (ev : string * bool) : float64 :=
  let '(msg, firstReach) := ev in
  if (firstReach : bool) then fadd boost (float_of_Z 4000)
  else if bool_decide (msg ∈ seen) then boost
  else fadd boost (float_of_Z 1500).

(** [globalSat]. *)
Definition global_saturation (e : Explorer) : float64 :=
  fsub fone (clampF64 (fdiv (fsub (MarginalRate e) (flit 1 10)) (flit 19 10)) fzero fone).

(** [SubtreeRoot(e.tree, id)].  The walk ends on every tree the explorer
    builds, so the default is never taken there. *)
Definition subtree_root (e : Explorer) (id : Z) : Z :=
  SubtreeRoot (λ i, default [] (Ancestors (tree e) i)) id.

(** The entry before its saturation, score and energy are filled in. *)
Definition new_entry (e : Explorer) (id : Z) (snap : Snapshot) (novelty rarity sometimes reachable : float64)
    (newEdges pathHash : Z) : FrontierEntry :=
  mkEntry id fzero (s_Depth snap) newEdges novelty rarity sometimes 0 (states e) pathHash
    (s_FaultKindMask snap) reachable fzero (Coverage.NewEdges (coverage e)) "" (global_saturation e) fzero 0.

Definition with_saturation (sat : float64) (en : FrontierEntry) : FrontierEntry :=
  mkEntry (Frontier.SnapshotID en) (Score en) (Frontier.Depth en) (Frontier.NewEdges en) (NoveltyScore en) (RarityScore en)
    (SometimesBoost en) (Energy en) (CreatedAtStep en) (PathHash en) (FaultKindMask en) (ReachableBoost en)
    sat (RecentNewEdges en) (ActiveFaultKind en) (GlobalSaturation en) (FaultActiveEvalScore en) (index en).

Definition with_score_energy (score : float64) (energy : Z) (en : FrontierEntry) : FrontierEntry :=
  mkEntry (Frontier.SnapshotID en) score (Frontier.Depth en) (Frontier.NewEdges en) (NoveltyScore en) (RarityScore en)
    (SometimesBoost en) energy (CreatedAtStep en) (PathHash en) (FaultKindMask en) (ReachableBoost en)
    (SaturationScore en) (RecentNewEdges en) (ActiveFaultKind en) (GlobalSaturation en)
    (FaultActiveEvalScore en) (index en).

(** What [PushFrontier] has collected before it builds the entry: the explorer
    with the assertion maps updated, and the boosts. *)
Definition collect_signals (e : Explorer) : Explorer * float64 * float64 * float64 * float64 :=
  let '(newMax, newExplore, newAsserts) := StepNovelty (coverage e) in
  let noveltyScore := fadd (fadd (fmul (float_of_Z newAsserts) (float_of_Z 3000))
                                 (fmul (float_of_Z newMax) (float_of_Z 1000)))
                           (fmul (float_of_Z newExplore) (float_of_Z 300)) in
  let rarityScore := StepEdgeRarity (coverage e) in
  let '(boost, sat) := foldl sometimes_boost (fzero, sometimesSatisfied e) (map_to_list (stepSometimesEvals e)) in
  let '(boost, tracker, cov) :=
    foldl sub_goal_boost (boost, sometimesAllTracker e, coverage e) (stepSometimesAllEvals e) in
  let reachable := foldl (reachable_boost (reachableSeen e)) fzero (map_to_list (stepReachableEvals e)) in
  (set_coverage cov (set_sometimesAllTracker tracker (set_sometimesSatisfied sat e)),
   noveltyScore, rarityScore, boost, reachable).

Definition PushFrontier (e : Explorer) (id : Z) : Explorer :=
  match Get (tree e) id with
  | Err _ => e
  | Ok snap =>
      let '(e, noveltyScore, rarityScore, sometimesBoost, reachableBoost) := collect_signals e in
      let pathHash := Coverage.Hash (coverage e) in
      let e := set_pathFrequency
                 (<[pathHash := add64 (default 0 (pathFrequency e !! pathHash)) 1]> (pathFrequency e)) e in
      let det := deterministicCoverage e in
      let entry := new_entry e id snap (if det then fzero else noveltyScore) rarityScore
                     (if det then fzero else sometimesBoost) (if det then fzero else reachableBoost)
                     (if det then 0 else Coverage.NewEdges (coverage e)) pathHash in
      let subtreeRoot := subtree_root e id in
      let satScore := if det then fone else Saturation.SaturationScore (saturation e) subtreeRoot in
      let entry := with_saturation satScore entry in
      let rawScore := ScoreEntry (scorer e) entry in
      let assertionBase := fadd (SometimesBoost entry) (ReachableBoost entry) in
      let coverageScore := fsub rawScore assertionBase in
      let score := fadd assertionBase (fmul coverageScore satScore) in
      let entry := with_score_energy score (if det then 1 else computeEnergy e (with_score_energy score 0 entry)) entry in
      let e := match mcts e with
               | Some m => set_mcts (Some (RegisterNode m id (s_ParentID snap) (s_Depth snap))) e
               | None => e
               end in
      let e := set_frontier (Push (frontier e) entry) e in
      let e := set_saturation (RecordDiscovery (saturation e) subtreeRoot (Coverage.NewEdges (coverage e))) e in
      let e := set_coverage (ResetStepNovelty (coverage e)) e in
      clear_step e
  end.

(** One round of [popFrontierHeap]'s loop, [n] rounds left. *)
Fixpoint pop_loop (n : nat) (currentStep : Z) (f : Frontier) : option FrontierEntry * Frontier :=
  match n with
  | O => match Pop f with Some (en, f) => (Some en, f) | None => (None, f) end
  | S n =>
      match Pop f with
      | None => (None, f)
      | Some (en, f) =>
          let age := sub64 currentStep (CreatedAtStep en) in
          if (50 <? age) && (0 <? Frontier.Len f)
          then pop_loop n currentStep (Push f (set_score (fmul (Score en) (flit 9 10)) en))
          else (Some en, f)
      end
  end.

Definition popFrontierHeap (e : Explorer) : option FrontierEntry * Explorer :=
  let '(en, f) := pop_loop 3 (States e) (frontier e) in (en, set_frontier f e).

(** An entry with the fields that the selection by tree search fills in. *)
Definition selected_entry (e : Explorer) (id : Z) (snap : Snapshot) : FrontierEntry :=
  let blank := mkEntry 0 fzero 0 0 fzero fzero fzero 0 0 (s_Coverage snap) 0 fzero fzero 0 "" fzero fzero 0 in
  mkEntry id fzero (s_Depth snap) (Coverage.NewEdges (coverage e)) fzero fzero fzero
    (computeEnergy e blank) (States e) 0 0 fzero fzero 0 "" fzero fzero 0.

Section run.
Context (log : float64 → float64).

(** [None] when the selection does not end. *)
Definition PopFrontier (e : Explorer) : option (option FrontierEntry * Explorer) :=
  match mcts e with
  | Some m =>
      match Select log m (rng e) with
      | None => None
      | Some (selectedID, rng') =>
          let e := set_rng rng' e in
          match Get (tree e) selectedID with
          | Err _ => Some (popFrontierHeap e)
          | Ok snap => Some (Some (selected_entry e selectedID snap), e)
          end
      end
  | None => Some (popFrontierHeap e)
  end.

Definition BackpropagateMCTS (e : Explorer) (id : Z) (reward : float64) : option Explorer :=
  match mcts e with
  | None => Some e
  | Some m => (λ m, set_mcts (Some m) e) <$> Backpropagate m id reward
  end.

(** ** The exploration loop *)

Context {W E : Type} `{World W E}.

(** Errors of [runForward]: of the tree, or of the hypervisor. *)
Inductive RunError := TreeError (err : Error) | SnapshotError (err : E) | CreateError (err : Error).

Definition runForward (e : Explorer) (w : W) (parentID : Z) : result RunError Z * Explorer * W :=
  let e := set_states (add64 (states e) 1) e in
  match Get (tree e) parentID with
  | Err err => (Err (TreeError err), e, w)
  | Ok parent =>
      if MaxDepth (cfg e) <=? s_Depth parent then (Ok parentID, e, w)
      else
        match hyp_Snapshot w with
        | (Err err, w) => (Err (SnapshotError err), e, w)
        | (Ok hypSnapID, w) =>
            let covHash := Coverage.Hash (coverage e) in
            let rngState := State (rng e) in
            match Create (tree e) parentID hypSnapID 0 covHash rngState 0 0 with
            | (Err err, _) => (Err (CreateError err), e, w)
            | (Ok childID, t) => (Ok childID, set_tree t e, w)
            end
        end
  end.

(** The state limit is set and reached. *)
Definition out_of_states (e : Explorer) : bool :=
  (0 <? MaxStates (cfg e)) && (MaxStates (cfg e) <=? states e).

(** [for range energy]. *)
Fixpoint branches (energy : nat) (entryID : Z) (e : Explorer) (w : W) : Explorer * W :=
  match energy with
  | O => (e, w)
  | S energy =>
      let '(cancelled, w) := ctx_Err w in
      if (cancelled : bool) then (e, w)
      else if out_of_states e then (e, w)
      else
        match hyp_Restore w entryID with
        | (Err _, w) => branches energy entryID e w
        | (Ok _, w) =>
            let '(seed, rng') := Uint64 (rng e) in
            let e := set_rng rng' e in
            match hyp_SetSeed w seed with
            | (Err _, w) => branches energy entryID e w
            | (Ok _, w) =>
                match runForward e w entryID with
                | (Err _, e, w) => branches energy entryID e w
                | (Ok childID, e, w) =>
                    branches energy entryID (if childID =? entryID then e else PushFrontier e childID) w
                end
            end
        end
  end.

(** One iteration of the loop of [Run]: whether to go on, and the state. *)
Definition run_step (start : Z) (e : Explorer) (w : W) : option (bool * Explorer * W) :=
  let '(cancelled, w) := ctx_Err w in
  if (cancelled : bool) then Some (false, e, w)
  else
    let '(now, w) := if 0 <? MaxDuration (cfg e) then time_Now w else (0, w) in
    if (0 <? MaxDuration (cfg e)) && (start + MaxDuration (cfg e) <? now) then Some (false, e, w)
    else if out_of_states e then Some (false, e, w)
    else if (Frontier.Len (frontier e) =? 0) && (match mcts e with None => true | Some _ => false end)
    then Some (false, e, w)
    else
      match PopFrontier e with
      | None => None
      | Some (None, e) => Some (false, e, w)
      | Some (Some entry, e) =>
          let energy := if Energy entry <=? 0 then BranchFactor (cfg e) else Energy entry in
          let '(e, w) := branches (Z.to_nat energy) (Frontier.SnapshotID entry) e w in
          Some (true, e, w)
      end.

Fixpoint run_loop (fuel : nat) (start : Z) (e : Explorer) (w : W) : option (Explorer * W) :=
  match fuel with
  | O => None
  | S fuel =>
      match run_step start e w with
      | None => None
      | Some (false, e, w) => Some (e, w)
      | Some (true, e, w) => run_loop fuel start e w
      end
  end.

(** [None] when the fuel does not suffice. *)
Definition Run (fuel : nat) (e : Explorer) (w : W) : option (result RunError Result * Explorer * W) :=
  let '(start, w) := time_Now w in
  match runForward e w (Root (tree e)) with
  | (Err err, e, w) => Some (Err err, e, w)
  | (Ok snapID, e, w) =>
      let e := if snapID =? Root (tree e) then e else PushFrontier e snapID in
      match run_loop fuel start e w with
      | None => None
      | Some (e, w) =>
          let '(now, w) := time_Now w in
          Some (Ok (mkResult (violations e) (mkCounts 0 0 0 0 0 0 0) [] [] (States e)
                      (Coverage.TotalEdges (coverage e)) (Coverage.NewEdges (coverage e)) (now - start) None),
                e, w)
      end
  end.

(** The copy that [BuildResult] makes of a sub-goal state. *)
Definition copy_sub_goals (st : SometimesAllState) : SometimesAllState :=
  mkSAState "" (BestSubGoals st) (BestCount st) (TotalSubGoals st) false.

(** [elapsed] is [time.Since(start)]. *)
Definition BuildResult (e : Explorer) (elapsed : Z) : Result :=
  mkResult (violations e) (assertions e) (assertionEvals e)
    (omap (λ k, propertyCounts e !! k) (sort_by String.ltb (elements (dom (propertyCounts e)))))
    (states e) (Coverage.TotalEdges (coverage e)) (Coverage.NewEdges (coverage e)) elapsed
    (if (0 <? size (sometimesAllTracker e))%nat then Some (copy_sub_goals <$> sometimesAllTracker e) else None).

End run.
