(* ===== verification/ExplorerProps.v ===== *)
(** * The explorer: properties

    The exploration loop keeps the snapshot tree valid and bounded and ends;
    assertion counts are exact; and what some of the scoring code does to the
    exploration order. *)
From S2P Require Import Prelude Word Float Prng Ring.
From S2P Require Import SnapshotTree SnapshotTreeInv.
From S2P Require Import Mcts Saturation Heap Frontier InputTree Novelty Coverage Explorer.
Local Open Scope Z_scope.

(** ** Frames: what the operations leave alone *)

(** The components that scoring does not touch. *)
Definition same_run (e e' : Explorer) : Prop :=
  tree e' = tree e ∧ cfg e' = cfg e ∧ rng e' = rng e ∧ states e' = states e ∧
  (mcts e = None → mcts e' = None).

Lemma collect_signals_same e :
  let e' := (collect_signals e).1.1.1.1 in
  same_run e e' ∧ frontier e' = frontier e ∧ mcts e' = mcts e ∧ saturation e' = saturation e ∧
  pathFrequency e' = pathFrequency e ∧ deterministicCoverage e' = deterministicCoverage e ∧ scorer e' = scorer e.
Proof.
  unfold collect_signals, same_run. destruct (StepNovelty (coverage e)) as [[a b] c].
  destruct (foldl sometimes_boost _ _) as [bo sat]. destruct (foldl sub_goal_boost _ _) as [[bo' tr] cov].
  simpl. by split_and!.
Qed.

Lemma PushFrontier_spec e id :
  match Get (tree e) id with
  | Err _ => PushFrontier e id = e
  | Ok snap => ∃ entry, frontier (PushFrontier e id) = Push (frontier e) entry ∧
      Frontier.SnapshotID entry = id ∧ CreatedAtStep entry = states e ∧ same_run e (PushFrontier e id)
  end.
Proof.
  unfold PushFrontier. destruct (Get (tree e) id) as [snap|] eqn:Hg; [|done].
  pose proof (collect_signals_same e) as Hc.
  destruct (collect_signals e) as [[[[e1 nov] rar] som] rea]. cbn [fst] in Hc.
  destruct Hc as ((Ht & Hcf & Hr & Hs & _) & Hf & Hm & Hsat & Hpf & Hd & Hsc).
  cbv zeta. unfold same_run. destruct (mcts _) as [m|] eqn:Hme;
    cbn [tree cfg rng states mcts frontier clear_step set_stepReachableEvals
      set_stepSometimesAllEvals set_stepSometimesEvals set_coverage set_saturation set_frontier set_mcts set_pathFrequency];
    cbn [mcts set_pathFrequency] in Hme; rewrite Hf; eexists; (split; [reflexivity|]);
    split_and!; try done; congruence.
Qed.

(** ** The exploration loop *)

(** What the loop maintains: a well-formed tree no deeper than [MaxDepth], with
    one identifier per state at most, and frontier entries that are nodes of
    the tree. *)
Record run_ok (e : Explorer) : Prop := mkRunOk {
  ro_wf : wf (tree e);
  ro_next : nextID (tree e) ≤ 1 + states e;
  ro_depth id s : snapshots (tree e) !! id = Some s → s_Depth s ≤ MaxDepth (cfg e);
  ro_frontier id : id ∈ IDs (frontier e) → is_Some (snapshots (tree e) !! id);
  ro_mcts : mcts e = None }.

Lemma same_run_ok e e' :
  run_ok e → same_run e e' → (∀ id, id ∈ IDs (frontier e') → is_Some (snapshots (tree e) !! id)) → run_ok e'.
Proof.
  intros [H1 H2 H3 H4 H5] (Ht & Hc & _ & Hs & Hm) Hf.
  split; rewrite ?Ht, ?Hc, ?Hs; auto.
Qed.

Lemma Push_IDs f en id : id ∈ IDs (Push f en) ↔ id = Frontier.SnapshotID en ∨ id ∈ IDs f.
Proof.
  by rewrite Push_IDs_perm, elem_of_cons.
Qed.

Lemma PushFrontier_run_ok e id :
  run_ok e → is_Some (snapshots (tree e) !! id) →
  run_ok (PushFrontier e id) ∧ same_run e (PushFrontier e id) ∧
  length (frontier (PushFrontier e id)) = S (length (frontier e)).
Proof.
  intros Hok [s Hs]. pose proof (PushFrontier_spec e id) as Hp. unfold Get in Hp. rewrite Hs in Hp.
  destruct Hp as (en & Hf & Hid & _ & Hsame). split_and!; [|done|].
  - apply (same_run_ok e); [done|done|]. intros x. rewrite Hf, Push_IDs, Hid.
    intros [->|Hx]; [by eexists|by apply (ro_frontier e Hok)].
  - by rewrite Hf, Push_length.
Qed.

Lemma pop_loop_spec n step f :
  match pop_loop n step f with
  | (None, f') => f = [] ∧ f' = []
  | (Some en, f') => IDs f ≡ₚ Frontier.SnapshotID en :: IDs f'
  end.
Proof.
  assert (∀ f en f', Pop f = Some (en, f') → IDs f ≡ₚ Frontier.SnapshotID en :: IDs f') as HP.
  { intros g en g' Hg. by apply contents_IDs_perm, Pop_contents. }
  revert f. induction n as [|n IH]; intros f; simpl; destruct (Pop f) as [[en f']|] eqn:Hp;
    [by apply HP|by apply Pop_None in Hp| |by apply Pop_None in Hp].
  destruct (_ && _); [|by apply HP].
  specialize (IH (Push f' (set_score (fmul (Score en) (flit 9 10)) en))).
  assert (IDs (Push f' (set_score (fmul (Score en) (flit 9 10)) en)) ≡ₚ IDs f) as Hperm.
  { by rewrite (HP _ _ _ Hp), Push_IDs_perm. }
  destruct (pop_loop n step _) as [[x|] g]; [by rewrite <- Hperm|].
  destruct IH as [IH _]. rewrite IH in Hperm. apply Permutation_nil_l in Hperm. by destruct f.
Qed.

Lemma IDs_length f : length (IDs f) = length f.
Proof. apply length_map. Qed.

Section loop.
Context (log : float64 → float64) {W E : Type} `{World W E}.

Lemma Create_registered t p h tm cov rng f mask c id :
  wf t → nextID t < 2 ^ 32 → (Create t p h tm cov rng f mask).1 = Ok c →
  is_Some (snapshots (Create t p h tm cov rng f mask).2 !! id) ↔ is_Some (snapshots t !! id) ∨ id = c.
Proof.
  intros [Hm Hc [Hn1 Hn2]] Hlt. unfold Create. destruct (snapshots t !! p) as [parent|] eqn:Hp; [|done].
  simpl. intros [= <-]. destruct (decide (id = nextID t)) as [->|Hne].
  - rewrite lookup_insert_eq. split; [by right|by eexists].
  - rewrite lookup_insert_ne by done. destruct (decide (id = p)) as [->|].
    + rewrite lookup_insert_eq, Hp. split; [intros _; left; by eexists|by eexists].
    + rewrite lookup_insert_ne by done. naive_solver.
Qed.

Lemma Create_depth t p h tm cov rng f mask c parent D :
  snapshots t !! p = Some parent → s_Depth parent < D → 0 ≤ s_Depth parent → D < 2 ^ 32 →
  (∀ id s, snapshots t !! id = Some s → s_Depth s ≤ D) →
  (Create t p h tm cov rng f mask).1 = Ok c →
  ∀ id s, snapshots (Create t p h tm cov rng f mask).2 !! id = Some s → s_Depth s ≤ D.
Proof.
  intros Hp Hd H0 HD Hall. unfold Create. rewrite Hp. simpl. intros _ id s.
  rewrite lookup_insert_Some. intros [[_ <-]|[_ Hi]]; simpl.
  - rewrite wrap_small by (unfold is_word; lia). lia.
  - rewrite lookup_insert_Some in Hi. destruct Hi as [[_ <-]|[_ Hi]]; [|by eapply Hall].
    simpl. by eapply Hall.
Qed.

Lemma runForward_spec e w p :
  run_ok e → is_Some (snapshots (tree e) !! p) → 0 ≤ states e < 2 ^ 32 - 2 → MaxDepth (cfg e) < 2 ^ 32 →
  let '(r, e', w') := runForward e w p in
  run_ok e' ∧ states e' = states e + 1 ∧ cfg e' = cfg e ∧ frontier e' = frontier e ∧
  (∀ id, is_Some (snapshots (tree e) !! id) → is_Some (snapshots (tree e') !! id)) ∧
  (∀ c, r = Ok c → is_Some (snapshots (tree e') !! c)).
Proof.
  intros [H1 H2 H3 H4 H5] [s Hs] Hst HD. unfold runForward.
  assert (add64 (states e) 1 = states e + 1) as -> by (unfold add64; apply wrap_small; unfold is_word; lia).
  assert (run_ok (set_states (states e + 1) e)) as Hok by (split; simpl; auto; lia).
  unfold Get. cbn [tree set_states]. rewrite Hs. cbn [cfg set_states].
  destruct (Z.leb_spec (MaxDepth (cfg e)) (s_Depth s)) as [Hle|Hgt].
  { split_and!; try done. intros c [= <-]. simpl. by eexists. }
  destruct (hyp_Snapshot w) as [[h|err] w']; [|by split_and!].
  cbn [coverage set_states Explorer.rng]. destruct (Create _ _ _ _ _ _ _ _) as [[c|err] t] eqn:HC; [|by split_and!].
  assert ((Create (tree e) p h 0 (Coverage.Hash (coverage e)) (State (rng e)) 0 0).1 = Ok c) as HC1 by (by rewrite HC).
  assert (t = (Create (tree e) p h 0 (Coverage.Hash (coverage e)) (State (rng e)) 0 0).2) as -> by (by rewrite HC).
  pose proof (λ id, Create_registered _ _ _ _ _ _ _ _ _ id H1 ltac:(lia) HC1) as Hreg.
  assert (0 ≤ s_Depth s) as H0.
  { destruct H1 as [Hm _ _]. by destruct (wm_node _ Hm _ _ Hs) as [_ [? _] _ _ _]. }
  split_and!; try done.
  - split; simpl.
    + apply wf_Create; [done|lia].
    + unfold Create. rewrite Hs. simpl. unfold add64.
      destruct H1 as [_ _ [Hn _]]. rewrite wrap_small by (unfold is_word; lia). lia.
    + intros id x. eapply Create_depth; [done..|lia| |done]. exact H3.
    + intros id Hid. apply Hreg. left. by apply H4.
    + done.
  - intros id Hid. simpl. apply Hreg. by left.
  - intros c' [= <-]. simpl. apply Hreg. by right.
Qed.

Lemma out_of_states_false e : 0 < MaxStates (cfg e) → out_of_states e = false → states e < MaxStates (cfg e).
Proof. unfold out_of_states. intros Hm. destruct (Z.ltb_spec 0 (MaxStates (cfg e))); [|lia]. destruct (Z.leb_spec (MaxStates (cfg e)) (states e)); [done|lia]. Qed.

(** Progress of a part of the loop: states grow, within the limit, and every
    entry added to the frontier is paid by a state. *)
Definition progress (e e' : Explorer) : Prop :=
  cfg e' = cfg e ∧ states e ≤ states e' ≤ Z.max (states e) (MaxStates (cfg e)) ∧
  Z.of_nat (length (frontier e')) - Z.of_nat (length (frontier e)) ≤ states e' - states e ∧
  (∀ id, is_Some (snapshots (tree e) !! id) → is_Some (snapshots (tree e') !! id)).

Lemma progress_refl e : progress e e.
Proof. unfold progress. split_and!; auto with lia. Qed.

Lemma progress_trans e1 e2 e3 : progress e1 e2 → progress e2 e3 → progress e1 e3.
Proof.
  intros (C1 & S1 & L1 & R1) (C2 & S2 & L2 & R2). unfold progress. rewrite C1 in *.
  split_and!; [congruence|lia|lia|lia|auto].
Qed.

Lemma branches_spec n entryID : ∀ e w,
  run_ok e → is_Some (snapshots (tree e) !! entryID) → 0 ≤ states e →
  0 < MaxStates (cfg e) < 2 ^ 32 - 2 → MaxDepth (cfg e) < 2 ^ 32 →
  let '(e', w') := branches n entryID e w in run_ok e' ∧ progress e e'.
Proof.
  induction n as [|n IH]; intros e w Hok Hid Hst HM HD; simpl; [split; [done|apply progress_refl]|].
  destruct (ctx_Err w) as [[] w1]; [split; [done|apply progress_refl]|].
  destruct (out_of_states e) eqn:Ho; [split; [done|apply progress_refl]|].
  apply out_of_states_false in Ho; [|lia].
  destruct (hyp_Restore w1 entryID) as [[|err] w2]; [|by apply IH].
  cbn [Uint64]. set (e1 := set_rng _ e).
  assert (run_ok e1) as Hok1 by (by destruct Hok; split).
  destruct (hyp_SetSeed w2 _) as [[|err] w3]; [|by apply (IH e1 w3)].
  pose proof (runForward_spec e1 w3 entryID Hok1 Hid) as HR. change (states e1) with (states e) in HR.
  change (cfg e1) with (cfg e) in HR. specialize (HR ltac:(lia) HD).
  destruct (runForward e1 w3 entryID) as [[r e2] w4]. destruct HR as (Hok2 & Hs2 & Hc2 & Hf2 & Hreg & Hch).
  change (frontier e1) with (frontier e) in Hf2. change (tree e1) with (tree e) in Hreg.
  assert (progress e e2) as Hp2.
  { unfold progress. rewrite Hf2. split_and!; [done|lia|lia|lia|done]. }
  assert (∀ e3, run_ok e3 → progress e e3 → let '(e', w') := branches n entryID e3 w4 in run_ok e' ∧ progress e e') as Hcont.
  { intros e3 Hok3 Hp3. pose proof Hp3 as (C3 & S3 & _ & R3).
    pose proof (IH e3 w4 Hok3 (R3 _ Hid) ltac:(lia) ltac:(by rewrite C3) ltac:(by rewrite C3)) as Hb.
    destruct (branches n entryID e3 w4). destruct Hb. split; [done|by eapply progress_trans]. }
  destruct r as [c|err]; [|by apply Hcont].
  destruct (Z.eqb_spec c entryID) as [->|Hne]; [by apply Hcont|].
  destruct (PushFrontier_run_ok e2 c Hok2 (Hch c eq_refl)) as (Hok3 & (Ht3 & Hc3 & _ & Hs3 & _) & Hl3).
  apply Hcont; [done|]. unfold progress. rewrite Hc3, Hs3, Hl3, Hf2, Ht3. split_and!; [done|lia|lia|lia|done].
Qed.

(** An iteration either leaves the loop or pays for itself: the frontier shrinks
    by one, apart from what new states added to it. *)
Lemma run_step_spec start e w :
  run_ok e → 0 ≤ states e → 0 < MaxStates (cfg e) < 2 ^ 32 - 2 → MaxDepth (cfg e) < 2 ^ 32 →
  ∃ go e' w', run_step log start e w = Some (go, e', w') ∧ run_ok e' ∧ progress e e' ∧
    (go = true → Z.of_nat (length (frontier e')) - states e' < Z.of_nat (length (frontier e)) - states e).
Proof.
  intros Hok Hst HM HD. unfold run_step. destruct (ctx_Err w) as [[] w1].
  { exists false, e, w1. split_and!; auto using progress_refl; done. }
  destruct (if 0 <? MaxDuration (cfg e) then time_Now w1 else (0, w1)) as [now w2].
  destruct (_ && (start + _ <? now)).
  { exists false, e, w2. split_and!; auto using progress_refl; done. }
  destruct (out_of_states e).
  { exists false, e, w2. split_and!; auto using progress_refl; done. }
  rewrite (ro_mcts e Hok), andb_true_r. destruct (Frontier.Len (frontier e) =? 0).
  { exists false, e, w2. split_and!; auto using progress_refl; done. }
  unfold PopFrontier. rewrite (ro_mcts e Hok). unfold popFrontierHeap.
  pose proof (pop_loop_spec 3 (States e) (frontier e)) as Hp.
  destruct (pop_loop 3 (States e) (frontier e)) as [[en|] f].
  - set (e1 := set_frontier f e).
    assert (∀ id, id ∈ IDs f → is_Some (snapshots (tree e) !! id)) as Hf.
    { intros id Hid. apply (ro_frontier e Hok). rewrite Hp. by right. }
    assert (run_ok e1) as Hok1 by (destruct Hok; by split).
    assert (length (frontier e) = S (length f)) as Hlen.
    { rewrite <- (IDs_length (frontier e)), <- (IDs_length f). by rewrite Hp. }
    pose proof (branches_spec (Z.to_nat (if Energy en <=? 0 then BranchFactor (cfg e1) else Energy en))
      (Frontier.SnapshotID en) e1 w2 Hok1) as Hb.
    destruct (branches _ _ e1 w2) as [e' w'].
    destruct Hb as [Hok' (C & S & L & R)]; [|done|done|done|].
    { apply (ro_frontier e Hok). rewrite Hp. by left. }
    change (cfg e1) with (cfg e) in *. change (states e1) with (states e) in *.
    change (frontier e1) with f in L. change (tree e1) with (tree e) in R.
    exists true, e', w'. split_and!; [done|done| |intros _; lia].
    unfold progress. split_and!; [done|lia|lia|lia|done].
  - destruct Hp as [Hf ->]. assert (set_frontier [] e = e) as -> by (rewrite <- Hf; by destruct e).
    exists false, e, w2. split_and!; auto using progress_refl; done.
Qed.

Lemma run_loop_spec start fuel : ∀ e w,
  run_ok e → 0 ≤ states e → 0 < MaxStates (cfg e) < 2 ^ 32 - 2 → MaxDepth (cfg e) < 2 ^ 32 →
  Z.of_nat (length (frontier e)) - states e + Z.max (states e) (MaxStates (cfg e)) < Z.of_nat fuel →
  ∃ e' w', run_loop log fuel start e w = Some (e', w') ∧ run_ok e' ∧ progress e e'.
Proof.
  induction fuel as [|fuel IH]; intros e w Hok Hst HM HD Hf; [lia|]. simpl.
  destruct (run_step_spec start e w Hok Hst HM HD) as (go & e1 & w1 & -> & Hok1 & Hp1 & Hgo).
  pose proof Hp1 as (C & S & L & R).
  destruct go; [|by exists e1, w1]. specialize (Hgo eq_refl).
  destruct (IH e1 w1) as (e2 & w2 & H1 & H2 & H3); [done|lia|by rewrite C|by rewrite C|rewrite C; lia|].
  exists e2, w2. split_and!; [done|done|by eapply progress_trans].
Qed.

(** The fuel that suffices for [Run] on a new explorer. *)
Definition run_fuel (c : Config) : nat := Z.to_nat (MaxStates c + 3).


End loop.

(** ** Assertions *)

Definition key_of (ev : AssertionEval) : string := count_key (AssertType ev) (Message ev).

Definition record_evals (e : Explorer) (evals : list AssertionEval) : Explorer :=
  foldl RecordAssertionEval e evals.

(** The evaluations with a key, in order. *)
Definition with_key (key : string) (evals : list AssertionEval) : list AssertionEval :=
  filter (λ ev, key_of ev = key) evals.

(** The step maps and satisfied sets are the only thing the two cases write. *)
Definition same_counts (e e' : Explorer) : Prop :=
  propertyCounts e' = propertyCounts e ∧ states e' = states e ∧ assertionEvals e' = assertionEvals e.

#[local] Instance same_counts_preorder : PreOrder same_counts.
Proof. unfold same_counts. split; [done|]. intros e1 e2 e3 (-> & -> & ->) (-> & -> & ->). done. Qed.

Lemma record_sometimes_counts ev e : same_counts e (record_sometimes ev e).
Proof. unfold record_sometimes. destruct (Condition ev); [done|]. by destruct (negb _). Qed.

Lemma record_reachable_counts ev e : same_counts e (record_reachable ev e).
Proof.
  unfold record_reachable. destruct (_ && _); [done|]. destruct (_ && _); [|done].
  by destruct (stepReachableEvals e !! Message ev).
Qed.

(** [RecordAssertionEval] up to the sampling of the evaluation. *)
Definition record_types (ev : AssertionEval) (e : Explorer) : Explorer :=
  let e := if bool_decide (AssertType ev = "sometimes"%string) then record_sometimes ev e else e in
  let e := if bool_decide (AssertType ev = "sometimes_all"%string) then record_sometimes ev e else e in
  if bool_decide (AssertType ev = "reachable"%string) then record_reachable ev e else e.

Lemma if_counts (b : bool) (f : Explorer → Explorer) e :
  (∀ e, same_counts e (f e)) → same_counts e (if b then f e else e).
Proof. intros Hf. by destruct b. Qed.

Lemma record_types_counts ev e : same_counts e (record_types ev e).
Proof.
  unfold record_types. do 2 (etransitivity; [|apply if_counts; intros; (apply record_reachable_counts || apply record_sometimes_counts)]).
  apply if_counts. apply record_sometimes_counts.
Qed.

(** What [RecordAssertionEval] does to the counts, the samples and the rest. *)
Lemma record_eval_fields e ev :
  let pc := bump (default (mkPropertyCount (AssertType ev) (Message ev) 0 0 0) (propertyCounts e !! key_of ev))
              (Condition ev) in
  let e' := RecordAssertionEval e ev in
  propertyCounts e' = <[key_of ev := pc]> (propertyCounts e) ∧ states e' = states e ∧
  assertionEvals e' = assertionEvals e ++
    (if Condition ev && (5 <? Total pc) && negb (states e mod 10 =? 0) then [] else [ev]).
Proof.
  cbv zeta. unfold key_of. set (pc := bump _ _).
  set (e1 := set_propertyCounts (<[count_key (AssertType ev) (Message ev) := pc]> (propertyCounts e)) e).
  change (RecordAssertionEval e ev) with
    (if Condition ev && (5 <? Total pc) && negb (states (record_types ev e1) mod 10 =? 0) then record_types ev e1
     else set_assertionEvals (assertionEvals (record_types ev e1) ++ [ev]) (record_types ev e1)).
  destruct (record_types_counts ev e1) as (H1 & H2 & H3). rewrite H2. change (states e1) with (states e).
  destruct (_ && negb _).
  - split_and!; [exact H1|exact H2|]. by rewrite H3, app_nil_r.
  - split_and!; [exact H1|exact H2|]. cbn [assertionEvals set_assertionEvals]. by rewrite H3.
Qed.

(** What the explorer has recorded of the evaluations so far. *)
Record recorded (evals : list AssertionEval) (e : Explorer) : Prop := {
  rec_counts key : propertyCounts e !! key =
    match with_key key evals with
    | [] => None
    | (ev :: _) as l => Some (mkPropertyCount (AssertType ev) (Message ev) (Z.of_nat (length l))
                        (Z.of_nat (count_if Condition l)) (Z.of_nat (count_if (λ ev, negb (Condition ev)) l)))
    end;
  rec_sublist : sublist (assertionEvals e) evals;
  rec_failures : filter (λ ev, Condition ev = false) (assertionEvals e) = filter (λ ev, Condition ev = false) evals;
  rec_first key : take 5 (with_key key evals) `prefix_of` with_key key (assertionEvals e) }.

Lemma with_key_app key l1 l2 : with_key key (l1 ++ l2) = with_key key l1 ++ with_key key l2.
Proof. apply filter_app. Qed.

Lemma with_key_snoc key l ev :
  with_key key (l ++ [ev]) = with_key key l ++ (if decide (key_of ev = key) then [ev] else []).
Proof. by rewrite with_key_app. Qed.

Lemma sublist_filter_mono {A} (P : A → Prop) `{∀ x, Decision (P x)} (l k : list A) :
  sublist l k → sublist (filter P l) (filter P k).
Proof.
  induction 1 as [|x l k Hs IH|x l k Hs IH]; [done| |]; rewrite ?filter_cons; case_decide; auto using sublist.
Qed.

Lemma recorded_step evals e ev : recorded evals e → recorded (evals ++ [ev]) (RecordAssertionEval e ev).
Proof.
  intros [Hc Hs Hf H5]. destruct (record_eval_fields e ev) as (HP & HS & HA). set (pc := bump _ _) in *.
  assert (Total pc = Z.of_nat (length (with_key (key_of ev) evals)) + 1) as HT.
  { unfold pc. rewrite Hc. destruct (with_key (key_of ev) evals) as [|x l]; unfold bump; simpl; lia. }
  split.
  - intros key. rewrite HP, with_key_snoc. destruct (decide (key_of ev = key)) as [<-|Hne].
    + rewrite lookup_insert_eq. unfold pc. rewrite Hc. destruct (with_key (key_of ev) evals) as [|x l].
      * unfold bump. simpl. by destruct (Condition ev).
      * unfold bump. simpl. rewrite length_app, !count_if_app. simpl. destruct (Condition ev); simpl; do 2 f_equal; lia.
    + rewrite lookup_insert_ne by done. by rewrite app_nil_r.
  - rewrite HA. apply sublist_app; [done|]. destruct (_ && negb _); [by apply sublist_nil_l|done].
  - rewrite HA, !filter_app, Hf. f_equal. destruct (Condition ev) eqn:E; simpl.
    + rewrite (filter_cons_False _ ev) by congruence. destruct (_ && negb _); [done|].
      by rewrite filter_cons_False by congruence.
    + done.
  - intros key. rewrite with_key_snoc, HA, with_key_app. specialize (H5 key).
    destruct (decide (length (with_key key evals) < 5)%nat) as [Hlt|Hge].
    + rewrite take_ge in H5 by lia. rewrite take_ge by (rewrite length_app; case_decide; simpl; lia).
      case_decide as Hk; [|rewrite app_nil_r; by apply prefix_app_r].
      subst key. replace (5 <? Total pc) with false by (symmetry; apply Z.ltb_ge; lia).
      rewrite andb_false_r. cbn [andb].
      replace (with_key (key_of ev) [ev]) with [ev] by (unfold with_key; by rewrite filter_cons_True).
      assert (with_key (key_of ev) (assertionEvals e) = with_key (key_of ev) evals) as ->; [|done].
      symmetry. destruct H5 as [k Hk]. assert (k = []) as ->; [|by rewrite Hk, app_nil_r].
      apply nil_length_inv. assert (sublist (with_key (key_of ev) (assertionEvals e)) (with_key (key_of ev) evals)) as Hsub
        by (by apply sublist_filter_mono). apply sublist_length in Hsub. rewrite Hk, length_app in Hsub. lia.
    + rewrite take_app_le by lia. by apply prefix_app_r.
Qed.

Lemma record_evals_recorded e evals : propertyCounts e = ∅ → assertionEvals e = [] → recorded evals (record_evals e evals).
Proof.
  intros Hc Ha. assert (recorded [] e) as H0 by (split; rewrite ?Ha, ?Hc; done).
  unfold record_evals. induction evals as [|ev l IH] using rev_ind; [done|]. rewrite foldl_app. simpl. by apply recorded_step.
Qed.

(** Assertion counting is exact and failures are never dropped: from an
    explorer that has recorded nothing, after any evaluations each (type,
    message) pair has exactly the numbers of evaluations, passes and failures
    seen; the samples are a subsequence of the evaluations with every failing
    one, and hold the first five of each pair. *)
Theorem RecordAssertionEval_exact (e : Explorer) (evals : list AssertionEval)
    (Hc : propertyCounts e = ∅) (Ha : assertionEvals e = []) :
  recorded evals (record_evals e evals).
Proof. by apply record_evals_recorded. Qed.

(** The operations that touch the satisfaction of "sometimes" assertions. *)
Inductive signal :=
| SigEval (ev : AssertionEval) | SigSubGoals (ev : SometimesAllEval) | SigPush (id : Z) | SigClear | SigState.

Definition apply_signal (e : Explorer) (s : signal) : Explorer :=
  match s with
  | SigEval ev => RecordAssertionEval e ev
  | SigSubGoals ev => RecordSometimesAllEval e ev
  | SigPush id => PushFrontier e id
  | SigClear => ClearStepAssertionEvals e
  | SigState => IncrementStates e
  end.

(** A message satisfied in this step is in the satisfied set. *)
Definition sometimes_ok (e : Explorer) : Prop :=
  ∀ msg, stepSometimesEvals e !! msg = Some true → msg ∈ sometimesSatisfied e.

Lemma record_sometimes_ok ev e : sometimes_ok e → sometimes_ok (record_sometimes ev e).
Proof.
  intros Hok. unfold record_sometimes. destruct (Condition ev).
  - intros msg. simpl. rewrite lookup_insert_Some, elem_of_union, elem_of_singleton.
    intros [[<- _]|[_ Hm]]; [by left|right; by apply Hok].
  - destruct (negb _); [|done]. intros msg. simpl. rewrite lookup_insert_Some.
    intros [[_ [=]]|[_ Hm]]. by apply Hok.
Qed.

Lemma record_reachable_sometimes ev e :
  stepSometimesEvals (record_reachable ev e) = stepSometimesEvals e ∧
  sometimesSatisfied (record_reachable ev e) = sometimesSatisfied e.
Proof.
  unfold record_reachable. destruct (_ && _); [done|]. destruct (_ && _); [|done].
  by destruct (stepReachableEvals e !! Message ev).
Qed.

Lemma record_types_sometimes_ok ev e : sometimes_ok e → sometimes_ok (record_types ev e).
Proof.
  intros Hok. unfold record_types.
  assert (∀ (b : bool) e, sometimes_ok e → sometimes_ok (if b then record_sometimes ev e else e)) as Hs
    by (intros [] e0 H0; [by apply record_sometimes_ok|done]).
  destruct (bool_decide (AssertType ev = "reachable"%string)); [|by apply Hs, Hs].
  unfold sometimes_ok. destruct (record_reachable_sometimes ev
    (if bool_decide (AssertType ev = "sometimes_all"%string)
     then record_sometimes ev (if bool_decide (AssertType ev = "sometimes"%string) then record_sometimes ev e else e)
     else if bool_decide (AssertType ev = "sometimes"%string) then record_sometimes ev e else e)) as [-> ->].
  by apply Hs, Hs.
Qed.

Lemma apply_signal_ok e s : sometimes_ok e → sometimes_ok (apply_signal e s).
Proof.
  intros Hok. destruct s as [ev|ev|id| |]; simpl; [|done| |done|done].
  - set (e1 := set_propertyCounts (<[count_key (AssertType ev) (Message ev) :=
      bump (default (mkPropertyCount (AssertType ev) (Message ev) 0 0 0)
              (propertyCounts e !! count_key (AssertType ev) (Message ev))) (Condition ev)]> (propertyCounts e)) e).
    assert (sometimes_ok (record_types ev e1)) as H1 by (by apply record_types_sometimes_ok).
    unfold RecordAssertionEval. fold e1. fold (record_types ev e1). by destruct (_ && _).
  - unfold PushFrontier. destruct (Get (tree e) id); [|done].
    destruct (collect_signals e) as [[[[e1 f1] f2] f3] f4]. intros msg. cbv zeta. by destruct (mcts _).
Qed.

(** The bonus for a newly satisfied "sometimes" assertion is dead code.
    [RecordAssertionEval] already marks the message as satisfied, so when
    [PushFrontier] sums up the step, whatever happened before, no message can
    take the branch that adds 5000: only unsatisfied messages evaluated false
    add (2000 each), and the satisfied set does not change. *)
Theorem sometimes_bonus_unreachable (t : Tree) (c : Config) (corpus : option Corpus) (sigs : list signal) :
  let e := foldl apply_signal (New t c corpus) sigs in
  foldl sometimes_boost (fzero, sometimesSatisfied e) (map_to_list (stepSometimesEvals e)) =
  (foldl (λ boost ev, if negb ev.2 && negb (bool_decide (ev.1 ∈ sometimesSatisfied e))
                      then fadd boost (float_of_Z 2000) else boost)
     fzero (map_to_list (stepSometimesEvals e)),
   sometimesSatisfied e).
Proof.
  intros e. assert (sometimes_ok e) as Hok.
  { unfold e. assert (sometimes_ok (New t c corpus)) as H0 by done. revert H0. generalize (New t c corpus).
    induction sigs as [|s sigs IH]; intros e0 H0; [done|]. by apply IH, apply_signal_ok. }
  assert (∀ l b, (∀ ev, ev ∈ l → ev.2 = true → ev.1 ∈ sometimesSatisfied e) →
    foldl sometimes_boost (b, sometimesSatisfied e) l =
    (foldl (λ boost ev, if negb ev.2 && negb (bool_decide (ev.1 ∈ sometimesSatisfied e))
                        then fadd boost (float_of_Z 2000) else boost) b l, sometimesSatisfied e)) as Hgen.
  { induction l as [|[msg cond] l IH]; intros b Hl; [done|]. cbn [foldl]. rewrite <- IH by (intros; apply Hl; [by right|done]).
    f_equal. unfold sometimes_boost. cbn [fst snd]. pose proof (Hl (msg, cond) ltac:(left)) as Hm. cbn [fst snd] in Hm.
    destruct cond; simpl.
    - rewrite bool_decide_eq_true_2 by auto. done.
    - by destruct (bool_decide _). }
  apply Hgen. intros [msg cond] Hin. simpl. intros ->. apply Hok. by apply elem_of_map_to_list in Hin.
Qed.

(** ** The marginal window *)

Definition record_bursts (e : Explorer) (counts : list Z) : Explorer := foldl RecordBurst e counts.

Lemma foldl_add_Permutation l1 l2 : l1 ≡ₚ l2 → ∀ z, foldl Z.add z l1 = foldl Z.add z l2.
Proof.
  induction 1 as [| |x y l|l1 l2 l3 _ IH1 _ IH2]; intros z; simpl; auto; [f_equal; lia|].
  by rewrite IH1.
Qed.

(** [MarginalRate] is the average of the new-edge counts of the last bursts,
    50 at most, in whatever position the ring buffer is; it is 1.0 before any
    burst. *)
Theorem MarginalRate_window (t : Tree) (c : Config) (corpus : option Corpus) (counts : list Z) :
  let recent := last_n 50 counts in
  MarginalRate (record_bursts (New t c corpus) counts) =
    match counts with
    | [] => fone
    | _ => fdiv (float_of_Z (foldl Z.add 0 recent)) (float_of_Z (Z.of_nat (length recent)))
    end.
Proof.
  intros recent. set (e := record_bursts _ _).
  assert (ring_of 50 counts (marginalWindow e) ∧ marginalPos e = Z.of_nat (length counts) ∧ marginalWindowSize e = 50)
    as (Hring & Hpos & Hsize).
  { unfold e, record_bursts. clear. induction counts as [|x l IH] using rev_ind.
    - split_and!; [|done|done]. apply (ring_new 50 0). lia.
    - rewrite foldl_app. cbn [foldl]. set (e0 := foldl RecordBurst _ l) in *. destruct IH as (H1 & H2 & H3). unfold RecordBurst.
      cbn [set_marginal marginalWindow marginalPos marginalWindowSize]. rewrite H2, H3. split_and!; [|rewrite length_app; simpl; lia|done].
      by apply (ring_step 50); [lia|]. }
  unfold MarginalRate. rewrite Hpos, Hsize. destruct counts as [|x l]; [done|].
  destruct (Z.eqb_spec (Z.of_nat (length (x :: l))) 0); [simpl in *; lia|].
  assert (length recent = (length (x :: l) `min` 50)%nat) as Hlen.
  { unfold recent, last_n. rewrite length_drop. lia. }
  set (k := if _ <? 50 then _ else 50).
  assert (k = Z.of_nat (length recent)) as Hn.
  { unfold k. destruct (Z.ltb_spec (Z.of_nat (length (x :: l))) 50); lia. }
  rewrite Hn, Nat2Z.id, Hlen. by rewrite (foldl_add_Permutation _ _ (ring_perm _ _ _ Hring)).
Qed.

(** The result drops which sub-goal assertions were satisfied: whatever the
    tracker holds, every state that [BuildResult] copies out has [Satisfied]
    false and an empty name, with the counts and best sub-goals kept. *)
Theorem BuildResult_loses_Satisfied (e : Explorer) (elapsed : Z) (name : string) (st : SometimesAllState)
    (Ht : sometimesAllTracker e !! name = Some st) :
  ∃ m st', rSometimesAllStates (BuildResult e elapsed) = Some m ∧ m !! name = Some st' ∧
    BestCount st' = BestCount st ∧ BestSubGoals st' = BestSubGoals st ∧
    Novelty.Satisfied st' = false ∧ SAName st' = ""%string.
Proof.
  unfold BuildResult. cbn [rSometimesAllStates].
  assert (0 < size (sometimesAllTracker e))%nat as Hsz.
  { apply Nat.neq_0_lt_0. intros H0%map_size_empty_inv. rewrite H0 in Ht. by rewrite lookup_empty in Ht. }
  apply Nat.ltb_lt in Hsz. rewrite Hsz. exists (copy_sub_goals <$> sometimesAllTracker e), (copy_sub_goals st).
  rewrite lookup_fmap, Ht. done.
Qed.

(** ** Concrete runs *)

(** A machine whose snapshots are numbered from 100 and that logs the
    identifiers it is asked to restore. *)
#[local] Instance demo_world : World (Z * list Z) unit := {|
  hyp_Snapshot w := (Ok w.1, (w.1 + 1, w.2));
  hyp_Restore w id := (Ok tt, (w.1, w.2 ++ [id]));
  hyp_SetSeed w seed := (Ok tt, w);
  ctx_Err w := (false, w);
  time_Now w := (0, w) |}.

Definition demo_config (s : Strategy) : Config := mkConfig 5 4 0 s 7 1 4 "".

Definition demo_run : option (result (RunError (E := unit)) Result * Explorer * (Z * list Z)) :=
  Run demo_log (run_fuel (demo_config StrategyBreadthFirst)) (New NewTree (demo_config StrategyBreadthFirst) None)
    (100, []).

(** The loop restores by the wrong identifier: [Run] passes the tree's
    snapshot identifiers to the hypervisor's [Restore], not the identifiers
    that the hypervisor returned and the tree keeps in [HypervisorID].  On a
    machine that numbers its snapshots from 100, a run asks to restore 1, 2 and
    3, which the machine never issued. *)
Theorem Run_restores_tree_ids :
  ∃ r e w, demo_run = Some (r, e, w) ∧ w = (104, [1; 2; 3]) ∧
    map (HypervisorID (tree e)) [1; 2; 3] = [Ok 100; Ok 101; Ok 102].
Proof.
  assert (match demo_run with
          | Some (_, e, w) => w = (104, [1; 2; 3]) ∧ map (HypervisorID (tree e)) [1; 2; 3] = [Ok 100; Ok 101; Ok 102]
          | None => False
          end) as Hrun by (vm_compute; split; reflexivity).
  destruct demo_run as [[[r e] w]|]; [|done]. by exists r, e, w.
Qed.

(** A frontier of two breadth-first entries: a fresh one at depth 10, an old one
    at depth 11. *)
Definition stale_frontier : Frontier :=
  let entry id depth step := mkEntry id (fneg (float_of_Z depth)) depth 0 fzero fzero fzero 1 step 0 0
                               fzero fzero 0 "" fzero fzero 0 in
  push_all [] [entry 1 10 100; entry 2 11 0; entry 3 12 0].

(** Staleness decay promotes the old entries of strategies with negative
    scores.  Breadth-first scores are minus the depth, and multiplying by 0.9
    raises them: with entries at depths 10 (fresh), 11 and 12 (both old) and
    the fresh one popped, the entry of depth 11 is re-pushed with a better
    score than before, three times, instead of yielding. *)
Theorem stale_decay_raises_negative_scores :
  ∃ fresh f en f', pop_loop 3 100 stale_frontier = (Some fresh, f) ∧ Frontier.SnapshotID fresh = 1 ∧
    pop_loop 3 100 f = (Some en, f') ∧ Frontier.SnapshotID en = 2 ∧
    fgt (Score en) (fneg (float_of_Z 9)) = true ∧ IDs f' = [3].
Proof.
  assert (match pop_loop 3 100 stale_frontier with
          | (Some fresh, f) => Frontier.SnapshotID fresh = 1 ∧
              match pop_loop 3 100 f with
              | (Some en, f') => Frontier.SnapshotID en = 2 ∧ fgt (Score en) (fneg (float_of_Z 9)) = true ∧ IDs f' = [3]
              | _ => False
              end
          | _ => False
          end) as Hpop by (vm_compute; split_and!; reflexivity).
  destruct (pop_loop 3 100 stale_frontier) as [[fresh|] f]; [|done]. destruct Hpop as [H1 Hpop].
  destruct (pop_loop 3 100 f) as [[en|] f'] eqn:E; [|done]. by exists fresh, f, en, f'.
Qed.

(** The saturation tracker is fed the running total of new edges, not the
    step's: after one update that finds three edges, every later push of a
    snapshot records a discovery of 3, although nothing more was found. *)
Theorem PushFrontier_records_total :
  let e0 := New NewTree (demo_config StrategyBreadthFirst) None in
  let e1 := set_coverage (Update (coverage e0) [1; 1; 1]).1 e0 in
  let e2 := PushFrontier (PushFrontier (PushFrontier e1 0) 0) 0 in
  (take 4 ∘ RecentWindow <$> subtrees (saturation e2) !! 0) = Some [3; 3; 3; 0] ∧
  Saturation.TotalDiscovery <$> subtrees (saturation e2) !! 0 = Some 9 ∧
  Coverage.TotalEdges (coverage e2) = 3.
Proof. vm_compute. split_and!; reflexivity. Qed.


Lemma RecordAssertionEval_exact_witness :
  let evals := [demo_eval true; demo_eval false; demo_eval true] in
  recorded evals (record_evals (New NewTree (demo_config StrategyBreadthFirst) None) evals).
Proof. intros evals. apply (RecordAssertionEval_exact (New NewTree (demo_config StrategyBreadthFirst) None) evals); reflexivity. Defined.

Lemma BuildResult_loses_Satisfied_witness :
  let e := set_sometimesAllTracker {["a"%string := mkSAState "a" ∅ 2 2 true]}
             (New NewTree (demo_config StrategyBreadthFirst) None) in
  ∃ m st', rSometimesAllStates (BuildResult e 0) = Some m ∧ m !! "a"%string = Some st' ∧ Novelty.Satisfied st' = false.
Proof.
  intros e. destruct (BuildResult_loses_Satisfied e 0 "a" (mkSAState "a" ∅ 2 2 true))
    as (m & st' & H1 & H2 & _ & _ & H3 & _); [reflexivity|].
  exists m, st'. split_and!; [exact H1|exact H2|exact H3].
Defined.
