(* ===== verification/Output.v ===== *)
(** * The output of the guest ([internal/orchestrator/parse.go], and reading
    the output file of [explore.go])

    The SDKs of the system under test write JSON lines; the orchestrator looks
    for its own keys in them.  A struct that a function decodes into is a record
    with the decoder of its tags. *)
From stdpp Require Import strings.
From S2P Require Import Prelude Strings Word Float Json Novelty Explorer.
Local Open Scope Z_scope.

(** ** Lines *)

Definition newline : Ascii.ascii := chr 10.

(** [bytes.Split(data, "\n")]. *)
Fixpoint split_lines (s : bytes) : list bytes :=
  match s with
  | [] => [[]]
  | c :: s =>
      if Ascii.eqb c newline then [] :: split_lines s
      else match split_lines s with
           | l :: ls => (c :: l) :: ls
           | [] => [[c]]
           end
  end.

(** The common shape of the parsers: each non-empty line that is an object. *)
Definition on_line {A} (f : list (string * json) → list A) (line : bytes) : list A :=
  if bool_decide (line = []) then []
  else match unmarshal_map line with Some raw => f raw | None => [] end.

Definition each_line {A} (f : list (string * json) → list A) (data : bytes) : list A := split_lines data ≫= on_line f.

(** ** Lifecycle events *)

Definition details : Type := option (list (string * any)).

Record parsedLifecycle := mkLifecycle { eventType : string; lcDetails : details }.

Definition dec_details : decoder details := dec_map AnyNil dec_any.

Record statusBody := mkStatusBody { sb_Status : string; sb_Details : details }.
#[export] Instance statusBody_eta : Eta statusBody := mkEta _ (λ r, mkStatusBody (sb_Status r) (sb_Details r)).

Definition dec_status : decoder statusBody :=
  dec_struct [field_at "status" sb_Status dec_string; field_at "details" sb_Details dec_details].

Definition decodeStatusDetails (eventType : string) (payload : json) : list parsedLifecycle :=
  match unmarshal dec_status (mkStatusBody "" None) payload with
  | Some body => [mkLifecycle eventType (sb_Details body)]
  | None => []
  end.

Record eventBody := mkEventBody { eb_EventName : string; eb_Details : details }.
#[export] Instance eventBody_eta : Eta eventBody := mkEta _ (λ r, mkEventBody (eb_EventName r) (eb_Details r)).

Definition decodeEvent (payload : json) : list parsedLifecycle :=
  match unmarshal (dec_struct [field_at "event_name" eb_EventName dec_string; field_at "details" eb_Details dec_details])
          (mkEventBody "" None) payload with
  | Some body => [mkLifecycle (eb_EventName body) (eb_Details body)]
  | None => []
  end.

Record stopFaultsBody := mkStopFaultsBody { sf_DurationSeconds : float64; sf_Status : string }.
#[export] Instance stopFaultsBody_eta : Eta stopFaultsBody := mkEta _ (λ r, mkStopFaultsBody (sf_DurationSeconds r) (sf_Status r)).

Definition decodeStopFaults (payload : json) : list parsedLifecycle :=
  match unmarshal (dec_struct [field_at "duration_seconds" sf_DurationSeconds dec_float; field_at "status" sf_Status dec_string])
          (mkStopFaultsBody fzero "") payload with
  | Some body => [mkLifecycle "openthesis_stop_faults" (Some [("duration_seconds"%string, AnyFloat (sf_DurationSeconds body))])]
  | None => []
  end.

(** [if payload, ok := raw[key]; ok { ... }]. *)
Definition on_key {A} (raw : list (string * json)) (key : string) (f : json → list A) : list A :=
  match get key raw with Some payload => f payload | None => [] end.

Definition lifecycle_of (raw : list (string * json)) : list parsedLifecycle :=
  on_key raw "openthesis_setup_complete" (decodeStatusDetails "setup_complete") ++
  on_key raw "openthesis_send_event" decodeEvent ++
  on_key raw "openthesis_teardown" (decodeStatusDetails "teardown") ++
  on_key raw "openthesis_prefork" (decodeStatusDetails "openthesis_prefork") ++
  on_key raw "openthesis_burst_done" (decodeStatusDetails "openthesis_burst_done") ++
  on_key raw "openthesis_stop_faults" decodeStopFaults.

Definition parseLifecycleOutput : bytes → list parsedLifecycle := each_line lifecycle_of.

(** ** Assertions *)

(** [detailsJSON] is the value the raw bytes denote, [None] when there are none. *)
Record parsedAssertion := mkParsedAssertion {
  assertType : string; condition : bool; message : string; detailsJSON : option json;
  subGoals : option (list (string * bool)); satisfiedCount : Z; totalCount : Z }.

Record assertBody := mkAssertBody {
  ab_Hit : bool; ab_Condition : bool; ab_Message : string; ab_AssertType : string; ab_Details : option json }.
#[export] Instance assertBody_eta : Eta assertBody := mkEta _ (λ r,
  mkAssertBody (ab_Hit r) (ab_Condition r) (ab_Message r) (ab_AssertType r) (ab_Details r)).

Definition dec_assert : decoder assertBody := dec_struct
  [field_at "hit" ab_Hit dec_bool; field_at "condition" ab_Condition dec_bool; field_at "message" ab_Message dec_string;
   field_at "assert_type" ab_AssertType dec_string; field_at "details" ab_Details dec_raw].

Record subGoalBody := mkSubGoalBody { sg_SubGoals : option (list (string * bool)); sg_Satisfied : Z; sg_Total : Z }.
#[export] Instance subGoalBody_eta : Eta subGoalBody := mkEta _ (λ r, mkSubGoalBody (sg_SubGoals r) (sg_Satisfied r) (sg_Total r)).

Definition dec_sub_goals : decoder subGoalBody := dec_struct
  [field_at "sub_goals" sg_SubGoals (dec_map false dec_bool); field_at "satisfied_count" sg_Satisfied dec_int;
   field_at "total_count" sg_Total dec_int].

(** The sub-goals of the details; an error leaves them unset. *)
Definition sub_goals_of (assertType : string) (d : option json) : subGoalBody :=
  let none := mkSubGoalBody None 0 0 in
  if bool_decide (assertType = "sometimes_all"%string)
  then default none (d ≫= unmarshal dec_sub_goals none) else none.

Definition assertion_of (a : assertBody) : parsedAssertion :=
  let sg := sub_goals_of (ab_AssertType a) (ab_Details a) in
  mkParsedAssertion (ab_AssertType a) (ab_Condition a) (ab_Message a) (ab_Details a)
    (sg_SubGoals sg) (sg_Satisfied sg) (sg_Total sg).

(** [_ = json.Unmarshal(a.Details, &assertDetails)]: what was decoded before an
    error stays. *)
Definition assert_details (d : option json) : list (string * any) :=
  default [] (d ≫= λ j, (dec_details j None).1).

Definition violation_of (a : assertBody) : Violation :=
  mkViolation (ab_Message a) (ab_Message a) 0 0 0 0 0 (assert_details (ab_Details a)) [] 0 0.

Definition is_type (a : assertBody) (t : string) : bool := bool_decide (ab_AssertType a = t).

(** The three conditions, one after the other. *)
Definition violations_of (a : assertBody) : list Violation :=
  (if (is_type a "always" || is_type a "always_or_unreachable") && negb (ab_Condition a) then [violation_of a] else []) ++
  (if is_type a "unreachable" then [violation_of a] else []) ++
  (if is_type a "ever_since" && negb (ab_Condition a) then [violation_of a] else []).

(** An evaluation: an assertion with a message that was hit. *)
Definition evaluations_of (raw : list (string * json)) : list assertBody :=
  on_key raw "openthesis_assert" (λ payload,
    match unmarshal dec_assert (mkAssertBody false false "" "" None) payload with
    | None => []
    | Some a =>
        if bool_decide (ab_Message a = ""%string) then []
        else if negb (ab_Hit a) then []
        else [a]
    end).

Definition parseAssertionOutput (data : bytes) : list parsedAssertion * list Violation :=
  (each_line (λ raw, assertion_of <$> evaluations_of raw) data,
   each_line (λ raw, evaluations_of raw ≫= violations_of) data).

(** ** Guidance and random choices *)

Record parsedGuidance := mkGuidance { guidanceType : string; gName : string; gValue : Z }.
#[export] Instance parsedGuidance_eta : Eta parsedGuidance := mkEta _ (λ r, mkGuidance (guidanceType r) (gName r) (gValue r)).

Definition dec_guidance : decoder parsedGuidance := dec_struct
  [field_at "guidance_type" guidanceType dec_string; field_at "name" gName dec_string; field_at "value" gValue dec_int].

Definition guidance_of (raw : list (string * json)) : list parsedGuidance :=
  on_key raw "openthesis_guidance" (λ payload,
    match unmarshal dec_guidance (mkGuidance "" "" 0) payload with
    | None => []
    | Some g => if bool_decide (gName g = ""%string) then [] else [g]
    end).

Definition parseGuidanceOutput : bytes → list parsedGuidance := each_line guidance_of.

Record parsedRandomChoice := mkRandomChoice { chosenIndex : Z; totalChoices : Z; valueType : string }.
#[export] Instance parsedRandomChoice_eta : Eta parsedRandomChoice := mkEta _ (λ r,
  mkRandomChoice (chosenIndex r) (totalChoices r) (valueType r)).

Definition dec_choice : decoder parsedRandomChoice := dec_struct
  [field_at "chosen_index" chosenIndex dec_int; field_at "total_choices" totalChoices dec_int;
   field_at "value_type" valueType dec_string].

Definition choice_of (raw : list (string * json)) : list parsedRandomChoice :=
  on_key raw "openthesis_random_choice" (λ payload,
    match unmarshal dec_choice (mkRandomChoice 0 0 "") payload with
    | None => []
    | Some rc => if totalChoices rc =? 0 then [] else [rc]
    end).

Definition parseRandomChoiceOutput : bytes → list parsedRandomChoice := each_line choice_of.

(** ** The strategy of the configuration *)

Definition parseStrategy (s : string) : Strategy :=
  if bool_decide (s = "breadth"%string) then StrategyBreadthFirst
  else if bool_decide (s = "depth"%string) then StrategyDepthFirst
  else if bool_decide (s = "mcts"%string) then StrategyMCTS
  else StrategyCoverageGuided.

(** ** Draining the output file *)

(** [agent.OutputData]. *)
Record OutputData := mkOutputData { odContainer : string; odFilename : string; odData : bytes }.

Record drain_state := mkDrain { gvisorOutputOffset : Z; gvisorOutputRemainder : bytes }.

Definition drain_init : drain_state := mkDrain 0 [].

Definition guest_line (line : bytes) : OutputData := mkOutputData "guest" "sdk.jsonl" line.

(** [drainGVisorOutput], with what reading the file gave: [None] for an error or
    no file. *)
Definition drainGVisorOutput (data : option bytes) (s : drain_state) : list OutputData * drain_state :=
  match data with
  | None => ([], s)
  | Some data =>
      if Z.of_nat (length data) <=? gvisorOutputOffset s then ([], s)
      else
        let chunk := drop (Z.to_nat (gvisorOutputOffset s)) data in
        let chunk := gvisorOutputRemainder s ++ chunk in
        let lines := split_lines chunk in
        let last_line := List.last lines [] in
        let '(lines, remainder) :=
          if bool_decide (last_line = []) then (lines, []) else (removelast lines, last_line) in
        (guest_line <$> filter (λ l, l ≠ []) lines, mkDrain (Z.of_nat (length data)) remainder)
  end.

(** ** Lemmas *)

Lemma split_lines_ne s : split_lines s ≠ [].
Proof. induction s as [|c s IH]; [done|]. cbn [split_lines]. destruct (Ascii.eqb c newline); [done|]. by destruct (split_lines s). Qed.

(** Splitting a concatenation: the last line of the first part is continued. *)
Lemma split_lines_app a : ∀ b, split_lines (a ++ b) = removelast (split_lines a) ++ split_lines (List.last (split_lines a) [] ++ b).
Proof.
  induction a as [|c a IH]; intros b; [done|]. cbn [app split_lines].
  destruct (Ascii.eqb c newline) eqn:Ec.
  - rewrite IH. pose proof (split_lines_ne a). by destruct (split_lines a).
  - rewrite IH. pose proof (split_lines_ne a) as Hne. destruct (split_lines a) as [|l [|l' ls]]; [done| |].
    + cbn [removelast List.last app split_lines]. rewrite Ec.
      destruct (split_lines (l ++ b)) eqn:E; [by apply split_lines_ne in E|done].
    + done.
Qed.

Lemma split_lines_line l : Forall (λ c, c ≠ newline) l → split_lines l = [l].
Proof.
  induction 1 as [|c l Hc Hl IH]; [done|]. cbn [split_lines]. rewrite IH.
  destruct (Ascii.eqb_spec c newline) as [|]; done.
Qed.

Lemma split_lines_cons l s : Forall (λ c, c ≠ newline) l → split_lines (l ++ newline :: s) = l :: split_lines s.
Proof. intros H. rewrite split_lines_app, split_lines_line by done. cbn [removelast List.last app]. induction H as [|c l Hc Hl IH]; [done|].
  cbn [app split_lines]. destruct (Ascii.eqb_spec c newline); [done|]. by rewrite IH. Qed.

Lemma last_split_no_newline s : Forall (λ c, c ≠ newline) (List.last (split_lines s) []).
Proof.
  induction s as [|c s IH]; [constructor|]. cbn [split_lines]. destruct (Ascii.eqb_spec c newline) as [|Hc].
  - pose proof (split_lines_ne s). by destruct (split_lines s).
  - destruct (split_lines s) as [|l [|l' ls]]; cbn in *; [by repeat constructor|by constructor|done].
Qed.

Lemma each_line_lines {A} (f : list (string * json) → list A) (ls : list bytes) :
  Forall (Forall (λ c, c ≠ newline)) ls →
  each_line f (concat ((λ l, l ++ [newline]) <$> ls))
  = ls ≫= on_line f.
Proof.
  unfold each_line. induction 1 as [|l ls Hl Hls IH]; [done|]. cbn [fmap list_fmap concat].
  rewrite <- app_assoc. change ([newline] ++ ?x) with (newline :: x). by rewrite split_lines_cons, !bind_cons, <- IH.
Qed.

(** The evaluations of a text. *)
Definition evaluations : bytes → list assertBody := each_line evaluations_of.

(** The kinds of evaluations that are violations. *)
Definition violated (a : assertBody) : bool :=
  is_type a "unreachable" ||
  (negb (ab_Condition a) && (is_type a "always" || is_type a "always_or_unreachable" || is_type a "ever_since")).

Lemma violations_of_violated a : violations_of a = if violated a then [violation_of a] else [].
Proof.
  unfold violations_of, violated, is_type. repeat case_bool_decide; destruct (ab_Condition a); simplify_eq; try done; congruence.
Qed.

Lemma each_line_fmap {A B} (f : list (string * json) → list A) (g : A → B) data :
  each_line (λ raw, g <$> f raw) data = g <$> each_line f data.
Proof.
  unfold each_line. induction (split_lines data) as [|l ls IH]; [done|]. rewrite !bind_cons, fmap_app, IH. f_equal.
  unfold on_line. case_bool_decide; [done|]. by destruct (unmarshal_map l).
Qed.

Lemma each_line_bind {A B} (f : list (string * json) → list A) (g : A → list B) data :
  each_line (λ raw, f raw ≫= g) data = each_line f data ≫= g.
Proof.
  unfold each_line. induction (split_lines data) as [|l ls IH]; [done|]. rewrite !bind_cons, bind_app, IH. f_equal.
  unfold on_line. case_bool_decide; [done|]. by destruct (unmarshal_map l).
Qed.

Lemma bind_violations (evs : list assertBody) : evs ≫= violations_of = violation_of <$> filter (λ a, violated a = true) evs.
Proof.
  induction evs as [|a evs IH]; [done|]. rewrite bind_cons, IH, violations_of_violated, filter_cons.
  by destruct (violated a); cbn.
Qed.

Lemma parseAssertionOutput_eq data :
  parseAssertionOutput data = (assertion_of <$> evaluations data, violation_of <$> filter (λ a, violated a = true) (evaluations data)).
Proof. unfold parseAssertionOutput. by rewrite each_line_fmap, each_line_bind, bind_violations. Qed.

(** ** Streaming *)

(** The lines of a content that end with a newline and are not empty. *)
Definition complete_lines (content : bytes) : list bytes := filter (λ l, l ≠ []) (removelast (split_lines content)).

(** A run: before each drain the guest appends a chunk, and the read succeeds or
    not. *)
Fixpoint drains (content : bytes) (rs : list (bytes * bool)) (s : drain_state) : list OutputData * drain_state :=
  match rs with
  | [] => ([], s)
  | (chunk, ok) :: rs =>
      let content := content ++ chunk in
      let '(out, s) := drainGVisorOutput (if ok : bool then Some content else None) s in
      let '(outs, s) := drains content rs s in
      (out ++ outs, s)
  end.

(** What the last successful read saw. *)
Fixpoint last_read (content seen : bytes) (rs : list (bytes * bool)) : bytes :=
  match rs with
  | [] => seen
  | (chunk, ok) :: rs =>
      let content := content ++ chunk in last_read content (if ok : bool then content else seen) rs
  end.

(** The state after everything up to [seen] has been read. *)
Definition drained (seen : bytes) : drain_state :=
  mkDrain (Z.of_nat (length seen)) (List.last (split_lines seen) []).

Lemma filter_removelast_last (ls : list bytes) : ls ≠ [] →
  filter (λ l, l ≠ []) (if bool_decide (List.last ls [] = []) then ls else removelast ls) = filter (λ l, l ≠ []) (removelast ls).
Proof.
  intros Hne. case_bool_decide as H; [|done].
  rewrite (app_removelast_last [] Hne) at 1. rewrite filter_app, H. by rewrite app_nil_r.
Qed.

Lemma last_app_ne {A} (l1 l2 : list A) d : l2 ≠ [] → List.last (l1 ++ l2) d = List.last l2 d.
Proof.
  intros Hne. rewrite (app_removelast_last d Hne) at 1. by rewrite (app_assoc l1), List.last_last.
Qed.

Lemma drain_chunk seen more :
  drainGVisorOutput (Some (seen ++ more)) (drained seen)
  = (guest_line <$> filter (λ l, l ≠ []) (removelast (split_lines (List.last (split_lines seen) [] ++ more))), drained (seen ++ more)).
Proof.
  unfold drainGVisorOutput, drained. cbn [gvisorOutputOffset gvisorOutputRemainder]. rewrite length_app.
  destruct more as [|c more].
  { cbn [length]. rewrite !app_nil_r, Nat.add_0_r, Z.leb_refl.
    by rewrite (split_lines_line (List.last _ _)) by apply last_split_no_newline. }
  rewrite (proj2 (Z.leb_gt _ _)) by (cbn [length]; lia). rewrite Nat2Z.id, drop_app_length.
  set (more' := c :: more). set (l := List.last (split_lines seen) []).
  pose proof (filter_removelast_last (split_lines (l ++ more')) (split_lines_ne _)) as Hf.
  assert (List.last (split_lines (seen ++ more')) [] = List.last (split_lines (l ++ more')) []) as Hlast.
  { rewrite split_lines_app. apply last_app_ne, split_lines_ne. }
  rewrite Hlast. revert Hf. case_bool_decide as E; intros Hf; [by rewrite Hf, E|done].
Qed.

Lemma complete_lines_app seen more :
  complete_lines (seen ++ more) = complete_lines seen ++ filter (λ l, l ≠ []) (removelast (split_lines (List.last (split_lines seen) [] ++ more))).
Proof.
  unfold complete_lines. rewrite split_lines_app, removelast_app by apply split_lines_ne. by rewrite filter_app.
Qed.

Lemma drains_spec rs : ∀ seen pending,
  let seen' := last_read (seen ++ pending) seen rs in
  ∃ outs, drains (seen ++ pending) rs (drained seen) = (guest_line <$> outs, drained seen') ∧
  complete_lines seen' = complete_lines seen ++ outs.
Proof.
  induction rs as [|[chunk ok] rs IH]; intros seen pending; cbn [drains last_read].
  { exists []. split; [done|by rewrite app_nil_r]. }
  rewrite <- app_assoc. destruct ok.
  - rewrite drain_chunk. specialize (IH (seen ++ pending ++ chunk) []). rewrite app_nil_r in IH.
    destruct IH as (outs & -> & Hlines). eexists (_ ++ outs). rewrite fmap_app. split; [done|].
    rewrite Hlines, complete_lines_app. by rewrite <- app_assoc.
  - destruct (IH seen (pending ++ chunk)) as (outs & Hd & Hlines). cbn [drainGVisorOutput]. rewrite Hd. by exists outs.
Qed.

(** ** Properties *)

(** C39: Draining the growing output file of the guest, whatever the chunks it is
    written in and whichever reads fail, yields exactly the complete, non-empty
    lines of what was read last, each one once and in order; an unfinished line
    waits for its end. *)
Theorem drain_exactly_once (rs : list (bytes * bool)) :
  let seen := last_read [] [] rs in
  drains [] rs drain_init = (guest_line <$> complete_lines seen, drained seen).
Proof.
  destruct (drains_spec rs [] []) as (outs & Hd & Hlines). cbn [app] in *. exact (eq_trans Hd (f_equal (λ o, (guest_line <$> o, _)) (eq_sym Hlines))).
Qed.
