(* ===== verification/Sha256.v ===== *)
(** * SHA-256 ([crypto/sha256])

    FIPS 180-4 on lists of bytes, executable: the call sites of the SDK's
    assertions are named by it. *)
From S2P Require Import Prelude Word.
Local Open Scope Z_scope.

Definition rotr (n x : Z) : Z := Z.lor (Z.shiftr x n) (wrap 32 (Z.shiftl x (32 - n))).

(** The constants: of each of the first 64 primes, the first 32 bits of the
    fraction of its cube root. *)
Definition is_prime (n : nat) : bool := (1 <? n)%nat && forallb (λ d, negb (n mod d =? 0)%nat) (seq 2 (n - 2)).

Definition primes : list Z := map Z.of_nat (filter (λ n, is_prime n = true) (seq 2 310)).

(** The largest cube root below [x], a bit at a time. *)
Definition cube_root (x : Z) : Z :=
  foldl (λ r b, let r' := r + Z.shiftl 1 (Z.of_nat b) in if r' * r' * r' <=? x then r' else r) 0 (rev (seq 0 36)).

Definition round_constants : list Z :=
  Eval vm_compute in map (λ p, wrap 32 (cube_root (Z.shiftl p 96))) primes.

(** The message schedule: the words so far, the last one first. *)
Fixpoint extend (n : nat) (w : list Z) : list Z :=
  match n with
  | O => w
  | S n =>
      let at_ i := nth i w 0 in
      let s0 := let x := at_ 14%nat in Z.lxor (Z.lxor (rotr 7 x) (rotr 18 x)) (Z.shiftr x 3) in
      let s1 := let x := at_ 1%nat in Z.lxor (Z.lxor (rotr 17 x) (rotr 19 x)) (Z.shiftr x 10) in
      extend n (wrap 32 (s1 + at_ 6%nat + s0 + at_ 15%nat) :: w)
  end.

Definition sha_round (s : Z * Z * Z * Z * (Z * Z * Z * Z)) (kw : Z * Z) : Z * Z * Z * Z * (Z * Z * Z * Z) :=
  let '(a, b, c, d, (e, f, g, h)) := s in
  let s1 := Z.lxor (Z.lxor (rotr 6 e) (rotr 11 e)) (rotr 25 e) in
  let ch := Z.lxor (Z.land e f) (Z.land (Z.lxor e 0xffffffff) g) in
  let t1 := h + s1 + ch + kw.1 + kw.2 in
  let s0 := Z.lxor (Z.lxor (rotr 2 a) (rotr 13 a)) (rotr 22 a) in
  let maj := Z.lxor (Z.lxor (Z.land a b) (Z.land a c)) (Z.land b c) in
  (wrap 32 (t1 + s0 + maj), a, b, c, (wrap 32 (d + t1), e, f, g)).

Fixpoint words (l : list Z) : list Z :=
  match l with
  | a :: b :: c :: d :: l => (a * 16777216 + b * 65536 + c * 256 + d) :: words l
  | _ => []
  end.

Definition compress (s : Z * Z * Z * Z * (Z * Z * Z * Z)) (block : list Z) : Z * Z * Z * Z * (Z * Z * Z * Z) :=
  let w := rev (extend 48 (rev (words block))) in
  let '(a, b, c, d, (e, f, g, h)) := s in
  let '(a', b', c', d', (e', f', g', h')) := foldl sha_round s (zip round_constants w) in
  let add := λ x y, wrap 32 (x + y) in
  (add a a', add b b', add c c', add d d', (add e e', add f f', add g g', add h h')).

Fixpoint blocks (n : nat) (l : list Z) : list (list Z) :=
  match n with O => [] | S n => take 64 l :: blocks n (drop 64 l) end.

(** The [n] bytes of a number, the highest first. *)
Fixpoint big_endian (n : nat) (x : Z) : list Z :=
  match n with O => [] | S n => wrap 8 (Z.shiftr x (8 * Z.of_nat n)) :: big_endian n x end.

Definition pad (msg : list Z) : list Z :=
  msg ++ [128] ++ replicate (Z.to_nat ((55 - Z.of_nat (length msg)) mod 64)) 0 ++ big_endian 8 (8 * Z.of_nat (length msg)).

Definition Sum256 (msg : list Z) : list Z :=
  let p := pad msg in
  let '(a, b, c, d, (e, f, g, h)) := foldl compress
    (0x6a09e667, 0xbb67ae85, 0x3c6ef372, 0xa54ff53a, (0x510e527f, 0x9b05688c, 0x1f83d9ab, 0x5be0cd19)) (blocks (length p / 64) p) in
  [a; b; c; d; e; f; g; h] ≫= big_endian 4.

(** The test vectors of the standard: the empty message and "abc". *)
Example Sum256_empty : take 8 (Sum256 []) = [0xe3; 0xb0; 0xc4; 0x42; 0x98; 0xfc; 0x1c; 0x14].
Proof. vm_compute. reflexivity. Qed.

Example Sum256_abc : take 8 (Sum256 [97; 98; 99]) = [0xba; 0x78; 0x16; 0xbf; 0x8f; 0x01; 0xcf; 0xea].
Proof. vm_compute. reflexivity. Qed.
