(* ===== verification/Sdk.v ===== *)
(** * The Go SDK of the system under test ([sdk/go])

    What the packages [assert], [guidance], [lifecycle] and [random] write to
    [sdk.jsonl], for the orchestrator to read.  The file is its list of lines;
    [None] is no output directory, in which case nothing is written.  A value of
    a details map is the JSON it is encoded to, [None] when it cannot be encoded
    (a channel, a number that is not finite).  A write error is only logged by
    the source and is left out; [runtime.Caller] is an argument. *)
From stdpp Require Import strings pretty.
From S2P Require Import Prelude Strings Word Float Json Sha256 Prng Novelty Explorer Output.
Local Open Scope Z_scope.

(** ** The output file *)

Definition sdk_file : Type := option (list bytes).

Definition write_line (l : bytes) (f : sdk_file) : sdk_file := (λ ls, ls ++ [l]) <$> f.

Definition file_content (f : sdk_file) : bytes := concat ((λ l, l ++ [newline]) <$> default [] f).

(** ** Encoding *)

(** [map[string]any]; [None] is the nil map. *)
Definition anymap : Type := option (gmap string (option json)).

(** The members of a map, sorted by key. *)
Definition sorted_members {A} (m : gmap string A) : list (string * A) :=
  sort_by (λ a b, String.ltb a.1 b.1) (map_to_list m).

Fixpoint all_some {A} (l : list (string * option A)) : option (list (bytes * A)) :=
  match l with
  | [] => Some []
  | (k, v) :: l => match v, all_some l with Some v, Some l => Some ((lit k, v) :: l) | _, _ => None end
  end.

Definition encode_map (d : anymap) : option json :=
  match d with
  | None => Some JNull
  | Some m => JObj <$> all_some (sorted_members m)
  end.

Definition jstring (s : string) : json := JStr (lit s).
Definition jint (n : Z) : json := JNum (itoa n).

(** A member that is always there. *)
Definition member (k : string) (v : json) : list (bytes * json) := [(lit k, v)].

(** ** [assert] *)

Module Assert.

Definition defaultPassedSampleRate : Z := 500.

Record location := mkLocation { File : string; Line : Z }.

Record assertionBody := mkAssertionBody {
  Hit : bool; Cond : bool; Msg : string; Type_ : string; MustHit : bool; ID : string; Details : anymap;
  Location : location }.

(** The package's variables, and the file. *)
Record state := mkState {
  evalPassCount : gmap string Z; declared : gset string; everSinceOnce : gset string; file : sdk_file }.
#[export] Instance state_eta : Eta state := mkEta _ (λ r, mkState (evalPassCount r) (declared r) (everSinceOnce r) (file r)).

Definition init (f : sdk_file) : state := mkState ∅ ∅ ∅ f.

(** [json.Marshal] of an envelope. *)
Definition marshal (b : assertionBody) : option json :=
  let id := if bool_decide (ID b = ""%string) then [] else member "id" (jstring (ID b)) in
  let details :=
    match Details b with
    | None => Some []
    | Some m => if bool_decide (m = ∅) then Some [] else member "details" <$> encode_map (Some m)
    end in
  (λ details,
    JObj (member "openthesis_assert" (JObj
      (member "hit" (JBool (Hit b)) ++ member "condition" (JBool (Cond b)) ++ member "message" (jstring (Msg b)) ++
       member "assert_type" (jstring (Type_ b)) ++ member "must_hit" (JBool (MustHit b)) ++ id ++ details ++
       member "location" (JObj (member "file" (jstring (File (Location b))) ++ member "line" (jint (Line (Location b))))))))) <$> details.

Definition writeEnvelope (b : assertionBody) (f : sdk_file) : sdk_file :=
  match marshal b with None => f | Some j => write_line (print j) f end.

Definition hex_byte (b : Z) : string := String.string_of_list_ascii [hexdigit (b / 16); hexdigit (b mod 16)].

Definition callsiteID (file : string) (line : Z) : string :=
  let h := Sum256 (code <$> (lit file ++ lit ":" ++ itoa line)) in
  String.concat "" (hex_byte <$> take 4 h).

(** What [runtime.Caller] answers. *)
Definition caller : Type := option location.

Definition emit (cond : bool) (message assertType : string) (mustHit : bool) (details : anymap) (at_ : caller) (s : state) : state :=
  let loc := default (mkLocation "unknown" 0) at_ in
  let id := callsiteID (File loc) (Line loc) in
  match file s with
  | None => s
  | Some _ =>
      let declKey := assertType +:+ ":" +:+ message in
      let s :=
        if bool_decide (declKey ∈ declared s) then s
        else s <| declared := {[declKey]} ∪ declared s |>
               <| file := writeEnvelope (mkAssertionBody false false message assertType mustHit id None loc) (file s) |> in
      let body := mkAssertionBody true cond message assertType mustHit id details loc in
      if cond then
        let cnt := default 0 (evalPassCount s !! id) in
        let s := s <| evalPassCount := <[id := add64 cnt 1]> (evalPassCount s) |> in
        if (0 <? cnt) && negb (cnt mod defaultPassedSampleRate =? 0) then s
        else s <| file := writeEnvelope body (file s) |>
      else s <| file := writeEnvelope body (file s) |>
  end.

(** A call of the package's functions.  [SometimesAll] and the comparisons write
    into the details they are given, as the source does. *)
Inductive api :=
| Always (cond : bool) (message : string) (details : anymap)
| AlwaysOrUnreachable (cond : bool) (message : string) (details : anymap)
| Sometimes (cond : bool) (message : string) (details : anymap)
| Reachable (message : string) (details : anymap)
| Unreachable (message : string) (details : anymap)
| SometimesAll (message : string) (namedBools : option (gmap string bool)) (details : anymap)
| AlwaysGreaterThan (left right : Z) (message : string) (details : anymap)
| SometimesGreaterThan (left right : Z) (message : string) (details : anymap)
| AlwaysEqual (left right : Z) (message : string) (details : anymap)
| SometimesEqual (left right : Z) (message : string) (details : anymap)
| SometimesEach (label key : string) (details : anymap)
| EverSince (cond : bool) (message : string) (details : anymap).

Definition with_operands (left right : Z) (details : anymap) : anymap :=
  Some (<["right_value"%string := Some (jint right)]> (<["left_value"%string := Some (jint left)]> (default ∅ details))).

Definition encode_bools (m : gmap string bool) : json := JObj ((λ p, (lit p.1, JBool p.2)) <$> sorted_members m).

Definition satisfied (m : gmap string bool) : Z := Z.of_nat (length (filter (λ p, p.2 = true) (map_to_list m))).

Definition with_sub_goals (bools : option (gmap string bool)) (details : anymap) : anymap :=
  let m := default ∅ bools in
  Some (<["total_count"%string := Some (jint (Z.of_nat (size m)))]>
       (<["satisfied_count"%string := Some (jint (satisfied m))]>
       (<["sub_goals"%string := Some (match bools with Some m => encode_bools m | None => JNull end)]> (default ∅ details)))).

(** The key that arms [EverSince]. *)
Definition since_key (message : string) : string := "ever_since:" +:+ message.

Definition run_api (c : api) (at_ : caller) (s : state) : state :=
  match c with
  | Always cond m d => emit cond m "always" true d at_ s
  | AlwaysOrUnreachable cond m d => emit cond m "always_or_unreachable" false d at_ s
  | Sometimes cond m d => emit cond m "sometimes" true d at_ s
  | Reachable m d => emit true m "reachable" true d at_ s
  | Unreachable m d => emit false m "unreachable" false d at_ s
  | SometimesAll m bools d =>
      let satisfiedCount := satisfied (default ∅ bools) in
      let totalCount := Z.of_nat (size (default ∅ bools)) in
      emit ((satisfiedCount =? totalCount) && (0 <? totalCount)) m "sometimes_all" true (with_sub_goals bools d) at_ s
  | AlwaysGreaterThan l r m d => emit (r <? l) m "always" true (with_operands l r d) at_ s
  | SometimesGreaterThan l r m d => emit (r <? l) m "sometimes" true (with_operands l r d) at_ s
  | AlwaysEqual l r m d => emit (l =? r) m "always" true (with_operands l r d) at_ s
  | SometimesEqual l r m d => emit (l =? r) m "sometimes" true (with_operands l r d) at_ s
  | SometimesEach label key d => emit true (label +:+ ":" +:+ key) "sometimes" true d at_ s
  | EverSince cond m d =>
      let key := since_key m in
      let s := if cond then s <| everSinceOnce := {[key]} ∪ everSinceOnce s |> else s in
      let armed := bool_decide (key ∈ everSinceOnce s) in
      emit (cond || negb armed) m "ever_since" true d at_ s
  end.

Definition run (calls : list (api * caller)) (s : state) : state := foldl (λ s c, run_api c.1 c.2 s) s calls.

End Assert.

(** ** [guidance] *)

Module Guidance.

(** The counters, and the file. *)
Record state := mkState { counters : gmap string Z; file : sdk_file }.
#[export] Instance state_eta : Eta state := mkEta _ (λ r, mkState (counters r) (file r)).

Definition marshal (guidanceType name : string) (value : Z) : json :=
  JObj (member "openthesis_guidance" (JObj
    (member "guidance_type" (jstring guidanceType) ++ member "name" (jstring name) ++ member "value" (jint value)))).

Definition emit (guidanceType name : string) (value : Z) (s : state) : state :=
  s <| file := write_line (print (marshal guidanceType name value)) (file s) |>.

Definition MaximizeInt (name : string) (value : Z) : state → state := emit "maximize" name value.

Definition Explore (name : string) (value : Z) : state → state := emit "explore" name value.

(** [a] and [b] of type [int64]: the sum of disjoint halves of the word. *)
Definition ExplorePair (name : string) (a b : Z) : state → state :=
  emit "explore" name (int64 (Z.lor (Z.land (u64 a) 0xFFFFFFFF) (u64 (Z.shiftl (Z.land (u64 b) 0xFFFFFFFF) 32)))).

Definition fnv_string (h : Z) (s : string) : Z := foldl fnv_step h (bytes_of s).

Definition TrackState (name state : string) : Guidance.state → Guidance.state :=
  emit "explore" name (int64 (fnv_string fnvOffset64 state)).

Definition TrackCounter (name : string) (delta : Z) (s : state) : state :=
  let total := int64 (default 0 (counters s !! name) + delta) in
  emit "maximize" name total (s <| counters := <[name := total]> (counters s) |>).

Definition SometimesEach (label key : string) : state → state :=
  Explore label (int64 (fnv_string (fnv_step (fnv_string fnvOffset64 label) 0) key)).

End Guidance.

(** ** [lifecycle] *)

Module Lifecycle.

(** [encoding/json] of a double: [None] for one that is not finite. *)
Section encode.
Context (format_float : float64 → option bytes).

(** A body with a status and details; null details when the map is nil. *)
Definition status_body (status : string) (details : anymap) : option json :=
  (λ d, JObj (member "status" (jstring status) ++ member "details" d)) <$> encode_map details.

Inductive api :=
| SetupComplete (details : anymap)
| SendEvent (eventName : string) (details : anymap)
| Teardown (details : anymap)
| PreFork (details : anymap)
| BurstDone (details : anymap)
| StopFaults (durationSeconds : float64).

(** The envelope of a call: [emitPreFork] and [emitBurstDone] for the last two
    signals. *)
Definition marshal (c : api) : option json :=
  match c with
  | SetupComplete d => (λ b, JObj (member "openthesis_setup_complete" b)) <$> status_body "complete" d
  | SendEvent name d =>
      (λ d, JObj (member "openthesis_send_event" (JObj (member "event_name" (jstring name) ++ member "details" d)))) <$> encode_map d
  | Teardown d => (λ b, JObj (member "openthesis_teardown" b)) <$> status_body "complete" d
  | PreFork d => (λ b, JObj (member "openthesis_prefork" b)) <$> status_body "ready" d
  | BurstDone d => (λ b, JObj (member "openthesis_burst_done" b)) <$> status_body "complete" d
  | StopFaults f =>
      (λ l, JObj (member "openthesis_stop_faults" (JObj
         (member "duration_seconds" (JNum l) ++ member "status" (jstring "requested"))))) <$> format_float f
  end.

Definition run_api (c : api) (f : sdk_file) : sdk_file :=
  match marshal c with None => f | Some j => write_line (print j) f end.

End encode.
End Lifecycle.

(** ** [random] *)

Module Random.

(** The package's variables.  [prng] is [None] before [initPRNG]. *)
Record state := mkState {
  prng : option Source; choiceOverrides : list Z; choicePos : Z; choiceGen : Z; file : sdk_file }.
#[export] Instance state_eta : Eta state := mkEta _ (λ r,
  mkState (prng r) (choiceOverrides r) (choicePos r) (choiceGen r) (file r)).

(** A slice of [int]: elements that do not decode are errors. *)
Definition dec_overrides (j : json) : option (list Z) :=
  match j with
  | JNull => Some []
  | JArr l => mapM (λ v, unmarshal dec_int 0 v) l
  | _ => None
  end.

(** The override file is its content, [None] when it cannot be opened.  The
    generation is the number of bytes a read of 64 returns. *)
Definition refreshChoiceOverrides (overrides_file : option bytes) (s : state) : state :=
  match overrides_file with
  | None => s
  | Some data =>
      let gen := Z.min 64 (Z.of_nat (length data)) in
      if (gen =? choiceGen s) && (0 <? Z.of_nat (length (choiceOverrides s))) then s
      else
        let buf := take 4096 data in
        match buf with
        | [] => s
        | _ =>
            match parse buf ≫= dec_overrides with
            | None => s
            | Some overrides => s <| choiceOverrides := overrides |> <| choiceGen := gen |> <| choicePos := 0 |>
            end
        end
  end.

(** [seed]: what the environment variable holds, or what [crypto/rand] gave. *)
Definition initPRNG (seed : Z) (s : state) : state :=
  match prng s with Some _ => s | None => s <| prng := Some (Prng.New seed) |> end.

Definition marshal (chosenIndex totalChoices : Z) (valueType : string) : json :=
  JObj (member "openthesis_random_choice" (JObj
    (member "chosen_index" (jint chosenIndex) ++ member "total_choices" (jint totalChoices) ++
     member "name" (jstring "") ++ member "value_type" (jstring valueType)))).

Definition emitBranchPoint (chosenIndex totalChoices : Z) (valueType : string) (s : state) : state :=
  s <| file := write_line (print (marshal chosenIndex totalChoices valueType)) (file s) |>.

(** One draw of the generator. *)
Definition draw (s : state) : Z * state :=
  match prng s with
  | None => (0, s)
  | Some r => let '(v, r) := Prng.Uint64 r in (v, s <| prng := Some r |>)
  end.

(** The index that [Choose] picks among [n] choices; [None] is the panic on an
    empty slice. *)
Definition Choose (seed : Z) (overrides_file : option bytes) (n : Z) (s : state) : option (Z * state) :=
  if n =? 0 then None
  else if n =? 1 then Some (0, s)
  else
    let s := if choicePos s =? 0 then refreshChoiceOverrides overrides_file s else s in
    let pos := choicePos s in
    let s := s <| choicePos := pos + 1 |> in
    let s := initPRNG seed s in
    let '(idx, s) :=
      match choiceOverrides s !! Z.to_nat pos with
      | Some o => if 0 <=? o then (Z.rem o n, s) else let '(v, s) := draw s in (v mod n, s)
      | None => let '(v, s) := draw s in (v mod n, s)
      end in
    Some (idx, emitBranchPoint idx n "choose" s).

(** [Uint64] of the package. *)
Definition Uint64 (seed : Z) (s : state) : Z * state := draw (initPRNG seed s).

(** The bytes of a word, the lowest first. *)
Fixpoint little_endian (n : nat) (v : Z) : list Z :=
  match n with O => [] | S n => wrap 8 v :: little_endian n (Z.shiftr v 8) end.

(** The loop of [GetRandom]: eight bytes of every draw until [n] are there. *)
Fixpoint fill (fuel n : nat) (s : state) : list Z * state :=
  match fuel, n with
  | _, O => ([], s)
  | O, _ => ([], s)
  | S fuel, _ =>
      let '(v, s) := draw s in
      let k := Nat.min 8 n in
      let '(rest, s) := fill fuel (n - k) s in
      (little_endian k v ++ rest, s)
  end.

Definition GetRandom (seed : Z) (n : nat) (s : state) : list Z * state := fill n n (initPRNG seed s).

End Random.

(** ** Lemmas *)

Lemma literals_ok_int n : - 2 ^ 63 ≤ n < 2 ^ 63 → literals_ok (jint n) = true.
Proof. apply itoa_literal. Qed.

(** A details map that can be encoded. *)
Definition encodable (d : anymap) : Prop :=
  ∀ m, d = Some m → ∀ k v, m !! k = Some v → ∃ j, v = Some j ∧ literals_ok j = true ∧ (nesting j ≤ 100)%nat.

Lemma elem_of_sorted_members {A} (m : gmap string A) k v : (k, v) ∈ sorted_members m ↔ m !! k = Some v.
Proof. unfold sorted_members. rewrite sort_by_Permutation. apply elem_of_map_to_list. Qed.

Lemma all_some_ok (l : list (string * option json)) :
  (∀ k v, (k, v) ∈ l → ∃ j, v = Some j ∧ literals_ok j = true ∧ (nesting j ≤ 100)%nat) →
  ∃ ms, all_some l = Some ms ∧ forallb (λ m, literals_ok m.2) ms = true ∧ (list_max (map (λ m, nesting m.2) ms) ≤ 100)%nat.
Proof.
  induction l as [|[k v] l IH]; intros H; [exists []; split_and!; [done|done|cbn; lia]|].
  destruct (H k v) as (j & -> & Hj & Hn); [by left|]. destruct IH as (ms & E & Hms & Hmax); [intros ???; eapply H; by right|].
  exists ((lit k, j) :: ms). cbn [all_some forallb snd]. rewrite E, Hj, Hms. split_and!; [done|done|].
  change (Nat.max (nesting j) (list_max (map (λ m : bytes * json, nesting m.2) ms)) ≤ 100)%nat. lia.
Qed.

Lemma encode_map_ok d : encodable d → ∃ j, encode_map d = Some j ∧ literals_ok j = true ∧ (nesting j ≤ 101)%nat.
Proof.
  intros H. destruct d as [m|]; [|by exists JNull; repeat split; cbn; lia].
  destruct (all_some_ok (sorted_members m)) as (ms & Hms & Hok & Hmax).
  { intros k v Hkv. apply elem_of_sorted_members in Hkv. by eapply H. }
  exists (JObj ms). cbn [encode_map]. rewrite Hms. split_and!; [done|done|]. cbn [nesting]. lia.
Qed.

Lemma file_content_lines ls : file_content (Some ls) = concat ((λ l, l ++ [newline]) <$> ls).
Proof. done. Qed.

Module AssertProps.
Import Assert.

(** The details as they come back. *)
Definition parsed_details (d : anymap) : option json :=
  match d with
  | Some m => if bool_decide (m = ∅) then None else valid_json <$> encode_map (Some m)
  | None => None
  end.

Definition parsed_body (b : assertionBody) : assertBody :=
  mkAssertBody (Hit b) (Cond b) (clean (Msg b)) (clean (Type_ b)) (parsed_details (Details b)).

Definition in_range (loc : location) : Prop := - 2 ^ 63 ≤ Line loc < 2 ^ 63.

(** What is inside the envelope. *)
Definition body_json (b : assertionBody) (id details : list (bytes * json)) : json :=
  JObj (member "hit" (JBool (Hit b)) ++ member "condition" (JBool (Cond b)) ++ member "message" (jstring (Msg b)) ++
    member "assert_type" (jstring (Type_ b)) ++ member "must_hit" (JBool (MustHit b)) ++ id ++ details ++
    member "location" (JObj (member "file" (jstring (File (Location b))) ++ member "line" (jint (Line (Location b)))))).

Lemma dec_assert_body hit cond msg ty mh id d fl ln :
  dec_assert (JObj ([(lit "hit", JBool hit); (lit "condition", JBool cond); (lit "message", JStr msg);
    (lit "assert_type", JStr ty); (lit "must_hit", JBool mh)] ++
    match id with Some i => [(lit "id", JStr i)] | None => [] end ++
    match d with Some d => [(lit "details", d)] | None => [] end ++
    [(lit "location", JObj [(lit "file", JStr fl); (lit "line", JNum ln)])])) (mkAssertBody false false "" "" None)
  = (mkAssertBody hit cond (String.string_of_list_ascii msg) (String.string_of_list_ascii ty) d, false).
Proof. destruct id, d; vm_compute; reflexivity. Qed.

Lemma marshal_ok b : encodable (Details b) → in_range (Location b) →
  ∃ j, marshal b = Some (JObj (member "openthesis_assert" j)) ∧ literals_ok j = true ∧ (nesting j ≤ 102)%nat ∧
  unmarshal dec_assert (mkAssertBody false false "" "" None) (valid_json j) = Some (parsed_body b).
Proof.
  intros Hd Hl. unfold marshal.
  set (id := if bool_decide (ID b = ""%string) then None else Some (lit (ID b))).
  assert ((if bool_decide (ID b = ""%string) then [] else member "id" (jstring (ID b)))
    = match id with Some i => [(lit "id", JStr i)] | None => [] end) as -> by by (unfold id; case_bool_decide).
  assert (∃ d, match Details b with None => Some [] | Some m => if bool_decide (m = ∅) then Some [] else member "details" <$> encode_map (Some m) end
    = Some (match d with Some d => [(lit "details", d)] | None => [] end) ∧ parsed_details (Details b) = valid_json <$> d ∧
    (∀ j, d = Some j → literals_ok j = true ∧ (nesting j ≤ 101)%nat)) as (d & -> & Hpd & Hdok).
  { unfold parsed_details. destruct (Details b) as [m|] eqn:E; [|by exists None]. case_bool_decide; [by exists None|].
    destruct (encode_map_ok _ Hd) as (j & Hj & Hok & Hn). rewrite Hj. exists (Some j). split_and!; [done|done|]. by intros ? [= <-]. }
  eexists. split; [reflexivity|]. unfold parsed_body. rewrite Hpd.
  assert (literals_ok (jint (Line (Location b))) = true) as Hline by by apply literals_ok_int.
  split_and!.
  - destruct id, d as [j|]; cbn -[jint]; rewrite ?Hline; try (destruct (Hdok j) as [-> _]; [done|]); done.
  - destruct id, d as [j|]; cbn -[jint]; try (destruct (Hdok j) as [_ Hn]; [done|]); cbn; lia.
  - pose proof (dec_assert_body (Hit b) (Cond b) (sanitize (lit (Msg b))) (sanitize (lit (Type_ b))) (MustHit b)
      (sanitize <$> id) (valid_json <$> d) (sanitize (lit (File (Location b)))) (itoa (Line (Location b)))) as E.
    unfold unmarshal. destruct id as [i|], d as [j|]; cbn [fmap option_fmap option_map] in *;
      match type of E with dec_assert ?j _ = _ => match goal with |- context [dec_assert ?j' _] => replace j' with j by reflexivity end end;
      rewrite E; done.
Qed.

(** The evaluations of one line. *)
Abbreviation line_evaluations := (on_line evaluations_of).

Lemma evaluations_lines ls : Forall no_newline ls → evaluations (file_content (Some ls)) = ls ≫= line_evaluations.
Proof. intros H. unfold evaluations. by rewrite file_content_lines, each_line_lines. Qed.

Lemma envelope_line b : encodable (Details b) → in_range (Location b) → Msg b ≠ ""%string →
  ∃ l, (∀ f, writeEnvelope b f = write_line l f) ∧ no_newline l ∧
  line_evaluations l = if Hit b then [parsed_body b] else [].
Proof.
  intros Hd Hl Hm. destruct (marshal_ok b Hd Hl) as (j & Hj & Hok & Hn & Hdec).
  exists (print (JObj (member "openthesis_assert" j))). split_and!.
  - intros f. unfold writeEnvelope. by rewrite Hj.
  - apply no_newline_print. unfold member. cbn [literals_ok forallb snd]. by rewrite Hok.
  - unfold on_line, member. rewrite bool_decide_eq_false_2 by done.
    rewrite unmarshal_line by (done || (apply shallow; lia)).
    unfold evaluations_of, on_key. change (clean "openthesis_assert") with "openthesis_assert"%string. cbn [get].
    rewrite bool_decide_eq_true_2, Hdec by done. cbn [ab_Message ab_Hit parsed_body].
    rewrite bool_decide_eq_false_2 by (intros E; by apply clean_nil in E). by destruct (Hit b).
Qed.

(** What a step adds to the file. *)
Definition adds (evs : list assertBody) (s s' : state) : Prop :=
  ∀ ls, file s = Some ls → Forall no_newline ls →
  ∃ ls', file s' = Some ls' ∧ Forall no_newline ls' ∧ ls' ≫= line_evaluations = (ls ≫= line_evaluations) ++ evs.

Lemma adds_line b s s' : encodable (Details b) → in_range (Location b) → Msg b ≠ ""%string →
  file s' = writeEnvelope b (file s) → adds (if Hit b then [parsed_body b] else []) s s'.
Proof.
  intros Hd Hl Hm Hs ls Hls Hno. destruct (envelope_line b Hd Hl Hm) as (l & Hw & Hnl & He).
  exists (ls ++ [l]). rewrite Hs, Hw, Hls. split; [done|]. split; [by apply Forall_app_2; [|constructor]|].
  rewrite bind_app, bind_cons, He. cbn [mbind list_bind]. by rewrite app_nil_r.
Qed.

Lemma adds_trans evs1 evs2 s1 s2 s3 : adds evs1 s1 s2 → adds evs2 s2 s3 → adds (evs1 ++ evs2) s1 s3.
Proof.
  intros H1 H2 ls Hls Hno. destruct (H1 ls Hls Hno) as (ls2 & Hls2 & Hno2 & E2). destruct (H2 ls2 Hls2 Hno2) as (ls3 & Hls3 & Hno3 & E3).
  exists ls3. split_and!; [done|done|]. by rewrite E3, E2, app_assoc.
Qed.

Lemma adds_same s s' : file s' = file s → adds [] s s'.
Proof. intros E ls Hls Hno. exists ls. by rewrite E, app_nil_r. Qed.

Definition caller_ok (at_ : caller) : Prop := ∀ loc, at_ = Some loc → in_range loc.

(** The evaluation an [emit] writes, unless it is sampled away. *)
Definition evaluation (cond : bool) (message assertType : string) (details : anymap) : assertBody :=
  mkAssertBody true cond (clean message) (clean assertType) (parsed_details details).

(** Whether [emit] writes an evaluation. *)
Definition sampled (cond : bool) (at_ : caller) (s : state) : bool :=
  let loc := default (mkLocation "unknown" 0) at_ in
  let cnt := default 0 (evalPassCount s !! callsiteID (File loc) (Line loc)) in
  negb (cond && (0 <? cnt) && negb (cnt mod defaultPassedSampleRate =? 0)).

Lemma emit_adds cond m ty mh d at_ s : encodable d → caller_ok at_ → m ≠ ""%string →
  adds (if sampled cond at_ s then [evaluation cond m ty d] else []) s (emit cond m ty mh d at_ s).
Proof.
  intros Hd Hat Hm ls Hls Hno. unfold emit. rewrite Hls. cbn zeta.
  set (loc := default (mkLocation "unknown" 0) at_). set (id := callsiteID (File loc) (Line loc)).
  assert (in_range loc) as Hloc.
  { unfold loc. destruct at_ as [l|]; [by apply Hat|]. unfold in_range. cbn [default Line]. lia. }
  set (decl := mkAssertionBody false false m ty mh id None loc). set (body := mkAssertionBody true cond m ty mh id d loc).
  match goal with |- context [if bool_decide (?k ∈ declared s) then s else ?s1] =>
    set (s1' := if bool_decide (k ∈ declared s) then s else s1) end.
  assert (adds [] s s1') as Hdecl.
  { unfold s1'. case_bool_decide; [by apply adds_same|]. apply (adds_line decl); [intros ? [=]|done|done|by rewrite Hls]. }
  assert (evalPassCount s1' = evalPassCount s) as Hcount by by (unfold s1'; case_bool_decide).
  assert (∀ s2, file s2 = file s1' → adds [parsed_body body] s (s2 <| file := writeEnvelope body (file s2) |>)) as Hbody.
  { intros s2 Hs2. apply (adds_trans [] [parsed_body body] s s1'); [done|]. intros ls1 Hls1 Hno1.
    apply (adds_line body s2); [done|done|done|done|by rewrite Hs2|done]. }
  unfold sampled. fold loc id. rewrite Hcount. destruct cond; cbn [andb].
  - destruct ((0 <? default 0 (evalPassCount s !! id)) && negb (default 0 (evalPassCount s !! id) mod defaultPassedSampleRate =? 0));
      cbn [negb]; [|by apply Hbody].
    apply (adds_trans [] [] s s1'); [done|by apply adds_same|done|done].
  - by apply Hbody.
Qed.

(** *** Calls *)

Definition message_ok (m : string) : Prop := m ≠ ""%string.

(** A call that can be written: a message, details that can be encoded, integers
    of the machine. *)
Definition api_ok (c : api) : Prop :=
  match c with
  | Always _ m d | AlwaysOrUnreachable _ m d | Sometimes _ m d | Reachable m d | Unreachable m d | EverSince _ m d =>
      message_ok m ∧ encodable d
  | SometimesAll m bools d => message_ok m ∧ encodable d ∧ Z.of_nat (size (default ∅ bools)) < 2 ^ 63
  | AlwaysGreaterThan l r m d | SometimesGreaterThan l r m d | AlwaysEqual l r m d | SometimesEqual l r m d =>
      message_ok m ∧ encodable d ∧ - 2 ^ 63 ≤ l < 2 ^ 63 ∧ - 2 ^ 63 ≤ r < 2 ^ 63
  | SometimesEach _ _ d => encodable d
  end.

Definition call_ok (c : api * caller) : Prop := api_ok c.1 ∧ caller_ok c.2.

(** The arguments with which a function calls [emit]; [armed] is about the
    messages of [EverSince]. *)
Definition emitted (armed : string → bool) (c : api) : bool * string * string * anymap :=
  match c with
  | Always cond m d => (cond, m, "always"%string, d)
  | AlwaysOrUnreachable cond m d => (cond, m, "always_or_unreachable"%string, d)
  | Sometimes cond m d => (cond, m, "sometimes"%string, d)
  | Reachable m d => (true, m, "reachable"%string, d)
  | Unreachable m d => (false, m, "unreachable"%string, d)
  | SometimesAll m bools d =>
      ((satisfied (default ∅ bools) =? Z.of_nat (size (default ∅ bools))) && (0 <? Z.of_nat (size (default ∅ bools))), m,
       "sometimes_all"%string, with_sub_goals bools d)
  | AlwaysGreaterThan l r m d => (r <? l, m, "always"%string, with_operands l r d)
  | SometimesGreaterThan l r m d => (r <? l, m, "sometimes"%string, with_operands l r d)
  | AlwaysEqual l r m d => (l =? r, m, "always"%string, with_operands l r d)
  | SometimesEqual l r m d => (l =? r, m, "sometimes"%string, with_operands l r d)
  | SometimesEach label key d => (true, label +:+ ":" +:+ key, "sometimes"%string, d)
  | EverSince cond m d => (cond || negb (armed m), m, "ever_since"%string, d)
  end.

Definition arm (c : api) (s : state) : state :=
  match c with
  | EverSince true m _ => s <| everSinceOnce := {[since_key m]} ∪ everSinceOnce s |>
  | _ => s
  end.

Definition is_armed (s : state) (m : string) : bool := bool_decide (since_key m ∈ everSinceOnce s).

Lemma run_api_emit c at_ s : ∃ mh, run_api c at_ s =
  let '(cond, m, ty, d) := emitted (is_armed (arm c s)) c in emit cond m ty mh d at_ (arm c s).
Proof. destruct c as [| | | | | | | | | | |[]]; eexists; reflexivity. Qed.

Lemma encodable_insert k j d : encodable d → literals_ok j = true → (nesting j ≤ 100)%nat → encodable (Some (<[k := Some j]> (default ∅ d))).
Proof.
  intros Hd Hj Hn m [= <-] k' v Hv. destruct (decide (k = k')) as [->|].
  - rewrite lookup_insert_eq in Hv. injection Hv as <-. eauto.
  - rewrite lookup_insert_ne in Hv by done. destruct d as [m|]; [by eapply Hd|]. cbn [default from_option] in Hv. by rewrite lookup_empty in Hv.
Qed.

Lemma with_operands_ok l r d : encodable d → - 2 ^ 63 ≤ l < 2 ^ 63 → - 2 ^ 63 ≤ r < 2 ^ 63 → encodable (with_operands l r d).
Proof.
  intros Hd Hl Hr. unfold with_operands.
  apply (encodable_insert _ _ (Some _)); [|by apply itoa_literal|cbn; lia].
  apply encodable_insert; [done|by apply itoa_literal|cbn; lia].
Qed.

Lemma satisfied_size m : 0 ≤ satisfied m ≤ Z.of_nat (size m).
Proof. unfold satisfied. rewrite <- length_map_to_list. pose proof (length_filter (λ p : string * bool, p.2 = true) (map_to_list m)). lia. Qed.

Lemma encode_bools_ok m : literals_ok (encode_bools m) = true ∧ (nesting (encode_bools m) ≤ 1)%nat.
Proof.
  unfold encode_bools. induction (sorted_members m) as [|[k b] l [IH1 IH2]]; [split; cbn; lia|].
  split; [exact IH1|]. cbn [nesting] in *. cbn [fmap list_fmap map snd nesting].
  change (S (Nat.max 0 (list_max (map (λ m0 : bytes * json, nesting m0.2) ((λ p : string * bool, (lit p.1, JBool p.2)) <$> l)))) ≤ 1)%nat. lia.
Qed.

Lemma with_sub_goals_ok bools d : encodable d → Z.of_nat (size (default ∅ bools)) < 2 ^ 63 → encodable (with_sub_goals bools d).
Proof.
  intros Hd Hs. unfold with_sub_goals. pose proof (satisfied_size (default ∅ bools)).
  apply (encodable_insert _ _ (Some _)); [|apply itoa_literal; lia|cbn; lia].
  apply (encodable_insert _ _ (Some _)); [|apply itoa_literal; lia|cbn; lia].
  destruct bools as [m|]; [|by apply encodable_insert; [|done|cbn; lia]].
  destruct (encode_bools_ok m). apply encodable_insert; [done|done|lia].
Qed.

Lemma emitted_ok armed c : api_ok c → let '(_, m, _, d) := emitted armed c in m ≠ ""%string ∧ encodable d.
Proof.
  destruct c; cbn; unfold message_ok; intros H; split; try tauto;
    try (destruct H as (? & ? & ? & ?); by apply with_operands_ok).
  - destruct H as (? & ? & ?). by apply with_sub_goals_ok.
  - by destruct label.
Qed.

(** One call adds its evaluation, or nothing when it passes and is sampled
    away. *)
Lemma run_api_adds c at_ s : call_ok (c, at_) →
  let '(cond, m, ty, d) := emitted (is_armed (arm c s)) c in
  adds (if sampled cond at_ (arm c s) then [evaluation cond m ty d] else []) s (run_api c at_ s).
Proof.
  intros [Hok Hat]. destruct (run_api_emit c at_ s) as [mh ->]. pose proof (emitted_ok (is_armed (arm c s)) c Hok) as He.
  destruct (emitted (is_armed (arm c s)) c) as [[[cond m] ty] d]. destruct He as [Hm Hd].
  apply (adds_trans [] _ s (arm c s)); [|by apply emit_adds]. apply adds_same. by destruct c as [| | | | | | | | | | |[]].
Qed.

(** *** Specification *)

(** A call that arms [EverSince] for a message. *)
Definition arms (m : string) (c : api) : bool :=
  match c with EverSince true m' _ => bool_decide (m' = m) | _ => false end.

(** The property violated by a call, in view of the calls before it, and the
    details it reports. *)
Definition violates (before : list api) (c : api) : option (string * anymap) :=
  match c with
  | Always false m d | AlwaysOrUnreachable false m d | Unreachable m d => Some (m, d)
  | AlwaysGreaterThan l r m d => if r <? l then None else Some (m, with_operands l r d)
  | AlwaysEqual l r m d => if l =? r then None else Some (m, with_operands l r d)
  | EverSince false m d => if existsb (arms m) before then Some (m, d) else None
  | _ => None
  end.

Definition reported (v : string * anymap) : Violation :=
  mkViolation (clean v.1) (clean v.1) 0 0 0 0 0 (assert_details (parsed_details v.2)) [] 0 0.

Fixpoint violations_expected (before : list api) (calls : list (api * caller)) : list Violation :=
  match calls with
  | [] => []
  | (c, _) :: calls => option_list (reported <$> violates before c) ++ violations_expected (before ++ [c]) calls
  end.

Lemma since_key_inj m1 m2 : since_key m1 = since_key m2 → m1 = m2.
Proof. unfold since_key. by intros ?%(inj _). Qed.

Lemma arm_spec c s m : is_armed (arm c s) m = arms m c || is_armed s m.
Proof.
  unfold is_armed. destruct c as [| | | | | | | | | | |[] m' d]; try done. cbn [arm arms].
  cbn. apply eq_true_iff_eq. rewrite orb_true_iff, !bool_decide_eq_true, elem_of_union, elem_of_singleton.
  split; intros [H|H]; auto; left; [symmetry; by apply since_key_inj|by subst].
Qed.

(** The violations of what a call writes. *)
Lemma emitted_violations before c armed (b : bool) : (∀ m, armed m = arms m c || existsb (arms m) before) →
  let '(cond, m, ty, d) := emitted armed c in
  (cond = false → b = true) →
  (if b then [evaluation cond m ty d] else []) ≫= violations_of = option_list (reported <$> violates before c).
Proof.
  intros Harmed.
  assert (∀ cond m ty d, [evaluation cond m ty d] ≫= violations_of = if violated (evaluation cond m ty d) then [violation_of (evaluation cond m ty d)] else []) as E.
  { intros. cbn [mbind list_bind]. by rewrite app_nil_r, violations_of_violated. }
  destruct c as [[]|[]|[]|?|?|?|l r ??|l r ??|l r ??|l r ??|?|cond m d]; cbn [emitted violates]; intros Hb;
    try (rewrite (Hb eq_refl)); rewrite ?E; try (by destruct b; rewrite ?E);
    try lazymatch goal with |- context [evaluation (_ || _) _ _ _] => fail | |- context [evaluation ?x _ _ _] => destruct x eqn:Hx; (destruct b; [|try discriminate (Hb eq_refl)]); rewrite ?E, ?Hx; try done end.
  rewrite Harmed in *. destruct cond; cbn [arms orb] in *; [by destruct b; rewrite ?E|].
  destruct (existsb (arms m) before); cbn [negb] in *; [by rewrite (Hb eq_refl), E|]. destruct b; by rewrite ?E.
Qed.

Lemma run_violations calls : ∀ before s ls, Forall call_ok calls →
  (∀ m, is_armed s m = existsb (arms m) before) → file s = Some ls → Forall no_newline ls →
  ∃ ls', file (run calls s) = Some ls' ∧ Forall no_newline ls' ∧
  (ls' ≫= line_evaluations) ≫= violations_of = ((ls ≫= line_evaluations) ≫= violations_of) ++ violations_expected before calls.
Proof.
  induction calls as [|[c at_] calls IH]; intros before s ls Hok Harmed Hls Hno.
  { exists ls. by rewrite app_nil_r. }
  apply Forall_cons in Hok as [Hc Hok]. pose proof (run_api_adds c at_ s Hc) as Hadds.
  pose proof (emitted_violations before c (is_armed (arm c s))) as Hv.
  destruct (emitted (is_armed (arm c s)) c) as [[[cond m] ty] d].
  destruct (Hadds ls Hls Hno) as (ls1 & Hls1 & Hno1 & E1).
  assert (∀ m, is_armed (run_api c at_ s) m = existsb (arms m) (before ++ [c])) as Harmed1.
  { intros m'. rewrite existsb_app, <- Harmed. cbn [existsb]. rewrite orb_false_r, orb_comm, <- arm_spec.
    destruct (run_api_emit c at_ s) as [mh ->]. destruct (emitted _ _) as [[[? ?] ?] ?]. unfold emit.
    destruct (file (arm c s)); [|done]. cbn zeta. by repeat case_match. }
  destruct (IH (before ++ [c]) (run_api c at_ s) ls1 Hok Harmed1 Hls1 Hno1) as (ls' & Hls' & Hno' & E').
  exists ls'. split_and!; [done|done|]. rewrite E', E1, bind_app, <- app_assoc. cbn [violations_expected]. do 2 f_equal.
  apply Hv; [intros m'; by rewrite arm_spec, Harmed|]. by intros ->.
Qed.

(** *** Properties *)

(** C13: No violation is lost or invented between the SDK and the orchestrator: what
    is parsed from the file a program wrote are exactly the violations of its
    calls, in their order, each once: a false [Always], [AlwaysOrUnreachable] or
    comparison, an [Unreachable] that was reached, an [EverSince] that is false
    after it was true.  Sampling and declarations do not show.  Messages come
    back with invalid bytes replaced. *)
Theorem no_violation_lost (calls : list (api * caller)) (Hok : Forall call_ok calls) :
  (parseAssertionOutput (file_content (file (run calls (init (Some [])))))).2 = violations_expected [] calls.
Proof.
  destruct (run_violations calls [] (init (Some [])) []) as (ls & -> & Hno & E); [done|intros m; unfold is_armed; by rewrite bool_decide_eq_false_2|done|constructor|].
  rewrite parseAssertionOutput_eq. cbn [snd]. rewrite <- bind_violations, evaluations_lines by done. exact E.
Qed.

(** One key in [defaultPassedSampleRate], the first one included. *)
Fixpoint one_in_rate (i : Z) (keys : list string) : list string :=
  match keys with
  | [] => []
  | k :: keys => (if i mod defaultPassedSampleRate =? 0 then [k] else []) ++ one_in_rate (i + 1) keys
  end.

Definition callsite (at_ : caller) : string :=
  let loc := default (mkLocation "unknown" 0) at_ in callsiteID (File loc) (Line loc).

Lemma emit_count m ty mh d at_ s : is_Some (file s) →
  evalPassCount (emit true m ty mh d at_ s) = <[callsite at_ := add64 (default 0 (evalPassCount s !! callsite at_)) 1]> (evalPassCount s).
Proof. intros [ls Hls]. unfold emit, callsite. rewrite Hls. cbn zeta. repeat case_match; done. Qed.

Lemma run_each label d at_ (Hd : encodable d) (Hat : caller_ok at_) keys : ∀ i s ls,
  0 ≤ i → i + Z.of_nat (length keys) < 2 ^ 64 → default 0 (evalPassCount s !! callsite at_) = i →
  file s = Some ls → Forall no_newline ls →
  ∃ ls', file (run ((λ k, (SometimesEach label k d, at_)) <$> keys) s) = Some ls' ∧ Forall no_newline ls' ∧
  ls' ≫= line_evaluations = (ls ≫= line_evaluations) ++ ((λ k, evaluation true (label +:+ ":" +:+ k) "sometimes" d) <$> one_in_rate i keys).
Proof.
  induction keys as [|k keys IH]; intros i s ls Hi Hmax Hcount Hls Hno.
  { exists ls. by rewrite app_nil_r. }
  cbn [length] in Hmax. pose proof (run_api_adds (SometimesEach label k d) at_ s (conj Hd Hat)) as Hadds. cbn [emitted arm] in Hadds.
  destruct (Hadds ls Hls Hno) as (ls1 & Hls1 & Hno1 & E1).
  assert (default 0 (evalPassCount (run_api (SometimesEach label k d) at_ s) !! callsite at_) = i + 1) as Hcount1.
  { cbn [run_api]. rewrite emit_count by by eexists. rewrite lookup_insert_eq, Hcount. cbn [default from_option]. unfold add64, u64, wrap.
    apply Z.mod_small. lia. }
  destruct (IH (i + 1) _ ls1 ltac:(lia) ltac:(lia) Hcount1 Hls1 Hno1) as (ls' & Hls' & Hno' & E').
  exists ls'. split_and!; [done|done|]. rewrite E', E1, <- app_assoc. f_equal. cbn [one_in_rate]. rewrite fmap_app. f_equal.
  unfold sampled. fold (callsite at_). rewrite Hcount. cbn [andb].
  destruct (i mod defaultPassedSampleRate =? 0) eqn:E; [by rewrite andb_false_r|].
  assert (i ≠ 0) by (intros ->; done). by rewrite (proj2 (Z.ltb_lt 0 i)) by lia.
Qed.

(** Passing evaluations are sampled by call site and not by property: of the keys
    given to [SometimesEach] at one place, whose documentation promises that each
    is asserted, only one in five hundred ever reaches the orchestrator. *)
Theorem SometimesEach_loses_keys (label : string) (d : anymap) (at_ : caller) (keys : list string)
    (Hd : encodable d) (Hat : caller_ok at_) (Hn : Z.of_nat (length keys) < 2 ^ 64) :
  message <$> (parseAssertionOutput (file_content (file (run ((λ k, (SometimesEach label k d, at_)) <$> keys) (init (Some [])))))).1
  = (λ k, clean (label +:+ ":" +:+ k)) <$> one_in_rate 0 keys.
Proof.
  destruct (run_each label d at_ Hd Hat keys 0 (init (Some [])) []) as (ls & -> & Hno & E); [lia|lia|cbn [init evalPassCount]; by rewrite lookup_empty|done|constructor|].
  rewrite parseAssertionOutput_eq. cbn [fst]. rewrite evaluations_lines, E by done. cbn [mbind list_bind app].
  by rewrite <- !list_fmap_compose.
Qed.
End AssertProps.

(** ** Guidance and random choices come back *)

Lemma parse_line {A} (f : list (string * json) → list A) (k : string) (p : json) :
  literals_ok p = true → (nesting p ≤ 100)%nat → on_line f (print (JObj (member k p))) = f [(clean k, valid_json p)].
Proof.
  intros Hok Hn. unfold on_line, member. rewrite bool_decide_eq_false_2 by done. by rewrite unmarshal_line by (done || (apply shallow; lia)).
Qed.

Lemma no_newline_member k p : literals_ok p = true → no_newline (print (JObj (member k p))).
Proof. intros H. apply no_newline_print. unfold member. cbn [literals_ok forallb snd]. by rewrite H. Qed.

Module GuidanceProps.
Import Guidance.

Inductive api :=
| CMaximizeInt (name : string) (value : Z)
| CExplore (name : string) (value : Z)
| CExplorePair (name : string) (a b : Z)
| CTrackState (name value : string)
| CTrackCounter (name : string) (delta : Z)
| CSometimesEach (label key : string).

Definition run_api (s : state) (c : api) : state :=
  match c with
  | CMaximizeInt n v => MaximizeInt n v s
  | CExplore n v => Explore n v s
  | CExplorePair n a b => ExplorePair n a b s
  | CTrackState n v => TrackState n v s
  | CTrackCounter n d => TrackCounter n d s
  | CSometimesEach l k => SometimesEach l k s
  end.

(** The signal of a call: a counter reports the sum of its deltas, as an [int64]. *)
Definition name_of (c : api) : string :=
  match c with
  | CMaximizeInt n _ | CExplore n _ | CExplorePair n _ _ | CTrackState n _ | CTrackCounter n _ | CSometimesEach n _ => n
  end.

Definition delta_of (n : string) (c : api) : Z :=
  match c with CTrackCounter n' d => if bool_decide (n' = n) then d else 0 | _ => 0 end.

Definition counter (n : string) (calls : list api) : Z := int64 (foldr Z.add 0 (delta_of n <$> calls)).

Definition signal (before : list api) (c : api) : parsedGuidance :=
  match c with
  | CMaximizeInt n v => mkGuidance "maximize" (clean n) v
  | CExplore n v => mkGuidance "explore" (clean n) v
  | CExplorePair n a b => mkGuidance "explore" (clean n) (int64 (a mod 2 ^ 32 + (b mod 2 ^ 32) * 2 ^ 32))
  | CTrackState n v => mkGuidance "explore" (clean n) (int64 (fnv_string fnvOffset64 v))
  | CTrackCounter n d => mkGuidance "maximize" (clean n) (counter n (before ++ [c]))
  | CSometimesEach l k => mkGuidance "explore" (clean l) (int64 (fnv_string fnvOffset64 (l +:+ String (chr 0) k)))
  end.

Fixpoint signals (before calls : list api) : list parsedGuidance :=
  match calls with
  | [] => []
  | c :: calls => signal before c :: signals (before ++ [c]) calls
  end.

Definition api_ok (c : api) : Prop :=
  name_of c ≠ ""%string ∧
  match c with CMaximizeInt _ v | CExplore _ v => - 2 ^ 63 ≤ v < 2 ^ 63 | _ => True end.

Lemma int64_range x : - 2 ^ 63 ≤ int64 x < 2 ^ 63.
Proof. unfold int64. pose proof (wrap_bound 64 x ltac:(lia)). destruct (wrap 64 x <? 2 ^ 63) eqn:E; lia. Qed.

Lemma guidance_line t n v : - 2 ^ 63 ≤ v < 2 ^ 63 → n ≠ ""%string →
  no_newline (print (marshal t n v)) ∧ on_line guidance_of (print (marshal t n v)) = [mkGuidance (clean t) (clean n) v].
Proof.
  intros Hv Hn. unfold marshal.
  set (p := JObj (member "guidance_type" (jstring t) ++ member "name" (jstring n) ++ member "value" (jint v))).
  assert (literals_ok p = true) as Hok by (cbn -[jint]; by rewrite literals_ok_int).
  split; [by apply no_newline_member|]. rewrite (parse_line guidance_of "openthesis_guidance" p) by (done || (cbn; lia)).
  unfold guidance_of, on_key. change (clean "openthesis_guidance") with "openthesis_guidance"%string. cbn [get].
  rewrite bool_decide_eq_true_2 by done.
  assert (unmarshal dec_guidance (mkGuidance "" "" 0) (valid_json p) = Some (mkGuidance (clean t) (clean n) v)) as ->.
  { unfold p. cbn [valid_json map app member fst snd]. unfold jint, jstring. cbn [valid_json]. unfold clean.
    unfold unmarshal, dec_guidance.
    rewrite (decode_field _ (field_at "guidance_type" guidanceType dec_string) _ _ _ _ (mkGuidance (clean t) "" 0)) by done.
    rewrite (decode_field _ (field_at "name" gName dec_string) _ _ _ _ (mkGuidance (clean t) (clean n) 0)) by done.
    rewrite (decode_field _ (field_at "value" gValue dec_int) _ _ _ _ (mkGuidance (clean t) (clean n) v)); [done|done|].
    unfold field_at, snd. by rewrite dec_int_itoa. }
  cbn [gName]. rewrite bool_decide_eq_false_2; [done|]. intros E. by apply clean_nil in E.
Qed.

Lemma int64_add x d : int64 (int64 x + d) = int64 (x + d).
Proof.
  assert (wrap 64 (int64 x + d) = wrap 64 (x + d)) as E; [|unfold int64 at 1; rewrite E; reflexivity].
  unfold int64. unfold wrap. destruct (x mod 2 ^ 64 <? 2 ^ 63).
  - by rewrite Zplus_mod_idemp_l.
  - replace (x mod 2 ^ 64 - 2 ^ 64 + d) with (x mod 2 ^ 64 + d + (-1) * 2 ^ 64) by lia.
    by rewrite Z_mod_plus_full, Zplus_mod_idemp_l.
Qed.

Lemma lor_disjoint a b n : 0 ≤ n → 0 ≤ a < 2 ^ n → Z.lor a (b * 2 ^ n) = a + b * 2 ^ n.
Proof.
  intros Hn Ha. rewrite <- Z.add_lor_land. assert (Z.land a (b * 2 ^ n) = 0) as ->; [|lia].
  apply Z.bits_inj'. intros i Hi. rewrite Z.land_spec, Z.bits_0, <- Z.shiftl_mul_pow2 by lia.
  destruct (Z.lt_ge_cases i n).
  - rewrite Z.shiftl_spec_low by lia. by rewrite andb_false_r.
  - rewrite <- (Z.mod_small a (2 ^ n)) by lia. by rewrite Z.mod_pow2_bits_high by lia.
Qed.

Lemma explore_pair a b :
  Z.lor (Z.land (u64 a) 0xFFFFFFFF) (u64 (Z.shiftl (Z.land (u64 b) 0xFFFFFFFF) 32)) = a mod 2 ^ 32 + b mod 2 ^ 32 * 2 ^ 32.
Proof.
  assert (∀ x, Z.land (u64 x) 0xFFFFFFFF = x mod 2 ^ 32) as E.
  { intros x. change 0xFFFFFFFF with (Z.ones 32). rewrite Z.land_ones by lia. unfold wrap.
    change (2 ^ 64) with (2 ^ 32 * 2 ^ 32). rewrite Z.rem_mul_r by lia. by rewrite Z.mul_comm, Z_mod_plus_full, Zmod_mod. }
  rewrite !E, Z.shiftl_mul_pow2 by lia. pose proof (Z.mod_pos_bound a (2 ^ 32) ltac:(lia)). pose proof (Z.mod_pos_bound b (2 ^ 32) ltac:(lia)).
  unfold wrap. rewrite (Z.mod_small (_ * _)) by lia. by apply lor_disjoint.
Qed.

Lemma fnv_string_app h s t : fnv_string h (s +:+ t) = fnv_string (fnv_string h s) t.
Proof. unfold fnv_string, bytes_of. revert h. induction s as [|c s IH]; intros h; [done|]. apply IH. Qed.

Definition counters_ok (before : list api) (s : state) : Prop := ∀ n, default 0 (counters s !! n) = counter n before.

Lemma counter_snoc n before c : counter n (before ++ [c]) = int64 (counter n before + delta_of n c).
Proof.
  unfold counter. rewrite int64_add, fmap_app, foldr_app. f_equal. cbn [fmap list_fmap foldr]. rewrite Z.add_0_r.
  induction (delta_of n <$> before) as [|d l IH]; cbn; lia.
Qed.

Lemma counter_fixed n before : int64 (counter n before) = counter n before.
Proof. unfold counter. pose proof (int64_add (foldr Z.add 0 (delta_of n <$> before)) 0) as E. by rewrite !Z.add_0_r in E. Qed.

(** One call: its line, and the counters. *)
Lemma run_api_line before s c : api_ok c → counters_ok before s →
  ∃ l, file (run_api s c) = write_line l (file s) ∧ no_newline l ∧ on_line guidance_of l = [signal before c] ∧
  counters_ok (before ++ [c]) (run_api s c).
Proof.
  intros [Hn Hv] Hc.
  assert (∀ n, delta_of n c = 0 → counter n (before ++ [c]) = counter n before) as Hsame.
  { intros n Hd. by rewrite counter_snoc, Hd, Z.add_0_r, counter_fixed. }
  assert (∀ t v, - 2 ^ 63 ≤ v < 2 ^ 63 → signal before c = mkGuidance (clean t) (clean (name_of c)) v →
    run_api s c = emit t (name_of c) v s → (∀ n, delta_of n c = 0) → ∃ l, file (run_api s c) = write_line l (file s) ∧ no_newline l ∧
    on_line guidance_of l = [signal before c] ∧ counters_ok (before ++ [c]) (run_api s c)) as Hplain.
  { intros t v Hr Hs -> Hd. destruct (guidance_line t (name_of c) v Hr Hn) as [Hno Hl]. exists (print (marshal t (name_of c) v)).
    rewrite Hs. split_and!; [done|done|done|]. intros n. rewrite Hsame by done. apply Hc. }
  destruct c as [n v|n v|n a b|n v|n d|l k]; cbn [name_of] in *.
  - by apply (Hplain "maximize"%string v).
  - by apply (Hplain "explore"%string v).
  - apply (Hplain "explore"%string (int64 (a mod 2 ^ 32 + b mod 2 ^ 32 * 2 ^ 32))); [apply int64_range|done| |done].
    cbn [run_api]. unfold ExplorePair. by rewrite explore_pair.
  - apply (Hplain "explore"%string (int64 (fnv_string fnvOffset64 v))); [apply int64_range|done|done|done].
  - cbn [run_api signal]. unfold TrackCounter. rewrite Hc.
    assert (int64 (counter n before + d) = counter n (before ++ [CTrackCounter n d])) as ->.
    { rewrite counter_snoc. cbn [delta_of]. by rewrite bool_decide_eq_true_2. }
    destruct (guidance_line "maximize" n (counter n (before ++ [CTrackCounter n d]))) as [Hno Hl]; [apply int64_range|done|].
    eexists. split; [reflexivity|]. split_and!; [done|done|]. intros n'. cbn [counters emit]. cbn.
    destruct (decide (n = n')) as [<-|]; [by rewrite lookup_insert_eq|]. rewrite lookup_insert_ne by done.
    rewrite Hc, Hsame; [done|]. cbn [delta_of]. by rewrite bool_decide_eq_false_2.
  - apply (Hplain "explore"%string (int64 (fnv_string fnvOffset64 (l +:+ String (chr 0) k)))); [apply int64_range|done| |done].
    cbn [run_api]. unfold SometimesEach, Explore. by rewrite fnv_string_app.
Qed.

Lemma run_signals calls : ∀ before s ls, Forall api_ok calls → counters_ok before s → file s = Some ls → Forall no_newline ls →
  ∃ ls', file (foldl run_api s calls) = Some ls' ∧ Forall no_newline ls' ∧
  ls' ≫= on_line guidance_of = (ls ≫= on_line guidance_of) ++ signals before calls.
Proof.
  induction calls as [|c calls IH]; intros before s ls Hok Hc Hls Hno; [exists ls; by rewrite app_nil_r|].
  apply Forall_cons in Hok as [Hok1 Hok]. destruct (run_api_line before s c Hok1 Hc) as (l & Hl & Hnl & Hev & Hc1).
  destruct (IH (before ++ [c]) (run_api s c) (ls ++ [l]) Hok Hc1) as (ls' & Hls' & Hno' & E).
  { by rewrite Hl, Hls. }
  { by apply Forall_app_2; [|constructor]. }
  exists ls'. split_and!; [done|done|]. rewrite E, bind_app, bind_cons, Hev. cbn [mbind list_bind signals]. by rewrite <- app_assoc.
Qed.

(** C40: Every guidance signal of a program reaches the orchestrator once, in order,
    with its type, name and value: counters as the sum of their deltas, pairs as
    the two low halves of a word, states and keys as the FNV-1a hash of their
    bytes. *)
Theorem guidance_roundtrip (calls : list api) (Hok : Forall api_ok calls) :
  parseGuidanceOutput (file_content (file (foldl run_api (mkState ∅ (Some [])) calls))) = signals [] calls.
Proof.
  destruct (run_signals calls [] (mkState ∅ (Some [])) []) as (ls & -> & Hno & E); [done|intros n; cbn [counters]; by rewrite lookup_empty|done|constructor|].
  unfold parseGuidanceOutput. by rewrite file_content_lines, each_line_lines, E.
Qed.

End GuidanceProps.

Module RandomProps.
Import Random.

(** A branch point comes back. *)
Lemma choice_line i n t : - 2 ^ 63 ≤ i < 2 ^ 63 → 0 < n < 2 ^ 63 →
  no_newline (print (marshal i n t)) ∧ on_line choice_of (print (marshal i n t)) = [mkRandomChoice i n (clean t)].
Proof.
  intros Hi Hn. unfold marshal.
  set (p := JObj (member "chosen_index" (jint i) ++ member "total_choices" (jint n) ++ member "name" (jstring "") ++ member "value_type" (jstring t))).
  assert (literals_ok p = true) as Hok by (cbn -[jint]; rewrite !literals_ok_int by lia; done).
  split; [by apply no_newline_member|]. rewrite (parse_line choice_of "openthesis_random_choice" p) by (done || (cbn; lia)).
  unfold choice_of, on_key. change (clean "openthesis_random_choice") with "openthesis_random_choice"%string. cbn [get].
  rewrite bool_decide_eq_true_2 by done.
  assert (unmarshal dec_choice (mkRandomChoice 0 0 "") (valid_json p) = Some (mkRandomChoice i n (clean t))) as ->.
  { unfold p. cbn [valid_json map app member fst snd]. unfold jint, jstring. cbn [valid_json]. unfold unmarshal, dec_choice.
    rewrite (decode_field _ (field_at "chosen_index" chosenIndex dec_int) _ _ _ _ (mkRandomChoice i 0 "")); [|done|unfold field_at, snd; by rewrite dec_int_itoa].
    rewrite (decode_field _ (field_at "total_choices" totalChoices dec_int) _ _ _ _ (mkRandomChoice i n "")); [|done|unfold field_at, snd; rewrite dec_int_itoa by lia; done].
    rewrite decode_skip by done.
    rewrite (decode_field _ (field_at "value_type" valueType dec_string) _ _ _ _ (mkRandomChoice i n (clean t))) by done. done. }
  cbn [totalChoices]. by rewrite (proj2 (Z.eqb_neq n 0)) by lia.
Qed.

(** *** Properties of [Choose] *)

(** A sequence of choices, each with the number of choices and what the override
    file holds at that time. *)
Fixpoint choices (seed : Z) (cs : list (Z * option bytes)) (s : state) : list Z * state :=
  match cs with
  | [] => ([], s)
  | (n, f) :: cs =>
      match Choose seed f n s with
      | None => ([], s)
      | Some (i, s) => let '(picks, s) := choices seed cs s in (i :: picks, s)
      end
  end.

Lemma initPRNG_choice seed s : choicePos (initPRNG seed s) = choicePos s ∧ choiceOverrides (initPRNG seed s) = choiceOverrides s ∧
  file (initPRNG seed s) = file s.
Proof. unfold initPRNG. by destruct (prng s). Qed.

Lemma draw_choice s : choicePos (draw s).2 = choicePos s ∧ choiceOverrides (draw s).2 = choiceOverrides s ∧ file (draw s).2 = file s.
Proof. unfold draw. destruct (prng s); [|done]. by destruct (Prng.Uint64 _). Qed.

(** Past its position zero a choice neither reads the file nor resets the
    position. *)
Lemma Choose_later seed f n s i s' : 0 < choicePos s → Choose seed f n s = Some (i, s') →
  0 < choicePos s' ∧ choiceOverrides s' = choiceOverrides s ∧ ∀ f', Choose seed f' n s = Some (i, s').
Proof.
  intros Hp. unfold Choose. destruct (n =? 0); [done|]. destruct (n =? 1); [intros [= <- <-]; done|].
  rewrite (proj2 (Z.eqb_neq (choicePos s) 0)) by lia.
  set (s1 := initPRNG seed (s <| choicePos := choicePos s + 1 |>)).
  destruct (initPRNG_choice seed (s <| choicePos := choicePos s + 1 |>)) as (Hp1 & Ho1 & _). fold s1 in Hp1, Ho1.
  destruct (draw_choice s1) as (Hp2 & Ho2 & _). destruct (draw s1) as [v s2]. cbn [snd] in *.
  cbn [choicePos choiceOverrides setter] in Hp1, Ho1. cbn in Hp1, Ho1.
  intros H. assert (choicePos s' = choicePos s1 ∧ choiceOverrides s' = choiceOverrides s1) as [Hp' Ho'].
  { destruct (choiceOverrides s1 !! Z.to_nat (choicePos s)) as [o|]; [destruct (0 <=? o)|]; injection H as _ <-; done. }
  split_and!; [lia|congruence|done].
Qed.

(** Directed choices work for one burst only: once a choice was made nothing sets
    the position back, so whatever override files the host writes later, every
    further sequence of choices is the one it would be without them. *)
Theorem later_overrides_ignored (seed : Z) (cs : list (Z * option bytes)) : ∀ (s : state) (Hp : 0 < choicePos s),
  choices seed cs s = choices seed ((λ c, (c.1, None)) <$> cs) s.
Proof.
  induction cs as [|[n f] cs IH]; intros s Hp; [done|]. cbn [choices fmap list_fmap fst].
  destruct (Choose seed f n s) as [[i s']|] eqn:E.
  - destruct (Choose_later _ _ _ _ _ _ Hp E) as (Hp' & _ & H). rewrite H. by rewrite IH.
  - destruct (Choose seed None n s) as [[i s']|] eqn:E'; [|done]. destruct (Choose_later _ _ _ _ _ _ Hp E') as (_ & _ & H).
    by rewrite (H f) in E.
Qed.
End RandomProps.

Module LifecycleProps.
Import Lifecycle.

(** A quiet period comes back as it was asked for, when the number is written so
    that it reads back (the shortest form that [encoding/json] uses does). *)
Lemma stop_faults_line (format_float : float64 → option bytes) (f : float64) (l : bytes) :
  format_float f = Some l → number_literal l = true → parse_float l = Some f →
  ∃ j, marshal format_float (StopFaults f) = Some j ∧ no_newline (print j) ∧
  on_line lifecycle_of (print j) = [mkLifecycle "openthesis_stop_faults" (Some [("duration_seconds"%string, AnyFloat f)])].
Proof.
  intros Hf Hl Hp. cbn [marshal]. rewrite Hf. eexists. split; [reflexivity|].
  set (p := JObj (member "duration_seconds" (JNum l) ++ member "status" (jstring "requested"))).
  assert (literals_ok p = true) as Hok by (cbn -[number_literal]; by rewrite Hl).
  split; [by apply no_newline_member|]. rewrite (parse_line lifecycle_of "openthesis_stop_faults" p) by (done || (cbn; lia)).
  unfold lifecycle_of, on_key. change (clean "openthesis_stop_faults") with "openthesis_stop_faults"%string. cbn [get].
  do 5 (rewrite bool_decide_eq_false_2 by done). rewrite bool_decide_eq_true_2 by done. cbn [app].
  unfold decodeStopFaults, unmarshal, p. cbn [valid_json map app member fst snd].
  rewrite (decode_field _ (field_at "duration_seconds" sf_DurationSeconds dec_float) _ _ _ _ (mkStopFaultsBody f ""));
    [|done|unfold field_at, snd; cbn [dec_float]; by rewrite Hp].
  rewrite (decode_field _ (field_at "status" sf_Status dec_string) _ _ _ _ (mkStopFaultsBody f "requested")) by done. done.
Qed.
End LifecycleProps.

(** ** Witnesses *)

Lemma no_violation_lost_witness :
  let d := Some (<["x"%string := Some (jint 3)]> ∅) : anymap in
  let calls := [(Assert.Always true "a" d, None); (Assert.EverSince true "led" None, None); (Assert.EverSince false "led" d, None);
                (Assert.AlwaysGreaterThan 1 2 "grows" None, Some (Assert.mkLocation "main.go" 7))] in
  Forall AssertProps.call_ok calls ∧
  vMessage <$> (parseAssertionOutput (file_content (Assert.file (Assert.run calls (Assert.init (Some [])))))).2 = ["led"; "grows"]%string.
Proof.
  intros d calls.
  assert (encodable d) as Hd.
  { intros m [= <-] k v [[<- <-]|[_ Hv]]%lookup_insert_Some; [|by rewrite lookup_empty in Hv].
    exists (jint 3). split_and!; [done|done|cbn; lia]. }
  assert (encodable None) as Hnone by (intros m [=]).
  assert (AssertProps.caller_ok None) as Hc by (intros ? [=]).
  assert (Forall AssertProps.call_ok calls) as Hok.
  { assert (AssertProps.caller_ok (Some (Assert.mkLocation "main.go" 7))) as Hc7
      by (intros loc [= <-]; unfold AssertProps.in_range, Assert.Line; lia).
    assert (∀ m, m ≠ EmptyString → AssertProps.message_ok m) as Hm by done.
    assert (AssertProps.api_ok (Assert.Always true "a" d)) by (split; [by apply Hm|assumption]).
    assert (AssertProps.api_ok (Assert.EverSince true "led" None)) by (split; [by apply Hm|assumption]).
    assert (AssertProps.api_ok (Assert.EverSince false "led" d)) by (split; [by apply Hm|assumption]).
    assert (AssertProps.api_ok (Assert.AlwaysGreaterThan 1 2 "grows" None)) by (split; [by apply Hm|split; [assumption|lia]]).
    unfold calls. do 4 (apply Forall_cons_2; [split; assumption|]). apply Forall_nil_2. }
  split; [exact Hok|]. rewrite (AssertProps.no_violation_lost calls Hok). vm_compute. reflexivity.
Defined.

Lemma SometimesEach_loses_keys_witness :
  message <$> (parseAssertionOutput (file_content (Assert.file (Assert.run
    ((λ k, (Assert.SometimesEach "leader" k None, None)) <$> ["n1"; "n2"; "n3"]%string) (Assert.init (Some [])))))).1 = ["leader:n1"%string].
Proof.
  refine (eq_trans (AssertProps.SometimesEach_loses_keys "leader" None None ["n1"; "n2"; "n3"]%string _ _ _) _).
  - intros m [=].
  - intros loc [=].
  - cbn. lia.
  - vm_compute. reflexivity.
Defined.

Lemma guidance_roundtrip_witness :
  parseGuidanceOutput (file_content (Guidance.file (foldl GuidanceProps.run_api (Guidance.mkState ∅ (Some []))
    [GuidanceProps.CTrackCounter "bytes" 5; GuidanceProps.CExplore "phase" 2; GuidanceProps.CTrackCounter "bytes" (-2)])))
  = [mkGuidance "maximize" "bytes" 5; mkGuidance "explore" "phase" 2; mkGuidance "maximize" "bytes" 3].
Proof.
  rewrite GuidanceProps.guidance_roundtrip; [vm_compute; reflexivity|].
  do 3 (apply Forall_cons_2; [split; [discriminate|try lia; exact I]|]). apply Forall_nil_2.
Defined.

Lemma later_overrides_ignored_witness :
  let s := Random.mkState (Some (Prng.New 7)) [] 1 0 None in
  (RandomProps.choices 7 [(5, Some (lit "[4,4]")); (5, Some (lit "[4,4]"))] s).1
  = (RandomProps.choices 7 [(5, None); (5, None)] s).1.
Proof.
  intros s. apply (f_equal fst). apply (RandomProps.later_overrides_ignored 7 [(5, Some (lit "[4,4]")); (5, Some (lit "[4,4]"))] s).
  cbn. lia.
Defined.

(** At position zero the file is read. *)
Example first_overrides_used :
  (RandomProps.choices 7 [(5, Some (lit "[4,3]")); (5, None)] (Random.mkState None [] 0 0 None)).1 = [4; 3].
Proof. vm_compute. reflexivity. Qed.
