(* ===== verification/Shrink.v ===== *)
(** * Shrinking a violation in the debugger ([internal/debugger/shrink.go])

    [ShrinkPath] searches the ancestry chain of the violating snapshot,
    [ShrinkFaults] minimises its fault schedule with delta debugging.  The
    oracle restores a machine and runs it, and the context may be cancelled at
    any time: both are parameters that act on a state of the world.  Durations
    and log lines are left out.  The loops take fuel; [None] is running out of
    it, or a panic on an index out of range. *)
From stdpp Require Import strings.
From S2P Require Import Prelude Word Float.
Local Open Scope Z_scope.

Record ShrinkResult := mkShrinkResult {
  OriginalPath : list Z; MinimalSnapshotID : Z; OriginalFaultCount : Z; MinimalFaultCount : Z; Rounds : Z }.

Record FaultEvent := mkFaultEvent { feStep : Z; feKind : string; feTarget : string; feParams : list (string * any) }.

(** [fmt.Errorf("shrink: empty path")], and [ErrShrinkOracle] wrapping the
    oracle's error. *)
Inductive ShrinkError := EmptyPath | ErrShrinkOracle (e : string).

Section shrink.
Context {W : Type}.
(** [ctx.Err() != nil]. *)
Context (ctx_Err : W → bool * W).

Definition add_round (r : ShrinkResult) : ShrinkResult :=
  mkShrinkResult (OriginalPath r) (MinimalSnapshotID r) (OriginalFaultCount r) (MinimalFaultCount r) (Rounds r + 1).

Definition set_minimal (r : ShrinkResult) (id : Z) : ShrinkResult :=
  mkShrinkResult (OriginalPath r) id (OriginalFaultCount r) (MinimalFaultCount r) (Rounds r).

Definition set_count (r : ShrinkResult) (n : nat) : ShrinkResult :=
  mkShrinkResult (OriginalPath r) (MinimalSnapshotID r) (OriginalFaultCount r) (Z.of_nat n) (Rounds r).

(** ** The path *)

Section path.
Context (oracle : W → Z → result string bool * W).

(** The binary search. *)
Fixpoint search_loop (fuel : nat) (path : list Z) (lo hi : nat) (r : ShrinkResult) (w : W)
    : option (ShrinkResult * W) :=
  match fuel with
  | O => None
  | S fuel =>
      if (lo <? hi)%nat then
        let '(stop, w) := ctx_Err w in
        if stop then Some (r, w)
        else
          let mid := ((lo + hi) / 2)%nat in
          match path !! mid with
          | None => None
          | Some id =>
              let '(a, w) := oracle w id in
              let r := add_round r in
              match a with
              | Err _ => search_loop fuel path (mid + 1) hi r w
              | Ok true => search_loop fuel path lo mid (set_minimal r id) w
              | Ok false => search_loop fuel path (mid + 1) hi r w
              end
          end
      else Some (r, w)
  end.

(** The result pointer and the error of the source. *)
Definition ShrinkPath (fuel : nat) (path : list Z) (w : W) : option (option ShrinkResult * option ShrinkError * W) :=
  match path with
  | [] => Some (None, Some EmptyPath, w)
  | [id] => Some (Some (mkShrinkResult path id 0 0 0), None, w)
  | _ =>
      match last path with
      | None => None
      | Some final =>
          let r := mkShrinkResult path final 0 0 0 in
          let '(a, w) := oracle w final in
          let r := add_round r in
          match a with
          | Err e => Some (Some r, Some (ErrShrinkOracle e), w)
          | Ok false => Some (Some r, None, w)
          | Ok true =>
              '(r, w) ← search_loop fuel path 0 (length path - 1) r w;
              Some (Some r, None, w)
          end
      end
  end.
End path.

(** ** The schedule *)

Section faults.
Context (oracle : W → Z → list FaultEvent → result string bool * W).

(** What a loop over candidate schedules ends with. *)
Inductive probe := Cancelled | Found (s : list FaultEvent) | NotFound.

(** The loops of [ddmin] that try the halves and the removals; the second
    skips empty candidates. *)
Fixpoint try_each (skip_empty : bool) (snap : Z) (cands : list (list FaultEvent)) (stats : ShrinkResult) (w : W)
    : probe * ShrinkResult * W :=
  match cands with
  | [] => (NotFound, stats, w)
  | s :: cands =>
      let '(stop, w) := ctx_Err w in
      if stop then (Cancelled, stats, w)
      else if skip_empty && (length s =? 0)%nat then try_each skip_empty snap cands stats w
      else
        let '(a, w) := oracle w snap s in
        let stats := add_round stats in
        match a with
        | Ok true => (Found s, stats, w)
        | Ok false | Err _ => try_each skip_empty snap cands stats w
        end
  end.

Definition halves (faults : list FaultEvent) : list (list FaultEvent) :=
  let half := (length faults / 2)%nat in [take half faults; drop half faults].

(** [append(faults[:i], faults[i+1:]...)] for every [i]. *)
Definition removals (faults : list FaultEvent) : list (list FaultEvent) :=
  imap (λ i _, take i faults ++ drop (S i) faults) faults.

Fixpoint ddmin (fuel : nat) (snap : Z) (faults : list FaultEvent) (stats : ShrinkResult) (w : W)
    : option (list FaultEvent * ShrinkResult * W) :=
  match fuel with
  | O => None
  | S fuel =>
      if (length faults =? 1)%nat then Some (faults, stats, w)
      else
        match try_each false snap (halves faults) stats w with
        | (Cancelled, stats, w) => Some (faults, stats, w)
        | (Found s, stats, w) => ddmin fuel snap s stats w
        | (NotFound, stats, w) =>
            match try_each true snap (removals faults) stats w with
            | (Cancelled, stats, w) => Some (faults, stats, w)
            | (Found s, stats, w) => ddmin fuel snap s stats w
            | (NotFound, stats, w) => Some (faults, stats, w)
            end
        end
  end.

Definition ShrinkFaults (fuel : nat) (baseSnapshot : Z) (faults : list FaultEvent) (w : W)
    : option (list FaultEvent * ShrinkResult * W) :=
  let r := mkShrinkResult [] baseSnapshot (Z.of_nat (length faults)) 0 0 in
  match faults with
  | [] => Some ([], r, w)
  | _ =>
      let '(a, w) := oracle w baseSnapshot faults in
      let r := add_round r in
      match a with
      | Ok true =>
          '(minimal, r, w) ← ddmin fuel baseSnapshot faults r w;
          Some (minimal, set_count r (length minimal), w)
      | Ok false | Err _ => Some (faults, set_count r (length faults), w)
      end
  end.
End faults.
End shrink.

(** ** The binary search *)

Lemma Z_log2_nat n : (0 < n)%nat → Z.log2 (Z.of_nat n) = Z.of_nat (Nat.log2 n).
Proof.
  intros Hn. pose proof (Nat.log2_spec n Hn) as [H1 H2]. apply Z.log2_unique; [lia|].
  rewrite <- Nat2Z.inj_succ. change 2 with (Z.of_nat 2). rewrite <- !Nat2Z.inj_pow. lia.
Qed.

Section path_props.
Context {W : Type} (ctx_Err : W → bool * W) (oracle : W → Z → result string bool * W).

(** The oracle confirmed the violation from a snapshot, or denied it (an error
    counts as a denial), on some call; the context was cancelled at some time. *)
Definition said_yes (id : Z) : Prop := ∃ w, (oracle w id).1 = Ok true.
Definition said_no (id : Z) : Prop := ∃ w, (oracle w id).1 ≠ Ok true.
Definition cancelled : Prop := ∃ w, (ctx_Err w).1 = true.

(** Halvings of an interval of [m] until it is empty. *)
Definition halvings (m : nat) : nat := if (m =? 0)%nat then 0 else S (Nat.log2 m).

Lemma halvings_half m m' : (0 < m)%nat → (m' ≤ m / 2)%nat → (S (halvings m') ≤ halvings m)%nat.
Proof.
  intros Hm Hm'. unfold halvings. destruct (Nat.eqb_spec m 0); [lia|].
  destruct (Nat.eqb_spec m' 0); [lia|].
  assert (m / 2 ≠ 0)%nat by lia. assert (2 ≤ m)%nat by (pose proof (Nat.div_le_lower_bound 1 2 1); destruct (decide (m = 1%nat)); [subst; by simpl in *|lia]).
  assert (Nat.log2 m = S (Nat.log2 (m / 2)))%nat as ->.
  { rewrite <- Nat.div2_div. rewrite (Nat.div2_odd m) at 1. pose proof (Nat.div2_div m).
    destruct (Nat.odd m); cbn [Nat.b2n]; [rewrite Nat.log2_succ_double|rewrite Nat.add_0_r, Nat.log2_double]; lia. }
  pose proof (Nat.log2_le_mono m' (m / 2) Hm'). lia.
Qed.

Lemma search_loop_spec fuel path : ∀ lo hi r w,
  (hi - lo < fuel)%nat → (lo ≤ hi)%nat → path !! hi = Some (MinimalSnapshotID r) →
  ∃ r' w' k, search_loop ctx_Err oracle fuel path lo hi r w = Some (r', w') ∧
    (lo ≤ k ≤ hi)%nat ∧ path !! k = Some (MinimalSnapshotID r') ∧
    (k = hi ∨ said_yes (MinimalSnapshotID r')) ∧
    (k = lo ∨ (∃ id, path !! (k - 1)%nat = Some id ∧ said_no id) ∨ cancelled) ∧
    Rounds r' ≤ Rounds r + Z.of_nat (halvings (hi - lo)) ∧ OriginalPath r' = OriginalPath r.
Proof.
  induction fuel as [|fuel IH]; intros lo hi r w Hf Hlh Hhi; [lia|]. cbn [search_loop].
  destruct (Nat.ltb_spec lo hi) as [Hlt|Hge].
  2: { exists r, w, hi. split_and!; auto; lia. }
  destruct (ctx_Err w) as [stop w1] eqn:Hstop. destruct stop.
  { exists r, w1, hi. split_and!; auto; try lia. right. right. exists w. by rewrite Hstop. }
  set (mid := ((lo + hi) / 2)%nat).
  assert (lo ≤ mid < hi)%nat as [Hm1 Hm2].
  { split; [apply Nat.div_le_lower_bound; lia|apply Nat.Div0.div_lt_upper_bound; lia]. }
  assert (mid - lo ≤ (hi - lo) / 2 ∧ hi - (mid + 1) ≤ (hi - lo) / 2)%nat as [Hh1 Hh2].
  { pose proof (Nat.div_mod (hi - lo) 2). pose proof (Nat.mod_upper_bound (hi - lo) 2).
    pose proof (Nat.div_mod (lo + hi) 2). pose proof (Nat.mod_upper_bound (lo + hi) 2). lia. }
  destruct (path !! mid) as [id|] eqn:Hid.
  2: { apply lookup_ge_None in Hid. apply lookup_lt_Some in Hhi. lia. }
  destruct (oracle w1 id) as [a w2] eqn:Ho.
  assert (∀ r2, path !! hi = Some (MinimalSnapshotID r2) → Rounds r2 = Rounds r + 1 → OriginalPath r2 = OriginalPath r →
    (oracle w1 id).1 ≠ Ok true →
    ∃ r' w' k, search_loop ctx_Err oracle fuel path (mid + 1) hi r2 w2 = Some (r', w') ∧
    (lo ≤ k ≤ hi)%nat ∧ path !! k = Some (MinimalSnapshotID r') ∧
    (k = hi ∨ said_yes (MinimalSnapshotID r')) ∧
    (k = lo ∨ (∃ id, path !! (k - 1)%nat = Some id ∧ said_no id) ∨ cancelled) ∧
    Rounds r' ≤ Rounds r + Z.of_nat (halvings (hi - lo)) ∧ OriginalPath r' = OriginalPath r) as Hright.
  { intros r2 H1 H2 H3 H4. destruct (IH (mid + 1)%nat hi r2 w2) as (r' & w' & k & E & Hk & Hkm & Hy & Hn & Hr & Hp); [lia|lia|done|].
    exists r', w', k. pose proof (halvings_half (hi - lo) (hi - (mid + 1)) ltac:(lia) Hh2).
    split_and!; try done; try lia; [|by rewrite Hp]. right. destruct Hn as [->|[Hn|Hn]]; [|by left|by right].
    left. exists id. replace (mid + 1 - 1)%nat with mid by lia. split; [done|]. by exists w1. }
  destruct a as [[|]|e].
  - destruct (IH lo mid (set_minimal (add_round r) id) w2) as (r' & w' & k & E & Hk & Hkm & Hy & Hn & Hr & Hp); [lia|lia|done|].
    exists r', w', k. pose proof (halvings_half (hi - lo) (mid - lo) ltac:(lia) Hh1).
    cbn [Rounds set_minimal add_round OriginalPath] in *.
    split_and!; try done; try lia. right. destruct Hy as [->|Hy]; [|done].
    rewrite Hid in Hkm. injection Hkm as <-. exists w1. by rewrite Ho.
  - apply Hright; [done|done|done|by rewrite Ho].
  - apply Hright; [done|done|done|by rewrite Ho].
Qed.

(** On every nonempty ancestry chain [ShrinkPath] ends, whatever the
    oracle and the context do, after at most log2(depth) + 2 oracle calls.  Its
    snapshot is on the chain; unless it is the violating snapshot itself, the
    oracle confirmed it; and unless it is the root of the chain, the oracle
    denied the one before it or the search was cancelled (or the violating
    snapshot was not confirmed at all).  When the oracle is a function of the
    snapshot that stays true down the chain, the result is the earliest snapshot
    that reproduces the violation. *)
Theorem ShrinkPath_earliest (path : list Z) (w : W) (Hne : path ≠ []) :
  ∃ r e w' k, ShrinkPath ctx_Err oracle (length path) path w = Some (Some r, e, w') ∧
    path !! k = Some (MinimalSnapshotID r) ∧ Rounds r ≤ 2 + Z.log2 (Z.of_nat (length path)) ∧
    (S k = length path ∨ said_yes (MinimalSnapshotID r)) ∧
    (k = 0%nat ∨ (∃ id, path !! (k - 1)%nat = Some id ∧ said_no id) ∨ cancelled ∨
     (∃ id, last path = Some id ∧ said_no id)) ∧
    (∀ f, (∀ v id, (oracle v id).1 = Ok (f id)) → (∀ v, (ctx_Err v).1 = false) →
      (∀ i j x y, (i ≤ j)%nat → path !! i = Some x → path !! j = Some y → f x = true → f y = true) →
      ∀ i x, (i < k)%nat → path !! i = Some x → f x = false).
Proof.
  assert (0 ≤ Z.log2 (Z.of_nat (length path))) as Hlog by apply Z.log2_nonneg.
  destruct path as [|x [|y path]]; [done| |].
  { exists (mkShrinkResult [x] x 0 0 0), None, w, 0%nat. split_and!; auto; [cbn [Rounds]; lia|intros; lia]. }
  unfold ShrinkPath. set (p := x :: y :: path) in *.
  destruct (last p) as [final|] eqn:Hl; [|by apply last_None in Hl].
  assert (p !! (length p - 1)%nat = Some final) as Hfin by (by rewrite Nat.sub_1_r, <- last_lookup).
  assert (S (length p - 1) = length p) as Hlen by (simpl; lia).
  destruct (oracle w final) as [a w1] eqn:Ho. set (r0 := add_round (mkShrinkResult p final 0 0 0)).
  assert (∀ id i z, p !! i = Some z → (i < length p - 1)%nat → id = final → (oracle w final).1 ≠ Ok true →
    ∀ f, (∀ v id, (oracle v id).1 = Ok (f id)) →
      (∀ i j x y, (i ≤ j)%nat → p !! i = Some x → p !! j = Some y → f x = true → f y = true) → f z = false) as Hdet.
  { intros id i z Hz Hi -> Ha f Hf Hmono. destruct (f z) eqn:E; [|done]. rewrite Hf in Ha.
    rewrite (Hmono i (length p - 1)%nat z final) in Ha; [done|lia|done|done|done]. }
  destruct a as [[|]|e].
  - destruct (search_loop_spec (length p) p 0 (length p - 1) r0 w1) as (r & w' & k & E & Hk & Hkm & Hy & Hn & Hr & _);
      [lia|lia|done|].
    rewrite E. exists r, None, w', k.
    assert (Rounds r ≤ 2 + Z.log2 (Z.of_nat (length p))) as Hrounds.
    { unfold halvings in Hr. unfold r0 in Hr; cbn [Rounds add_round] in Hr. destruct (Nat.eqb_spec (length p - 1 - 0) 0); [lia|].
      pose proof (Nat.log2_le_mono (length p - 1 - 0) (length p) ltac:(lia)).
      assert (Z.log2 (Z.of_nat (length p)) = Z.of_nat (Nat.log2 (length p))) as ->; [|lia].
      apply Z_log2_nat. lia. }
    split_and!; [done|done|done| | |].
    + destruct Hy as [->|Hy]; [left; lia|by right].
    + destruct Hn as [->|[Hn|Hn]]; auto.
    + intros f Hf Hstop Hmono i z Hi Hz. destruct Hn as [->|[(id & Hid & v & Hv)|[v Hv]]]; [lia| |by rewrite Hstop in Hv].
      destruct (f z) eqn:Ez; [|done]. rewrite Hf in Hv.
      rewrite (Hmono i (k - 1)%nat z id) in Hv; [done|lia|done|done|done].
  - exists r0, None, w1, (length p - 1)%nat. split_and!; [done|done|unfold r0; cbn [Rounds add_round]; lia|by left| |].
    + right. right. right. exists final. split; [done|]. exists w. by rewrite Ho.
    + intros f Hf _ Hmono i z Hi Hz. by apply (Hdet final i z Hz Hi eq_refl ltac:(by rewrite Ho) f).
  - exists r0, (Some (ErrShrinkOracle e)), w1, (length p - 1)%nat. split_and!; [done|done|unfold r0; cbn [Rounds add_round]; lia|by left| |].
    + right. right. right. exists final. split; [done|]. exists w. by rewrite Ho.
    + intros f Hf _ Hmono i z Hi Hz. by apply (Hdet final i z Hz Hi eq_refl ltac:(by rewrite Ho) f).
Qed.
End path_props.

(** ** Delta debugging *)

Section faults_props.
Context {W : Type} (ctx_Err : W → bool * W) (oracle : W → Z → list FaultEvent → result string bool * W).

Definition confirmed (snap : Z) (s : list FaultEvent) : Prop := ∃ w, (oracle w snap s).1 = Ok true.
Definition denied (snap : Z) (s : list FaultEvent) : Prop := ∃ w, (oracle w snap s).1 ≠ Ok true.

(** Only the number of oracle calls changes. *)
Definition counted (st st' : ShrinkResult) (n : nat) : Prop :=
  ∃ k, 0 ≤ k ≤ Z.of_nat n ∧
    st' = mkShrinkResult (OriginalPath st) (MinimalSnapshotID st) (OriginalFaultCount st) (MinimalFaultCount st) (Rounds st + k).

Lemma counted_refl st n : counted st st n.
Proof. exists 0. split; [lia|]. destruct st. simpl. f_equal. lia. Qed.

Lemma counted_trans st1 st2 st3 n m : counted st1 st2 n → counted st2 st3 m → counted st1 st3 (n + m).
Proof. intros (k & Hk & ->) (j & Hj & ->). exists (k + j). split; [lia|]. simpl. f_equal. lia. Qed.

Lemma counted_le st st' n m : (n ≤ m)%nat → counted st st' n → counted st st' m.
Proof. intros Hnm (k & Hk & ->). exists k. split; [lia|done]. Qed.

Lemma counted_round st : counted st (add_round st) 1.
Proof. exists 1. by split; [lia|]. Qed.

Lemma try_each_spec skip snap cands : ∀ st w,
  let '(pr, st', w') := try_each ctx_Err oracle skip snap cands st w in
  counted st st' (length cands) ∧
  match pr with
  | Cancelled => cancelled ctx_Err
  | Found s => s ∈ cands ∧ confirmed snap s ∧ (skip = true → s ≠ [])
  | NotFound => ∀ s, s ∈ cands → (skip = true → s ≠ []) → denied snap s
  end.
Proof.
  induction cands as [|s cands IH]; intros st w; cbn [try_each].
  { split; [apply counted_refl|]. by intros s ?%elem_of_nil. }
  destruct (ctx_Err w) as [stop w1] eqn:Hc. destruct stop.
  { split; [apply counted_refl|]. exists w. by rewrite Hc. }
  destruct (skip && (length s =? 0)%nat) eqn:Hs.
  { specialize (IH st w1). destruct (try_each _ _ _ _ _ _ _) as [[pr st'] w']. destruct IH as [Hn IH].
    apply andb_true_iff in Hs as [-> Hs]. apply Nat.eqb_eq in Hs. split; [by eapply counted_le; [|done]; simpl; lia|].
    destruct pr; [done|destruct IH as (? & ? & ?); split_and!; [by right|done|done]|].
    intros s' [->|Hs']%elem_of_cons Hne; [|by apply IH]. by destruct s; [destruct Hne|]. }
  assert (skip = true → s ≠ []) as Hne by (intros -> ->; done).
  destruct (oracle w1 snap s) as [a w2] eqn:Ho.
  specialize (IH (add_round st) w2). destruct (try_each _ _ _ _ _ _ _) as [[pr st'] w']. destruct IH as [Hn IH].
  pose proof (counted_trans _ _ _ _ _ (counted_round st) Hn) as Hn'.
  assert ((oracle w1 snap s).1 ≠ Ok true → counted st st' (length (s :: cands)) ∧ match pr with
    | Cancelled => cancelled ctx_Err
    | Found s' => s' ∈ s :: cands ∧ confirmed snap s' ∧ (skip = true → s' ≠ [])
    | NotFound => ∀ s', s' ∈ s :: cands → (skip = true → s' ≠ []) → denied snap s' end) as Hrest.
  { intros Ha. split; [done|]. destruct pr; [done|destruct IH as (? & ? & ?); split_and!; [by right|done|done]|].
    intros s' [->|Hs']%elem_of_cons ?; [by exists w1|by apply IH]. }
  destruct a as [[|]|e]; [|by apply Hrest; rewrite Ho..].
  split; [by eapply counted_le; [|apply counted_round]; simpl; lia|].
  split_and!; [by left|exists w1; by rewrite Ho|done].
Qed.

Lemma halves_sublist faults s :
  (1 < length faults)%nat → s ∈ halves faults → s `sublist_of` faults ∧ s ≠ [] ∧ (length s < length faults)%nat.
Proof.
  intros Hn Hs. unfold halves in Hs.
  assert (0 < length faults / 2 < length faults)%nat as [H1 H2].
  { split; [apply Nat.div_str_pos; lia|apply Nat.div_lt; lia]. }
  apply elem_of_cons in Hs as [->|[->|Hs%elem_of_nil]%elem_of_cons]; [| |done].
  - split_and!; [apply sublist_take| |rewrite length_take; lia].
    intros E%(f_equal length). rewrite length_take in E. cbn [length] in E. lia.
  - split_and!; [apply sublist_drop| |rewrite length_drop; lia].
    intros E%(f_equal length). rewrite length_drop in E. cbn [length] in E. lia.
Qed.

Lemma elem_of_removals faults s :
  s ∈ removals faults ↔ ∃ i, (i < length faults)%nat ∧ s = delete i faults.
Proof.
  unfold removals. rewrite elem_of_lookup_imap. split.
  - intros (i & x & -> & Hx). exists i. split; [by eapply lookup_lt_Some|]. by rewrite delete_take_drop.
  - intros (i & [x Hx]%lookup_lt_is_Some & ->). exists i, x. by rewrite delete_take_drop.
Qed.

Lemma removals_sublist faults s :
  s ∈ removals faults → s `sublist_of` faults ∧ length faults = S (length s).
Proof.
  intros (i & Hi & ->)%elem_of_removals. split; [apply sublist_delete|].
  apply lookup_lt_is_Some in Hi as Hs. pose proof (length_delete faults i Hs). lia.
Qed.

(** The schedule cannot be shortened by one entry. *)
Definition one_minimal (snap : Z) (r : list FaultEvent) : Prop :=
  ∀ i, (i < length r)%nat → denied snap (delete i r).

(** What [ddmin] ends with on a schedule. *)
Definition minimised (snap : Z) (faults : list FaultEvent) (st : ShrinkResult)
    (out : option (list FaultEvent * ShrinkResult * W)) : Prop :=
  ∃ r st' w', out = Some (r, st', w') ∧
    r `sublist_of` faults ∧ r ≠ [] ∧ (r = faults ∨ confirmed snap r) ∧
    (length r = 1%nat ∨ cancelled ctx_Err ∨ one_minimal snap r ∧ ∀ s, s ∈ halves r → denied snap s) ∧
    counted st st' (length faults * (length faults + 2)).

Lemma minimised_shorter snap faults s st st1 out :
  s `sublist_of` faults → (length s < length faults)%nat → confirmed snap s →
  counted st st1 (length faults + 2) → minimised snap s st1 out → minimised snap faults st out.
Proof.
  intros Hsub Hl Hc Hn (r & st2 & w2 & E & Hr & Hner & Hcr & Hm & Hn2).
  exists r, st2, w2. split_and!; [done|by trans s|done| |done|].
  - right. by destruct Hcr as [->|].
  - eapply counted_le; [|by eapply counted_trans]. nia.
Qed.

Lemma ddmin_spec fuel snap : ∀ faults st w,
  faults ≠ [] → (length faults ≤ fuel)%nat →
  minimised snap faults st (ddmin ctx_Err oracle fuel snap faults st w).
Proof.
  induction fuel as [|fuel IH]; intros faults st w Hne Hf; [destruct faults; [done|simpl in Hf; lia]|].
  cbn [ddmin]. destruct (Nat.eqb_spec (length faults) 1) as [H1|H1].
  { exists faults, st, w. split_and!; auto using counted_refl. }
  assert (1 < length faults)%nat as Hlen by (destruct faults as [|? [|? ?]]; simpl in *; lia || done).
  pose proof (try_each_spec false snap (halves faults) st w) as Hh.
  destruct (try_each ctx_Err oracle false snap (halves faults) st w) as [[pr st1] w1]. destruct Hh as [Hn1 Hh].
  assert (counted st st1 (length faults + 2)) as Hn1' by (eapply counted_le; [|done]; simpl; lia).
  destruct pr as [|s|].
  - exists faults, st1, w1. split_and!; auto. eapply counted_le; [|done]. nia.
  - destruct Hh as (Hs & Hc & _). destruct (halves_sublist faults s Hlen Hs) as (? & ? & ?).
    apply (minimised_shorter snap faults s st st1); [done|done|done|done|]. apply IH; [done|lia].
  - pose proof (try_each_spec true snap (removals faults) st1 w1) as Hr.
    destruct (try_each ctx_Err oracle true snap (removals faults) st1 w1) as [[pr st2] w2]. destruct Hr as [Hn2 Hr].
    unfold removals in Hn2 at 1. rewrite length_imap in Hn2.
    assert (counted st st2 (length faults + 2)) as Hn2'.
    { pose proof (counted_trans _ _ _ _ _ Hn1 Hn2) as Hn. change (length (halves faults)) with 2%nat in Hn.
      eapply counted_le; [|exact Hn]. lia. }
    assert (counted st st2 (length faults * (length faults + 2))) by (eapply counted_le; [|done]; nia).
    destruct pr as [|s|].
    + exists faults, st2, w2. split_and!; auto.
    + destruct Hr as (Hs & Hc & Hnes). destruct (removals_sublist faults s Hs) as [? ?].
      apply (minimised_shorter snap faults s st st2); [done|lia|done|done|]. apply IH; [by apply Hnes|lia].
    + exists faults, st2, w2. split_and!; auto. right. right. split.
      * intros i Hi. apply Hr; [apply elem_of_removals; by exists i|]. intros _ E%(f_equal length).
        apply lookup_lt_is_Some in Hi. rewrite (length_delete faults i Hi) in E. cbn [length] in E. lia.
      * intros s Hs. by apply Hh.
Qed.

(** C28: [ShrinkFaults] ends on every schedule, whatever the oracle and the
    context do, within n (n + 2) + 1 oracle calls.  What it returns is a
    subsequence of the schedule, confirmed by the oracle unless it is the whole
    schedule, and the counts of the result are its lengths.  Unless it was
    cancelled or the whole schedule was not confirmed, no shorter schedule that
    leaves out one entry was confirmed, or one entry is left. *)
Theorem ShrinkFaults_one_minimal (snap : Z) (faults : list FaultEvent) (w : W) :
  ∃ r st w', ShrinkFaults ctx_Err oracle (length faults) snap faults w = Some (r, st, w') ∧
    r `sublist_of` faults ∧ (r = faults ∨ confirmed snap r) ∧
    ((length r ≤ 1)%nat ∨ cancelled ctx_Err ∨ one_minimal snap r ∨ r = faults ∧ denied snap faults) ∧
    OriginalFaultCount st = Z.of_nat (length faults) ∧ MinimalFaultCount st = Z.of_nat (length r) ∧
    MinimalSnapshotID st = snap ∧ 0 ≤ Rounds st ≤ Z.of_nat (length faults * (length faults + 2)) + 1.
Proof.
  unfold ShrinkFaults. destruct faults as [|x faults].
  { exists [], (mkShrinkResult [] snap 0 0 0), w. split_and!; auto; simpl; lia. }
  set (fs := x :: faults). destruct (oracle w snap fs) as [a w1] eqn:Ho. set (r0 := add_round _).
  assert (counted r0 r0 (length fs * (length fs + 2))) as H0 by apply counted_refl.
  assert ((oracle w snap fs).1 ≠ Ok true → denied snap fs) as Hd by (intros; by exists w).
  assert (1 ≤ length fs)%nat by (simpl; lia).
  destruct a as [[|]|e].
  - destruct (ddmin_spec (length fs) snap fs r0 w1) as (r & st & w2 & E & Hs & Hne & Hc & Hm & k & Hk & ->); [done|lia|].
    rewrite E. eexists r, _, w2. split; [done|]. cbn [set_count OriginalFaultCount MinimalFaultCount MinimalSnapshotID Rounds].
    unfold r0. cbn [add_round OriginalFaultCount MinimalFaultCount MinimalSnapshotID Rounds].
    split_and!; [done|done| |done|done|done|lia|lia].
    destruct Hm as [->|[Hm|[Hm _]]]; [by left|by right; left|by right; right; left].
  - eexists fs, _, w1. split; [done|]. unfold r0. cbn [set_count add_round OriginalFaultCount MinimalFaultCount MinimalSnapshotID Rounds].
    split_and!; auto; [|lia..]. right. right. right. split; [done|]. apply Hd. by rewrite Ho.
  - eexists fs, _, w1. split; [done|]. unfold r0. cbn [set_count add_round OriginalFaultCount MinimalFaultCount MinimalSnapshotID Rounds].
    split_and!; auto; [|lia..]. right. right. right. split; [done|]. apply Hd. by rewrite Ho.
Qed.
End faults_props.

(** ** Examples *)

Definition never_cancelled (w : unit) : bool * unit := (false, w).

(** An oracle that is a function of what it is asked. *)
Definition path_oracle (f : Z → bool) (w : unit) (id : Z) : result string bool * unit := (Ok (f id), w).
Definition fault_oracle (f : list FaultEvent → bool) (w : unit) (snap : Z) (fs : list FaultEvent)
    : result string bool * unit := (Ok (f fs), w).

Example ShrinkPath_demo :
  match ShrinkPath never_cancelled (path_oracle (λ id, 30 <=? id)) 6 [10; 20; 30; 40; 50; 60] () with
  | Some (Some r, None, _) => MinimalSnapshotID r = 30 ∧ Rounds r = 3
  | _ => False
  end.
Proof. by vm_compute. Qed.

Lemma ShrinkPath_earliest_witness :
  ∃ r e w', ShrinkPath never_cancelled (path_oracle (λ id, 30 <=? id)) 4 [10; 20; 30; 40] () = Some (Some r, e, w') ∧
    MinimalSnapshotID r ∈ [10; 20; 30; 40].
Proof.
  destruct (ShrinkPath_earliest never_cancelled (path_oracle (λ id, 30 <=? id)) [10; 20; 30; 40] () ltac:(discriminate))
    as (r & e & w' & k & H1 & H2 & _).
  exists r, e, w'. split; [exact H1|]. by eapply list_elem_of_lookup_2.
Defined.

Definition demo_fault (n : Z) : FaultEvent := mkFaultEvent n "drop" "node0" [].

(** The faults at steps 1 and 3 reproduce the violation together with all the
    others, or alone; no half and no schedule of three does. *)
Definition demo_pair (fs : list FaultEvent) : bool :=
  bool_decide (map feStep fs = [1; 2; 3; 4]) || bool_decide (map feStep fs = [1; 3]).

(** One-minimal is all it is: a proper subset of the result may reproduce. *)
Lemma ShrinkFaults_not_minimal :
  let fs := map demo_fault [1; 2; 3; 4] in
  match ShrinkFaults never_cancelled (fault_oracle demo_pair) 4 0 fs () with
  | Some (r, _, _) => r = fs
  | None => False
  end ∧
  ∃ s, s `sublist_of` fs ∧ s ≠ fs ∧ demo_pair s = true.
Proof.
  cbv zeta. split; [by vm_compute|]. exists (map demo_fault [1; 3]).
  split_and!; [|done|by vm_compute]. simpl. repeat constructor.
Qed.
