(* ===== verification/Ddmin.v ===== *)
(** * Shrinking a recorded violation ([internal/orchestrator/shrink.go])

    The three phases: delta debugging of the fault schedule, seed mutation,
    step reduction.  A replay boots a machine and runs it: it is a parameter that
    acts on a state of the world, and so is the context, which may be cancelled
    at any time.  The progress callback, log lines and temporary files are left
    out; writing the minimal schedule is a parameter.

    A Go slice of the schedule is its elements with the offset of its first
    element in the backing array: [setMinus] compares addresses of elements. *)
From stdpp Require Import strings.
From S2P Require Import Prelude Word Float Prng Fault Schedule.
Local Open Scope Z_scope.

Record Slice := mkSlice { sl_off : nat; sl_elems : list ScheduleEntry }.

(** A slice that owns its backing array. *)
Definition fresh_slice (es : list ScheduleEntry) : Slice := mkSlice 0 es.

Definition slice_len (s : Slice) : nat := length (sl_elems s).

(** [s[i:j]]. *)
Definition subslice (s : Slice) (i j : nat) : Slice := mkSlice (sl_off s + i) (take (j - i) (drop i (sl_elems s))).

(** The loop of [partition] from part [p] and index [i] on, for [parts] parts. *)
Fixpoint partition_loop (parts p i size remainder : nat) (entries : Slice) : list Slice :=
  match parts with
  | O => []
  | S parts =>
      let chunkSize := (size + if (p <? remainder)%nat then 1 else 0)%nat in
      if (chunkSize =? 0)%nat then []
      else subslice entries i (i + chunkSize) :: partition_loop parts (S p) (i + chunkSize) size remainder entries
  end.

(** With no entries the source divides by zero; [ddmin] never calls it so. *)
Definition partition (entries : Slice) (n : nat) : list Slice :=
  let n := if (slice_len entries <? n)%nat then slice_len entries else n in
  partition_loop n 0 0 (slice_len entries / n) (slice_len entries mod n) entries.

(** [b] is a subslice of [a]: [&a[i] == &b[0]] when the offsets agree. *)
Definition setMinus (a b : Slice) : Slice :=
  if (slice_len b =? 0)%nat then a
  else
    match find_index (λ i, (sl_off a + i =? sl_off b)%nat) (seq 0 (slice_len a)) with
    | None => a
    | Some start => fresh_slice (take start (sl_elems a) ++ drop (start + slice_len b) (sl_elems a))
    end.

Section ddmin.
Context {W : Type}.
Context (ctx_Err : W → bool * W) (testFn : list ScheduleEntry → W → result string bool * W).

(** The loops over the subsets and over the complements: the first candidate
    that triggers the violation.  The second skips empty ones. *)
Fixpoint first_triggering (skip_empty : bool) (cands : list Slice) (w : W) : option Slice * W :=
  match cands with
  | [] => (None, w)
  | s :: cands =>
      if skip_empty && (slice_len s =? 0)%nat then first_triggering skip_empty cands w
      else
        let '(a, w) := testFn (sl_elems s) w in
        match a with
        | Ok true => (Some s, w)
        | Ok false | Err _ => first_triggering skip_empty cands w
        end
  end.

Fixpoint ddmin_loop (fuel n : nat) (entries : Slice) (w : W) : option (Slice * W) :=
  match fuel with
  | O => None
  | S fuel =>
      if (1 <? slice_len entries)%nat then
        let '(stop, w) := ctx_Err w in
        if stop then Some (entries, w)
        else
          let subsets := partition entries n in
          match first_triggering false subsets w with
          | (Some s, w) => ddmin_loop fuel 2 s w
          | (None, w) =>
              match first_triggering true (map (setMinus entries) subsets) w with
              | (Some complement, w) => ddmin_loop fuel (Nat.max (n - 1) 2) complement w
              | (None, w) =>
                  if (slice_len entries <=? n)%nat then Some (entries, w)
                  else ddmin_loop fuel (Nat.min (n * 2) (slice_len entries)) entries w
              end
          end
      else Some (entries, w)
  end.

Definition ddmin (fuel : nat) (entries : list ScheduleEntry) (w : W) : option (list ScheduleEntry * W) :=
  '(s, w) ← ddmin_loop fuel 2 (fresh_slice entries) w; Some (sl_elems s, w).

End ddmin.

(** ** Partitions *)

Lemma subslice_len s i j : (i ≤ j ≤ slice_len s)%nat → slice_len (subslice s i j) = (j - i)%nat.
Proof. unfold slice_len, subslice. simpl. rewrite length_take, length_drop. lia. Qed.

(** A chunk of a slice: a nonempty subslice between two indices. *)
Definition chunk_of (e c : Slice) (m : nat) : Prop :=
  ∃ i j, c = subslice e i j ∧ (i < j ≤ slice_len e)%nat ∧ (j - i ≤ m)%nat.

Lemma partition_loop_spec e size remainder parts : ∀ p i c,
  (i + parts * size + Nat.min parts (remainder - p) ≤ slice_len e)%nat →
  c ∈ partition_loop parts p i size remainder e →
  chunk_of e c (size + if (0 <? remainder)%nat then 1 else 0).
Proof.
  induction parts as [|parts IH]; intros p i c Hi Hc; cbn [partition_loop] in Hc; [by apply elem_of_nil in Hc|].
  set (k := (size + if (p <? remainder)%nat then 1 else 0)%nat) in *.
  destruct (Nat.eqb_spec k 0); [by apply elem_of_nil in Hc|].
  assert (k ≤ size + if (0 <? remainder)%nat then 1 else 0)%nat.
  { unfold k. destruct (Nat.ltb_spec p remainder), (Nat.ltb_spec 0 remainder); lia. }
  apply elem_of_cons in Hc as [->|Hc].
  - exists i, (i + k)%nat. split_and!; [done|lia| |lia].
    unfold k in *. destruct (Nat.ltb_spec p remainder); lia.
  - apply (IH (S p) (i + k)%nat c); [|done]. unfold k in *. destruct (Nat.ltb_spec p remainder); lia.
Qed.

Lemma partition_loop_singletons e parts : ∀ p i,
  partition_loop parts p i 1 0 e = map (λ k, subslice e k (S k)) (seq i parts).
Proof.
  induction parts as [|parts IH]; intros p i; [done|]. cbn [partition_loop seq map]. simpl.
  rewrite Nat.add_1_r. by f_equal.
Qed.

(** Chunks of a partition in at least two parts are nonempty and proper. *)
Lemma partition_chunks e n c :
  (1 < slice_len e)%nat → (2 ≤ n)%nat → c ∈ partition e n → chunk_of e c (slice_len e - 1).
Proof.
  intros Hl Hn Hc. unfold partition in Hc. set (m := if (slice_len e <? n)%nat then _ else _) in Hc.
  assert (2 ≤ m ≤ slice_len e)%nat as Hm by (unfold m; destruct (Nat.ltb_spec (slice_len e) n); lia).
  pose proof (Nat.div_mod (slice_len e) m). pose proof (Nat.mod_upper_bound (slice_len e) m).
  apply partition_loop_spec in Hc as (i & j & -> & Hij & Hle); [|lia].
  exists i, j. split_and!; [done|lia|lia|]. destruct (Nat.ltb_spec 0 (slice_len e mod m)); nia.
Qed.

Lemma partition_singletons e n :
  (1 < slice_len e ≤ n)%nat → partition e n = map (λ k, subslice e k (S k)) (seq 0 (slice_len e)).
Proof.
  intros Hl. unfold partition. set (m := if (slice_len e <? n)%nat then _ else _).
  assert (m = slice_len e) as -> by (unfold m; destruct (Nat.ltb_spec (slice_len e) n); lia).
  rewrite Nat.div_same, Nat.Div0.mod_same by lia. apply partition_loop_singletons.
Qed.

Lemma setMinus_subslice e i j :
  (i < j ≤ slice_len e)%nat → setMinus e (subslice e i j) = fresh_slice (take i (sl_elems e) ++ drop j (sl_elems e)).
Proof.
  intros Hij. unfold setMinus. rewrite subslice_len by lia. destruct (Nat.eqb_spec (j - i) 0); [lia|].
  assert (find_index (λ k, (sl_off e + k =? sl_off (subslice e i j))%nat) (seq 0 (slice_len e)) = Some i) as ->.
  { apply find_index_Some. exists i. split_and!.
    - apply lookup_seq. lia.
    - by apply Nat.eqb_eq.
    - intros k x Hk Hx. apply lookup_seq in Hx as [-> _]. apply Nat.eqb_neq. cbn [subslice sl_off]. lia. }
  by replace (i + (j - i))%nat with j by lia.
Qed.

Lemma chunk_sublist e c m :
  chunk_of e c m → sl_elems c `sublist_of` sl_elems e ∧ (0 < slice_len c ≤ m)%nat.
Proof.
  intros (i & j & -> & Hij & Hm). split; [|rewrite subslice_len; lia].
  simpl. etrans; [apply sublist_take|apply sublist_drop].
Qed.

Lemma setMinus_sublist e c m :
  chunk_of e c m → sl_elems (setMinus e c) `sublist_of` sl_elems e ∧ (slice_len (setMinus e c) < slice_len e)%nat.
Proof.
  intros (i & j & -> & Hij & _). rewrite setMinus_subslice by lia. unfold slice_len in *. cbn [fresh_slice sl_elems]. split.
  - rewrite <- (take_drop i (sl_elems e)) at 3. apply sublist_app; [done|].
    replace j with (i + (j - i))%nat by lia. rewrite <- drop_drop. apply sublist_drop.
  - rewrite length_app, length_take, length_drop. lia.
Qed.

(** ** Delta debugging *)

Section ddmin_props.
Context {W : Type}.
Context (ctx_Err : W → bool * W) (testFn : list ScheduleEntry → W → result string bool * W).

(** Some call answered that the schedule triggers the violation, or did not
    (an error counts as not); the context was cancelled at some time. *)
Definition triggers (s : list ScheduleEntry) : Prop := ∃ w, (testFn s w).1 = Ok true.
Definition fails (s : list ScheduleEntry) : Prop := ∃ w, (testFn s w).1 ≠ Ok true.
Definition cancelled : Prop := ∃ w, (ctx_Err w).1 = true.

Lemma first_triggering_spec skip cands : ∀ w,
  let '(o, w') := first_triggering testFn skip cands w in
  match o with
  | Some s => s ∈ cands ∧ triggers (sl_elems s)
  | None => ∀ s, s ∈ cands → (skip = true → slice_len s ≠ 0%nat) → fails (sl_elems s)
  end.
Proof.
  induction cands as [|s cands IH]; intros w; cbn [first_triggering]; [by intros s ?%elem_of_nil|].
  destruct (skip && (slice_len s =? 0)%nat) eqn:Hs.
  { specialize (IH w). destruct (first_triggering _ _ _ _) as [[s'|] w']; [destruct IH; split; [by right|done]|].
    apply andb_true_iff in Hs as [-> Hs]. apply Nat.eqb_eq in Hs.
    intros s' [->|Hs']%elem_of_cons Hne; [by destruct Hne|by apply IH]. }
  destruct (testFn (sl_elems s) w) as [a w1] eqn:Ht. specialize (IH w1).
  assert ((testFn (sl_elems s) w).1 ≠ Ok true → let '(o, w') := first_triggering testFn skip cands w1 in
    match o with
    | Some s' => s' ∈ s :: cands ∧ triggers (sl_elems s')
    | None => ∀ s', s' ∈ s :: cands → (skip = true → slice_len s' ≠ 0%nat) → fails (sl_elems s')
    end) as Hrest.
  { intros Ha. destruct (first_triggering _ _ _ _) as [[s'|] w']; [destruct IH; split; [by right|done]|].
    intros s' [->|Hs']%elem_of_cons Hne; [by exists w|by apply IH]. }
  destruct a as [[|]|e]; [|by apply Hrest; rewrite Ht..].
  split; [by left|]. exists w. by rewrite Ht.
Qed.

(** No entry can be left out, and none triggers alone. *)
Definition one_minimal (r : list ScheduleEntry) : Prop :=
  (∀ i, (i < length r)%nat → fails (delete i r)) ∧ ∀ x, x ∈ r → fails [x].

(** Fuel: the entries left, and the granularity steps left at this length. *)
Definition ddmin_fuel (len n : nat) : nat := S (len * (len + 1) + (len - n)).

Definition minimised (e : Slice) (out : option (Slice * W)) : Prop :=
  ∃ r w', out = Some (r, w') ∧ sl_elems r `sublist_of` sl_elems e ∧
    (sl_elems r = sl_elems e ∨ triggers (sl_elems r)) ∧ (slice_len e ≠ 0%nat → slice_len r ≠ 0%nat) ∧
    ((slice_len r ≤ 1)%nat ∨ cancelled ∨ one_minimal (sl_elems r)).

Lemma minimised_subslice e s out :
  sl_elems s `sublist_of` sl_elems e → triggers (sl_elems s) → slice_len s ≠ 0%nat →
  minimised s out → minimised e out.
Proof.
  intros Hsub Ht Hne (r & w' & -> & Hr & Hrt & Hrne & Hm).
  exists r, w'. split_and!; [done|by trans (sl_elems s)| |auto|done]. right. by destruct Hrt as [->|].
Qed.

Lemma one_minimal_at_end e n :
  (1 < slice_len e ≤ n)%nat →
  (∀ s, s ∈ partition e n → fails (sl_elems s)) →
  (∀ s, s ∈ map (setMinus e) (partition e n) → slice_len s ≠ 0%nat → fails (sl_elems s)) →
  one_minimal (sl_elems e).
Proof.
  intros Hl. rewrite partition_singletons by done. intros H1 H2. split.
  - intros i Hi. specialize (H2 (setMinus e (subslice e i (S i)))).
    rewrite setMinus_subslice in H2 by (unfold slice_len in *; lia).
    rewrite delete_take_drop. apply H2.
    + rewrite map_map. apply list_elem_of_fmap. exists i. split; [|apply elem_of_seq; unfold slice_len in *; lia].
      rewrite setMinus_subslice; [done|unfold slice_len in *; lia].
    + unfold slice_len in *. cbn [fresh_slice sl_elems]. rewrite length_app, length_take, length_drop. lia.
  - intros x [i Hx]%list_elem_of_lookup. pose proof (lookup_lt_Some _ _ _ Hx) as Hi.
    specialize (H1 (subslice e i (S i))). replace [x] with (sl_elems (subslice e i (S i))).
    + apply H1. apply list_elem_of_fmap. exists i. split; [done|]. apply elem_of_seq. unfold slice_len in *. lia.
    + cbn [subslice sl_elems]. rewrite (drop_S _ _ _ Hx). by replace (S i - i)%nat with 1%nat by lia.
Qed.

Lemma ddmin_loop_spec fuel : ∀ n e w,
  (2 ≤ n)%nat → (ddmin_fuel (slice_len e) n ≤ fuel)%nat → minimised e (ddmin_loop ctx_Err testFn fuel n e w).
Proof.
  unfold ddmin_fuel. induction fuel as [|fuel IH]; intros n e w Hn Hf; [lia|]. cbn [ddmin_loop].
  destruct (Nat.ltb_spec 1 (slice_len e)) as [Hl|Hl].
  2: { exists e, w. split_and!; auto. }
  destruct (ctx_Err w) as [stop w1] eqn:Hc. destruct stop.
  { exists e, w1. split_and!; auto. right. left. exists w. by rewrite Hc. }
  pose proof (first_triggering_spec false (partition e n) w1) as H1.
  destruct (first_triggering testFn false (partition e n) w1) as [[s|] w2].
  { destruct H1 as [Hs Ht]. apply partition_chunks, chunk_sublist in Hs as [Hsub Hlen]; [|done..].
    apply (minimised_subslice e s); [done|done|lia|]. apply IH; [lia|]. nia. }
  pose proof (first_triggering_spec true (map (setMinus e) (partition e n)) w2) as H2.
  destruct (first_triggering testFn true (map (setMinus e) (partition e n)) w2) as [[s|] w3].
  - destruct H2 as [Hs Ht]. apply list_elem_of_fmap in Hs as (c & -> & Hch). apply partition_chunks in Hch; [|done..].
    destruct (setMinus_sublist _ _ _ Hch) as [Hsub Hlen]. destruct (chunk_sublist _ _ _ Hch) as [_ Hcl].
    apply (minimised_subslice e (setMinus e c)); [done|done| |apply IH; [lia|nia]].
    destruct Hch as (i & j & -> & Hij & Hm). rewrite setMinus_subslice by lia.
    unfold slice_len in *. cbn [fresh_slice sl_elems]. rewrite length_app, length_take, length_drop. lia.
  - destruct (Nat.leb_spec (slice_len e) n) as [Hle|Hgt].
    + exists e, w3. split_and!; auto. right. right. apply (one_minimal_at_end e n); [lia| |].
      * intros s Hs. by apply H1.
      * intros s Hs Hne. apply H2; [done|by intros _].
    + apply IH; lia.
Qed.

Lemma ddmin_result entries w :
  ∃ r w', ddmin ctx_Err testFn (ddmin_fuel (length entries) 2) entries w = Some (r, w') ∧
    r `sublist_of` entries ∧ (r = entries ∨ triggers r) ∧ (entries ≠ [] → r ≠ []) ∧
    ((length r ≤ 1)%nat ∨ cancelled ∨ one_minimal r).
Proof.
  destruct (ddmin_loop_spec (ddmin_fuel (length entries) 2) 2 (fresh_slice entries) w) as (r & w' & E & Hs & Ht & Hne & Hm); [lia|done|].
  exists (sl_elems r), w'. unfold ddmin. rewrite E. split_and!; [done|done|done| |done].
  intros He E'. apply Hne; unfold slice_len; [by destruct entries|by rewrite E'].
Qed.
End ddmin_props.

(** ** The three phases *)

(** The fields of the configuration that the phases read. *)
Record ShrinkConfig := mkShrinkConfig { cfgSeed : Z; SeedMutations : Z }.

Record ShrinkResult := mkShrinkResult {
  MinimalSchedule : list ScheduleEntry; Iterations : Z; Reproduced : bool;
  BestSeed : Z; BestStep : Z; OriginalStep : Z; StepReduction : float64 }.

Section phases.
Context {W : Type}.
Context (ctx_Err : W → bool * W).
(** Writing the schedule of a replay, and the minimal schedule, to a file. *)
Context (write_temp write_out : list ScheduleEntry → W → result string unit * W).
(** A replay with a seed, a schedule and a cap on the states: an error, or the
    step of the violation that matched, if one did. *)
Context (Replay : Z → list ScheduleEntry → Z → W → result string (option Z) * W).
Context (cfg : ShrinkConfig).

(** The world with the number of replays so far ([result.Iterations]). *)
Definition counter : Type := Z * W.

Definition ctx_Err' (st : counter) : bool * counter := let '(b, w) := ctx_Err st.2 in (b, (st.1, w)).

(** The closure [replayWith]: reproduced, and at which step. *)
Definition replayWith (seed : Z) (subset : list ScheduleEntry) (maxStates : Z) (st : counter)
    : result string (bool * Z) * counter :=
  let it := st.1 + 1 in
  let '(a, w) := write_temp subset st.2 in
  match a with
  | Err e => (Err e, (it, w))
  | Ok _ =>
      let '(r, w) := Replay seed subset maxStates w in
      (match r with
       | Err _ | Ok None => Ok (false, 0)
       | Ok (Some step) => Ok (true, step)
       end, (it, w))
  end.

(** The closure [testFn] of [ddmin]. *)
Definition testFn (subset : list ScheduleEntry) (st : counter) : result string bool * counter :=
  let '(r, st) := replayWith (cfgSeed cfg) subset 0 st in
  match r with
  | Err _ => (Ok false, st)
  | Ok (reproduced, _) => (Ok reproduced, st)
  end.

(** The loop of [shrinkSeedMutations] from candidate [i] on, for [n] candidates. *)
Fixpoint seed_loop (n : nat) (i : Z) (minimal : list ScheduleEntry) (bestSeed bestStep : Z) (st : counter)
    : Z * Z * counter :=
  match n with
  | O => (bestSeed, bestStep, st)
  | S n =>
      let '(stop, st) := ctx_Err' st in
      if stop then (bestSeed, bestStep, st)
      else
        let candidateSeed := add64 (cfgSeed cfg) i in
        let '(r, st) := replayWith candidateSeed minimal 0 st in
        match r with
        | Ok (true, step) =>
            if step <? bestStep then seed_loop n (i + 1) minimal candidateSeed step st
            else seed_loop n (i + 1) minimal bestSeed bestStep st
        | Ok (false, _) | Err _ => seed_loop n (i + 1) minimal bestSeed bestStep st
        end
  end.

Definition shrinkSeedMutations (minimal : list ScheduleEntry) (r : ShrinkResult) (st : counter) : Z * Z * counter :=
  seed_loop (Z.to_nat (SeedMutations cfg)) 1 minimal (cfgSeed cfg) (BestStep r) st.

Definition fractions : list float64 := [flit 2 5; flit 3 5; flit 4 5].

(** The cap for a fraction of the best step. *)
Definition step_budget (bestStep : Z) (frac : float64) : Z :=
  let maxStates := trunc (fmul (float_of_Z bestStep) frac) in if maxStates <? 10 then 10 else maxStates.

Fixpoint step_loop (fracs : list float64) (seed : Z) (minimal : list ScheduleEntry) (bestStep : Z) (st : counter)
    : Z * counter :=
  match fracs with
  | [] => (bestStep, st)
  | frac :: fracs =>
      let '(stop, st) := ctx_Err' st in
      if stop then (bestStep, st)
      else
        let '(r, st) := replayWith seed minimal (step_budget bestStep frac) st in
        match r with
        | Ok (reproduced, step) =>
            if reproduced && (step <? bestStep) then step_loop fracs seed minimal step st
            else step_loop fracs seed minimal bestStep st
        | Err _ => step_loop fracs seed minimal bestStep st
        end
  end.

Definition shrinkStepCount (minimal : list ScheduleEntry) (r : ShrinkResult) (st : counter) : Z * counter :=
  step_loop fractions (BestSeed r) minimal (BestStep r) st.

Definition set_best (r : ShrinkResult) (seed step : Z) : ShrinkResult :=
  mkShrinkResult (MinimalSchedule r) (Iterations r) (Reproduced r) seed step (OriginalStep r) (StepReduction r).

Definition set_iterations (r : ShrinkResult) (st : counter) : ShrinkResult :=
  mkShrinkResult (MinimalSchedule r) st.1 (Reproduced r) (BestSeed r) (BestStep r) (OriginalStep r) (StepReduction r).

(** The percentage, in the arithmetic of the source. *)
Definition set_reduction (r : ShrinkResult) : ShrinkResult :=
  if 0 <? OriginalStep r then
    mkShrinkResult (MinimalSchedule r) (Iterations r) (Reproduced r) (BestSeed r) (BestStep r) (OriginalStep r)
      (fmul (fdiv (float_of_Z (sub64 (OriginalStep r) (BestStep r))) (float_of_Z (OriginalStep r))) (float_of_Z 100))
  else r.

(** Phase 2, then phase 3, each unless the context is cancelled. *)
Definition phase2 (minimal : list ScheduleEntry) (r : ShrinkResult) (st : counter) : ShrinkResult * counter :=
  if 0 <? SeedMutations cfg then
    let '(bestSeed, bestStep, st) := shrinkSeedMutations minimal r st in
    (if bestStep <? BestStep r then set_best r bestSeed bestStep else r, st)
  else (r, st).

Definition phase3 (minimal : list ScheduleEntry) (r : ShrinkResult) (st : counter) : ShrinkResult * counter :=
  if 0 <? BestStep r then
    let '(reducedStep, st) := shrinkStepCount minimal r st in
    (if reducedStep <? BestStep r then set_best r (BestSeed r) reducedStep else r, st)
  else (r, st).

(** [ShrinkWithConfig] from the loaded schedule on, for the recorded step; the
    error is that of writing the minimal schedule. *)
Definition ShrinkWithConfig (fuel : nat) (entries : list ScheduleEntry) (artifactStep : Z) (w : W)
    : option (ShrinkResult * option string * W) :=
  let '(a, st) := testFn entries (0, w) in
  let r := mkShrinkResult [] 0 false (cfgSeed cfg) artifactStep artifactStep fzero in
  match a with
  | Err _ | Ok false => Some (set_iterations r st, None, st.2)
  | Ok true =>
      '(minimal, st) ← ddmin ctx_Err' testFn fuel entries st;
      let r := mkShrinkResult minimal 0 true (cfgSeed cfg) artifactStep artifactStep fzero in
      let '(a, w) := write_out minimal st.2 in
      let st := (st.1, w) in
      match a with
      | Err e => Some (set_iterations r st, Some e, st.2)
      | Ok _ =>
          let '(stop, st) := ctx_Err' st in
          if stop then Some (set_iterations r st, None, st.2)
          else
            let '(r, st) := phase2 minimal r st in
            let '(stop, st) := ctx_Err' st in
            if stop then Some (set_iterations r st, None, st.2)
            else
              let '(r, st) := phase3 minimal r st in
              Some (set_iterations (set_reduction r) st, None, st.2)
      end
  end.
End phases.

(** ** What the phases find *)

Section phases_props.
Context {W : Type}.
Context (ctx_Err : W → bool * W).
Context (write_temp write_out : list ScheduleEntry → W → result string unit * W).
Context (Replay : Z → list ScheduleEntry → Z → W → result string (option Z) * W).
Context (cfg : ShrinkConfig).

(** Some replay with the seed and the schedule matched at the step. *)
Definition observed (seed : Z) (minimal : list ScheduleEntry) (step : Z) : Prop :=
  ∃ cap w, (Replay seed minimal cap w).1 = Ok (Some step).

Lemma replayWith_spec seed subset cap st :
  let '(r, st') := replayWith write_temp Replay seed subset cap st in
  st'.1 = st.1 + 1 ∧ ∀ step, r = Ok (true, step) → observed seed subset step.
Proof.
  unfold replayWith. destruct (write_temp subset st.2) as [[u|e] w]; [|done].
  destruct (Replay seed subset cap w) as [r w'] eqn:Hr. split; [done|].
  intros step E. destruct r as [[s|]|]; simplify_eq. exists cap, w. by rewrite Hr.
Qed.

Lemma seed_loop_spec n minimal : ∀ i seed step st,
  let '(seed', step', st') := seed_loop ctx_Err write_temp Replay cfg n i minimal seed step st in
  st.1 ≤ st'.1 ≤ st.1 + Z.of_nat n ∧
  ((seed' = seed ∧ step' = step) ∨
   (step' < step ∧ observed seed' minimal step' ∧ ∃ j, i ≤ j < i + Z.of_nat n ∧ seed' = add64 (cfgSeed cfg) j)).
Proof.
  induction n as [|n IH]; intros i seed step st; cbn [seed_loop]; [split; [lia|by left]|].
  unfold ctx_Err'. destruct (ctx_Err st.2) as [stop w]. destruct stop; [split; [simpl; lia|by left]|].
  pose proof (replayWith_spec (add64 (cfgSeed cfg) i) minimal 0 (st.1, w)) as Hr.
  destruct (replayWith _ _ _ _ _ _) as [r st1]. destruct Hr as [H1 Hr]. cbn [fst] in H1.
  assert (∀ seed1 step1, (seed1 = seed ∧ step1 = step) ∨
      (step1 < step ∧ observed seed1 minimal step1 ∧ seed1 = add64 (cfgSeed cfg) i) →
    let '(seed', step', st') := seed_loop ctx_Err write_temp Replay cfg n (i + 1) minimal seed1 step1 st1 in
    st.1 ≤ st'.1 ≤ st.1 + Z.of_nat (S n) ∧
    ((seed' = seed ∧ step' = step) ∨
     (step' < step ∧ observed seed' minimal step' ∧ ∃ j, i ≤ j < i + Z.of_nat (S n) ∧ seed' = add64 (cfgSeed cfg) j))) as Hrest.
  { intros seed1 step1 H. specialize (IH (i + 1) seed1 step1 st1).
    destruct (seed_loop _ _ _ _ _ _ _ _ _ _) as [[seed' step'] st']. destruct IH as [Hit IH]. split; [lia|].
    destruct IH as [[-> ->]|(Hlt & Ho & j & Hj & ->)].
    - destruct H as [H|(? & ? & ->)]; [by left|]. right. split_and!; [done|done|]. exists i. split; [lia|done].
    - right. split_and!; [|done|exists j; split; [lia|done]]. destruct H as [[_ ->]|[? _]]; lia. }
  destruct r as [[[|] s]|e]; [|by apply Hrest; left..].
  destruct (Z.ltb_spec s step); apply Hrest; [right; split_and!; auto|by left].
Qed.

Lemma step_loop_spec fracs seed minimal : ∀ step st,
  let '(step', st') := step_loop ctx_Err write_temp Replay fracs seed minimal step st in
  st.1 ≤ st'.1 ≤ st.1 + Z.of_nat (length fracs) ∧ (step' = step ∨ (step' < step ∧ observed seed minimal step')).
Proof.
  induction fracs as [|f fracs IH]; intros step st; cbn [step_loop]; [split; [simpl; lia|by left]|].
  unfold ctx_Err'. destruct (ctx_Err st.2) as [stop w]. destruct stop; [split; [simpl; lia|by left]|].
  pose proof (replayWith_spec seed minimal (step_budget step f) (st.1, w)) as Hr.
  destruct (replayWith _ _ _ _ _ _) as [r st1]. destruct Hr as [H1 Hr]. cbn [fst] in H1.
  assert (∀ step1, step1 = step ∨ (step1 < step ∧ observed seed minimal step1) →
    let '(step', st') := step_loop ctx_Err write_temp Replay fracs seed minimal step1 st1 in
    st.1 ≤ st'.1 ≤ st.1 + Z.of_nat (length (f :: fracs)) ∧ (step' = step ∨ (step' < step ∧ observed seed minimal step'))) as Hrest.
  { intros step1 H. specialize (IH step1 st1). destruct (step_loop _ _ _ _ _ _ _ _) as [step' st'].
    destruct IH as [Hit IH]. split; [cbn [length]; lia|]. destruct IH as [->|[? ?]]; [done|]. right. split; [lia|done]. }
  destruct r as [[b s]|e]; [|by apply Hrest; left].
  destruct b; [|by apply Hrest; left]. cbn [andb].
  destruct (Z.ltb_spec s step); apply Hrest; [right; auto|by left].
Qed.

(** The bests of a result against the recorded step and the seeds tried. *)
Definition best_ok (minimal : list ScheduleEntry) (r : ShrinkResult) : Prop :=
  MinimalSchedule r = minimal ∧ Reproduced r = true ∧ BestStep r ≤ OriginalStep r ∧
  (BestStep r = OriginalStep r ∧ BestSeed r = cfgSeed cfg ∨ observed (BestSeed r) minimal (BestStep r)) ∧
  (BestSeed r = cfgSeed cfg ∨ ∃ j, 1 ≤ j ≤ SeedMutations cfg ∧ BestSeed r = add64 (cfgSeed cfg) j).

Lemma phase2_spec minimal r st :
  best_ok minimal r → BestSeed r = cfgSeed cfg →
  let '(r', st') := phase2 ctx_Err write_temp Replay cfg minimal r st in
  best_ok minimal r' ∧ OriginalStep r' = OriginalStep r ∧ st.1 ≤ st'.1 ≤ st.1 + Z.max 0 (SeedMutations cfg).
Proof.
  intros (H1 & H2 & H3 & H4 & H5) Hs. unfold phase2. destruct (Z.ltb_spec 0 (SeedMutations cfg)).
  2: { split_and!; done || lia. }
  unfold shrinkSeedMutations.
  pose proof (seed_loop_spec (Z.to_nat (SeedMutations cfg)) minimal 1 (cfgSeed cfg) (BestStep r) st) as Hl.
  destruct (seed_loop _ _ _ _ _ _ _ _ _ _) as [[seed step] st']. destruct Hl as [Hit Hl].
  destruct (Z.ltb_spec step (BestStep r)) as [Hlt|?]; [|split_and!; done || lia].
  destruct Hl as [[_ ->]|(_ & Ho & j & Hj & ->)]; [lia|].
  split_and!; [|done|lia|lia]. unfold best_ok. cbn [BestStep set_best OriginalStep BestSeed Reproduced MinimalSchedule].
  split_and!; [done|done|lia|by right|]. right. exists j. split; [lia|done].
Qed.

Lemma phase3_spec minimal r st :
  best_ok minimal r →
  let '(r', st') := phase3 ctx_Err write_temp Replay minimal r st in
  best_ok minimal r' ∧ OriginalStep r' = OriginalStep r ∧ st.1 ≤ st'.1 ≤ st.1 + 3.
Proof.
  intros (H1 & H2 & H3 & H4 & H5). unfold phase3. destruct (Z.ltb_spec 0 (BestStep r)); [|split_and!; done || lia].
  unfold shrinkStepCount. pose proof (step_loop_spec fractions (BestSeed r) minimal (BestStep r) st) as Hl.
  destruct (step_loop _ _ _ _ _ _ _ _) as [step st']. cbn [fractions length] in Hl. destruct Hl as [Hit Hl].
  destruct (Z.ltb_spec step (BestStep r)) as [Hlt|?]; [|split_and!; done || lia].
  destruct Hl as [->|[_ Ho]]; [lia|].
  split_and!; [|done|lia|lia]. unfold best_ok. cbn [BestStep set_best OriginalStep BestSeed Reproduced MinimalSchedule].
  split_and!; [done|done|lia|by right|done].
Qed.

Lemma testFn_observed subset st :
  (testFn write_temp Replay cfg subset st).1 = Ok true → ∃ step, observed (cfgSeed cfg) subset step.
Proof.
  unfold testFn. pose proof (replayWith_spec (cfgSeed cfg) subset 0 st) as Hr.
  destruct (replayWith _ _ _ _ _ _) as [[[b s]|e] st']; destruct Hr as [_ Hr]; [|done].
  cbn [fst]. intros [= ->]. exists s. by apply Hr.
Qed.

Lemma testFn_counts subset st : (testFn write_temp Replay cfg subset st).2.1 = st.1 + 1.
Proof.
  unfold testFn. pose proof (replayWith_spec (cfgSeed cfg) subset 0 st) as Hr.
  by destruct (replayWith _ _ _ _ _ _) as [[[b s]|e] st']; destruct Hr as [Hr _].
Qed.

(** What is true of the result of a whole shrink. *)
Definition shrunk (entries : list ScheduleEntry) (artifactStep : Z) (r : ShrinkResult) : Prop :=
  OriginalStep r = artifactStep ∧
  if Reproduced r then
    best_ok (MinimalSchedule r) r ∧ MinimalSchedule r `sublist_of` entries ∧
    (∃ step, observed (cfgSeed cfg) (MinimalSchedule r) step) ∧
    ((length (MinimalSchedule r) ≤ 1)%nat ∨ cancelled (ctx_Err' ctx_Err) ∨
     one_minimal (testFn write_temp Replay cfg) (MinimalSchedule r))
  else
    MinimalSchedule r = [] ∧ BestStep r = artifactStep ∧ BestSeed r = cfgSeed cfg ∧ Iterations r = 1.

Lemma shrunk_same entries step r r' :
  shrunk entries step r → Reproduced r = true → best_ok (MinimalSchedule r) r' → OriginalStep r' = OriginalStep r →
  shrunk entries step r'.
Proof.
  intros [Ho H] Hr Hb Ho'. rewrite Hr in H. destruct H as (_ & H2 & H3 & H4).
  pose proof Hb as (Hm & Hr' & _). split; [congruence|]. by rewrite Hr', Hm.
Qed.

Lemma best_ok_same minimal r r' :
  best_ok minimal r → MinimalSchedule r' = MinimalSchedule r → Reproduced r' = Reproduced r →
  BestStep r' = BestStep r → BestSeed r' = BestSeed r → OriginalStep r' = OriginalStep r → best_ok minimal r'.
Proof. unfold best_ok. intros H -> -> -> -> ->. done. Qed.

End phases_props.

(** ** Examples *)

Definition demo_entry (step : Z) : ScheduleEntry := mkScheduleEntry step KindDrop "node0" "" 0 [] 0 0.

Definition demo_replay (seed : Z) (es : list ScheduleEntry) (cap : Z) (w : unit) : result string (option Z) * unit :=
  (Ok (if bool_decide (2 ∈ map Step es) && bool_decide (5 ∈ map Step es) then Some (100 - seed) else None), w).

(** Seven entries, of which two are needed; a later seed fires earlier. *)
Example Shrink_demo :
  match ShrinkWithConfig (λ w, (false, w)) (λ _ w, (Ok (), w)) (λ _ w, (Ok (), w)) demo_replay (mkShrinkConfig 7 20)
      (ddmin_fuel 7 2) (map demo_entry [1; 2; 3; 4; 5; 6; 7]) 93 () with
  | Some (r, None, _) => map Step (MinimalSchedule r) = [2; 5] ∧ BestSeed r = 27 ∧ BestStep r = 73
  | _ => False
  end.
Proof. by vm_compute. Qed.
