(* ===== verification/Network.v ===== *)
(** * The simulated network ([internal/network], [internal/clock])

    Messages wait in [pending] until the virtual clock reaches their delivery
    time, and are kept in [delivered] once they are delivered or dropped.  A
    [time.Time] is its nanoseconds.  The fault injector is an interface: the
    class [Injector], with the injectors of [internal/fault] as instances, and
    what the network needs of them as the laws [InjectorLaws]. *)
From stdpp Require Import strings.
From S2P Require Import Prelude Word Float Prng Fault.
Local Open Scope Z_scope.

(** ** The virtual clock *)

Record Virtual := mkVirtual { vnow : Z }.

Definition NewVirtual (epoch : Z) : Virtual := mkVirtual epoch.

Definition Now (c : Virtual) : Z := vnow c.

Definition Advance (c : Virtual) (d : Z) : Virtual := mkVirtual (vnow c + d).

(** [None] is the panic. *)
Definition AdvanceTo (c : Virtual) (t : Z) : option Virtual :=
  if t <? vnow c then None else Some (mkVirtual t).

(** ** The injector interface *)

Class Injector (I : Type) := {
  inj_ShouldDrop : I → NodeID → NodeID → Source → bool * Source;
  inj_Delay : I → NodeID → NodeID → Source → Z * Source;
  inj_ShouldCrash : I → NodeID → Source → bool * Source }.

Inductive NopInjector := nop.

#[export] Instance NopInjector_Injector : Injector NopInjector := {
  inj_ShouldDrop _ _ _ rng := (false, rng);
  inj_Delay _ _ _ rng := (0, rng);
  inj_ShouldCrash _ _ rng := (false, rng) }.

#[export] Instance NetworkInjector_Injector : Injector NetworkInjector := {
  inj_ShouldDrop := ShouldDrop;
  inj_Delay := Delay;
  inj_ShouldCrash := ShouldCrash }.

(** ** Partitions *)

Record PartitionManager := mkPartitionManager { pmPartitions : list Partition }.

Definition NewPartitionManager : PartitionManager := mkPartitionManager [].

Definition Add (pm : PartitionManager) (p : Partition) : PartitionManager :=
  mkPartitionManager (pmPartitions pm ++ [p]).

Definition Clear (pm : PartitionManager) : PartitionManager := mkPartitionManager [].

Definition pm_inGroup (id : NodeID) (group : list NodeID) : bool :=
  existsb (λ g, bool_decide (g = id)) group.

Definition IsPartitioned (pm : PartitionManager) (src dst : NodeID) : bool :=
  existsb (λ p, (pm_inGroup src (GroupA p) && pm_inGroup dst (GroupB p)) ||
                (negb (Directed p) && pm_inGroup src (GroupB p) && pm_inGroup dst (GroupA p)))
    (pmPartitions pm).

Definition Active (pm : PartitionManager) : list Partition := pmPartitions pm.

(** ** The network *)

Record Message := mkMessage {
  mID : Z; Src : NodeID; Dst : NodeID; Payload : list Z; SentAt : Z; DeliverAt : Z; Dropped : bool }.

Inductive SendError := ErrNodeNotFound.

Section network.
Context {I : Type} `{!Injector I}.

Record Network := mkNet {
  injector : I; rng : Source; clock : Virtual; net_partitions : PartitionManager;
  pending : list Message; delivered : list Message; nextMsgID : Z; nodes : gset NodeID }.

Definition New (inj : I) (r : Source) (clk : Virtual) : Network :=
  mkNet inj r clk NewPartitionManager [] [] 0 ∅.

Definition set_nodes (n : Network) (s : gset NodeID) : Network :=
  mkNet (injector n) (rng n) (clock n) (net_partitions n) (pending n) (delivered n) (nextMsgID n) s.

Definition AddNode (n : Network) (id : NodeID) : Network := set_nodes n ({[id]} ∪ nodes n).

Definition RemoveNode (n : Network) (id : NodeID) : Network := set_nodes n (nodes n ∖ {[id]}).

(** The next state of [Send]: the generator after its draws, what is added to
    [pending] and to [delivered], and the next identifier. *)
Definition enqueue (n : Network) (r : Source) (p d : list Message) : Network :=
  mkNet (injector n) r (clock n) (net_partitions n) (pending n ++ p) (delivered n ++ d) (add64 (nextMsgID n) 1) (nodes n).

Definition Send (n : Network) (src dst : NodeID) (payload : list Z) : result SendError (Z * bool) * Network :=
  if negb (bool_decide (src ∈ nodes n)) then (Err ErrNodeNotFound, n)
  else if negb (bool_decide (dst ∈ nodes n)) then (Err ErrNodeNotFound, n)
  else
    let now := Now (clock n) in
    let id := nextMsgID n in
    let dropped := mkMessage id src dst payload now now true in
    if IsPartitioned (net_partitions n) src dst then (Ok (id, true), enqueue n (rng n) [] [dropped])
    else
      let '(drop, r) := inj_ShouldDrop (injector n) src dst (rng n) in
      if drop then (Ok (id, true), enqueue n r [] [dropped])
      else
        let '(delay, r) := inj_Delay (injector n) src dst r in
        (Ok (id, false), enqueue n r [mkMessage id src dst payload now (now + delay) false] []).

(** [msg.Dst == dst && !msg.DeliverAt.After(now)]. *)
Definition deliverable (dst : NodeID) (now : Z) (m : Message) : Prop := Dst m = dst ∧ ¬ (now < DeliverAt m).

#[export] Instance deliverable_dec dst now m : Decision (deliverable dst now m).
Proof. unfold deliverable. apply _. Defined.

(** The comparison of the sort. *)
Definition msg_before (a b : Message) : bool :=
  if DeliverAt a =? DeliverAt b then mID a <? mID b else DeliverAt a <? DeliverAt b.

Definition Deliver (n : Network) (dst : NodeID) : list Message * Network :=
  let now := Now (clock n) in
  let ready := sort_by msg_before (filter (deliverable dst now) (pending n)) in
  let remaining := filter (λ m, ¬ deliverable dst now m) (pending n) in
  (ready, mkNet (injector n) (rng n) (clock n) (net_partitions n) remaining (delivered n ++ ready) (nextMsgID n) (nodes n)).

Definition Pending (n : Network) : Z := Z.of_nat (length (pending n)).

Definition Partitions (n : Network) : PartitionManager := net_partitions n.

(** The clock and the partition manager are shared with their owners, which
    move them between the operations. *)
Definition set_clock (n : Network) (c : Virtual) : Network :=
  mkNet (injector n) (rng n) c (net_partitions n) (pending n) (delivered n) (nextMsgID n) (nodes n).

Definition set_partitions (n : Network) (pm : PartitionManager) : Network :=
  mkNet (injector n) (rng n) (clock n) pm (pending n) (delivered n) (nextMsgID n) (nodes n).
End network.
Arguments Network I : clear implicits.

(** ** What the network relies on *)

(** An injector in a good configuration never gives a negative delay, and
    leaves the generator good. *)
Class InjectorLaws (I : Type) `{!Injector I} := {
  good : I → Prop;
  delay_nonneg i src dst r : good i → Source_ok r → 0 ≤ (inj_Delay i src dst r).1;
  drop_source i src dst r : Source_ok r → Source_ok (inj_ShouldDrop i src dst r).2;
  delay_source i src dst r : Source_ok r → Source_ok (inj_Delay i src dst r).2 }.

#[export] Instance NopInjector_laws : InjectorLaws NopInjector.
Proof. refine {| good _ := True |}; simpl; done || lia. Defined.

Lemma Delay_spec i src dst r :
  Source_ok r → Source_ok (Delay i src dst r).2 ∧
  (0 ≤ DelayMin (netCfg i) → DelayMax (netCfg i) - DelayMin (netCfg i) < 2 ^ 53 → 0 ≤ (Delay i src dst r).1).
Proof.
  intros Hr. unfold Delay. destruct (Z.leb_spec (DelayMax (netCfg i) - DelayMin (netCfg i)) 0); [done|].
  destruct (Float64 r) as [x r'] eqn:E. cbn [fst snd]. destruct (Float64_facts _ _ _ Hr E) as [-> Hx].
  split; [by apply advance_ok|]. intros H1 H2.
  specialize (Hx (DelayMax (netCfg i) - DelayMin (netCfg i)) ltac:(lia)). lia.
Qed.

Lemma ShouldDrop_source i src dst r : Source_ok r → Source_ok (ShouldDrop i src dst r).2.
Proof.
  intros Hr. unfold ShouldDrop. destruct (isPartitioned i src dst); [done|].
  destruct (Float64 r) as [x r'] eqn:E. cbn [snd]. destruct (Float64_facts _ _ _ Hr E) as [-> _]. by apply advance_ok.
Qed.

#[export] Instance NetworkInjector_laws : InjectorLaws NetworkInjector := {
  good n := 0 ≤ DelayMin (netCfg n) ∧ DelayMax (netCfg n) - DelayMin (netCfg n) < 2 ^ 53;
  delay_nonneg i src dst r H Hr := proj2 (Delay_spec i src dst r Hr) (proj1 H) (proj2 H);
  drop_source := ShouldDrop_source;
  delay_source i src dst r Hr := proj1 (Delay_spec i src dst r Hr) }.

(** ** Runs *)

Inductive net_op :=
| OpAddNode (id : NodeID) | OpRemoveNode (id : NodeID)
| OpSend (src dst : NodeID) (payload : list Z) | OpDeliver (dst : NodeID)
| OpAdvance (d : Z) | OpPartition (p : Partition) | OpHeal.

Section runs.
Context {I : Type} `{!Injector I, !InjectorLaws I}.

Definition apply_op (n : Network I) (o : net_op) : Network I :=
  match o with
  | OpAddNode id => AddNode n id
  | OpRemoveNode id => RemoveNode n id
  | OpSend src dst payload => (Send n src dst payload).2
  | OpDeliver dst => (Deliver n dst).2
  | OpAdvance d => set_clock n (Advance (clock n) d)
  | OpPartition p => set_partitions n (Add (net_partitions n) p)
  | OpHeal => set_partitions n (Clear (net_partitions n))
  end.

(** The clock only moves forward. *)
Definition op_ok (o : net_op) : Prop := match o with OpAdvance d => 0 ≤ d | _ => True end.

Definition waiting_ok (t : Z) (m : Message) : Prop := Dropped m = false ∧ SentAt m ≤ t ∧ SentAt m ≤ DeliverAt m.

Definition done_ok (t : Z) (m : Message) : Prop :=
  SentAt m ≤ DeliverAt m ≤ t ∧ (Dropped m = true → DeliverAt m = SentAt m).

(** Every identifier given out is on exactly one message; messages wait or are
    done at the right times. *)
Record net_ok (n : Network I) : Prop := mkNetOk {
  nok_id : 0 ≤ nextMsgID n;
  nok_ids : mID <$> pending n ++ delivered n ≡ₚ seqZ 0 (nextMsgID n);
  nok_pending : Forall (waiting_ok (Now (clock n))) (pending n);
  nok_delivered : Forall (done_ok (Now (clock n))) (delivered n);
  nok_rng : Source_ok (rng n);
  nok_inj : good (injector n) }.

Lemma filter_complement {A} (P : A → Prop) `{∀ x, Decision (P x)} (l : list A) :
  filter (λ x, ¬ P x) l ++ filter P l ≡ₚ l.
Proof.
  induction l as [|x l IH]; [done|]. rewrite !filter_cons. destruct (decide (P x)), (decide (¬ P x)); try tauto.
  - by rewrite <- Permutation_middle, IH.
  - simpl. by rewrite IH.
Qed.

Lemma enqueue_ok n r p d :
  net_ok n → nextMsgID n + 1 < 2 ^ 64 → Source_ok r → mID <$> p ++ d = [nextMsgID n] →
  Forall (waiting_ok (Now (clock n))) p → Forall (done_ok (Now (clock n))) d → net_ok (enqueue n r p d).
Proof.
  intros [H1 H2 H3 H4 H5 H6] Hid Hr Hpd Hp Hd. unfold enqueue.
  assert (add64 (nextMsgID n) 1 = nextMsgID n + 1) as Hnext by (apply wrap_small; unfold is_word; lia).
  split; cbn [nextMsgID pending delivered clock rng injector]; rewrite ?Hnext; [lia| | | |done|done].
  - rewrite seqZ_app, <- H2 by lia. rewrite (seqZ_cons _ 1) by lia. rewrite seqZ_nil by lia. rewrite Z.add_0_l, <- Hpd.
    rewrite <- fmap_app. apply fmap_Permutation. rewrite <- !(assoc (++)). apply Permutation_app_head.
    rewrite (comm (++) p (delivered n ++ d)). rewrite <- (assoc (++)). by rewrite (comm (++) d p).
  - by apply Forall_app.
  - by apply Forall_app.
Qed.

Lemma Send_ok n src dst payload :
  net_ok n → nextMsgID n + 1 < 2 ^ 64 → net_ok (Send n src dst payload).2.
Proof.
  intros Hok Hid. unfold Send. repeat (destruct (negb _); [done|]).
  assert (done_ok (Now (clock n)) (mkMessage (nextMsgID n) src dst payload (Now (clock n)) (Now (clock n)) true)) as Hd.
  { split; simpl; [lia|done]. }
  destruct (IsPartitioned _ _ _).
  { apply enqueue_ok; [done|done|apply Hok|done|constructor|by repeat constructor]. }
  pose proof (drop_source (injector n) src dst (rng n) (nok_rng n Hok)) as Hr.
  destruct (inj_ShouldDrop _ _ _ _) as [drop r]. cbn [snd] in Hr. destruct drop.
  { apply enqueue_ok; [done|done|done|done|constructor|by repeat constructor]. }
  pose proof (delay_nonneg (injector n) src dst r (nok_inj n Hok) Hr) as Hn.
  pose proof (delay_source (injector n) src dst r Hr) as Hr'.
  destruct (inj_Delay _ _ _ _) as [delay r']. cbn [fst snd] in *.
  apply enqueue_ok; [done|done|done|done| |constructor]. repeat constructor; simpl; lia.
Qed.

Lemma Deliver_ok n dst : net_ok n → net_ok (Deliver n dst).2.
Proof.
  intros [H1 H2 H3 H4 H5 H6]. unfold Deliver. set (ready := sort_by _ _).
  assert (ready ≡ₚ filter (deliverable dst (Now (clock n))) (pending n)) as Hready by apply sort_by_Permutation.
  split; cbn [snd nextMsgID pending delivered clock rng injector]; try done.
  - rewrite <- H2. apply fmap_Permutation. rewrite (comm (++) (delivered n)), (assoc (++)), Hready.
    by rewrite filter_complement.
  - apply Forall_forall. intros m [_ Hm]%list_elem_of_filter. rewrite Forall_forall in H3. auto.
  - apply Forall_app. split; [done|]. rewrite Hready. apply Forall_forall.
    intros m [[_ Hd] Hm]%list_elem_of_filter. rewrite Forall_forall in H3. destruct (H3 m Hm) as (Hdr & _ & Hs).
    split; [lia|]. by rewrite Hdr.
Qed.

Lemma net_op_ok n o : net_ok n → op_ok o → nextMsgID n + 1 < 2 ^ 64 → net_ok (apply_op n o).
Proof.
  intros Hok Ho Hid. destruct o; simpl in *.
  1, 2, 6, 7: by destruct Hok; split.
  - by apply Send_ok.
  - by apply Deliver_ok.
  - destruct Hok as [H1 H2 H3 H4 H5 H6]. split; simpl in *; try done.
    + eapply Forall_impl; [exact H3|]. unfold waiting_ok, Now in *. simpl. intros m. intros (? & ? & ?). split_and!; [done|lia|done].
    + eapply Forall_impl; [exact H4|]. unfold done_ok, Now in *. simpl. intros m [? ?]. split; [lia|done].
Qed.
End runs.

(** ** Properties *)

Section properties.
Context {I : Type} `{!Injector I, !InjectorLaws I}.
Implicit Types n : Network I.

(** A network after some operations. *)
Definition run (inj : I) (r : Source) (epoch : Z) (ops : list net_op) : Network I :=
  foldl apply_op (New inj r (NewVirtual epoch)) ops.

Lemma apply_op_id n o : net_ok n → nextMsgID n + 1 < 2 ^ 64 → nextMsgID (apply_op n o) ≤ nextMsgID n + 1.
Proof.
  intros Hok Hid. pose proof (nok_id n Hok). destruct o; simpl; try lia. unfold Send.
  assert (add64 (nextMsgID n) 1 = nextMsgID n + 1) as Hnext by (apply wrap_small; unfold is_word; lia).
  repeat (destruct (negb _); [simpl; lia|]). destruct (IsPartitioned _ _ _); [simpl; lia|].
  destruct (inj_ShouldDrop _ _ _ _) as [[] ?]; [simpl; lia|]. destruct (inj_Delay _ _ _ _). simpl. lia.
Qed.

Lemma run_ok inj r epoch ops :
  good inj → Source_ok r → Forall op_ok ops → Z.of_nat (length ops) < 2 ^ 64 - 1 →
  net_ok (run inj r epoch ops) ∧ nextMsgID (run inj r epoch ops) ≤ Z.of_nat (length ops).
Proof.
  intros Hg Hr. induction ops as [|o ops IH] using rev_ind; intros Hops Hl.
  { split; [|done]. split; cbn; [done|done|by constructor|by constructor|done|done]. }
  rewrite length_app in *. cbn [length] in *. apply Forall_app in Hops as [Hops [Ho _]%Forall_cons].
  destruct IH as [IH1 IH2]; [done|lia|]. unfold run in *. rewrite foldl_app. cbn [foldl].
  split; [apply net_op_ok; [done|done|lia]|].
  pose proof (apply_op_id (foldl apply_op (New inj r (NewVirtual epoch)) ops) o IH1 ltac:(lia)). lia.
Qed.

(** C30: the network neither loses nor duplicates a message.  After any
    operations, in any order, of nodes joining and leaving, messages sent and
    delivered, partitions made and healed and the clock moving forward, the
    identifiers given out are 0, 1, 2, ..., and each is on exactly one message,
    waiting or done.  A waiting message was not dropped; a message that is done
    was either dropped when it was sent, or delivered at a time between its
    sending, which its delivery time is never before, and now. *)
Theorem network_conserves (inj : I) (r : Source) (epoch : Z) (ops : list net_op)
    (Hinj : good inj) (Hr : Source_ok r) (Hops : Forall op_ok ops) (Hlen : Z.of_nat (length ops) < 2 ^ 64 - 1) :
  let n := run inj r epoch ops in
  mID <$> pending n ++ delivered n ≡ₚ seqZ 0 (nextMsgID n) ∧
  (∀ m, m ∈ pending n → Dropped m = false ∧ SentAt m ≤ DeliverAt m) ∧
  (∀ m, m ∈ delivered n → SentAt m ≤ DeliverAt m ≤ Now (clock n) ∧ (Dropped m = true → DeliverAt m = SentAt m)).
Proof.
  intros n. destruct (run_ok inj r epoch ops Hinj Hr Hops Hlen) as [[_ H2 H3 H4 _ _] _].
  rewrite Forall_forall in H3, H4. split_and!; [done| |intros m Hm; by apply H4].
  intros m Hm. destruct (H3 m Hm) as (? & _ & ?). done.
Qed.

(** C31: [Send] on every branch.  Without both nodes registered it is an
    error and changes nothing.  Otherwise it gives out the next identifier; a
    partition drops the message without a draw; else the injector decides, and
    a message not dropped waits for its delay from now. *)
Theorem Send_cases n (src dst : NodeID) (payload : list Z) :
  (src ∉ nodes n ∨ dst ∉ nodes n → Send n src dst payload = (Err ErrNodeNotFound, n)) ∧
  (src ∈ nodes n → dst ∈ nodes n → ∃ dropped n', Send n src dst payload = (Ok (nextMsgID n, dropped), n') ∧
    nextMsgID n' = add64 (nextMsgID n) 1 ∧ nodes n' = nodes n ∧ clock n' = clock n ∧
    (IsPartitioned (net_partitions n) src dst = true → dropped = true ∧ rng n' = rng n) ∧
    (IsPartitioned (net_partitions n) src dst = false →
      let d := inj_ShouldDrop (injector n) src dst (rng n) in
      dropped = d.1 ∧ rng n' = if d.1 then d.2 else (inj_Delay (injector n) src dst d.2).2) ∧
    if dropped
    then pending n' = pending n ∧
         delivered n' = delivered n ++ [mkMessage (nextMsgID n) src dst payload (Now (clock n)) (Now (clock n)) true]
    else delivered n' = delivered n ∧
         pending n' = pending n ++ [mkMessage (nextMsgID n) src dst payload (Now (clock n))
           (Now (clock n) + (inj_Delay (injector n) src dst (inj_ShouldDrop (injector n) src dst (rng n)).2).1) false]).
Proof.
  split.
  - intros H. unfold Send. destruct (decide (src ∈ nodes n)); [|by rewrite bool_decide_false].
    rewrite bool_decide_true by done. simpl. destruct H; [done|]. by rewrite bool_decide_false.
  - intros Hs Hd. unfold Send. rewrite !bool_decide_true by done. simpl.
    destruct (IsPartitioned (net_partitions n) src dst).
    { eexists true, _. split; [done|]. simpl. by rewrite app_nil_r. }
    destruct (inj_ShouldDrop (injector n) src dst (rng n)) as [[] r].
    { eexists true, _. split; [done|]. simpl. by rewrite app_nil_r. }
    destruct (inj_Delay (injector n) src dst r) as [d r'] eqn:Ed.
    eexists false, _. split; [done|]. simpl. rewrite Ed, app_nil_r. by split_and!.
Qed.

Lemma msg_before_spec a b :
  msg_before a b = true ↔ DeliverAt a < DeliverAt b ∨ DeliverAt a = DeliverAt b ∧ mID a < mID b.
Proof. unfold msg_before. repeat case_bool; intuition (congruence || lia). Qed.

Lemma msg_before_false a b :
  msg_before b a = false ↔ DeliverAt a < DeliverAt b ∨ DeliverAt a = DeliverAt b ∧ mID a ≤ mID b.
Proof. unfold msg_before. repeat case_bool; intuition (congruence || lia). Qed.

Lemma msg_sorted l :
  StronglySorted (λ a b, msg_before b a = false) (sort_by msg_before l).
Proof.
  apply (sort_by_sorted msg_before (λ _, True)).
  - intros x y. rewrite msg_before_spec, msg_before_false. lia.
  - intros x y z _ _ _. rewrite !msg_before_false. lia.
  - by apply Forall_forall.
Qed.

Lemma nok_distinct n a b : net_ok n → a ∈ pending n ++ delivered n → b ∈ pending n ++ delivered n → mID a = mID b → a = b.
Proof.
  intros Hok Ha Hb E. pose proof (nok_ids n Hok) as Hp. assert (NoDup (mID <$> pending n ++ delivered n)) as Hnd.
  { rewrite Hp. apply NoDup_seqZ. }
  apply list_elem_of_lookup in Ha as [i Hi], Hb as [j Hj].
  assert (i = j) as ->; [|congruence].
  eapply NoDup_lookup; [exact Hnd| |]; rewrite list_lookup_fmap; [by rewrite Hi|rewrite Hj; simpl; by rewrite E].
Qed.

(** [Deliver] hands over exactly the waiting messages for the node
    that are due, strictly ordered by delivery time and then by identifier; the
    others keep waiting, and nothing is handed over twice. *)
Theorem Deliver_exact n (dst : NodeID) (Hok : net_ok n) :
  let '(ready, n') := Deliver n dst in
  (∀ m, m ∈ ready ↔ m ∈ pending n ∧ Dst m = dst ∧ DeliverAt m ≤ Now (clock n)) ∧
  (∀ m, m ∈ pending n' ↔ m ∈ pending n ∧ ¬ (Dst m = dst ∧ DeliverAt m ≤ Now (clock n))) ∧
  StronglySorted (λ a b, DeliverAt a < DeliverAt b ∨ DeliverAt a = DeliverAt b ∧ mID a < mID b) ready ∧
  delivered n' = delivered n ++ ready ∧ (Deliver n' dst).1 = [].
Proof.
  unfold Deliver. set (due := filter (deliverable dst (Now (clock n))) (pending n)).
  assert (∀ m, m ∈ sort_by msg_before due ↔ m ∈ pending n ∧ Dst m = dst ∧ DeliverAt m ≤ Now (clock n)) as Hin.
  { intros m. rewrite sort_by_Permutation. unfold due, deliverable. rewrite list_elem_of_filter. intuition lia. }
  split_and!; [done| | |done|].
  - intros m. cbn [pending]. rewrite list_elem_of_filter. unfold deliverable.
    assert (DeliverAt m ≤ Now (clock n) ↔ ¬ Now (clock n) < DeliverAt m) as -> by lia. tauto.
  - pose proof (msg_sorted due) as Hs.
    assert (NoDup (mID <$> sort_by msg_before due)) as Hnd.
    { rewrite sort_by_Permutation. pose proof (nok_ids n Hok) as Hp. pose proof (NoDup_seqZ 0 (nextMsgID n)) as Hq.
      rewrite <- Hp, fmap_app in Hq. apply NoDup_app in Hq as [Hq _].
      eapply sublist_NoDup; [exact Hq|]. apply fmap_sublist, sublist_filter. }
    clear Hin. induction Hs as [|a l Hs IH Hall]; [constructor|].
    apply NoDup_cons in Hnd as [Ha Hnd]. constructor; [by apply IH|].
    rewrite Forall_forall in *. intros b Hb. pose proof (Hall b Hb) as H. apply msg_before_false in H.
    destruct H as [H|[H1 H2]]; [by left|right]. split; [done|]. destruct (decide (mID a = mID b)) as [E|]; [|lia].
    exfalso. apply Ha. rewrite E. by apply list_elem_of_fmap_2.
  - cbn [fst]. apply elem_of_nil_inv. intros m. rewrite sort_by_Permutation. cbn [pending clock]. rewrite !list_elem_of_filter.
    tauto.
Qed.
End properties.

(** ** First in, first out *)

Section fifo.
Context {I : Type} `{!Injector I, !InjectorLaws I}.
Context (delay : Z).
Implicit Types n : Network I.

(** The messages handed over to a node, in the order they were. *)
Definition handed_over n (dst : NodeID) : list Message :=
  filter (λ m, Dst m = dst ∧ Dropped m = false) (delivered n).

(** Messages wait the same time, so earlier ones are due earlier; what a node
    got was sent before what it waits for, in order. *)
Record fifo n : Prop := mkFifo {
  fifo_ok : net_ok n;
  fifo_const src dst r : (inj_Delay (injector n) src dst r).1 = delay;
  fifo_due m : m ∈ pending n → DeliverAt m = SentAt m + delay;
  fifo_order a b : a ∈ pending n → b ∈ pending n → mID a < mID b → DeliverAt a ≤ DeliverAt b;
  fifo_before dst a b : a ∈ handed_over n dst → b ∈ pending n → Dst b = dst → mID a < mID b;
  fifo_sorted dst : StronglySorted (λ a b, mID a < mID b) (handed_over n dst) }.

Lemma id_lt_next n m : net_ok n → m ∈ pending n ++ delivered n → mID m < nextMsgID n.
Proof.
  intros Hok Hm. assert (mID m ∈ seqZ 0 (nextMsgID n)) as H; [|apply elem_of_seqZ in H; lia].
  rewrite <- (nok_ids n Hok). by apply list_elem_of_fmap_2.
Qed.

Lemma handed_over_app n r p d dst :
  handed_over (enqueue n r p d) dst = handed_over n dst ++ filter (λ m, Dst m = dst ∧ Dropped m = false) d.
Proof. unfold handed_over. cbn [enqueue delivered]. by rewrite filter_app. Qed.

Lemma fifo_Send n src dst payload : fifo n → nextMsgID n + 1 < 2 ^ 64 → fifo (Send n src dst payload).2.
Proof.
  intros Hf Hid. pose proof (Send_ok n src dst payload (fifo_ok n Hf) Hid) as Hok. unfold Send in *.
  destruct (negb _); [done|]. destruct (negb _); [done|].
  set (dropped := mkMessage _ _ _ _ _ _ true) in *.
  assert (∀ r, net_ok (enqueue n r [] [dropped]) → fifo (enqueue n r [] [dropped])) as Hdrop.
  { intros r Hok'. assert (∀ dst, handed_over (enqueue n r [] [dropped]) dst = handed_over n dst) as Hh.
    { intros x. rewrite handed_over_app, filter_cons, decide_False by (by intros [_ ?]). by rewrite app_nil_r. }
    split; [done|apply Hf|..]; cbn [enqueue pending]; rewrite ?app_nil_r; try apply Hf; intros x; rewrite Hh; apply Hf. }
  destruct (IsPartitioned _ _ _); [by apply Hdrop|].
  destruct (inj_ShouldDrop _ _ _ _) as [[] r]; [by apply Hdrop|].
  pose proof (fifo_const n Hf src dst r) as Hd. destruct (inj_Delay _ _ _ _) as [d r'] eqn:Ed. cbn [fst snd] in *. subst d.
  set (m := mkMessage _ _ _ _ _ _ false) in *.
  assert (∀ a, a ∈ pending n → mID a < mID m ∧ DeliverAt a ≤ DeliverAt m) as Hold.
  { intros a Ha. split; [by apply id_lt_next; [apply Hf|]; apply elem_of_app; left|].
    rewrite (fifo_due n Hf a Ha). pose proof (nok_pending n (fifo_ok n Hf)) as Hp. rewrite Forall_forall in Hp.
    destruct (Hp a Ha) as (_ & ? & _). simpl. lia. }
  assert (∀ x, handed_over (enqueue n r' [m] []) x = handed_over n x) as Hh by (intros; by rewrite handed_over_app, app_nil_r).
  split; [done|apply Hf|..].
  - intros a. cbn [enqueue pending]. rewrite elem_of_app, list_elem_of_singleton. intros [Ha| ->]; [by apply Hf|done].
  - intros a b. cbn [enqueue pending]. rewrite !elem_of_app, !list_elem_of_singleton.
    intros [Ha| ->] [Hb| ->] Hab; [by apply Hf|by apply Hold|apply Hold in Hb; lia|lia].
  - intros x a b. rewrite Hh. cbn [enqueue pending]. rewrite elem_of_app, list_elem_of_singleton.
    intros Ha [Hb| ->] Hx; [by apply (fifo_before n Hf x)|]. apply id_lt_next; [apply Hf|].
    apply list_elem_of_filter in Ha as [_ Ha]. apply elem_of_app. by right.
  - intros x. rewrite Hh. apply Hf.
Qed.

Lemma sorted_app {A} (R : A → A → Prop) l k :
  StronglySorted R l → StronglySorted R k → (∀ x y, x ∈ l → y ∈ k → R x y) → StronglySorted R (l ++ k).
Proof.
  intros Hl Hk Hlk. induction Hl as [|x l Hl IH Hall]; [done|]. simpl. constructor.
  - apply IH. intros y z Hy. apply Hlk. by right.
  - apply Forall_app. split; [done|]. apply Forall_forall. intros y Hy. apply Hlk; [left|done].
Qed.

Lemma fifo_Deliver n dst : fifo n → fifo (Deliver n dst).2.
Proof.
  intros Hf. pose proof (fifo_ok n Hf) as Hok. pose proof (Deliver_exact n dst Hok) as Hd.
  pose proof (Deliver_ok n dst Hok) as Hok'. unfold Deliver in *. set (ready := sort_by _ _) in *. cbn [snd] in *.
  set (n' := mkNet _ _ _ _ _ _ _ _) in *. destruct Hd as (Hr & Hp & Hs & _ & _).
  assert (∀ x, handed_over n' x = handed_over n x ++ filter (λ m, Dst m = x ∧ Dropped m = false) ready) as Hh.
  { intros x. unfold handed_over. cbn [n' delivered]. by rewrite filter_app. }
  assert (∀ a b, a ∈ ready → b ∈ pending n → mID b < mID a → DeliverAt b ≤ DeliverAt a) as Hearlier.
  { intros a b Ha Hb Hab. apply Hr in Ha as [Ha _]. by apply (fifo_order n Hf). }
  split; [done|apply Hf|..].
  - intros m [Hm _]%Hp. by apply Hf.
  - intros a b [Ha _]%Hp [Hb _]%Hp. by apply Hf.
  - intros x a b. rewrite Hh. intros Ha Hb Hx. pose proof Hb as Hb'. apply Hp in Hb' as [Hbp Hbd].
    apply elem_of_app in Ha as [Ha|[[Hax _] Ha]%list_elem_of_filter]; [by apply (fifo_before n Hf x)|].
    pose proof (proj1 (Hr a) Ha) as (Hap & Had & Hat).
    destruct (Z.lt_trichotomy (mID a) (mID b)) as [|[E|Hlt]]; [done| |].
    + exfalso. apply Hbd. rewrite <- (nok_distinct n a b Hok); [done|apply elem_of_app; by left|apply elem_of_app; by left|done].
    + exfalso. apply Hbd. split; [congruence|]. pose proof (Hearlier a b Ha Hbp Hlt). lia.
  - intros x. rewrite Hh. apply sorted_app; [apply Hf| |].
    + clear Hh. assert (∀ a b, a ∈ ready → b ∈ ready → DeliverAt a < DeliverAt b → mID a < mID b) as Hmono.
      { intros a b Ha Hb Hab. pose proof (proj1 (Hr a) Ha) as [Hap _]. pose proof (proj1 (Hr b) Hb) as [Hbp _].
        destruct (Z.lt_trichotomy (mID a) (mID b)) as [|[E|Hlt]]; [done| |pose proof (Hearlier a b Ha Hbp Hlt); lia].
        rewrite (nok_distinct n a b Hok) in Hab; [lia|apply elem_of_app; by left|apply elem_of_app; by left|done]. }
      clear Hr Hearlier Hok' Hp. clearbody ready. clear n'.
      induction Hs as [|a l Hs IH Hall]; [constructor|].
      assert (StronglySorted (λ a b, mID a < mID b) (filter (λ m, Dst m = x ∧ Dropped m = false) l)) as IH'.
      { apply IH. intros b c Hb Hc. apply Hmono; by right. }
      rewrite filter_cons. case_decide; [|done]. constructor; [done|]. rewrite Forall_forall in *.
      intros b [_ Hb]%list_elem_of_filter. destruct (Hall b Hb) as [Hab|[_ ?]]; [|done]. apply Hmono; [left|by right|done].
    + intros a b Ha [[Hbx _] Hb]%list_elem_of_filter. apply Hr in Hb as (Hb & _ & _). by apply (fifo_before n Hf x).
Qed.

Lemma fifo_op n o : fifo n → op_ok o → nextMsgID n + 1 < 2 ^ 64 → fifo (apply_op n o).
Proof.
  intros Hf Ho Hid. pose proof (net_op_ok n o (fifo_ok n Hf) Ho Hid) as Hok.
  destruct o; simpl in *; [..|].
  1, 2, 5, 6, 7: by destruct Hf; split.
  - by apply fifo_Send.
  - by apply fifo_Deliver.
Qed.

(** When the injector's delay is constant, every node receives its
    messages in the order they were sent, whoever sent them and whenever it asks. *)
Theorem constant_delay_fifo (inj : I) (r : Source) (epoch : Z) (ops : list net_op) (dst : NodeID)
    (Hconst : ∀ src dst r, (inj_Delay inj src dst r).1 = delay)
    (Hinj : good inj) (Hr : Source_ok r) (Hops : Forall op_ok ops) (Hlen : Z.of_nat (length ops) < 2 ^ 64 - 1) :
  StronglySorted (λ a b, mID a < mID b) (handed_over (run inj r epoch ops) dst).
Proof.
  apply fifo_sorted. induction ops as [|o ops IH] using rev_ind.
  { split; [apply (run_ok inj r epoch []); done|exact Hconst|..]; cbn.
    all: intros *; rewrite ?elem_of_nil; try done. constructor. }
  rewrite length_app in Hlen. cbn [length] in Hlen. apply Forall_app in Hops as [Hops [Ho _]%Forall_cons].
  destruct (run_ok inj r epoch ops Hinj Hr Hops ltac:(lia)) as [_ Hid].
  unfold run in *. rewrite foldl_app. cbn [foldl]. apply fifo_op; [apply IH; [done|lia]|done|lia].
Qed.
End fifo.

(** ** Witnesses *)

Definition demo_ops : list net_op :=
  [OpAddNode "a"; OpAddNode "b"; OpSend "a" "b" [1]; OpAdvance 5; OpSend "b" "a" [2];
   OpPartition (mkPartition ["a"] ["b"] true); OpSend "a" "b" [3]; OpSend "b" "a" [4]; OpDeliver "a"; OpHeal;
   OpSend "a" "c" [5]; OpRemoveNode "b"; OpDeliver "b"].

Definition demo_net : Network NopInjector := run nop (Prng.New 1) 0 demo_ops.

Example demo_net_delivered :
  map (λ m, (mID m, Dropped m)) (delivered demo_net) = [(2, true); (1, false); (3, false); (0, false)].
Proof. by vm_compute. Qed.

Lemma demo_ops_ok : Forall op_ok demo_ops.
Proof. by repeat constructor. Qed.

Lemma demo_source : Source_ok (Prng.New 1).
Proof. by vm_compute. Qed.

Lemma network_conserves_witness : mID <$> pending demo_net ++ delivered demo_net ≡ₚ seqZ 0 (nextMsgID demo_net).
Proof. exact (proj1 (network_conserves nop (Prng.New 1) 0 demo_ops Logic.I demo_source demo_ops_ok eq_refl)). Defined.

Definition demo_before : Network NopInjector := run nop (Prng.New 1) 0 (take 8 demo_ops).

Lemma Deliver_exact_witness :
  map mID (Deliver demo_before "a").1 = [1; 3] ∧
  (Deliver (Deliver demo_before "a").2 "a").1 = [].
Proof.
  split; [by vm_compute|]. assert (net_ok demo_before) as Hok.
  { apply (run_ok nop (Prng.New 1) 0 (take 8 demo_ops)); [done|apply demo_source|by repeat constructor|done]. }
  exact (proj2 (proj2 (proj2 (proj2 (Deliver_exact demo_before "a" Hok))))).
Defined.

Lemma constant_delay_fifo_witness :
  StronglySorted (λ a b, mID a < mID b) (handed_over demo_net "a").
Proof.
  exact (constant_delay_fifo 0 nop (Prng.New 1) 0 demo_ops "a" (λ _ _ _, eq_refl) Logic.I demo_source demo_ops_ok eq_refl).
Defined.
