(* ===== verification/Composer.v ===== *)
(** * The test composer ([internal/composer])

    Test commands are classified by the prefix of their file names, and a
    composer picks the next one for the phase it is in.  The directory walk of
    [Discover] is its list of entries.  The map of running commands is never
    used by the package and is left out. *)
From stdpp Require Import strings.
From S2P Require Import Prelude Strings Word Prng.
Local Open Scope Z_scope.

(** ** Commands *)

Definition CommandKind : Type := string.
Definition CmdWorkload : CommandKind := "workload".
Definition CmdScenario : CommandKind := "scenario".
Definition CmdSequence : CommandKind := "sequence".
Definition CmdSetup : CommandKind := "setup".
Definition CmdSettle : CommandKind := "settle".
Definition CmdVerify : CommandKind := "verify".
Definition CmdWatch : CommandKind := "watch".

Definition commandPrefixes : list (string * CommandKind) :=
  [("workload_", CmdWorkload); ("scenario_", CmdScenario); ("sequence_", CmdSequence); ("setup_", CmdSetup);
   ("settle_", CmdSettle); ("verify_", CmdVerify); ("watch_", CmdWatch)]%string.

Record Command := mkCommand { Name : string; cmdKind : CommandKind; cmdPath : string; Container : string }.

Definition classifyCommand (name : string) : CommandKind * bool :=
  match find_index (λ cp, String.prefix cp.1 name) commandPrefixes ≫= λ i, commandPrefixes !! i with
  | Some cp => (cp.2, true)
  | None => (""%string, false)
  end.

(** One entry of the walk: an error of the walk or of [Info], or the path, the
    name, whether it is a directory, and the mode. *)
Inductive walk_entry :=
| WalkError (e : string)
| WalkEntry (path name : string) (dir : bool) (mode : Z).

(** [0111]. *)
Definition executable (mode : Z) : bool := negb (Z.land mode 73 =? 0).

Fixpoint walk (entries : list walk_entry) (commands : list Command) : result string (list Command) :=
  match entries with
  | [] => Ok commands
  | WalkError e :: _ => Err e
  | WalkEntry path name dir mode :: entries =>
      if dir then walk entries commands
      else if negb (executable mode) then walk entries commands
      else
        let '(kind, ok) := classifyCommand name in
        if ok then walk entries (commands ++ [mkCommand name kind path ""]) else walk entries commands
  end.

Definition Discover (entries : list walk_entry) : result string (list Command) :=
  match walk entries [] with
  | Err e => Err e
  | Ok commands => Ok (sort_by (λ a b, String.ltb (Name a) (Name b)) commands)
  end.

(** ** Phases *)

(** A [uint8] with six values in use. *)
Definition Phase : Type := Z.
Definition PhaseInit : Phase := 0.
Definition PhaseSetup : Phase := 1.
Definition PhaseRun : Phase := 2.
Definition PhaseSettle : Phase := 3.
Definition PhaseVerify : Phase := 4.
Definition PhaseDone : Phase := 5.

Definition phaseNames : list string := ["init"; "setup"; "run"; "settle"; "verify"; "done"]%string.

Definition PhaseString (p : Phase) : string := default "unknown"%string (phaseNames !! Z.to_nat p).

(** ** The composer *)

Record Composer := mkComposer { commands : list Command; rng : Source; phase : Phase }.

Inductive ComposerError := ErrNoCommands | ErrNoDrivers.

Definition is_driver (c : Command) : bool :=
  bool_decide (cmdKind c = CmdWorkload) || bool_decide (cmdKind c = CmdScenario) || bool_decide (cmdKind c = CmdSequence).

Definition New (cmds : list Command) (r : Source) : result ComposerError Composer :=
  match cmds with
  | [] => Err ErrNoCommands
  | _ => if existsb is_driver cmds then Ok (mkComposer cmds r PhaseInit) else Err ErrNoDrivers
  end.

Definition CurrentPhase (c : Composer) : Phase := phase c.

Definition filterDrivers (cmds : list Command) : list Command := filter (λ c, is_driver c = true) cmds.

Definition filterByKind (cmds : list Command) (kind : CommandKind) : list Command := filter (λ c, cmdKind c = kind) cmds.

Definition Drivers (c : Composer) : list Command := filterDrivers (commands c).

(** The candidates of a phase; [None] for the phases that return at once. *)
Definition candidates (c : Composer) : option (list Command) :=
  if phase c =? PhaseInit then None
  else if phase c =? PhaseSetup then Some (filterByKind (commands c) CmdSetup)
  else if phase c =? PhaseRun then Some (filterDrivers (commands c) ++ filterByKind (commands c) CmdWatch)
  else if phase c =? PhaseSettle then Some (filterByKind (commands c) CmdSettle)
  else if phase c =? PhaseVerify then Some (filterByKind (commands c) CmdVerify)
  else if phase c =? PhaseDone then None
  else Some [].

(** The command, or [nil], with the next composer; the error is always [nil].
    The outer [None] is a panic. *)
Definition NextCommand (c : Composer) : option (option Command * Composer) :=
  match candidates c with
  | None | Some [] => Some (None, c)
  | Some cs =>
      '(idx, r) ← Intn (Z.of_nat (length cs)) (rng c);
      cmd ← cs !! Z.to_nat idx;
      Some (Some cmd, mkComposer (commands c) r (phase c))
  end.

Definition Advance (c : Composer) : Phase * Composer :=
  let c := if phase c <? PhaseDone then mkComposer (commands c) (rng c) (phase c + 1) else c in (phase c, c).

Definition CommandsByKind (c : Composer) (kind : CommandKind) : list Command :=
  sort_by (λ a b, String.ltb (Name a) (Name b)) (filterByKind (commands c) kind).

(** ** Specification *)

(** The kinds of command a phase may run. *)
Definition allowed (p : Phase) (kind : CommandKind) : Prop :=
  match p with
  | 1 => kind = CmdSetup
  | 2 => kind ∈ [CmdWorkload; CmdScenario; CmdSequence; CmdWatch]
  | 3 => kind = CmdSettle
  | 4 => kind = CmdVerify
  | _ => False
  end.

Definition advances (n : nat) (c : Composer) : Composer := Nat.iter n (λ c, (Advance c).2) c.

(** ** Lemmas *)

Lemma candidates_spec c cs :
  0 ≤ phase c ≤ 5 → candidates c = Some cs →
  ∀ cmd, cmd ∈ cs ↔ cmd ∈ commands c ∧ allowed (phase c) (cmdKind cmd).
Proof.
  intros Hp. unfold candidates, PhaseInit, PhaseSetup, PhaseRun, PhaseSettle, PhaseVerify, PhaseDone.
  assert (phase c = 0 ∨ phase c = 1 ∨ phase c = 2 ∨ phase c = 3 ∨ phase c = 4 ∨ phase c = 5) as Hc by lia.
  unfold allowed. destruct Hc as [E|[E|[E|[E|[E|E]]]]]; rewrite E; simpl; try done; intros [= <-] cmd;
    unfold filterByKind, filterDrivers; rewrite ?elem_of_app, !list_elem_of_filter; try tauto.
  unfold is_driver. rewrite !orb_true_iff, !bool_decide_eq_true. rewrite !elem_of_cons, elem_of_nil. tauto.
Qed.

Lemma candidates_some c : 1 ≤ phase c ≤ 4 → is_Some (candidates c).
Proof.
  intros Hp. unfold candidates, PhaseInit, PhaseSetup, PhaseRun, PhaseSettle, PhaseVerify, PhaseDone.
  repeat case_bool; first [by eexists|exfalso; lia].
Qed.

Lemma candidates_length c cs : candidates c = Some cs → (length cs ≤ length (commands c) + length (commands c))%nat.
Proof.
  assert (∀ k, length (filterByKind (commands c) k) ≤ length (commands c))%nat as Hk by (intros; apply length_filter).
  pose proof (length_filter (λ x, is_driver x = true) (commands c)) as Hd.
  unfold candidates. intros Hc. repeat case_match; simplify_eq; rewrite ?length_app; unfold filterDrivers;
    try pose proof (Hk CmdSetup); try pose proof (Hk CmdWatch); try pose proof (Hk CmdSettle); try pose proof (Hk CmdVerify);
    simpl; lia.
Qed.

Lemma NextCommand_spec c :
  Source_ok (rng c) → Z.of_nat (length (commands c)) < 2 ^ 62 → 0 ≤ phase c ≤ 5 →
  ∃ o c', NextCommand c = Some (o, c') ∧ commands c' = commands c ∧ phase c' = phase c ∧ Source_ok (rng c') ∧
    match o with
    | Some cmd => cmd ∈ commands c ∧ allowed (phase c) (cmdKind cmd)
    | None => c' = c ∧ ∀ cmd, cmd ∈ commands c → ¬ allowed (phase c) (cmdKind cmd)
    end.
Proof.
  intros Hr Hl Hp. unfold NextCommand. destruct (candidates c) as [[|x cs]|] eqn:Hc.
  - exists None, c. split_and!; try done. intros cmd Hcmd Ha.
    assert (cmd ∈ []) as H; [|by apply elem_of_nil in H]. by apply (candidates_spec c [] Hp Hc).
  - assert (length (x :: cs) ≤ length (commands c) + length (commands c))%nat as Hlen by by apply candidates_length.
    destruct (Intn_spec (Z.of_nat (length (x :: cs))) (rng c)) as (v & s' & -> & Hv & Hs'); [cbn [length] in *; lia|done|].
    cbn [mbind option_bind]. destruct ((x :: cs) !! Z.to_nat v) as [cmd|] eqn:Hcmd.
    2: { apply lookup_ge_None in Hcmd. lia. }
    cbn. exists (Some cmd), (mkComposer (commands c) s' (phase c)). split_and!; try done;
      apply (candidates_spec c (x :: cs) Hp Hc); by eapply list_elem_of_lookup_2.
  - exists None, c. split_and!; try done. intros cmd Hcmd Ha.
    destruct (decide (1 ≤ phase c ≤ 4)) as [H|H]; [by destruct (candidates_some c H); congruence|].
    assert (phase c = 0 ∨ phase c = 5) as [E|E] by lia; by rewrite E in Ha.
Qed.

(** ** Properties *)

(** What the driver of a composer does to it. *)
Inductive composer_op := OpAdvance | OpNext.

Definition composer_step (c : Composer) (o : composer_op) : Composer :=
  match o with
  | OpAdvance => (Advance c).2
  | OpNext => match NextCommand c with Some (_, c') => c' | None => c end
  end.

Definition is_advance (o : composer_op) : bool := match o with OpAdvance => true | OpNext => false end.

Lemma composer_run cmds r c0 ops :
  New cmds r = Ok c0 → Source_ok r → Z.of_nat (length cmds) < 2 ^ 62 →
  let c := foldl composer_step c0 ops in
  commands c = cmds ∧ phase c = Z.min 5 (Z.of_nat (count_if is_advance ops)) ∧ Source_ok (rng c).
Proof.
  intros Hn Hr Hl. assert (c0 = mkComposer cmds r PhaseInit) as ->.
  { unfold New in Hn. destruct cmds; [done|]. destruct (existsb _ _); congruence. }
  clear Hn. induction ops as [|o ops IH] using rev_ind; [done|].
  rewrite foldl_app, count_if_app. cbn [foldl count_if]. destruct IH as (H1 & H2 & H3). set (c := foldl _ _ ops) in *.
  destruct o; simpl.
  - unfold Advance, PhaseDone. destruct (Z.ltb_spec (phase c) 5); simpl; split_and!; try done; lia.
  - destruct (NextCommand_spec c) as (o & c' & -> & Hc & Hp & Hs & _); [done|by rewrite H1|lia|].
    split_and!; [congruence|rewrite Hp; lia|done].
Qed.

(** A composer made from commands that include a driver goes through
    init, setup, run, settle, verify and done, one phase per [Advance], and stays
    there.  In every phase [NextCommand] returns without a panic: one of the
    commands the phase allows when there is one, else nothing and no draw; in the
    run phase there always is one. *)
Theorem composer_lifecycle (cmds : list Command) (r : Source) (c0 : Composer) (ops : list composer_op)
    (Hnew : New cmds r = Ok c0) (Hr : Source_ok r) (Hlen : Z.of_nat (length cmds) < 2 ^ 62) :
  let c := foldl composer_step c0 ops in
  phase c = Z.min 5 (Z.of_nat (count_if is_advance ops)) ∧
  ∃ o c', NextCommand c = Some (o, c') ∧
    match o with
    | Some cmd => cmd ∈ cmds ∧ allowed (phase c) (cmdKind cmd)
    | None => c' = c ∧ ∀ cmd, cmd ∈ cmds → ¬ allowed (phase c) (cmdKind cmd)
    end ∧
    (phase c = PhaseRun → o ≠ None).
Proof.
  intros c. destruct (composer_run cmds r c0 ops Hnew Hr Hlen) as (H1 & H2 & H3). fold c in H1, H2, H3. split; [done|].
  destruct (NextCommand_spec c) as (o & c' & E & _ & _ & _ & Ho); [done|by rewrite H1|lia|].
  exists o, c'. rewrite H1 in Ho. split_and!; [done|done|]. intros Hp ->. destruct Ho as [_ Ho].
  unfold New in Hnew. destruct cmds as [|x cmds]; [done|]. destruct (existsb is_driver (x :: cmds)) eqn:Hd; [|done].
  apply existsb_exists in Hd as (cmd & Hin & Hcmd). apply (Ho cmd); [by apply list_elem_of_In|].
  rewrite Hp. unfold is_driver in Hcmd. rewrite !orb_true_iff, !bool_decide_eq_true in Hcmd.
  simpl. rewrite !elem_of_cons. tauto.
Qed.

(** Two prefixes of one name are comparable. *)
Lemma prefix_comparable p q name :
  String.prefix p name = true → String.prefix q name = true → String.prefix p q = true ∨ String.prefix q p = true.
Proof.
  revert q name. induction p as [|a p IH]; intros q name Hp Hq; [by left; destruct q|].
  destruct q as [|b q]; [by right|]. destruct name as [|c name]; [done|].
  cbn [String.prefix] in *. repeat case_match; simplify_eq; try done; eauto; congruence.
Qed.

(** The prefixes exclude each other: their order does not matter. *)
Lemma prefixes_exclusive name p q :
  p ∈ commandPrefixes → q ∈ commandPrefixes → String.prefix p.1 name = true → String.prefix q.1 name = true → p = q.
Proof.
  intros Hp Hq H1 H2. pose proof (prefix_comparable _ _ _ H1 H2) as H. clear H1 H2. revert H.
  assert (Forall (λ p, Forall (λ q, String.prefix p.1 q.1 = true ∨ String.prefix q.1 p.1 = true → p = q)
    commandPrefixes) commandPrefixes) as HF.
  { repeat constructor; by intros [E|E]. }
  rewrite Forall_forall in HF. specialize (HF _ Hp). rewrite Forall_forall in HF. by apply HF.
Qed.

Lemma classifyCommand_spec name kind :
  classifyCommand name = (kind, true) ↔ ∃ p, (p, kind) ∈ commandPrefixes ∧ String.prefix p name = true.
Proof.
  unfold classifyCommand. destruct (find_index (λ cp, String.prefix cp.1 name) commandPrefixes) as [i|] eqn:Hi.
  - apply find_index_Some in Hi as (cp & Hcp & Hpre & _). cbn [mbind option_bind]. rewrite Hcp.
    pose proof (list_elem_of_lookup_2 _ _ _ Hcp) as Hin. split.
    + intros [= <-]. exists cp.1. by destruct cp.
    + intros (p & Hp & Hn). by rewrite (prefixes_exclusive name cp (p, kind) Hin Hp Hpre Hn).
  - cbn. split; [done|]. intros (p & Hp & Hn). pose proof (proj1 (find_index_None _ _) Hi _ Hp) as E. simpl in E. congruence.
Qed.

(** What one entry of the walk contributes. *)
Definition discovered (w : walk_entry) : option Command :=
  match w with
  | WalkEntry path name false mode =>
      if executable mode then
        match classifyCommand name with (kind, true) => Some (mkCommand name kind path "") | _ => None end
      else None
  | _ => None
  end.

Definition walk_error (w : walk_entry) : option string := match w with WalkError e => Some e | _ => None end.

Lemma walk_reference entries : ∀ cmds,
  walk entries cmds =
    match head (omap walk_error entries) with
    | Some e => Err e
    | None => Ok (cmds ++ omap discovered entries)
    end.
Proof.
  induction entries as [|[e|path name dir mode] entries IH]; intros cmds; cbn [walk]; [by rewrite app_nil_r|done|].
  cbn [omap list_omap walk_error discovered].
  destruct dir; [apply IH|]. destruct (executable mode); [cbn [negb]|apply IH].
  destruct (classifyCommand name) as [kind []]; [|apply IH]. rewrite IH. by rewrite <-app_assoc.
Qed.

Lemma discovered_spec w cmd :
  discovered w = Some cmd ↔
    ∃ path name mode p kind, w = WalkEntry path name false mode ∧ executable mode = true ∧
      (p, kind) ∈ commandPrefixes ∧ String.prefix p name = true ∧ cmd = mkCommand name kind path "".
Proof.
  split.
  - destruct w as [e|path name [] mode]; [done..|]. cbn [discovered]. destruct (executable mode) eqn:Hm; [|done].
    destruct (classifyCommand name) as [kind []] eqn:Hk; [|done]. intros [= <-].
    apply classifyCommand_spec in Hk as (p & ? & ?). by exists path, name, mode, p, kind.
  - intros (path & name & mode & p & kind & -> & Hm & Hp & Hn & ->). cbn [discovered]. rewrite Hm.
    by rewrite (proj2 (classifyCommand_spec name kind) (ex_intro _ p (conj Hp Hn))).
Qed.

(** [Discover] fails exactly when the walk reports an error, with the
    first one and no commands; otherwise it returns the commands sorted by name,
    one for each executable file whose name starts with one of the seven
    prefixes, with the kind of that prefix, and no other. *)
Theorem Discover_spec (entries : list walk_entry) :
  match Discover entries with
  | Err e => head (omap walk_error entries) = Some e
  | Ok cmds =>
      omap walk_error entries = [] ∧
      StronglySorted (λ a b, String.ltb (Name b) (Name a) = false) cmds ∧
      cmds ≡ₚ omap discovered entries ∧
      ∀ cmd, cmd ∈ cmds ↔
        ∃ path mode p, WalkEntry path (Name cmd) false mode ∈ entries ∧ executable mode = true ∧
          (p, cmdKind cmd) ∈ commandPrefixes ∧ String.prefix p (Name cmd) = true ∧
          cmdPath cmd = path ∧ Container cmd = ""%string
  end.
Proof.
  unfold Discover. rewrite walk_reference. destruct (omap walk_error entries) as [|e l]; cbn [head]; [|done].
  rewrite app_nil_l. split_and!; [done|apply (sort_by_key_sorted Name)|apply sort_by_Permutation|]. intros cmd.
  rewrite sort_by_Permutation, list_elem_of_omap. setoid_rewrite discovered_spec. split.
  - intros (w & Hw & path & name & mode & p & kind & -> & Hm & Hp & Hn & ->). by exists path, mode, p.
  - intros (path & mode & p & Hw & Hm & Hp & Hn & <- & Hc). eexists. split; [done|].
    exists (cmdPath cmd), (Name cmd), mode, p, (cmdKind cmd). split_and!; try done. destruct cmd; simpl in *. by rewrite Hc.
Qed.

(** ** Witness *)

Definition example_commands : list Command :=
  [mkCommand "setup_db" CmdSetup "/t/setup_db" ""; mkCommand "verify_x" CmdVerify "/t/verify_x" "";
   mkCommand "workload_a" CmdWorkload "/t/workload_a" ""]%string.

Lemma composer_lifecycle_witness :
  ∃ c0, New example_commands (mkSource 7) = Ok c0 ∧
  let c := foldl composer_step c0 [OpAdvance; OpNext; OpAdvance; OpNext] in
  phase c = 2 ∧
  ∃ o c', NextCommand c = Some (o, c') ∧
    match o with
    | Some cmd => cmd ∈ example_commands ∧ allowed (phase c) (cmdKind cmd)
    | None => c' = c ∧ ∀ cmd, cmd ∈ example_commands → ¬ allowed (phase c) (cmdKind cmd)
    end ∧
    (phase c = PhaseRun → o ≠ None).
Proof.
  exists (mkComposer example_commands (mkSource 7) PhaseInit). split; [reflexivity|].
  exact (composer_lifecycle example_commands (mkSource 7) (mkComposer example_commands (mkSource 7) PhaseInit)
    [OpAdvance; OpNext; OpAdvance; OpNext] eq_refl
    ltac:(unfold Source_ok, is_word; simpl; lia) ltac:(vm_compute; reflexivity)).
Defined.
