(* ===== verification/Stores.v ===== *)
(** * Stores across rounds and runs ([internal/store], [internal/history])

    The stores keep JSON in a database of one bucket each.  What [Load] reads is
    an argument of the operations and what they put is their result; a failing
    read is an empty one, as in the source, which ignores that error.  Marshalling
    fails on a number that is not finite.  Where the source collects a map in
    iteration order the model lists it in some order, and no theorem depends on
    it. *)
From stdpp Require Import strings pretty.
From S2P Require Import Prelude Strings Word Float Ring Fault Adaptive Frontier Explorer.
Local Open Scope Z_scope.

(** ** Run history ([history.go]) *)

Module History.

Record ViolationKey := mkViolationKey { Property : string; Message : string }.
#[export] Instance ViolationKey_eq_dec : EqDecision ViolationKey.
Proof. solve_decision. Defined.

Record RunRecord := mkRunRecord { RunID : string; Seed : Z; At : Z; States : Z; Edges : Z; Violations : list ViolationKey }.

Record Classification := mkClassification {
  Key : ViolationKey; Status : string; FirstSeenAt : Z; LastSeenAt : Z; OccurrenceRuns : Z; ConsecutiveRuns : Z }.

Record DB := mkDB { Records : list RunRecord; MaxRuns : Z }.

Definition Add (record : RunRecord) (db : DB) : DB :=
  let rs := Records db ++ [record] in
  if (0 <? MaxRuns db) && (MaxRuns db <? Z.of_nat (length rs)) then
    let excess := Z.of_nat (length rs) - MaxRuns db in mkDB (drop (Z.to_nat excess) rs) (MaxRuns db)
  else mkDB rs (MaxRuns db).

Definition violationKeyEqual (a b : ViolationKey) : bool :=
  String.eqb (Property a) (Property b) && String.eqb (Message a) (Message b).

Definition recordContains (rec : RunRecord) (key : ViolationKey) : bool :=
  existsb (λ v, violationKeyEqual v key) (Violations rec).

(** The counters of the loop over the history: occurrences, streak, whether it
    is broken, first and last time seen ([0] is the zero time). *)
Record tally := mkTally { t_occ : Z; t_consec : Z; t_broken : bool; t_first : Z; t_last : Z }.

Definition count_record (key : ViolationKey) (t : tally) (rec : RunRecord) : tally :=
  if recordContains rec key then
    mkTally (t_occ t + 1) (if negb (t_broken t) then t_consec t + 1 else t_consec t) (t_broken t)
      (At rec) (if t_last t =? 0 then At rec else t_last t)
  else mkTally (t_occ t) (t_consec t) true (t_first t) (t_last t).

Definition status (occurrenceRuns consecutiveRuns n : Z) : string :=
  let s :=
    if occurrenceRuns =? 0 then "new"
    else if (3 <=? consecutiveRuns) || (occurrenceRuns =? n) then "ongoing"
    else if (0 <? n) && (occurrenceRuns <? Z.quot n 2) then "flaky"
    else "ongoing" in
  if n =? 0 then "new" else s.

Definition classify_key (recent : list RunRecord) (n : Z) (key : ViolationKey) : Classification :=
  let t := foldl (count_record key) (mkTally 0 0 false 0 0) (rev recent) in
  mkClassification key (status (t_occ t) (t_consec t) n) (t_first t) (t_last t) (t_occ t) (t_consec t).

(** The order of the sorts: by property, then message. *)
Definition key_less (a b : ViolationKey) : bool :=
  if negb (String.eqb (Property a) (Property b)) then String.ltb (Property a) (Property b)
  else String.ltb (Message a) (Message b).

(** The records before the current one, and the last [MaxRuns] of them. *)
Definition before_current (db : DB) : list RunRecord :=
  if (1 <? length (Records db))%nat then take (length (Records db) - 1) (Records db) else [].

Definition history_window (db : DB) : Z :=
  let history := before_current db in
  if Z.of_nat (length history) <? MaxRuns db then Z.of_nat (length history) else MaxRuns db.

Definition recent_records (db : DB) : list RunRecord :=
  let history := before_current db in
  let n := history_window db in
  if n <? Z.of_nat (length history) then drop (Z.to_nat (Z.of_nat (length history) - n)) history else history.

Definition Classify (db : DB) (currentViolations : list ViolationKey) : list Classification * list ViolationKey :=
  let history := before_current db in
  let n := history_window db in
  let classifications := map (classify_key (recent_records db) n) currentViolations in
  let resolved :=
    match last history with
    | None => []
    | Some lastRecord => filter (λ v, v ∉ currentViolations) (Violations lastRecord)
    end in
  (sort_by (λ a b, key_less (Key a) (Key b)) classifications, sort_by key_less resolved).

(** *** Lemmas *)

Lemma recordContains_spec rec key : recordContains rec key = true ↔ key ∈ Violations rec.
Proof.
  unfold recordContains. rewrite existsb_exists. split.
  - intros (v & Hv & [H1%String.eqb_eq H2%String.eqb_eq]%andb_true_iff). apply list_elem_of_In in Hv.
    destruct v, key; simpl in *. by subst.
  - intros Hk. exists key. split; [by apply list_elem_of_In|]. unfold violationKeyEqual. by rewrite !String.eqb_refl.
Qed.

(** The runs of the most recent uninterrupted series that have the key, from
    the newest record on. *)
Fixpoint streak (key : ViolationKey) (newest_first : list RunRecord) : nat :=
  match newest_first with
  | rec :: rest => if recordContains rec key then S (streak key rest) else O
  | [] => O
  end.

Lemma tally_spec key rs : ∀ t,
  let u := foldl (count_record key) t rs in
  t_occ u = t_occ t + Z.of_nat (count_if (λ r, recordContains r key) rs) ∧
  t_consec u = t_consec t + (if t_broken t then 0 else Z.of_nat (streak key rs)).
Proof.
  induction rs as [|r rs IH]; intros t u; [subst u; simpl; destruct (t_broken t); lia|].
  subst u. cbn [foldl count_if streak]. destruct (IH (count_record key t r)) as [H1 H2]. rewrite H1, H2.
  unfold count_record. destruct (recordContains r key); simpl; destruct (t_broken t); simpl; lia.
Qed.

Lemma count_if_rev {A} (p : A → bool) (l : list A) : count_if p (rev l) = count_if p l.
Proof. apply count_if_Permutation. symmetry. apply Permutation_rev. Qed.

Lemma key_less_asym a b : key_less a b = true → key_less b a = false.
Proof.
  unfold key_less. rewrite (String.eqb_sym (Property b)). destruct (String.eqb (Property a) (Property b)); simpl; apply string_ltb_asym.
Qed.

Lemma key_less_negtrans a b c : key_less b a = false → key_less c b = false → key_less c a = false.
Proof.
  unfold key_less. destruct a as [pa ma], b as [pb mb], c as [pc mc]; cbn [Property Message].
  destruct (String.eqb_spec pb pa), (String.eqb_spec pc pb), (String.eqb_spec pc pa); simpl; subst; try done; try congruence;
    intros H1 H2; try by eapply string_ltb_negtrans.
  by destruct n; apply string_ltb_total.
Qed.

Lemma sort_by_key_less {A} (f : A → ViolationKey) (l : list A) :
  StronglySorted (λ x y, key_less (f y) (f x) = false) (sort_by (λ x y, key_less (f x) (f y)) l).
Proof.
  apply (sort_by_sorted (λ x y, key_less (f x) (f y)) (λ _, True)).
  - intros x y. apply key_less_asym.
  - intros x y z _ _ _. apply key_less_negtrans.
  - by apply Forall_forall.
Qed.

(** A history with a limit holds exactly the last [MaxRuns] of the runs
    added to it. *)
Theorem Add_keeps_last (runs : list RunRecord) (m : Z) (Hm : 0 < m) :
  foldl (λ db r, Add r db) (mkDB [] m) runs = mkDB (last_n (Z.to_nat m) runs) m.
Proof.
  induction runs as [|r runs IH] using rev_ind; [done|]. rewrite foldl_app, IH. cbn [foldl]. unfold Add. simpl.
  rewrite (proj2 (Z.ltb_lt 0 m)) by done. cbn [andb].
  assert (length (last_n (Z.to_nat m) runs) = length runs `min` Z.to_nat m)%nat as Hl by (unfold last_n; rewrite length_drop; lia).
  assert (length (last_n (Z.to_nat m) runs ++ [r]) = S (length runs `min` Z.to_nat m)) as Hl' by (rewrite length_app, Hl; simpl; lia).
  rewrite Hl'. destruct (Z.ltb_spec m (Z.of_nat (S (length runs `min` Z.to_nat m)))); f_equal.
  - replace (Z.to_nat _) with 1%nat by lia.
    destruct (lookup_lt_is_Some_2 runs (length runs - Z.to_nat m)) as [y Hy]; [lia|].
    by rewrite (last_n_snoc _ _ _ y) by (done || lia).
  - rewrite !last_n_le by (rewrite ?length_app; simpl; lia). done.
Qed.

Lemma before_current_snoc db hist cur :
  Records db = hist ++ [cur] → before_current db = hist.
Proof.
  intros H. unfold before_current. rewrite H, length_app. simpl. destruct hist as [|r hist]; [done|].
  rewrite (proj2 (Nat.ltb_lt _ _)) by (simpl; lia).
  replace (length (r :: hist) + 1 - 1)%nat with (length (r :: hist)) by lia. by rewrite take_app_length.
Qed.

Lemma status_spec occ consec n :
  0 ≤ occ ≤ n → status occ consec n =
    if occ =? 0 then "new"%string
    else if (3 <=? consec) || (occ =? n) || (n / 2 <=? occ) then "ongoing"%string else "flaky"%string.
Proof.
  intros H. unfold status. destruct (Z.eqb_spec occ 0) as [->|Ho]; [by destruct (n =? 0)|].
  destruct (Z.eqb_spec n 0); [lia|]. destruct ((3 <=? consec) || (occ =? n)); cbn [orb]; [done|].
  rewrite Z.quot_div_nonneg by lia. destruct (Z.ltb_spec 0 n); [|lia]. cbn [andb].
  destruct (Z.ltb_spec occ (n / 2)), (Z.leb_spec (n / 2) occ); done || lia.
Qed.

(** The classification of the current run against the runs [hist] before
    it.  Every current violation is classified once, in order of property and
    message, by the number of the last [MaxRuns] earlier runs that had it and the
    length of its current series: new if none had it; ongoing if the series is
    three or longer, if all had it, or if at least half (rounded down) did; flaky
    otherwise.  Resolved are exactly the violations of the previous run that are
    gone. *)
Theorem Classify_spec (hist : list RunRecord) (cur : RunRecord) (m : Z) (keys : list ViolationKey) (Hm : 0 < m) :
  let recent := last_n (Z.to_nat m) hist in
  let '(cs, resolved) := Classify (mkDB (hist ++ [cur]) m) keys in
  map Key cs ≡ₚ keys ∧
  StronglySorted (λ a b, key_less (Key b) (Key a) = false) cs ∧
  (∀ c, c ∈ cs →
    let occ := count_if (λ r, recordContains r (Key c)) recent in
    OccurrenceRuns c = Z.of_nat occ ∧ ConsecutiveRuns c = Z.of_nat (streak (Key c) (rev recent)) ∧
    Status c = (if (occ =? 0)%nat then "new"
                else if (3 <=? streak (Key c) (rev recent))%nat || (occ =? length recent)%nat ||
                        (length recent / 2 <=? occ)%nat then "ongoing" else "flaky")%string) ∧
  StronglySorted (λ a b, key_less b a = false) resolved ∧
  (∀ v, v ∈ resolved ↔ v ∉ keys ∧ ∃ r, last hist = Some r ∧ v ∈ Violations r).
Proof.
  intros recent. unfold Classify. rewrite (before_current_snoc _ hist cur) by done.
  set (db := mkDB (hist ++ [cur]) m).
  assert (history_window db = Z.of_nat (length recent)) as Hn.
  { unfold history_window. rewrite (before_current_snoc db hist cur) by done. unfold recent, last_n. rewrite length_drop.
    simpl. case_bool; lia. }
  assert (recent_records db = recent) as Hrec.
  { unfold recent_records. rewrite Hn, (before_current_snoc db hist cur) by done. unfold recent, last_n. rewrite length_drop.
    case_bool; [f_equal; lia|]. by replace (length hist - Z.to_nat m)%nat with 0%nat by lia. }
  rewrite Hn, Hrec. split_and!.
  - rewrite (Permutation_map Key (sort_by_Permutation _ _)), map_map. simpl. by rewrite map_id.
  - apply (sort_by_key_less Key).
  - intros c Hc. rewrite sort_by_Permutation in Hc. apply list_elem_of_fmap in Hc as (key & -> & _).
    unfold classify_key. cbn [OccurrenceRuns ConsecutiveRuns Status Key].
    destruct (tally_spec key (rev recent) (mkTally 0 0 false 0 0)) as [H1 H2]. cbn [t_occ t_consec t_broken] in H1, H2.
    rewrite Z.add_0_l in H1, H2.
    rewrite H1, H2, count_if_rev. pose proof (count_if_le_length (λ r, recordContains r key) recent) as Hle.
    set (occ := count_if _ recent) in *. split_and!; [done..|]. rewrite status_spec by lia.
    replace (Z.of_nat (length recent) / 2) with (Z.of_nat (length recent / 2)) by (rewrite Nat2Z.inj_div; done).
    repeat match goal with
    | |- context [Z.eqb ?a ?b] => destruct (Z.eqb_spec a b)
    | |- context [Nat.eqb ?a ?b] => destruct (Nat.eqb_spec a b)
    | |- context [Z.leb ?a ?b] => destruct (Z.leb_spec a b)
    | |- context [Nat.leb ?a ?b] => destruct (Nat.leb_spec a b)
    end; done || lia.
  - apply (sort_by_key_less id).
  - intros v. rewrite sort_by_Permutation. destruct (last hist) as [r|].
    + rewrite list_elem_of_filter. naive_solver.
    + rewrite elem_of_nil. naive_solver.
Qed.

Definition example_run (id : string) (at_ : Z) (vs : list ViolationKey) : RunRecord := mkRunRecord id 0 at_ 0 0 vs.

Lemma Add_keeps_last_witness :
  foldl (λ db r, Add r db) (mkDB [] 2) [example_run "a" 1 []; example_run "b" 2 []; example_run "c" 3 []] =
  mkDB [example_run "b" 2 []; example_run "c" 3 []] 2.
Proof. exact (Add_keeps_last [example_run "a" 1 []; example_run "b" 2 []; example_run "c" 3 []] 2 ltac:(lia)). Defined.

Lemma Classify_spec_witness :
  let k := mkViolationKey "p" "m" in
  let j := mkViolationKey "q" "m" in
  let hist := [example_run "a" 1 [k]; example_run "b" 2 []; example_run "c" 3 []; example_run "d" 4 [j]; example_run "e" 5 [j]] in
  let '(cs, resolved) := Classify (mkDB (hist ++ [example_run "f" 6 [k]]) 20) [k] in
  map Status cs = ["flaky"]%string ∧ map Key cs ≡ₚ [k] ∧ resolved = [j].
Proof.
  intros k j hist.
  exact (conj eq_refl (conj (proj1 (Classify_spec hist (example_run "f" 6 [k]) 20 [k] ltac:(lia))) eq_refl)).
Defined.

End History.

(** ** Regressions ([regression.go]) *)

Module Regression.

Record PropCount := mkPropCount { AssertType : string; Total : Z; Passed : Z; Failed : Z }.

Record AssertionSnapshot := mkSnapshot { Round : Z; Seed : Z; PropertyCounts : gmap string PropCount }.

Record RegressionAlert := mkAlert { Property : string; PriorPassed : Z; CurrentFailed : Z; aRound : Z }.

(** [if pc.Passed > prevPassed[prop] { prevPassed[prop] = pc.Passed }]; an
    absent entry is zero. *)
Definition raise_passed (prevPassed : gmap string Z) (prop : string) (pc : PropCount) : gmap string Z :=
  if default 0 (prevPassed !! prop) <? Passed pc then <[prop := Passed pc]> prevPassed else prevPassed.

Definition prev_passed (existing : list AssertionSnapshot) : gmap string Z :=
  foldl (λ m s, foldl (λ m kv, raise_passed m kv.1 kv.2) m (map_to_list (PropertyCounts s))) ∅ existing.

Definition find_alerts (prevPassed : gmap string Z) (snap : AssertionSnapshot) : list RegressionAlert :=
  omap (λ kv : string * PropCount,
    let '(prop, pc) := kv in
    let prev := default 0 (prevPassed !! prop) in
    if (0 <? Failed pc) && (0 <? prev) then Some (mkAlert prop prev (Failed pc) (Round snap)) else None)
    (map_to_list (PropertyCounts snap)).

(** The alerts, and the snapshots the transaction puts. *)
Definition Record_ (snap : AssertionSnapshot) (existing : list AssertionSnapshot) :
    list RegressionAlert * list AssertionSnapshot :=
  let alerts :=
    if (0 <? length existing)%nat then
      sort_by (λ a b, String.ltb (Property a) (Property b)) (find_alerts (prev_passed existing) snap)
    else [] in
  (alerts, existing ++ [snap]).

(** *** Lemmas *)

(** The best earlier count of a property. *)
Definition best_passed (prop : string) (existing : list AssertionSnapshot) : Z :=
  foldr Z.max 0 (omap (λ s, Passed <$> PropertyCounts s !! prop) existing).

Lemma raise_passed_lookup m prop pc q :
  default 0 (raise_passed m prop pc !! q) =
    if decide (q = prop) then Z.max (default 0 (m !! q)) (Passed pc) else default 0 (m !! q).
Proof.
  unfold raise_passed. destruct (decide (q = prop)) as [->|Hne]; case_bool; rewrite ?lookup_insert_eq, ?lookup_insert_ne by done; simpl;
    try done; lia.
Qed.

Lemma foldr_max_app l1 l2 : foldr Z.max 0 (l1 ++ l2) = Z.max (foldr Z.max 0 l1) (foldr Z.max 0 l2).
Proof. induction l1 as [|x l1 IH]; simpl; [|rewrite IH; lia]. induction l2; simpl; lia. Qed.

Lemma foldr_max_nonneg l : 0 ≤ foldr Z.max 0 l.
Proof. induction l; cbn [foldr]; lia. Qed.

(** Raising with a list of pairs that are the pairs of a map. *)
Lemma raise_all_lookup (l : list (string * PropCount)) : ∀ m q,
  NoDup l.*1 →
  default 0 (foldl (λ m kv, raise_passed m kv.1 kv.2) m l !! q) =
    match (list_to_map l : gmap string PropCount) !! q with
    | Some pc => Z.max (default 0 (m !! q)) (Passed pc)
    | None => default 0 (m !! q)
    end.
Proof.
  induction l as [|[k pc] l IH]; intros m q Hnd; [done|]. cbn [foldl fmap list_fmap] in *. rewrite list_to_map_cons.
  apply NoDup_cons in Hnd as [Hk Hnd]. rewrite IH by done. rewrite raise_passed_lookup. cbn [fst snd] in *.
  destruct (decide (q = k)) as [->|Hne].
  - rewrite lookup_insert_eq. by rewrite (not_elem_of_list_to_map_1 l k Hk).
  - by rewrite lookup_insert_ne by done.
Qed.

Lemma prev_passed_spec existing prop : default 0 (prev_passed existing !! prop) = best_passed prop existing.
Proof.
  unfold prev_passed, best_passed. induction existing as [|s existing IH] using rev_ind; [done|].
  rewrite foldl_app, omap_app. cbn [foldl omap list_omap]. rewrite raise_all_lookup by apply NoDup_fst_map_to_list.
  rewrite list_to_map_to_list, IH, foldr_max_app.
  pose proof (foldr_max_nonneg (omap (λ s, Passed <$> PropertyCounts s !! prop) existing)) as H0.
  destruct (PropertyCounts s !! prop); cbn [fmap option_fmap option_map foldr]; lia.
Qed.

(** An alert is raised for exactly the properties that fail in the new
    snapshot and passed in some earlier one, with the most passes of any earlier
    snapshot, in order of their names; the snapshot is appended to the history. *)
Theorem Record_alerts (snap : AssertionSnapshot) (existing : list AssertionSnapshot) :
  let '(alerts, stored) := Record_ snap existing in
  stored = existing ++ [snap] ∧
  StronglySorted (λ a b, String.ltb (Property b) (Property a) = false) alerts ∧
  NoDup (map Property alerts) ∧
  ∀ a, a ∈ alerts ↔
    ∃ pc, PropertyCounts snap !! Property a = Some pc ∧ 0 < Failed pc ∧ 0 < best_passed (Property a) existing ∧
      PriorPassed a = best_passed (Property a) existing ∧ CurrentFailed a = Failed pc ∧ aRound a = Round snap.
Proof.
  unfold Record_.
  assert (∀ a, a ∈ find_alerts (prev_passed existing) snap ↔
    ∃ pc, PropertyCounts snap !! Property a = Some pc ∧ 0 < Failed pc ∧ 0 < best_passed (Property a) existing ∧
      PriorPassed a = best_passed (Property a) existing ∧ CurrentFailed a = Failed pc ∧ aRound a = Round snap) as Hspec.
  { intros a. unfold find_alerts. rewrite list_elem_of_omap. split.
    - intros ([prop pc] & Hin & Heq). apply elem_of_map_to_list in Hin. rewrite prev_passed_spec in Heq.
      destruct (Z.ltb_spec 0 (Failed pc)), (Z.ltb_spec 0 (best_passed prop existing)); try done. injection Heq as <-.
      by exists pc.
    - intros (pc & Hl & Hf & Hb & H1 & H2 & H3). exists (Property a, pc). split; [by apply elem_of_map_to_list|].
      rewrite prev_passed_spec. rewrite (proj2 (Z.ltb_lt _ _) Hf), (proj2 (Z.ltb_lt _ _) Hb). cbn [andb].
      destruct a; simpl in *. by subst. }
  assert (NoDup (map Property (find_alerts (prev_passed existing) snap))) as Hnd.
  { unfold find_alerts. pose proof (NoDup_fst_map_to_list (PropertyCounts snap)) as Hk.
    induction (map_to_list (PropertyCounts snap)) as [|[k pc] l IH]; [by constructor|]. cbn [omap list_omap].
    cbn [fmap list_fmap] in Hk. apply NoDup_cons in Hk as [Hn Hk]. destruct (_ && _); [|by apply IH].
    cbn [map]. constructor; [|by apply IH]. intros (a & Ha & Hin)%list_elem_of_fmap. apply Hn.
    apply list_elem_of_omap in Hin as ([k' pc'] & Hin & Heq). apply list_elem_of_fmap. exists (k', pc'). split; [|done].
    destruct (_ && _); [|done]. injection Heq as <-. simpl in Ha. by subst. }
  destruct existing as [|s existing].
  - cbn [length Nat.ltb Nat.leb]. split_and!; [done|constructor|by constructor|]. intros a. rewrite <- Hspec.
    split; [by intros ?%elem_of_nil|]. intros Ha. exfalso. rewrite Hspec in Ha.
    destruct Ha as (pc & _ & _ & Hb & _). unfold best_passed in Hb. simpl in Hb. lia.
  - rewrite (proj2 (Nat.ltb_lt _ _)) by (simpl; lia). split_and!; [done|by apply (sort_by_key_sorted Property)| |].
    + by rewrite (Permutation_map Property (sort_by_Permutation _ _)).
    + intros a. by rewrite sort_by_Permutation.
Qed.

End Regression.

(** ** Fault arm history ([faulthistory.go]) *)

Module FaultHistory.

Record FaultHistoryRecord := mkHistory { Rounds : Z; Arms : list ArmStats }.

(** One statistic of the round into the merged map. *)
Definition merge_arm (merged : gmap Kind ArmStats) (s : ArmStats) : gmap Kind ArmStats :=
  if asPulls s =? 0 then merged
  else
    match merged !! asKind s with
    | Some prev =>
        let halvePulls := Z.quot (asPulls prev) 2 in
        let halvePulls := if halvePulls =? 0 then 1 else halvePulls in
        let totalPulls := halvePulls + asPulls s in
        <[asKind s := mkArmStats (asKind s) totalPulls
            (fdiv (fadd (fmul (asAvgReward prev) (float_of_Z halvePulls)) (fmul (asAvgReward s) (float_of_Z (asPulls s))))
               (float_of_Z totalPulls))
            (asBaseRate s)]> merged
    | None => <[asKind s := s]> merged
    end.

Definition by_kind (arms : list ArmStats) : gmap Kind ArmStats := foldl (λ m a, <[asKind a := a]> m) ∅ arms.

(** What [Merge] puts; the arms are the values of the map, in some order. *)
Definition Merge (stats : list ArmStats) (existing : FaultHistoryRecord) : FaultHistoryRecord :=
  mkHistory (Rounds existing + 1) (map snd (map_to_list (foldl merge_arm (by_kind (Arms existing)) stats))).

(** *** Lemmas *)

(** Every value is stored under its kind, and its pulls are between one and
    [b]. *)
Definition arms_ok (b : Z) (m : gmap Kind ArmStats) : Prop :=
  ∀ k a, m !! k = Some a → asKind a = k ∧ 1 ≤ asPulls a ≤ b.

Lemma arms_ok_insert b m k a : arms_ok b m → asKind a = k → 1 ≤ asPulls a ≤ b → arms_ok b (<[k := a]> m).
Proof. intros Hm Hk Ha k' a'. rewrite lookup_insert_Some. intros [[<- <-]|[_ H]]; [done|by apply Hm]. Qed.

Lemma by_kind_ok b arms : Forall (λ a, 1 ≤ asPulls a ≤ b) arms → arms_ok b (by_kind arms).
Proof.
  unfold by_kind. induction arms as [|a arms IH] using rev_ind; [by intros _ k a|].
  intros [H1 H2]%Forall_app. rewrite foldl_app. cbn [foldl]. apply Forall_cons in H2 as [H2 _].
  by apply arms_ok_insert; [apply IH|..].
Qed.

Lemma merge_all_ok p stats : ∀ m,
  1 ≤ p → NoDup (map asKind stats) → Forall (λ s, 0 ≤ asPulls s ≤ p) stats →
  arms_ok (2 * p) m → arms_ok (2 * p) (foldl merge_arm m stats).
Proof.
  induction stats as [|s stats IH]; intros m Hp Hnd Hs Hm; [done|]. cbn [foldl map] in *.
  apply NoDup_cons in Hnd as [_ Hnd]. apply Forall_cons in Hs as [Hs Hss]. apply IH; try done.
  unfold merge_arm. destruct (Z.eqb_spec (asPulls s) 0); [done|]. destruct (m !! asKind s) as [prev|] eqn:Hprev.
  - apply arms_ok_insert; [done..|]. simpl. destruct (Hm _ _ Hprev) as [_ Hb].
    rewrite Z.quot_div_nonneg by lia. pose proof (Z.div_le_upper_bound (asPulls prev) 2 p ltac:(lia) ltac:(lia)).
    pose proof (Z.div_pos (asPulls prev) 2 ltac:(lia) ltac:(lia)). destruct (Z.eqb_spec (asPulls prev / 2) 0); lia.
  - apply arms_ok_insert; [done..|]. lia.
Qed.

Definition merge_rounds (rounds : list (list ArmStats)) (h : FaultHistoryRecord) : FaultHistoryRecord :=
  foldl (λ h stats, Merge stats h) h rounds.

(** Because the old pulls are halved at every merge, the history stays
    bounded however many rounds are merged: with at most [p] pulls of a kind in a
    round, every kind is listed once with at least one and at most [2p] pulls. *)
Theorem Merge_bounded (rounds : list (list ArmStats)) (p : Z) (Hp : 1 ≤ p)
    (Hrounds : Forall (λ stats, NoDup (map asKind stats) ∧ Forall (λ s, 0 ≤ asPulls s ≤ p) stats) rounds) :
  let h := merge_rounds rounds (mkHistory 0 []) in
  Rounds h = Z.of_nat (length rounds) ∧ NoDup (map asKind (Arms h)) ∧ Forall (λ a, 1 ≤ asPulls a ≤ 2 * p) (Arms h).
Proof.
  unfold merge_rounds. induction rounds as [|stats rounds IH] using rev_ind; [by split_and!; constructor|].
  apply Forall_app in Hrounds as [H1 H2]. apply Forall_cons in H2 as [[Hnd Hs] _]. cbv zeta in *.
  destruct (IH H1) as (Hr & _ & Hb). rewrite foldl_app. cbn [foldl]. set (h := foldl _ _ rounds) in *.
  unfold Merge. cbn [Rounds Arms].
  pose proof (merge_all_ok p stats (by_kind (Arms h)) Hp Hnd Hs (by_kind_ok _ _ Hb)) as Hok.
  set (m := foldl merge_arm _ stats) in *. split_and!.
  - rewrite Hr, length_app. simpl. lia.
  - rewrite map_map. rewrite (map_ext_in _ fst).
    + apply NoDup_fst_map_to_list.
    + intros [k a] Hin%list_elem_of_In%elem_of_map_to_list. by apply Hok in Hin as [? _].
  - apply Forall_forall. intros a ([k a'] & -> & Hin)%list_elem_of_fmap. apply elem_of_map_to_list in Hin.
    by apply Hok in Hin as [_ ?].
Qed.

Lemma Merge_bounded_witness :
  let a := mkArmStats "node_hang" 3 fone fzero in
  let h := merge_rounds [[a]; [a]; [a]] (mkHistory 0 []) in
  map asPulls (Arms h) = [5] ∧ Forall (λ a, 1 ≤ asPulls a ≤ 2 * 3) (Arms h).
Proof.
  intros a h. split; [vm_compute; reflexivity|].
  refine (proj2 (proj2 (Merge_bounded [[a]; [a]; [a]] 3 _ _))); [lia|].
  repeat (apply Forall_cons_2; [split; [apply NoDup_singleton|apply Forall_singleton; simpl; lia]|]). apply Forall_nil_2.
Defined.

End FaultHistory.

(** ** Seeds ([seeds.go]) *)

Module Seeds.

Definition defaultMaxSeedEntries : Z := 100.

Record SeedRecord := mkSeed {
  SeedID : string; SeedScore : float64; SeedDepth : Z; SeedNewEdges : Z; SeedNovelty : float64; SeedRarity : float64;
  SeedFaultKind : string; SeedPathHash : Z }.

(** [NewSeedCorpus]'s limit. *)
Definition max_size (maxSize : Z) : Z := if maxSize <=? 0 then defaultMaxSeedEntries else maxSize.

Definition seed_of (e : FrontierEntry) : SeedRecord :=
  mkSeed (pretty (SnapshotID e)) (Score e) (Depth e) (NewEdges e) (NoveltyScore e) (RarityScore e) (ActiveFaultKind e)
    (PathHash e).

(** One record into the list of distinct ones; the map [seen] of the source
    gives the index of the entry with that identifier. *)
Definition dedup_step (deduped : list SeedRecord) (r : SeedRecord) : list SeedRecord :=
  match find_index (λ d, String.eqb (SeedID d) (SeedID r)) deduped with
  | Some idx =>
      match deduped !! idx with
      | Some d => if fgt (SeedScore r) (SeedScore d) then <[idx := r]> deduped else deduped
      | None => deduped
      end
  | None => deduped ++ [r]
  end.

(** [cmp.Compare(a, b) < 0]: a NaN is below every number. *)
Definition cmp_less (a b : float64) : bool := (is_nan a && negb (is_nan b)) || flt a b.

Definition is_finite (x : float64) : bool := match x with S754_zero _ | S754_finite _ _ _ => true | _ => false end.

Definition marshalable (r : SeedRecord) : bool := is_finite (SeedScore r) && is_finite (SeedNovelty r) && is_finite (SeedRarity r).

(** What [Save] puts, or the error of [json.Marshal]. *)
Definition Save (maxSize : Z) (entries : list FrontierEntry) (existing : list SeedRecord) : result string (list SeedRecord) :=
  let recs := existing ++ map seed_of entries in
  let deduped := foldl dedup_step [] recs in
  let deduped := sort_by (λ a b, cmp_less (SeedScore b) (SeedScore a)) deduped in
  let deduped := if maxSize <? Z.of_nat (length deduped) then take (Z.to_nat maxSize) deduped else deduped in
  if forallb marshalable deduped then Ok deduped else Err "json: unsupported value"%string.

(** *** Lemmas *)

(** The distinct records of [recs]: one for each identifier, none of them
    beaten by a record of that identifier. *)
Record deduped_of (recs ds : list SeedRecord) : Prop := {
  dd_NoDup : NoDup (map SeedID ds);
  dd_sub d : d ∈ ds → d ∈ recs;
  dd_best r : r ∈ recs → ∃ d, d ∈ ds ∧ SeedID d = SeedID r ∧ fgt (SeedScore r) (SeedScore d) = false }.

Lemma NoDup_map_lookup {A B} (f : A → B) l i j x y :
  NoDup (map f l) → l !! i = Some x → l !! j = Some y → f x = f y → i = j.
Proof.
  intros Hnd Hi Hj Hf. apply (NoDup_lookup _ _ _ (f x) Hnd).
  - by rewrite list_lookup_fmap, Hi.
  - by rewrite list_lookup_fmap, Hj, Hf.
Qed.

Lemma dedup_step_spec recs ds r :
  Forall (λ x, is_nan (SeedScore x) = false) (recs ++ [r]) →
  deduped_of recs ds → deduped_of (recs ++ [r]) (dedup_step ds r).
Proof.
  intros Hnan [H1 H2 H3]. unfold dedup_step.
  destruct (find_index (λ d, String.eqb (SeedID d) (SeedID r)) ds) as [idx|] eqn:Hi.
  - apply find_index_Some in Hi as (d & Hd & Hid%String.eqb_eq & _). rewrite Hd.
    pose proof (list_elem_of_lookup_2 _ _ _ Hd) as Hin.
    destruct (fgt (SeedScore r) (SeedScore d)) eqn:Hgt.
    + assert (map SeedID (<[idx := r]> ds) = map SeedID ds) as Hmap.
      { rewrite (list_fmap_insert SeedID). apply list_insert_id. rewrite list_lookup_fmap, Hd. cbn. by rewrite Hid. }
      assert (r ∈ <[idx := r]> ds) as Hr by (apply (list_elem_of_lookup_2 _ idx), list_lookup_insert_eq; by eapply lookup_lt_Some).
      split; [by rewrite Hmap| |].
      * intros x (i & Hx)%list_elem_of_lookup. apply elem_of_app.
        destruct (decide (i = idx)) as [->|Hne].
        -- rewrite list_lookup_insert_eq in Hx by (by eapply lookup_lt_Some). injection Hx as <-. right. by left.
        -- rewrite list_lookup_insert_ne in Hx by done. left. apply H2. by eapply list_elem_of_lookup_2.
      * intros x Hx. apply elem_of_app in Hx as [Hx|Hx%list_elem_of_singleton]; [|subst x; exists r; split_and!; [done..|apply flt_irrefl]].
        destruct (H3 x Hx) as (d' & Hd' & Hid' & Hb). apply list_elem_of_lookup in Hd' as (i & Hi).
        destruct (decide (i = idx)) as [->|Hne].
        -- assert (d' = d) as -> by congruence. exists r. split_and!; [done|congruence|].
           destruct (fgt (SeedScore x) (SeedScore r)) eqn:E; [|done].
           pose proof (flt_trans _ _ _ Hgt E) as Ht. unfold fgt in *. congruence.
        -- exists d'. split_and!; [|done..]. apply (list_elem_of_lookup_2 _ i). by rewrite list_lookup_insert_ne.
    + split; [done|intros x Hx; apply elem_of_app; left; by apply H2|].
      intros x Hx. apply elem_of_app in Hx as [Hx|Hx%list_elem_of_singleton]; [by apply H3|]. subst x. by exists d.
  - pose proof (proj1 (find_index_None _ _) Hi) as Hno. split.
    + rewrite map_app. apply NoDup_app. split_and!; [done| |by apply NoDup_singleton]. cbn [map].
      intros x (d & -> & Hd)%list_elem_of_fmap Heq%list_elem_of_singleton. specialize (Hno d Hd). simpl in Hno.
      apply String.eqb_neq in Hno. done.
    + intros x Hx. rewrite elem_of_app in *. destruct Hx as [Hx|Hx]; [left; by apply H2|by right].
    + intros x Hx. apply elem_of_app in Hx as [Hx|Hx%list_elem_of_singleton].
      * destruct (H3 x Hx) as (d & Hd & ?). exists d. split; [|done]. apply elem_of_app. by left.
      * subst x. exists r. split_and!; [apply elem_of_app; right; by left|done|apply flt_irrefl].
Qed.

Lemma dedup_spec recs :
  Forall (λ x, is_nan (SeedScore x) = false) recs → deduped_of recs (foldl dedup_step [] recs).
Proof.
  induction recs as [|r recs IH] using rev_ind; intros Hn.
  - split; [by constructor|by intros d ?%elem_of_nil|by intros d ?%elem_of_nil].
  - rewrite foldl_app. cbn [foldl]. apply dedup_step_spec; [done|]. apply IH. by apply Forall_app in Hn as [? _].
Qed.

Lemma cmp_less_asym a b : cmp_less a b = true → cmp_less b a = false.
Proof.
  unfold cmp_less. destruct (is_nan a) eqn:Ha, (is_nan b) eqn:Hb; cbn [negb andb orb]; try done.
  - intros H. by destruct (flt_not_nan _ _ H); congruence.
  - intros _. destruct (flt b a) eqn:E; [|done]. by destruct (flt_not_nan _ _ E); congruence.
  - intros H. by destruct (flt_not_nan _ _ H); congruence.
  - apply flt_asym.
Qed.

Lemma sort_scores_sorted l :
  Forall (λ x, is_nan (SeedScore x) = false) l →
  StronglySorted (λ a b, cmp_less (SeedScore a) (SeedScore b) = false)
    (sort_by (λ a b, cmp_less (SeedScore b) (SeedScore a)) l).
Proof.
  intros Hn. apply (sort_by_sorted (λ a b, cmp_less (SeedScore b) (SeedScore a)) (λ x, is_nan (SeedScore x) = false) l);
    [|intros x y z Hx Hy Hz|done].
  - intros x y. apply cmp_less_asym.
  - unfold cmp_less. rewrite Hx, Hy. cbn [andb orb]. intros E1 E2.
    destruct (flt (SeedScore x) (SeedScore z)) eqn:E; [|done].
    by destruct (flt_negtrans (SeedScore x) (SeedScore y) (SeedScore z)); congruence.
Qed.

(** When no score is a NaN, a successful [Save] stores at most [maxSize]
    seeds, with distinct identifiers and in descending order of score; each is one
    of the old or new records and no record of its identifier has a higher score;
    and the identifiers that are left out have no record with a score above any
    that is kept, and are left out only when the store is full. *)
Theorem Save_keeps_best (maxSize : Z) (entries : list FrontierEntry) (existing stored : list SeedRecord) (Hmax : 0 < maxSize)
    (Hnan : Forall (λ r, is_nan (SeedScore r) = false) (existing ++ map seed_of entries))
    (Hsave : Save maxSize entries existing = Ok stored) :
  let recs := existing ++ map seed_of entries in
  Z.of_nat (length stored) ≤ maxSize ∧
  NoDup (map SeedID stored) ∧
  StronglySorted (λ a b, cmp_less (SeedScore a) (SeedScore b) = false) stored ∧
  (∀ d, d ∈ stored → d ∈ recs ∧ ∀ r, r ∈ recs → SeedID r = SeedID d → fgt (SeedScore r) (SeedScore d) = false) ∧
  (∀ r, r ∈ recs → SeedID r ∉ map SeedID stored →
    Z.of_nat (length stored) = maxSize ∧ ∀ d, d ∈ stored → fgt (SeedScore r) (SeedScore d) = false).
Proof.
  intros recs. unfold Save in Hsave. fold recs in Hsave, Hnan. pose proof (dedup_spec recs Hnan) as [H1 H2 H3].
  set (ds := foldl dedup_step [] recs) in *.
  assert (Forall (λ x, is_nan (SeedScore x) = false) ds) as Hds.
  { apply Forall_forall. intros d Hd. rewrite Forall_forall in Hnan. auto. }
  pose proof (sort_scores_sorted ds Hds) as Hsort. pose proof (sort_by_Permutation (λ a b, cmp_less (SeedScore b) (SeedScore a)) ds) as Hperm.
  set (l := sort_by _ ds) in *.
  assert (stored = take (Z.to_nat maxSize) l) as ->.
  { destruct (forallb marshalable _); [|done]. injection Hsave as <-. case_bool; [done|]. symmetry. apply take_ge. lia. }
  assert (∀ d, d ∈ take (Z.to_nat maxSize) l → d ∈ ds) as Hin 
    by (intros d Hd; rewrite <- Hperm, <- (take_drop (Z.to_nat maxSize) l); apply elem_of_app; by left).
  assert (NoDup (map SeedID l)) as Hnd by by rewrite Hperm.
  assert (∀ d r, d ∈ ds → r ∈ recs → SeedID r = SeedID d → fgt (SeedScore r) (SeedScore d) = false) as Hbest.
  { intros d r Hd Hr Heq. destruct (H3 r Hr) as (d' & Hd' & Hid & Hb). assert (d' = d) as ->; [|done].
    apply list_elem_of_lookup in Hd as (i & Hi), Hd' as (j & Hj).
    pose proof (NoDup_map_lookup SeedID ds j i d' d H1 Hj Hi ltac:(congruence)). congruence. }
  split_and!.
  - rewrite length_take. lia.
  - rewrite <- (take_drop (Z.to_nat maxSize) l), map_app in Hnd. by apply NoDup_app in Hnd as [? _].
  - rewrite <- (take_drop (Z.to_nat maxSize) l) in Hsort. by eapply StronglySorted_app_1_l.
  - intros d Hd. split; [by apply H2, Hin|]. intros r. by apply Hbest, Hin.
  - intros r Hr Hout. destruct (H3 r Hr) as (d' & Hd' & Hid & Hb). rewrite <- Hperm in Hd'.
    assert (d' ∈ drop (Z.to_nat maxSize) l) as Hdrop.
    { rewrite <- (take_drop (Z.to_nat maxSize) l) in Hd'. apply elem_of_app in Hd' as [Hd'|Hd']; [|done].
      exfalso. apply Hout. rewrite <- Hid. by apply list_elem_of_fmap_2. }
    split.
    + assert (0 < length (drop (Z.to_nat maxSize) l))%nat as Hl by (destruct (drop _ l); [by apply elem_of_nil in Hdrop|simpl; lia]).
      rewrite length_drop in Hl. rewrite length_take. lia.
    + intros d Hd. pose proof (sorted_take_drop _ _ _ _ _ Hsort Hd Hdrop) as Hc. unfold cmp_less in Hc.
      apply orb_false_iff in Hc as [_ Hc]. rewrite Forall_forall in Hnan, Hds.
      destruct (fgt (SeedScore r) (SeedScore d)) eqn:E; [|done].
      assert (d' ∈ ds) as Hd'' by by rewrite <- Hperm.
      destruct (flt_negtrans (SeedScore d) (SeedScore d') (SeedScore r)) as [?|?]; auto; unfold fgt in *; congruence.
Qed.

Lemma Save_keeps_best_witness :
  let e id sc := mkEntry id sc 0 0 fzero fzero fzero 0 0 0 0 fzero fzero 0 "" fzero fzero 0 in
  let entries := [e 1 fone; e 2 (float_of_Z 2); e 1 (float_of_Z 3)] in
  let stored := [seed_of (e 1 (float_of_Z 3))] in
  Save 1 entries [] = Ok stored ∧ NoDup (map SeedID stored).
Proof.
  intros e entries stored. assert (Save 1 entries [] = Ok stored) as H by (vm_compute; reflexivity).
  split; [exact H|].
  refine (proj1 (proj2 (Save_keeps_best 1 entries [] stored _ _ H))); [lia|].
  repeat (apply Forall_cons_2; [reflexivity|]). apply Forall_nil_2.
Defined.

End Seeds.

(** ** Violations ([violations.go]) *)

Module Corpus.

Record ViolationRecord := mkRecord {
  ID : string; CampaignID : string; Round : Z; Property : string; Message : string; Step : Z; Seed : Z;
  FaultKinds : list Kind; ArtifactDir : string; Details : list (string * any) }.

(** The identifier of violation [i] of a round. *)
Definition record_id (campaignID : string) (round : Z) (i : nat) : string :=
  campaignID ++ "-" ++ pretty round ++ "-" ++ pretty i.

Definition record_of (campaignID : string) (round seed : Z) (artifactDir : string) (i : nat) (v : Violation) : ViolationRecord :=
  let kinds := if negb (vFaultKindMask v =? 0) then MaskToKinds (vFaultKindMask v) else [] in
  mkRecord (record_id campaignID round i) campaignID round (vProperty v) (vMessage v) (vStep v) seed kinds artifactDir (vDetails v).

Definition ViolationsFromExplorer (vs : list Violation) (campaignID : string) (round seed : Z) (artifactDir : string) :
    list ViolationRecord := imap (record_of campaignID round seed artifactDir) vs.

(** The bucket, by key. *)
Definition Append (rec : ViolationRecord) (db : gmap string ViolationRecord) : gmap string ViolationRecord :=
  <[ID rec := rec]> db.

(** [ForEach] goes through the keys in byte order. *)
Definition Load (db : gmap string ViolationRecord) : list ViolationRecord :=
  map snd (sort_by (λ a b, String.ltb a.1 b.1) (map_to_list db)).

Definition PropertyNames (db : gmap string ViolationRecord) : list string :=
  sort_by String.ltb (elements (list_to_set (map Property (Load db)) : gset string)).

(** *** Lemmas *)

Lemma record_id_inj c r i j : record_id c r i = record_id c r j → i = j.
Proof.
  unfold record_id. intros H%(inj (String.append c)). apply (inj (String.append "-")) in H.
  apply (inj (String.append (pretty r))) in H. apply (inj (String.append "-")) in H. by apply (inj pretty) in H.
Qed.

Lemma elem_of_Load db r : r ∈ Load db ↔ ∃ k, db !! k = Some r.
Proof.
  unfold Load. split.
  - intros ([k r'] & -> & H)%list_elem_of_fmap. rewrite sort_by_Permutation in H. apply elem_of_map_to_list in H. by exists k.
  - intros (k & H). apply list_elem_of_fmap. exists (k, r). split; [done|]. rewrite sort_by_Permutation.
    by apply elem_of_map_to_list.
Qed.

Definition append_all (recs : list ViolationRecord) (db : gmap string ViolationRecord) : gmap string ViolationRecord :=
  foldl (λ db r, Append r db) db recs.

Lemma append_all_lookup recs : ∀ db k,
  NoDup (map ID recs) →
  append_all recs db !! k = match (list_to_map (map (λ r, (ID r, r)) recs) : gmap string ViolationRecord) !! k with
                            | Some r => Some r | None => db !! k end.
Proof.
  unfold append_all. induction recs as [|r recs IH]; intros db k Hnd; [done|]. cbn [foldl map] in *.
  apply NoDup_cons in Hnd as [Hr Hnd]. rewrite IH by done. rewrite list_to_map_cons. unfold Append.
  destruct (decide (k = ID r)) as [->|Hne].
  - rewrite !lookup_insert_eq. rewrite (not_elem_of_list_to_map_1 _ (ID r)); [done|].
    intros H. apply Hr. by rewrite <- list_fmap_compose in H.
  - by rewrite !lookup_insert_ne by done.
Qed.

(** The violations of a round can be loaded back: after appending their
    records every one of them is loaded with the step, message and details
    it had, and every record with another identifier is still there; the names
    of the loaded properties are listed in order. *)
Theorem corpus_roundtrip (db : gmap string ViolationRecord) (vs : list Violation) (campaignID : string)
    (round seed : Z) (dir : string) :
  let recs := ViolationsFromExplorer vs campaignID round seed dir in
  let db' := append_all recs db in
  NoDup (map ID recs) ∧
  (∀ i v, vs !! i = Some v →
    ∃ r, r ∈ Load db' ∧ ID r = record_id campaignID round i ∧ Property r = vProperty v ∧ Message r = vMessage v ∧
      Step r = vStep v ∧ Seed r = seed ∧ Details r = vDetails v) ∧
  (∀ k r, db !! k = Some r → k ∉ map ID recs → r ∈ Load db') ∧
  (∀ r, r ∈ Load db' → r ∈ recs ∨ r ∈ Load db) ∧
  StronglySorted (λ a b, String.ltb b a = false) (PropertyNames db') ∧
  (∀ p, p ∈ PropertyNames db' ↔ ∃ r, r ∈ Load db' ∧ Property r = p).
Proof.
  intros recs db'. assert (map ID recs = imap (λ i _, record_id campaignID round i) vs) as Hids.
  { unfold recs, ViolationsFromExplorer. by rewrite fmap_imap. }
  assert (NoDup (map ID recs)) as Hnd.
  { rewrite Hids. apply NoDup_alt. intros i j x Hi Hj. apply list_lookup_imap_Some in Hi as (? & _ & ->), Hj as (? & _ & Heq).
    by apply record_id_inj in Heq. }
  assert (∀ k, db' !! k = match (list_to_map (map (λ r, (ID r, r)) recs) : gmap string ViolationRecord) !! k with
                          | Some r => Some r | None => db !! k end) as Hl by (intros k; by apply append_all_lookup).
  assert (NoDup (map (λ r, (ID r, r)) recs).*1) as Hnd' by by rewrite <- list_fmap_compose.
  split_and!; [done| | | | |].
  - intros i v Hv. set (r := record_of campaignID round seed dir i v).
    assert (recs !! i = Some r) as Hr by (unfold recs, ViolationsFromExplorer; by rewrite list_lookup_imap, Hv).
    exists r. split_and!; try done. apply elem_of_Load. exists (ID r). rewrite Hl.
    rewrite (elem_of_list_to_map_1 _ (ID r) r); [done|done|]. apply list_elem_of_fmap. exists r. split; [done|].
    by eapply list_elem_of_lookup_2.
  - intros k r Hk Hn. apply elem_of_Load. exists k. rewrite Hl, not_elem_of_list_to_map_1; [done|].
    by rewrite <- list_fmap_compose.
  - intros r (k & Hk)%elem_of_Load. rewrite Hl in Hk.
    destruct (list_to_map _ !! k) as [r'|] eqn:E; [|right; apply elem_of_Load; by exists k]. injection Hk as ->.
    apply elem_of_list_to_map_2 in E. apply list_elem_of_fmap in E as (r' & E & Hin). injection E as _ <-. by left.
  - apply (sort_by_key_sorted id).
  - intros p. unfold PropertyNames. rewrite sort_by_Permutation, elem_of_elements, elem_of_list_to_set, list_elem_of_fmap.
    naive_solver.
Qed.

End Corpus.
