(* ===== verification/Campaign.v ===== *)
(** * The adaptive campaign ([internal/orchestrator]: [escalator.go],
    [evolver.go], [saturation.go], [director.go])

    A campaign runs rounds.  After each one the director feeds the growth of
    coverage to a saturation detector, the detector's answer to the evolver (a
    cycle of phases) and the number of violations to the escalation policy,
    whose multiplier scales the fault rates of the next round.

    Configurations are pointers: [heap] maps them to their structs, since the
    director writes the seed of a round through the pointer that [Apply] returns.
    A round itself (making an orchestrator, running it) and the stores on disk
    are the class [Rounds]. *)
From stdpp Require Import strings pretty.
From S2P Require Import Prelude Word Float Ring GoLib Prng TestConfig.
Local Open Scope Z_scope.

(** ** Escalation *)

Module Escalation.

Definition EscalationLevel : Type := Z.
Definition EscalationNormal : EscalationLevel := 0.
Definition escalationMaxLevel : EscalationLevel := 4.

Record EscalationPolicy := mkEscalationPolicy {
  factor : float64; maxFactor : float64; roundsPerLevel : Z; level : EscalationLevel; violationlessRounds : Z }.
#[export] Instance EscalationPolicy_eta : Eta EscalationPolicy := mkEta _ (λ r,
  mkEscalationPolicy (factor r) (maxFactor r) (roundsPerLevel r) (level r) (violationlessRounds r)).

Definition NewEscalationPolicy (f mf : float64) (r : Z) : EscalationPolicy :=
  let f := if fle f fone then flit 3 2 else f in
  let mf := if fle mf fone then float_of_Z 4 else mf in
  let r := if r <=? 0 then 3 else r in
  mkEscalationPolicy f mf r EscalationNormal 0.

Definition RecordRound (violations : Z) (p : EscalationPolicy) : bool * EscalationPolicy :=
  if 0 <? violations then (false, p <| violationlessRounds := 0 |>)
  else
    let p := p <| violationlessRounds := violationlessRounds p + 1 |> in
    if (roundsPerLevel p <=? violationlessRounds p) && (level p <? escalationMaxLevel) then
      (true, p <| level := level p + 1 |> <| violationlessRounds := 0 |>)
    else (false, p).

Definition Level (p : EscalationPolicy) : EscalationLevel := level p.

Definition multiplierLocked (p : EscalationPolicy) : float64 :=
  let m := Nat.iter (Z.to_nat (level p)) (λ m, fmul m (factor p)) fone in
  if fgt m (maxFactor p) then maxFactor p else m.

Definition Multiplier (p : EscalationPolicy) : float64 := multiplierLocked p.

Definition clampRate (v : float64) : float64 := if fgt v fone then fone else v.

(** [n := cfg.Faults.Network; n.DropRate = clampRate(n.DropRate * m); ...]. *)
Definition scale_network (m : float64) (n : NetworkFaultCfg) : NetworkFaultCfg :=
  n <| nw_DropRate := clampRate (fmul (nw_DropRate n) m) |>
    <| nw_PartitionRate := clampRate (fmul (nw_PartitionRate n) m) |>
    <| nw_ThrottleRate := clampRate (fmul (nw_ThrottleRate n) m) |>
    <| nw_ReorderRate := clampRate (fmul (nw_ReorderRate n) m) |>
    <| nw_NWayPartitionRate := clampRate (fmul (nw_NWayPartitionRate n) m) |>.

Definition scale_node (m : float64) (n : NodeFaultCfg) : NodeFaultCfg :=
  n <| nf_HangRate := clampRate (fmul (nf_HangRate n) m) |>
    <| nf_TerminateRate := clampRate (fmul (nf_TerminateRate n) m) |>
    <| nf_CPUThrottleRate := clampRate (fmul (nf_CPUThrottleRate n) m) |>
    <| nf_MemPressureRate := clampRate (fmul (nf_MemPressureRate n) m) |>
    <| nf_PauseRate := clampRate (fmul (nf_PauseRate n) m) |>.

Abbreviation heap := (gmap nat Config).

(** The pointer to the configuration of the round, and the heap, where a copy
    is a new cell.  [None] is the panic of a nil pointer. *)
Definition Apply (p : EscalationPolicy) (cfg : nat) (h : heap) : option (nat * heap) :=
  let m := multiplierLocked p in
  if fle m fone then Some (cfg, h)
  else
    c ← h !! cfg;
    let copy := c <| c_Faults := c_Faults c <| fc_Network := scale_network m (fc_Network (c_Faults c)) |>
                                             <| fc_Node := scale_node m (fc_Node (c_Faults c)) |> |> in
    let ptr := fresh (dom h) in
    Some (ptr, <[ptr := copy]> h).

(** The rates [Apply] scales. *)
Definition scaled_rates (f : FaultConfig) : list float64 :=
  [nw_DropRate (fc_Network f); nw_PartitionRate (fc_Network f); nw_ThrottleRate (fc_Network f);
   nw_ReorderRate (fc_Network f); nw_NWayPartitionRate (fc_Network f);
   nf_HangRate (fc_Node f); nf_TerminateRate (fc_Node f); nf_CPUThrottleRate (fc_Node f);
   nf_MemPressureRate (fc_Node f); nf_PauseRate (fc_Node f)].

(** *** Lemmas *)

Lemma clampRate_le v : fgt (clampRate v) fone = false.
Proof. unfold clampRate. destruct (fgt v fone) eqn:E; [apply flt_irrefl|done]. Qed.

Definition run_rounds (p : EscalationPolicy) (vs : list Z) : EscalationPolicy := foldl (λ p v, (RecordRound v p).2) p vs.

Lemma run_rounds_params p vs :
  factor (run_rounds p vs) = factor p ∧ maxFactor (run_rounds p vs) = maxFactor p ∧
  roundsPerLevel (run_rounds p vs) = roundsPerLevel p.
Proof.
  unfold run_rounds. induction vs as [|v vs IH] using rev_ind; [done|]. rewrite foldl_app. simpl.
  destruct IH as (IH1 & IH2 & IH3). unfold RecordRound. repeat case_match; simpl; done.
Qed.

Lemma run_rounds_snoc p vs v : run_rounds p (vs ++ [v]) = (RecordRound v (run_rounds p vs)).2.
Proof. unfold run_rounds. by rewrite foldl_app. Qed.

Lemma RecordRound_clean p :
  RecordRound 0 p =
    let up := (roundsPerLevel p <=? violationlessRounds p + 1) && (level p <? 4) in
    (up, p <| violationlessRounds := if up then 0 else violationlessRounds p + 1 |>
           <| level := if up then level p + 1 else level p |>).
Proof. unfold RecordRound, escalationMaxLevel. simpl. by destruct (_ && _). Qed.

(** After [n] clean rounds. *)
Lemma clean_rounds_level p n :
  0 ≤ level p ≤ 4 → violationlessRounds p = 0 → 0 < roundsPerLevel p →
  let q := run_rounds p (replicate n 0) in
  level q = Z.min 4 (level p + Z.of_nat n / roundsPerLevel p) ∧
  violationlessRounds q = Z.of_nat n - (level q - level p) * roundsPerLevel p.
Proof.
  intros Hl Hv Hr. cbv zeta. induction n as [|n IH]; [simpl; rewrite Hv, Z.div_0_l by lia; lia|].
  assert (replicate (S n) 0 = replicate n 0 ++ [0]) as -> by by rewrite <- replicate_S_end.
  rewrite run_rounds_snoc, RecordRound_clean.
  pose proof (run_rounds_params p (replicate n 0)) as (_ & _ & Hrp).
  set (q := run_rounds p (replicate n 0)) in *. destruct IH as [H1 H2]. cbv zeta. simpl. rewrite Hrp.
  set (r := roundsPerLevel p) in *. set (l := level p) in *.
  pose proof (Z.div_mod (Z.of_nat n) r ltac:(lia)) as Hdm. pose proof (Z.mod_pos_bound (Z.of_nat n) r Hr) as Hm.
  pose proof (Z.div_pos (Z.of_nat n) r ltac:(lia) Hr) as Hpos.
  set (d := Z.of_nat n / r) in *. set (m := Z.of_nat n mod r) in *.
  assert (Z.of_nat (S n) / r = if r <=? m + 1 then d + 1 else d) as ->.
  { destruct (Z.leb_spec r (m + 1)); symmetry; [apply Z.div_unique with 0|apply Z.div_unique with (m + 1)]; lia. }
  destruct (decide (l + d < 4)) as [Hd|Hd].
  - assert (level q = l + d) as Hq by lia. assert (violationlessRounds q = m) as Hvq by (rewrite H2, Hq; lia).
    rewrite Hq, Hvq, (proj2 (Z.ltb_lt (l + d) 4)) by done. destruct (Z.leb_spec r (m + 1)); simpl; split; nia.
  - assert (level q = 4) as Hq by lia. rewrite Hq, andb_false_r, H2, Hq. destruct (Z.leb_spec r (m + 1)); lia.
Qed.

Lemma level_range p vs : 0 ≤ level p ≤ 4 → level p ≤ level (run_rounds p vs) ≤ 4.
Proof.
  intros Hl. induction vs as [|v vs IH] using rev_ind; [simpl; lia|]. rewrite run_rounds_snoc. unfold RecordRound, escalationMaxLevel.
  simpl. destruct (0 <? v); [simpl; lia|]. destruct (_ <=? _); [|simpl; lia]. case_bool; simpl; lia.
Qed.

Lemma NewEscalationPolicy_params f mf r :
  level (NewEscalationPolicy f mf r) = 0 ∧ violationlessRounds (NewEscalationPolicy f mf r) = 0 ∧
  0 < roundsPerLevel (NewEscalationPolicy f mf r).
Proof. unfold NewEscalationPolicy. simpl. split_and!; [done..|]. case_bool; lia. Qed.

(** Whatever happened before, [n] clean rounds after a round with a
    violation raise the level by one for every [roundsPerLevel] of them, up to
    four, and it never falls; so does the count from the start. *)
Theorem escalation_levels (f mf : float64) (r : Z) (pre : list Z) (v : Z) (n : nat) (Hv : 0 < v) :
  let p := NewEscalationPolicy f mf r in
  let l := level (run_rounds p pre) in
  let q := run_rounds p (pre ++ [v] ++ replicate n 0) in
  level q = Z.min 4 (l + Z.of_nat n / roundsPerLevel p) ∧ 0 ≤ l ≤ level q ∧ level q ≤ 4 ∧
  level (run_rounds p (replicate n 0)) = Z.min 4 (Z.of_nat n / roundsPerLevel p).
Proof.
  intros p l q. destruct (NewEscalationPolicy_params f mf r) as (H0 & H1 & H2). fold p in H0, H1, H2.
  pose proof (level_range p pre ltac:(lia)) as Hl. fold l in Hl.
  assert (q = run_rounds (RecordRound v (run_rounds p pre)).2 (replicate n 0)) as Hq.
  { unfold q. rewrite app_assoc. unfold run_rounds. by rewrite !foldl_app. }
  destruct (run_rounds_params p pre) as (_ & _ & Hrp).
  assert (RecordRound v (run_rounds p pre) = (false, run_rounds p pre <| violationlessRounds := 0 |>)) as HR.
  { unfold RecordRound. by rewrite (proj2 (Z.ltb_lt 0 v)). }
  rewrite HR in Hq. cbn [snd] in Hq.
  destruct (clean_rounds_level (run_rounds p pre <| violationlessRounds := 0 |>) n) as [Hlev _];
    [simpl; fold l; lia|done|simpl; lia|]. rewrite <- Hq in Hlev. cbn in Hlev. rewrite Hrp in Hlev. fold l in Hlev.
  destruct (clean_rounds_level p n ltac:(lia) H1 H2) as [Hc _]. rewrite H0 in Hc.
  pose proof (Z.div_pos (Z.of_nat n) (roundsPerLevel p) ltac:(lia) H2). split_and!; lia.
Qed.

(** The default multipliers: the cap is below the fourth power of the factor. *)
Example default_multipliers :
  map (λ l, Multiplier (NewEscalationPolicy fzero fzero 0 <| level := l |>)) [0; 1; 2; 3; 4] =
  [fone; flit 3 2; flit 9 4; flit 27 8; float_of_Z 4].
Proof. vm_compute. reflexivity. Qed.

(** [Apply] never changes an existing configuration.  Above a multiplier
    of one it returns a new cell whose ten scaled rates are not above one and
    which agrees with the caller's configuration on everything but them; at one
    it returns the caller's own pointer. *)
Theorem Apply_scales (p : EscalationPolicy) (cfg : nat) (h : heap) (c : Config) (Hc : h !! cfg = Some c) :
  ∃ ptr h', Apply p cfg h = Some (ptr, h') ∧
    if fle (Multiplier p) fone then ptr = cfg ∧ h' = h
    else
      h !! ptr = None ∧ delete ptr h' = h ∧
      ∃ c', h' !! ptr = Some c' ∧
        Forall (λ v, fgt v fone = false) (scaled_rates (c_Faults c')) ∧
        scaled_rates (c_Faults c') = map (λ v, clampRate (fmul v (Multiplier p))) (scaled_rates (c_Faults c)) ∧
        c_Exploration c' = c_Exploration c ∧ c_Nodes c' = c_Nodes c ∧ c_Duration c' = c_Duration c ∧
        nw_CrashRate (fc_Network (c_Faults c')) = nw_CrashRate (fc_Network (c_Faults c)) ∧
        nf_DirtyRestartRate (fc_Node (c_Faults c')) = nf_DirtyRestartRate (fc_Node (c_Faults c)).
Proof.
  unfold Apply, Multiplier. destruct (fle (multiplierLocked p) fone); [by exists cfg, h|]. rewrite Hc. cbn [mbind option_bind].
  set (c' := c <| c_Faults := _ |>). exists (fresh (dom h)), (<[fresh (dom h) := c']> h).
  pose proof (is_fresh (dom h)) as Hf. apply not_elem_of_dom in Hf. split_and!; [done..|by apply delete_insert_id|].
  exists c'. split; [by rewrite lookup_insert_eq|].
  assert (scaled_rates (c_Faults c') = map (λ v, clampRate (fmul v (multiplierLocked p))) (scaled_rates (c_Faults c)))
    as Hr by done.
  split_and!; try done. rewrite Hr. apply Forall_forall. intros v (u & -> & _)%list_elem_of_fmap. apply clampRate_le.
Qed.

Lemma escalation_levels_witness :
  let p := NewEscalationPolicy fzero fzero 2 in
  level (run_rounds p ([0; 0; 0] ++ [1] ++ replicate 5 0)) = Z.min 4 (level (run_rounds p [0; 0; 0]) + 5 / 2).
Proof. exact (proj1 (escalation_levels fzero fzero 2 [0; 0; 0] 1 5 ltac:(lia))). Defined.

Lemma Apply_scales_witness :
  let p := NewEscalationPolicy fzero fzero 2 <| level := 4 |> in
  let h : heap := {[7%nat := example_config]} in
  fle (Multiplier p) fone = false ∧ ∃ ptr h', Apply p 7 h = Some (ptr, h') ∧ h !! ptr = None.
Proof.
  intros p h. split; [vm_compute; reflexivity|].
  destruct (Apply_scales p 7 h example_config ltac:(reflexivity)) as (ptr & h' & HA & H). exists ptr, h'.
  exact (conj HA (proj1 H)).
Defined.

End Escalation.

(** ** Evolution *)

Module Evolver.

Inductive ExplorationPhase :=
| PhaseNormal | PhaseRestart | PhaseDeepDive | PhaseFaultEscalate | PhaseProfileSwitch | PhaseBranchHunt.
#[export] Instance ExplorationPhase_eq_dec : EqDecision ExplorationPhase.
Proof. solve_decision. Defined.

Definition PhaseString (p : ExplorationPhase) : string :=
  match p with
  | PhaseNormal => "normal"
  | PhaseRestart => "restart"
  | PhaseDeepDive => "deep_dive"
  | PhaseFaultEscalate => "fault_escalate"
  | PhaseProfileSwitch => "profile_switch"
  | PhaseBranchHunt => "branch_hunt"
  end.

Record StrategyEvolver := mkStrategyEvolver {
  current : ExplorationPhase; roundsInPhase : Z; saturationRoundsBeforeShift : Z; phaseSequence : list ExplorationPhase }.
#[export] Instance StrategyEvolver_eta : Eta StrategyEvolver := mkEta _ (λ r,
  mkStrategyEvolver (current r) (roundsInPhase r) (saturationRoundsBeforeShift r) (phaseSequence r)).

Definition default_sequence : list ExplorationPhase :=
  [PhaseFaultEscalate; PhaseDeepDive; PhaseProfileSwitch; PhaseBranchHunt; PhaseRestart; PhaseNormal].

Definition NewStrategyEvolver (satRounds : Z) : StrategyEvolver :=
  mkStrategyEvolver PhaseNormal 0 (if satRounds <=? 0 then 2 else satRounds) default_sequence.

Definition Phase (e : StrategyEvolver) : ExplorationPhase := current e.

(** The phase after [p] in the sequence; an empty sequence would panic. *)
Definition nextPhase (e : StrategyEvolver) (p : ExplorationPhase) : option ExplorationPhase :=
  match find_index (λ q, bool_decide (q = p)) (phaseSequence e) with
  | Some i => phaseSequence e !! ((i + 1) mod length (phaseSequence e))%nat
  | None => phaseSequence e !! 0%nat
  end.

Definition Advance (saturated : bool) (e : StrategyEvolver) : option (ExplorationPhase * bool * StrategyEvolver) :=
  let e := e <| roundsInPhase := if saturated then roundsInPhase e + 1 else 0 |> in
  if roundsInPhase e <? saturationRoundsBeforeShift e then Some (current e, false, e)
  else
    let e := e <| roundsInPhase := 0 |> in
    next ← nextPhase e (current e);
    Some (next, true, e <| current := next |>).

Definition Reset (e : StrategyEvolver) : StrategyEvolver := e <| current := PhaseNormal |> <| roundsInPhase := 0 |>.

(** *** Lemmas *)

(** The phase after [k] changes from the normal one. *)
Definition nth_phase (k : nat) : ExplorationPhase := default PhaseNormal (default_sequence !! ((k + 5) mod 6)%nat).

(** An evolver made by [NewStrategyEvolver] with [s] rounds, [k] changes on,
    [r] saturated rounds into its phase. *)
Definition evolver_at (s : Z) (k : nat) (r : Z) : StrategyEvolver := mkStrategyEvolver (nth_phase k) r s default_sequence.

Lemma nth_phase_next s k r : nextPhase (evolver_at s k r) (nth_phase k) = Some (nth_phase (S k)).
Proof.
  unfold nth_phase. replace ((S k + 5) mod 6)%nat with (((k + 5) mod 6 + 1) mod 6)%nat.
  - pose proof (Nat.mod_upper_bound (k + 5) 6 ltac:(lia)) as H. set (i := ((k + 5) mod 6)%nat) in *.
    do 6 (destruct i as [|i]; [reflexivity|]). lia.
  - rewrite Nat.Div0.add_mod_idemp_l. f_equal. lia.
Qed.

Lemma Advance_at s k r (b : bool) :
  0 < s → 0 ≤ r < s →
  Advance b (evolver_at s k r) =
    if b && (r + 1 =? s) then Some (nth_phase (S k), true, evolver_at s (S k) 0)
    else Some (nth_phase k, false, evolver_at s k (if b then r + 1 else 0)).
Proof.
  intros Hs Hr. unfold Advance. simpl. destruct b; simpl.
  - destruct (Z.ltb_spec (r + 1) s), (Z.eqb_spec (r + 1) s); try lia; [done|].
    change (nextPhase _ (nth_phase k)) with (nextPhase (evolver_at s k 0) (nth_phase k)). by rewrite nth_phase_next.
  - by destruct (Z.ltb_spec 0 s); [|lia].
Qed.

(** The director's use: one signal per round. *)
Fixpoint advances (sigs : list bool) (e : StrategyEvolver) : option StrategyEvolver :=
  match sigs with
  | [] => Some e
  | b :: sigs => '(_, _, e) ← Advance b e; advances sigs e
  end.

(** The changes and the position in the phase after the signals. *)
Fixpoint evolve_spec (s : Z) (sigs : list bool) (k : nat) (r : Z) : nat * Z :=
  match sigs with
  | [] => (k, r)
  | true :: sigs => if r + 1 =? s then evolve_spec s sigs (S k) 0 else evolve_spec s sigs k (r + 1)
  | false :: sigs => evolve_spec s sigs k 0
  end.

Lemma advances_spec s sigs : ∀ k r, 0 < s → 0 ≤ r < s →
  advances sigs (evolver_at s k r) = Some (evolver_at s (evolve_spec s sigs k r).1 (evolve_spec s sigs k r).2).
Proof.
  induction sigs as [|b sigs IH]; intros k r Hs Hr; [done|]. cbn [advances evolve_spec]. rewrite Advance_at by done.
  destruct b; cbn [andb].
  - destruct (Z.eqb_spec (r + 1) s); cbn [mbind option_bind]; apply IH; lia.
  - cbn [mbind option_bind]. apply IH; lia.
Qed.

Lemma evolve_saturated s n : ∀ k r, 0 < s → 0 ≤ r < s →
  let x := evolve_spec s (replicate n true) k r in
  x.2 + Z.of_nat x.1 * s = r + Z.of_nat k * s + Z.of_nat n ∧ 0 ≤ x.2 < s.
Proof.
  induction n as [|n IH]; intros k r Hs Hr; [simpl; lia|]. cbn [replicate evolve_spec].
  destruct (Z.eqb_spec (r + 1) s) as [E|E].
  - destruct (IH (S k) 0 Hs ltac:(lia)) as [H1 H2]. cbv zeta. split; [|done]. rewrite H1. lia.
  - destruct (IH k (r + 1) Hs ltac:(lia)) as [H1 H2]. cbv zeta. split; [|done]. rewrite H1. lia.
Qed.

(** [n] saturated rounds in a row take the evolver through [n / s]
    changes along the cycle of six phases, from wherever the rounds before left
    it, if the round before them was not saturated; [Advance] never panics, and a
    round without saturation never changes the phase. *)
Theorem evolver_cycles (satRounds : Z) (pre : list bool) (n : nat) :
  let e := NewStrategyEvolver satRounds in
  let s := saturationRoundsBeforeShift e in
  ∃ k e1 e2, advances (pre ++ [false]) e = Some e1 ∧ advances (replicate n true) e1 = Some e2 ∧
    current e1 = nth_phase k ∧ current e2 = nth_phase (k + Z.to_nat (Z.of_nat n / s)) ∧
    (∃ e0, advances pre e = Some e0 ∧ current e0 = current e1) ∧
    nth_phase 0 = PhaseNormal ∧ (∀ i, nth_phase (i + 6) = nth_phase i).
Proof.
  intros e s. assert (0 < s) as Hs by (unfold s, e, NewStrategyEvolver; simpl; case_bool; lia).
  assert (e = evolver_at s 0 0) as He by done. clearbody s e. subst e.
  assert (∀ l1 l2 e, advances (l1 ++ l2) e = advances l1 e ≫= advances l2) as Happ.
  { induction l1 as [|b l1 IH]; intros l2 e; [done|]. cbn [app advances]. destruct (Advance b e) as [[[? ?] e']|]; [|done].
    cbn [mbind option_bind]. apply IH. }
  assert (∀ sigs k r, 0 ≤ r < s → 0 ≤ (evolve_spec s sigs k r).2 < s) as Hrange.
  { induction sigs as [|[] sigs IH]; intros k r Hr; cbn [evolve_spec]; [done| |apply IH; lia].
    destruct (Z.eqb_spec (r + 1) s); apply IH; lia. }
  set (x := evolve_spec s pre 0 0). pose proof (Hrange pre 0%nat 0 ltac:(lia)) as Hx. fold x in Hx.
  exists x.1, (evolver_at s x.1 0). destruct (evolve_saturated s n x.1 0 Hs ltac:(lia)) as [H1 H2].
  set (y := evolve_spec s (replicate n true) x.1 0) in *.
  exists (evolver_at s y.1 y.2). split_and!.
  - rewrite Happ, advances_spec by lia. fold x. cbn [mbind option_bind advances]. rewrite Advance_at by lia. done.
  - by rewrite advances_spec by lia.
  - done.
  - simpl. f_equal. assert (Z.of_nat n / s = Z.of_nat y.1 - Z.of_nat x.1) as ->; [|].
    { symmetry. apply Z.div_unique with y.2; lia. }
    assert (Z.of_nat x.1 ≤ Z.of_nat y.1) by nia. lia.
  - exists (evolver_at s x.1 x.2). by rewrite advances_spec by lia.
  - done.
  - intros i. unfold nth_phase. do 2 f_equal. replace (i + 6 + 5)%nat with (i + 5 + 1 * 6)%nat by lia.
    apply Nat.Div0.mod_add.
Qed.

End Evolver.

(** ** Saturation *)

Module Detector.

Record SaturationDetector := mkSaturationDetector {
  window : list Z; size : Z; pos : Z; filled : bool; threshold : float64; minBursts : Z }.
#[export] Instance SaturationDetector_eta : Eta SaturationDetector := mkEta _ (λ r,
  mkSaturationDetector (window r) (size r) (pos r) (filled r) (threshold r) (minBursts r)).

Definition NewSaturationDetector (sz : Z) (th : float64) : SaturationDetector :=
  let sz := if sz <=? 0 then 100 else sz in
  let th := if fle th fzero then flit 1 2 else th in
  mkSaturationDetector (replicate (Z.to_nat sz) 0) sz 0 false th (Z.quot sz 2).

Definition Record_ (newEdges : Z) (d : SaturationDetector) : SaturationDetector :=
  let d := d <| window := ring_write (size d) (pos d) newEdges (window d) |> in
  let d := d <| pos := pos d + 1 |> in
  if size d <=? pos d then d <| filled := true |> else d.

(** [total += d.window[i]] for the first [n] entries. *)
Definition window_total (n : Z) (d : SaturationDetector) : Z :=
  foldl (λ total v, int64 (total + v)) 0 (take (Z.to_nat n) (window d)).

Definition used (d : SaturationDetector) : Z := if filled d then size d else pos d.

Definition Saturated (d : SaturationDetector) : bool :=
  if pos d <? minBursts d then false
  else flt (fdiv (float_of_Z (window_total (used d) d)) (float_of_Z (used d))) (threshold d).

Definition Rate (d : SaturationDetector) : float64 :=
  if pos d =? 0 then fone else fdiv (float_of_Z (window_total (used d) d)) (float_of_Z (used d)).

Definition Reset (d : SaturationDetector) : SaturationDetector :=
  d <| pos := 0 |> <| filled := false |> <| window := map (λ _, 0) (window d) |>.

Definition record_all (vs : list Z) (d : SaturationDetector) : SaturationDetector := foldl (λ d v, Record_ v d) d vs.

(** *** Lemmas *)

Definition sum (l : list Z) : Z := foldr Z.add 0 l.

Lemma sum_Permutation l1 l2 : l1 ≡ₚ l2 → sum l1 = sum l2.
Proof. induction 1; simpl; lia. Qed.

Lemma int64_add_l x y : int64 (int64 x + y) = int64 (x + y).
Proof.
  assert (∀ z, wrap 64 (int64 z) = wrap 64 z) as H.
  { intros z. unfold int64. destruct (wrap 64 z <? 2 ^ 63); [by apply wrap_wrap|].
    replace (wrap 64 z - 2 ^ 64) with (wrap 64 z + (-1) * 2 ^ 64) by lia.
    unfold wrap. rewrite Z.mod_add by lia. apply Z.mod_mod. lia. }
  unfold int64 at 1 3. cbv zeta.
  assert (wrap 64 (int64 x + y) = wrap 64 (x + y)) as ->; [|done].
  by rewrite <- wrap_add_l, H, wrap_add_l.
Qed.

Lemma window_total_sum l : ∀ t, foldl (λ total v, int64 (total + v)) (int64 t) l = int64 (t + sum l).
Proof.
  induction l as [|v l IH]; intros t; [by rewrite Z.add_0_r|]. cbn [foldl sum foldr]. rewrite int64_add_l, IH.
  f_equal. unfold sum. lia.
Qed.

(** The detector after the records [ds] since it was new or reset. *)
Record detector_of (w : nat) (th : float64) (ds : list Z) (d : SaturationDetector) : Prop := {
  do_window : ring_of w ds (window d);
  do_size : size d = Z.of_nat w;
  do_pos : pos d = Z.of_nat (length ds);
  do_filled : filled d = bool_decide (w ≤ length ds)%nat;
  do_threshold : threshold d = th;
  do_min : minBursts d = Z.of_nat w / 2 }.

Lemma detector_new sz th :
  let w := Z.to_nat (if sz <=? 0 then 100 else sz) in
  (0 < w)%nat ∧ detector_of w (if fle th fzero then flit 1 2 else th) [] (NewSaturationDetector sz th).
Proof.
  intros w. assert (0 < w)%nat as Hw by (unfold w; case_bool; lia). split; [done|].
  assert ((if sz <=? 0 then 100 else sz) = Z.of_nat w) as E by (unfold w; case_bool; lia).
  split; unfold NewSaturationDetector; cbn [window size pos filled threshold minBursts]; rewrite ?E; try done.
  - rewrite Nat2Z.id. by apply ring_new.
  - symmetry. apply bool_decide_eq_false. simpl. lia.
  - apply Z.quot_div_nonneg; lia.
Qed.

Lemma detector_record w th ds d v :
  (0 < w)%nat → detector_of w th ds d → detector_of w th (ds ++ [v]) (Record_ v d).
Proof.
  intros Hw [H1 H2 H3 H4 H5 H6]. unfold Record_. simpl. rewrite H2, H3.
  assert (length (ds ++ [v]) = S (length ds)) as Hl by (rewrite length_app; simpl; lia).
  destruct (Z.leb_spec (Z.of_nat w) (Z.of_nat (length ds) + 1)); split; simpl; rewrite ?Hl; try done; try lia;
    try by apply ring_step.
  - symmetry. apply bool_decide_eq_true. lia.
  - rewrite H4. apply bool_decide_ext. lia.
Qed.

Lemma detector_record_all w th vs : ∀ ds d, (0 < w)%nat → detector_of w th ds d → detector_of w th (ds ++ vs) (record_all vs d).
Proof.
  induction vs as [|v vs IH]; intros ds d Hw Hd; [by rewrite app_nil_r|].
  cbn [record_all foldl]. replace (ds ++ v :: vs) with ((ds ++ [v]) ++ vs) by by rewrite <- app_assoc.
  apply IH; [done|]. by apply detector_record.
Qed.

Lemma used_spec w th ds d : detector_of w th ds d → used d = Z.of_nat (length ds `min` w).
Proof.
  intros [H1 H2 H3 H4 H5 H6]. unfold used. rewrite H4, H2, H3. case_bool_decide; lia.
Qed.

Lemma detector_total w th ds d : (0 < w)%nat → detector_of w th ds d → window_total (used d) d = int64 (sum (last_n w ds)).
Proof.
  intros Hw Hd. rewrite (used_spec w th ds d Hd). destruct Hd as [H1 _ _ _ _ _]. unfold window_total. rewrite Nat2Z.id.
  change 0 with (int64 0) at 1. rewrite window_total_sum, Z.add_0_l. by rewrite (sum_Permutation _ _ (ring_perm _ _ _ H1)).
Qed.

(** The detector is saturated exactly when at least half a window of
    bursts is recorded and the average of the last window of them (of all, as long
    as there are fewer) is below the threshold; [Rate] is that average, and
    [Reset] forgets every record. *)
Theorem Saturated_spec (sz : Z) (th : float64) (before vs : list Z) :
  let d0 := NewSaturationDetector sz th in
  let w := Z.to_nat (size d0) in
  let d := record_all vs (Reset (record_all before d0)) in
  let avg := fdiv (float_of_Z (int64 (sum (last_n w vs)))) (float_of_Z (Z.of_nat (length vs `min` w))) in
  Saturated d = bool_decide (w / 2 ≤ length vs)%nat && flt avg (threshold d0) ∧
  Rate d = (if (length vs =? 0)%nat then fone else avg).
Proof.
  intros d0 w d avg. destruct (detector_new sz th) as [Hw Hnew]. fold d0 in Hnew.
  set (w' := Z.to_nat (if sz <=? 0 then 100 else sz)) in *. set (th' := if fle th fzero then _ else _) in *.
  assert (w = w') as -> by (unfold w; rewrite (do_size _ _ _ _ Hnew); apply Nat2Z.id).
  assert (detector_of w' th' [] (Reset (record_all before d0))) as Hr.
  { pose proof (detector_record_all w' th' before [] d0 Hw Hnew) as [H1 H2 H3 H4 H5 H6].
    unfold Reset. split; simpl; try done.
    - destruct H1 as [Hl _ _]. replace (map _ _) with (replicate w' 0); [by apply ring_new|].
      rewrite <- Hl. clear. generalize (window (record_all before d0)). induction l as [|x l IH]; [done|].
      simpl. by f_equal.
    - symmetry. apply bool_decide_eq_false. lia. }
  pose proof (detector_record_all w' th' vs [] _ Hw Hr) as Hd. fold d in Hd. cbn [app] in Hd.
  pose proof (detector_total _ _ _ _ Hw Hd) as Ht. pose proof (used_spec _ _ _ _ Hd) as Hu.
  destruct Hd as [_ _ Hp _ Hth Hm]. unfold Saturated, Rate. rewrite Ht, Hu, Hth, Hp, Hm.
  rewrite (do_threshold _ _ _ _ Hnew). fold avg. split.
  - replace (Z.of_nat w' / 2) with (Z.of_nat (w' / 2)) by (rewrite Nat2Z.inj_div; done).
    destruct (Z.ltb_spec (Z.of_nat (length vs)) (Z.of_nat (w' / 2))) as [Hlt|Hge].
    + by rewrite bool_decide_eq_false_2 by lia.
    + by rewrite bool_decide_eq_true_2 by lia.
  - destruct (Nat.eqb_spec (length vs) 0) as [->|Hne]; [done|]. by destruct (Z.eqb_spec (Z.of_nat (length vs)) 0); [lia|].
Qed.

End Detector.
