(* ===== verification/Director.v ===== *)
(** * The campaign director ([director.go])

    One round: the configuration of the round with its seed, the run, what it
    feeds to the stores and the detector, then the evolver, the escalation policy
    and the statistics.  The context, the directory, the orchestrator and the
    transactions of the stores are the class [Rounds]; a transaction that fails
    leaves its store as it was, and the source only logs it.  The statistics are
    those a receiver that never blocks gets. *)
From stdpp Require Import strings pretty.
From S2P Require Import Prelude Word Float Ring GoLib Prng TestConfig Adaptive Explorer Stores Campaign.
Import Escalation.
Local Open Scope Z_scope.

Record DirectorConfig := mkDirectorConfig {
  TestConfigPtr : nat; StateDir : string; Parallel : Z; BaseSeed : Z; MaxRounds : Z; StopOnViolation : bool;
  SatWindowSize : Z; SatThreshold : float64; SatRoundsBeforeShift : Z; EscalationFactor : float64;
  EscalationMaxFactor : float64; ViolationlessRoundsBeforeEscalate : Z }.

Record DirectorStats := mkDirectorStats {
  StRound : Z; StSeed : Z; StStates : Z; StEdges : Z; StViolations : Z; StPhase : string; StEscalation : Z;
  StSaturated : bool; StSaturationRate : float64 }.

Record CampaignDirector := mkDirector {
  dcfg : DirectorConfig; evolver : Evolver.StrategyEvolver; escalator : EscalationPolicy;
  saturation : Detector.SaturationDetector; violations : gmap string Corpus.ViolationRecord;
  faultHist : FaultHistory.FaultHistoryRecord; regression : list Regression.AssertionSnapshot;
  campaignID : string; round : Z; prevTotalEdges : Z; dheap : heap }.
#[export] Instance CampaignDirector_eta : Eta CampaignDirector := mkEta _ (λ r,
  mkDirector (dcfg r) (evolver r) (escalator r) (saturation r) (violations r) (faultHist r) (regression r)
    (campaignID r) (round r) (prevTotalEdges r) (dheap r)).

(** What the director reads of a [RunResult]: the explorer's result and the
    fault arms of the report, as (kind, pulls, average reward). *)
Record RunResult := mkRunResult { rr_Explorer : option Result; rr_FaultArms : list (Fault.Kind * Z * float64) }.

(** The fields of the run configuration that change from round to round. *)
Record RunConfig := mkRunConfig { rc_TestConfig : nat; rc_StateDir : string; rc_Seed : Z }.

Class Rounds (W : Type) := {
  ctx_Err : W → bool * W;
  mkdirAll : string → W → bool * W;
  orch_New : RunConfig → heap → W → bool * W;
  orch_Run : RunConfig → heap → W → option RunResult * W;
  commit : W → bool * W }.

Definition phiStride : Z := 0x9e3779b97f4a7c15.

(** [fmt.Sprintf("round-%04d", n)]. *)
Definition round_dir (n : Z) : string :=
  let s := pretty n in
  ("round-" ++ String.string_of_list_ascii (repeat (Ascii.ascii_of_nat 48) (4 - String.length s)) ++ s)%string.

Definition NewCampaignDirector (cfg : DirectorConfig) (id : string) (h : heap) (vs : gmap string Corpus.ViolationRecord)
    (hist : FaultHistory.FaultHistoryRecord) (snaps : list Regression.AssertionSnapshot) : CampaignDirector :=
  let satSize := if SatWindowSize cfg <=? 0 then 100 else SatWindowSize cfg in
  let satThresh := if fle (SatThreshold cfg) fzero then flit 1 2 else SatThreshold cfg in
  let satRounds := if SatRoundsBeforeShift cfg <=? 0 then 2 else SatRoundsBeforeShift cfg in
  mkDirector cfg (Evolver.NewStrategyEvolver satRounds)
    (NewEscalationPolicy (EscalationFactor cfg) (EscalationMaxFactor cfg) (ViolationlessRoundsBeforeEscalate cfg))
    (Detector.NewSaturationDetector satSize satThresh) vs hist snaps id 0 0 h.

(** Later properties with the same message overwrite earlier ones. *)
Definition buildAssertionSnapshot (pcs : list PropertyCount) (rnd seed : Z) : Regression.AssertionSnapshot :=
  Regression.mkSnapshot rnd seed
    (foldl (λ m pc, <[pcMessage pc := Regression.mkPropCount (pcAssertType pc) (Total pc) (Passed pc) (Failed pc)]> m) ∅ pcs).

Definition estimateBursts (states parallel : Z) : Z :=
  if states =? 0 then 0 else if parallel <=? 1 then int64 states else Z.quot (int64 states) parallel.

(** [int64(edges) - int64(prev)], not below zero. *)
Definition edge_growth (edges prev : Z) : Z :=
  let g := int64 (int64 edges - int64 prev) in if g <? 0 then 0 else g.

Definition burst_estimate (states parallel : Z) : Z :=
  let b := estimateBursts states parallel in if b <=? 0 then 1 else b.

(** The bursts of the round into the detector. *)
Definition feed_saturation (states edges : Z) (d : CampaignDirector) : CampaignDirector :=
  let bursts := burst_estimate states (Parallel (dcfg d)) in
  let perBurst := Z.quot (edge_growth edges (prevTotalEdges d)) bursts in
  d <| prevTotalEdges := edges |>
    <| saturation := Detector.record_all (replicate (Z.to_nat bursts) perBurst) (saturation d) |>.

Section director.
Context {W : Type} `{Rounds W}.

Fixpoint append_records (recs : list Corpus.ViolationRecord) (d : CampaignDirector) (w : W) : CampaignDirector * W :=
  match recs with
  | [] => (d, w)
  | r :: recs =>
      let '(ok, w) := commit w in
      append_records recs (if ok : bool then d <| violations := Corpus.Append r (violations d) |> else d) w
  end.

Definition merge_arms (arms : list (Fault.Kind * Z * float64)) (d : CampaignDirector) (w : W) : CampaignDirector * W :=
  if (0 <? length arms)%nat then
    let stats := map (λ a, mkArmStats a.1.1 a.1.2 a.2 fzero) arms in
    let '(ok, w) := commit w in
    (if ok : bool then d <| faultHist := FaultHistory.Merge stats (faultHist d) |> else d, w)
  else (d, w).

Definition record_regression (pcs : list PropertyCount) (seed : Z) (d : CampaignDirector) (w : W) : CampaignDirector * W :=
  if (0 <? length pcs)%nat then
    let '(ok, w) := commit w in
    (if ok : bool then d <| regression := (Regression.Record_ (buildAssertionSnapshot pcs (round d) seed) (regression d)).2 |> else d, w)
  else (d, w).

(** The branch [result != nil && result.Explorer != nil]: states, edges and
    the number of violations, with what they do to the director. *)
Definition absorb (result : option RunResult) (seed : Z) (dir : string) (d : CampaignDirector) (w : W) :
    Z * Z * Z * CampaignDirector * W :=
  match result with
  | Some (mkRunResult (Some e) arms) =>
      let n := Z.of_nat (length (rViolations e)) in
      let '(d, w) :=
        if 0 <? n then append_records (Corpus.ViolationsFromExplorer (rViolations e) (campaignID d) (round d) seed dir) d w
        else (d, w) in
      let '(d, w) := merge_arms arms d w in
      let '(d, w) := record_regression (rPropertyCounts e) seed d w in
      (rTotalStates e, rTotalEdges e, n, feed_saturation (rTotalStates e) (rTotalEdges e) d, w)
  | _ => (0, 0, 0, d, w)
  end.

Inductive outcome :=
| Returned (err : option string)
| Continued.

(** One turn of the loop; [None] is a panic. *)
Definition run_round (d : CampaignDirector) (w : W) : option (outcome * list DirectorStats * CampaignDirector * W) :=
  let cfg := dcfg d in
  let '(cancelled, w) := ctx_Err w in
  if cancelled : bool then Some (Returned None, [], d, w)
  else if (0 <? MaxRounds cfg) && (MaxRounds cfg <=? round d) then Some (Returned None, [], d, w)
  else
    let d := d <| round := round d + 1 |> in
    let seed := add64 (BaseSeed cfg) (mul64 (u64 (round d)) phiStride) in
    '(testCfg, h) ← Apply (escalator d) (TestConfigPtr cfg) (dheap d);
    c ← h !! testCfg;
    let h := <[testCfg := c <| c_Exploration := c_Exploration c <| ex_Seed := seed |> |>]> h in
    let d := d <| dheap := h |> in
    let dir := Join (StateDir cfg) (round_dir (round d)) in
    let '(failed, w) := mkdirAll dir w in
    if failed : bool then Some (Returned (Some "director: round dir"%string), [], d, w)
    else
      let rc := mkRunConfig testCfg dir seed in
      let '(created, w) := orch_New rc h w in
      if negb created then Some (Continued, [], d, w)
      else
        let '(result, w) := orch_Run rc h w in
        let '(states, edges, violationCount, d, w) := absorb result seed dir d w in
        let saturated := Detector.Saturated (saturation d) in
        '(phase, evolved, ev) ← Evolver.Advance saturated (evolver d);
        let d := d <| evolver := ev |> in
        let '(escalated, esc) := RecordRound violationCount (escalator d) in
        let d := d <| escalator := esc |> in
        let d := if 0 <? violationCount then d <| evolver := Evolver.Reset (evolver d) |> else d in
        let stats := mkDirectorStats (round d) seed states edges violationCount (Evolver.PhaseString phase)
          (Level (escalator d)) saturated (Detector.Rate (saturation d)) in
        if StopOnViolation cfg && (0 <? violationCount) then Some (Returned None, [stats], d, w)
        else Some (Continued, [stats], d, w).

(** The loop.  [None] is a panic or not enough fuel. *)
Fixpoint Run (fuel : nat) (d : CampaignDirector) (w : W) : option (option string * list DirectorStats * CampaignDirector * W) :=
  match fuel with
  | O => None
  | S fuel =>
      '(o, stats, d, w) ← run_round d w;
      match o with
      | Returned err => Some (err, stats, d, w)
      | Continued => '(err, more, d, w) ← Run fuel d w; Some (err, stats ++ more, d, w)
      end
  end.

(** ** Lemmas *)

(** What holds between rounds. *)
Record director_ok (cfg : DirectorConfig) (d : CampaignDirector) : Prop := {
  ok_cfg : dcfg d = cfg;
  ok_heap : is_Some (dheap d !! TestConfigPtr cfg);
  ok_level : 0 ≤ level (escalator d) ≤ 4;
  ok_evolver : ∃ s k r, evolver d = Evolver.evolver_at s k r ∧ 0 < s ∧ 0 ≤ r < s;
  ok_round : 0 ≤ round d }.

Lemma append_records_frame recs : ∀ d w,
  ∃ vs, (append_records recs d w).1 = d <| violations := vs |>.
Proof.
  induction recs as [|r recs IH]; intros d w; [by exists (violations d); destruct d|]. cbn [append_records].
  destruct (commit w) as [ok w']. destruct ok; [|apply IH].
  destruct (IH (d <| violations := Corpus.Append r (violations d) |>) w') as (vs & E). exists vs. by rewrite E.
Qed.

Lemma merge_arms_frame arms d w : ∃ fh, (merge_arms arms d w).1 = d <| faultHist := fh |>.
Proof.
  unfold merge_arms. destruct (0 <? length arms)%nat; [|by exists (faultHist d); destruct d].
  destruct (commit w) as [[] w']; [by eexists|by exists (faultHist d); destruct d].
Qed.

Lemma record_regression_frame pcs seed d w : ∃ rg, (record_regression pcs seed d w).1 = d <| regression := rg |>.
Proof.
  unfold record_regression. destruct (0 <? length pcs)%nat; [|by exists (regression d); destruct d].
  destruct (commit w) as [[] w']; [by eexists|by exists (regression d); destruct d].
Qed.

(** What the stores and the detector take from a run is all it changes. *)
Lemma absorb_frame result seed dir d w :
  let '(_, _, n, d', _) := absorb result seed dir d w in
  0 ≤ n ∧ dcfg d' = dcfg d ∧ dheap d' = dheap d ∧ escalator d' = escalator d ∧ evolver d' = evolver d ∧ round d' = round d.
Proof.
  unfold absorb. destruct result as [[[e|] arms]|]; [|by split_and!..].
  set (n := Z.of_nat (length (rViolations e))).
  assert (∃ d1 w1 vs, (if 0 <? n then
      append_records (Corpus.ViolationsFromExplorer (rViolations e) (campaignID d) (round d) seed dir) d w else (d, w)) = (d1, w1) ∧
    d1 = d <| violations := vs |>) as (d1 & w1 & vs & -> & ->).
  { destruct (0 <? n); [|exists d, w, (violations d); split; [done|by destruct d]].
    destruct (append_records_frame (Corpus.ViolationsFromExplorer (rViolations e) (campaignID d) (round d) seed dir) d w) as (vs & Hvs).
    do 2 eexists. exists vs. split; [apply surjective_pairing|done]. }
  destruct (merge_arms_frame arms (d <| violations := vs |>) w1) as (fh & Hm). destruct (merge_arms _ _ w1) as [d2 w2].
  cbn [fst] in Hm. subst d2.
  match goal with |- context [record_regression ?p ?s ?x w2] => destruct (record_regression_frame p s x w2) as (rg & Hg);
    destruct (record_regression p s x w2) as [d3 w3] end.
  cbn [fst] in Hg. subst d3. split_and!; try done. lia.
Qed.

Lemma Apply_ok p cfg h : is_Some (h !! cfg) →
  ∃ ptr h', Apply p cfg h = Some (ptr, h') ∧ is_Some (h' !! ptr) ∧ is_Some (h' !! cfg).
Proof.
  intros [c Hc]. unfold Apply. destruct (fle _ _); [exists cfg, h; split_and!; [done|by exists c..]|].
  rewrite Hc. cbn [mbind option_bind]. do 2 eexists. split; [done|]. split; [rewrite lookup_insert_eq; by eexists|].
  destruct (decide (cfg = fresh (dom h))) as [->|Hne]; [rewrite lookup_insert_eq; by eexists|].
  rewrite lookup_insert_ne by done. by exists c.
Qed.

Definition round_seed (cfg : DirectorConfig) (r : Z) : Z := add64 (BaseSeed cfg) (mul64 (u64 r) phiStride).

(** What one turn of the loop does: it keeps [director_ok], counts at most one
    round, within the limit, and reports at most that round. *)
Record turn_ok (cfg : DirectorConfig) (d : CampaignDirector) (o : outcome) (stats : list DirectorStats)
    (d' : CampaignDirector) : Prop := {
  to_ok : director_ok cfg d';
  to_round : round d ≤ round d' ≤ round d + 1;
  to_limit : 0 < MaxRounds cfg → round d ≤ MaxRounds cfg → round d' ≤ MaxRounds cfg;
  to_continued : o = Continued → round d' = round d + 1 ∧ (0 < MaxRounds cfg → round d < MaxRounds cfg);
  to_stats : stats = [] ∨ ∃ s, stats = [s] ∧ round d' = round d + 1 ∧ StRound s = round d' ∧
    StSeed s = round_seed cfg (round d') ∧ 0 ≤ StEscalation s ≤ 4 ∧
    (StopOnViolation cfg = true → 0 < StViolations s → o = Returned None) }.

Lemma round_end_ok cfg d s k r esc :
  director_ok cfg d → 0 < s → 0 ≤ r < s → 0 ≤ level esc ≤ 4 → ∀ b : bool,
  let d4 := d <| evolver := Evolver.evolver_at s k r |> <| escalator := esc |> in
  let d5 := if b then d4 <| evolver := Evolver.Reset (evolver d4) |> else d4 in
  director_ok cfg d5 ∧ round d5 = round d ∧ escalator d5 = esc.
Proof.
  intros [H1 H2 _ _ H5] Hs Hr Hl b. destruct b; (split; [|done]); split; try done; simpl.
  - exists s, 0%nat, 0. split; [done|lia].
  - by exists s, k, r.
Qed.

(** One turn never panics. *)
Lemma run_round_spec cfg d w :
  director_ok cfg d → ∃ o stats d' w', run_round d w = Some (o, stats, d', w') ∧ turn_ok cfg d o stats d'.
Proof.
  intros Hd. pose proof Hd as [Hcfg Hheap Hlev (s & k & r & Hev & Hs & Hr) Hround]. unfold run_round. rewrite Hcfg.
  destruct (ctx_Err w) as [[] w1].
  { do 4 eexists. split; [done|]. split; try done; [lia|by left]. }
  destruct ((0 <? MaxRounds cfg) && (MaxRounds cfg <=? round d)) eqn:Hmax.
  { do 4 eexists. split; [done|]. split; try done; [lia|by left]. }
  assert (0 < MaxRounds cfg → round d < MaxRounds cfg) as Hlt.
  { intros Hp. rewrite (proj2 (Z.ltb_lt 0 _)) in Hmax by done. cbn [andb] in Hmax. apply Z.leb_gt in Hmax. lia. }
  change (escalator (d <| round := round d + 1 |>)) with (escalator d). change (dheap (d <| round := round d + 1 |>)) with (dheap d).
  destruct (Apply_ok (escalator d) (TestConfigPtr cfg) (dheap d) Hheap) as (ptr & h1 & -> & [c Hc] & Hh1).
  cbn [mbind option_bind]. rewrite Hc. cbn [mbind option_bind]. set (h2 := <[ptr := _]> h1).
  assert (is_Some (h2 !! TestConfigPtr cfg)) as Hh2.
  { unfold h2. destruct (decide (ptr = TestConfigPtr cfg)) as [<-|Hne]; [rewrite lookup_insert_eq; by eexists|].
    by rewrite lookup_insert_ne. }
  set (d2 := d <| round := round d + 1 |> <| dheap := h2 |>).
  assert (director_ok cfg d2) as Hd2 by (split; simpl; try done; [by exists s, k, r|lia]).
  destruct (mkdirAll _ w1) as [[] w2].
  { do 4 eexists. split; [done|]. split; simpl; try done; [lia|lia|by left]. }
  destruct (orch_New _ h2 w2) as [[] w3]; cbn [negb].
  2: { do 4 eexists. split; [done|]. split; simpl; try done; [lia|lia|by left]. }
  destruct (orch_Run _ h2 w3) as [result w4].
  match goal with |- context [absorb result ?sd ?dir d2 w4] => pose proof (absorb_frame result sd dir d2 w4) as Hab;
    destruct (absorb result sd dir d2 w4) as [[[[states edges] n] d3] w5] end.
  destruct Hab as (Hn & Hc3 & Hh3 & Hes3 & Hev3 & Hr3).
  rewrite Hev3. change (evolver d2) with (evolver d). rewrite Hev, Evolver.Advance_at by done.
  set (sat := Detector.Saturated (saturation d3)).
  assert (∃ ph ch k' r', (if sat && (r + 1 =? s) then Some (Evolver.nth_phase (S k), true, Evolver.evolver_at s (S k) 0)
    else Some (Evolver.nth_phase k, false, Evolver.evolver_at s k (if sat then r + 1 else 0))) =
    Some (ph, ch, Evolver.evolver_at s k' r') ∧ 0 ≤ r' < s) as (ph & ch & k' & r' & -> & Hr').
  { destruct sat; cbn [andb]; [destruct (Z.eqb_spec (r + 1) s)|]; do 4 eexists; split; try done; lia. }
  cbn [mbind option_bind]. change (escalator (d3 <| evolver := Evolver.evolver_at s k' r' |>)) with (escalator d3).
  rewrite Hes3. change (escalator d2) with (escalator d).
  destruct (RecordRound n (escalator d)) as [escd esc] eqn:Hrr.
  assert (0 ≤ level esc ≤ 4) as Hlev'.
  { pose proof (level_range (escalator d) [n] Hlev) as Hlr. unfold run_rounds in Hlr. simpl in Hlr. rewrite Hrr in Hlr. simpl in Hlr. lia. }
  assert (director_ok cfg d3) as Hd3.
  { destruct Hd2 as [H1 H2 H3 H4 H5]. split; [congruence|by rewrite Hh3|by rewrite Hes3|by rewrite Hev3|by rewrite Hr3]. }
  destruct (round_end_ok cfg d3 s k' r' esc Hd3 Hs Hr' Hlev' (0 <? n)) as (Hd5 & Hr5 & He5). cbv zeta in *.
  set (d5 := if 0 <? n then _ else _) in *. rewrite He5.
  assert (round d5 = round d + 1) as Hrd by (rewrite Hr5, Hr3; done).
  destruct (StopOnViolation cfg && (0 <? n)) eqn:Hstop.
  - do 4 eexists. split; [done|]. split; try done; [lia|lia|]. right. eexists. split; [reflexivity|].
    simpl. rewrite Hrd. unfold Level. by split_and!; try lia.
  - do 4 eexists. split; [done|]. split; try done; [lia|lia|]. right. eexists. split; [reflexivity|].
    simpl. rewrite Hrd. unfold Level. split_and!; try done; try lia. intros Hsv Hpos. rewrite Hsv, (proj2 (Z.ltb_lt 0 n) Hpos) in Hstop. done.
Qed.

(** The rounds of the statistics of a run from round [r] on. *)
Record stats_ok (cfg : DirectorConfig) (r r' : Z) (stats : list DirectorStats) : Prop := {
  so_sorted : StronglySorted Z.lt (map StRound stats);
  so_each s : s ∈ stats → r < StRound s ≤ r' ∧ StSeed s = round_seed cfg (StRound s) ∧ 0 ≤ StEscalation s ≤ 4;
  so_stop : StopOnViolation cfg = true → ∀ i s, stats !! i = Some s → 0 < StViolations s → i = (length stats - 1)%nat }.

Lemma stats_ok_cons cfg d d1 r' stats more :
  turn_ok cfg d Continued stats d1 → round d1 ≤ r' → stats_ok cfg (round d1) r' more → stats_ok cfg (round d) r' (stats ++ more).
Proof.
  intros Ht Hr [H1 H2 H3]. destruct (to_continued _ _ _ _ _ Ht eq_refl) as [Hd1 _].
  destruct (to_stats _ _ _ _ _ Ht) as [->|(s & -> & _ & Hs1 & Hs2 & Hs3 & Hs4)]; cbn [app].
  - split; [done| |done]. intros s Hs. destruct (H2 s Hs) as [? ?]. split; [lia|done].
  - split.
    + cbn [map]. constructor; [done|]. apply Forall_forall. intros x (y & -> & Hy)%list_elem_of_fmap.
      rewrite Hs1. by destruct (H2 y Hy) as [[? _] _].
    + intros x [->|Hx]%elem_of_cons; [rewrite Hs1; split; [lia|done]|]. destruct (H2 x Hx) as [? ?]. split; [lia|done].
    + intros Hsv i x Hi Hpos. destruct i as [|i].
      * injection Hi as <-. by specialize (Hs4 Hsv Hpos).
      * cbn [lookup list_lookup] in Hi. simpl in *. pose proof (lookup_lt_Some _ _ _ Hi). pose proof (H3 Hsv i x Hi Hpos). lia.
Qed.

Lemma Run_spec fuel cfg : ∀ d w,
  director_ok cfg d → 0 < MaxRounds cfg → round d ≤ MaxRounds cfg → MaxRounds cfg - round d < Z.of_nat fuel →
  ∃ err stats d' w', Run fuel d w = Some (err, stats, d', w') ∧ director_ok cfg d' ∧
    round d ≤ round d' ≤ MaxRounds cfg ∧ stats_ok cfg (round d) (round d') stats.
Proof.
  induction fuel as [|fuel IH]; intros d w Hd Hm Hr Hf; [lia|]. cbn [Run].
  destruct (run_round_spec cfg d w Hd) as (o & stats & d1 & w1 & -> & Ht). cbn [mbind option_bind].
  pose proof Ht as [Hd1 Hr1 Hl1 Hc1 Hs1]. specialize (Hl1 Hm Hr). destruct o as [err|].
  - do 4 eexists. split; [done|]. split_and!; [done|lia|lia|].
    destruct Hs1 as [->|(s & -> & E & Hs2 & Hs3 & Hs4 & _)].
    + split; [constructor|by intros s ?%elem_of_nil|done].
    + split.
      * repeat constructor.
      * intros x ->%list_elem_of_singleton. rewrite Hs2. split; [lia|done].
      * intros _ i x Hi _. by destruct i.
  - destruct (Hc1 eq_refl) as [E Hlt]. specialize (Hlt Hm).
    destruct (IH d1 w1 Hd1 Hm Hl1) as (err & more & d' & w' & -> & Hd' & Hr' & Hs'); [lia|]. cbn [mbind option_bind].
    do 4 eexists. split; [done|]. split_and!; [done|lia|lia|]. eapply stats_ok_cons; [done|lia|done].
Qed.

Lemma round_seed_inj cfg r1 r2 :
  is_word 64 r1 → is_word 64 r2 → round_seed cfg r1 = round_seed cfg r2 → r1 = r2.
Proof.
  intros H1 H2 Heq. unfold round_seed, add64 in Heq. rewrite !(wrap_small 64 r1), !(wrap_small 64 r2) in Heq by done.
  assert (mul64 r1 phiStride = mul64 r2 phiStride) as Hm.
  { unfold mul64 in *. clear - Heq. set (a := wrap 64 (r1 * phiStride)) in *. set (b := wrap 64 (r2 * phiStride)) in *.
    assert (is_word 64 a ∧ is_word 64 b) as [Ha Hb] by (split; apply wrap_is_word; lia).
    assert (wrap 64 (BaseSeed cfg + a + - BaseSeed cfg) = wrap 64 (BaseSeed cfg + b + - BaseSeed cfg)) as E
      by (rewrite <- (wrap_add_l 64 (BaseSeed cfg + a)), Heq; apply wrap_add_l).
    replace (BaseSeed cfg + a + - BaseSeed cfg) with a in E by lia. replace (BaseSeed cfg + b + - BaseSeed cfg) with b in E by lia.
    by rewrite !wrap_small in E. }
  by apply (mul64_inj phiStride 0xf1de83e19937733d) in Hm.
Qed.

(** C33: a campaign with a limit ends, without a panic, after at most that many
    rounds, whatever the context, the file system and the runs do.  The rounds it
    reports are in order, each was run under the seed of its number, no two under
    the same seed, the escalation level stays within its four steps, and when the
    campaign is to stop on a violation only the last round reported can have
    one. *)
Theorem campaign_ends (cfg : DirectorConfig) (id : string) (h : heap) (vs : gmap string Corpus.ViolationRecord)
    (hist : FaultHistory.FaultHistoryRecord) (snaps : list Regression.AssertionSnapshot) (w : W)
    (Hcfg : is_Some (h !! TestConfigPtr cfg)) (Hmax : 0 < MaxRounds cfg < 2 ^ 64) :
  ∃ err stats d' w',
    Run (S (Z.to_nat (MaxRounds cfg))) (NewCampaignDirector cfg id h vs hist snaps) w = Some (err, stats, d', w') ∧
    round d' ≤ MaxRounds cfg ∧
    StronglySorted Z.lt (map StRound stats) ∧
    (∀ s, s ∈ stats → 1 ≤ StRound s ≤ round d' ∧ StSeed s = round_seed cfg (StRound s) ∧ 0 ≤ StEscalation s ≤ 4) ∧
    NoDup (map StSeed stats) ∧
    (StopOnViolation cfg = true → ∀ i s, stats !! i = Some s → 0 < StViolations s → i = (length stats - 1)%nat).
Proof.
  set (d := NewCampaignDirector cfg id h vs hist snaps).
  assert (director_ok cfg d) as Hd.
  { split; try done. simpl. unfold Evolver.NewStrategyEvolver.
    set (s := if SatRoundsBeforeShift cfg <=? 0 then 2 else SatRoundsBeforeShift cfg).
    assert (0 < s) by (unfold s; case_bool; lia). exists (if s <=? 0 then 2 else s), 0%nat, 0. split; [done|].
    case_bool; lia. }
  destruct (Run_spec (S (Z.to_nat (MaxRounds cfg))) cfg d w Hd ltac:(lia) ltac:(simpl; lia) ltac:(simpl; lia))
    as (err & stats & d' & w' & HR & _ & Hr & [H1 H2 H3]).
  exists err, stats, d', w'. split_and!; [done|lia|done| | |done].
  - intros s Hs. destruct (H2 s Hs) as (? & ? & ?). simpl in *. split; [lia|done].
  - apply NoDup_alt. intros i j x Hi Hj. apply list_lookup_fmap_Some in Hi as (s & -> & Hi), Hj as (t & Heq & Hj).
    destruct (H2 s) as (? & Hs & _); [by eapply list_elem_of_lookup_2|].
    destruct (H2 t) as (? & Ht & _); [by eapply list_elem_of_lookup_2|]. rewrite Hs, Ht in Heq.
    apply round_seed_inj in Heq; [|unfold is_word; simpl in *; lia..].
    assert (NoDup (map StRound stats)) as Hnd.
    { by apply (StronglySorted_irrefl_NoDup Z.lt); [lia|]. }
    apply (NoDup_lookup _ i j (StRound s) Hnd); rewrite list_lookup_fmap; [by rewrite Hi|by rewrite Hj, Heq].
Qed.

End director.

(** Growth below one edge per burst is recorded as none: the threshold of the
    detector is in edges per burst, but the quotient is an integer. *)
Lemma slow_growth_recorded_as_none (states edges : Z) (d : CampaignDirector) :
  edge_growth edges (prevTotalEdges d) < burst_estimate states (Parallel (dcfg d)) →
  saturation (feed_saturation states edges d) =
    Detector.record_all (replicate (Z.to_nat (burst_estimate states (Parallel (dcfg d)))) 0) (saturation d).
Proof.
  intros H. unfold feed_saturation. simpl. do 2 f_equal. apply Z.quot_small. split; [|done].
  unfold edge_growth. cbv zeta. case_bool; lia.
Qed.

(** ** Witness and examples *)

(** Rounds in which nothing fails: every run explores five states, covers three
    edges more than the last, and the second finds a violation. *)
Definition example_result (n : nat) : RunResult :=
  mkRunResult (Some (mkResult (if (n =? 2)%nat then [mkViolation "always" "no loss" 1 1 7 3 0 [] [] 0 1] else [])
    (mkCounts 0 0 0 0 0 0 0) [] [mkPropertyCount "always" "no loss" 1 1 0] 5 (3 * Z.of_nat n) 3 0 None)) [].

#[local] Instance example_rounds : Rounds nat := {
  ctx_Err w := (false, w);
  mkdirAll _ w := (false, w);
  orch_New _ _ w := (true, w);
  orch_Run _ _ w := (Some (example_result (S w)), S w);
  commit w := (true, w) }.

Definition example_dcfg : DirectorConfig := mkDirectorConfig 0 "/s" 1 11 3 true 10 (flit 1 2) 0 fzero fzero 0.

Lemma campaign_ends_witness :
  ∃ err stats d' w',
    Run (S (Z.to_nat (MaxRounds example_dcfg)))
      (NewCampaignDirector example_dcfg "c" {[0%nat := example_config]} ∅ (FaultHistory.mkHistory 0 []) []) 0%nat =
      Some (err, stats, d', w') ∧
    round d' ≤ MaxRounds example_dcfg ∧ NoDup (map StSeed stats).
Proof.
  destruct (campaign_ends example_dcfg "c" {[0%nat := example_config]} ∅ (FaultHistory.mkHistory 0 []) [] 0%nat
    ltac:(exists example_config; reflexivity) ltac:(split; reflexivity)) as (err & stats & d' & w' & HR & Hr & _ & _ & Hn & _).
  exists err, stats, d', w'. exact (conj HR (conj Hr Hn)).
Defined.

(** The run of the witness: it stops after the violation of the second round,
    is saturated although coverage grew by three edges in five bursts, and has
    overwritten the seed of the configuration it was given. *)
Example example_campaign :
  match Run 4 (NewCampaignDirector example_dcfg "c" {[0%nat := example_config]} ∅ (FaultHistory.mkHistory 0 []) []) 0%nat with
  | Some (err, stats, d, _) =>
      err = None ∧ map StRound stats = [1; 2] ∧ map StViolations stats = [0; 1] ∧ map StSaturated stats = [true; true] ∧
      map Corpus.ID (Corpus.Load (violations d)) = ["c-2-0"%string] ∧
      (ex_Seed (c_Exploration example_config), ex_Seed ∘ c_Exploration <$> dheap d !! 0%nat) =
        (0, Some (round_seed example_dcfg 2))
  | None => False
  end.
Proof. vm_compute. auto 10. Qed.

(** A round that produces nothing counts as a clean one and escalates. *)
Example failed_rounds_escalate :
  let dead : Rounds nat := {| ctx_Err w := (false, w); mkdirAll _ w := (false, w); orch_New _ _ w := (true, w);
    orch_Run _ _ w := (None, w); commit w := (true, w) |} in
  match @Run _ dead 4 (NewCampaignDirector example_dcfg "c" {[0%nat := example_config]} ∅ (FaultHistory.mkHistory 0 []) []) 0%nat with
  | Some (_, stats, _, _) => map StEscalation stats = [0; 0; 1]
  | None => False
  end.
Proof. vm_compute. reflexivity. Qed.
