(* ===== verification/EventStore.v ===== *)
(** * The event store ([internal/eventstore])

    An append-only file of JSON lines, written through a buffer and read back
    line by line.  The encoding of one event ([encoding/json]) is a parameter;
    what the theorems need of it is in [json_laws].  Errors of the disk are left
    out; [None] is a missing file. *)
From stdpp Require Import strings.
From S2P Require Import Prelude Word Float.
Local Open Scope Z_scope.

Abbreviation bytes := (list Ascii.ascii).

Record Event := mkEvent {
  VTimeNS : Z; SnapshotID : Z; Step : Z; Container : string; Type_ : string; Payload : list (string * any) }.

Record Filter := mkFilter {
  UpTo : Z; Types : list string; fContainer : string; fSnapshotID : Z; FromStep : Z; Limit : Z }.

(** The zero filter. *)
Definition no_filter : Filter := mkFilter 0 [] "" 0 0 0.

Definition match_ (e : Event) (f : Filter) (typeSet : gset string) : bool :=
  if negb (UpTo f =? 0) && (UpTo f <? VTimeNS e) then false
  else if (0 <? size typeSet)%nat && negb (bool_decide (Type_ e ∈ typeSet)) then false
  else if negb (bool_decide (fContainer f = ""%string)) && negb (bool_decide (Container e = fContainer f)) then false
  else if negb (fSnapshotID f =? 0) && negb (SnapshotID e =? fSnapshotID f) then false
  else if negb (FromStep f =? 0) && (Step e <? FromStep f) then false
  else true.

Definition newline : Ascii.ascii := Ascii.ascii_of_N 10.

(** [r.ReadBytes('\n')]: a line without its newline, and the rest; [None] when
    the end of the file comes first. *)
Fixpoint read_line (s : bytes) : bytes * option bytes :=
  match s with
  | [] => ([], None)
  | c :: s' => if Ascii.eqb c newline then ([], Some s') else let '(l, rest) := read_line s' in (c :: l, rest)
  end.

Section json.
Context (encode : Event → option bytes) (decode : bytes → option Event).

(** *** Writing *)

(** The file and the buffer in front of it. *)
Record EventStore := mkStore { file : bytes; buffer : bytes }.

Definition buffer_size : nat := 65536.

(** [bufio.Writer.Write]. *)
Definition buf_write (p : bytes) (s : EventStore) : EventStore :=
  let avail := (buffer_size - length (buffer s))%nat in
  if (length p <=? avail)%nat then mkStore (file s) (buffer s ++ p)
  else if bool_decide (buffer s = []) then mkStore (file s ++ p) []
  else
    let f := file s ++ buffer s ++ take avail p in
    let p := drop avail p in
    if (length p <=? buffer_size)%nat then mkStore f p else mkStore (f ++ p) [].

(** [bufio.Writer.WriteByte]: a full buffer is flushed first. *)
Definition buf_write_byte (c : Ascii.ascii) (s : EventStore) : EventStore :=
  let s := if (length (buffer s) <? buffer_size)%nat then s else mkStore (file s ++ buffer s) [] in
  mkStore (file s) (buffer s ++ [c]).

Definition Open (existing : option bytes) : EventStore := mkStore (default [] existing) [].

Definition Append (e : Event) (s : EventStore) : result string unit * EventStore :=
  match encode e with
  | None => (Err "eventstore append: marshal"%string, s)
  | Some data => (Ok tt, buf_write_byte newline (buf_write data s))
  end.

Definition Flush (s : EventStore) : EventStore := mkStore (file s ++ buffer s) [].

Definition Close (s : EventStore) : bytes := file (Flush s).

(** *** Reading *)

(** The loop of [Query], with fuel for the lines that are left. *)
Fixpoint query_loop (fuel : nat) (f : Filter) (typeSet : gset string) (out : list Event) (s : bytes) : option (list Event) :=
  match fuel with
  | O => None
  | S fuel =>
      let '(line, rest) := read_line s in
      let '(out, full) :=
        match line with
        | [] => (out, false)
        | _ =>
            match decode line with
            | None => (out, false)
            | Some e =>
                if match_ e f typeSet then
                  let out := out ++ [e] in (out, (0 <? Limit f) && (Limit f <=? Z.of_nat (length out)))
                else (out, false)
            end
        end in
      if full : bool then Some out
      else match rest with None => Some out | Some s => query_loop fuel f typeSet out s end
  end.

Definition Query (content : option bytes) (f : Filter) : option (list Event) :=
  match content with
  | None => Some []
  | Some s => query_loop (S (length s)) f (list_to_set (Types f)) [] s
  end.

(** ** Specification *)

(** The events of a file: those of the lines that decode. *)
Definition lines_events (ls : list bytes) : list Event := omap (λ l, if bool_decide (l = []) then None else decode l) ls.

Definition limited {A} (limit : Z) (l : list A) : list A := if 0 <? limit then take (Z.to_nat limit) l else l.

Definition selected (f : Filter) (es : list Event) : list Event :=
  limited (Limit f) (filter (λ e, match_ e f (list_to_set (Types f)) = true) es).

(** What the store relies on of the encoding of the events [es]: it succeeds,
    has no newline, decodes to the event, and no proper prefix of it decodes. *)
Record json_laws (es : list Event) : Prop := {
  law_encode e : e ∈ es → is_Some (encode e);
  law_line e d : e ∈ es → encode e = Some d → newline ∉ d ∧ d ≠ [];
  law_decode e d : e ∈ es → encode e = Some d → decode d = Some e;
  law_prefix e d p : e ∈ es → encode e = Some d → p `prefix_of` d → p ≠ d → decode p = None }.

(** ** Lemmas *)

(** The lines of a file. *)
Fixpoint lines (s : bytes) : list bytes :=
  match s with
  | [] => [[]]
  | c :: s' =>
      if Ascii.eqb c newline then [] :: lines s'
      else match lines s' with l :: ls => (c :: l) :: ls | [] => [[c]] end
  end.

Lemma lines_read s : lines s = (read_line s).1 :: match (read_line s).2 with None => [] | Some s' => lines s' end.
Proof.
  induction s as [|c s IH]; [done|]. cbn [lines read_line]. destruct (Ascii.eqb c newline); [done|].
  rewrite IH. by destruct (read_line s) as [l rest].
Qed.

Lemma read_line_length s s' : (read_line s).2 = Some s' → (length s' < length s)%nat.
Proof.
  revert s'. induction s as [|c s IH]; intros s'; [done|]. cbn [read_line length]. destruct (Ascii.eqb c newline).
  - intros [= <-]. lia.
  - destruct (read_line s) as [l rest]. cbn [snd] in *. intros H. specialize (IH _ H). lia.
Qed.

Lemma limited_cons {A} (limit : Z) (out l : list A) :
  0 < limit → limit ≤ Z.of_nat (length out) → take (Z.to_nat limit) (out ++ l) = take (Z.to_nat limit) out.
Proof. intros H1 H2. apply take_app_le. lia. Qed.

(** The loop selects from the events of the lines. *)
Lemma query_loop_spec fuel f ts : ∀ out s,
  (length s < fuel)%nat → (0 < Limit f → Z.of_nat (length out) < Limit f) →
  query_loop fuel f ts out s = Some (limited (Limit f) (out ++ filter (λ e, match_ e f ts = true) (lines_events (lines s)))).
Proof.
  induction fuel as [|fuel IH]; intros out s Hf Hout; [lia|]. cbn [query_loop]. rewrite lines_read.
  destruct (read_line s) as [line rest] eqn:Hr. cbn [fst snd].
  assert (∀ out', (0 < Limit f → Z.of_nat (length out') < Limit f) →
    match rest with None => Some out' | Some s' => query_loop fuel f ts out' s' end =
    Some (limited (Limit f) (out' ++ filter (λ e, match_ e f ts = true)
      (lines_events (match rest with None => [] | Some s' => lines s' end))))) as Hrest.
  { intros out' Hout'. destruct rest as [s'|].
    - apply IH; [|done]. pose proof (read_line_length s s') as Hl. rewrite Hr in Hl. specialize (Hl eq_refl). lia.
    - cbn. rewrite app_nil_r. f_equal. unfold limited. destruct (Z.ltb_spec 0 (Limit f)); [|done]. symmetry. apply take_ge. lia. }
  unfold lines_events in *. cbn [omap list_omap]. destruct line as [|c line].
  { rewrite bool_decide_eq_true_2 by done. by apply Hrest. }
  rewrite bool_decide_eq_false_2 by done. destruct (decode (c :: line)) as [e|]; [|by apply Hrest].
  rewrite filter_cons. destruct (match_ e f ts) eqn:Hm.
  2: { rewrite decide_False by done. by apply Hrest. }
  rewrite decide_True by done.
  replace (out ++ e :: filter (λ e, match_ e f ts = true) (omap (λ l, if bool_decide (l = []) then None else decode l)
    (match rest with None => [] | Some s' => lines s' end)))
    with ((out ++ [e]) ++ filter (λ e, match_ e f ts = true) (omap (λ l, if bool_decide (l = []) then None else decode l)
    (match rest with None => [] | Some s' => lines s' end))) by by rewrite <- app_assoc.
  destruct ((0 <? Limit f) && _) eqn:Hfull.
  - apply andb_true_iff in Hfull as [H1%Z.ltb_lt H2%Z.leb_le]. f_equal. unfold limited. rewrite (proj2 (Z.ltb_lt _ _)) by done.
    rewrite limited_cons by done. symmetry. apply take_ge. rewrite length_app in *. simpl in *. specialize (Hout H1). lia.
  - apply Hrest. intros H1. rewrite (proj2 (Z.ltb_lt 0 _)) in Hfull by done. cbn [andb] in Hfull. by apply Z.leb_gt in Hfull.
Qed.

Lemma Query_spec s f : Query (Some s) f = Some (selected f (lines_events (lines s))).
Proof. unfold Query, selected. rewrite query_loop_spec; [done|lia|simpl; lia]. Qed.
(** Everything written, on disk or in the buffer. *)
Definition total (s : EventStore) : bytes := file s ++ buffer s.

Lemma buf_write_total p s : total (buf_write p s) = total s ++ p.
Proof.
  unfold buf_write, total. set (a := (buffer_size - length (buffer s))%nat). destruct (length p <=? a)%nat; cbn [file buffer]; [by rewrite app_assoc|].
  case_bool_decide as Hb; cbn [file buffer]; [rewrite Hb; by rewrite !app_nil_r|].
  destruct (length (drop a p) <=? buffer_size)%nat; cbn [file buffer]; rewrite ?app_nil_r, <- !app_assoc, take_drop; done.
Qed.

Lemma buf_write_byte_total c s : total (buf_write_byte c s) = total s ++ [c].
Proof. unfold buf_write_byte, total. case_match; cbn [file buffer]; by rewrite ?app_nil_l, <- ?app_assoc. Qed.

Definition append_all (es : list Event) (s : EventStore) : EventStore := foldl (λ s e, (Append e s).2) s es.

(** The lines of events. *)
Definition encoded (es : list Event) : bytes := concat (map (λ e, default [] (encode e) ++ [newline]) es).

Lemma append_all_total es : ∀ s, (∀ e, e ∈ es → is_Some (encode e)) → total (append_all es s) = total s ++ encoded es.
Proof.
  induction es as [|e es IH]; intros s He; [unfold encoded; simpl; by rewrite app_nil_r|]. unfold append_all in *. cbn [foldl].
  rewrite IH by (intros; apply He; by right). unfold Append. destruct (He e) as [d Hd]; [by left|]. rewrite Hd. cbn [snd].
  rewrite buf_write_byte_total, buf_write_total. unfold encoded. cbn [map concat]. rewrite Hd. cbn [default from_option id].
  by rewrite <- !app_assoc.
Qed.

Lemma lines_line l s : newline ∉ l → lines (l ++ newline :: s) = l :: lines s.
Proof.
  induction l as [|c l IH]; intros Hl; cbn [app lines]; [by rewrite Ascii.eqb_refl|].
  apply not_elem_of_cons in Hl as [Hc Hl]. destruct (Ascii.eqb_spec c newline) as [->|_]; [done|]. by rewrite IH.
Qed.

Lemma lines_nonl l : newline ∉ l → lines l = [l].
Proof.
  induction l as [|c l IH]; intros Hl; cbn [lines]; [done|].
  apply not_elem_of_cons in Hl as [Hc Hl]. destruct (Ascii.eqb_spec c newline) as [->|_]; [done|]. by rewrite IH.
Qed.

Lemma json_laws_cons e es : json_laws (e :: es) → json_laws es.
Proof. intros [H1 H2 H3 H4]. split; intros; [eapply H1|eapply H2|eapply H3|eapply H4]; eauto; by right. Qed.

(** The events of any prefix of the lines of [es] are a prefix of [es]. *)
Lemma prefix_events es : ∀ p, json_laws es → p `prefix_of` encoded es → ∃ k, lines_events (lines p) = take k es.
Proof.
  induction es as [|e es IH]; intros p Hj Hp.
  { apply prefix_nil_inv in Hp as ->. by exists 0%nat. }
  destruct (law_encode _ Hj e) as [d Hd]; [by left|]. destruct (law_line _ Hj e d) as [Hnl Hne]; [by left|done|].
  unfold encoded in Hp. cbn [map concat] in Hp. rewrite Hd in Hp. cbn [default from_option id] in Hp. rewrite <- app_assoc in Hp.
  assert (p `prefix_of` d ∨ ∃ q, p = d ++ q ∧ q `prefix_of` [newline] ++ encoded es) as [Hpd|(q & -> & Hq)].
  { destruct (prefix_weak_total p d _ Hp (prefix_app_r d d _ (reflexivity d))) as [?|[q ->]]; [by left|right].
    exists q. split; [done|]. by apply prefix_app_inv in Hp. }
  - exists (if bool_decide (p = d) then 1 else 0)%nat. rewrite lines_nonl by (intros Hin; apply Hnl; destruct Hpd as [r ->]; apply elem_of_app; by left).
    unfold lines_events. cbn [omap list_omap]. case_bool_decide as Hp0; [subst p|].
    + by rewrite bool_decide_eq_false_2 by done.
    + case_bool_decide as Hpe; [by rewrite Hpe, (law_decode _ Hj e d) by (done || by left)|].
      by rewrite (law_prefix _ Hj e d p) by (done || by left).
  - cbn [app] in Hq. destruct q as [|c q].
    + exists 1%nat. rewrite app_nil_r, lines_nonl by done. unfold lines_events. cbn [omap list_omap].
      rewrite bool_decide_eq_false_2 by done. by rewrite (law_decode _ Hj e d) by (done || by left).
    + pose proof (prefix_cons_inv_1 _ _ _ _ Hq) as ->. apply prefix_cons_inv_2 in Hq.
      destruct (IH q (json_laws_cons _ _ Hj) Hq) as [k Hk]. exists (S k). rewrite lines_line by done.
      unfold lines_events in *. cbn [omap list_omap]. rewrite bool_decide_eq_false_2 by done.
      rewrite (law_decode _ Hj e d) by (done || by left). cbn [take]. by rewrite Hk.
Qed.

Lemma encoded_events es : json_laws es → lines_events (lines (encoded es)) = es.
Proof.
  induction es as [|e es IH]; intros Hj; [done|]. destruct (law_encode _ Hj e) as [d Hd]; [by left|].
  destruct (law_line _ Hj e d) as [Hnl Hne]; [by left|done|]. unfold encoded. cbn [map concat]. rewrite Hd. cbn [default from_option id].
  rewrite <- app_assoc. cbn [app]. rewrite lines_line by done. unfold lines_events in *. cbn [omap list_omap].
  rewrite bool_decide_eq_false_2 by done.
  rewrite (law_decode _ Hj e d) by (done || by left). f_equal. apply IH. by eapply json_laws_cons.
Qed.

Lemma encoded_app es1 es2 : encoded (es1 ++ es2) = encoded es1 ++ encoded es2.
Proof. unfold encoded. by rewrite map_app, concat_app. Qed.

Lemma file_prefix_total s : file s `prefix_of` total s.
Proof. by exists (buffer s). Qed.

(** C34: events appended in two sessions are read back in order, exactly those
    that match the filter and no more than its limit; and if the process dies in
    the second session, with any part of the buffer on disk, what is read is a
    prefix of the events: the line that was cut is skipped, and no event is
    invented or reordered. *)
Theorem events_durable (es1 es2 : list Event) (f : Filter) (content : bytes) (Hjson : json_laws (es1 ++ es2)) :
  let first := Close (append_all es1 (Open None)) in
  let s := append_all es2 (Open (Some first)) in
  Query (Some (Close s)) f = Some (selected f (es1 ++ es2)) ∧
  file s `prefix_of` Close s ∧
  (content `prefix_of` Close s → ∃ k, Query (Some content) f = Some (selected f (take k (es1 ++ es2)))) ∧
  Query None f = Some [].
Proof.
  intros first s.
  assert (Close s = encoded (es1 ++ es2)) as Hs.
  { assert (∀ s, Close s = total s) as HC by done. rewrite HC. unfold s. rewrite append_all_total.
    - unfold total at 1. cbn [Open file buffer default from_option]. rewrite app_nil_r. unfold first. rewrite HC, append_all_total.
      + by rewrite encoded_app.
      + intros e He. apply (law_encode _ Hjson). apply elem_of_app. by left.
    - intros e He. apply (law_encode _ Hjson). apply elem_of_app. by right. }
  split_and!; [| | |done].
  - by rewrite Query_spec, Hs, encoded_events.
  - apply file_prefix_total.
  - intros Hc. rewrite Hs in Hc. destruct (prefix_events _ _ Hjson Hc) as [k Hk]. exists k. by rewrite Query_spec, Hk.
Qed.
End json.

(** ** Witness *)

Definition example_event (step : Z) (ty : string) : Event := mkEvent (1000 * step) 0 step "" ty [].

(** An encoding of three events as [{1], [{2] and [{3] with a closing brace. *)
Definition example_encode (e : Event) : option bytes :=
  if decide (Step e = 1 ∨ Step e = 2 ∨ Step e = 3) then
    Some (String.list_ascii_of_string ("{" ++ pretty.pretty (Step e) ++ "}"))
  else None.

Definition example_decode (d : bytes) : option Event :=
  if decide (d = String.list_ascii_of_string "{1}") then Some (example_event 1 "a")
  else if decide (d = String.list_ascii_of_string "{2}") then Some (example_event 2 "b")
  else if decide (d = String.list_ascii_of_string "{3}") then Some (example_event 3 "a") else None.

Lemma example_laws : json_laws example_encode example_decode [example_event 1 "a"; example_event 2 "b"; example_event 3 "a"].
Proof.
  assert (∀ e, e ∈ [example_event 1 "a"; example_event 2 "b"; example_event 3 "a"] →
    e = example_event 1 "a" ∨ e = example_event 2 "b" ∨ e = example_event 3 "a") as Hin
    by (intros e; rewrite !elem_of_cons, elem_of_nil; tauto).
  split.
  - intros e [->|[->| ->]]%Hin; eexists; vm_compute; reflexivity.
  - intros e d [->|[->| ->]]%Hin [= <-]; (split; [|done]); intros Hl%list_elem_of_In; vm_compute in Hl; intuition discriminate.
  - intros e d [->|[->| ->]]%Hin [= <-]; vm_compute; reflexivity.
  - intros e d p [->|[->| ->]]%Hin [= <-] [k Hk] Hne; vm_compute in Hk, Hne;
      (destruct p as [|x [|y [|z [|w p]]]]; simpl in Hk; [done|simplify_eq..|]); try done;
      destruct k; simplify_eq; done.
Qed.

Lemma events_durable_witness :
  let es1 := [example_event 1 "a"; example_event 2 "b"] in
  let es2 := [example_event 3 "a"] in
  let s := append_all example_encode es2 (Open (Some (Close (append_all example_encode es1 (Open None))))) in
  Query example_decode (Some (Close s)) (mkFilter 0 ["a"%string] "" 0 0 0) = Some [example_event 1 "a"; example_event 3 "a"] ∧
  ∃ k, Query example_decode (Some (String.list_ascii_of_string "{1}"%string)) no_filter =
    Some (selected no_filter (take k (es1 ++ es2))).
Proof.
  intros es1 es2 s. split; [vm_compute; reflexivity|].
  refine (proj1 (proj2 (proj2 (events_durable example_encode example_decode es1 es2 no_filter _ example_laws))) _).
  eexists. vm_compute. reflexivity.
Defined.
