(* ===== verification/FaultInject.v ===== *)
(** * Fault injection ([internal/orchestrator/faults.go])

    The handler that injects the faults of one step, live and on replay, and
    the messages it sends to the guest agent.  It runs in a state monad over
    the orchestrator's fields; [None] is a Go panic (the methods that use a nil
    listener) or a walk that does not end.  What the agent and the hypervisor
    answer is the class [Injection]: an error or not, for each call, in view of
    the calls before it.  Log lines are left out. *)
From stdpp Require Import strings.
From S2P Require Import Prelude Strings Word Float GoLib Prng TestConfig SnapshotTree EventStore Fault Schedule Adaptive.
Local Open Scope Z_scope.

(** ** Data *)

Abbreviation params := (list (string * any)).

(** [hypervisor.BackendFirecracker] and the other backends, by name. *)
Definition BackendFirecracker : string := "firecracker".

(** [fault.Fault]. *)
Record HypFault := mkHypFault { hfKind : Kind; hfParams : params }.

(** [agentFaultMsg], the type field ("inject_fault" in every message) left out. *)
Record agentFaultMsg := mkAgentFaultMsg {
  pl_Kind : string; pl_Port : string; pl_DelayMS : Z; pl_SrcPort : string; pl_DstPort : string;
  pl_Direction : string; pl_RateKbps : Z; pl_NodeName : string; pl_DurationMS : Z; pl_DurationNS : Z;
  pl_Correlation : Z; pl_CPUPct : Z; pl_Bps : Z; pl_TargetFreeBytes : Z; pl_DataDir : string;
  pl_ScriptPath : string; pl_ScriptArgs : list string; pl_ScriptTimeout : Z;
  pl_DiskFlakeyInterval : Z; pl_DiskFlakeyDuration : Z }.
#[export] Instance agentFaultMsg_eta : Eta agentFaultMsg := mkEta _ (λ r,
  mkAgentFaultMsg (pl_Kind r) (pl_Port r) (pl_DelayMS r) (pl_SrcPort r) (pl_DstPort r) (pl_Direction r)
    (pl_RateKbps r) (pl_NodeName r) (pl_DurationMS r) (pl_DurationNS r) (pl_Correlation r) (pl_CPUPct r)
    (pl_Bps r) (pl_TargetFreeBytes r) (pl_DataDir r) (pl_ScriptPath r) (pl_ScriptArgs r) (pl_ScriptTimeout r)
    (pl_DiskFlakeyInterval r) (pl_DiskFlakeyDuration r)).

(** [agentFaultMsg{Type: "inject_fault"}] with its kind set. *)
Definition msg (kind : string) : agentFaultMsg :=
  mkAgentFaultMsg kind "" 0 "" "" "" 0 "" 0 0 0 0 0 0 "" "" [] 0 0 0.

(** A call that leaves the orchestrator: to the guest agent over the listener,
    or to the hypervisor's [InjectFault]. *)
Inductive call := ToAgent (m : agentFaultMsg) | ToHyp (f : HypFault).

(** Whether a call fails, in view of the calls made before it. *)
Class Injection := fails : list call → call → bool.

(** The fields of the run's configuration that the handler reads. *)
Record RunConfig := mkRunConfig { rcBackend : string; rcSeed : Z; rcTestConfig : Config }.

(** The orchestrator's fields that the handler reads or writes.  [listener] is
    whether the pointer is set; [evstore] holds the events appended; [calls] is
    what the world has seen. *)
Record Orchestrator := mkOrchestrator {
  cfg : RunConfig; tree : Tree; rng : Source; listener : bool; swarmProfile : option SwarmProfile;
  faultNet : option NetworkInjector; faultNode : option NodeInjector;
  faultSchedule : Schedule; adaptiveFaults : option AdaptiveFaultSelector; lastInjectedFault : Kind;
  faultRng : Source; faultQuietUntil : option Z;
  currentTimeNS : Z; currentStep : Z; currentStepPathHash : Z; currentStepVTimeNS : Z;
  currentFaultKindMask : Z; currentFaultCount : Z;
  evstore : option (list EventStore.Event); calls : list call }.
#[export] Instance Orchestrator_eta : Eta Orchestrator := mkEta _ (λ r,
  mkOrchestrator (cfg r) (tree r) (rng r) (listener r) (swarmProfile r) (faultNet r) (faultNode r) (faultSchedule r) (adaptiveFaults r)
    (lastInjectedFault r) (faultRng r) (faultQuietUntil r) (currentTimeNS r) (currentStep r)
    (currentStepPathHash r) (currentStepVTimeNS r) (currentFaultKindMask r) (currentFaultCount r) (evstore r) (calls r)).

(** ** The monad *)

Definition M (A : Type) : Type := Orchestrator → option (A * Orchestrator).

#[export] Instance M_ret : MRet M := λ A a o, Some (a, o).
#[export] Instance M_bind : MBind M := λ A B k m o,
  match m o with Some (a, o) => k a o | None => None end.

Definition modify (f : Orchestrator → Orchestrator) : M unit := λ o, Some (tt, f o).

(** A decision drawn from the fault generator. *)
Definition draw {A} (d : Source → A * Source) : M A := λ o,
  let '(a, rng) := d (faultRng o) in Some (a, o <| faultRng := rng |>).

(** [for _, x := range l { f(x) }]. *)
Fixpoint each {A} (f : A → M unit) (l : list A) : M unit :=
  match l with
  | [] => mret tt
  | x :: l => _ ← f x; each f l
  end.

(** [for i, a := range l { for _, b := range l[i+1:] { f(a, b) } }]. *)
Fixpoint each_pair {A} (f : A → A → M unit) (l : list A) : M unit :=
  match l with
  | [] => mret tt
  | a :: l => _ ← each (f a) l; each_pair f l
  end.

(** ** Ports *)

Definition colon : Ascii.ascii := Ascii.ascii_of_N 58.

(** [strings.Index] and [strings.LastIndex] of one byte. *)
Definition Index (s : list Ascii.ascii) (c : Ascii.ascii) : option nat := find_index (Ascii.eqb c) s.

Definition LastIndex (s : list Ascii.ascii) (c : Ascii.ascii) : option nat :=
  (λ i, length s - 1 - i)%nat <$> find_index (Ascii.eqb c) (reverse s).

(** The port of a probe: what is between its last colon and the next slash. *)
Definition probe_port (probe : string) : string :=
  let s := String.list_ascii_of_string probe in
  match LastIndex s colon with
  | None => ""
  | Some i =>
      let portPath := drop (S i) s in
      String.string_of_list_ascii
        match Index portPath slash with Some j => take j portPath | None => portPath end
  end.

Fixpoint nodePort (nodes : list Node) (name : string) : string :=
  match nodes with
  | [] => ""
  | n :: nodes =>
      if negb (bool_decide (nd_Name n = name)) then nodePort nodes name
      else
        let probe := if bool_decide (nd_FaultProbe n = ""%string) then nd_ReadyProbe n else nd_FaultProbe n in
        if bool_decide (probe = ""%string) then nodePort nodes name else probe_port probe
  end.

(** ** Calls

    Each returns whether the call failed. *)

Section calls.
Context `{Injection}.

(** [o.hyp.InjectFault]. *)
Definition InjectFault (f : HypFault) : M bool := λ o,
  Some (fails (calls o) (ToHyp f), o <| calls := calls o ++ [ToHyp f] |>).

(** [o.listener.Send]: a nil listener is a nil dereference. *)
Definition Send (m : agentFaultMsg) : M bool := λ o,
  if listener o then Some (fails (calls o) (ToAgent m), o <| calls := calls o ++ [ToAgent m] |>) else None.

(** [if o.listener == nil { return nil }], then [Send]. *)
Definition SendIf (m : agentFaultMsg) : M bool := λ o, if listener o then Send m o else Some (false, o).

Definition sendAgentFault (kind port : string) (delayMS : Z) : M bool :=
  SendIf (msg kind <| pl_Port := port |> <| pl_DelayMS := delayMS |>).

Definition sendAgentPartition (srcPort dstPort direction : string) : M bool :=
  SendIf (msg "block_one_way" <| pl_SrcPort := srcPort |> <| pl_DstPort := dstPort |> <| pl_Direction := direction |>).

Definition sendAgentThrottle (dstPort : string) (rateKbps : Z) : M bool :=
  SendIf (msg "throttle_port" <| pl_Port := dstPort |> <| pl_RateKbps := rateKbps |>).

Definition sendAgentReorder (dstPort : string) (correlation : Z) : M bool :=
  Send (msg "reorder_port" <| pl_Port := dstPort |> <| pl_Correlation := correlation |>).

Definition sendAgentCPUThrottle (node : string) (pct : Z) : M bool :=
  Send (msg "cpu_throttle_node" <| pl_NodeName := node |> <| pl_CPUPct := pct |>).

Definition sendAgentCPUModulate (node : string) (speedPct : Z) : M bool :=
  Send (msg "cpu_modulate_node" <| pl_NodeName := node |> <| pl_CPUPct := speedPct |>).

Definition sendAgentDiskSlow (node : string) (bps : Z) : M bool :=
  Send (msg "disk_slow_node" <| pl_NodeName := node |> <| pl_Bps := bps |>).

Definition sendAgentDiskFull (targetFreeBytes : Z) : M bool :=
  Send (msg "disk_full" <| pl_TargetFreeBytes := targetFreeBytes |>).

Definition sendAgentMemPressure (node : string) (limitBytes : Z) : M bool :=
  Send (msg "mem_pressure_node" <| pl_NodeName := node |> <| pl_TargetFreeBytes := limitBytes |>).

Definition sendAgentDiskFlakey (node : string) (intervalSecs durationSecs : Z) : M bool :=
  SendIf (msg "disk_flakey_node" <| pl_NodeName := node |> <| pl_DiskFlakeyInterval := intervalSecs |>
            <| pl_DiskFlakeyDuration := durationSecs |>).

Definition sendAgentDiskCorrupt (node dataDir : string) : M bool :=
  Send (msg "disk_corrupt_node" <| pl_NodeName := node |> <| pl_DataDir := dataDir |>).

Definition sendAgentScript (path : string) (args : list string) (timeoutSeconds : Z) : M bool :=
  SendIf (msg "exec_script" <| pl_ScriptPath := path |> <| pl_ScriptArgs := args |> <| pl_ScriptTimeout := timeoutSeconds |>).

Definition sendAgentHangNode (node : string) (durationNS : Z) : M bool :=
  SendIf (msg "hang_node" <| pl_NodeName := node |> <| pl_DurationNS := durationNS |>).

Definition sendAgentTerminateNode (node : string) : M bool :=
  SendIf (msg "terminate_node" <| pl_NodeName := node |>).

Definition sendAgentDirtyRestartNode (node : string) : M bool :=
  SendIf (msg "dirty_restart_node" <| pl_NodeName := node |>).

Definition sendAgentPauseNode (node : string) (durationMS : Z) : M bool :=
  SendIf (msg "pause_node" <| pl_NodeName := node |> <| pl_DurationMS := durationMS |>).

(** ** Bookkeeping *)

(** [o.appendEvent]: nothing without an event store; a failed append is only
    logged, and the values stored here can always be encoded. *)
Definition appendEvent (e : EventStore.Event) : M unit :=
  modify (λ o, o <| evstore := (λ es, es ++ [e]) <$> evstore o |>).

Definition stamp (o : Orchestrator) (e : ScheduleEntry) : ScheduleEntry :=
  mkScheduleEntry (Schedule.Step e) (FaultKind e) (Target e) (TargetB e) (DurationNS e) (Params e)
    (currentStepPathHash o) (currentStepVTimeNS o).

Definition recordFault (e : ScheduleEntry) : M unit := λ o,
  let e := stamp o e in
  let o := o <| faultSchedule := Record_ (faultSchedule o) e |> in
  appendEvent (EventStore.mkEvent (currentStepVTimeNS o) (current (tree o)) (currentStep o) "" "fault_applied"
    [("fault_kind", AnyString (FaultKind e)); ("target", AnyString (Target e)); ("target_b", AnyString (TargetB e));
     ("params", AnyMap (Params e))]%string) o.

Definition countFault (k : Kind) : M unit :=
  modify (λ o, o <| currentFaultCount := wrap 32 (currentFaultCount o + 1) |>
                 <| currentFaultKindMask := Z.lor (currentFaultKindMask o) (KindToMask k) |>).

Definition clearFaults : M unit := λ o,
  match InjectFault (mkHypFault KindClear []) o with
  | None => None
  | Some (_, o) =>
      if bool_decide (rcBackend (cfg o) = BackendFirecracker) then
        (_ ← sendAgentFault "clear" "" 0; mret tt) o
      else Some (tt, o)
  end.

(** ** Live injection *)

(** An entry as the handler makes it, before [recordFault] stamps it. *)
Definition entry (step : Z) (k : Kind) (target targetB : string) (ps : params) : ScheduleEntry :=
  mkScheduleEntry step k target targetB 0 ps 0 0.

(** [if injectErr != nil { log } else { countFault }], then [recordFault]. *)
Definition count_and_record (err : bool) (e : ScheduleEntry) : M unit :=
  _ ← (if err then mret tt else countFault (FaultKind e)); recordFault e.

(** [o.adaptiveFaults == nil || slices.Contains(selectedFaults, kind)]; [None]
    for no adaptive selector. *)
Definition allowed (sel : option (list Kind)) (k : Kind) : bool :=
  match sel with None => true | Some ks => bool_decide (k ∈ ks) end.

Section step.
Context (c : RunConfig) (sel : option (list Kind)) (step : Z).

Definition isFC : bool := bool_decide (rcBackend c = BackendFirecracker).
Definition nodes : list Node := c_Nodes (rcTestConfig c).
Definition port_of (name : string) : string := nodePort nodes name.

Definition when (b : bool) (m : M unit) : M unit := if b then m else mret tt.

(** A message to the agent when the node has a port. *)
Definition with_port (name : string) (send : string → M bool) : M bool :=
  if bool_decide (port_of name = ""%string) then mret false else send (port_of name).

(** The ports of the nodes of each group that have one. *)
Definition group_ports (groups : list (list string)) : list (list string) :=
  map (λ grp, filter (λ p, p ≠ ""%string) (map port_of grp)) groups.

(** The pairs of ports of two different groups, in the order of the loops. *)
Fixpoint cross_pairs (gps : list (list string)) : list (string * string) :=
  match gps with
  | [] => []
  | g :: gps => flat_map (list_prod g) gps ++ cross_pairs gps
  end.

(** The loops over the pairs, with [injected]. *)
Fixpoint nway_loop (ps : params) (injected : bool) (pairs : list (string * string)) : M bool :=
  match pairs with
  | [] => mret injected
  | (portA, portB) :: pairs =>
      err ← (if isFC then sendAgentPartition portA portB "both" else InjectFault (mkHypFault KindNWayPartition ps));
      nway_loop ps (injected || negb err) pairs
  end.

Definition try_nway (net : NetworkInjector) : M unit :=
  when (allowed sel KindNWayPartition) (
    '(fired, groups) ← draw (ShouldNWayPartition net (NodeNames (rcTestConfig c)));
    when fired (
      let ps := [("groups"%string, AnyStringLists groups)] in
      injected ← nway_loop ps false (cross_pairs (group_ports groups));
      when injected (
        _ ← countFault KindNWayPartition;
        recordFault (entry step KindNWayPartition "" "" ps)))).

Definition try_drop (net : NetworkInjector) (a b : string) : M unit :=
  when (allowed sel KindDrop) (
    drop ← draw (ShouldDrop net a b);
    when drop (
      let ps := [("src", AnyString a); ("dst", AnyString b)]%string in
      err ← (if isFC then with_port b (λ port, sendAgentFault "block_port" port 0) else InjectFault (mkHypFault KindDrop ps));
      count_and_record err (entry step KindDrop a b ps))).

(** [Duration.Milliseconds]. *)
Definition Milliseconds (d : Z) : Z := Z.quot d 1000000.

Definition try_delay (net : NetworkInjector) (a b : string) : M unit :=
  when (allowed sel KindDelay) (
    delay ← draw (Delay net a b);
    when (0 <? delay) (
      let ps := [("src", AnyString a); ("dst", AnyString b); ("ms", AnyInt64 (Milliseconds delay))]%string in
      err ← (if isFC then with_port b (λ port, sendAgentFault "delay_port" port (Milliseconds delay))
             else InjectFault (mkHypFault KindDelay ps));
      count_and_record err (entry step KindDelay a b ps))).

Definition try_partition (net : NetworkInjector) (a b : string) : M unit :=
  when (allowed sel KindPartition) (
    '(partitioned, dir) ← draw (ShouldPartition net a b);
    when partitioned (
      let portA := port_of a in
      let portB := port_of b in
      let ps := [("src", AnyString a); ("dst", AnyString b); ("direction", AnyString (DirectionString dir));
                 ("src_port", AnyString portA); ("dst_port", AnyString portB)]%string in
      err ← (if isFC then
               if negb (bool_decide (portA = ""%string)) && negb (bool_decide (portB = ""%string))
               then sendAgentPartition portA portB (DirectionString dir) else mret false
             else InjectFault (mkHypFault KindPartition ps));
      count_and_record err (entry step KindPartition a b ps))).

Definition try_throttle (net : NetworkInjector) (a b : string) : M unit :=
  when (allowed sel KindThrottle) (
    '(throttled, rate) ← draw (ShouldThrottle net a b);
    when throttled (
      let ps := [("src", AnyString a); ("dst", AnyString b); ("rate_kbps", AnyInt rate)]%string in
      err ← (if isFC then with_port b (λ port, sendAgentThrottle port rate) else InjectFault (mkHypFault KindThrottle ps));
      count_and_record err (entry step KindThrottle a b ps))).

Definition try_reorder (net : NetworkInjector) (a b : string) : M unit :=
  when (allowed sel KindReorder) (
    '(reordered, corr) ← draw (ShouldReorder net a b);
    when reordered (
      let ps := [("src", AnyString a); ("dst", AnyString b); ("correlation", AnyInt corr)]%string in
      err ← (if isFC then with_port b (λ port, sendAgentReorder port corr) else InjectFault (mkHypFault KindReorder ps));
      count_and_record err (entry step KindReorder a b ps))).

Definition network_faults (net : NetworkInjector) : M unit :=
  _ ← try_nway net;
  each_pair (λ a b,
    _ ← try_drop net a b;
    _ ← try_delay net a b;
    _ ← try_partition net a b;
    _ ← try_throttle net a b;
    try_reorder net a b) (NodeNames (rcTestConfig c)).

Definition try_hang (nd : NodeInjector) (n : string) : M unit :=
  when (allowed sel KindHang) (
    '(hang, hangDuration) ← draw (ShouldHang nd n);
    when hang (
      let ps := [("node", AnyString n); ("duration_ns", AnyInt64 hangDuration)]%string in
      err ← (if isFC then sendAgentHangNode n hangDuration else InjectFault (mkHypFault KindHang ps));
      count_and_record err (entry step KindHang n "" ps))).

Definition try_terminate (nd : NodeInjector) (n : string) : M unit :=
  when (allowed sel KindTerminate) (
    terminate ← draw (ShouldTerminate nd n);
    when terminate (
      let ps := [("node", AnyString n)]%string in
      err ← (if isFC then sendAgentTerminateNode n else InjectFault (mkHypFault KindTerminate ps));
      count_and_record err (entry step KindTerminate n "" ps))).

Definition try_dirty_restart (nd : NodeInjector) (n : string) : M unit :=
  restart ← draw (ShouldDirtyRestart nd n);
  when restart (
    err ← sendAgentDirtyRestartNode n;
    when (negb err) (
      _ ← countFault KindTerminate;
      recordFault (entry step KindTerminate n "" [("node", AnyString n); ("dirty", AnyBool true)]%string))).

Definition try_pause (nd : NodeInjector) (n : string) : M unit :=
  when (allowed sel KindThreadPause) (
    '(pause, pauseDur) ← draw (ShouldPause nd n);
    when pause (
      let ps := [("node", AnyString n); ("duration_ms", AnyInt64 (Milliseconds pauseDur))]%string in
      err ← (if isFC then sendAgentPauseNode n (Milliseconds pauseDur) else InjectFault (mkHypFault KindThreadPause ps));
      count_and_record err (entry step KindThreadPause n "" ps))).

Definition try_cpu_throttle (nd : NodeInjector) (n : string) : M unit :=
  when (allowed sel KindCPUThrottle) (
    '(throttle, pct) ← draw (ShouldCPUThrottle nd n);
    when throttle (
      let ps := [("node", AnyString n); ("cpu_pct", AnyInt pct)]%string in
      err ← (if isFC then sendAgentCPUThrottle n pct else InjectFault (mkHypFault KindCPUThrottle ps));
      count_and_record err (entry step KindCPUThrottle n "" ps))).

Definition try_cpu_modulate (nd : NodeInjector) (n : string) : M unit :=
  when (allowed sel KindCPUModulate) (
    '(modulate, speedPct) ← draw (ShouldCPUModulate nd n);
    when modulate (
      let ps := [("node", AnyString n); ("speed_pct", AnyInt speedPct)]%string in
      err ← (if isFC then sendAgentCPUModulate n speedPct else InjectFault (mkHypFault KindCPUModulate ps));
      count_and_record err (entry step KindCPUModulate n "" ps))).

(** The faults that only the agent can inject: without Firecracker they are
    recorded and nothing else. *)
Definition agent_only (send : M bool) (e : ScheduleEntry) : M unit :=
  _ ← when isFC (err ← send; when (negb err) (countFault (FaultKind e)));
  recordFault e.

Definition try_disk_slow (nd : NodeInjector) (n : string) : M unit :=
  when (allowed sel KindDiskSlow) (
    '(slow, bps) ← draw (ShouldDiskSlow nd n);
    when slow (
      agent_only (sendAgentDiskSlow n bps)
        (entry step KindDiskSlow n "" [("node", AnyString n); ("bps", AnyInt64 bps)]%string))).

Definition try_disk_corrupt (nd : NodeInjector) (n : string) : M unit :=
  when (allowed sel KindDiskCorrupt) (
    corrupt ← draw (ShouldDiskCorrupt nd n);
    when corrupt (
      let dataDir := nf_DiskCorruptDataDir (fc_Node (c_Faults (rcTestConfig c))) in
      agent_only (sendAgentDiskCorrupt n dataDir)
        (entry step KindDiskCorrupt n "" [("node", AnyString n); ("data_dir", AnyString dataDir)]%string))).

Definition try_mem_pressure (nd : NodeInjector) (n : string) : M unit :=
  when (allowed sel KindMemPressure) (
    '(pressure, limitBytes) ← draw (ShouldMemPressure nd n);
    when pressure (
      agent_only (sendAgentMemPressure n limitBytes)
        (entry step KindMemPressure n "" [("node", AnyString n); ("limit_bytes", AnyInt64 limitBytes)]%string))).

Definition try_script (nd : NodeInjector) (n : string) : M unit :=
  when (allowed sel KindScript) (
    '(fire, path, args, timeout) ← draw (ShouldScript nd);
    when fire (
      agent_only (sendAgentScript path args timeout)
        (entry step KindScript n ""
           [("path", AnyString path); ("args", AnyStrings args); ("timeout_seconds", AnyInt timeout)]%string))).

Definition try_disk_flakey (nd : NodeInjector) (n : string) : M unit :=
  when (allowed sel KindDiskFlakey) (
    '(flakey, interval, duration) ← draw (ShouldDiskFlakey nd n);
    when flakey (
      agent_only (sendAgentDiskFlakey n interval duration)
        (entry step KindDiskFlakey n ""
           [("node", AnyString n); ("interval_secs", AnyInt interval); ("duration_secs", AnyInt duration)]%string))).

Definition try_disk_full (nd : NodeInjector) : M unit :=
  when (allowed sel KindDiskFull) (
    full ← draw (ShouldDiskFull nd "");
    when full (
      let targetFree := nf_DiskFullTargetFreeBytes (fc_Node (c_Faults (rcTestConfig c))) in
      agent_only (sendAgentDiskFull targetFree)
        (entry step KindDiskFull "" "" [("target_free_bytes", AnyInt64 targetFree)]%string))).

Definition try_clock_jitter (nd : NodeInjector) : M unit :=
  when (allowed sel KindClockJitter) (
    jitter ← draw (ClockJitter nd);
    when (negb (jitter =? 0)) (
      let ps := [("jitter_ns", AnyInt64 jitter)]%string in
      err ← InjectFault (mkHypFault KindClockJitter ps);
      count_and_record err (entry step KindClockJitter "" "" ps))).

Definition node_faults (nd : NodeInjector) : M unit :=
  _ ← each (λ n,
    _ ← try_hang nd n;
    _ ← try_terminate nd n;
    _ ← try_dirty_restart nd n;
    _ ← try_pause nd n;
    _ ← try_cpu_throttle nd n;
    _ ← try_cpu_modulate nd n;
    _ ← try_disk_slow nd n;
    _ ← try_disk_corrupt nd n;
    _ ← try_mem_pressure nd n;
    _ ← try_script nd n;
    try_disk_flakey nd n) (NodeNames (rcTestConfig c));
  _ ← try_disk_full nd;
  try_clock_jitter nd.
End step.

(** ** Replay *)

(** [e.Params[key]], and the type assertions with their zero values. *)
Definition param (ps : params) (key : string) : any :=
  match find (λ p, bool_decide (p.1 = key)) ps with Some (_, v) => v | None => AnyNil end.

Definition as_int64 (v : any) : Z := match v with AnyInt64 i => i | _ => 0 end.
Definition as_int (v : any) : Z := match v with AnyInt i => i | _ => 0 end.
Definition as_string (v : any) : string := match v with AnyString s => s | _ => "" end.
Definition as_groups (v : any) : list (list string) := match v with AnyStringLists l => l | _ => [] end.

(** The strings of a [[]any]. *)
Definition as_args (v : any) : list string :=
  match v with
  | AnyList l => omap (λ a, match a with AnyString s => Some s | _ => None end) l
  | _ => []
  end.

(** The loops over the pairs, which return the first error. *)
Fixpoint send_pairs (pairs : list (string * string)) : M bool :=
  match pairs with
  | [] => mret false
  | (portA, portB) :: pairs =>
      err ← sendAgentPartition portA portB "both";
      if err : bool then mret true else send_pairs pairs
  end.

Definition replayAgentFault (c : RunConfig) (e : ScheduleEntry) : M bool :=
  let k := FaultKind e in
  let get := param (Params e) in
  if bool_decide (k = KindDrop) then with_port c (TargetB e) (λ port, sendAgentFault "block_port" port 0)
  else if bool_decide (k = KindDelay) then
    with_port c (TargetB e) (λ port, sendAgentFault "delay_port" port (as_int64 (get "ms"%string)))
  else if bool_decide (k = KindPartition) then
    let srcPort := as_string (get "src_port"%string) in
    let dstPort := as_string (get "dst_port"%string) in
    if bool_decide (srcPort = ""%string) || bool_decide (dstPort = ""%string) then mret false
    else sendAgentPartition srcPort dstPort (as_string (get "direction"%string))
  else if bool_decide (k = KindThrottle) then
    with_port c (TargetB e) (λ port, sendAgentThrottle port (as_int (get "rate_kbps"%string)))
  else if bool_decide (k = KindReorder) then
    with_port c (TargetB e) (λ port, sendAgentReorder port (as_int (get "correlation"%string)))
  else if bool_decide (k = KindNWayPartition) then
    send_pairs (cross_pairs (group_ports c (as_groups (get "groups"%string))))
  else if bool_decide (k = KindThreadPause) then sendAgentPauseNode (Target e) (as_int64 (get "duration_ms"%string))
  else if bool_decide (k = KindCPUThrottle) then sendAgentCPUThrottle (Target e) (as_int (get "cpu_pct"%string))
  else if bool_decide (k = KindCPUModulate) then sendAgentCPUModulate (Target e) (as_int (get "speed_pct"%string))
  else if bool_decide (k = KindDiskSlow) then sendAgentDiskSlow (Target e) (as_int64 (get "bps"%string))
  else if bool_decide (k = KindDiskFull) then sendAgentDiskFull (as_int64 (get "target_free_bytes"%string))
  else if bool_decide (k = KindDiskCorrupt) then sendAgentDiskCorrupt (Target e) (as_string (get "data_dir"%string))
  else if bool_decide (k = KindDiskFlakey) then
    sendAgentDiskFlakey (Target e) (as_int (get "interval_secs"%string)) (as_int (get "duration_secs"%string))
  else if bool_decide (k = KindMemPressure) then sendAgentMemPressure (Target e) (as_int64 (get "limit_bytes"%string))
  else if bool_decide (k = KindHang) then sendAgentHangNode (Target e) (as_int64 (get "duration_ns"%string))
  else if bool_decide (k = KindTerminate) then sendAgentTerminateNode (Target e)
  else if bool_decide (k = KindScript) then
    sendAgentScript (as_string (get "path"%string)) (as_args (get "args"%string)) (as_int (get "timeout_seconds"%string))
  else InjectFault (mkHypFault k (Params e)).

(** One entry of the replay branch. *)
Definition replay_entry (c : RunConfig) (e : ScheduleEntry) : M unit :=
  err ← (if isFC c then replayAgentFault c e else InjectFault (mkHypFault (FaultKind e) (Params e)));
  when (negb err) (countFault (FaultKind e)).

(** ** The handler *)

Definition injectFaults (log : float64 → float64) (now : Z) (step : Z) : M unit := λ o,
  let c := cfg o in
  if IsReplay (faultSchedule o) then
    let '(entries, s) := FaultsAt (faultSchedule o) step in
    each (replay_entry c) entries (o <| faultSchedule := s |>)
  else
    match faultNet o, faultNode o with
    | None, None => Some (tt, o)
    | net, nd =>
        if match faultQuietUntil o with Some until => now <? until | None => false end then Some (tt, o)
        else
          let sel := (λ a, SelectMultiple log a (faultRng o) 2) <$> adaptiveFaults o in
          let o := match sel with Some (k :: _) => o <| lastInjectedFault := k |> | _ => o end in
          match PathHash (tree o) (current (tree o)) (rcSeed c) with
          | None => None
          | Some h =>
              (_ ← (if isFC c then
                      match net with Some _ => _ ← sendAgentFault "clear" "" 0; mret tt | None => mret tt end
                    else _ ← InjectFault (mkHypFault KindClear []); mret tt);
               _ ← match net with Some net => network_faults c sel step net | None => mret tt end;
               match nd with Some nd => node_faults c sel step nd | None => mret tt end)
                (o <| currentStepPathHash := h |> <| currentStepVTimeNS := currentTimeNS o |>)
          end
    end.
End calls.

(** ** Specification

    A step decides a list of entries from the generator, then carries each one
    out.  What it decides does not depend on what the calls answer. *)

Section spec.
Context (c : RunConfig) (sel : option (list Kind)) (step : Z).

Definition decider : Type := Source → option ScheduleEntry * Source.

(** A decision about the kind [k] that gives the target, the second target and
    the parameters when it fires. *)
Definition decide_on {A} (k : Kind) (d : Source → A * Source) (fire : A → option (string * string * params)) : decider :=
  λ rng,
  if allowed sel k then
    let '(a, rng) := d rng in
    ((λ '(t, tb, ps), entry step k t tb ps) <$> fire a, rng)
  else (None, rng).

Definition src_dst (a b : string) : params := [("src", AnyString a); ("dst", AnyString b)]%string.
Definition on_node (n : string) : params := [("node", AnyString n)]%string.
Definition fires (b : bool) (t tb : string) (ps : params) : option (string * string * params) :=
  if b then Some (t, tb, ps) else None.

Definition pair_deciders (net : NetworkInjector) (a b : string) : list decider := [
  decide_on KindDrop (ShouldDrop net a b) (λ d, fires d a b (src_dst a b));
  decide_on KindDelay (Delay net a b) (λ d, fires (0 <? d) a b (src_dst a b ++ [("ms"%string, AnyInt64 (Milliseconds d))]));
  decide_on KindPartition (ShouldPartition net a b) (λ '(p, dir), fires p a b
    (src_dst a b ++ [("direction", AnyString (DirectionString dir)); ("src_port", AnyString (port_of c a));
                     ("dst_port", AnyString (port_of c b))]%string));
  decide_on KindThrottle (ShouldThrottle net a b) (λ '(t, rate), fires t a b (src_dst a b ++ [("rate_kbps"%string, AnyInt rate)]));
  decide_on KindReorder (ShouldReorder net a b) (λ '(r, corr), fires r a b (src_dst a b ++ [("correlation"%string, AnyInt corr)]))].

Fixpoint pairs_of {A} (l : list A) : list (A * A) :=
  match l with [] => [] | a :: l => map (λ b, (a, b)) l ++ pairs_of l end.

Definition network_deciders (net : NetworkInjector) : list decider :=
  decide_on KindNWayPartition (ShouldNWayPartition net (NodeNames (rcTestConfig c)))
    (λ '(f, groups), fires f "" "" [("groups"%string, AnyStringLists groups)]) ::
  flat_map (λ p, pair_deciders net p.1 p.2) (pairs_of (NodeNames (rcTestConfig c))).

(** A dirty restart is not subject to the selection. *)
Definition decide_dirty (nd : NodeInjector) (n : string) : decider := λ rng,
  let '(r, rng) := ShouldDirtyRestart nd n rng in
  (if r : bool then Some (entry step KindTerminate n "" (on_node n ++ [("dirty"%string, AnyBool true)])) else None, rng).

Definition one_node_deciders (nd : NodeInjector) (n : string) : list decider := [
  decide_on KindHang (ShouldHang nd n) (λ '(h, d), fires h n "" (on_node n ++ [("duration_ns"%string, AnyInt64 d)]));
  decide_on KindTerminate (ShouldTerminate nd n) (λ t, fires t n "" (on_node n));
  decide_dirty nd n;
  decide_on KindThreadPause (ShouldPause nd n) (λ '(p, d), fires p n "" (on_node n ++ [("duration_ms"%string, AnyInt64 (Milliseconds d))]));
  decide_on KindCPUThrottle (ShouldCPUThrottle nd n) (λ '(t, pct), fires t n "" (on_node n ++ [("cpu_pct"%string, AnyInt pct)]));
  decide_on KindCPUModulate (ShouldCPUModulate nd n) (λ '(m, pct), fires m n "" (on_node n ++ [("speed_pct"%string, AnyInt pct)]));
  decide_on KindDiskSlow (ShouldDiskSlow nd n) (λ '(s, bps), fires s n "" (on_node n ++ [("bps"%string, AnyInt64 bps)]));
  decide_on KindDiskCorrupt (ShouldDiskCorrupt nd n) (λ f, fires f n "" (on_node n ++
    [("data_dir"%string, AnyString (nf_DiskCorruptDataDir (fc_Node (c_Faults (rcTestConfig c)))))]));
  decide_on KindMemPressure (ShouldMemPressure nd n) (λ '(p, l), fires p n "" (on_node n ++ [("limit_bytes"%string, AnyInt64 l)]));
  decide_on KindScript (ShouldScript nd) (λ '(f, path, args, timeout), fires f n ""
    [("path", AnyString path); ("args", AnyStrings args); ("timeout_seconds", AnyInt timeout)]%string);
  decide_on KindDiskFlakey (ShouldDiskFlakey nd n) (λ '(f, i, d), fires f n "" (on_node n ++
    [("interval_secs", AnyInt i); ("duration_secs", AnyInt d)]%string))].

Definition node_deciders (nd : NodeInjector) : list decider :=
  flat_map (one_node_deciders nd) (NodeNames (rcTestConfig c)) ++ [
  decide_on KindDiskFull (ShouldDiskFull nd "") (λ f, fires f "" ""
    [("target_free_bytes"%string, AnyInt64 (nf_DiskFullTargetFreeBytes (fc_Node (c_Faults (rcTestConfig c)))))]);
  decide_on KindClockJitter (ClockJitter nd) (λ j, fires (negb (j =? 0)) "" "" [("jitter_ns"%string, AnyInt64 j)])].

(** The entries that a list of deciders produces, one after the other. *)
Fixpoint plan (ds : list decider) (rng : Source) : list ScheduleEntry * Source :=
  match ds with
  | [] => ([], rng)
  | d :: ds =>
      let '(e, rng) := d rng in
      let '(es, rng) := plan ds rng in
      (option_list e ++ es, rng)
  end.

(** The decisions of a whole step. *)
Definition step_deciders (net : option NetworkInjector) (nd : option NodeInjector) : list decider :=
  match net with Some net => network_deciders net | None => [] end ++
  match nd with Some nd => node_deciders nd | None => [] end.

(** ** Carrying out *)

Definition is_dirty (e : ScheduleEntry) : bool :=
  bool_decide (FaultKind e = KindTerminate) && match param (Params e) "dirty" with AnyBool b => b | _ => false end.

Definition guest_only : list Kind :=
  [KindDiskSlow; KindDiskCorrupt; KindMemPressure; KindScript; KindDiskFlakey; KindDiskFull].

Context `{Injection}.

(** The call or calls of an entry, and whether they failed: where the handler
    has no way to inject a kind, that counts as a failure. *)
Definition dispatch (e : ScheduleEntry) : M bool :=
  if is_dirty e then sendAgentDirtyRestartNode (Target e)
  else if bool_decide (FaultKind e = KindNWayPartition) then
    injected ← nway_loop c (Params e) false (cross_pairs (group_ports c (as_groups (param (Params e) "groups"))));
    mret (negb injected)
  else if isFC c then
    if bool_decide (FaultKind e = KindScript) then
      sendAgentScript (as_string (param (Params e) "path"))
        (match param (Params e) "args" with AnyStrings l => l | _ => [] end) (as_int (param (Params e) "timeout_seconds"))
    else replayAgentFault c e
  else if bool_decide (FaultKind e ∈ guest_only) then mret true
  else InjectFault (mkHypFault (FaultKind e) (Params e)).

(** Only some faults are recorded when they fail. *)
Definition recorded_anyway (e : ScheduleEntry) : bool :=
  negb (is_dirty e) && negb (bool_decide (FaultKind e = KindNWayPartition)).

Definition execute (e : ScheduleEntry) : M unit :=
  err ← dispatch e;
  _ ← when (negb err) (countFault (FaultKind e));
  when (negb err || recorded_anyway e) (recordFault e).

(** What is recorded and what is counted of entries, by whether each one was
    carried out. *)
Definition recorded (es : list ScheduleEntry) (oks : list bool) : list ScheduleEntry :=
  concat (zip_with (λ e (ok : bool), if ok || recorded_anyway e then [e] else []) es oks).

Definition counted (es : list ScheduleEntry) (oks : list bool) : list Kind :=
  concat (zip_with (λ e (ok : bool), if ok then [FaultKind e] else []) es oks).

End spec.

(** What a parameter is after it went through the schedule's file: JSON has one
    type of numbers and one of lists. *)
Definition from_json (v : any) : any :=
  match v with
  | AnyInt i | AnyInt64 i => AnyFloat (float_of_Z i)
  | AnyStrings l => AnyList (map AnyString l)
  | AnyStringLists l => AnyList (map (λ g, AnyList (map AnyString g)) l)
  | v => v
  end.

Definition json_params : params → params := map (λ p, (p.1, from_json p.2)).

Definition from_file (e : ScheduleEntry) : ScheduleEntry :=
  mkScheduleEntry (Schedule.Step e) (FaultKind e) (Target e) (TargetB e) (DurationNS e) (json_params (Params e))
    (SnapshotPathHash e) (VirtualTimeNS e).

(** What is left of a call when its entry comes from a file: no number, and a
    dirty restart is a termination. *)
Definition lose (k : call) : call :=
  match k with
  | ToAgent m => ToAgent (mkAgentFaultMsg
      (if bool_decide (pl_Kind m = "dirty_restart_node"%string) then "terminate_node" else pl_Kind m)
      (pl_Port m) 0 (pl_SrcPort m) (pl_DstPort m) (pl_Direction m) 0 (pl_NodeName m) 0 0 0 0 0 0 (pl_DataDir m)
      (pl_ScriptPath m) (pl_ScriptArgs m) 0 0 0)
  | ToHyp f => ToHyp (mkHypFault (hfKind f) (json_params (hfParams f)))
  end.

(** The calls of an entry from a file, by the calls it stands for. *)
Definition file_calls (e : ScheduleEntry) (cs : list call) : list call :=
  if bool_decide (FaultKind e = KindNWayPartition) then [] else map lose cs.

(** A step that injects: recording, with an injector, outside a quiet period. *)
Record injects (now : Z) (o : Orchestrator) : Prop := {
  inj_live : IsReplay (faultSchedule o) = false;
  inj_some : is_Some (faultNet o) ∨ is_Some (faultNode o);
  inj_quiet : match faultQuietUntil o with Some u => u ≤ now | None => True end }.

(** The kinds selected for the step. *)
Definition selected (log : float64 → float64) (o : Orchestrator) : option (list Kind) :=
  (λ a, SelectMultiple log a (faultRng o) 2) <$> adaptiveFaults o.

(** The plan of the step. *)
Definition step_plan (log : float64 → float64) (step : Z) (o : Orchestrator) : list ScheduleEntry * Source :=
  plan (step_deciders (cfg o) (selected log o) step (faultNet o) (faultNode o)) (faultRng o).

(** ** Lemmas *)

(** Two computations are equal when they agree on every state. *)
Definition meq {A} (m m' : M A) : Prop := ∀ o, m o = m' o.
Infix "≡ₘ" := meq (at level 70).

#[export] Instance meq_equiv A : Equivalence (@meq A).
Proof. split; [done|intros ?? H o; by rewrite H|intros ??? H1 H2 o; by rewrite H1, H2]. Qed.

#[export] Instance mbind_proper A B :
  Proper (pointwise_relation A (@meq B) ==> meq ==> meq) (@mbind M M_bind A B).
Proof. intros k k' Hk m m' Hm o. unfold mbind, M_bind. rewrite Hm. destruct (m' o) as [[a o']|]; [apply Hk|done]. Qed.

#[export] Instance each_proper A : Proper (pointwise_relation A meq ==> eq ==> meq) (@each A).
Proof. intros f g Hf l ? <-. induction l as [|x l IH]; intros o; [done|].
  cbn [each]. unfold mbind, M_bind. rewrite (Hf x o). destruct (g x o) as [[[] o']|]; [apply IH|done].
Qed.

Lemma mbind_assoc {A B C} (m : M A) (k : A → M B) (h : B → M C) :
  (y ← (x ← m; k x); h y) ≡ₘ (x ← m; y ← k x; h y).
Proof. intros o. unfold mbind, M_bind. by destruct (m o) as [[a o']|]. Qed.

Lemma mbind_ret_r (m : M unit) : (_ ← m; mret tt) ≡ₘ m.
Proof. intros o. unfold mbind, M_bind. by destruct (m o) as [[[] o']|]. Qed.

Lemma each_app {A} (f : A → M unit) l l' : each f (l ++ l') ≡ₘ (_ ← each f l; each f l').
Proof. induction l as [|x l IH]; [done|]. cbn [each app]. rewrite mbind_assoc. by apply mbind_proper; [intros ?; apply IH|]. Qed.

Lemma each_flat_map {A B} (f : B → M unit) (g : A → list B) l :
  each f (flat_map g l) ≡ₘ each (λ x, each f (g x)) l.
Proof. induction l as [|x l IH]; [done|]. cbn [each flat_map]. rewrite each_app. by apply mbind_proper; [intros ?; apply IH|]. Qed.

Lemma each_map {A B} (f : B → M unit) (g : A → B) l : each f (map g l) ≡ₘ each (λ x, f (g x)) l.
Proof. induction l as [|x l IH]; [done|]. cbn [each map]. by apply mbind_proper; [intros ?; apply IH|]. Qed.

Lemma each_pair_pairs {A} (f : A → A → M unit) (l : list A) : each_pair f l ≡ₘ each (λ p, f p.1 p.2) (pairs_of l).
Proof. induction l as [|x l IH]; [done|]. cbn [each_pair pairs_of]. rewrite each_app, each_map. by apply mbind_proper; [intros ?; apply IH|]. Qed.

(** *** Computations that leave the generator alone *)

Definition rng_free {A} (m : M A) : Prop := ∀ o r,
  m (o <| faultRng := r |>) = (λ '(a, o'), (a, o' <| faultRng := r |>)) <$> m o.

Lemma rng_free_ret {A} (a : A) : rng_free (mret a).
Proof. done. Qed.

Lemma rng_free_bind {A B} (m : M A) (k : A → M B) : rng_free m → (∀ a, rng_free (k a)) → rng_free (x ← m; k x).
Proof.
  intros Hm Hk o r. unfold mbind, M_bind. rewrite (Hm o r). destruct (m o) as [[a o']|]; [|done]. cbn. apply Hk.
Qed.

Lemma rng_free_when b m : rng_free m → rng_free (when b m).
Proof. by destruct b. Qed.

Lemma rng_free_if {A} (b : bool) (m m' : M A) : rng_free m → rng_free m' → rng_free (if b then m else m').
Proof. by destruct b. Qed.

Create HintDb fault_ot discriminated.
#[export] Hint Resolve rng_free_ret rng_free_bind rng_free_when rng_free_if : fault_ot.

Lemma rng_free_each {A} (f : A → M unit) l : (∀ x, rng_free (f x)) → rng_free (each f l).
Proof. intros Hf. induction l as [|x l IH]; cbn [each]; auto with fault_ot. Qed.

Section lemmas.
Context `{Injection}.

Lemma rng_free_Send m : rng_free (Send m).
Proof. intros o r. unfold Send. cbn. by destruct (listener o). Qed.

Lemma rng_free_SendIf m : rng_free (SendIf m).
Proof.
  intros o r. unfold SendIf. change (listener (o <| faultRng := r |>)) with (listener o).
  destruct (listener o); [apply rng_free_Send|done].
Qed.

Lemma rng_free_InjectFault f : rng_free (InjectFault f).
Proof. done. Qed.

Lemma rng_free_countFault k : rng_free (countFault k).
Proof. done. Qed.

Lemma rng_free_recordFault e : rng_free (recordFault e).
Proof. done. Qed.

Hint Resolve rng_free_Send rng_free_SendIf rng_free_InjectFault rng_free_countFault rng_free_recordFault : fault_ot.

Lemma rng_free_nway c ps pairs : ∀ inj, rng_free (nway_loop c ps inj pairs).
Proof.
  induction pairs as [|[a b] pairs IH]; intros inj; cbn [nway_loop]; [apply rng_free_ret|].
  apply rng_free_bind; [|intros; apply IH]. destruct (isFC c); [apply rng_free_SendIf|apply rng_free_InjectFault].
Qed.

Lemma rng_free_pairs pairs : rng_free (send_pairs pairs).
Proof.
  induction pairs as [|[a b] pairs IH]; cbn [send_pairs]; [apply rng_free_ret|].
  apply rng_free_bind; [apply rng_free_SendIf|intros [|]; [apply rng_free_ret|apply IH]].
Qed.

Lemma rng_free_port c n f : (∀ p, rng_free (f p)) → rng_free (with_port c n f).
Proof. intros Hf. unfold with_port. case_bool_decide; [apply rng_free_ret|apply Hf]. Qed.

Hint Resolve rng_free_nway rng_free_pairs rng_free_port : fault_ot.

Lemma rng_free_replay c e : rng_free (replayAgentFault c e).
Proof.
  unfold replayAgentFault, sendAgentFault, sendAgentPartition, sendAgentThrottle, sendAgentReorder, sendAgentCPUThrottle,
    sendAgentCPUModulate, sendAgentDiskSlow, sendAgentDiskFull, sendAgentMemPressure, sendAgentDiskFlakey,
    sendAgentDiskCorrupt, sendAgentScript, sendAgentHangNode, sendAgentTerminateNode, sendAgentPauseNode.
  cbv zeta. repeat (apply rng_free_if; [auto with fault_ot|]). auto with fault_ot.
Qed.

Lemma rng_free_execute c e : rng_free (execute c e).
Proof.
  unfold execute, dispatch, sendAgentDirtyRestartNode, sendAgentScript. pose proof (rng_free_replay c e).
  auto 10 with fault_ot.
Qed.

(** *** Each block of the handler is a decision, carried out *)

Definition run_decider (c : RunConfig) (d : decider) : M unit := λ o,
  let '(e, rng) := d (faultRng o) in
  each (execute c) (option_list e) (o <| faultRng := rng |>).

Lemma execute_always c e m :
  recorded_anyway e = true → dispatch c e ≡ₘ m → execute c e ≡ₘ (err ← m; count_and_record err e).
Proof.
  intros Hr Hd o. unfold execute. unfold mbind, M_bind. rewrite (Hd o). destruct (m o) as [[[] o']|]; [|done|done];
    cbn [negb orb]; rewrite ?Hr; done.
Qed.

Lemma execute_agent_only c e m :
  recorded_anyway e = true → dispatch c e ≡ₘ (if isFC c then m else mret true) → execute c e ≡ₘ agent_only c m e.
Proof.
  intros Hr Hd o. unfold execute, agent_only. unfold mbind, M_bind. rewrite (Hd o).
  destruct (isFC c); cbn [when]; [|by rewrite Hr]. destruct (m o) as [[[] o']|]; [|done|done]; cbn [negb orb when]; by rewrite ?Hr.
Qed.

Lemma execute_if c e m :
  recorded_anyway e = false → dispatch c e ≡ₘ m →
  execute c e ≡ₘ (err ← m; when (negb err) (_ ← countFault (FaultKind e); recordFault e)).
Proof.
  intros Hr Hd o. unfold execute. unfold mbind, M_bind. rewrite (Hd o). destruct (m o) as [[[] o']|]; [|done|done];
    cbn [negb orb when]; rewrite ?Hr; done.
Qed.

(** A block of the shape: draw, and when the fault fires carry out its entry. *)
Lemma block_decides {A} c sel step k (d : Source → A * Source) fire (body : A → M unit) :
  (∀ a, match fire a with
        | Some (t, tb, ps) => body a ≡ₘ execute c (entry step k t tb ps)
        | None => body a ≡ₘ mret tt
        end) →
  when (allowed sel k) (a ← draw d; body a) ≡ₘ run_decider c (decide_on sel step k d fire).
Proof.
  intros Hb o. unfold run_decider, decide_on, when. destruct (allowed sel k); [|by destruct o].
  unfold mbind, M_bind, draw. destruct (d (faultRng o)) as [a rng]. specialize (Hb a).
  destruct (fire a) as [[[t tb] ps]|]; cbn; rewrite Hb; [|done]. symmetry. apply mbind_ret_r.
Qed.

Ltac block :=
  apply block_decides;
  let a := fresh "a" in intros a; repeat (let b := fresh "b" in destruct a as [a b]);
  unfold fires;
  match goal with |- match (if ?b then _ else _) with _ => _ end => destruct b; [|done] end; cbn [when].

Lemma if_neither {A} (x y : bool) (m m' : A) : (if negb x && negb y then m else m') = if x || y then m' else m.
Proof. by destruct x, y. Qed.

(** The entry's dispatch is the block's, whatever the backend. *)
Ltac same_dispatch :=
  let o := fresh "o" in intros o; unfold dispatch; destruct (isFC _); first [reflexivity|rewrite if_neither; reflexivity].

Ltac always := block; symmetry; apply execute_always; [reflexivity|same_dispatch].
Ltac by_agent := block; symmetry; apply execute_agent_only; [reflexivity|same_dispatch].

Lemma try_drop_decides c sel step net a b :
  try_drop c sel step net a b ≡ₘ run_decider c (decide_on sel step KindDrop (ShouldDrop net a b) (λ d, fires d a b (src_dst a b))).
Proof. always. Qed.

Lemma pair_decides c sel step net a b :
  (_ ← try_drop c sel step net a b; _ ← try_delay c sel step net a b; _ ← try_partition c sel step net a b;
   _ ← try_throttle c sel step net a b; try_reorder c sel step net a b)
  ≡ₘ each (run_decider c) (pair_deciders c sel step net a b).
Proof.
  unfold pair_deciders. cbn [each].
  do 4 (apply mbind_proper; [intros ?|always]). rewrite mbind_ret_r. always.
Qed.

Lemma try_nway_decides c sel step net :
  try_nway c sel step net ≡ₘ run_decider c (decide_on sel step KindNWayPartition
    (ShouldNWayPartition net (NodeNames (rcTestConfig c))) (λ '(f, groups), fires f "" "" [("groups"%string, AnyStringLists groups)])).
Proof.
  block. intros o. rewrite (execute_if c _ (inj ← nway_loop c [("groups"%string, AnyStringLists b)] false
    (cross_pairs (group_ports c b)); mret (negb inj))); [|reflexivity|reflexivity].
  unfold mbind, M_bind. by destruct (nway_loop _ _ _ _ o) as [[[] o']|].
Qed.

Lemma network_decides c sel step net :
  network_faults c sel step net ≡ₘ each (run_decider c) (network_deciders c sel step net).
Proof.
  unfold network_faults, network_deciders. cbn [each]. apply mbind_proper; [intros _|apply try_nway_decides].
  rewrite each_pair_pairs, each_flat_map. apply each_proper; [|done]. intros [a b]. apply pair_decides.
Qed.

Lemma try_dirty_decides c step nd n :
  try_dirty_restart step nd n ≡ₘ run_decider c (decide_dirty step nd n).
Proof.
  intros o. unfold run_decider, try_dirty_restart, decide_dirty, mbind at 1, M_bind at 1, draw.
  destruct (ShouldDirtyRestart nd n (faultRng o)) as [[] rng]; [|done]. cbn [when].
  match goal with |- context [option_list (Some ?e)] => change (option_list (Some e)) with [e] end.
  cbn [each]. rewrite mbind_ret_r. by rewrite (execute_if c _ (sendAgentDirtyRestartNode n)).
Qed.

Lemma one_node_decides c sel step nd n :
  (_ ← try_hang c sel step nd n; _ ← try_terminate c sel step nd n; _ ← try_dirty_restart step nd n;
   _ ← try_pause c sel step nd n; _ ← try_cpu_throttle c sel step nd n; _ ← try_cpu_modulate c sel step nd n;
   _ ← try_disk_slow c sel step nd n; _ ← try_disk_corrupt c sel step nd n; _ ← try_mem_pressure c sel step nd n;
   _ ← try_script c sel step nd n; try_disk_flakey c sel step nd n)
  ≡ₘ each (run_decider c) (one_node_deciders c sel step nd n).
Proof.
  unfold one_node_deciders. cbn [each].
  do 10 (apply mbind_proper; [intros ?|apply try_dirty_decides || always || by_agent]).
  rewrite mbind_ret_r. by_agent.
Qed.

Lemma node_decides c sel step nd :
  node_faults c sel step nd ≡ₘ each (run_decider c) (node_deciders c sel step nd).
Proof.
  unfold node_faults, node_deciders. rewrite each_app. apply mbind_proper.
  - intros _. cbn [each]. apply mbind_proper; [intros _; rewrite mbind_ret_r|by_agent]. always.
  - rewrite each_flat_map. apply each_proper; [|done]. intros n. apply one_node_decides.
Qed.

(** Deciding and carrying out in turn is deciding everything first. *)
Lemma decides_plan c ds o :
  each (run_decider c) ds o =
  let '(es, rng) := plan ds (faultRng o) in each (execute c) es (o <| faultRng := rng |>).
Proof.
  revert o. induction ds as [|d ds IH]; intros o; [by destruct o|]. cbn [each plan].
  unfold mbind, M_bind. unfold run_decider at 1. destruct (d (faultRng o)) as [e rng].
  assert (rng_free (each (execute c) (option_list e))) as Hfree by (apply rng_free_each, rng_free_execute).
  destruct (plan ds rng) as [es rng'] eqn:Hp. rewrite each_app. unfold mbind, M_bind.
  rewrite (Hfree o rng). pose proof (Hfree o rng') as Hr.
  change (o <| faultRng := rng |> <| faultRng := rng' |>) with (o <| faultRng := rng' |>). rewrite Hr.
  destruct (each (execute c) (option_list e) o) as [[[] o']|]; [|done]. cbn [fmap option_fmap option_map].
  rewrite IH. change (faultRng (o' <| faultRng := rng |>)) with rng. by rewrite Hp.
Qed.

(** *** What carrying out entries does *)

(** The step's state [o'] after [kept] were recorded and [ks] counted in [o]. *)
Record outcome (o : Orchestrator) (kept : list ScheduleEntry) (ks : list Kind) (o' : Orchestrator) : Prop := {
  out_entries : Entries (faultSchedule o') = Entries (faultSchedule o) ++ map (stamp o) kept;
  out_count : wrap 32 (currentFaultCount o') = wrap 32 (currentFaultCount o + Z.of_nat (length ks));
  out_mask : currentFaultKindMask o' = foldl (λ m k, Z.lor m (KindToMask k)) (currentFaultKindMask o) ks;
  out_listener : listener o' = listener o;
  out_replay : replay (faultSchedule o') = replay (faultSchedule o);
  out_rng : faultRng o' = faultRng o;
  out_stamp e : stamp o' e = stamp o e }.

Lemma outcome_refl o : outcome o [] [] o.
Proof. split; try done; cbn; by rewrite ?app_nil_r, ?Z.add_0_r. Qed.

Lemma outcome_trans o1 kept1 ks1 o2 kept2 ks2 o3 :
  outcome o1 kept1 ks1 o2 → outcome o2 kept2 ks2 o3 → outcome o1 (kept1 ++ kept2) (ks1 ++ ks2) o3.
Proof.
  intros [H1 H2 H3 H4 H5 H6 H7] [G1 G2 G3 G4 G5 G6 G7]. split; try congruence.
  - rewrite G1, H1, map_app, app_assoc. f_equal. apply map_ext. done.
  - rewrite G2, length_app, Nat2Z.inj_add, Z.add_assoc. by rewrite <- wrap_add_l, H2, wrap_add_l.
  - by rewrite G3, H3, foldl_app.
Qed.

Lemma outcome_calls o cs : outcome o [] [] (o <| calls := cs |>).
Proof. split; try done; cbn; by rewrite ?app_nil_r, ?Z.add_0_r. Qed.

Lemma outcome_count o k : ∃ o', countFault k o = Some (tt, o') ∧ outcome o [] [k] o'.
Proof.
  eexists. split; [done|]. split; try done; cbn [currentFaultCount currentFaultKindMask faultSchedule setter map foldl]; [by rewrite app_nil_r|].
  by rewrite wrap_wrap by lia.
Qed.

Lemma outcome_record o e : IsReplay (faultSchedule o) = false → ∃ o', recordFault e o = Some (tt, o') ∧ outcome o [e] [] o'.
Proof.
  intros Hr. eexists. split; [done|]. unfold Record_. cbn. unfold IsReplay in Hr. rewrite Hr. split; try done. cbn. by rewrite Z.add_0_r.
Qed.

(** A computation that only makes calls. *)
Definition calling {A} (m : M A) : Prop := ∀ o, listener o = true →
  ∃ a cs, m o = Some (a, o <| calls := calls o ++ cs |>).

Lemma calling_ret {A} (a : A) : calling (mret a).
Proof. intros o _. exists a, []. rewrite app_nil_r. by destruct o. Qed.

Lemma calling_bind {A B} (m : M A) (k : A → M B) : calling m → (∀ a, calling (k a)) → calling (x ← m; k x).
Proof.
  intros Hm Hk o Ho. destruct (Hm o Ho) as (a & cs & E). unfold mbind, M_bind. rewrite E.
  destruct (Hk a (o <| calls := calls o ++ cs |>)) as (b & cs' & E'); [done|]. exists b, (cs ++ cs').
  rewrite E'. cbn. by rewrite app_assoc.
Qed.

Lemma calling_if {A} (b : bool) (m m' : M A) : calling m → calling m' → calling (if b then m else m').
Proof. by destruct b. Qed.

Lemma calling_Send m : calling (Send m).
Proof. intros o Ho. unfold Send. rewrite Ho. eauto. Qed.

Lemma calling_SendIf m : calling (SendIf m).
Proof. intros o Ho. unfold SendIf. rewrite Ho. by apply calling_Send. Qed.

Lemma calling_InjectFault f : calling (InjectFault f).
Proof. intros o _. unfold InjectFault. eauto. Qed.

Hint Resolve calling_ret calling_bind calling_if calling_Send calling_SendIf calling_InjectFault : fault_ot.

Lemma calling_nway c ps pairs : ∀ inj, calling (nway_loop c ps inj pairs).
Proof.
  induction pairs as [|[a b] pairs IH]; intros inj; cbn [nway_loop]; [apply calling_ret|].
  apply calling_bind; [|intros; apply IH]. unfold sendAgentPartition. auto with fault_ot.
Qed.

Lemma calling_pairs pairs : calling (send_pairs pairs).
Proof.
  induction pairs as [|[a b] pairs IH]; cbn [send_pairs]; [apply calling_ret|].
  apply calling_bind; [apply calling_SendIf|auto with fault_ot].
Qed.

Lemma calling_port c n f : (∀ p, calling (f p)) → calling (with_port c n f).
Proof. intros Hf. unfold with_port. apply calling_if; [apply calling_ret|apply Hf]. Qed.

Hint Resolve calling_nway calling_pairs calling_port : fault_ot.

Lemma calling_replay c e : calling (replayAgentFault c e).
Proof.
  unfold replayAgentFault, sendAgentFault, sendAgentPartition, sendAgentThrottle, sendAgentReorder, sendAgentCPUThrottle,
    sendAgentCPUModulate, sendAgentDiskSlow, sendAgentDiskFull, sendAgentMemPressure, sendAgentDiskFlakey,
    sendAgentDiskCorrupt, sendAgentScript, sendAgentHangNode, sendAgentTerminateNode, sendAgentPauseNode.
  cbv zeta. repeat (apply calling_if; [auto with fault_ot|]). auto with fault_ot.
Qed.

Lemma calling_dispatch c e : calling (dispatch c e).
Proof.
  unfold dispatch, sendAgentDirtyRestartNode, sendAgentScript. pose proof (calling_replay c e). auto 10 with fault_ot.
Qed.

(** An entry is carried out whatever its calls answer. *)
Lemma execute_outcome c e o :
  listener o = true → IsReplay (faultSchedule o) = false →
  ∃ (ok : bool) o', execute c e o = Some (tt, o') ∧ (∃ o1, dispatch c e o = Some (negb ok, o1) ∧ calls o' = calls o1) ∧
    outcome o (if ok || recorded_anyway e then [e] else []) (if ok then [FaultKind e] else []) o'.
Proof.
  intros Hl Hr. destruct (calling_dispatch c e o Hl) as (err & cs & E). exists (negb err). unfold execute, mbind, M_bind. rewrite E.
  pose proof (outcome_calls o (calls o ++ cs)) as H0. set (o1 := o <| calls := calls o ++ cs |>) in *.
  assert (IsReplay (faultSchedule o1) = false) as Hr1 by done. destruct err; cbn [negb orb when].
  - destruct (recorded_anyway e); [|exists o1; split; [done|split; [eauto|done]]].
    destruct (outcome_record o1 e Hr1) as (o' & E' & H1). exists o'. split; [exact E'|]. split.
    + exists o1. split; [done|]. by injection E' as <-.
    + apply (outcome_trans _ _ _ _ _ _ _ H0 H1).
  - destruct (outcome_count o1 (FaultKind e)) as (o2 & E2 & H2). rewrite E2.
    destruct (outcome_record o2 e) as (o3 & E3 & H3); [by unfold IsReplay in *; rewrite (out_replay _ _ _ _ H2)|].
    exists o3. split; [exact E3|]. split.
    + exists o1. split; [done|]. injection E3 as <-. by injection E2 as <-.
    + apply (outcome_trans _ _ _ _ _ _ _ H0). apply (outcome_trans _ _ _ _ _ _ _ H2 H3).
Qed.

Lemma each_execute c es : ∀ o,
  listener o = true → IsReplay (faultSchedule o) = false →
  ∃ oks o', each (execute c) es o = Some (tt, o') ∧ length oks = length es ∧ outcome o (recorded es oks) (counted es oks) o'.
Proof.
  induction es as [|e es IH]; intros o Hl Hr.
  { exists [], o. split_and!; [done|done|apply outcome_refl]. }
  destruct (execute_outcome c e o Hl Hr) as (ok & o1 & E1 & _ & H1).
  destruct (IH o1) as (oks & o2 & E2 & Hlen & H2).
  { by rewrite (out_listener _ _ _ _ H1). }
  { unfold IsReplay in *. by rewrite (out_replay _ _ _ _ H1). }
  exists (ok :: oks), o2. split_and!; [|cbn; by rewrite Hlen|].
  - cbn [each]. unfold mbind, M_bind. by rewrite E1.
  - apply (outcome_trans _ _ _ _ _ _ _ H1 H2).
Qed.

(** The state in which the calls of a step start. *)
Definition begun (log : float64 → float64) (h : Z) (o : Orchestrator) : Orchestrator :=
  match selected log o with Some (k :: _) => o <| lastInjectedFault := k |> | _ => o end
  <| currentStepPathHash := h |> <| currentStepVTimeNS := currentTimeNS o |>.

(** The clearing that starts a step. *)
Definition clear_step (o : Orchestrator) : M unit :=
  if isFC (cfg o) then match faultNet o with Some _ => _ ← sendAgentFault "clear" "" 0; mret tt | None => mret tt end
  else _ ← InjectFault (mkHypFault KindClear []); mret tt.

(** The handler is: clear, decide, carry out. *)
Lemma injectFaults_plan log now step o h :
  injects now o → PathHash (tree o) (current (tree o)) (rcSeed (cfg o)) = Some h →
  injectFaults log now step o =
  (_ ← clear_step o; (λ o1, each (execute (cfg o)) (step_plan log step o).1 (o1 <| faultRng := (step_plan log step o).2 |>)) : M unit)
    (begun log h o).
Proof.
  intros [Hr Hs Hq] Hh. unfold injectFaults. rewrite Hr.
  assert ((match faultQuietUntil o with Some until => now <? until | None => false end) = false) as ->.
  { destruct (faultQuietUntil o); [by apply Z.ltb_ge|done]. }
  set (o0 := match selected log o with Some (k :: _) => o <| lastInjectedFault := k |> | _ => o end).
  assert (tree o0 = tree o ∧ faultRng o0 = faultRng o ∧ begun log h o = o0 <| currentStepPathHash := h |> <| currentStepVTimeNS := currentTimeNS o |>
    ∧ currentTimeNS o0 = currentTimeNS o) as (Ht & Hrng & Hb & Htime).
  { unfold begun, o0. by destruct (selected log o) as [[|k ks]|]. }
  transitivity ((_ ← clear_step o;
    _ ← match faultNet o with Some net => network_faults (cfg o) (selected log o) step net | None => mret tt end;
    match faultNode o with Some nd => node_faults (cfg o) (selected log o) step nd | None => mret tt end : M unit) (begun log h o)).
  { rewrite Hb. unfold clear_step. destruct (faultNet o) as [net|] eqn:En, (faultNode o) as [nd|] eqn:Ed;
      [| | |by destruct Hs as [[? ?]|[? ?]]]; fold (selected log o); fold o0; rewrite Ht, Hh, Htime; done. }
  assert (faultRng (begun log h o) = faultRng o) as Hrng0 by (rewrite Hb; done). clearbody o0. clear Hb.
  unfold step_plan, step_deciders. set (net_d := match faultNet o with Some net => network_deciders _ _ _ net | None => [] end).
  set (node_d := match faultNode o with Some nd => node_deciders _ _ _ nd | None => [] end).
  transitivity ((_ ← clear_step o; each (run_decider (cfg o)) (net_d ++ node_d) : M unit) (begun log h o)).
  { apply mbind_proper; [|done]. intros []. rewrite each_app. unfold net_d, node_d. apply mbind_proper.
    - intros []. destruct (faultNode o); [apply node_decides|done].
    - destruct (faultNet o); [apply network_decides|done]. }
  unfold mbind, M_bind. destruct (clear_step o (begun log h o)) as [[[] o1]|] eqn:Ec; [|done].
  rewrite decides_plan. replace (faultRng o1) with (faultRng o); [by destruct (plan _ _)|].
  assert (rng_free (clear_step o)) as Hf.
  { unfold clear_step, sendAgentFault. repeat case_match; auto with fault_ot. }
  specialize (Hf (begun log h o) (faultRng (begun log h o))).
  replace (begun log h o <| faultRng := faultRng (begun log h o) |>) with (begun log h o) in Hf by (by destruct (begun log h o)).
  rewrite Ec in Hf. cbn in Hf. injection Hf as Hf. rewrite <- Hrng0, Hf. done.
Qed.

End lemmas.

#[export] Hint Resolve calling_ret calling_bind calling_if calling_Send calling_SendIf calling_InjectFault : fault_ot.

(** *** Calls that never fail *)

Definition never : Injection := λ _ _, false.

Section never.
#[local] Existing Instance never.

(** The computation makes the calls [cs] and returns [a], whatever the state. *)
Definition makes {A} (m : M A) (a : A) (cs : list call) : Prop := ∀ o,
  listener o = true → m o = Some (a, o <| calls := calls o ++ cs |>).

Lemma makes_ret {A} (a : A) : makes (mret a) a [].
Proof. intros o _. rewrite app_nil_r. by destruct o. Qed.

Lemma makes_bind {A B} (m : M A) (k : A → M B) a b cs cs' :
  makes m a cs → makes (k a) b cs' → makes (x ← m; k x) b (cs ++ cs').
Proof.
  intros Hm Hk o Ho. unfold mbind, M_bind. rewrite (Hm o Ho).
  rewrite (Hk (o <| calls := calls o ++ cs |>)) by done. cbn. by rewrite app_assoc.
Qed.

Lemma makes_Send m : makes (Send m) false [ToAgent m].
Proof. intros o Ho. unfold Send. by rewrite Ho. Qed.

Lemma makes_SendIf m : makes (SendIf m) false [ToAgent m].
Proof. intros o Ho. unfold SendIf. rewrite Ho. by apply makes_Send. Qed.

Lemma makes_InjectFault f : makes (InjectFault f) false [ToHyp f].
Proof. done. Qed.

(** Both loops over the pairs make the same calls. *)
Definition pair_calls (pairs : list (string * string)) : list call :=
  map (λ p, ToAgent (msg "block_one_way" <| pl_SrcPort := p.1 |> <| pl_DstPort := p.2 |> <| pl_Direction := "both"%string |>)) pairs.

Lemma makes_nway c ps pairs : isFC c = true → ∀ inj,
  makes (nway_loop c ps inj pairs) (inj || negb (bool_decide (pairs = []))) (pair_calls pairs).
Proof.
  intros Hfc. induction pairs as [|[a b] pairs IH]; intros inj; cbn [nway_loop].
  { rewrite bool_decide_eq_true_2, orb_false_r by done. apply makes_ret. }
  rewrite Hfc. rewrite (bool_decide_eq_false_2 (_ :: _ = [])) by done.
  apply (makes_bind _ _ false _ [_] (pair_calls pairs)); [apply makes_SendIf|].
  cbn [negb]. rewrite orb_true_r. apply (IH true).
Qed.

(** An entry that a step carries out, and what is left of it in a file. *)
Definition replayable (c : RunConfig) (e : ScheduleEntry) : Prop := ∃ err cs,
  makes (dispatch c e) err cs ∧ (if err then recorded_anyway e = false ∧ cs = [] else True) ∧
  makes (replayAgentFault c (from_file e)) false (file_calls e cs).

(** Most entries: the calls of both are found by computation. *)
Lemma replayable_of c e m m' cs :
  dispatch c e ≡ₘ m → replayAgentFault c (from_file e) ≡ₘ m' →
  makes m false cs → makes m' false (file_calls e cs) → replayable c e.
Proof.
  intros H1 H2 Hm Hm'. exists false, cs. split_and!; [|done|].
  - intros o Ho. rewrite (H1 o). by apply Hm.
  - intros o Ho. rewrite (H2 o). by apply Hm'.
Qed.

Lemma makes_port_none c n f : port_of c n = ""%string → makes (with_port c n f) false [].
Proof. intros E. unfold with_port. rewrite bool_decide_eq_true_2 by done. apply makes_ret. Qed.

Lemma makes_port c n f cs : port_of c n ≠ ""%string → makes (f (port_of c n)) false cs → makes (with_port c n f) false cs.
Proof. intros E. unfold with_port. by rewrite bool_decide_eq_false_2. Qed.

Lemma makes_skip (x y : bool) (m : M bool) : x || y = true → makes (if x || y then mret false else m) false [].
Proof. intros ->. apply makes_ret. Qed.

Lemma makes_go (x y : bool) (m : M bool) cs : x || y = false → makes m false cs → makes (if x || y then mret false else m) false cs.
Proof. by intros ->. Qed.

Section kinds.
Context (c : RunConfig) (sel : option (list Kind)) (step : Z) (Hfc : isFC c = true).

Ltac message := first [refine (makes_SendIf _)|refine (makes_Send _)|refine (makes_InjectFault _)].
Ltac on_fc := unfold dispatch; rewrite Hfc.
Ltac direct := eexists false, _; split_and!; [on_fc; message|exact I|message].
Ltac to_port n :=
  destruct (decide (port_of c n = ""%string)) as [Hp|Hp];
  [exists false, []; split_and!; [on_fc; refine (makes_port_none _ _ _ Hp)|exact I|refine (makes_port_none _ _ _ Hp)]
  |eexists false, _; split_and!; [on_fc; refine (makes_port _ _ _ _ Hp _); message|exact I|refine (makes_port _ _ _ _ Hp _); message]].

Definition plans (d : decider) : Prop := ∀ rng e, (d rng).1 = Some e → replayable c e ∧ Schedule.Step e = step.

Lemma decide_on_plans {A} k (d : Source → A * Source) fire :
  (∀ a, match fire a with Some (t, tb, ps) => replayable c (entry step k t tb ps) | None => True end) →
  plans (decide_on sel step k d fire).
Proof.
  intros H rng e. unfold decide_on. destruct (allowed sel k); [|done]. destruct (d rng) as [a rng']. cbn [fst].
  specialize (H a). destruct (fire a) as [[[t tb] ps]|]; [|done]. by intros [= <-].
Qed.

Ltac decided :=
  apply decide_on_plans;
  let a := fresh "a" in intros a; repeat (let b := fresh "b" in destruct a as [a b]);
  unfold fires; try (match goal with |- match (if ?b then _ else _) with _ => _ end => destruct b; [|exact I] end).

Lemma pair_plans net a b : Forall plans (pair_deciders c sel step net a b).
Proof.
  repeat apply List.Forall_cons; [| | | | |apply List.Forall_nil]; decided.
  1, 2, 4, 5: to_port b.
  destruct (bool_decide (port_of c a = ""%string) || bool_decide (port_of c b = ""%string)) eqn:Hp.
  - exists false, []. split_and!; [on_fc; refine (makes_skip _ _ _ Hp)|exact I|refine (makes_skip _ _ _ Hp)].
  - eexists false, _. split_and!; [on_fc; refine (makes_go _ _ _ _ Hp _); message|exact I|refine (makes_go _ _ _ _ Hp _); message].
Qed.

Lemma nway_plans net : plans (decide_on sel step KindNWayPartition (ShouldNWayPartition net (NodeNames (rcTestConfig c)))
  (λ '(f, groups), fires f "" "" [("groups"%string, AnyStringLists groups)])).
Proof.
  decided. set (pairs := cross_pairs (group_ports c b)).
  exists (negb (negb (bool_decide (pairs = [])))), (pair_calls pairs). split_and!.
  - change (makes (injected ← nway_loop c [("groups"%string, AnyStringLists b)] false pairs; mret (negb injected))
      (negb (negb (bool_decide (pairs = [])))) (pair_calls pairs)).
    rewrite <- (app_nil_r (pair_calls pairs)). eapply makes_bind; [by apply makes_nway|apply makes_ret].
  - destruct pairs; [by rewrite bool_decide_eq_true_2|by rewrite bool_decide_eq_false_2].
  - refine (makes_ret false).
Qed.

Lemma as_args_json l : as_args (from_json (AnyStrings l)) = l.
Proof. cbn. induction l as [|s l IH]; [done|]. cbn. by rewrite IH. Qed.

Lemma script_plans nd n : plans (decide_on sel step KindScript (ShouldScript nd) (λ '(f, path, args, timeout), fires f n ""
    [("path", AnyString path); ("args", AnyStrings args); ("timeout_seconds", AnyInt timeout)]%string)).
Proof.
  decided. eexists false, _. split_and!; [on_fc; message|exact I|].
  change (makes (sendAgentScript b1 (as_args (from_json (AnyStrings b0))) 0) false
    [ToAgent (msg "exec_script" <| pl_ScriptPath := b1 |> <| pl_ScriptArgs := b0 |>)]).
  rewrite as_args_json. message.
Qed.

Lemma one_node_plans nd n : Forall plans (one_node_deciders c sel step nd n).
Proof.
  repeat apply List.Forall_cons; [.. |apply List.Forall_nil]; try apply script_plans; try (decided; direct).
  intros rng e. unfold decide_dirty. destruct (ShouldDirtyRestart nd n rng) as [[] rng']; [|done]. intros [= <-].
  split; [|done]. eexists false, _. split_and!; [refine (makes_SendIf _)|exact I|refine (makes_SendIf _)].
Qed.

Lemma step_plans net nd : Forall plans (step_deciders c sel step net nd).
Proof.
  apply Forall_app. split.
  - destruct net as [net|]; [|constructor]. constructor; [apply nway_plans|].
    rewrite Forall_forall. intros d (p & _ & Hd)%list_elem_of_In%in_flat_map.
    pose proof (pair_plans net p.1 p.2) as H. rewrite Forall_forall in H. by apply H, list_elem_of_In.
  - destruct nd as [nd|]; [|constructor]. apply Forall_app. split.
    + rewrite Forall_forall. intros d (n & _ & Hd)%list_elem_of_In%in_flat_map.
      pose proof (one_node_plans nd n) as H. rewrite Forall_forall in H. by apply H, list_elem_of_In.
    + repeat apply List.Forall_cons; [.. |apply List.Forall_nil]; decided; direct.
Qed.

Lemma plan_replayable ds : Forall plans ds → ∀ rng, Forall (λ e, replayable c e ∧ Schedule.Step e = step) (plan ds rng).1.
Proof.
  induction 1 as [|d ds Hd _ IH]; intros rng; [constructor|]. cbn [plan]. specialize (Hd rng).
  destruct (d rng) as [e rng']. specialize (IH rng'). destruct (plan ds rng') as [es rng'']. apply Forall_app. split; [|done].
  destruct e; [|constructor]. constructor; [by apply Hd|constructor].
Qed.
End kinds.

(** A live step, entry by entry. *)
Lemma live_each c es : Forall (replayable c) es → ∀ o,
  listener o = true → IsReplay (faultSchedule o) = false →
  ∃ news css o', each (execute c) es o = Some (tt, o') ∧ news `sublist_of` es ∧ outcome o news (map FaultKind news) o' ∧
    calls o' = calls o ++ concat css ∧
    Forall2 (λ e cs, makes (replayAgentFault c (from_file e)) false (file_calls e cs)) news css.
Proof.
  induction 1 as [|e es (err & cs & Hd & Herr & Hf) _ IH]; intros o Hl Hr.
  { exists [], [], o. rewrite app_nil_r. split_and!; [done|constructor|apply outcome_refl|done|constructor]. }
  destruct (execute_outcome c e o Hl Hr) as (ok & o1 & E1 & (o0 & E0 & Hc) & H1).
  rewrite (Hd o Hl) in E0. injection E0 as Hok <-.
  destruct (IH o1) as (news & css & o2 & E2 & Hsub & H2 & Hc2 & HF).
  { by rewrite (out_listener _ _ _ _ H1). }
  { unfold IsReplay in *. by rewrite (out_replay _ _ _ _ H1). }
  pose proof (outcome_trans _ _ _ _ _ _ _ H1 H2) as H3. rewrite Hc in Hc2. cbn [calls setter] in Hc2.
  assert (each (execute c) (e :: es) o = Some (tt, o2)) as E3 by (cbn [each]; unfold mbind, M_bind; by rewrite E1).
  destruct ok; cbn [orb] in *.
  - exists (e :: news), (cs :: css), o2. split_and!; [done|by constructor|done|by rewrite Hc2, <- app_assoc|by constructor].
  - subst err. destruct Herr as [Hrec ->]. rewrite Hrec in H3. exists news, css, o2.
    split_and!; [done|by constructor|done|by rewrite Hc2, app_nil_r|done].
Qed.

(** Its replay from a file. *)
Lemma replay_each c s news css : isFC c = true →
  Forall2 (λ e cs, makes (replayAgentFault c (from_file e)) false (file_calls e cs)) news css → ∀ r, listener r = true →
  ∃ r', each (replay_entry c) (map from_file (map (stamp s) news)) r = Some (tt, r') ∧
    outcome r [] (map FaultKind news) r' ∧ calls r' = calls r ++ concat (zip_with file_calls news css).
Proof.
  intros Hfc. induction 1 as [|e cs news css Hm _ IH]; intros r Hl.
  { exists r. cbn. rewrite app_nil_r. split_and!; [done|apply outcome_refl|done]. }
  set (r1 := r <| calls := calls r ++ file_calls e cs |>).
  destruct (outcome_count r1 (FaultKind e)) as (r2 & E2 & H2).
  destruct (IH r2) as (r3 & E3 & H3 & Hc3); [by rewrite (out_listener _ _ _ _ H2)|].
  exists r3. split_and!.
  - cbn [map each]. unfold mbind at 1, M_bind at 1. unfold replay_entry at 1. rewrite Hfc. unfold mbind, M_bind.
    change (replayAgentFault c (from_file (stamp s e))) with (replayAgentFault c (from_file e)). rewrite (Hm r Hl). fold r1.
    cbn [negb when]. change (FaultKind (from_file (stamp s e))) with (FaultKind e). by rewrite E2.
  - apply (outcome_trans _ [] [] r1); [apply outcome_calls|]. apply (outcome_trans _ _ _ _ _ _ _ H2 H3).
  - rewrite Hc3. injection E2 as <-. cbn. by rewrite <- app_assoc.
Qed.

Lemma due_all step es : Forall (λ e, Schedule.Step e = step) es → due step es = (es, length es).
Proof.
  induction 1 as [|e es He _ IH]; [done|]. cbn [due]. rewrite He, Z.ltb_irrefl, Z.eqb_refl, IH. done.
Qed.
End never.

(** ** Properties *)

Section properties.
Context `{Injection}.

End properties.

(** C38: What a replay repeats of a step: the entries of a step on Firecracker whose
    calls all succeed, loaded from the schedule's file by another run and injected
    at the same step, make the same calls in the same order except that the faults
    are not cleared first, every number is zero (delays, rates, durations, sizes),
    a dirty restart is an ordinary termination, and a partition into groups is
    gone; all of them are counted as injected. *)
Theorem replay_from_file (log : float64 → float64) (now step h : Z) (o : Orchestrator)
    (Hpath : PathHash (tree o) (current (tree o)) (rcSeed (cfg o)) = Some h) (Hl : listener o = true)
    (Hfc : isFC (cfg o) = true) (Hi : injects now o) :
  ∃ o' news css, injectFaults (H := never) log now step o = Some (tt, o') ∧
    Entries (faultSchedule o') = Entries (faultSchedule o) ++ news ∧ length css = length news ∧
    calls o' = calls o ++ match faultNet o with Some _ => [ToAgent (msg "clear")] | None => [] end ++ concat css ∧
    ∀ r profile now', cfg r = cfg o → listener r = true → faultSchedule r = NewReplaySchedule (map from_file news) profile →
    ∃ r', injectFaults (H := never) log now' step r = Some (tt, r') ∧
      calls r' = calls r ++ concat (zip_with file_calls news css) ∧
      wrap 32 (currentFaultCount r') = wrap 32 (currentFaultCount r + Z.of_nat (length news)) ∧
      currentFaultKindMask r' = Z.lor (currentFaultKindMask r) (mask_of (map FaultKind news)).
Proof.
  rewrite (injectFaults_plan (H := never) log now step o h Hi Hpath).
  set (b := begun log h o). assert (listener b = true ∧ faultSchedule b = faultSchedule o ∧ calls b = calls o) as (Hb1 & Hb2 & Hb3).
  { unfold b, begun. destruct (selected log o) as [[|k ks]|]; done. }
  set (clr := match faultNet o with Some _ => [ToAgent (msg "clear")] | None => [] end).
  assert (makes (clear_step (H := never) o) tt clr) as Hc.
  { unfold clear_step, clr. rewrite Hfc. destruct (faultNet o); [|apply makes_ret]. rewrite <- (app_nil_r [_]).
    eapply makes_bind; [refine (makes_SendIf _)|apply makes_ret]. }
  unfold mbind, M_bind. rewrite (Hc b Hb1). destruct (step_plan log step o) as [es rng] eqn:Ep. cbn [fst snd].
  pose proof (plan_replayable (cfg o) step _ (step_plans (cfg o) (selected log o) step Hfc (faultNet o) (faultNode o)) (faultRng o)) as Hes.
  unfold step_plan in Ep. rewrite Ep in Hes. cbn [fst] in Hes.
  set (o1 := b <| calls := calls b ++ clr |> <| faultRng := rng |>).
  destruct (live_each (cfg o) es) with (o := o1) as (news & css & o' & E & Hsub & Ho & Hcs & HF).
  { eapply Forall_impl; [exact Hes|]. by intros e []. }
  { done. }
  { change (faultSchedule o1) with (faultSchedule b). rewrite Hb2. apply Hi. }
  exists o', (map (stamp o1) news), css. split_and!; [exact E| | | |].
  - rewrite (out_entries _ _ _ _ Ho). change (faultSchedule o1) with (faultSchedule b). by rewrite Hb2.
  - rewrite length_map. symmetry. by apply Forall2_length in HF.
  - rewrite Hcs. change (calls o1) with (calls b ++ clr). by rewrite Hb3, <- app_assoc.
  - intros r profile now' Hcfg Hrl Hrs. unfold injectFaults. rewrite Hrs. unfold FaultsAt, NewReplaySchedule, IsReplay.
    cbn [negb replay Entries cursor drop].
    assert (Forall (λ e, Schedule.Step e = step) (map from_file (map (stamp o1) news))) as Hsteps.
    { rewrite !Forall_map, Forall_forall. intros e He. rewrite Forall_forall in Hes.
      by apply (Hes e), (elem_of_submseteq _ _ _ He), sublist_submseteq. }
    rewrite drop_0, (due_all step _ Hsteps), Hcfg.
    set (r1 := r <| faultSchedule := _ |>).
    destruct (replay_each (cfg o) o1 news css Hfc HF r1 Hrl) as (r' & E' & Hr' & Hcr).
    exists r'. split_and!; [exact E'| | |].
    + rewrite Hcr. change (calls r1) with (calls r). do 2 f_equal. clear. revert css. induction news as [|e news IH]; intros [|cs css]; cbn; [done..|]. by rewrite IH.
    + rewrite (out_count _ _ _ _ Hr'), !length_map. done.
    + rewrite (out_mask _ _ _ _ Hr'), map_map. rewrite mask_fold. done.
Qed.

(** ** Witnesses and examples *)

Definition example_rc : RunConfig := mkRunConfig "firecracker" 42 example_config.

Definition example_orchestrator (net : option NetworkInjector) (nd : option NodeInjector) (s : Schedule) : Orchestrator :=
  mkOrchestrator example_rc NewTree (New 42) true None net nd s None "" (New 7) None 500 3 0 0 0 0 (Some []) [].

Lemma example_injects : injects 0 (example_orchestrator (Some demo_network) (Some demo_node) NewSchedule).
Proof. split; [done|left; eauto|exact I]. Qed.


Lemma replay_from_file_witness :
  let o := example_orchestrator (Some demo_network) (Some demo_node) NewSchedule in
  ∃ o' news css, injectFaults (H := never) (λ x, x) 0 3 o = Some (tt, o') ∧
    Entries (faultSchedule o') = Entries (faultSchedule o) ++ news ∧ length css = length news ∧
    let r := example_orchestrator None None (NewReplaySchedule (map from_file news) None) in
    ∃ r', injectFaults (H := never) (λ x, x) 0 3 r = Some (tt, r') ∧ calls r' = calls r ++ concat (zip_with file_calls news css).
Proof.
  intros o. destruct (PathHash (tree o) (current (tree o)) (rcSeed (cfg o))) as [h|] eqn:Eh; [|vm_compute in Eh; discriminate].
  destruct (replay_from_file (λ x, x) 0 3 h o Eh eq_refl eq_refl example_injects) as (o' & news & css & E & Hn & Hlen & _ & Hr).
  exists o', news, css. split; [exact E|split; [exact Hn|split; [exact Hlen|]]]. intros r.
  destruct (Hr r None 0) as (r' & E' & Hc & _); [reflexivity|reflexivity|reflexivity|].
  exists r'. split; [exact E'|exact Hc].
Defined.

(** A delay of three milliseconds is injected, recorded, and replayed as a delay
    of zero. *)
Example delay_replayed_as_zero :
  let net := NewNetwork (mkNetworkConfig fzero 3000000 3000000 fzero fzero fzero fzero 0 0 fzero 0 fzero 0) in
  match injectFaults (H := never) (λ x, x) 0 3 (example_orchestrator (Some net) None NewSchedule) with
  | Some (_, o) =>
      map (λ k, match k with ToAgent m => (pl_Kind m, pl_Port m, pl_DelayMS m) | ToHyp f => (hfKind f, "", 0) end) (calls o)
        = [("clear", "", 0); ("delay_port", "2379", 3)]%string ∧
      match injectFaults (H := never) (λ x, x) 0 3
              (example_orchestrator None None (NewReplaySchedule (map from_file (Entries (faultSchedule o))) None)) with
      | Some (_, r) =>
          map (λ k, match k with ToAgent m => (pl_Kind m, pl_Port m, pl_DelayMS m) | ToHyp f => (hfKind f, "", 0) end) (calls r)
            = [("delay_port", "2379", 0)]%string
      | None => False
      end
  | None => False
  end.
Proof. vm_compute. split; reflexivity. Qed.

(** On a backend that is not Firecracker a slow disk is recorded, and nothing
    else happens to it. *)
Example disk_slow_elsewhere :
  let nd := NewNode (mkNodeConfig fzero 0 0 fzero fzero 0 fzero 0 0 fzero 0 0 fone 1000 2000 fzero 0 fzero "" fzero 0 0
                       fzero "" [] 0 fzero fzero 0 0 fzero 0 0) in
  let o := example_orchestrator None (Some nd) NewSchedule in
  match injectFaults (H := never) (λ x, x) 0 3 (o <| cfg := mkRunConfig "qemu" 42 example_config |>) with
  | Some (_, o) => length (Entries (faultSchedule o)) = 2%nat ∧ currentFaultCount o = 0 ∧
      calls o = [ToHyp (mkHypFault KindClear [])]
  | None => False
  end.
Proof. vm_compute. split_and!; reflexivity. Qed.

Example nodePort_fault_probe :
  nodePort [mkNode "n1" "b" [] ∅ ":9001/health" ":10001/repl" None "" fzero fzero] "n1" = "10001"%string ∧
  nodePort [mkNode "n1" "b" [] ∅ "host:9001/health" "" None "" fzero fzero] "n1" = "9001"%string ∧
  nodePort [mkNode "n1" "b" [] ∅ "" "" None "" fzero fzero] "n1" = ""%string.
Proof. vm_compute. split_and!; reflexivity. Qed.
