(* ===== verification/FaultSetup.v ===== *)
(** * Setting up fault injection ([initFaults] of
    [internal/orchestrator/lifecycle.go], and the new swarm profile of each
    exploration cycle in [explore.go])

    From the test configuration to the injectors, the swarm profile and the
    adaptive selector. *)
From stdpp Require Import strings.
From S2P Require Import Prelude Strings Word Float GoLib Prng TestConfig SnapshotTree EventStore Fault Schedule Adaptive FaultInject.
Local Open Scope Z_scope.

(** The literal map; durations that do not parse are zero. *)
Definition initFaultMaxRates (f : FaultConfig) : gmap Kind float64 :=
  let net := fc_Network f in
  let nd := fc_Node f in
  list_to_map [
    (KindDrop, nw_DropRate net);
    (KindDelay, fone);
    (KindTerminate, nw_CrashRate net);
    (KindHang, nf_HangRate nd);
    (KindClockJitter, if 0 <? duration_or_zero (nf_ClockJitterMax nd) then fone else fzero);
    (KindPartition, nw_PartitionRate net);
    (KindThrottle, nw_ThrottleRate net);
    (KindReorder, nw_ReorderRate net);
    (KindThreadPause, nf_PauseRate nd);
    (KindCPUThrottle, nf_CPUThrottleRate nd);
    (KindNWayPartition, nw_NWayPartitionRate net);
    (KindDiskSlow, nf_DiskSlowRate nd);
    (KindDiskFull, nf_DiskFullRate nd);
    (KindDiskCorrupt, nf_DiskCorruptRate nd);
    (KindDiskFlakey, nf_DiskFlakeyRate nd);
    (KindMemPressure, nf_MemPressureRate nd);
    (KindScript, nf_ScriptRate nd);
    (KindCPUModulate, nf_CPUModulateRate nd)].

(** The network injector of a swarm profile. *)
Definition swarm_network (f : FaultConfig) (p : SwarmProfile) : NetworkConfig :=
  let net := fc_Network f in {|
    DropRate := Rate p KindDrop;
    DelayMin := duration_or_zero (nw_DelayMin net);
    DelayMax := duration_or_zero (nw_DelayMax net);
    CrashRate := Rate p KindTerminate;
    PartitionRate := Rate p KindPartition;
    DirectedPartitionRatio := nw_DirectedPartitionRatio net;
    ThrottleRate := Rate p KindThrottle;
    ThrottleMinKbps := nw_ThrottleMinKbps net;
    ThrottleMaxKbps := nw_ThrottleMaxKbps net;
    ReorderRate := Rate p KindReorder;
    ReorderCorrelation := nw_ReorderCorrelation net;
    NWayPartitionRate := Rate p KindNWayPartition;
    NWayPartitionMaxGroups := nw_NWayPartitionMaxGroups net |}.

(** The node injector of a swarm profile; [ThrottleCPUPercent] is left at its
    zero value by both literals. *)
Definition swarm_node (f : FaultConfig) (p : SwarmProfile) : NodeConfig :=
  let nd := fc_Node f in {|
    ThrottleCPUPercent := fzero;
    HangRate := Rate p KindHang;
    HangDurationMin := duration_or_zero (nf_HangMin nd);
    HangDurationMax := duration_or_zero (nf_HangMax nd);
    TerminateRate := Rate p KindTerminate;
    DirtyRestartRate := nf_DirtyRestartRate nd;
    ClockJitterMax := duration_or_zero (nf_ClockJitterMax nd);
    PauseRate := Rate p KindThreadPause;
    PauseDurationMin := duration_or_zero (nf_PauseMin nd);
    PauseDurationMax := duration_or_zero (nf_PauseMax nd);
    CPUThrottleRate := Rate p KindCPUThrottle;
    CPUThrottleMinPct := nf_CPUThrottleMinPct nd;
    CPUThrottleMaxPct := nf_CPUThrottleMaxPct nd;
    DiskSlowRate := Rate p KindDiskSlow;
    DiskSlowMinBps := nf_DiskSlowMinBps nd;
    DiskSlowMaxBps := nf_DiskSlowMaxBps nd;
    DiskFullRate := Rate p KindDiskFull;
    DiskFullTargetFreeBytes := nf_DiskFullTargetFreeBytes nd;
    DiskCorruptRate := Rate p KindDiskCorrupt;
    DiskCorruptDataDir := nf_DiskCorruptDataDir nd;
    DiskFlakeyRate := Rate p KindDiskFlakey;
    DiskFlakeyInterval := nf_DiskFlakeyInterval nd;
    DiskFlakeyDuration := nf_DiskFlakeyDuration nd;
    MemPressureRate := Rate p KindMemPressure;
    MemPressureMinMB := nf_MemPressureMinMB nd;
    MemPressureMaxMB := nf_MemPressureMaxMB nd;
    ScriptRate := Rate p KindScript;
    ScriptPath := nf_ScriptPath nd;
    ScriptArgs := nf_ScriptArgs nd;
    ScriptTimeoutSeconds := nf_ScriptTimeoutSeconds nd;
    CPUModulateRate := Rate p KindCPUModulate;
    CPUModulateMinPct := nf_CPUModulateMinPct nd;
    CPUModulateMaxPct := nf_CPUModulateMaxPct nd |}.

(** The injectors of a run without a swarm. *)
Definition plain_network (f : FaultConfig) : NetworkConfig :=
  let net := fc_Network f in {|
    DropRate := nw_DropRate net;
    DelayMin := duration_or_zero (nw_DelayMin net);
    DelayMax := duration_or_zero (nw_DelayMax net);
    CrashRate := nw_CrashRate net;
    PartitionRate := nw_PartitionRate net;
    DirectedPartitionRatio := nw_DirectedPartitionRatio net;
    ThrottleRate := nw_ThrottleRate net;
    ThrottleMinKbps := nw_ThrottleMinKbps net;
    ThrottleMaxKbps := nw_ThrottleMaxKbps net;
    ReorderRate := nw_ReorderRate net;
    ReorderCorrelation := nw_ReorderCorrelation net;
    NWayPartitionRate := nw_NWayPartitionRate net;
    NWayPartitionMaxGroups := nw_NWayPartitionMaxGroups net |}.

Definition plain_node (f : FaultConfig) : NodeConfig :=
  let nd := fc_Node f in {|
    ThrottleCPUPercent := fzero;
    HangRate := nf_HangRate nd;
    HangDurationMin := duration_or_zero (nf_HangMin nd);
    HangDurationMax := duration_or_zero (nf_HangMax nd);
    TerminateRate := nf_TerminateRate nd;
    DirtyRestartRate := nf_DirtyRestartRate nd;
    ClockJitterMax := duration_or_zero (nf_ClockJitterMax nd);
    PauseRate := nf_PauseRate nd;
    PauseDurationMin := duration_or_zero (nf_PauseMin nd);
    PauseDurationMax := duration_or_zero (nf_PauseMax nd);
    CPUThrottleRate := nf_CPUThrottleRate nd;
    CPUThrottleMinPct := nf_CPUThrottleMinPct nd;
    CPUThrottleMaxPct := nf_CPUThrottleMaxPct nd;
    DiskSlowRate := nf_DiskSlowRate nd;
    DiskSlowMinBps := nf_DiskSlowMinBps nd;
    DiskSlowMaxBps := nf_DiskSlowMaxBps nd;
    DiskFullRate := nf_DiskFullRate nd;
    DiskFullTargetFreeBytes := nf_DiskFullTargetFreeBytes nd;
    DiskCorruptRate := nf_DiskCorruptRate nd;
    DiskCorruptDataDir := nf_DiskCorruptDataDir nd;
    DiskFlakeyRate := nf_DiskFlakeyRate nd;
    DiskFlakeyInterval := nf_DiskFlakeyInterval nd;
    DiskFlakeyDuration := nf_DiskFlakeyDuration nd;
    MemPressureRate := nf_MemPressureRate nd;
    MemPressureMinMB := nf_MemPressureMinMB nd;
    MemPressureMaxMB := nf_MemPressureMaxMB nd;
    ScriptRate := nf_ScriptRate nd;
    ScriptPath := nf_ScriptPath nd;
    ScriptArgs := nf_ScriptArgs nd;
    ScriptTimeoutSeconds := nf_ScriptTimeoutSeconds nd;
    CPUModulateRate := nf_CPUModulateRate nd;
    CPUModulateMinPct := nf_CPUModulateMinPct nd;
    CPUModulateMaxPct := nf_CPUModulateMaxPct nd |}.

(** The rates of the active kinds: [rates[k]] for a kind that the profile has
    active is in its map. *)
Definition active_rates (p : SwarmProfile) : gmap Kind float64 :=
  set_to_map (λ k, (k, default fzero (ProfileRates p !! k))) (ActiveFaults p).

Definition install_swarm (f : FaultConfig) (p : SwarmProfile) (o : Orchestrator) : Orchestrator :=
  o <| swarmProfile := Some p |> <| faultNet := Some (NewNetwork (swarm_network f p)) |>
    <| faultNode := Some (NewNode (swarm_node f p)) |>.

Definition initFaults (o : Orchestrator) : Orchestrator :=
  let f := c_Faults (rcTestConfig (cfg o)) in
  if negb (fc_Enabled f) then o
  else
    let maxRates := initFaultMaxRates f in
    let o :=
      if fc_SwarmTesting f then install_swarm f (GenerateSwarmProfile (Fork (rng o) 0x50A2) maxRates).1 o
      else o <| faultNet := Some (NewNetwork (plain_network f)) |> <| faultNode := Some (NewNode (plain_node f)) |> in
    let o :=
      if fc_AdaptiveFaults f then
        let activeRates := match swarmProfile o with Some p => active_rates p | None => maxRates end in
        o <| adaptiveFaults := Some (NewAdaptiveFaultSelector activeRates fzero) |>
      else o in
    o <| faultRng := New (Z.lxor (rcSeed (cfg o)) 0xFA17FA17FA17FA17) |>.

(** What a new cycle does before it restarts from the root. *)
Definition regenerate_swarm (cycleCount : Z) (o : Orchestrator) : Orchestrator :=
  let f := c_Faults (rcTestConfig (cfg o)) in
  if fc_SwarmTesting f && fc_Enabled f then
    install_swarm f (GenerateSwarmProfile (Fork (rng o) (Z.lxor 0x50A2 cycleCount)) (initFaultMaxRates f)).1 o
  else o.

(** ** Lemmas *)

Lemma Rate_inactive p k : k ∉ ActiveFaults p → Rate p k = fzero.
Proof. intros Hk. unfold Rate. by rewrite bool_decide_eq_false_2. Qed.

(** A draw is at least zero, so a rate of zero never fires. *)
Lemma draw_facts rng r rng' : Source_ok rng → Float64 rng = (r, rng') →
  Source_ok rng' ∧ flt r fzero = false ∧ fge r fzero = true.
Proof.
  intros Hok E. destruct (Float64_range rng Hok) as (Hn & H0 & _ & Ha). rewrite E in *. cbn [fst snd] in *.
  split_and!; [subst; apply advance_ok| |done]. rewrite fle_flt in H0 by done. by destruct (flt r fzero).
Qed.

Lemma misses_zero roll : misses fzero roll = true.
Proof. done. Qed.

(** The kinds that fire without a rate. *)
Definition ungated : list Kind := [KindDelay; KindClockJitter].

(** The entries a decider produces are of the kinds of [act], or ungated, and
    selected; dirty restarts are neither. *)
Definition gates (act : gset Kind) (sel : option (list Kind)) (d : decider) : Prop := ∀ rng, Source_ok rng →
  Source_ok (d rng).2 ∧
  ∀ e, (d rng).1 = Some e →
    is_dirty e = true ∨ ((FaultKind e ∈ act ∨ FaultKind e ∈ ungated) ∧ allowed sel (FaultKind e) = true).

Lemma decide_on_gates {A} act sel step k (D : Source → A * Source) fire :
  (∀ rng, Source_ok rng → Source_ok (D rng).2 ∧ (is_Some (fire (D rng).1) → k ∈ act ∨ k ∈ ungated)) →
  gates act sel (decide_on sel step k D fire).
Proof.
  intros H rng Hok. unfold decide_on. destruct (allowed sel k) eqn:Ha; [|done]. destruct (H rng Hok) as [H1 H2].
  destruct (D rng) as [a rng']. cbn [fst snd] in *. split; [done|]. intros e He. right.
  destruct (fire a) as [[[t tb] ps]|]; [|done]. injection He as <-. split; [by apply H2|done].
Qed.

Ltac draws :=
  repeat match goal with
  | |- context [Float64 ?s] =>
      let r := fresh "r" in let s' := fresh "s" in let E := fresh "E" in
      destruct (Float64 s) as [r s'] eqn:E;
      match goal with Hok : Source_ok s |- _ =>
        let H1 := fresh "Hok" in let H2 := fresh "Hlt" in let H3 := fresh "Hge" in
        destruct (draw_facts _ _ _ Hok E) as (H1 & H2 & H3) end
  end.

(** A decision whose kind is active may do anything; one whose kind is not
    compares with zero. *)
Ltac gated p k :=
  apply decide_on_gates; intros rng Hok;
  destruct (decide (k ∈ ActiveFaults p)) as [Hk|Hk]; [|pose proof (Rate_inactive p k Hk) as Hz].

Lemma pair_gates c f p sel step a b :
  Forall (gates (ActiveFaults p) sel) (pair_deciders c sel step (NewNetwork (swarm_network f p)) a b).
Proof.
  unfold pair_deciders. repeat apply List.Forall_cons; [| | | | |apply List.Forall_nil].
  - gated p KindDrop; unfold ShouldDrop; cbn [isPartitioned partitions NewNetwork existsb netCfg swarm_network DropRate]; draws.
    + split; [done|by left].
    + rewrite Hz. cbn [fst snd]. rewrite Hlt. split; [done|intros [? ?]; done].
  - apply decide_on_gates. intros rng Hok. split; [|intros _; right; left]. unfold Delay. case_match; [done|]. by draws.
  - gated p KindPartition; unfold ShouldPartition; cbn [netCfg NewNetwork swarm_network PartitionRate]; draws.
    + repeat case_match; (split; [done|by left]).
    + rewrite Hz, misses_zero. split; [done|intros [? ?]; done].
  - gated p KindThrottle; unfold ShouldThrottle; cbn [netCfg NewNetwork swarm_network ThrottleRate]; draws.
    + repeat case_match; (split; [done|by left]).
    + rewrite Hz, misses_zero. split; [done|intros [? ?]; done].
  - gated p KindReorder; unfold ShouldReorder; cbn [netCfg NewNetwork swarm_network ReorderRate]; draws.
    + repeat case_match; (split; [done|by left]).
    + rewrite Hz, misses_zero. split; [done|intros [? ?]; done].
Qed.

(** The decisions with a rate and a second draw, and those that compare one draw. *)
Ltac rated p k should rate :=
  gated p k; unfold should; cbn [NewNode swarm_node rate]; draws;
  [repeat case_match; (split; [done|by left])
  |match goal with H : Rate _ _ = fzero |- _ => rewrite H end; rewrite misses_zero; split; [done|intros [? ?]; done]].

Lemma roll_below_gates act sel step k rate (fire : bool → option (string * string * params)) :
  (k ∉ act → rate = fzero) → fire false = None → gates act sel (decide_on sel step k (roll_below rate) fire).
Proof.
  intros Hz Hf. apply decide_on_gates. intros rng Hok. unfold roll_below. draws. split; [done|]. cbn [fst].
  destruct (decide (k ∈ act)) as [Hk|Hk]; [by left|]. rewrite (Hz Hk), Hlt, Hf. by intros [? ?].
Qed.

Lemma one_node_gates c f p sel step n :
  Forall (gates (ActiveFaults p) sel) (one_node_deciders c sel step (NewNode (swarm_node f p)) n).
Proof.
  unfold one_node_deciders. repeat apply List.Forall_cons; [.. |apply List.Forall_nil].
  - gated p KindHang; unfold ShouldHang; cbn [NewNode swarm_node HangRate]; destruct (Float64 rng) as [r s] eqn:E;
      destruct (draw_facts _ _ _ Hok E) as (Hs & Hlt & Hge).
    + repeat case_match; try (split; [done|by left]).
      split; [|by left]. match goal with H : Float64 s = _ |- _ => destruct (draw_facts _ _ _ Hs H) as (? & _ & _) end. done.
    + rewrite Hz, Hge. split; [done|intros [? ?]; done].
  - apply roll_below_gates; [apply Rate_inactive|done].
  - intros rng Hok. unfold decide_dirty, ShouldDirtyRestart, roll_below. draws. split; [by case_match|].
    intros e. cbn [fst]. case_match; [|done]. intros [= <-]. by left.
  - rated p KindThreadPause ShouldPause PauseRate.
  - rated p KindCPUThrottle ShouldCPUThrottle CPUThrottleRate.
  - rated p KindCPUModulate ShouldCPUModulate CPUModulateRate.
  - rated p KindDiskSlow ShouldDiskSlow DiskSlowRate.
  - apply roll_below_gates; [apply Rate_inactive|done].
  - rated p KindMemPressure ShouldMemPressure MemPressureRate.
  - gated p KindScript; unfold ShouldScript; cbn [NewNode swarm_node ScriptRate]; draws.
    + repeat case_match; (split; [done|by left]).
    + rewrite Hz, misses_zero. cbn [orb]. split; [done|intros [? ?]; done].
  - rated p KindDiskFlakey ShouldDiskFlakey DiskFlakeyRate.
Qed.

Lemma step_gates c f p sel step :
  Forall (gates (ActiveFaults p) sel)
    (step_deciders c sel step (Some (NewNetwork (swarm_network f p))) (Some (NewNode (swarm_node f p)))).
Proof.
  apply Forall_app. split; [constructor|apply Forall_app; split].
  - gated p KindNWayPartition; unfold ShouldNWayPartition; cbn [netCfg NewNetwork swarm_network NWayPartitionRate]; draws.
    + repeat case_match; (split; [done|by left]).
    + rewrite Hz, misses_zero. split; [done|intros [? ?]; done].
  - rewrite Forall_forall. intros d (x & _ & Hd)%list_elem_of_In%in_flat_map.
    pose proof (pair_gates c f p sel step x.1 x.2) as H. rewrite Forall_forall in H. by apply H, list_elem_of_In.
  - rewrite Forall_forall. intros d (n & _ & Hd)%list_elem_of_In%in_flat_map.
    pose proof (one_node_gates c f p sel step n) as H. rewrite Forall_forall in H. by apply H, list_elem_of_In.
  - repeat apply List.Forall_cons; [.. |apply List.Forall_nil].
    + apply roll_below_gates; [apply Rate_inactive|done].
    + apply decide_on_gates. intros rng Hok. split; [|intros _; right; right; left]. unfold ClockJitter. case_match; [done|]. by draws.
Qed.

Lemma plan_gates act sel ds : Forall (gates act sel) ds → ∀ rng, Source_ok rng → ∀ e, e ∈ (plan ds rng).1 →
  is_dirty e = true ∨ ((FaultKind e ∈ act ∨ FaultKind e ∈ ungated) ∧ allowed sel (FaultKind e) = true).
Proof.
  induction 1 as [|d ds Hd _ IH]; intros rng Hok e; cbn [plan]; [by intros ?%elem_of_nil|].
  destruct (Hd rng Hok) as [H1 H2]. destruct (d rng) as [oe rng1]. cbn [fst snd] in *. specialize (IH rng1 H1 e).
  destruct (plan ds rng1) as [es rng2]. cbn [fst] in *. intros [He|He]%elem_of_app; [|by apply IH].
  destruct oe as [e'|]; [|by apply elem_of_nil in He]. apply list_elem_of_singleton in He as ->. by apply H2.
Qed.

Lemma kinds_active p : ∀ k, k ∈ kinds (NewAdaptiveFaultSelector (active_rates p) fzero) → k ∈ ActiveFaults p.
Proof.
  intros k. cbn [kinds NewAdaptiveFaultSelector]. rewrite sort_by_Permutation, elem_of_elements, elem_of_dom.
  intros [x Hx]. unfold active_rates in Hx. rewrite lookup_set_to_map in Hx by (intros ???? [= ]; done).
  by destruct Hx as (y & Hy & [= <- _]).
Qed.

Lemma SelectMultiple_kinds log a rng n k : k ∈ SelectMultiple log a rng n → k ∈ kinds a.
Proof.
  unfold SelectMultiple. destruct (n <=? 0); [by intros ?%elem_of_nil|]. intros Hk.
  rewrite <- (sort_by_Permutation (by_score log a) (kinds a)). by apply elem_of_take in Hk as (i & Hi%list_elem_of_lookup_2 & _).
Qed.

(** Only the swarm's own fields change with a new cycle. *)
Lemma regenerate_swarm_facts cycles : ∀ o p,
  let f := c_Faults (rcTestConfig (cfg o)) in
  fc_SwarmTesting f = true → fc_Enabled f = true →
  swarmProfile o = Some p → faultNet o = Some (NewNetwork (swarm_network f p)) → faultNode o = Some (NewNode (swarm_node f p)) →
  let o' := foldl (λ o c, regenerate_swarm c o) o cycles in
  cfg o' = cfg o ∧ adaptiveFaults o' = adaptiveFaults o ∧
  ∃ p', swarmProfile o' = Some p' ∧ faultNet o' = Some (NewNetwork (swarm_network f p')) ∧ faultNode o' = Some (NewNode (swarm_node f p')).
Proof.
  induction cycles as [|c cycles IH]; intros o p f Hs He Hp Hn Hd; [by eauto 10|]. cbn [foldl].
  set (o1 := regenerate_swarm c o).
  assert (o1 = install_swarm f (GenerateSwarmProfile (Fork (rng o) (Z.lxor 0x50A2 c)) (initFaultMaxRates f)).1 o) as E.
  { unfold o1, regenerate_swarm. fold f. by rewrite Hs, He. }
  clearbody o1. subst o1. exact (IH (install_swarm f _ o) _ Hs He eq_refl eq_refl eq_refl).
Qed.

(** ** Properties *)

(** In a run with swarm testing every fault that a step plans is of a kind
    that the current cycle's profile has active, except delays and clock jitter,
    which have no rate, and dirty restarts; with adaptive selection it is also of
    a kind that the first profile had active, since the selector is not rebuilt
    for the profiles of later cycles, whatever its rewards were. *)
Theorem swarm_respected (log : float64 → float64) (step : Z) (o : Orchestrator) (cycles : list Z)
    (He : fc_Enabled (c_Faults (rcTestConfig (cfg o))) = true)
    (Hs : fc_SwarmTesting (c_Faults (rcTestConfig (cfg o))) = true) :
  let o1 := foldl (λ o c, regenerate_swarm c o) (initFaults o) cycles in
  ∃ p0 p, swarmProfile (initFaults o) = Some p0 ∧ swarmProfile o1 = Some p ∧
    ∀ rng' adaptive' e, Source_ok rng' → kinds <$> adaptive' = kinds <$> adaptiveFaults o1 →
    e ∈ (step_plan log step (o1 <| faultRng := rng' |> <| adaptiveFaults := adaptive' |>)).1 →
    is_dirty e = true ∨
    ((FaultKind e ∈ ActiveFaults p ∨ FaultKind e ∈ ungated) ∧
     (fc_AdaptiveFaults (c_Faults (rcTestConfig (cfg o))) = true → FaultKind e ∈ ActiveFaults p0)).
Proof.
  set (f := c_Faults (rcTestConfig (cfg o))) in *. intros o1.
  set (p0 := (GenerateSwarmProfile (Fork (rng o) 0x50A2) (initFaultMaxRates f)).1).
  assert (swarmProfile (initFaults o) = Some p0 ∧ faultNet (initFaults o) = Some (NewNetwork (swarm_network f p0)) ∧
    faultNode (initFaults o) = Some (NewNode (swarm_node f p0)) ∧ cfg (initFaults o) = cfg o ∧
    (fc_AdaptiveFaults f = true → adaptiveFaults (initFaults o) = Some (NewAdaptiveFaultSelector (active_rates p0) fzero)))
    as (Hp & Hn & Hd & Hc & Ha).
  { unfold initFaults. fold f. rewrite He, Hs. cbn [negb]. fold p0. by destruct (fc_AdaptiveFaults f). }
  destruct (regenerate_swarm_facts cycles (initFaults o) p0) as (Hc1 & Ha1 & p & Hp1 & Hn1 & Hd1); rewrite ?Hc; try done.
  fold o1 in Hc1, Ha1, Hp1, Hn1, Hd1. exists p0, p. split_and!; [done|done|].
  intros rng' adaptive' e Hok Hk. unfold step_plan.
  set (o2 := o1 <| faultRng := rng' |> <| adaptiveFaults := adaptive' |>).
  change (faultNet o2) with (faultNet o1). change (faultNode o2) with (faultNode o1). rewrite Hn1, Hd1, Hc. fold f.
  intros Hin. pose proof (plan_gates _ _ _ (step_gates (cfg o2) f p (selected log o2) step) rng' Hok e Hin) as [Hdirty|[Hact Hsel]];
    [by left|right]. split; [done|]. intros Hadp. specialize (Ha Hadp). rewrite Ha1, Ha in Hk.
  unfold selected in Hsel. change (adaptiveFaults o2) with adaptive' in Hsel.
  pose proof (kinds_active p0) as Hka. set (a0 := NewAdaptiveFaultSelector (active_rates p0) fzero) in *. clearbody a0.
  destruct adaptive' as [a|]; [|done]. apply (inj Some) in Hk. cbn [fmap option_fmap option_map allowed] in Hsel. apply bool_decide_eq_true in Hsel.
  apply SelectMultiple_kinds in Hsel. rewrite Hk in Hsel. by apply Hka.
Qed.

(** Without a swarm the crash rate of the network plays no part in a step. *)
Lemma crash_rate_unused (log : float64 → float64) (step : Z) (c : RunConfig) (sel : option (list Kind))
    (net : NetworkConfig) (x : float64) :
  let net' := mkNetworkConfig (DropRate net) (DelayMin net) (DelayMax net) x (PartitionRate net) (DirectedPartitionRatio net)
    (ThrottleRate net) (ThrottleMinKbps net) (ThrottleMaxKbps net) (ReorderRate net) (ReorderCorrelation net)
    (NWayPartitionRate net) (NWayPartitionMaxGroups net) in
  network_deciders c sel step (NewNetwork net') = network_deciders c sel step (NewNetwork net).
Proof. reflexivity. Qed.

(** With a swarm the rate of termination of the node is not used. *)
Lemma terminate_rate_unused (f : FaultConfig) (p : SwarmProfile) (x : float64) :
  swarm_node (f <| fc_Node := fc_Node f <| nf_TerminateRate := x |> |>) p = swarm_node f p ∧
  initFaultMaxRates (f <| fc_Node := fc_Node f <| nf_TerminateRate := x |> |>) = initFaultMaxRates f.
Proof. done. Qed.

(** ** Witness and example *)

Definition example_faults : FaultConfig :=
  empty_faults <| fc_Enabled := true |> <| fc_SwarmTesting := true |> <| fc_AdaptiveFaults := true |>
    <| fc_Network := fc_Network empty_faults <| nw_DelayMin := "5ms"%string |> <| nw_DelayMax := "5ms"%string |> |>.

Definition example_start (f : FaultConfig) : Orchestrator :=
  example_orchestrator None None NewSchedule
    <| cfg := mkRunConfig "firecracker" 42 (example_config <| c_Faults := f |>) |>.

Lemma example_seed_ok : Source_ok (New 9).
Proof. split; [discriminate|reflexivity]. Qed.

Lemma swarm_respected_witness :
  let o1 := foldl (λ o c, regenerate_swarm c o) (initFaults (example_start example_faults)) [1] in
  ∃ p0 p, swarmProfile (initFaults (example_start example_faults)) = Some p0 ∧ swarmProfile o1 = Some p ∧
    ∀ e, e ∈ (step_plan (λ x, x) 3 (o1 <| faultRng := New 9 |> <| adaptiveFaults := adaptiveFaults o1 |>)).1 →
    is_dirty e = true ∨ FaultKind e ∈ ActiveFaults p0.
Proof.
  destruct (swarm_respected (λ x, x) 3 (example_start example_faults) [1] eq_refl eq_refl) as (p0 & p & H1 & H2 & H3).
  exists p0, p. split; [exact H1|split; [exact H2|]]. intros e Hin.
  destruct (H3 (New 9) _ e example_seed_ok eq_refl Hin) as [H|[_ H]]; [left; exact H|right; apply H; reflexivity].
Defined.

(** A swarm without delays still delays: the profile of this generator leaves
    delays out, and the pair is delayed all the same. *)
Example delay_outside_profile :
  let o := initFaults (example_start (example_faults <| fc_AdaptiveFaults := false |>) <| rng := New 2 |>) in
  match swarmProfile o with
  | Some p => IsActive p KindDelay = false ∧ map FaultKind (step_plan (λ x, x) 3 o).1 = [KindDelay]
  | None => False
  end.
Proof. vm_compute. split; reflexivity. Qed.
