(* ===== verification/Explore.v ===== *)
(** * The exploration of the orchestrator: one step
    ([internal/orchestrator/explore.go], [comms.go], [orchestrator.go])

    A step restores a snapshot, injects faults, runs the machine for a burst,
    processes what the guest wrote and takes a snapshot of where it got.  It runs
    in a state monad over the orchestrator's fields, the machine among them;
    [None] is a Go panic or a walk that does not end.  Hypervisor, listener,
    files, context and clock are the class [Machine].  The snapshot tree is one
    object that the orchestrator and the explorer point to: [put_tree] writes
    both views of it.  The choices of a step go to the buffer of [ChoiceBuffer],
    which the tracker's sequences share.  Progress events, the live observer and log lines are left
    out. *)
From stdpp Require Import strings pretty.
From S2P Require Import Prelude Strings Word Float GoLib Json Prng TestConfig SnapshotTree Coverage InputTree ChoiceBuffer Novelty Mcts Saturation Frontier.
From S2P Require Import Explorer Output Composer EventStore Fault Schedule Adaptive FaultInject.
Local Open Scope Z_scope.

(** ** The machine *)

(** What the orchestrator asks of the hypervisor and the listener; each may
    fail. *)
Inductive action :=
| Pause | Restore (id : Z) | SetSeed (seed : Z) | RunForInstructions (n : Z) | DeleteSnapshot (id : Z)
| ResetClock (ns : Z) | SetRDTSCQuantum (n : Z) | RegisterSnapshot (id : Z)
| NotifyDisconnect | WaitConnected (seconds : Z) | SendResetCoverage | SendFlushCoverage
| SendChoiceOverrides (overrides : option (list Z)) | SendRunCommand (name path : string)
| PublishCommand (file : string) (data : bytes) | Discard | SaveRootSnapshot (dir : string) (id memMB : Z) | Sleep (ns : Z).

Class Machine (W : Type) := {
  act : action → W → bool * W;
  SnapshotPaused : W → option Z * W;
  DrainOutput : W → list OutputData * W;
  ReadOutputFile : W → option bytes * W;
  DrainCoverage : W → list (list Z) * W;
  CollectShm : W → option (option (list Z)) * W;
  IsConnected : W → bool * W;
  CheckCommandDone : W → bool * W;
  cancelled : W → bool * W;
  Now : W → Z * W }.

(** The fields of [RunConfig] that only the exploration reads. *)
Record ExploreConfig := mkExploreConfig {
  xcCorpusPath : string; StopOnFirstViolation : bool; ConcurrentCmds : Z; BranchAtStates : Z; BranchSnapshotDir : string;
  MemoryMB : Z; xcGCInterval : Z }.

Record CoveragePoint := mkCoveragePoint { cpStep : Z; cpEdges : Z; cpPercent : float64 }.

Section state.
Context (W B : Type).

(** The orchestrator: the fields of fault injection, the components it drives
    and the fields of the exploration. *)
Record Orch := mkOrch {
  fo : FaultInject.Orchestrator; exp : Explorer; comp : Composer; inputTree : Tracker B; xcfg : ExploreConfig;
  covReader : bool; deterministicMode : bool; preforkMode : bool; bootedFromSnapshot : bool;
  gvisorOutputPath : string; gvisorControlDir : string; drain : drain_state; gvisorCommandSeq : Z;
  currentBurstInsns : Z; preStepEdges : Z; preStepAssertionNovelty : Z; preStepViolationCount : Z; totalBursts : Z;
  covTimeSeries : list CoveragePoint; choiceArrays : arrays; stepChoiceEvents : Slice; rootHypID : Z; machine : W }.
End state.
Arguments mkOrch {W B}. Arguments fo {W B}. Arguments exp {W B}. Arguments comp {W B}. Arguments inputTree {W B}.
Arguments xcfg {W B}. Arguments covReader {W B}. Arguments deterministicMode {W B}. Arguments preforkMode {W B}.
Arguments bootedFromSnapshot {W B}. Arguments gvisorOutputPath {W B}. Arguments gvisorControlDir {W B}. Arguments drain {W B}.
Arguments gvisorCommandSeq {W B}. Arguments currentBurstInsns {W B}. Arguments preStepEdges {W B}.
Arguments preStepAssertionNovelty {W B}. Arguments preStepViolationCount {W B}. Arguments totalBursts {W B}.
Arguments covTimeSeries {W B}. Arguments choiceArrays {W B}. Arguments stepChoiceEvents {W B}. Arguments rootHypID {W B}. Arguments machine {W B}.

#[export] Instance Orch_eta W B : Eta (Orch W B) := mkEta _ (λ r,
  mkOrch (fo r) (exp r) (comp r) (inputTree r) (xcfg r) (covReader r) (deterministicMode r) (preforkMode r) (bootedFromSnapshot r)
    (gvisorOutputPath r) (gvisorControlDir r) (drain r) (gvisorCommandSeq r) (currentBurstInsns r) (preStepEdges r)
    (preStepAssertionNovelty r) (preStepViolationCount r) (totalBursts r) (covTimeSeries r) (choiceArrays r) (stepChoiceEvents r) (rootHypID r) (machine r)).

(** ** The monad *)

Definition X (W B A : Type) : Type := Orch W B → option (A * Orch W B).
#[export] Instance X_ret W B : MRet (X W B) := λ A a s, Some (a, s).
#[export] Instance X_bind W B : MBind (X W B) := λ A A' k m s, match m s with Some (a, s) => k a s | None => None end.

Section step.
Context {W B : Type} `{Machine W} `{Bitmap64 B} `{Injection} {growth : Growth} (log : float64 → float64).
Notation X := (X W B).
Implicit Types s : Orch W B.

Definition update (f : Orch W B → Orch W B) : X unit := λ s, Some (tt, f s).
Definition gets {A} (f : Orch W B → A) : X A := λ s, Some (f s, s).
Definition run {A} (f : Orch W B → A * Orch W B) : X A := λ s, Some (f s).
(** A Go panic, or no fuel left. *)
Definition panic {A} : X A := λ _, None.
Definition withs {A} (f : Orch W B → X A) : X A := λ s, f s s.

Fixpoint for_each {A} (f : A → X unit) (l : list A) : X unit :=
  match l with [] => mret tt | x :: l => _ ← f x; for_each f l end.

Definition when (b : bool) (m : X unit) : X unit := if b then m else mret tt.

(** A computation of fault injection. *)
Definition in_fo {A} (m : FaultInject.M A) : X A := λ s,
  match m (fo s) with Some (a, o) => Some (a, s <| fo := o |>) | None => None end.

Definition in_exp (f : Explorer → Explorer) : X unit := update (λ s, s <| exp := f (exp s) |>).

(** A method of the coverage tracker. *)
Definition on_coverage {A} (f : CoverageTracker → CoverageTracker * A) : X A := λ s,
  let '(c, a) := f (coverage (exp s)) in Some (a, s <| exp := set_coverage c (exp s) |>).

Definition on_machine {A} (f : W → A * W) : X A := λ s, let '(a, w) := f (machine s) in Some (a, s <| machine := w |>).

Definition perform (a : action) : X bool := on_machine (act a).
Definition perform_ (a : action) : X unit := _ ← perform a; mret tt.

(** A write to the shared tree. *)
Definition put_tree (t : Tree) : X unit := update (λ s, s <| fo := fo s <| tree := t |> |> <| exp := set_tree t (exp s) |>).

Definition backend s : string := rcBackend (cfg (fo s)).
Definition exploration s : Exploration := c_Exploration (rcTestConfig (cfg (fo s))).
Definition BackendGVisor : string := "gvisor".
Definition BackendPatched : string := "patched".
Definition is_backend (b : string) s : bool := bool_decide (backend s = b).

(** [o.currentTimeNS += n * 128]. *)
Definition advance_time (n : Z) : X unit :=
  update (λ s, s <| fo := fo s <| currentTimeNS := add64 (currentTimeNS (fo s)) (mul64 n 128) |> |>).

(** [o.appendEvent] of an event stamped with time, node and step. *)
Definition event (container type_ : string) (payload : params) : X unit := λ s,
  in_fo (appendEvent (mkEvent (currentTimeNS (fo s)) (current (tree (fo s))) (currentStep (fo s)) container type_ payload)) s.

(** ** Snapshots and coverage *)

(** The snapshot recorded in the tree, as a child of [parentID]; [None] when
    the tree refuses it. *)
Definition record_snapshot (parentID hypID : Z) : X (option Z) := λ s,
  let covHash := Coverage.Hash (coverage (exp s)) in
  match Create (tree (fo s)) parentID hypID (currentTimeNS (fo s)) covHash (Prng.State (rng (fo s)))
          (currentFaultCount (fo s)) (wrap 16 (currentFaultKindMask (fo s))) with
  | (Err _, _) => Some (None, s)
  | (Ok childID, t) =>
      (_ ← put_tree t;
       _ ← (λ s, in_fo (appendEvent (mkEvent (currentTimeNS (fo s)) childID (currentStep (fo s)) "" "snapshot_create"
              [("parent_id", AnyInt parentID); ("cov_hash", AnyInt covHash)]%string)) s);
       mret (M := X) (Some childID)) s
  end.

Definition takeSnapshotPaused (parentID : Z) : X (option Z) :=
  id ← on_machine SnapshotPaused;
  match id with
  | None => mret None
  | Some hypID => record_snapshot parentID hypID
  end.

Definition update_coverage (data : list Z) : X bool := on_coverage (λ c, Update c data).

Definition collectCoverage : X bool :=
  shm ← gets covReader;
  if shm : bool then
    r ← on_machine CollectShm;
    match r with Some (Some bitmap) => update_coverage bitmap | _ => mret false end
  else
    l ← gets (λ s, listener (fo s));
    if l : bool then
      data ← on_machine DrainCoverage;
      (fix go ds (found : bool) : X bool :=
         match ds with [] => mret found | d :: ds => b ← update_coverage d; go ds (b || found) end) data false
    else mret false.

(** ** Output *)

Definition drainOutput : X (list OutputData) :=
  l ← gets (λ s, listener (fo s));
  if l : bool then
    outs ← on_machine DrainOutput;
    match outs with [] => on_machine DrainOutput | _ => mret outs end
  else
    gv ← gets (is_backend BackendGVisor);
    path ← gets gvisorOutputPath;
    if (gv : bool) && negb (bool_decide (path = ""%string)) then
      data ← on_machine ReadOutputFile;
      run (λ s, let '(outs, d) := drainGVisorOutput data (drain s) in (outs, s <| drain := d |>))
    else mret [].

(** [fmt.Sprintf("%s:%s:%v", ...)]. *)
Definition novelty_key (a : parsedAssertion) : string :=
  assertType a +:+ ":" +:+ message a +:+ ":" +:+ (if condition a then "true" else "false").

Definition eval_of (s : Orch W B) (a : parsedAssertion) : AssertionEval :=
  mkEval (Explorer.States (exp s)) 0 (Current (tree (fo s))) (message a) (message a) (assertType a) (condition a).

(** The two calls that every evaluation makes. *)
Definition record_assertion (a : parsedAssertion) : X unit := λ s,
  (_ ← in_exp (λ e, RecordAssertion e (assertType a) (condition a));
   in_exp (λ e, Explorer.RecordAssertionEval e (eval_of s a))) s.

Definition sub_goal_eval (a : parsedAssertion) (goals : list (string * bool)) : SometimesAllEval :=
  mkSAEval (message a) (list_to_map (reverse goals)) (satisfiedCount a) (totalCount a).

(** The sub-goals of [sometimes_all]: recorded for the step, and in the tracker. *)
Definition record_sub_goals (a : parsedAssertion) (goals : list (string * bool)) : X bool :=
  let eval := sub_goal_eval a goals in
  _ ← in_exp (λ e, Explorer.RecordSometimesAllEval e eval);
  withs $ λ s,
    let '(boost, tracker) := Novelty.RecordSometimesAllEval (sometimesAllTracker (exp s)) eval in
    _ ← in_exp (set_sometimesAllTracker tracker);
    if fgt boost fzero
    then on_coverage (λ c, RecordAssertionNovelty c (SometimesAllCoverageKey (message a) (SubGoals eval)))
    else mret false.

Definition goals_of (a : parsedAssertion) : option (list (string * bool)) :=
  if bool_decide (assertType a = "sometimes_all"%string) then subGoals a else None.

(** One evaluation of [processOutput]: whether it was new. *)
Definition process_assertion (container : string) (a : parsedAssertion) : X bool :=
  _ ← record_assertion a;
  n1 ← on_coverage (λ c, RecordAssertionNovelty c (novelty_key a));
  n2 ← match goals_of a with Some goals => record_sub_goals a goals | None => mret false end;
  _ ← event container "sdk_assert" [("assert_type", AnyString (assertType a)); ("message", AnyString (message a)); ("condition", AnyBool (condition a))]%string;
  _ ← match goals_of a with
      | Some goals => for_each (λ g, event container "sdk_assert"
          [("assert_type", AnyString "sometimes_all_subgoal"); ("message", AnyString (message a)); ("sub_goal_name", AnyString g.1);
           ("condition", AnyBool g.2); ("satisfied_count", AnyInt (satisfiedCount a)); ("total_count", AnyInt (totalCount a))]%string)
          (map_to_list (SubGoals (sub_goal_eval a goals)))
      | None => mret tt
      end;
  mret (n1 || n2).

(** A violation with its replay context. *)
Definition with_context (s : Orch W B) (v : Violation) : Violation :=
  mkViolation (vProperty v) (vMessage v) (Current (tree (fo s))) 0 (rcSeed (cfg (fo s))) (currentStep (fo s)) (currentBurstInsns s)
    (vDetails v) (vPath v) (vFaultKindMask v) (vConcurrentCmds v).

Definition process_violation (container : string) (v : Violation) : X unit := λ s,
  let v := with_context s v in
  (_ ← in_exp (λ e, ReportViolation e v);
   event container "sdk_violation" [("property", AnyString (vProperty v)); ("message", AnyString (vMessage v)); ("seed", AnyInt (vSeed v))]%string) s.

Definition process_guidance (container : string) (g : parsedGuidance) : X bool :=
  n ← on_coverage (λ c, UpdateGuidance c (guidanceType g) (gName g) (gValue g));
  _ ← event container "sdk_guidance" [("guidance_type", AnyString (guidanceType g)); ("name", AnyString (gName g)); ("value", AnyInt64 (gValue g))]%string;
  mret n.

Definition process_choice (rc : parsedRandomChoice) : X bool :=
  n ← on_coverage (λ c, RecordRandomBranch c (chosenIndex rc) (totalChoices rc));
  _ ← update (λ s,
    let '(m, buf) := slice_append (choiceArrays s) (stepChoiceEvents s) (mkChoice (chosenIndex rc) (totalChoices rc) (valueType rc)) in
    s <| choiceArrays := m |> <| stepChoiceEvents := buf |>);
  mret n.

(** [evt.details["duration_seconds"].(float64)]. *)
Definition duration_seconds (d : details) : float64 :=
  match default [] d with ds => match get "duration_seconds" ds with Some (AnyFloat f) => f | _ => fzero end end.

Definition set_quiet (durSec : float64) : X unit :=
  if fgt durSec fzero then
    now ← on_machine Now;
    let deadline := now + trunc (fmul durSec (float_of_Z 1000000000)) in
    update (λ s,
      if match faultQuietUntil (fo s) with Some until => until <? deadline | None => true end
      then s <| fo := fo s <| faultQuietUntil := Some deadline |> |> else s)
  else mret tt.

Definition process_lifecycle (container : string) (evt : parsedLifecycle) : X unit :=
  pre ← gets preforkMode;
  _ ← (if bool_decide (eventType evt = "openthesis_prefork"%string) && negb pre then
         _ ← update (λ s, s <| preforkMode := true |>);
         cur ← gets (λ s, Current (tree (fo s)));
         _ ← takeSnapshotPaused cur; mret tt
       else mret tt);
  _ ← (if bool_decide (eventType evt = "openthesis_stop_faults"%string) then set_quiet (duration_seconds (lcDetails evt)) else mret tt);
  event container "lifecycle" [("event", AnyString (eventType evt)); ("details", match lcDetails evt with Some d => AnyMap d | None => AnyNil end)]%string.

(** A loop that or-s what its body answers. *)
Fixpoint any_of {A} (f : A → X bool) (l : list A) : X bool :=
  match l with
  | [] => mret false
  | x :: l => b ← f x; c ← any_of f l; mret (b || c)
  end.

Definition process_one (out : OutputData) : X bool :=
  let data := odData out in
  let container := odContainer out in
  let '(assertions, violations) := parseAssertionOutput data in
  n1 ← any_of (process_assertion container) assertions;
  _ ← for_each (process_violation container) violations;
  n2 ← any_of (process_guidance container) (parseGuidanceOutput data);
  n3 ← any_of process_choice (parseRandomChoiceOutput data);
  _ ← for_each (process_lifecycle container) (parseLifecycleOutput data);
  mret (n1 || negb (bool_decide (violations = [])) || n2 || n3).

Definition processOutput : X bool :=
  outputs ← drainOutput;
  any_of process_one outputs.

(** ** Commands to the guest *)

Definition str : string → bytes := String.list_ascii_of_string.

Definition run_message (name : string) : json :=
  JObj [(str "type", JStr (str "run_command"));
        (str "payload", JObj [(str "name", JStr (str name));
           (str "path", JStr (str ("/opt/openthesis/test/" +:+ name)))])].

(** [%06d] of a number that is not negative. *)
Definition pad6 (n : Z) : string :=
  let d := pretty n in String.concat "" (replicate (6 - String.length d) "0"%string) +:+ d.

(** Answers whether it failed; the directory, the write and the rename are one
    action. *)
Definition enqueueGVisorCommand (cmd : Command) : X bool :=
  withs $ λ s,
    if bool_decide (gvisorControlDir s = ""%string) then mret true
    else
      let seq := add64 (gvisorCommandSeq s) 1 in
      _ ← update (λ s, s <| gvisorCommandSeq := seq |>);
      perform (PublishCommand (pad6 seq +:+ "-" +:+ Name cmd +:+ ".json") (print (run_message (Name cmd)))).

Definition sendCommand (cmd : Command) : X unit :=
  withs $ λ s,
    if negb (listener (fo s)) then
      when (is_backend BackendGVisor s) (_ ← enqueueGVisorCommand cmd; mret tt)
    else perform_ (SendRunCommand (Name cmd) ("/opt/openthesis/test/" +:+ Name cmd)).

Definition sendFlushCoverage : X unit :=
  withs $ λ s, when (listener (fo s) && negb (covReader s)) (perform_ SendFlushCoverage).

Definition sendChoiceOverrides (snapID : Z) : X unit :=
  withs $ λ s, when (listener (fo s)) (perform_ (SendChoiceOverrides (NextOverrides (choiceArrays s) (inputTree s) (pretty snapID)))).

Definition burstInsns : Z := 50000000.
Definition safetyCap : Z := 4800000000.
Definition phaseDrainInsns : Z := 10000000.

(** What ended the bursts of a command. *)
Inductive burst_end := Cancelled | Stopped | CapReached.

(** The bursts of one command; [fuel] bounds their number, [None] is none left. *)
Fixpoint command_bursts (fuel : nat) (totalInsns : Z) : X burst_end :=
  match fuel with
  | O => panic
  | S fuel =>
      if totalInsns <? safetyCap then
        c ← on_machine cancelled;
        if c : bool then mret Cancelled
        else
          err ← perform (RunForInstructions burstInsns);
          if err : bool then mret Stopped
          else
            _ ← advance_time burstInsns;
            _ ← collectCoverage;
            _ ← processOutput;
            l ← gets (λ s, listener (fo s));
            done ← (if l : bool then on_machine CheckCommandDone else mret false);
            if done : bool then mret Stopped else command_bursts fuel (totalInsns + burstInsns)
      else mret CapReached
  end.

Definition cap_fuel : nat := 97.

Fixpoint run_commands (cmds : list Command) : X unit :=
  match cmds with
  | [] => mret tt
  | cmd :: cmds =>
      c ← on_machine cancelled;
      if c : bool then mret tt
      else
        _ ← sendCommand cmd;
        e ← command_bursts cap_fuel 0;
        match e with
        | Cancelled => mret tt
        | _ =>
            _ ← perform_ (RunForInstructions phaseDrainInsns);
            _ ← advance_time phaseDrainInsns;
            _ ← collectCoverage;
            _ ← processOutput;
            run_commands cmds
        end
  end.

Definition runPhaseCommands (kind : CommandKind) : X unit :=
  withs $ λ s,
    if negb (listener (fo s)) && negb (is_backend BackendGVisor s) then mret tt
    else run_commands (CommandsByKind (comp s) kind).

(** The bursts of [runUntilConnected]: what was executed, and whether a burst
    failed. *)
Fixpoint until_connected (fuel : nat) (maxInsns quantum executed : Z) : X (Z * bool) :=
  match fuel with
  | O => panic
  | S fuel =>
      if executed <? maxInsns then
        c ← on_machine IsConnected;
        if c : bool then mret (executed, false)
        else
          let chunk := Z.min quantum (maxInsns - executed) in
          err ← perform (RunForInstructions chunk);
          if err : bool then mret (executed, true) else until_connected fuel maxInsns quantum (executed + chunk)
      else mret (executed, false)
  end.

Definition connect_fuel (maxInsns quantum : Z) : nat := Z.to_nat (maxInsns / quantum + 2).

Definition runUntilConnected (maxInsns quantum : Z) : X (Z * bool) :=
  withs $ λ s,
    if listener (fo s) then until_connected (connect_fuel maxInsns quantum) maxInsns quantum 0
    else
      err ← perform (RunForInstructions maxInsns);
      mret (if err : bool then (0, true) else (maxInsns, false)).

(** ** Waiting for the end of a burst, in prefork mode *)

Definition poll_assertion (container : string) (a : parsedAssertion) : X unit :=
  _ ← record_assertion a;
  _ ← on_coverage (λ c, RecordAssertionNovelty c (novelty_key a));
  event container "sdk_assert" [("assert_type", AnyString (assertType a)); ("message", AnyString (message a)); ("condition", AnyBool (condition a))]%string.

(** The context is not complete here: [HypervisorID] and [BurstInsns] stay as
    the parser left them. *)
Definition poll_context s (v : Violation) : Violation :=
  mkViolation (vProperty v) (vMessage v) (Current (tree (fo s))) (vHypervisorID v) (rcSeed (cfg (fo s))) (currentStep (fo s)) (vBurstInsns v)
    (vDetails v) (vPath v) (vFaultKindMask v) (vConcurrentCmds v).

Definition poll_violation (container : string) (v : Violation) : X unit :=
  withs $ λ s,
    let v := poll_context s v in
    _ ← in_exp (λ e, ReportViolation e v);
    event container "sdk_violation" [("property", AnyString (vProperty v)); ("message", AnyString (vMessage v))]%string.

(** One output; whether it holds the end of the burst. *)
Definition poll_one (out : OutputData) : X bool :=
  let data := odData out in
  let container := odContainer out in
  let '(assertions, violations) := parseAssertionOutput data in
  _ ← for_each (poll_assertion container) assertions;
  _ ← for_each (poll_violation container) violations;
  _ ← for_each (λ g, _ ← on_coverage (λ c, UpdateGuidance c (guidanceType g) (gName g) (gValue g)); mret tt) (parseGuidanceOutput data);
  _ ← for_each (λ rc, _ ← on_coverage (λ c, RecordRandomBranch c (chosenIndex rc) (totalChoices rc)); mret tt) (parseRandomChoiceOutput data);
  mret (existsb (λ evt, bool_decide (eventType evt = "openthesis_burst_done"%string)) (parseLifecycleOutput data)).

Definition drainGVisor : X (list OutputData) :=
  path ← gets gvisorOutputPath;
  if bool_decide (path = ""%string) then mret []
  else
    data ← on_machine ReadOutputFile;
    run (λ s, let '(outs, d) := drainGVisorOutput data (drain s) in (outs, s <| drain := d |>)).

Definition pollInterval : Z := 5000000.
Definition preforkBurstTimeout : Z := 2000000000.

Fixpoint poll_loop (fuel : nat) (deadline : Z) : X bool :=
  match fuel with
  | O => panic
  | S fuel =>
      now ← on_machine Now;
      if now <? deadline then
        c ← on_machine cancelled;
        if c : bool then mret false
        else
          outputs ← drainGVisor;
          burstDone ← any_of poll_one outputs;
          if burstDone : bool then mret true
          else
            _ ← perform_ (Sleep pollInterval);
            poll_loop fuel deadline
      else mret false
  end.

Definition poll_fuel (timeout : Z) : nat := Z.to_nat (timeout / pollInterval + 2).

Definition waitForBurstDone (timeout : Z) : X bool :=
  now ← on_machine Now;
  poll_loop (poll_fuel timeout) (now + timeout).

(** ** The step *)

Definition defaultInitInsns : Z := 50000000.
Definition defaultDrainInsns : Z := 2000000.
Definition defaultWarmupInsns : Z := 50000000.
Definition defaultReconnectBurstInsns : Z := 500000.
Definition reconnectQuantumInsns : Z := 200000.
Definition reconnectQuantumInsnsSnap : Z := 5000000.

(** A configured number, or its default when it is zero. *)
Definition or_default (v d : Z) : Z := if v =? 0 then d else v.

Inductive StepError := ErrHypervisorID | ErrRestore | ErrBurst.

(** Whether the target has to be restored; leaving prefork mode if so. *)
Definition needs_restore (target : Z) : X bool :=
  withs $ λ s,
    if preforkMode s && is_backend BackendGVisor s then
      let cur := Current (tree (fo s)) in
      if (cur =? target) || IsChildOf (tree (fo s)) target cur then mret false
      else _ ← update (λ s, s <| preforkMode := false |>); mret true
    else mret true.

Definition fc_listener s : bool := is_backend BackendFirecracker s && listener (fo s).

(** The restore, and the handshake after it; whether the restore failed. *)
Definition restore (hypID : Z) : X bool :=
  withs $ λ s,
    _ ← when (fc_listener s) (perform_ NotifyDisconnect);
    err ← perform (Restore hypID);
    if err : bool then mret true
    else
      _ ← when (fc_listener s)
            (_ ← runUntilConnected (or_default (ex_WarmupInsns (exploration s)) defaultWarmupInsns) reconnectQuantumInsnsSnap;
             perform_ (WaitConnected 10));
      mret false.

(** What is set up between the restore and the burst. *)
Definition aim (target branchSeed stepCount : Z) : X unit :=
  withs $ λ s,
    let t := tree (fo s) in
    _ ← match Get t target with
        | Ok snap => update (λ s, s <| fo := fo s <| currentTimeNS := s_TimeNS snap |> |>)
        | Err _ => mret tt
        end;
    _ ← put_tree (SetCurrent t target).2;
    _ ← perform_ (SetSeed branchSeed);
    _ ← sendChoiceOverrides target;
    now ← on_machine Now;
    in_fo (injectFaults log now stepCount).

Definition opt_command (cmd : option Command) : X unit :=
  match cmd with Some cmd => sendCommand cmd | None => mret tt end.

Definition nextCommand : X (option Command) := λ s,
  match NextCommand (comp s) with
  | Some (cmd, c) => Some (cmd, s <| comp := c |>)
  | None => None
  end.

(** The additional commands of a step. *)
Fixpoint more_commands (n : nat) : X unit :=
  match n with
  | O => mret tt
  | S n => cmd ← nextCommand; _ ← opt_command cmd; more_commands n
  end.

(** The burst; whether it failed. *)
Definition burst (insns : Z) (driverCmd : option Command) : X bool :=
  withs $ λ s,
    if preforkMode s && is_backend BackendGVisor s then
      _ ← waitForBurstDone preforkBurstTimeout;
      _ ← advance_time insns;
      _ ← opt_command driverCmd;
      mret false
    else
      err ← perform (RunForInstructions insns);
      if err : bool then mret true
      else
        _ ← advance_time insns;
        _ ← opt_command driverCmd;
        _ ← more_commands (Z.to_nat (ConcurrentCmds (xcfg s) - 1));
        _ ← sendFlushCoverage;
        let drainInsns := or_default (ex_DrainInsns (exploration s)) defaultDrainInsns in
        _ ← perform_ (RunForInstructions drainInsns);
        _ ← advance_time drainInsns;
        mret false.

(** Vsock timing may drift: without a fault, novelty does not count in
    deterministic mode. *)
Definition drift_prone s : bool := deterministicMode s && (currentFaultKindMask (fo s) =? 0).

Definition total_edges s : Z := TotalEdges (coverage (exp s)).

(** What the burst brought: whether it is productive. *)
Definition observe : X bool :=
  prevEdges ← gets total_edges;
  _ ← collectCoverage;
  edges ← gets total_edges;
  foundNovelty ← processOutput;
  drift ← gets drift_prone;
  mret ((0 <? sub64 edges prevEdges) || (foundNovelty && negb drift)).

Definition record_sequence (target : Z) (productive : bool) : X bool :=
  run (λ s,
    let seq := NewSequence (choiceArrays s) (stepChoiceEvents s) in
    let '(new, t) := RecordSequence (inputTree s) seq in
    (new || productive, s <| inputTree := RecordFromSnapshot t (pretty target) seq |>)).

(** The snapshot after the burst, and its place on the frontier. *)
Definition expand (target : Z) (mayExpand productive : bool) : X bool :=
  withs $ λ s,
    match Get (tree (fo s)) target with
    | Ok parent =>
        if s_Depth parent <? MaxDepth (Explorer.cfg (exp s)) then
          child ← takeSnapshotPaused target;
          match child with
          | None => mret productive
          | Some childID =>
              if productive || mayExpand then
                productive ← record_sequence target productive;
                drift ← gets drift_prone;
                _ ← when drift (in_exp ClearStepAssertionEvals);
                _ ← in_exp (λ e, PushFrontier e childID);
                mret productive
              else mret productive
          end
        else mret productive
    | Err _ => mret productive
    end.

Definition step (target : Z) (mayExpand : bool) (burstInstructions branchSeed stepCount : Z) (driverCmd : option Command)
    : X (result StepError bool) :=
  _ ← in_exp IncrementStates;
  _ ← update (λ s, s <| stepChoiceEvents := slice_reset (stepChoiceEvents s) |>);
  hyp ← gets (λ s, HypervisorID (tree (fo s)) target);
  match hyp with
  | Err _ => mret (Err ErrHypervisorID)
  | Ok hypID =>
      need ← needs_restore target;
      err ← (if need : bool then restore hypID else mret false);
      if err : bool then mret (Err ErrRestore)
      else
        _ ← aim target branchSeed stepCount;
        err ← burst burstInstructions driverCmd;
        if err : bool then mret (Err ErrBurst)
        else
          productive ← observe;
          productive ← expand target mayExpand productive;
          mret (Ok productive)
  end.
End step.
