(* ===== verification/ExploreLoop.v ===== *)
(** * The exploration of the orchestrator: the loop and the phases
    ([explore] of [internal/orchestrator/explore.go], [pruneSnapshots] and
    [resolveGCInterval] of [orchestrator.go])

    The loop pops a frontier entry and runs as many steps from it as its energy
    says, then prunes the snapshot tree now and then; it runs until one of five
    reasons stops it.  Before it come the first phase and the root snapshot,
    after it the phases "eventually" and "finally". *)
From stdpp Require Import strings pretty.
From S2P Require Import Prelude Strings Word Float GoLib Prng TestConfig SnapshotTree Coverage InputTree ChoiceBuffer Novelty Mcts Saturation Frontier.
From S2P Require Import Explorer Output Composer EventStore Fault Schedule Adaptive FaultInject FaultSetup Explore.
Local Open Scope Z_scope.

Section loop.
Context {W B : Type} `{Machine W} `{Bitmap64 B} `{Injection} {growth : Growth} (log : float64 → float64).
Notation X := (X W B).
Implicit Types s : Orch W B.

(** ** Burst length *)

Definition burstSweep : list Z :=
  [2000000; 5000000; 10000000; 20000000; 50000000; 100000000; 200000000; 100000000; 50000000; 20000000; 10000000; 5000000].

(** A draw from the orchestrator's generator. *)
Definition drawn : X Z :=
  run (λ s, let '(v, r) := Uint64 (rng (fo s)) in (v, s <| fo := fo s <| rng := r |> |>)).

(** [lo + o.rng.Uint64() % span]; a span of zero is a panic. *)
Definition in_span (lo span : Z) : X Z :=
  v ← drawn;
  if span =? 0 then panic else mret (add64 lo (v mod span)).

Definition burst_length (stepCount : Z) : X Z :=
  withs $ λ s,
    let cfgMin := ex_BurstMinNS (exploration s) in
    if 0 <? cfgMin then
      let cfgMax := ex_BurstMaxNS (exploration s) in
      let cfgMax := if cfgMax <=? cfgMin then mul64 cfgMin 10 else cfgMax in
      in_span cfgMin (sub64 cfgMax cfgMin)
    else if stepCount mod 4 =? 3 then in_span 3000000 17000000
    else mret (nth (Z.to_nat (stepCount mod 12)) burstSweep 0).

(** ** One branch *)

(** What is noted down before a step. *)
Definition note_step (stepCount insns : Z) : X unit :=
  update (λ s, s <| fo := fo s <| currentStep := stepCount |> <| lastInjectedFault := "" |> <| currentFaultCount := 0 |>
                     <| currentFaultKindMask := 0 |> |>
                 <| currentBurstInsns := insns |> <| preStepEdges := Coverage.NewEdges (coverage (exp s)) |>
                 <| preStepAssertionNovelty := AssertionNoveltyCount (coverage (exp s)) |>
                 <| preStepViolationCount := ViolationCount (exp s) |>).

Definition step_command (stepCount : Z) : X (option Command) :=
  withs $ λ s, if (stepCount mod 8 =? 0) || (1 <? ConcurrentCmds (xcfg s)) then nextCommand else mret None.

(** The reward to the ancestors of the current snapshot; [None] when the walk
    up does not end. *)
Definition backpropagate (productiveCount : Z) : X unit := λ s,
  let reward := fadd (fmul (float_of_Z (Coverage.NewEdges (coverage (exp s)))) (float_of_Z 10)) (float_of_Z productiveCount) in
  match BackpropagateMCTS (exp s) (Current (tree (fo s))) reward with
  | Some e => Some (tt, s <| exp := e |>)
  | None => None
  end.

Definition violation_bonus s (violationDelta : Z) : float64 :=
  if (0 <? violationDelta) && (0 <? totalBursts s) then
    let baseRate := fdiv (float_of_Z (ViolationCount (exp s))) (float_of_Z (totalBursts s)) in
    let baseRate := if flt baseRate (flit 1 1000) then flit 1 1000 else baseRate in
    fdiv (fmul (float_of_Z violationDelta) (float_of_Z 200)) baseRate
  else fmul (float_of_Z violationDelta) (float_of_Z 200).

Definition fault_reward s : float64 :=
  let newEdges := sub64 (Coverage.NewEdges (coverage (exp s))) (preStepEdges s) in
  let newAssertNovelty := sub64 (AssertionNoveltyCount (coverage (exp s))) (preStepAssertionNovelty s) in
  fadd (fadd (fmul (float_of_Z newEdges) (float_of_Z 10)) (fmul (float_of_Z newAssertNovelty) (float_of_Z 50)))
    (violation_bonus s (ViolationCount (exp s) - preStepViolationCount s)).

Definition reward_fault : X unit :=
  update (λ s,
    match adaptiveFaults (fo s) with
    | Some a =>
        if bool_decide (lastInjectedFault (fo s) = ""%string) then s
        else s <| fo := fo s <| adaptiveFaults := Some (RecordReward a (lastInjectedFault (fo s)) (fault_reward s)) |> |>
               <| preStepViolationCount := ViolationCount (exp s) |>
    | None => s
    end).

(** The branch snapshot, where there is a directory and the backend has files. *)
Definition save_branch : X unit :=
  withs $ λ s,
    when (negb (bool_decide (BranchSnapshotDir (xcfg s) = ""%string)) && is_backend BackendFirecracker s)
      match HypervisorID (tree (fo s)) (Current (tree (fo s))) with
      | Ok hypID => perform_ (SaveRootSnapshot (BranchSnapshotDir (xcfg s)) hypID (or_default (MemoryMB (xcfg s)) 512))
      | Err _ => mret tt
      end.

Definition coverage_point (stepCount : Z) : X unit :=
  withs $ λ s,
    let edges := total_edges s in
    let maxSlots := MaxMapSize (coverage (exp s)) in
    let pct := if 0 <? maxSlots then fmul (fdiv (float_of_Z edges) (float_of_Z maxSlots)) (float_of_Z 100) else fzero in
    _ ← update (λ s, s <| covTimeSeries := covTimeSeries s ++ [mkCoveragePoint stepCount edges pct] |>);
    event "" "coverage_burst" [("edges", AnyInt edges); ("pct", AnyFloat pct); ("max_slots", AnyInt maxSlots)]%string.

Definition max_states s : Z := MaxStates (Explorer.cfg (exp s)).
Definition states_of s : Z := Explorer.States (exp s).
Definition violated s : bool := StopOnFirstViolation (xcfg s) && (0 <? ViolationCount (exp s)).
Definition branch_point s : bool := (0 <? BranchAtStates (xcfg s)) && (BranchAtStates (xcfg s) <=? states_of s).

(** The body of the loop over branches after its checks: how many steps were
    productive now. *)
Definition one_branch (target : Z) (lastBranch : bool) (stepCount productiveCount : Z) : X Z :=
  insns ← burst_length stepCount;
  branchSeed ← drawn;
  _ ← note_step stepCount insns;
  cmd ← step_command stepCount;
  r ← step log target lastBranch insns branchSeed stepCount cmd;
  productiveCount ← match r with
    | Ok true => _ ← backpropagate (productiveCount + 1); mret (productiveCount + 1)
    | _ => mret productiveCount
    end;
  _ ← reward_fault;
  _ ← update (λ s, s <| totalBursts := add64 (totalBursts s) 1 |>);
  mret productiveCount.

(** What the loop does after a branch that does not end it. *)
Definition periodic (stepCount : Z) : X unit :=
  _ ← when (stepCount mod 100 =? 0) (in_exp UpdateSaturation);
  when (stepCount mod 50 =? 0) (coverage_point stepCount).

(** [n] branches are left; the step count afterwards. *)
Fixpoint branches (n : nat) (target : Z) (stepCount productiveCount : Z) : X Z :=
  match n with
  | O => mret stepCount
  | S n =>
      c ← on_machine cancelled;
      full ← gets (λ s, max_states s <=? states_of s);
      if (c : bool) || (full : bool) then mret stepCount
      else
        v ← gets violated;
        if v : bool then mret stepCount
        else
          productiveCount ← one_branch target (bool_decide (n = 0%nat)) stepCount productiveCount;
          let stepCount := add64 stepCount 1 in
          b ← gets branch_point;
          if b : bool then _ ← save_branch; mret stepCount
          else
            _ ← periodic stepCount;
            branches n target stepCount productiveCount
  end.

(** ** Pruning *)

Definition resolveGCInterval (runOverride configValue : Z) (backend : string) : Z :=
  if negb (runOverride =? 0) then runOverride
  else if negb (configValue =? 0) then configValue
  else if bool_decide (backend = BackendFirecracker) then 10 else 50.

Definition max_frontier (memoryMB : Z) : Z := Z.max 5 (20 * 1024 / or_default memoryMB 512).

Definition pruneSnapshots : X unit :=
  _ ← withs (λ s, in_exp (λ e, set_frontier (Trim (frontier e) (Z.to_nat (max_frontier (MemoryMB (xcfg s))))).2 e));
  withs $ λ s,
    match IDs (frontier (exp s)) with
    | [] => mret tt
    | ids =>
        match Prune (tree (fo s)) ids with
        | None => panic
        | Some (deleted, t) =>
            _ ← put_tree t;
            for_each (λ id, perform_ (DeleteSnapshot id)) deleted
        end
    end.

(** ** The loop *)

Inductive stop_reason := ByContext | ByDuration | ByStates | ByViolation | ByStaleness.

(** The checks at the head of the loop, in their order. *)
Definition check_limits (deadline : Z) : X (option stop_reason) :=
  c ← on_machine cancelled;
  if c : bool then mret (Some ByContext)
  else
    now ← on_machine Now;
    if deadline <? now then mret (Some ByDuration)
    else
      withs $ λ s,
        if max_states s <=? states_of s then mret (Some ByStates)
        else if violated s then mret (Some ByViolation)
        else mret None.

(** An empty frontier restarts from the root, with a new swarm profile; the
    cycle count afterwards. *)
Definition restart (rootSnapID cycleCount : Z) : X Z :=
  withs $ λ s,
    if (Frontier.Len (frontier (exp s)) =? 0) && match mcts (exp s) with None => true | Some _ => false end then
      let cycleCount := add64 cycleCount 1 in
      _ ← update (λ s, s <| fo := regenerate_swarm cycleCount (fo s) |>);
      _ ← in_exp (λ e, PushFrontier e rootSnapID);
      mret cycleCount
    else mret cycleCount.

Definition popFrontier : X (option FrontierEntry) := λ s,
  match PopFrontier log (exp s) with
  | Some (en, e) => Some (en, s <| exp := e |>)
  | None => None
  end.

Definition prune_when_due (gcInterval stepCount : Z) : X unit :=
  when ((stepCount mod gcInterval =? 0) && (0 <? stepCount)) pruneSnapshots.

(** The loop: why it stopped, and the number of steps.  [fuel] bounds the
    entries popped. *)
Fixpoint explore_loop (fuel : nat) (deadline branchFactor gcInterval rootSnapID stepCount cycleCount : Z) : X (stop_reason * Z) :=
  match fuel with
  | O => panic
  | S fuel =>
      stop ← check_limits deadline;
      match stop with
      | Some r => mret (r, stepCount)
      | None =>
          cycleCount ← restart rootSnapID cycleCount;
          en ← popFrontier;
          match en with
          | None => mret (ByStaleness, stepCount)
          | Some en =>
              let energy := if Energy en <=? 0 then branchFactor else Energy en in
              stepCount ← branches (Z.to_nat energy) (Frontier.SnapshotID en) stepCount 0;
              _ ← prune_when_due gcInterval stepCount;
              explore_loop fuel deadline branchFactor gcInterval rootSnapID stepCount cycleCount
          end
      end
  end.

(** ** The whole exploration *)

(** [explorer.Config] with the orchestrator's defaults. *)
Definition explore_config s (duration : Z) : Explorer.Config :=
  let ex := exploration s in
  Explorer.mkConfig (or_default (ex_MaxDepth ex) 100) (or_default (ex_MaxStates ex) 10000) duration (parseStrategy (ex_Strategy ex))
    (rcSeed (cfg (fo s))) (or_default (ex_BranchFactor ex) 10) (ex_CoverageMapSize ex) (xcCorpusPath (xcfg s)).

Definition arm_stats (r : FaultArmRecord) : ArmStats :=
  mkArmStats (Coverage.Kind r) (Coverage.Pulls r) (Coverage.AvgReward r) (Coverage.BaseRate r).

(** The explorer of the run, the mode, and the warm start of the selector. *)
Definition start_explorer (c : Explorer.Config) (corpus : option Corpus) : X unit :=
  _ ← update (λ s, s <| exp := Explorer.New (tree (fo s)) c corpus |>);
  _ ← update (λ s,
        if is_backend BackendPatched s || covReader s
        then s <| deterministicMode := true |> <| exp := SetDeterministicCoverage (exp s) true |> else s);
  update (λ s,
    match adaptiveFaults (fo s), LoadedArmStats (exp s) with
    | Some a, (_ :: _) as loaded => s <| fo := fo s <| adaptiveFaults := Some (WarmStart a (arm_stats <$> loaded)) |> |>
    | _, _ => s
    end).

Definition advance_phase : X unit := update (λ s, s <| comp := (Advance (comp s)).2 |>).

(** [0xE7F10DE]: the generator of the exploration. *)
Definition reseed : X unit :=
  update (λ s, s <| fo := fo s <| rng := Prng.New (Z.lxor (rcSeed (cfg (fo s))) 0xE7F10DE) |> <| currentTimeNS := 0 |> |>).

Definition reset_bitmap : X unit := in_exp (λ e, set_coverage (ResetBitmap (coverage e)) e).

(** The first phase, without faults, up to a fresh clock, generator and
    coverage map. *)
Definition first_phase : X unit :=
  withs $ λ s,
    let initInsns := or_default (ex_InitInsns (exploration s)) defaultInitInsns in
    _ ← runPhaseCommands CmdSetup;
    _ ← perform_ (RunForInstructions initInsns);
    _ ← advance_time initInsns;
    _ ← collectCoverage;
    _ ← processOutput;
    _ ← when (is_backend BackendFirecracker s) (_ ← perform_ (ResetClock 0); perform_ (SetRDTSCQuantum 1000));
    _ ← reseed;
    _ ← when (listener (fo s)) (_ ← perform_ SendResetCoverage; _ ← perform_ (RunForInstructions 200000); _ ← collectCoverage; mret tt);
    reset_bitmap.

(** [^uint64(0)]. *)
Definition fastReplayHypID : Z := 2 ^ 64 - 1.

(** The root snapshot; [None] is an error.  [fastReplay] is whether there are
    files of a saved one. *)
Definition root_snapshot (fastReplay : bool) : X (option Z) :=
  withs $ λ s,
    if bootedFromSnapshot s && fastReplay && is_backend BackendFirecracker s then
      _ ← perform_ (RegisterSnapshot fastReplayHypID);
      match Create (tree (fo s)) (Root (tree (fo s))) fastReplayHypID 0 (Coverage.Hash (coverage (exp s))) (Prng.State (rng (fo s))) 0 0 with
      | (Err _, _) => mret None
      | (Ok id, t) => _ ← put_tree t; mret (Some id)
      end
    else takeSnapshotPaused (Root (tree (fo s))).

(** After the root snapshot the guest's connection may be broken. *)
Definition reconnect : X unit :=
  withs $ λ s,
    when (fc_listener s)
      (let boot := bootedFromSnapshot s in
       let budget := or_default (ex_ReconnectBurstInsns (exploration s)) (if boot : bool then defaultWarmupInsns else defaultReconnectBurstInsns) in
       let quantum := if boot : bool then reconnectQuantumInsnsSnap else reconnectQuantumInsns in
       _ ← runUntilConnected budget quantum;
       _ ← perform_ (WaitConnected 5);
       _ ← collectCoverage;
       _ ← perform_ Discard;
       reset_bitmap).

(** The phases "eventually" and "finally".  The restore is given the tree's
    identifier of the root snapshot, as the source gives it. *)
Definition last_phases (rootSnapID : Z) : X unit :=
  withs $ λ s,
    _ ← advance_phase;
    _ ← when (fc_listener s) (perform_ NotifyDisconnect);
    _ ← perform_ (Restore rootSnapID);
    _ ← when (fc_listener s) (perform_ (WaitConnected 3));
    _ ← in_fo clearFaults;
    _ ← runPhaseCommands CmdSettle;
    _ ← advance_phase;
    _ ← runPhaseCommands CmdVerify;
    _ ← perform_ (RunForInstructions 4000000);
    _ ← processOutput;
    mret tt.

Definition remember_root (rootSnapID : Z) : X unit :=
  update (λ s,
    if bootedFromSnapshot s then s
    else match HypervisorID (tree (fo s)) rootSnapID with Ok h => s <| rootHypID := h |> | Err _ => s end).

(** Phase "drivers": from the root snapshot to the end of the loop. *)
Definition drivers (fuel : nat) (deadline branchFactor rootSnapID : Z) : X (stop_reason * Z) :=
  _ ← remember_root rootSnapID;
  _ ← in_exp (λ e, PushFrontier e rootSnapID);
  _ ← reconnect;
  withs $ λ s,
    _ ← when (negb (bootedFromSnapshot s)) advance_phase;
    explore_loop fuel deadline branchFactor
      (resolveGCInterval (xcGCInterval (xcfg s)) (ex_GCInterval (exploration s)) (backend s)) rootSnapID 0 0.

(** [duration] is [ParsedDuration], [corpus] what the corpus file holds;
    [None] is an error of the root snapshot. *)
Definition explore (fuel : nat) (duration : Z) (corpus : option Corpus) (fastReplay : bool) : X (option (stop_reason * Result)) :=
  start ← on_machine Now;
  c ← gets (λ s, explore_config s duration);
  _ ← start_explorer c corpus;
  _ ← perform_ Pause;
  _ ← advance_phase;
  boot ← gets bootedFromSnapshot;
  _ ← (if boot : bool then _ ← advance_phase; reseed else first_phase);
  root ← root_snapshot fastReplay;
  match root with
  | None => mret None
  | Some rootSnapID =>
      r ← drivers fuel (start + duration) (Explorer.BranchFactor c) rootSnapID;
      _ ← last_phases rootSnapID;
      now ← on_machine Now;
      withs $ λ s, mret (Some (r.1, BuildResult (exp s) (now - start)))
  end.
End loop.
