(* ===== verification/ExploreProps.v ===== *)
(** * The exploration of the orchestrator: properties

    The exploration ends, whatever the machine does, and what it leaves behind:
    a valid tree shared by both its owners, at most [MaxStates] states, the
    reason why it stopped; and what a step records of the guest's output. *)
From stdpp Require Import strings pretty.
From S2P Require Import Prelude Strings Word Float GoLib Prng TestConfig SnapshotTree SnapshotTreeInv SnapshotTreeProps Coverage InputTree ChoiceBuffer.
From S2P Require Import Novelty Mcts Saturation Frontier Explorer ExplorerProps Output Composer EventStore Fault Schedule Adaptive.
From S2P Require Import FaultInject FaultSetup Explore ExploreLoop.
Local Open Scope Z_scope.

(** ** Fault injection never panics

    The agent's messages go out only where the backend has an agent, so with a
    listener for Firecracker no call meets a nil listener. *)

(** What fault injection leaves alone. *)
Definition injected (o o' : Orchestrator) : Prop :=
  cfg o' = cfg o ∧ tree o' = tree o ∧ rng o' = rng o ∧ listener o' = listener o.

Definition callable (o : Orchestrator) : Prop := isFC (cfg o) = true → listener o = true.

Section total.
Context `{Injection}.

Definition total (c : RunConfig) {A} (m : FaultInject.M A) : Prop := ∀ o,
  cfg o = c → callable o → ∃ a o', m o = Some (a, o') ∧ injected o o'.

Lemma injected_refl o : injected o o.
Proof. by split_and!. Qed.

Lemma total_ret c {A} (a : A) : total c (mret a).
Proof. intros o _ _. exists a, o. by split. Qed.

Lemma total_bind c {A A'} (m : FaultInject.M A) (k : A → FaultInject.M A') :
  total c m → (∀ a, total c (k a)) → total c (x ← m; k x).
Proof.
  intros Hm Hk o Hc Ho. destruct (Hm o Hc Ho) as (a & o1 & E & H1 & H2 & H3 & H4). unfold mbind, M_bind. rewrite E.
  destruct (Hk a o1) as (b & o2 & E2 & G1 & G2 & G3 & G4); [congruence|unfold callable in *; by rewrite H1, H4|].
  exists b, o2. split; [done|]. split_and!; congruence.
Qed.

Lemma total_modify c (f : Orchestrator → Orchestrator) : (∀ o, injected o (f o)) → total c (modify f).
Proof. intros Hf o _ _. by exists tt, (f o). Qed.

Lemma total_draw c {A} (d : Source → A * Source) : total c (draw d).
Proof. intros o _ _. unfold draw. destruct (d (faultRng o)) as [a r]. exists a. by eexists. Qed.

Lemma total_if c {A} (b : bool) (m m' : FaultInject.M A) :
  (b = true → total c m) → (b = false → total c m') → total c (if b then m else m').
Proof. destruct b; auto. Qed.

Lemma total_InjectFault c f : total c (InjectFault f).
Proof. intros o _ _. unfold InjectFault. do 2 eexists. split; [done|by split_and!]. Qed.

Lemma total_Send c m : isFC c = true → total c (Send m).
Proof. intros Hf o <- Ho. unfold Send. rewrite (Ho Hf). do 2 eexists. split; [done|by split_and!]. Qed.

Lemma total_SendIf c m : total c (SendIf m).
Proof.
  intros o <- Ho. unfold SendIf, Send. destruct (listener o) eqn:E; [|by exists false, o].
  do 2 eexists. split; [done|by split_and!].
Qed.

Lemma total_appendEvent c e : total c (appendEvent e).
Proof. by apply total_modify. Qed.

Lemma total_recordFault c e : total c (recordFault e).
Proof.
  intros o Hc Ho. unfold recordFault. destruct (total_appendEvent c (EventStore.mkEvent (currentStepVTimeNS o) (current (tree o)) (currentStep o) "" "fault_applied"
    [("fault_kind", AnyString (FaultKind (stamp o e))); ("target", AnyString (Target (stamp o e))); ("target_b", AnyString (TargetB (stamp o e)));
     ("params", AnyMap (Params (stamp o e)))]%string) (o <| faultSchedule := Record_ (faultSchedule o) (stamp o e) |>)) as (a & o' & E & Hi); [done|done|].
  exists a, o'. split; [exact E|exact Hi].
Qed.

Lemma total_countFault c k : total c (countFault k).
Proof. by apply total_modify. Qed.
End total.

(** One step of a proof that a computation is total. *)
Ltac totality :=
  lazymatch goal with
  | |- total _ (mret _) => apply total_ret
  | |- total _ (Send _) => apply total_Send; first [assumption | congruence]
  | |- total _ (SendIf _) => apply total_SendIf
  | |- total _ (InjectFault _) => apply total_InjectFault
  | |- total _ (draw _) => apply total_draw
  | |- total _ (recordFault _) => apply total_recordFault
  | |- total _ (countFault _) => apply total_countFault
  | |- total _ (if _ then _ else _) => apply total_if; intros ?
  | |- total _ (mbind _ _) => apply total_bind; [|intros ?]
  | |- total _ (let '(_, _) := ?p in _) => destruct p
  | |- total _ (FaultInject.when _ _) => unfold FaultInject.when
  end.

Section total_inject.
Context `{Injection}.

Lemma total_each c {A} (f : A → FaultInject.M unit) l : (∀ x, total c (f x)) → total c (each f l).
Proof. intros Hf. induction l; simpl; [apply total_ret|by apply total_bind]. Qed.

Lemma total_each_pair c {A} (f : A → A → FaultInject.M unit) l : (∀ x y, total c (f x y)) → total c (each_pair f l).
Proof. intros Hf. induction l; simpl; [apply total_ret|apply total_bind; [by apply total_each|done]]. Qed.

Lemma total_count c err e : total c (count_and_record err e).
Proof. unfold count_and_record. repeat totality. Qed.

Lemma total_agent_only c send e : (isFC c = true → total c send) → total c (agent_only c send e).
Proof. intros Hs. unfold agent_only. repeat totality. by apply Hs. Qed.

Lemma total_with_port c name f : (∀ p, total c (f p)) → total c (with_port c name f).
Proof. intros Hf. unfold with_port. repeat totality. apply Hf. Qed.

Lemma total_nway c ps pairs : ∀ inj, total c (nway_loop c ps inj pairs).
Proof.
  induction pairs as [|[a b] pairs IH]; intros inj; simpl; [apply total_ret|]. unfold sendAgentPartition.
  repeat totality. apply IH.
Qed.

Ltac totalities :=
  repeat first [ apply total_with_port; intros ? | apply total_count | apply total_agent_only; intros ? | apply total_nway | totality
    | progress unfold sendAgentFault, sendAgentPartition, sendAgentThrottle, sendAgentReorder, sendAgentCPUThrottle,
        sendAgentCPUModulate, sendAgentDiskSlow, sendAgentDiskFull, sendAgentMemPressure, sendAgentDiskFlakey,
        sendAgentDiskCorrupt, sendAgentScript, sendAgentHangNode, sendAgentTerminateNode, sendAgentPauseNode, sendAgentDirtyRestartNode ].

Lemma total_network c sel step net : total c (network_faults c sel step net).
Proof.
  unfold network_faults, try_nway, try_drop, try_delay, try_partition, try_throttle, try_reorder.
  apply total_bind; [totalities|intros _]. apply total_each_pair. intros. totalities.
Qed.

Lemma total_node c sel step nd : total c (node_faults c sel step nd).
Proof.
  unfold node_faults. apply total_bind; [apply total_each; intros n|intros _].
  - unfold try_hang, try_terminate, try_dirty_restart, try_pause, try_cpu_throttle, try_cpu_modulate, try_disk_slow,
      try_disk_corrupt, try_mem_pressure, try_script, try_disk_flakey. totalities.
  - unfold try_disk_full, try_clock_jitter. totalities.
Qed.

Lemma total_pairs c pairs : total c (send_pairs pairs).
Proof. induction pairs as [|[a b] pairs IH]; simpl; [apply total_ret|]. unfold sendAgentPartition. repeat totality. apply IH. Qed.

Lemma total_replay c e : total c (replay_entry c e).
Proof.
  unfold replay_entry, replayAgentFault. apply total_bind; [|intros; totalities].
  apply total_if; [intros Hf|intros _; totalities]. cbv zeta. repeat (apply total_if; intros _); totalities. apply total_pairs.
Qed.

Lemma total_clearFaults o : callable o → ∃ o', clearFaults o = Some (tt, o') ∧ injected o o'.
Proof.
  intros Ho. unfold clearFaults. destruct (total_InjectFault (cfg o) (mkHypFault KindClear []) o eq_refl Ho) as (a & o1 & -> & Hi).
  pose proof Hi as (H1 & H2 & H3 & H4).
  assert (total (cfg o) (_ ← sendAgentFault "clear" "" 0; mret tt)) as Ht by totalities.
  destruct (Ht o1) as ([] & o2 & E & G1 & G2 & G3 & G4); [done|unfold callable in *; by rewrite H1, H4|].
  case_bool_decide; [rewrite E; exists o2|exists o1]; split; try done; split_and!; congruence.
Qed.

Lemma injectFaults_total log now step o : callable o → wf (tree o) →
  ∃ o', injectFaults log now step o = Some (tt, o') ∧ injected o o'.
Proof.
  intros Ho Hwf. unfold injectFaults. destruct (IsReplay (faultSchedule o)).
  { destruct (FaultsAt (faultSchedule o) step) as [es sch].
    destruct (total_each (cfg o) (replay_entry (cfg o)) es (total_replay (cfg o)) (o <| faultSchedule := sch |>)) as ([] & o' & E & Hi); [done|done|].
    by exists o'. }
  set (c := cfg o). assert (∃ h, SnapshotTree.PathHash (tree o) (current (tree o)) (rcSeed c) = Some h) as [h Hh].
  { destruct (wf_current _ Hwf) as [snap Hs]. by apply (PathHash_merkle _ _ _ (rcSeed c) [] Hwf Hs). }
  assert (∀ net nd sel, let o1 := match sel with Some (k :: _) => o <| lastInjectedFault := k |> | _ => o end in
    ∃ o', match SnapshotTree.PathHash (tree o1) (current (tree o1)) (rcSeed c) with
          | None => None
          | Some h =>
              (_ ← (if isFC c then
                      match net with Some _ => _ ← sendAgentFault "clear" "" 0; mret tt | None => mret tt end
                    else _ ← InjectFault (mkHypFault KindClear []); mret tt);
               _ ← match net with Some net => network_faults c sel step net | None => mret tt end;
               match nd with Some nd => node_faults c sel step nd | None => mret tt end)
                (o1 <| currentStepPathHash := h |> <| currentStepVTimeNS := currentTimeNS o1 |>)
          end = Some (tt, o') ∧ injected o o') as Hlive.
  { intros net nd sel o1. assert (injected o o1 ∧ tree o1 = tree o) as [Hi Ht].
    { unfold o1. destruct sel as [[|k ks]|]; by repeat split. }
    rewrite Ht, Hh. pose proof Hi as (H1 & _ & _ & H4).
    assert (total c (_ ← (if isFC c then
                      match net with Some _ => _ ← sendAgentFault "clear" "" 0; mret tt | None => mret tt end
                    else _ ← InjectFault (mkHypFault KindClear []); mret tt);
               _ ← match net with Some net => network_faults c sel step net | None => mret tt end;
               match nd with Some nd => node_faults c sel step nd | None => mret tt end)) as Htot.
    { apply total_bind; [destruct net; totalities|intros _].
      apply total_bind; [destruct net; [apply total_network|totalities]|intros _]. destruct nd; [apply total_node|totalities]. }
    destruct (Htot (o1 <| currentStepPathHash := h |> <| currentStepVTimeNS := currentTimeNS o1 |>)) as ([] & o' & -> & Hi');
      [done|unfold callable in *; cbn; by rewrite H1, H4|].
    exists o'. split; [done|]. destruct Hi as (? & ? & ? & ?), Hi' as (? & ? & ? & ?). split_and!; etransitivity; eassumption. }
  destruct (match faultQuietUntil o with Some until => now <? until | None => false end) eqn:Eq.
  { destruct (faultNet o), (faultNode o); exists o; (split; [done|apply injected_refl]). }
  pose proof (λ net nd, Hlive net nd ((λ a, SelectMultiple log a (faultRng o) 2) <$> adaptiveFaults o)) as Hl.
  destruct (faultNet o) as [net|], (faultNode o) as [nd|];
    [exact (Hl (Some net) (Some nd))|exact (Hl (Some net) None)|exact (Hl None (Some nd))|exists o; split; [done|apply injected_refl]].
Qed.
End total_inject.

(** ** What an exploration step keeps *)

(** What is known of the machine: the clock does not go back and sleeping
    advances it, and a cancelled context stays cancelled.  [clock] and [dead] are
    the clock's value and whether the context is cancelled. *)
Class MachineLaws (W : Type) `{Machine W} := {
  clock : W → Z;
  dead : W → bool;
  later w w' := clock w ≤ clock w' ∧ (dead w = true → dead w' = true);
  later_act a w : later w (act a w).2;
  later_SnapshotPaused w : later w (SnapshotPaused w).2;
  later_DrainOutput w : later w (DrainOutput w).2;
  later_ReadOutputFile w : later w (ReadOutputFile w).2;
  later_DrainCoverage w : later w (DrainCoverage w).2;
  later_CollectShm w : later w (CollectShm w).2;
  later_IsConnected w : later w (IsConnected w).2;
  later_CheckCommandDone w : later w (CheckCommandDone w).2;
  later_cancelled w : later w (cancelled w).2;
  later_Now w : later w (Now w).2;
  cancelled_dead w : (cancelled w).1 = true ↔ dead (cancelled w).2 = true;
  Now_clock w : clock w ≤ (Now w).1 ≤ clock (Now w).2;
  Sleep_clock n w : clock w + n ≤ clock (act (Sleep n) w).2 }.

#[export] Hint Resolve later_act later_SnapshotPaused later_DrainOutput later_ReadOutputFile later_DrainCoverage later_CollectShm
  later_IsConnected later_CheckCommandDone later_cancelled later_Now : later.

(** The explorer's fields that the loop's control depends on. *)
Definition same_control (e e' : Explorer) : Prop :=
  Explorer.tree e' = Explorer.tree e ∧ Explorer.cfg e' = Explorer.cfg e ∧ Explorer.states e' = Explorer.states e ∧
  mcts e' = mcts e ∧ frontier e' = frontier e ∧ violations e `prefix_of` violations e'.

(** *** The explorer's operations *)

Lemma same_control_refl e : same_control e e.
Proof. by split_and!. Qed.

Lemma same_trans e1 e2 e3 : same_control e1 e2 → same_control e2 e3 → same_control e1 e3.
Proof.
  intros (H3 & H4 & H5 & H6 & H7 & H8) (G1 & G2 & G3 & G4 & G5 & G6). split_and!; [congruence..|by etransitivity].
Qed.

Lemma same_if (b : bool) e e1 e2 : same_control e e1 → same_control e e2 → same_control e (if b then e1 else e2).
Proof. by destruct b. Qed.

Lemma same_RecordAssertion e t c : same_control e (RecordAssertion e t c).
Proof. by split_and!. Qed.

Lemma same_sometimes ev e : same_control e (record_sometimes ev e).
Proof. unfold record_sometimes. repeat case_match; by split_and!. Qed.

Lemma same_reachable ev e : same_control e (record_reachable ev e).
Proof. unfold record_reachable. repeat case_match; by split_and!. Qed.

Lemma same_RecordAssertionEval e ev : same_control e (RecordAssertionEval e ev).
Proof.
  unfold RecordAssertionEval. cbv zeta.
  set (pc := <[_ := _]> _). set (e1 := set_propertyCounts pc e).
  set (e2 := if bool_decide (AssertType ev = "sometimes"%string) then record_sometimes ev e1 else e1).
  set (e3 := if bool_decide (AssertType ev = "sometimes_all"%string) then record_sometimes ev e2 else e2).
  set (e4 := if bool_decide (AssertType ev = "reachable"%string) then record_reachable ev e3 else e3).
  assert (same_control e e4) as Hs.
  { apply (same_trans _ e3); [|apply same_if; [apply same_reachable|apply same_control_refl]].
    apply (same_trans _ e2); [|apply same_if; [apply same_sometimes|apply same_control_refl]].
    apply (same_trans _ e1); [by split_and!|apply same_if; [apply same_sometimes|apply same_control_refl]]. }
  apply same_if; [done|]. by apply (same_trans _ e4).
Qed.

Lemma same_ReportViolation e v : same_control e (ReportViolation e v).
Proof. split_and!; try done. by apply prefix_app_r. Qed.

Lemma same_ClearStep e : same_control e (ClearStepAssertionEvals e).
Proof. unfold ClearStepAssertionEvals. repeat case_match; by split_and!. Qed.

Lemma same_UpdateSaturation e : same_control e (UpdateSaturation e).
Proof. unfold UpdateSaturation. repeat case_match; by split_and!. Qed.

Section inv.
Context {W B : Type} `{MachineLaws W} `{Bitmap64 B} `{Injection} {growth : Growth} (log : float64 → float64).
Notation X := (Explore.X W B).
Implicit Types s : Orch W B.

Definition comp_ok (c : Composer) : Prop :=
  Source_ok (Composer.rng c) ∧ Z.of_nat (length (commands c)) < 2 ^ 62 ∧ 0 ≤ phase c ≤ 5.

(** The fields of the configuration that are machine words. *)
Record words (ex : Exploration) : Prop := mkWords {
  w_BurstMin : is_word 64 (ex_BurstMinNS ex);
  w_BurstMax : is_word 64 (ex_BurstMaxNS ex);
  w_Warmup : is_word 64 (ex_WarmupInsns ex);
  w_Reconnect : is_word 64 (ex_ReconnectBurstInsns ex) }.

(** A snapshot that the prefork event may still take. *)
Definition pending s : Z := if preforkMode s then 0 else 1.

(** [p] bounds the identifiers handed out so far, and the one of the prefork
    snapshot. *)
Record Inv (p : Z) s : Prop := mkInv {
  inv_wf : wf (tree (fo s));
  inv_shared : Explorer.tree (exp s) = tree (fo s);
  inv_next : nextID (tree (fo s)) + pending s ≤ p;
  inv_frontier id : id ∈ IDs (frontier (exp s)) → is_Some (snapshots (tree (fo s)) !! id);
  inv_mcts : mcts (exp s) = None;
  inv_comp : comp_ok (comp s);
  inv_callable : callable (fo s);
  inv_words : words (exploration s) }.

(** What no operation but a step's start changes, the count of states among it. *)
Record kept s s' : Prop := mkKept {
  k_cfg : cfg (fo s') = cfg (fo s);
  k_listener : listener (fo s') = listener (fo s);
  k_xcfg : xcfg s' = xcfg s;
  k_expcfg : Explorer.cfg (exp s') = Explorer.cfg (exp s);
  k_states : states (exp s') = states (exp s);
  k_boot : bootedFromSnapshot s' = bootedFromSnapshot s;
  k_violations : violations (exp s) `prefix_of` violations (exp s');
  k_later : later (machine s) (machine s') }.

Lemma later_refl (w : W) : later w w.
Proof. done. Qed.

Lemma later_trans (w1 w2 w3 : W) : later w1 w2 → later w2 w3 → later w1 w3.
Proof. intros [H3 H4] [H5 H6]. split; [lia|auto]. Qed.

Lemma kept_refl s : kept s s.
Proof. split; auto using later_refl. Qed.

Lemma kept_trans s1 s2 s3 : kept s1 s2 → kept s2 s3 → kept s1 s3.
Proof. intros [] []. split; try congruence; [by etransitivity|by eapply later_trans]. Qed.

(** The computation ends without a panic and takes [n] snapshots at most. *)
Definition takes (n : Z) {A} (m : X A) : Prop := ∀ p s,
  Inv p s → p + n < 2 ^ 32 → ∃ a s', m s = Some (a, s') ∧ Inv (p + n) s' ∧ kept s s'.

Lemma Inv_mono p q s : p ≤ q → Inv p s → Inv q s.
Proof. intros Hpq []. split; auto. lia. Qed.

Lemma takes_mono n k {A} (m : X A) : 0 ≤ n ≤ k → takes n m → takes k m.
Proof.
  intros Hn Hm p s Hi Hp. destruct (Hm p s Hi ltac:(lia)) as (a & s' & E & Hi' & Hk). exists a, s'.
  split_and!; [done|eapply Inv_mono; [|done]; lia|done].
Qed.

Lemma takes_ret {A} (a : A) : takes 0 (mret a).
Proof. intros p s Hi _. exists a, s. rewrite Z.add_0_r. split_and!; [done|done|apply kept_refl]. Qed.

Lemma takes_bind n k {A A'} (m : X A) (f : A → X A') : 0 ≤ n → 0 ≤ k →
  takes n m → (∀ a, takes k (f a)) → takes (n + k) (x ← m; f x).
Proof.
  intros Hn Hk Hm Hf p s Hi Hp. destruct (Hm p s Hi ltac:(lia)) as (a & s1 & E & Hi1 & Hk1).
  destruct (Hf a (p + n) s1 Hi1 ltac:(lia)) as (b & s2 & E2 & Hi2 & Hk2). exists b, s2.
  unfold mbind, X_bind. rewrite E, E2, Z.add_assoc. split_and!; [done|done|by eapply kept_trans].
Qed.

Lemma takes_then k {A A'} (m : X A) (f : A → X A') : 0 ≤ k → takes 0 m → (∀ a, takes k (f a)) → takes k (x ← m; f x).
Proof. intros Hk Hm Hf. by apply (takes_bind 0 k). Qed.

Lemma takes_withs n {A} (f : Orch W B → X A) : (∀ s, takes n (f s)) → takes n (withs f).
Proof. intros Hf p s. by apply Hf. Qed.

Lemma takes_gets {A} (f : Orch W B → A) : takes 0 (gets f).
Proof. intros p s Hi _. exists (f s), s. rewrite Z.add_0_r. split_and!; [done|done|apply kept_refl]. Qed.

Lemma takes_run {A} (f : Orch W B → A * Orch W B) :
  (∀ p s, Inv p s → Inv p (f s).2 ∧ kept s (f s).2) → takes 0 (run f).
Proof.
  intros Hf p s Hi _. exists (f s).1, (f s).2. rewrite Z.add_0_r. split; [unfold run; by destruct (f s)|by apply Hf].
Qed.

Lemma takes_update (f : Orch W B → Orch W B) : (∀ p s, Inv p s → Inv p (f s) ∧ kept s (f s)) → takes 0 (update f).
Proof. intros Hf p s Hi _. exists tt, (f s). rewrite Z.add_0_r. split; [done|by apply Hf]. Qed.

(** A state that differs in nothing that counts. *)
Lemma Inv_same p s s' : Inv p s → injected (fo s) (fo s') → same_control (exp s) (exp s') → comp s' = comp s →
  preforkMode s' = preforkMode s → Inv p s'.
Proof.
  intros [] (H3 & H4 & H5 & H6) (G1 & G2 & G3 & G4 & G5 & _) Hc Hp. unfold pending in *.
  split; unfold pending, callable, exploration in *; rewrite ?G1, ?G4, ?G5, ?Hc, ?Hp, ?H3, ?H4, ?H6; auto.
Qed.

Lemma kept_same s s' : injected (fo s) (fo s') → same_control (exp s) (exp s') → xcfg s' = xcfg s →
  bootedFromSnapshot s' = bootedFromSnapshot s → later (machine s) (machine s') → kept s s'.
Proof. intros (H3 & H4 & H5 & H6) (G1 & G2 & G3 & G4 & G5 & G6) Hx Hb Hl. split; congruence. Qed.

Lemma same_both p s s' : Inv p s → injected (fo s) (fo s') → same_control (exp s) (exp s') → comp s' = comp s →
  preforkMode s' = preforkMode s → xcfg s' = xcfg s → bootedFromSnapshot s' = bootedFromSnapshot s →
  later (machine s) (machine s') → Inv p s' ∧ kept s s'.
Proof. intros. split; [by eapply Inv_same|by apply kept_same]. Qed.

Ltac same := apply same_both; first [done | apply injected_refl | apply same_control_refl | by auto | by split_and!].

Lemma takes_in_exp (f : Explorer → Explorer) : (∀ e, same_control e (f e)) → takes 0 (in_exp f).
Proof. intros Hf. apply takes_update. intros p s Hi. same. Qed.

Lemma takes_in_fo {A} (m : FaultInject.M A) :
  (∀ o, callable o → wf (tree o) → ∃ a o', m o = Some (a, o') ∧ injected o o') → takes 0 (in_fo m).
Proof.
  intros Hm p s Hi _. destruct (Hm (fo s)) as (a & o' & E & Hj); [apply Hi|apply Hi|].
  exists a, (s <| fo := o' |>). unfold in_fo. rewrite E, Z.add_0_r. split; [done|].
  same.
Qed.

Lemma takes_on_coverage {A} (f : CoverageTracker → CoverageTracker * A) : takes 0 (on_coverage f).
Proof.
  intros p s Hi _. unfold on_coverage. destruct (f (coverage (exp s))) as [c a]. do 2 eexists. rewrite Z.add_0_r.
  split; [done|]. same.
Qed.

Lemma takes_on_machine {A} (f : W → A * W) : (∀ w, later w (f w).2) → takes 0 (on_machine f).
Proof.
  intros Hf p s Hi _. unfold on_machine. specialize (Hf (machine s)). destruct (f (machine s)) as [a w].
  do 2 eexists. rewrite Z.add_0_r. split; [done|]. same.
Qed.

Lemma takes_perform a : takes 0 (perform (B := B) a).
Proof. apply takes_on_machine. auto with later. Qed.

Lemma takes_perform_ a : takes 0 (perform_ (B := B) a).
Proof. apply takes_then; [done|apply takes_perform|intros; apply takes_ret]. Qed.

Lemma takes_if n {A} (b : bool) (m m' : X A) : takes n m → takes n m' → takes n (if b then m else m').
Proof. by destruct b. Qed.

Lemma takes_when b (m : X unit) : takes 0 m → takes 0 (when b m).
Proof. intros. unfold when. apply takes_if; [done|apply takes_ret]. Qed.

Lemma takes_for_each {A} (f : A → X unit) l : (∀ x, takes 0 (f x)) → takes 0 (for_each f l).
Proof. intros Hf. induction l; simpl; [apply takes_ret|by apply takes_then]. Qed.

Lemma takes_any_of {A} (f : A → X bool) l : (∀ x, takes 0 (f x)) → takes 0 (any_of f l).
Proof.
  intros Hf. induction l; simpl; [apply takes_ret|]. apply takes_then; [done|done|intros b].
  apply takes_then; [done|done|intros; apply takes_ret].
Qed.

Lemma takes_event container type_ ps : takes 0 (event (W := W) (B := B) container type_ ps).
Proof.
  intros p s. apply takes_in_fo. intros o _ _. unfold appendEvent, modify. do 2 eexists. split; [done|by split_and!].
Qed.

Lemma takes_advance n : takes 0 (advance_time (W := W) (B := B) n).
Proof. apply takes_update. intros p s Hi. same. Qed.


(** *** The operations of a step *)

Hint Resolve takes_ret takes_gets takes_on_coverage takes_perform takes_perform_ takes_event takes_advance takes_when
  takes_for_each takes_any_of same_RecordAssertion same_RecordAssertionEval same_ReportViolation same_ClearStep
  same_UpdateSaturation : takes.

(** One step of a proof that a computation takes no snapshot. *)
Ltac take :=
  lazymatch goal with
  | |- takes _ (mbind _ _) => apply takes_then; [lia| |intros ?]
  | |- takes _ (withs _) => apply takes_withs; intros ?
  | |- takes _ (in_exp _) => apply takes_in_exp; intros ?
  | |- takes _ (on_machine _) => apply takes_on_machine; intros ?; auto with later
  | |- takes _ (when _ _) => apply takes_when
  | |- takes _ (for_each _ _) => apply takes_for_each; intros ?
  | |- takes _ (any_of _ _) => apply takes_any_of; intros ?
  | |- takes _ (match ?x with _ => _ end) => lazymatch type of x with bool => apply takes_if | _ => destruct x end
  | |- _ => eauto with takes
  end.

Lemma takes_put_tree t p s : Inv p s → wf t → nextID t = nextID (tree (fo s)) →
  (∀ id, is_Some (snapshots (tree (fo s)) !! id) → is_Some (snapshots t !! id)) →
  ∃ s', put_tree t s = Some (tt, s') ∧ Inv p s' ∧ kept s s'.
Proof.
  intros [] Hwf Hn Hreg. eexists. split; [done|]. split.
  - split; cbn; try done; [by rewrite Hn|]. intros id Hid. apply Hreg. by apply inv_frontier0.
  - by split.
Qed.

Lemma Create_facts t parentID h tm cov r f mask id t' : wf t → nextID t < 2 ^ 32 →
  Create t parentID h tm cov r f mask = (Ok id, t') →
  wf t' ∧ nextID t' = nextID t + 1 ∧ ∀ x, is_Some (snapshots t' !! x) ↔ is_Some (snapshots t !! x) ∨ x = id.
Proof.
  intros Hwf Hn E. pose proof (wf_Create t parentID h tm cov r f mask Hwf Hn) as Hwf'.
  pose proof (λ x, Create_registered t parentID h tm cov r f mask id x Hwf Hn) as Hreg. rewrite E in Hwf', Hreg.
  split_and!; [done| |intros x; by apply Hreg]. unfold Create in E. destruct (snapshots t !! parentID); [|done]. injection E as _ <-. cbn.
  unfold add64. apply wrap_small. destruct Hwf as [_ _ [? _]]. unfold is_word. lia.
Qed.

(** A new snapshot put into the tree. *)
Lemma put_created p s parentID h tm cov r f mask id t : Inv p s → p + 1 < 2 ^ 32 →
  Create (tree (fo s)) parentID h tm cov r f mask = (Ok id, t) → ∃ s', put_tree t s = Some (tt, s') ∧ Inv (p + 1) s' ∧ kept s s' ∧
    preforkMode s' = preforkMode s ∧ tree (fo s') = t ∧ is_Some (snapshots t !! id).
Proof.
  intros Hi Hp E. pose proof Hi as []. destruct (Create_facts _ _ _ _ _ _ _ _ _ _ inv_wf0 ltac:(unfold pending in *; destruct (preforkMode s); lia) E) as (Hwf & Hn & Hreg).
  eexists. split; [done|]. split_and!; [|by split|done|done|apply Hreg; by right].
  split; cbn; try done; [unfold pending in *; cbn; lia|]. intros x Hx. apply Hreg. left. by apply inv_frontier0.
Qed.

(** A snapshot recorded in the tree: its identifier is in the tree from then on. *)
Lemma takes_record_snapshot parentID hypID p s : Inv p s → p + 1 < 2 ^ 32 → ∃ c s',
  record_snapshot parentID hypID s = Some (c, s') ∧ Inv (p + 1) s' ∧ kept s s' ∧ preforkMode s' = preforkMode s ∧
  ∀ id, c = Some id → is_Some (snapshots (tree (fo s')) !! id).
Proof.
  intros Hi Hp. unfold record_snapshot. destruct (Create _ _ _ _ _ _ _ _) as [[id|err] t] eqn:E.
  - destruct (put_created p s _ _ _ _ _ _ _ id t Hi Hp E) as (s1 & E1 & Hi1 & Hk1 & Hpf & Ht & Hid).
    unfold mbind at 1, X_bind at 1. rewrite E1. eexists _, _. split; [done|].
    split_and!; [|by destruct Hk1|done|intros x [= <-]; cbn; by rewrite Ht]. destruct Hi1. by split.
  - exists None, s. split_and!; try done. by apply (Inv_mono p); [lia|].
Qed.

Lemma takes_snapshot parentID p s : Inv p s → p + 1 < 2 ^ 32 → ∃ c s',
  takeSnapshotPaused parentID s = Some (c, s') ∧ Inv (p + 1) s' ∧ kept s s' ∧ preforkMode s' = preforkMode s ∧
  ∀ id, c = Some id → is_Some (snapshots (tree (fo s')) !! id).
Proof.
  intros Hi Hp. unfold takeSnapshotPaused, mbind, X_bind, on_machine.
  pose proof (later_SnapshotPaused (machine s)) as Hl. destruct (SnapshotPaused (machine s)) as [[h|] w].
  - set (s1 := s <| machine := w |>). assert (Inv p s1 ∧ kept s s1) as [Hi1 Hk1] by same.
    destruct (takes_record_snapshot parentID h p s1 Hi1 Hp) as (c & s' & E & Hi' & Hk & Hpf & Hreg).
    exists c, s'. split_and!; [done|done|by eapply kept_trans|done|done].
  - exists None. eexists. split; [done|]. assert (Inv p (s <| machine := w |>) ∧ kept s (s <| machine := w |>)) as [Hi1 Hk1] by same.
    split_and!; [by apply (Inv_mono p); [lia|]|done|done|done].
Qed.

Lemma takes_collectCoverage : takes 0 (collectCoverage (W := W) (B := B)).
Proof.
  unfold collectCoverage, update_coverage. repeat take.
  match goal with |- takes 0 (_ ?ds ?f) => generalize f; induction ds as [|d ds IH]; intros ?; repeat take; apply IH end.
Qed.

Lemma takes_drainOutput : takes 0 (drainOutput (W := W) (B := B)).
Proof.
  unfold drainOutput. repeat take. apply takes_run. intros p s Hi.
  destruct (drainGVisorOutput _ _). cbn. same.
Qed.

Lemma takes_record_assertion a : takes 0 (record_assertion (W := W) (B := B) a).
Proof. intros p s. unfold record_assertion. revert p s. intros p s. apply takes_then; [done|take|intros _; take]; eauto with takes. Qed.

Lemma takes_record_sub_goals a g : takes 0 (record_sub_goals (W := W) (B := B) a g).
Proof.
  unfold record_sub_goals. take; [take; by split_and!|]. take. destruct (Novelty.RecordSometimesAllEval _ _). repeat take. by split_and!.
Qed.

Lemma takes_process_assertion container a : takes 0 (process_assertion (W := W) (B := B) container a).
Proof. unfold process_assertion. repeat first [apply takes_record_assertion | apply takes_record_sub_goals | take]. Qed.

Lemma takes_process_violation container v : takes 0 (process_violation (W := W) (B := B) container v).
Proof. intros p s. apply takes_then; [done|take; eauto with takes|intros _; take]. Qed.

Lemma takes_set_quiet d : takes 0 (set_quiet (W := W) (B := B) d).
Proof. unfold set_quiet. repeat take. apply takes_update. intros p s Hi. repeat case_match; same. Qed.

(** The prefork event takes its snapshot once. *)
Lemma takes_process_lifecycle container evt : takes 0 (process_lifecycle (W := W) (B := B) container evt).
Proof.
  unfold process_lifecycle. intros p s Hi Hp. unfold mbind at 1, X_bind at 1. cbn [gets].
  set (pre := preforkMode s). revert Hi Hp. revert p s pre. 
  enough (∀ pre : bool, ∀ p s, preforkMode s = pre → Inv p s → p + 0 < 2 ^ 32 → ∃ a s', 
    (if bool_decide (eventType evt = "openthesis_prefork"%string) && negb pre then
         _ ← update (λ s, s <| preforkMode := true |>);
         cur ← gets (λ s, Current (tree (fo s)));
         _ ← takeSnapshotPaused cur; mret tt
       else mret tt : X unit) s = Some (a, s') ∧ Inv p s' ∧ kept s s') as Hpre.
  { intros p s pre Hi Hp. destruct (Hpre pre p s eq_refl Hi Hp) as (a & s1 & E & Hi1 & Hk1).
    unfold mbind at 1, X_bind at 1. rewrite E.
    assert (takes 0 (_ ← (if bool_decide (eventType evt = "openthesis_stop_faults"%string) then set_quiet (duration_seconds (lcDetails evt)) else mret tt);
      event (W := W) (B := B) container "lifecycle" [("event", AnyString (eventType evt)); ("details", match lcDetails evt with Some d => AnyMap d | None => AnyNil end)]%string)) as Ht.
    { repeat first [apply takes_set_quiet | take]. }
    destruct (Ht p s1 Hi1 Hp) as (b & s2 & E2 & Hi2 & Hk2). exists b, s2. split_and!; [exact E2|done|by eapply kept_trans]. }
  intros pre p s Hpre Hi Hp. destruct (bool_decide _ && negb pre) eqn:Eb.
  2: { exists tt, s. split_and!; [done|done|apply kept_refl]. }
  apply andb_prop in Eb as [_ Hn]. destruct pre; [done|].
  set (s1 := s <| preforkMode := true |>). assert (Inv (p - 1) s1 ∧ kept s s1) as [Hi1 Hk1].
  { split; [|by split]. destruct Hi. unfold pending in *. rewrite Hpre in *. split; unfold pending; cbn; try done. lia. }
  destruct (takes_snapshot (Current (tree (fo s1))) (p - 1) s1 Hi1 ltac:(lia)) as (c & s2 & E & Hi2 & Hk2 & _).
  exists tt, s2. unfold mbind, X_bind, update, gets. fold s1. rewrite E. replace p with (p - 1 + 1) by lia.
  split_and!; [done|done|by eapply kept_trans].
Qed.

Lemma takes_process_one out : takes 0 (process_one (W := W) (B := B) out).
Proof.
  unfold process_one. destruct (parseAssertionOutput (odData out)) as [assertions violations].
  repeat first [apply takes_process_assertion | apply takes_process_violation | apply takes_process_lifecycle | take].
  - unfold process_guidance. repeat take.
  - unfold process_choice. repeat take. apply takes_update. intros p s Hi. destruct (slice_append _ _ _). same.
Qed.

Lemma takes_processOutput : takes 0 (processOutput (W := W) (B := B)).
Proof. unfold processOutput. take; [apply takes_drainOutput|]. take. apply takes_process_one. Qed.

(** *** Commands, bursts and polls *)

Hint Resolve takes_collectCoverage takes_processOutput : takes.

Lemma takes_sendCommand cmd : takes 0 (sendCommand (W := W) (B := B) cmd).
Proof.
  unfold sendCommand, enqueueGVisorCommand. repeat take. apply takes_update. intros. same.
Qed.

Lemma takes_sendFlushCoverage : takes 0 (sendFlushCoverage (W := W) (B := B)).
Proof. unfold sendFlushCoverage. repeat take. Qed.

Lemma takes_sendChoiceOverrides id : takes 0 (sendChoiceOverrides (W := W) (B := B) id).
Proof. unfold sendChoiceOverrides. repeat take. Qed.

(** The cap of a command's bursts is reached within [cap_fuel] of them. *)
Lemma takes_command_bursts n : ∀ k total, k = S n → safetyCap ≤ total + burstInsns * Z.of_nat n →
  takes 0 (command_bursts (W := W) (B := B) k total).
Proof.
  induction n as [|n IH]; intros k total -> Hn.
  - cbn [command_bursts]. destruct (Z.ltb_spec total safetyCap); [lia|take].
  - remember (S n) as k. cbn [command_bursts]. apply takes_if; [|take]. repeat take. apply (IH k); [done|]. lia.
Qed.

Lemma takes_run_commands cmds : takes 0 (run_commands (W := W) (B := B) cmds).
Proof.
  induction cmds as [|cmd cmds IH]; cbn [run_commands]; [take|].
  repeat first [apply takes_sendCommand | apply (takes_command_bursts 96); [done|unfold safetyCap, burstInsns; lia] | exact IH | take].
Qed.

Lemma takes_runPhaseCommands kind : takes 0 (runPhaseCommands (W := W) (B := B) kind).
Proof. unfold runPhaseCommands. repeat first [apply takes_run_commands | take]. Qed.

Lemma takes_until_connected n maxInsns quantum : ∀ k executed, k = S n → maxInsns ≤ executed + quantum * Z.of_nat n →
  takes 0 (until_connected (W := W) (B := B) k maxInsns quantum executed).
Proof.
  induction n as [|n IH]; intros k executed -> Hn.
  - cbn [until_connected]. destruct (Z.ltb_spec executed maxInsns); [lia|take].
  - remember (S n) as k eqn:Hk. cbn [until_connected]. destruct (Z.ltb_spec executed maxInsns); [|take]. repeat take.
    destruct (Z.min_spec quantum (maxInsns - executed)) as [[Hq E]|[Hq E]]; rewrite E.
    + apply (IH k); [done|]. lia.
    + replace (executed + (maxInsns - executed)) with maxInsns by lia. subst k. cbn [until_connected]. rewrite Z.ltb_irrefl. take.
Qed.

Lemma takes_runUntilConnected maxInsns quantum : 0 < quantum → 0 ≤ maxInsns → takes 0 (runUntilConnected (W := W) (B := B) maxInsns quantum).
Proof.
  intros Hq Hm. unfold runUntilConnected. take. destruct (listener _); [|repeat take].
  pose proof (Z.div_pos maxInsns quantum Hm Hq).
  apply (takes_until_connected (Z.to_nat (maxInsns / quantum + 1))); [unfold connect_fuel; lia|].
  rewrite Z2Nat.id by lia. pose proof (Z.mod_pos_bound maxInsns quantum Hq). pose proof (Z.div_mod maxInsns quantum). lia.
Qed.

Lemma takes_poll_one out : takes 0 (poll_one (W := W) (B := B) out).
Proof.
  unfold poll_one, poll_assertion, poll_violation. destruct (parseAssertionOutput (odData out)).
  repeat first [apply takes_record_assertion | take].
Qed.

Lemma takes_drainGVisor : takes 0 (drainGVisor (W := W) (B := B)).
Proof. unfold drainGVisor. repeat take. apply takes_run. intros p s Hi. destruct (drainGVisorOutput _ _). cbn. same. Qed.

(** The computation in the state [s], with what follows. *)
Definition ends (p : Z) s {A} (m : X A) : Prop := ∃ a s', m s = Some (a, s') ∧ Inv p s' ∧ kept s s'.

Lemma ends_ret p s {A} (a : A) : Inv p s → ends p s (mret a).
Proof. intros Hi. exists a, s. by split_and!. Qed.

Lemma ends_takes p s {A} (m : X A) : Inv p s → p < 2 ^ 32 → takes 0 m → ends p s m.
Proof. intros Hi Hp Hm. destruct (Hm p s Hi ltac:(lia)) as (a & s' & E & Hi' & Hk). rewrite Z.add_0_r in Hi'. by exists a, s'. Qed.

Lemma ends_bind p s {A A'} (m : X A) (f : A → X A') : Inv p s → p < 2 ^ 32 → takes 0 m →
  (∀ a s1, Inv p s1 → kept s s1 → m s = Some (a, s1) → ends p s1 (f a)) → ends p s (x ← m; f x).
Proof.
  intros Hi Hp Hm Hf. destruct (ends_takes p s m Hi Hp Hm) as (a & s1 & E & Hi1 & Hk1).
  destruct (Hf a s1 Hi1 Hk1 E) as (b & s2 & E2 & Hi2 & Hk2). exists b, s2. unfold mbind, X_bind. rewrite E.
  split_and!; [done|done|by eapply kept_trans].
Qed.

(** Each poll sleeps, so the deadline passes. *)
Lemma poll_loop_ends n deadline : ∀ k p s, k = S n → Inv p s → p < 2 ^ 32 →
  deadline ≤ clock (machine s) + pollInterval * Z.of_nat n → ends p s (poll_loop k deadline).
Proof.
  assert (takes 0 (on_machine (B := B) Now)) as Hnow by take.
  induction n as [|n IH]; intros k p s -> Hi Hp Hd; [|remember (S n) as k]; cbn [poll_loop]; apply ends_bind; try done; intros now s1 Hi1 Hk1 E.
  all: assert (clock (machine s) ≤ now) as Hn by
    (unfold on_machine in E; pose proof (Now_clock (machine s)); destruct (Now (machine s)); by injection E as <- _; cbn in *; lia).
  all: destruct (Z.ltb_spec now deadline); [|by apply ends_ret].
  { lia. }
  apply ends_bind; [done|done|take|intros c s2 Hi2 Hk2 _]. destruct c; [by apply ends_ret|].
  apply ends_bind; [done|done|apply takes_drainGVisor|intros outs s3 Hi3 Hk3 _].
  apply ends_bind; [done|done|take; apply takes_poll_one|intros d s4 Hi4 Hk4 _]. destruct d; [by apply ends_ret|].
  apply ends_bind; [done|done|take|intros [] s5 Hi5 Hk5 E5]. apply (IH k); [done|done|done|].
  assert (clock (machine s4) + pollInterval ≤ clock (machine s5)) as Hc.
  { unfold perform_, perform, on_machine, mbind, X_bind in E5. pose proof (Sleep_clock pollInterval (machine s4)).
    destruct (act _ _) as [b w]. injection E5 as <-. done. }
  pose proof (proj1 (k_later _ _ Hk1)). pose proof (proj1 (k_later _ _ Hk2)). pose proof (proj1 (k_later _ _ Hk3)). pose proof (proj1 (k_later _ _ Hk4)). lia.
Qed.

Lemma takes_waitForBurstDone timeout : 0 ≤ timeout → takes 0 (waitForBurstDone (W := W) (B := B) timeout).
Proof.
  intros Ht p s Hi Hp. rewrite Z.add_0_r in *. fold (ends p s (waitForBurstDone timeout)). unfold waitForBurstDone.
  apply ends_bind; [done|done|take|intros now s1 Hi1 Hk1 E].
  assert (now ≤ clock (machine s1)) as Hn.
  { unfold on_machine in E. pose proof (Now_clock (machine s)). destruct (Now (machine s)). injection E as <- <-. cbn in *. lia. }
  unfold pollInterval in *. pose proof (Z.div_pos timeout 5000000 Ht ltac:(lia)).
  apply (poll_loop_ends (Z.to_nat (timeout / 5000000 + 1))); [unfold poll_fuel, pollInterval; lia|done|done|].
  unfold pollInterval. rewrite Z2Nat.id by lia. pose proof (Z.mod_pos_bound timeout 5000000). pose proof (Z.div_mod timeout 5000000). lia.
Qed.

(** *** The step *)

Lemma ends_withs p s {A} (f : Orch W B → X A) : ends p s (f s) → ends p s (withs f).
Proof. done. Qed.

Lemma takes_withs_words n {A} (f : Orch W B → X A) : (∀ s, words (exploration s) → takes n (f s)) → takes n (withs f).
Proof. intros Hf p s Hi. by apply Hf; [apply (inv_words p)|]. Qed.

Lemma or_default_nonneg v d : 0 ≤ v → 0 ≤ d → 0 ≤ or_default v d.
Proof. unfold or_default. by destruct (v =? 0). Qed.

Lemma takes_restore hypID : takes 0 (restore (W := W) (B := B) hypID).
Proof.
  apply takes_withs_words. intros s [_ _ [Hw _] _].
  repeat first [apply takes_runUntilConnected; [done|by apply or_default_nonneg] | take].
Qed.

(** Leaving prefork mode makes room for one more snapshot. *)
Lemma takes_needs_restore target : takes 1 (needs_restore (W := W) (B := B) target).
Proof.
  intros p s Hi Hp. unfold needs_restore, withs. assert (Inv (p + 1) s) as Hi' by (by apply (Inv_mono p); [lia|]).
  destruct (_ && _); [|by exists true, s; split_and!]. destruct (_ || _); [by exists false, s; split_and!|].
  exists true. eexists. split; [done|]. split; [|by split]. destruct Hi. split; try done. unfold pending in *. cbn. destruct (preforkMode s); lia.
Qed.

Lemma SetCurrent_fields t id : nextID (SetCurrent t id).2 = nextID t ∧ snapshots (SetCurrent t id).2 = snapshots t.
Proof. unfold SetCurrent. by case_match. Qed.

Lemma aim_ends target branchSeed stepCount p s : Inv p s → p < 2 ^ 32 → ends p s (aim log target branchSeed stepCount).
Proof.
  intros Hi Hp. apply ends_withs. cbv zeta.
  set (m := match Get (tree (fo s)) target with Ok _ => _ | Err _ => _ end).
  assert (∃ tm, m s = Some (tt, s <| fo := fo s <| currentTimeNS := tm |> |>)) as [tm E].
  { subst m. destruct (Get (tree (fo s)) target); [by eexists|]. exists (currentTimeNS (fo s)). by destruct s, fo. }
  set (s1 := s <| fo := fo s <| currentTimeNS := tm |> |>) in *. assert (Inv p s1 ∧ kept s s1) as [Hi1 Hk1] by same.
  destruct (SetCurrent_fields (tree (fo s)) target) as [Hn Hs].
  destruct (takes_put_tree (SetCurrent (tree (fo s)) target).2 p s1) as (s2 & E2 & Hi2 & Hk2);
    [done|apply wf_SetCurrent; apply Hi|done|by rewrite Hs|].
  assert (ends p s2 (_ ← perform_ (SetSeed branchSeed); _ ← sendChoiceOverrides target; now ← on_machine Now;
    in_fo (injectFaults log now stepCount))) as (a & s3 & E3 & Hi3 & Hk3).
  { apply ends_takes; [done|done|].
    repeat first [apply takes_sendChoiceOverrides | apply takes_in_fo; intros o Ho Hwf; exists tt; by apply injectFaults_total | take]. }
  exists a, s3. unfold mbind at 1, X_bind at 1. rewrite E. unfold mbind at 1, X_bind at 1. rewrite E2.
  split_and!; [exact E3|done|]. eapply kept_trans; [done|]. by eapply kept_trans.
Qed.

Lemma takes_nextCommand : takes 0 (nextCommand (W := W) (B := B)).
Proof.
  intros p s Hi Hp. rewrite Z.add_0_r. destruct (inv_comp _ _ Hi) as (Hr & Hl & Hph).
  destruct (NextCommand_spec (comp s) Hr Hl Hph) as (o & c & E & Hc & Hp' & Hr' & _).
  unfold nextCommand. rewrite E. do 2 eexists. split; [done|]. split; [|by split].
  destruct Hi. split; try done. cbn. unfold comp_ok. by rewrite Hc, Hp'.
Qed.

Lemma takes_opt_command cmd : takes 0 (opt_command (W := W) (B := B) cmd).
Proof. unfold opt_command. repeat first [apply takes_sendCommand | take]. Qed.

Lemma takes_more_commands n : takes 0 (more_commands (W := W) (B := B) n).
Proof. induction n; cbn [more_commands]; repeat first [apply takes_nextCommand | apply takes_opt_command | assumption | take]. Qed.

Lemma takes_burst insns cmd : takes 0 (burst (W := W) (B := B) insns cmd).
Proof.
  unfold burst. repeat first [apply takes_waitForBurstDone; done | apply takes_opt_command | apply takes_more_commands
    | apply takes_sendFlushCoverage | take].
Qed.

Lemma takes_observe : takes 0 (observe (W := W) (B := B)).
Proof. unfold observe. repeat take. Qed.

Lemma PushFrontier_violations e id : violations (PushFrontier e id) = violations e.
Proof.
  unfold PushFrontier, collect_signals. destruct (Get (Explorer.tree e) id) as [snap|]; [|done]. destruct (StepNovelty (coverage e)) as [[a b] c].
  destruct (foldl sometimes_boost _ _) as [bo sat]. destruct (foldl sub_goal_boost _ _) as [[bo' tr] cov]. cbv zeta. by repeat case_match.
Qed.

(** What is not in the tree is not pushed. *)
Lemma takes_push id : takes 0 (in_exp (W := W) (B := B) (λ e, PushFrontier e id)).
Proof.
  intros p s Hi _. rewrite Z.add_0_r. eexists tt, _. split; [done|]. pose proof (PushFrontier_spec (exp s) id) as Hp.
  pose proof (PushFrontier_violations (exp s) id) as Hv. destruct (Get (Explorer.tree (exp s)) id) as [snap|err] eqn:Hg.
  2: { rewrite Hp. assert (s <| exp := exp s |> = s) as -> by (by destruct s). split; [done|apply kept_refl]. }
  destruct Hp as (en & Hf & Hid & _ & Ht & Hc & _ & Hs & Hm). pose proof Hi as []. split.
  - split; cbn; try done; [by rewrite Ht| |by auto]. intros x. rewrite Hf, Push_IDs, Hid. intros [->|Hx]; [|by apply inv_frontier0].
    rewrite inv_shared0 in Hg. unfold Get in Hg. destruct (snapshots (tree (fo s)) !! id) eqn:E; [by eexists|done].
  - split; try done. cbn. by rewrite Hv.
Qed.

Lemma takes_record_sequence target b : takes 0 (record_sequence (W := W) (B := B) target b).
Proof. unfold record_sequence. apply takes_run. intros p s Hi. destruct (RecordSequence _ _). same. Qed.

Lemma takes_expand target mayExpand productive : takes 1 (expand (W := W) (B := B) target mayExpand productive).
Proof.
  assert (∀ c, takes 0 (match c with
    | None => mret productive
    | Some childID =>
        if productive || mayExpand then
          productive ← record_sequence target productive; drift ← gets drift_prone;
          _ ← when drift (in_exp ClearStepAssertionEvals); _ ← in_exp (λ e, PushFrontier e childID); mret productive
        else mret productive
    end : X bool)) as Hc.
  { intros [childID|]; repeat first [apply takes_record_sequence | apply takes_push | take]. }
  unfold expand. apply takes_withs. intros s.
  assert (takes 1 (mret productive : X bool)) as Hret by (apply (takes_mono 0); [lia|take]).
  destruct (Get (tree (fo s)) target) as [parent|]; [|done]. apply takes_if; [|done].
  apply (takes_bind 1 0); [lia..| |done]. intros p s1 Hi Hp.
  destruct (takes_snapshot target p s1 Hi Hp) as (c & s2 & E & Hi2 & Hk2 & _). by exists c, s2.
Qed.

(** A step counts one state and takes two snapshots at most. *)
Lemma step_ends target mayExpand insns seed stepCount cmd p s :
  Inv p s → p + 2 < 2 ^ 32 → 0 ≤ states (exp s) < 2 ^ 32 → ∃ r s',
    step log target mayExpand insns seed stepCount cmd s = Some (r, s') ∧ Inv (p + 2) s' ∧
    kept (s <| exp := IncrementStates (exp s) |>) s' ∧ states (exp s') = states (exp s) + 1.
Proof.
  intros Hi Hp Hs. unfold step. set (s0 := s <| exp := IncrementStates (exp s) |>).
  assert (Inv p s0) as Hi0 by (destruct Hi; by split).
  assert (states (exp s0) = states (exp s) + 1) as Hst.
  { cbn. unfold add64. apply wrap_small. unfold is_word. lia. }
  match goal with |- ∃ r s', mbind ?f _ s = _ ∧ _ => assert (takes 2 (f tt)) as Ht end.
  { take; [apply takes_update; intros; same|]. take; [take|]. case_match; [|apply (takes_mono 0); [lia|take]].
    apply (takes_bind 1 1); [lia..|apply takes_needs_restore|intros need].
    take; [destruct need; [apply takes_restore|take]|]. apply takes_if; [apply (takes_mono 0); [lia|take]|].
    take; [by intros p' s' Hi' Hp'; rewrite Z.add_0_r in *; apply aim_ends|].
    take; [apply takes_burst|]. apply takes_if; [apply (takes_mono 0); [lia|take]|].
    take; [apply takes_observe|]. apply (takes_bind 1 0); [lia..|apply takes_expand|intros; take]. }
  destruct (Ht p s0 Hi0 Hp) as (r & s' & E & Hi' & Hk). exists r, s'. split_and!; [exact E|done|done|].
  by rewrite (k_states _ _ Hk).
Qed.

(** *** The loop *)

(** What is kept when states are counted. *)
Record moved s s' : Prop := mkMoved {
  m_cfg : cfg (fo s') = cfg (fo s);
  m_xcfg : xcfg s' = xcfg s;
  m_expcfg : Explorer.cfg (exp s') = Explorer.cfg (exp s);
  m_states : states (exp s) ≤ states (exp s');
  m_violations : violations (exp s) `prefix_of` violations (exp s');
  m_later : later (machine s) (machine s') }.

Lemma moved_kept s s' : kept s s' → moved s s'.
Proof. intros []. split; auto. lia. Qed.

Lemma moved_trans s1 s2 s3 : moved s1 s2 → moved s2 s3 → moved s1 s3.
Proof. intros [] []. split; try congruence; [lia|by etransitivity|by eapply later_trans]. Qed.

(** The computation ends with an answer and in a state that satisfy [Q]. *)
Definition goes {A} (Q : A → Orch W B → Prop) s (m : X A) : Prop := ∃ a s', m s = Some (a, s') ∧ Q a s'.

Lemma goes_bind p s {A A'} (Q : A' → Orch W B → Prop) (m : X A) (f : A → X A') : Inv p s → p < 2 ^ 32 → takes 0 m →
  (∀ a s1, Inv p s1 → kept s s1 → m s = Some (a, s1) → goes Q s1 (f a)) → goes Q s (x ← m; f x).
Proof.
  intros Hi Hp Hm Hf. destruct (ends_takes p s m Hi Hp Hm) as (a & s1 & E & Hi1 & Hk1).
  destruct (Hf a s1 Hi1 Hk1 E) as (b & s2 & E2 & HQ). exists b, s2. unfold mbind, X_bind. by rewrite E.
Qed.

Lemma takes_drawn : takes 0 (drawn (W := W) (B := B)).
Proof.
  intros p s Hi _. unfold drawn, run. destruct (Uint64 (FaultInject.rng (fo s))) as [v r]. do 2 eexists. rewrite Z.add_0_r.
  split; [done|]. split; [destruct Hi; by split|by split].
Qed.

(** A range that is empty or reversed is widened to one that is not empty. *)
Lemma burst_span cfgMin cfgMax : is_word 64 cfgMin → is_word 64 cfgMax → 0 < cfgMin →
  sub64 (if cfgMax <=? cfgMin then mul64 cfgMin 10 else cfgMax) cfgMin ≠ 0.
Proof.
  unfold is_word, sub64, mul64. intros H3 H4 H5. destruct (Z.leb_spec cfgMax cfgMin) as [Hle|Hlt].
  - unfold wrap. rewrite Zminus_mod_idemp_l. replace (cfgMin * 10 - cfgMin) with (9 * cfgMin) by lia. intros E.
    apply Z.mod_divide in E; [|lia]. apply Z.gauss in E; [|done]. apply Z.divide_pos_le in E; lia.
  - rewrite wrap_small by (unfold is_word; lia). lia.
Qed.

Lemma takes_burst_length stepCount : takes 0 (burst_length (W := W) (B := B) stepCount).
Proof.
  assert (∀ lo span, span ≠ 0 → takes 0 (in_span (W := W) (B := B) lo span)) as Hspan.
  { intros lo span Hs. unfold in_span. take; [apply takes_drawn|]. destruct (Z.eqb_spec span 0); [done|take]. }
  apply takes_withs_words. intros s [Hmin Hmax _ _]. cbv zeta. destruct (Z.ltb_spec 0 (ex_BurstMinNS (exploration s))).
  - by apply Hspan, burst_span.
  - apply takes_if; [by apply Hspan|take].
Qed.

Lemma takes_note_step stepCount insns : takes 0 (note_step (W := W) (B := B) stepCount insns).
Proof. apply takes_update. intros. same. Qed.

Lemma takes_step_command stepCount : takes 0 (step_command (W := W) (B := B) stepCount).
Proof. unfold step_command. repeat first [apply takes_nextCommand | take]. Qed.

Lemma takes_backpropagate n : takes 0 (backpropagate (W := W) (B := B) n).
Proof.
  intros p s Hi _. unfold backpropagate, BackpropagateMCTS. rewrite (inv_mcts _ _ Hi), Z.add_0_r. eexists tt, _. split; [done|]. same.
Qed.

Lemma takes_reward_fault : takes 0 (reward_fault (W := W) (B := B)).
Proof. apply takes_update. intros. repeat case_match; same. Qed.

(** A branch counts one state. *)
Lemma one_branch_goes target lastBranch stepCount n p s :
  Inv p s → p + 2 < 2 ^ 32 → 0 ≤ states (exp s) < 2 ^ 32 →
  goes (λ _ s', Inv (p + 2) s' ∧ moved s s' ∧ states (exp s') = states (exp s) + 1) s (one_branch log target lastBranch stepCount n).
Proof.
  intros Hi Hp Hs. unfold one_branch.
  apply (goes_bind p); [done|lia|apply takes_burst_length|intros insns s1 Hi1 Hk1 _].
  apply (goes_bind p); [done|lia|apply takes_drawn|intros seed s2 Hi2 Hk2 _].
  apply (goes_bind p); [done|lia|apply takes_note_step|intros [] s3 Hi3 Hk3 _].
  apply (goes_bind p); [done|lia|apply takes_step_command|intros cmd s4 Hi4 Hk4 _].
  assert (kept s s4) as Hk by (repeat (eapply kept_trans; [eassumption|]); apply kept_refl).
  destruct (step_ends target lastBranch insns seed stepCount cmd p s4 Hi4 Hp) as (r & s5 & E & Hi5 & Hk5 & Hst5);
    [by rewrite (k_states _ _ Hk)|].
  unfold mbind at 1, X_bind at 1, goes. rewrite E.
  match goal with |- ∃ a s', ?m s5 = _ ∧ _ => assert (takes 0 m) as Ht end.
  { take; [destruct r as [[]|]; repeat first [apply takes_backpropagate | take]|]. take; [apply takes_reward_fault|].
    take; [apply takes_update; intros; same|take]. }
  destruct (ends_takes (p + 2) s5 _ Hi5 ltac:(lia) Ht) as (c & s6 & E6 & Hi6 & Hk6). exists c, s6.
  split_and!; [done|done| |by rewrite (k_states _ _ Hk6), Hst5, (k_states _ _ Hk)].
  apply (moved_trans _ s4); [by apply moved_kept|]. apply (moved_trans _ s5); [|by apply moved_kept].
  destruct Hk5. split; try done. lia.
Qed.

Lemma takes_save_branch : takes 0 (save_branch (W := W) (B := B)).
Proof. unfold save_branch. take. take. case_match; take. Qed.

Lemma takes_periodic stepCount : takes 0 (periodic (W := W) (B := B) stepCount).
Proof. unfold periodic, coverage_point. repeat first [apply takes_update; intros; same | take]. Qed.

(** What branches do: they count states, up to the limit, with two snapshots
    for each at most. *)
Record branched p s s' : Prop := mkBranched {
  br_inv : Inv (p + 2 * (states (exp s') - states (exp s))) s';
  br_moved : moved s s';
  br_max : states (exp s') ≤ max_states s }.

Lemma max_moved s s' : moved s s' → max_states s' = max_states s.
Proof. intros [_ _ H3 _ _]. unfold max_states. by rewrite H3. Qed.

Lemma branched_kept p s s' : Inv p s' → kept s s' → states (exp s) ≤ max_states s → branched p s s'.
Proof.
  intros Hi Hk Hm. split; [|by apply moved_kept|by rewrite (k_states _ _ Hk)].
  by rewrite (k_states _ _ Hk), Z.sub_diag, Z.add_0_r.
Qed.

Lemma branched_trans p s1 s2 s3 :
  branched p s1 s2 → branched (p + 2 * (states (exp s2) - states (exp s1))) s2 s3 → branched p s1 s3.
Proof.
  intros [H3 H4 H5] [G1 G2 G3]. split; [|by eapply moved_trans|by rewrite <- (max_moved _ _ H4)].
  eapply Inv_mono; [|exact G1]. lia.
Qed.

(** Room for the snapshots of all states that are left. *)
Definition room p s : Prop :=
  0 ≤ states (exp s) ≤ max_states s ∧ p + 2 * (max_states s - states (exp s)) < 2 ^ 32 ∧ max_states s < 2 ^ 32.

Lemma room_branched p s s' : room p s → branched p s s' → room (p + 2 * (states (exp s') - states (exp s))) s'.
Proof. intros (H3 & H4 & H5) [G1 G2 G3]. unfold room. rewrite (max_moved _ _ G2). pose proof (m_states _ _ G2). lia. Qed.

(** After a branch the loop stops or goes on. *)
Lemma after_branch p s (rest : X Z) stepCount : Inv p s → room p s →
  (∀ s1, Inv p s1 → kept s s1 → goes (λ _, branched p s1) s1 rest) →
  goes (λ _, branched p s) s (b ← gets branch_point;
    if b : bool then _ ← save_branch; mret stepCount else _ ← periodic stepCount; rest).
Proof.
  intros Hi (H3 & H4 & H5) Hrest.
  apply (goes_bind p); [done|lia|take|intros b s1 Hi1 Hk1 _]. destruct b.
  - destruct (ends_takes p s1 (_ ← save_branch; mret stepCount)) as (a & s2 & E & Hi2 & Hk2);
      [done|lia|take; [apply takes_save_branch|take]|]. exists a, s2. split; [exact E|].
    apply branched_kept; [done|by eapply kept_trans|lia].
  - apply (goes_bind p); [done|lia|apply takes_periodic|intros [] s2 Hi2 Hk2 _].
    assert (kept s s2) as Hk by by eapply kept_trans. destruct (Hrest s2 Hi2 Hk) as (a & s3 & E & Hb). exists a, s3. split; [done|].
    apply (branched_trans _ _ s2); [apply branched_kept; [done|done|lia]|].
    by rewrite (k_states _ _ Hk), Z.sub_diag, Z.add_0_r.
Qed.

Lemma branches_goes n target : ∀ stepCount c p s, Inv p s → room p s →
  goes (λ _, branched p s) s (branches log n target stepCount c).
Proof.
  induction n as [|n IH]; intros stepCount c p s Hi Hr; pose proof Hr as (H3 & H4 & H5); cbn [branches].
  { exists stepCount, s. split; [done|]. apply branched_kept; [done|apply kept_refl|lia]. }
  apply (goes_bind p); [done|lia|take|intros b s1 Hi1 Hk1 _].
  apply (goes_bind p); [done|lia|take|intros full s2 Hi2 Hk2 [= <- <-]].
  destruct (b || _) eqn:Eb.
  { exists stepCount, s1. split; [done|]. apply branched_kept; [done|done|lia]. }
  apply orb_false_iff in Eb as [_ Hf%Z.leb_gt]. unfold states_of, Explorer.States in Hf.
  apply (goes_bind p); [done|lia|take|intros v s3 Hi3 Hk3 [= <- <-]]. destruct (violated s1).
  { exists stepCount, s1. split; [done|]. apply branched_kept; [done|done|lia]. }
  assert (max_states s1 = max_states s ∧ states (exp s1) = states (exp s)) as [Hm1 Hs1]
    by (split; [by apply max_moved, moved_kept|apply Hk1]).
  destruct (one_branch_goes target (bool_decide (n = 0%nat)) stepCount c p s1 Hi1) as (c' & s4 & E4 & Hi4 & Hm4 & Hs4); [lia..|].
  assert (branched p s s4) as Hb4.
  { split; [eapply Inv_mono; [|done]; lia|eapply moved_trans; [by apply moved_kept|done]|lia]. }
  pose proof (room_branched _ _ _ Hr Hb4) as Hr4.
  destruct (after_branch (p + 2 * (states (exp s4) - states (exp s))) s4 (branches log n target (add64 stepCount 1) c') (add64 stepCount 1))
    as (a & s5 & E5 & Hb5); [apply Hb4|done| |].
  - intros s5 Hi5 Hk5. apply IH; [done|]. unfold room in *. by rewrite (max_moved _ _ (moved_kept _ _ Hk5)), (k_states _ _ Hk5).
  - exists a, s5. split; [unfold mbind at 1, X_bind at 1; rewrite E4; exact E5|by eapply branched_trans].
Qed.

(** Nothing can keep the loop from stopping at its next round. *)
Definition halting s : bool := dead (machine s) || violated s.

Lemma moved_violated s s' : moved s s' → violated s = true → violated s' = true.
Proof.
  intros [_ Hx _ _ [l Hv] _]. unfold violated, ViolationCount. rewrite Hx, Hv, length_app. intros [-> H3%Z.ltb_lt]%andb_prop.
  apply Z.ltb_lt. lia.
Qed.

Lemma moved_halting s s' : moved s s' → halting s = true → halting s' = true.
Proof.
  intros Hm [H3|H3]%orb_prop; apply orb_true_iff; [left; by apply (m_later _ _ Hm)|right; by apply (moved_violated s)].
Qed.

(** The first branch is made unless the context is cancelled or a violation
    stops the run. *)
Lemma branches_progress n target stepCount c p s a s' : Inv p s → room p s → states (exp s) < max_states s →
  branches log (S n) target stepCount c s = Some (a, s') → states (exp s) < states (exp s') ∨ halting s' = true.
Proof.
  intros Hi Hr Hlt. pose proof Hr as (H3 & H4 & H5). cbn [branches].
  pose proof (cancelled_dead (machine s)) as Hd. unfold mbind at 1, X_bind at 1, on_machine.
  destruct (cancelled (machine s)) as [b w] eqn:Ec. cbn [fst snd] in Hd. set (s1 := s <| machine := w |>).
  assert (Inv p s1 ∧ kept s s1) as [Hi1 Hk1].
  { pose proof (later_cancelled (machine s)) as Hl. rewrite Ec in Hl. same. }
  unfold mbind at 1, X_bind at 1, gets at 1. change (max_states s1 <=? states_of s1) with (max_states s <=? states (exp s)).
  rewrite (proj2 (Z.leb_gt _ _) Hlt), orb_false_r.
  destruct b; [intros [= _ <-]; right; apply orb_true_iff; left; by apply Hd|].
  unfold mbind at 1, X_bind at 1, gets at 1. destruct (violated s1) eqn:Hv; [intros [= _ <-]; right; apply orb_true_iff; by right|].
  destruct (one_branch_goes target (bool_decide (n = 0%nat)) stepCount c p s1 Hi1) as (c' & s4 & E4 & Hi4 & Hm4 & Hs4); [lia|cbn; lia|].
  unfold mbind at 1, X_bind at 1. rewrite E4. intros E.
  assert (branched p s s4) as Hb4.
  { split; [eapply Inv_mono; [|done]; cbn in Hs4; lia|eapply moved_trans; [by apply moved_kept|done]|cbn in Hs4; lia]. }
  pose proof (room_branched _ _ _ Hr Hb4) as Hr4.
  destruct (after_branch (p + 2 * (states (exp s4) - states (exp s))) s4 (branches log n target (add64 stepCount 1) c') (add64 stepCount 1))
    as (a' & s5 & E5 & Hb5); [apply Hb4|done| |].
  - intros s5 Hi5 Hk5. apply branches_goes; [done|]. unfold room in *. by rewrite (max_moved _ _ (moved_kept _ _ Hk5)), (k_states _ _ Hk5).
  - rewrite E5 in E. injection E as -> <-. left. pose proof (m_states _ _ (br_moved _ _ _ Hb5)). cbn in Hs4. lia.
Qed.

(** *** Pruning, popping, restarting *)

Lemma Trim_IDs f n id : id ∈ IDs (Trim f n).2 → id ∈ IDs f.
Proof.
  unfold Trim. destruct (length f <=? n)%nat; [done|]. cbn [snd]. set (kept := take n (sort_by trim_less f)).
  pose proof (Permutation_map Frontier.SnapshotID (Heap.hinit_contents scored (imap (λ i e, set_index (Z.of_nat i) e) kept))) as Hp.
  rewrite (contents_IDs (Heap.hinit _)), (imap_index_contents kept), (contents_IDs kept) in Hp. rewrite Hp. clear Hp.
  unfold IDs. intros (e & -> & He)%list_elem_of_fmap. apply list_elem_of_fmap_2.
  rewrite <- (sort_by_Permutation trim_less f). apply list_elem_of_lookup in He as [i Hi]. apply lookup_take_Some in Hi as [Hi _].
  by eapply list_elem_of_lookup_2.
Qed.

Lemma prune_keeps t ids deleted t' : wf t → Prune t ids = Some (deleted, t') →
  wf t' ∧ nextID t' = nextID t ∧ ∀ id, id ∈ ids → is_Some (snapshots t !! id) → is_Some (snapshots t' !! id).
Proof.
  intros Hwf E. destruct (Prune_spec t ids Hwf) as (keep & t1 & Hk & E1 & Hwf1 & Hn & _ & _ & Hl). rewrite E1 in E. injection E as _ <-.
  split_and!; [done|done|]. intros id Hid [x Hx]. rewrite Hl. destruct (decide _) as [Hp|]; [|rewrite Hx; by eexists].
  apply prunable_elem in Hp as (_ & Hnk & _). destruct (mark_all_spec (snapshots t) ids) as (keep' & Hk' & _ & Hin & _).
  rewrite Hk' in Hk. injection Hk as ->. by destruct (Hnk (Hin id Hid)).
Qed.

Lemma takes_pruneSnapshots : takes 0 (pruneSnapshots (W := W) (B := B)).
Proof.
  intros p s Hi Hp. rewrite Z.add_0_r in *. unfold pruneSnapshots. apply ends_bind; [done|done| |].
  - take. clear. intros p s Hi _. rewrite Z.add_0_r. eexists tt, _. split; [done|].
    split; [|by split]. destruct Hi. split; try done. cbn. intros id Hid%Trim_IDs. by apply inv_frontier0.
  - intros [] s1 Hi1 Hk1 _. apply ends_withs. destruct (IDs (frontier (exp s1))) as [|i ids] eqn:EI; [by apply ends_ret|].
    destruct (Prune_spec (tree (fo s1)) (i :: ids)) as (keep & t' & _ & EP & _); [apply Hi1|]. rewrite EP.
    pose proof (prune_keeps _ _ _ _ (inv_wf _ _ Hi1) EP) as (Hwf & Hn & Hreg).
    assert (Inv p (s1 <| fo := fo s1 <| tree := t' |> |> <| exp := set_tree t' (exp s1) |>)) as Hi2.
    { destruct Hi1. split; cbn; try done; [unfold pending in *; cbn; by rewrite Hn|]. intros id Hid.
      change (id ∈ IDs (frontier (exp s1))) in Hid. apply Hreg; [by rewrite <- EI|]. by apply inv_frontier0. }
    destruct (ends_takes p _ (for_each (λ id, perform_ (DeleteSnapshot id)) (map (hyp_of (snapshots (tree (fo s1)))) (prunable (snapshots (tree (fo s1))) keep))) Hi2 Hp) as (a & s3 & E3 & Hi3 & Hk3).
    { repeat take. }
    exists a, s3. unfold mbind, X_bind, put_tree, update. split_and!; [exact E3|done|]. eapply kept_trans; [|done]. by split.
Qed.

Lemma goes_pop p s : Inv p s → goes (λ en s', Inv p s' ∧ kept s s' ∧ (en = None → frontier (exp s') = [])) s (popFrontier log).
Proof.
  intros Hi. pose proof Hi as []. unfold popFrontier, PopFrontier, popFrontierHeap, goes. rewrite inv_mcts0.
  pose proof (pop_loop_spec 3 (Explorer.States (exp s)) (frontier (exp s))) as Hp.
  destruct (pop_loop 3 _ _) as [en f]. do 2 eexists. split; [done|]. split_and!; [|by split|].
  - split; cbn; try done. intros id Hid. apply inv_frontier0. destruct en as [en|]; [rewrite Hp; by right|].
    destruct Hp as [_ ->]. by apply elem_of_nil in Hid.
  - intros ->. by destruct Hp.
Qed.

Lemma regenerate_injected c o : injected o (regenerate_swarm c o).
Proof. unfold regenerate_swarm. case_match; by split_and!. Qed.

Lemma takes_restart root c : takes 0 (restart (W := W) (B := B) root c).
Proof.
  unfold restart. take. apply takes_if; [|take]. take; [|take; [apply takes_push|take]].
  apply takes_update. intros p s' Hi. pose proof (regenerate_injected (add64 c 1) (fo s')) as Hj. same.
Qed.

(** Why the loop stopped. *)
Definition stopped (deadline : Z) (r : stop_reason) s : Prop :=
  match r with
  | ByContext => dead (machine s) = true
  | ByDuration => deadline < clock (machine s)
  | ByStates => states (exp s) = max_states s
  | ByViolation => StopOnFirstViolation (xcfg s) = true ∧ violations (exp s) ≠ []
  | ByStaleness => frontier (exp s) = []
  end.

(** The checks: a reason that holds, or neither the limit nor a violation that
    stops the loop. *)
Lemma goes_check deadline p s : Inv p s → states (exp s) ≤ max_states s → p < 2 ^ 32 →
  goes (λ r s', Inv p s' ∧ kept s s' ∧ match r with Some r => stopped deadline r s'
    | None => states (exp s') < max_states s' ∧ violated s' = false ∧ dead (machine s) = false end) s (check_limits deadline).
Proof.
  intros Hi Hm Hp. unfold check_limits.
  apply (goes_bind p); [done|done|take|intros c s1 Hi1 Hk1 E1].
  assert ((c = true → dead (machine s1) = true) ∧ (c = false → dead (machine s) = false)) as [Hd1 Hd2].
  { unfold on_machine in E1. pose proof (cancelled_dead (machine s)) as Hd. pose proof (later_cancelled (machine s)) as [_ Hl].
    destruct (cancelled (machine s)) as [b w]. injection E1 as <- <-. cbn in *. split; [apply Hd|].
    intros ->. destruct (dead (machine s)); [|done]. by apply Hd in Hl; [|]. }
  destruct c; [exists (Some ByContext), s1; split_and!; [done|done|done|by apply Hd1]|].
  apply (goes_bind p); [done|done|take|intros now s2 Hi2 Hk2 E2].
  assert (now ≤ clock (machine s2)) as Hn.
  { unfold on_machine in E2. pose proof (Now_clock (machine s1)). destruct (Now (machine s1)). injection E2 as <- <-. cbn in *. lia. }
  assert (kept s s2) as Hk by by eapply kept_trans.
  destruct (Z.ltb_spec deadline now); [exists (Some ByDuration), s2; split_and!; [done|done|done|cbn; lia]|].
  assert (states (exp s2) ≤ max_states s2) as Hm2 by (rewrite (k_states _ _ Hk), (max_moved _ _ (moved_kept _ _ Hk)); done).
  unfold withs, goes. unfold states_of, Explorer.States. destruct (Z.leb_spec (max_states s2) (states (exp s2))).
  { exists (Some ByStates), s2. split_and!; [done|done|done|cbn; lia]. }
  destruct (violated s2) eqn:Hv; [|exists None, s2; split_and!; auto].
  exists (Some ByViolation), s2. split_and!; [done|done|done|]. unfold violated in Hv.
  apply andb_prop in Hv as [Hs Hv%Z.ltb_lt]. split; [done|]. unfold ViolationCount in Hv. by destruct (violations (exp s2)).
Qed.

(** The loop ends: a round counts a state, or the context is cancelled and the
    next round stops. *)
Lemma explore_loop_goes deadline branchFactor gcInterval root fuel : ∀ stepCount cycleCount p s,
  Inv p s → room p s → 0 < branchFactor →
  (Z.to_nat (max_states s - states (exp s)) + (if halting s then 1 else 2) ≤ fuel)%nat →
  goes (λ r s', branched p s s' ∧ stopped deadline r.1 s') s
    (explore_loop log fuel deadline branchFactor gcInterval root stepCount cycleCount).
Proof.
  induction fuel as [|fuel IH]; intros stepCount cycleCount p s Hi Hr Hb Hf; [destruct (halting _); lia|].
  pose proof Hr as (H3 & H4 & H5). cbn [explore_loop].
  destruct (goes_check deadline p s Hi) as (r & s1 & E1 & Hi1 & Hk1 & Hr1); [lia|lia|].
  unfold mbind at 1, X_bind at 1, goes. rewrite E1. destruct r as [r|].
  { exists (r, stepCount), s1. split; [done|]. split; [apply branched_kept; [done|done|lia]|done]. }
  destruct Hr1 as (Hlt & Hv & Hd).
  apply (goes_bind p); [done|lia|apply takes_restart|intros cycle s2 Hi2 Hk2 _].
  destruct (goes_pop p s2 Hi2) as (en & s3 & E3 & Hi3 & Hk3 & Hen). unfold mbind at 1, X_bind at 1, goes. rewrite E3.
  assert (kept s s3) as Hk by (eapply kept_trans; [done|by eapply kept_trans]).
  destruct en as [en|]; [|exists (ByStaleness, stepCount), s3; split; [done|split; [apply branched_kept; [done|done|lia]|by apply Hen]]].
  pose proof (moved_kept _ _ Hk) as Hm3. pose proof (max_moved _ _ Hm3) as Hx3. pose proof (k_states _ _ Hk) as Hst3.
  assert (room p s3) as Hr3 by (unfold room; by rewrite Hx3, Hst3).
  assert (states (exp s3) < max_states s3) as Hlt3.
  { rewrite Hx3, Hst3, <- (k_states _ _ Hk1), <- (max_moved _ _ (moved_kept _ _ Hk1)). done. }
  set (energy := if Energy en <=? 0 then branchFactor else Energy en).
  assert (Z.to_nat energy = S (Z.to_nat (energy - 1))) as ->.
  { unfold energy. destruct (Z.leb_spec (Energy en) 0); lia. }
  destruct (branches_goes (S (Z.to_nat (energy - 1))) (Frontier.SnapshotID en) stepCount 0 p s3 Hi3 Hr3) as (n & s4 & E4 & Hb4).
  unfold mbind at 1, X_bind at 1. rewrite E4.
  pose proof (branches_progress _ _ _ _ _ _ _ _ Hi3 Hr3 Hlt3 E4) as Hprog.
  pose proof (room_branched _ _ _ Hr3 Hb4) as Hr4. set (p4 := p + 2 * (states (exp s4) - states (exp s3))) in *.
  apply (goes_bind p4); [apply Hb4|unfold room in Hr4; lia|unfold prune_when_due; apply takes_when, takes_pruneSnapshots|intros [] s5 Hi5 Hk5 _].
  pose proof (moved_kept _ _ Hk5) as Hm5.
  assert (branched p s s5) as Hb5.
  { apply (branched_trans _ _ s3); [apply branched_kept; [done|done|lia]|]. rewrite Hst3, Z.sub_diag, Z.add_0_r.
    apply (branched_trans _ _ s4); [done|]. fold p4. apply branched_kept; [done|done|]. unfold room in Hr4. lia. }
  destruct (IH n cycle (p + 2 * (states (exp s5) - states (exp s))) s5) as (a & s6 & E6 & Hb6 & Hs6);
    [apply Hb5|by apply room_branched|done| |exists a, s6; split; [done|split; [by eapply branched_trans|done]]].
  assert (halting s = false) as Hh.
  { unfold halting. rewrite Hd. destruct (violated s) eqn:Hvs; [|done]. by rewrite (moved_violated s s1 (moved_kept _ _ Hk1) Hvs) in Hv. }
  rewrite Hh in Hf. rewrite (max_moved _ _ (br_moved _ _ _ Hb5)), (k_states _ _ Hk5).
  pose proof (m_states _ _ (br_moved _ _ _ Hb4)). destruct Hprog as [Hprog|Hprog]; [destruct (halting s5); lia|].
  rewrite (moved_halting _ _ Hm5 Hprog). lia.
Qed.

(** *** The phases around the loop *)

Lemma takes_reseed : takes 0 (reseed (W := W) (B := B)).
Proof. apply takes_update. intros p s Hi. split; [destruct Hi; by split|by split]. Qed.

Lemma takes_reset_bitmap : takes 0 (reset_bitmap (W := W) (B := B)).
Proof. unfold reset_bitmap. take. by split_and!. Qed.

Lemma takes_advance_phase : takes 0 (advance_phase (W := W) (B := B)).
Proof.
  apply takes_update. intros p s Hi. split; [|by split]. destruct (inv_comp _ _ Hi) as (H3 & H4 & H5). destruct Hi. split; try done.
  cbn. unfold comp_ok, Advance. destruct (Z.ltb_spec (phase (comp s)) PhaseDone); cbn; unfold PhaseDone in *; split_and!; done || lia.
Qed.

Lemma takes_first_phase : takes 0 (first_phase (W := W) (B := B)).
Proof.
  unfold first_phase. repeat first [apply takes_runPhaseCommands | apply takes_reseed | apply takes_reset_bitmap | take].
Qed.

Lemma takes_reconnect : takes 0 (reconnect (W := W) (B := B)).
Proof.
  unfold reconnect. apply takes_withs_words. intros s [_ _ _ [Hw _]]. apply takes_when. cbv zeta.
  take; [|repeat first [apply takes_reset_bitmap | take]].
  apply takes_runUntilConnected; [by destruct (bootedFromSnapshot s)|apply or_default_nonneg; [done|by destruct (bootedFromSnapshot s)]].
Qed.

Lemma takes_last_phases root : takes 0 (last_phases (W := W) (B := B) root).
Proof.
  unfold last_phases. repeat first [apply takes_advance_phase | apply takes_runPhaseCommands
    | apply takes_in_fo; intros o Ho Hwf; exists tt; by apply total_clearFaults | take].
Qed.

Lemma takes_remember_root root : takes 0 (remember_root (W := W) (B := B) root).
Proof. apply takes_update. intros. repeat case_match; same. Qed.

Lemma takes_root_snapshot b : takes 1 (root_snapshot (W := W) (B := B) b).
Proof.
  assert (∀ parent, takes 1 (takeSnapshotPaused parent : X (option Z))) as Hsnap.
  { intros parent p s Hi Hp. destruct (takes_snapshot parent p s Hi Hp) as (c & s2 & E & Hi2 & Hk2 & _). by exists c, s2. }
  unfold root_snapshot. intros p s Hi Hp. unfold withs. destruct (_ && _); [|by apply Hsnap].
  pose proof (later_act (RegisterSnapshot fastReplayHypID) (machine s)) as Hl. unfold perform_, perform, on_machine, mbind, X_bind.
  destruct (act _ _) as [err w]. set (s1 := s <| machine := w |>). assert (Inv p s1 ∧ kept s s1) as [Hi1 Hk1] by same. cbn [mret X_ret].
  destruct (Create _ _ _ _ _ _ _ _) as [[id|e] t] eqn:E.
  - destruct (put_created p s1 _ _ _ _ _ _ _ id t Hi1 Hp E) as (s2 & E2 & Hi2 & Hk2 & _). rewrite E2.
    exists (Some id), s2. split_and!; [done|done|by eapply kept_trans].
  - exists None, s1. split_and!; [done|by apply (Inv_mono p); [lia|]|done].
Qed.

(** *** The whole exploration *)

(** An orchestrator before [explore]: a tree with nothing but its root, and
    fields within their types. *)
Record fresh s : Prop := mkFresh {
  f_tree : tree (fo s) = NewTree;
  f_prefork : preforkMode s = false;
  f_comp : comp_ok (comp s);
  f_callable : callable (fo s);
  f_words : words (exploration s);
  f_branch : 0 ≤ ex_BranchFactor (exploration s);
  f_states : 0 ≤ ex_MaxStates (exploration s) < 2 ^ 31 - 2;
  f_strategy : parseStrategy (ex_Strategy (exploration s)) ≠ StrategyMCTS }.

Definition limit s : Z := or_default (ex_MaxStates (exploration s)) 10000.

(** A new explorer of the orchestrator's tree. *)
Definition started s s' : Prop := Inv 2 s' ∧ states (exp s') = 0 ∧ max_states s' = limit s ∧ later (machine s) (machine s') ∧
  StopOnFirstViolation (xcfg s') = StopOnFirstViolation (xcfg s).

Lemma or_default_pos v d : 0 ≤ v → 0 < d → 0 < or_default v d.
Proof. unfold or_default. destruct (Z.eqb_spec v 0); lia. Qed.

Lemma start_explorer_goes duration corpus s : fresh s →
  goes (λ _, started s) s (start_explorer (explore_config s duration) corpus).
Proof.
  intros [Ht Hpf Hc Hcall Hw Hb Hm Hst]. unfold start_explorer, mbind, X_bind, update. unfold goes. eexists _, _. split; [reflexivity|].
  set (c := explore_config s duration). set (s1 := s <| exp := Explorer.New (tree (fo s)) c corpus |>).
  assert (Explorer.BranchFactor c > 0) as Hbf by (pose proof (or_default_pos _ 10 Hb); cbn; lia).
  assert (Explorer.cfg (exp s1) = c ∧ states (exp s1) = 0 ∧ frontier (exp s1) = [] ∧ mcts (exp s1) = None ∧ Explorer.tree (exp s1) = tree (fo s)) as (H3 & H4 & H5 & H6 & H7).
  { unfold s1. cbn [exp setter Orch_eta]. unfold Explorer.New. destruct (Z.leb_spec (Explorer.BranchFactor c) 0); [lia|]. cbn.
    split_and!; try done. unfold c. cbn. by destruct (parseStrategy (ex_Strategy (exploration s))). }
  assert (Inv 2 s1) as Hi1.
  { split; try done.
    - change (tree (fo s1)) with (tree (fo s)). rewrite Ht. apply wf_NewTree.
    - unfold pending. change (preforkMode s1) with (preforkMode s). change (tree (fo s1)) with (tree (fo s)). by rewrite Ht, Hpf.
    - rewrite H5. intros id Hid. by apply elem_of_nil in Hid. }
  assert (∀ s2, Inv 2 s2 ∧ kept s1 s2 → started s s2) as Hdone.
  { intros s2 [Hi2 Hk2]. split; [done|]. rewrite (k_states _ _ Hk2), (max_moved _ _ (moved_kept _ _ Hk2)), (k_xcfg _ _ Hk2).
    split_and!; [done|by unfold max_states; rewrite H3|apply Hk2|done]. }
  apply Hdone. set (s2 := if is_backend BackendPatched s1 || covReader s1 then _ else s1).
  assert (Inv 2 s2 ∧ kept s1 s2) as [Hi2 Hk2] by (unfold s2; case_match; same).
  assert (∀ s3, Inv 2 s3 ∧ kept s2 s3 → Inv 2 s3 ∧ kept s1 s3) as Htrans by (intros s3 [? ?]; split; [done|by eapply kept_trans]).
  apply Htrans. repeat case_match; same.
Qed.

(** From the root snapshot to the end of the loop. *)
Lemma drivers_goes fuel deadline branchFactor root s : Inv 3 s → room 3 s → 0 < branchFactor →
  (Z.to_nat (max_states s - states (exp s)) + 2 ≤ fuel)%nat →
  goes (λ r s', branched 3 s s' ∧ stopped deadline r.1 s') s (drivers log fuel deadline branchFactor root).
Proof.
  intros Hi Hr Hb Hf. unfold drivers.
  apply (goes_bind 3); [done|done|apply takes_remember_root|intros [] s1 Hi1 Hk1 _].
  apply (goes_bind 3); [done|done|apply takes_push|intros [] s2 Hi2 Hk2 _].
  apply (goes_bind 3); [done|done|apply takes_reconnect|intros [] s3 Hi3 Hk3 _]. unfold withs.
  apply (goes_bind 3); [done|done|apply takes_when, takes_advance_phase|intros [] s4 Hi4 Hk4 _].
  assert (kept s s4) as Hk by (do 3 (eapply kept_trans; [eassumption|]); done).
  assert (room 3 s4) as Hr4 by (unfold room in *; by rewrite (max_moved _ _ (moved_kept _ _ Hk)), (k_states _ _ Hk)).
  edestruct (explore_loop_goes deadline branchFactor) as (r & s5 & E & Hb5 & Hs5); [exact Hi4|exact Hr4|exact Hb| |].
  2: { exists r, s5. split; [exact E|]. split; [|done]. apply (branched_trans _ _ s4).
       - apply branched_kept; [done|done|]. apply Hr.
       - by rewrite (k_states _ _ Hk), Z.sub_diag, Z.add_0_r. }
  rewrite (max_moved _ _ (moved_kept _ _ Hk)), (k_states _ _ Hk). destruct (halting s4); lia.
Qed.

(** The rounds that are enough. *)
Definition explore_fuel s : nat := Z.to_nat (limit s + 2).

(** What is left in the end. *)
Definition sound (n : Z) s : Prop :=
  Validate (tree (fo s)) = None ∧ Explorer.tree (exp s) = tree (fo s) ∧ states (exp s) ≤ n ∧
  nextID (tree (fo s)) ≤ 3 + 2 * states (exp s) ∧ ∀ id, id ∈ IDs (frontier (exp s)) → is_Some (snapshots (tree (fo s)) !! id).

Lemma Inv_sound n p s : Inv p s → states (exp s) ≤ n → p ≤ 3 + 2 * states (exp s) → sound n s.
Proof.
  intros [Hwf Hsh Hn Hf _ _ _] Hs Hp. split_and!; try done; [by apply Validate_valid, wf_valid|].
  unfold pending in Hn. destruct (preforkMode s); lia.
Qed.

(** What the result says of the reason. *)
Definition reported (deadline : Z) (stopFirst : bool) (n : Z) (reason : stop_reason) (result : Result) s : Prop :=
  rViolations result = violations (exp s) ∧ rTotalStates result = states (exp s) ∧
  match reason with
  | ByContext => dead (machine s) = true
  | ByDuration => deadline < clock (machine s)
  | ByStates => states (exp s) = n
  | ByViolation => stopFirst = true ∧ rViolations result ≠ []
  | ByStaleness => True
  end.

Lemma stopped_reported deadline r s s' elapsed : stopped deadline r s → kept s s' →
  reported deadline (StopOnFirstViolation (xcfg s)) (max_states s) r (BuildResult (exp s') elapsed) s'.
Proof.
  intros Hr Hk. split_and!; [done|done|]. destruct r; cbn in *.
  - by apply (k_later _ _ Hk).
  - pose proof (proj1 (k_later _ _ Hk)). lia.
  - by rewrite (k_states _ _ Hk).
  - destruct Hr as [H3 H4]. split; [done|]. destruct (k_violations _ _ Hk) as [l ->]. by destruct (violations (exp s)).
  - done.
Qed.

(** Everything after the root snapshot. *)
Lemma after_root fuel start duration branchFactor root s : Inv 3 s → room 3 s → states (exp s) = 0 → 0 < branchFactor →
  (Z.to_nat (max_states s + 2) ≤ fuel)%nat →
  goes (λ r s', sound (max_states s) s' ∧ ∃ reason result, r = Some (reason, result) ∧
      reported (start + duration) (StopOnFirstViolation (xcfg s)) (max_states s) reason result s') s
    (r ← drivers log fuel (start + duration) branchFactor root;
     _ ← last_phases root;
     now ← on_machine Now;
     withs $ λ s, mret (Some (r.1, BuildResult (exp s) (now - start)))).
Proof.
  intros Hi Hr Hs Hb Hf.
  destruct (drivers_goes fuel (start + duration) branchFactor root s Hi Hr Hb) as (r & s1 & E1 & [Hi1 Hm1 Hx1] & Hst1).
  { rewrite Hs. destruct Hr as ([H3 H4] & _). lia. }
  unfold mbind at 1, X_bind at 1, goes. rewrite E1. pose proof (room_branched _ _ _ Hr (mkBranched _ _ _ Hi1 Hm1 Hx1)) as Hr1.
  set (p := 3 + 2 * (states (exp s1) - states (exp s))) in *.
  assert (p < 2 ^ 32) as Hp by (unfold room in Hr1; lia).
  apply (goes_bind p); [done|done|apply takes_last_phases|intros [] s2 Hi2 Hk2 _].
  apply (goes_bind p); [done|done|take|intros now s3 Hi3 Hk3 _].
  assert (kept s1 s3) as Hk by by eapply kept_trans.
  eexists _, s3. split; [reflexivity|]. split.
  - apply (Inv_sound _ p); [done|by rewrite (k_states _ _ Hk)|]. rewrite (k_states _ _ Hk). unfold p. lia.
  - do 2 eexists. split; [reflexivity|]. rewrite <- (m_xcfg _ _ Hm1), <- (max_moved _ _ Hm1). by apply stopped_reported.
Qed.

End inv.
