(* ===== verification/ExploreOutput.v ===== *)
(** * The exploration of the orchestrator: what it records of the guest

    Every violation and every evaluation in the drained output reaches the
    explorer once, with the context that replays it; polling in prefork mode
    does less. *)
From stdpp Require Import strings pretty.
From S2P Require Import Prelude Strings Word Float GoLib Prng TestConfig SnapshotTree SnapshotTreeInv Coverage InputTree ChoiceBuffer.
From S2P Require Import Novelty Mcts Saturation Frontier Explorer ExplorerProps Output Composer EventStore Fault Schedule Adaptive.
From S2P Require Import FaultInject FaultSetup Explore ExploreLoop ExploreProps.
Local Open Scope Z_scope.

(** ** What is recorded *)

(** A violation without the place in the tree where it was found. *)
Definition core (v : Violation) : Violation :=
  mkViolation (vProperty v) (vMessage v) 0 (vHypervisorID v) (vSeed v) (vStep v) (vBurstInsns v) (vDetails v) [] 0 (vConcurrentCmds v).

(** The record of a run: violations, counts, and the context of the step. *)
Record View := mkView {
  vw_violations : list Violation; vw_counts : gmap string PropertyCount; vw_seed : Z; vw_step : Z; vw_insns : Z }.
#[export] Instance View_eta : Eta View := mkEta _ (λ r,
  mkView (vw_violations r) (vw_counts r) (vw_seed r) (vw_step r) (vw_insns r)).

Definition add_violation (w : View) (v : Violation) : View :=
  w <| vw_violations := vw_violations w ++
    [mkViolation (vProperty v) (vMessage v) 0 0 (vw_seed w) (vw_step w) (vw_insns w) (vDetails v) [] 0 (vConcurrentCmds v)] |>.

Definition count_one (m : gmap string PropertyCount) (a : parsedAssertion) : gmap string PropertyCount :=
  let key := count_key (assertType a) (message a) in
  <[key := bump (default (mkPropertyCount (assertType a) (message a) 0 0 0) (m !! key)) (condition a)]> m.

Definition add_eval (w : View) (a : parsedAssertion) : View := w <| vw_counts := count_one (vw_counts w) a |>.

(** The evaluations and the violations of an output. *)
Definition evaluated (out : OutputData) : list parsedAssertion := (parseAssertionOutput (odData out)).1.
Definition found (out : OutputData) : list Violation := (parseAssertionOutput (odData out)).2.

Definition add_output (w : View) (out : OutputData) : View :=
  foldl add_violation (foldl add_eval w (evaluated out)) (found out).

Section record.
Context {W B : Type} `{MachineLaws W} `{Bitmap64 B} `{Injection} {growth : Growth} (log : float64 → float64).
Notation X := (Explore.X W B).
Implicit Types s : Orch W B.

Definition view s : View :=
  mkView (core <$> violations (exp s)) (propertyCounts (exp s)) (rcSeed (cfg (fo s))) (currentStep (fo s)) (currentBurstInsns s).

(** The computation changes the record by [f]. *)
Definition does (f : View → View) {A} (m : X A) : Prop := ∀ s a s', m s = Some (a, s') → view s' = f (view s).

Notation silent := (does (λ w : View, w)).

Lemma does_bind f g {A A'} (m : X A) (k : A → X A') : does f m → (∀ a, does g (k a)) → does (λ w, g (f w)) (x ← m; k x).
Proof.
  intros Hm Hk s a s'. unfold mbind, X_bind. destruct (m s) as [[x s1]|] eqn:E; [|done]. intros E'.
  by rewrite (Hk _ _ _ _ E'), (Hm _ _ _ E).
Qed.

Lemma silent_then f {A A'} (m : X A) (k : A → X A') : silent m → (∀ a, does f (k a)) → does f (x ← m; k x).
Proof. apply (does_bind (λ w, w) f). Qed.

Lemma does_then f {A A'} (m : X A) (k : A → X A') : does f m → (∀ a, silent (k a)) → does f (x ← m; k x).
Proof. apply (does_bind f (λ w, w)). Qed.

Lemma silent_ret {A} (a : A) : silent (mret a).
Proof. by intros s x s' [= _ <-]. Qed.

Lemma silent_gets {A} (f : Orch W B → A) : silent (gets f).
Proof. by intros s x s' [= _ <-]. Qed.

Lemma silent_update (f : Orch W B → Orch W B) : (∀ s, view (f s) = view s) → silent (update f).
Proof. by intros Hf s x s' [= _ <-]. Qed.

Lemma silent_run {A} (f : Orch W B → A * Orch W B) : (∀ s, view (f s).2 = view s) → silent (run f).
Proof. intros Hf s x s' [= E]. specialize (Hf s). by rewrite E in Hf. Qed.

Lemma does_withs f {A} (m : Orch W B → X A) : (∀ s, does f (m s)) → does f (withs m).
Proof. intros Hm s. apply Hm. Qed.

Lemma silent_on_coverage {A} (f : CoverageTracker → CoverageTracker * A) : silent (on_coverage f).
Proof. intros s x s'. unfold on_coverage. destruct (f _) as [c a]. by intros [= _ <-]. Qed.

Lemma silent_on_machine {A} (f : W → A * W) : silent (on_machine f).
Proof. intros s x s'. unfold on_machine. destruct (f _) as [a w]. by intros [= _ <-]. Qed.

Lemma silent_event container type_ ps : silent (event (W := W) (B := B) container type_ ps).
Proof. intros s x s'. unfold event, in_fo, appendEvent, modify. by intros [= _ <-]. Qed.

Lemma does_if f {A} (b : bool) (m m' : X A) : does f m → does f m' → does f (if b then m else m').
Proof. by destruct b. Qed.

Lemma silent_for_each {A} (f : A → X unit) l : (∀ x, silent (f x)) → silent (for_each f l).
Proof. intros Hf. induction l; simpl; [apply silent_ret|by apply silent_then]. Qed.

(** A loop records what its rounds record. *)
Lemma does_loop {A} (g : View → A → View) (f : A → X unit) l : (∀ x, does (λ w, g w x) (f x)) → does (λ w, foldl g w l) (for_each f l).
Proof.
  intros Hf. induction l as [|x l IH]; simpl; [apply silent_ret|]. apply (does_bind (λ w, g w x) (λ w, foldl g w l)); [done|by intros _].
Qed.

Lemma does_any {A} (g : View → A → View) (f : A → X bool) l : (∀ x, does (λ w, g w x) (f x)) → does (λ w, foldl g w l) (any_of f l).
Proof.
  intros Hf. induction l as [|x l IH]; simpl; [apply silent_ret|]. apply (does_bind (λ w, g w x) (λ w, foldl g w l)); [done|intros b].
  apply does_then; [done|intros; apply silent_ret].
Qed.

Lemma silent_any {A} (f : A → X bool) l : (∀ x, silent (f x)) → silent (any_of f l).
Proof. intros Hf. pose proof (does_any (λ w _, w) f l Hf) as Hd. intros s a s' E. rewrite (Hd s a s' E). clear. by induction l. Qed.

Ltac quiet :=
  lazymatch goal with
  | |- silent (mret _) => apply silent_ret
  | |- silent (gets _) => apply silent_gets
  | |- silent (update _) => apply silent_update; intros ?; try done; try by destruct (slice_append _ _ _)
  | |- silent (on_coverage _) => apply silent_on_coverage
  | |- silent (on_machine _) => apply silent_on_machine
  | |- silent (perform_ _) => unfold perform_, perform
  | |- silent (event _ _ _) => apply silent_event
  | |- silent (for_each _ _) => apply silent_for_each; intros ?
  | |- silent (any_of _ _) => apply silent_any; intros ?
  | |- silent (when _ _) => unfold when
  | |- silent (withs _) => apply does_withs; intros ?
  | |- silent (mbind _ _) => apply silent_then; [|intros ?]
  | |- silent (match ?x with _ => _ end) => lazymatch type of x with bool => apply does_if | _ => destruct x end
  end.

(** ** What each operation records *)

Lemma silent_in_exp (f : Explorer → Explorer) :
  (∀ e, violations (f e) = violations e ∧ propertyCounts (f e) = propertyCounts e) → silent (in_exp (W := W) (B := B) f).
Proof. intros Hf. apply silent_update. intros s. unfold view. cbn. destruct (Hf (exp s)) as [-> ->]. done. Qed.

Lemma record_types_violations ev e : violations (record_types ev e) = violations e.
Proof.
  assert (∀ e, violations (record_sometimes ev e) = violations e ∧ violations (record_reachable ev e) = violations e) as Hr.
  { intros e0. unfold record_sometimes, record_reachable. split; by repeat case_match. }
  unfold record_types. repeat (case_bool_decide; rewrite ?(proj1 (Hr _)), ?(proj2 (Hr _))); done.
Qed.

Lemma record_eval_violations e ev : violations (RecordAssertionEval e ev) = violations e.
Proof.
  set (pc := bump (default (mkPropertyCount (AssertType ev) (Message ev) 0 0 0) (propertyCounts e !! key_of ev)) (Condition ev)).
  set (e1 := set_propertyCounts (<[key_of ev := pc]> (propertyCounts e)) e).
  change (RecordAssertionEval e ev) with
    (if Condition ev && (5 <? Total pc) && negb (states (record_types ev e1) mod 10 =? 0) then record_types ev e1
     else set_assertionEvals (assertionEvals (record_types ev e1) ++ [ev]) (record_types ev e1)).
  pose proof (record_types_violations ev e1) as Hv. by case_match.
Qed.

Lemma does_record_assertion a : does (λ w, add_eval w a) (record_assertion (W := W) (B := B) a).
Proof.
  intros s x s'. unfold record_assertion, mbind, X_bind, in_exp, update. intros [= _ <-]. unfold view, add_eval. cbn.
  rewrite record_eval_violations. destruct (record_eval_fields (RecordAssertion (exp s) (assertType a) (condition a)) (eval_of s a)) as (-> & _ & _).
  done.
Qed.

Lemma silent_put_tree t : silent (put_tree (W := W) (B := B) t).
Proof. by apply silent_update. Qed.

Lemma silent_takeSnapshot parent : silent (takeSnapshotPaused (W := W) (B := B) parent).
Proof.
  unfold takeSnapshotPaused. quiet; [quiet|]. destruct a as [h|]; [|quiet]. intros s x s'. unfold record_snapshot.
  destruct (Create _ _ _ _ _ _ _ _) as [[id|] t]; by intros [= _ <-].
Qed.

Lemma silent_set_quiet d : silent (set_quiet (W := W) (B := B) d).
Proof. unfold set_quiet. repeat quiet. by case_match. Qed.

Lemma silent_process_lifecycle container evt : silent (process_lifecycle (W := W) (B := B) container evt).
Proof. unfold process_lifecycle. repeat first [apply silent_takeSnapshot | apply silent_set_quiet | quiet]. Qed.

Lemma silent_record_sub_goals a goals : silent (record_sub_goals (W := W) (B := B) a goals).
Proof.
  unfold record_sub_goals. quiet; [by apply silent_in_exp|]. quiet. destruct (Novelty.RecordSometimesAllEval _ _).
  quiet; [by apply silent_in_exp|]. repeat quiet.
Qed.

Lemma does_process_assertion container a : does (λ w, add_eval w a) (process_assertion (W := W) (B := B) container a).
Proof.
  unfold process_assertion. apply does_then; [apply does_record_assertion|intros _].
  repeat first [apply silent_record_sub_goals | quiet].
Qed.

Lemma does_process_violation container v : does (λ w, add_violation w v) (process_violation (W := W) (B := B) container v).
Proof.
  intros s x s'. unfold process_violation, mbind, X_bind, in_exp, update, event, in_fo, appendEvent, modify. intros [= _ <-].
  unfold view, add_violation, ReportViolation. cbn. rewrite fmap_app. by case_match.
Qed.

Lemma does_process_one out : does (λ w, add_output w out) (process_one (W := W) (B := B) out).
Proof.
  unfold process_one, add_output, evaluated, found. destruct (parseAssertionOutput (odData out)) as [assertions violations]. cbn [fst snd].
  apply (does_bind (λ w, foldl add_eval w assertions) (λ w, foldl add_violation w violations)).
  { apply does_any. intros a. apply does_process_assertion. }
  intros b. apply does_then; [apply does_loop; intros v; apply does_process_violation|intros _].
  unfold process_guidance, process_choice. repeat first [apply silent_process_lifecycle | quiet].
Qed.

Lemma silent_drainOutput : silent (drainOutput (W := W) (B := B)).
Proof.
  unfold drainOutput. repeat quiet. apply silent_run. intros s. by destruct (drainGVisorOutput _ _).
Qed.

(** A violation is always new. *)
Lemma any_of_true {A} (f : A → X bool) l s b s' x : any_of f l s = Some (b, s') → x ∈ l →
  (∀ s1 b1 s2, f x s1 = Some (b1, s2) → b1 = true) → b = true.
Proof.
  revert s b s'. induction l as [|y l IH]; intros s b s' E Hx Hf; [by apply elem_of_nil in Hx|]. cbn [any_of] in E. unfold mbind, X_bind in E.
  destruct (f y s) as [[b1 s1]|] eqn:E1; [|done]. destruct (any_of f l s1) as [[b2 s2]|] eqn:E2; [|done]. injection E as <- <-.
  apply elem_of_cons in Hx as [->|Hx]; [by rewrite (Hf _ _ _ E1)|]. rewrite (IH _ _ _ E2 Hx Hf). apply orb_true_r.
Qed.

Lemma process_one_new out s b s' : process_one (W := W) (B := B) out s = Some (b, s') → found out ≠ [] → b = true.
Proof.
  unfold process_one, found. destruct (parseAssertionOutput (odData out)) as [assertions violations]. cbn [snd]. intros E Hf.
  unfold mbind, X_bind in E. repeat case_match; simplify_eq. injection E as <- <-. rewrite (bool_decide_eq_false_2 _ Hf).
  cbn. by rewrite orb_true_r.
Qed.

Definition filed (seed step insns : Z) (v : Violation) : Violation :=
  mkViolation (vProperty v) (vMessage v) 0 0 seed step insns (vDetails v) [] 0 (vConcurrentCmds v).

Lemma add_evals w l : foldl add_eval w l = w <| vw_counts := foldl count_one (vw_counts w) l |>.
Proof. revert w. induction l as [|a l IH]; intros w; simpl; [by destruct w|]. by rewrite IH. Qed.

Lemma add_violations w l :
  foldl add_violation w l = w <| vw_violations := vw_violations w ++ (filed (vw_seed w) (vw_step w) (vw_insns w) <$> l) |>.
Proof.
  revert w. induction l as [|v l IH]; intros w; simpl; [rewrite app_nil_r; by destruct w|]. rewrite IH. unfold add_violation. cbn.
  by rewrite <- app_assoc.
Qed.

Lemma add_outputs w outs : foldl add_output w outs =
  w <| vw_violations := vw_violations w ++ (filed (vw_seed w) (vw_step w) (vw_insns w) <$> concat (found <$> outs)) |>
    <| vw_counts := foldl count_one (vw_counts w) (concat (evaluated <$> outs)) |>.
Proof.
  revert w. induction outs as [|out outs IH]; intros w; simpl; [rewrite app_nil_r; by destruct w|].
  rewrite IH. unfold add_output. rewrite add_violations, add_evals. cbn. by rewrite fmap_app, foldl_app, app_assoc.
Qed.

End record.
