(* ===== verification/ExploreDemo.v ===== *)
(** * The exploration of the orchestrator: a machine to run it on

    A machine whose calls succeed and whose guest writes what it is given: the
    witnesses of the exploration's theorems, and runs that show what the code
    does. *)
From stdpp Require Import strings pretty.
From S2P Require Import Prelude Strings Word Float GoLib Json Prng TestConfig SnapshotTree SnapshotTreeInv Coverage InputTree ChoiceBuffer.
From S2P Require Import Novelty Mcts Saturation Frontier Explorer ExplorerProps Output Composer EventStore Fault Schedule Adaptive.
From S2P Require Import FaultInject FaultSetup Explore ExploreLoop ExploreProps ExploreOutput.
Local Open Scope Z_scope.

(** The clock, the actions performed, what the guest will have written by each
    drain, and whether the context is cancelled. *)
Record Demo := mkDemo { d_now : Z; d_log : list action; d_output : list (list OutputData); d_cancelled : bool }.
#[export] Instance Demo_eta : Eta Demo := mkEta _ (λ r, mkDemo (d_now r) (d_log r) (d_output r) (d_cancelled r)).

Definition demo_act (a : action) (w : Demo) : bool * Demo :=
  (false, w <| d_log := d_log w ++ [a] |> <| d_now := d_now w + match a with Sleep n => Z.max 0 n | _ => 0 end |>).

#[export] Instance demo_growth : Growth := double.

#[export] Instance demo_machine : Machine Demo := {|
  act := demo_act;
  SnapshotPaused w := (Some (1000 + Z.of_nat (length (d_log w))), w);
  DrainOutput w := match d_output w with [] => ([], w) | o :: os => (o, w <| d_output := os |>) end;
  ReadOutputFile w := (None, w);
  DrainCoverage w := ([], w);
  CollectShm w := (None, w);
  IsConnected w := (true, w);
  CheckCommandDone w := (true, w);
  cancelled w := (d_cancelled w, w);
  Now w := (d_now w, w) |}.

#[export] Instance demo_laws : MachineLaws Demo.
Proof.
  refine {| clock := d_now; dead := d_cancelled |}; intros; cbn; unfold demo_act; cbn; repeat case_match; cbn; (split || idtac); (lia || done).
Defined.

Definition demo_config : TestConfig.Config :=
  example_config <| c_Exploration := c_Exploration example_config <| ex_MaxStates := 3 |> <| ex_BranchFactor := 2 |>
    <| ex_CoverageMapSize := 64 |> |>.

Definition demo_fo (backend : string) (l : bool) : Orchestrator :=
  mkOrchestrator (FaultInject.mkRunConfig backend 42 demo_config) NewTree (Prng.New 42) l None None None NewSchedule None "" (Prng.New 7)
    None 0 0 0 0 0 0 None [].

Definition demo_comp : Composer := mkComposer example_commands (Prng.New 3) PhaseInit.

Definition demo (backend : string) (l : bool) (outs : list (list OutputData)) : Orch Demo (gset Z) :=
  mkOrch (demo_fo backend l) (Explorer.New NewTree (Explorer.mkConfig 10 3 0 StrategyBreadthFirst 42 2 64 "") None) demo_comp
    NewTracker (mkExploreConfig "" false 0 0 "" 0 0) false false false false "" "" (mkDrain 0 []) 0 0 0 0 0 0 [] no_arrays nil_slice 0
    (mkDemo 0 [] outs false).

(** A failed "always" assertion, as the SDK writes it, and other lines. *)
Definition line (key : string) (fields : list (string * json)) : OutputData :=
  mkOutputData "node1" "sdk.jsonl" (Json.print (JObj [(str key, JObj (map (λ f, (str f.1, f.2)) fields))])).

Definition demo_violation : OutputData :=
  line "openthesis_assert" [("hit", JBool true); ("condition", JBool false); ("message", JStr (str "balance")); ("assert_type", JStr (str "always"))]%string.

Definition demo_passed : OutputData :=
  line "openthesis_assert" [("hit", JBool true); ("condition", JBool true); ("message", JStr (str "balance")); ("assert_type", JStr (str "always"))]%string.

Definition demo_outputs : list (list OutputData) := [[]; []; [demo_passed; demo_violation]].

(** ** Runs *)

Definition log_id : float64 → float64 := λ x, x.

Definition demo_run (s : Orch Demo (gset Z)) :=
  explore (H1 := never) log_id (explore_fuel s) 1000 None false s.

Definition restores (l : list action) : list Z := omap (λ a, match a with Restore id => Some id | _ => None end) l.
Definition saves (l : list action) : list Z := omap (λ a, match a with SaveRootSnapshot _ id _ => Some id | _ => None end) l.

(** The phase "eventually" does not restore the root snapshot: the hypervisor
    is given the tree's identifier of it, 1, where all the steps restore by the
    hypervisor's. *)
Theorem eventually_restores_tree_id :
  match demo_run (demo BackendFirecracker true demo_outputs) with
  | Some (_, s') =>
      restores (d_log (machine s')) = [1009; 1009; 1028; 1] ∧
      HypervisorID (tree (fo s')) 1 = Ok 1009
  | None => False
  end.
Proof. vm_compute. by split. Qed.

(** A branch point does not stop the run: with a branch point after one state
    the run goes on to the limit, saving a snapshot each time. *)
Theorem branch_point_goes_on :
  let s := demo BackendFirecracker true [] in
  match demo_run (s <| xcfg := mkExploreConfig "" false 0 1 "/branch" 0 0 |>) with
  | Some (Some (reason, result), s') =>
      reason = ByStates ∧ rTotalStates result = 3 ∧
      length (saves (d_log (machine s'))) = 3%nat
  | _ => False
  end.
Proof. vm_compute. by split_and!. Qed.

(** What polling makes of the violation that [processOutput] files with its
    burst length: one without, so that no replay can run it. *)
Theorem polling_loses_burst_length :
  let s := demo BackendGVisor false [] <| currentBurstInsns := 5000000 |> in
  match poll_one demo_violation s, process_one demo_violation s with
  | Some (_, polled), Some (_, processed) =>
      vBurstInsns <$> violations (exp polled) = [0] ∧ vBurstInsns <$> violations (exp processed) = [5000000]
  | _, _ => False
  end.
Proof. vm_compute. by split. Qed.

(** ** Witnesses *)

Lemma demo_fresh outs : fresh (demo BackendFirecracker true outs).
Proof. by split. Qed.


Lemma demo_Inv outs : Inv 2 (demo BackendFirecracker true outs).
Proof. split; try done; [apply wf_NewTree|]. cbn. intros id Hid. by apply elem_of_nil in Hid. Qed.

