(* ===== verification/Analyses.v ===== *)
(** * Replaying a violation and what is computed from replays
    ([internal/orchestrator/replay.go], [likelihood.go], [multiverse.go])

    [Replay] prepares a run, runs it and compares violations; [ComputeLikelihood]
    and [Branch] count how many replays reproduce a violation.  All copies of a
    run configuration share one test configuration through its pointer, which
    [Replay] and [ComputeLikelihood] write: it is part of the state.  Runs, the
    context and files are the class [Replays], whose answers depend on the runs
    made before.  The trials of a checkpoint run concurrently; they only add to
    a counter and write equal values, and are modelled in their order.  A
    schedule file holds what decoding its content gives. *)
From stdpp Require Import strings pretty.
From S2P Require Import Prelude Strings Word Float GoLib TestConfig Fault Schedule.
Local Open Scope Z_scope.

(** ** Data *)

(** The fields of [RunConfig] that the analyses read or write, the pointer to
    the test configuration left out. *)
Record RunConfig := mkRunConfig {
  rc_Seed : Z; rc_FaultSchedulePath : string; rc_RootSnapshotPath : string; rc_ConcurrentCmds : Z;
  rc_StopOnFirstViolation : bool; rc_BranchAtStates : Z; rc_BranchSnapshotDir : string; rc_TrialIndex : Z }.
#[export] Instance RunConfig_eta : Eta RunConfig := mkEta _ (λ r,
  mkRunConfig (rc_Seed r) (rc_FaultSchedulePath r) (rc_RootSnapshotPath r) (rc_ConcurrentCmds r)
    (rc_StopOnFirstViolation r) (rc_BranchAtStates r) (rc_BranchSnapshotDir r) (rc_TrialIndex r)).

Record Artifact := mkArtifact {
  ar_Property : string; ar_Message : string; ar_Seed : Z; ar_Step : Z; ar_FaultSchedule : string;
  ar_RootSnapshot : string; ar_ConcurrentCmds : Z }.

Record ViolationEntry := mkViolationEntry { vi_Property : string; vi_Message : string; vi_Step : Z }.

(** The exported fields of [fault.Schedule]. *)
Record ScheduleFile := mkScheduleFile { sf_Entries : list ScheduleEntry; sf_SwarmProfile : option SwarmProfile }.

(** What [New] and [Run] are given: the configuration, the test configuration at
    that time, and the schedule in the file. *)
Record run := mkRun { run_cfg : RunConfig; run_test : Config; run_schedule : option ScheduleFile }.

Class Replays := {
  exec : list run → run → option (list ViolationEntry);
  cancelled : list run → bool;
  stat : list run → string → bool;
  mkdirTemp : option string;
  mkdirAll : string → bool;
  writeFile : string → bool }.

(** A file that is there holds a schedule, or something else ([None]). *)
Record State := mkState { test : Config; files : gmap string (option ScheduleFile); runs : list run }.
#[export] Instance State_eta : Eta State := mkEta _ (λ r, mkState (test r) (files r) (runs r)).

Definition M (A : Type) : Type := State → A * State.
#[export] Instance M_ret : MRet M := λ A a s, (a, s).
#[export] Instance M_bind : MBind M := λ A B k m s, let '(a, s) := m s in k a s.

Definition get : M State := λ s, (s, s).
Definition modify (f : State → State) : M unit := λ s, (tt, f s).

Section analyses.
Context `{Replays}.

Definition ctx_Err : M bool := λ s, (cancelled (runs s), s).

(** [os.WriteFile] of a schedule. *)
Definition write (path : string) (f : ScheduleFile) : M bool := λ s,
  if writeFile path then (true, s <| files := <[path := Some f]> (files s) |>) else (false, s).

(** ** Replay *)

Record ReplayResult := mkReplayResult {
  Matched : option ViolationEntry; AllViolations : list ViolationEntry; Reproduced : bool }.

(** [artifact.Step + artifact.Step/5 + 50], and at least 200. *)
Definition maxReplayStates (a : Artifact) : Z :=
  let m := u64 (u64 (ar_Step a + ar_Step a / 5) + 50) in if m <? 200 then 200 else m.

(** The two writes through the shared pointer. *)
Definition cap_states (a : Artifact) (c : Config) : Config :=
  let x := c_Exploration c in
  let x := if (ex_MaxStates x =? 0) || (maxReplayStates a <? ex_MaxStates x)
           then x <| ex_MaxStates := maxReplayStates a |> else x in
  c <| c_Exploration := x |> <| c_Duration := "15m"%string |>.

(** The loop over the violations: the exact match, else the first of the same
    property. *)
Fixpoint match_violation (a : Artifact) (byProperty : option ViolationEntry) (vs : list ViolationEntry) : option ViolationEntry :=
  match vs with
  | [] => byProperty
  | v :: vs =>
      if bool_decide (vi_Property v = ar_Property a) && bool_decide (vi_Message v = ar_Message a) then Some v
      else
        match_violation a
          (if bool_decide (vi_Property v = ar_Property a) then match byProperty with None => Some v | _ => byProperty end
           else byProperty) vs
  end.

(** The run configuration of a replay. *)
Definition replay_cfg (st : string → bool) (cfg : RunConfig) (a : Artifact) : RunConfig :=
  let cfg := if bool_decide (rc_FaultSchedulePath cfg = ""%string) && negb (bool_decide (ar_FaultSchedule a = ""%string))
             then cfg <| rc_FaultSchedulePath := ar_FaultSchedule a |> else cfg in
  let cfg := if rc_Seed cfg =? 0 then cfg <| rc_Seed := ar_Seed a |> else cfg in
  let cfg := if bool_decide (rc_RootSnapshotPath cfg = ""%string) && negb (bool_decide (ar_RootSnapshot a = ""%string)) &&
                st (ar_RootSnapshot a)
             then cfg <| rc_RootSnapshotPath := Dir (ar_RootSnapshot a) |> else cfg in
  let cfg := if 1 <? ar_ConcurrentCmds a then cfg <| rc_ConcurrentCmds := ar_ConcurrentCmds a |> else cfg in
  cfg <| rc_StopOnFirstViolation := true |>.

(** What the run of a replay is given. *)
Definition replay_run (cfg : RunConfig) (a : Artifact) (s : State) : run :=
  let cfg := replay_cfg (stat (runs s)) cfg a in
  mkRun cfg (cap_states a (test s)) (default None (files s !! rc_FaultSchedulePath cfg)).

(** [None] for a nil artifact.  An error of [New] or [Run] is one error here. *)
Definition Replay (cfg : RunConfig) (artifact : option Artifact) : M (result string ReplayResult) :=
  match artifact with
  | None => mret (Err "orchestrator replay: artifact is required"%string)
  | Some a => λ s,
      let r := replay_run cfg a s in
      (match exec (runs s) r with
       | None => Err "orchestrator replay: run"%string
       | Some vs => let m := match_violation a None vs in Ok (mkReplayResult m vs (bool_decide (is_Some m)))
       end, s <| test := run_test r |> <| runs := runs s ++ [r] |>)
  end.

(** ** Counting reproductions *)

Definition reproduces (r : result string ReplayResult) : bool := match r with Ok x => Reproduced x | Err _ => false end.

(** The goroutines of [runTrials], from trial [i] on: how many reproduced, and
    whether one failed. *)
Fixpoint trials (n : nat) (i : Z) (cfg : Z → RunConfig) (artifact : Artifact) : M (Z * bool) :=
  match n with
  | O => mret (0, false)
  | S n =>
      stop ← ctx_Err;
      if stop : bool then mret (0, false)
      else
        r ← Replay (cfg i) (Some artifact);
        '(reps, failed) ← trials n (i + 1) cfg artifact;
        mret ((if reproduces r then 1 else 0) + reps, negb (is_ok r) || failed)
  end.

Definition rate (reps n : Z) : float64 := fdiv (float_of_Z reps) (float_of_Z n).

(** ** Likelihood over time *)

Record CheckpointProbe := mkProbe {
  Label : string; StepCutoff : Z; FaultCount : Z; ProbeRate : float64; Trials : Z; Reproductions : Z }.

Record LikelihoodResult := mkLikelihoodResult {
  lk_Property : string; lk_Message : string; ViolationStep : Z; Probes : list CheckpointProbe;
  InceptionIdx : Z; InceptionStep : Z; InceptionLabel : string }.

Definition filterAfter (entries : list ScheduleEntry) (stepCutoff : Z) : list ScheduleEntry :=
  filter (λ e, stepCutoff < Step e) entries.

Definition percentiles : list (string * Z) := [("0%", 0); ("25%", 25); ("50%", 50); ("75%", 75); ("100%", 100)]%string.

Definition cutoff (violationStep percent : Z) : Z :=
  if percent =? 0 then 0 else mul64 violationStep percent / 100.

Definition setup_count (percent stepCutoff : Z) (es : list ScheduleEntry) : Z :=
  Z.of_nat (count_if (λ e, (percent =? 100) || (Step e <=? stepCutoff)) es).

(** The trials of a checkpoint; their error is always nil. *)
Definition likelihood_trials (cfg : RunConfig) (a : Artifact) (schedPath branchSnapshotDir : string) (n : Z) : M Z :=
  '(reps, _) ← trials (Z.to_nat n) 0 (λ _,
     let c := cfg <| rc_FaultSchedulePath := schedPath |> in
     if bool_decide (branchSnapshotDir = ""%string) then c else c <| rc_RootSnapshotPath := branchSnapshotDir |>) a;
  mret reps.

(** The setup replay of an inner checkpoint: the directory of the branch
    snapshot when it was saved, else the empty string. *)
Definition branch_setup (cfg : RunConfig) (a : Artifact) (schedulePath tempDir label : string) (stepCutoff : Z) : M string :=
  let branchDir := Join tempDir ("branch-" +:+ label) in
  if negb (mkdirAll branchDir) then mret ""%string
  else
    let branchCfg := cfg <| rc_FaultSchedulePath := schedulePath |> <| rc_BranchAtStates := stepCutoff |>
                         <| rc_BranchSnapshotDir := branchDir |> in
    _ ← modify (λ s, s <| test := test s <| c_Exploration := c_Exploration (test s) <| ex_MaxStates := add64 stepCutoff 10 |> |> |>);
    _ ← Replay branchCfg (Some a);
    s ← get;
    mret (if stat (runs s) (Join (Join branchDir "root-snapshot") "meta.json") then branchDir else ""%string).

(** One checkpoint: the reproductions, or an error; and the counter of files. *)
Definition checkpoint (cfg : RunConfig) (n : Z) (a : Artifact) (orig : ScheduleFile) (schedulePath tempDir label : string)
    (percent stepCutoff : Z) (fileIdx : Z) : M (result string Z * Z) :=
  if percent =? 0 then
    let emptyPath := Join tempDir "checkpoint-0pct-empty.json" in
    ok ← write emptyPath (mkScheduleFile [] (sf_SwarmProfile orig));
    if negb ok then mret (Err "likelihood: write empty schedule"%string, fileIdx)
    else reps ← likelihood_trials cfg a emptyPath "" n; mret (Ok reps, fileIdx)
  else if percent =? 100 then
    reps ← likelihood_trials cfg a schedulePath "" n; mret (Ok reps, fileIdx)
  else
    branchSnapshotDir ← branch_setup cfg a schedulePath tempDir label stepCutoff;
    let fileIdx := fileIdx + 1 in
    let remainingPath := Join tempDir ("remaining-" +:+ label +:+ "-" +:+ pretty fileIdx +:+ ".json") in
    ok ← write remainingPath (mkScheduleFile (filterAfter (sf_Entries orig) stepCutoff) (sf_SwarmProfile orig));
    if negb ok then mret (Err "likelihood: write remaining schedule"%string, fileIdx)
    else if bool_decide (branchSnapshotDir = ""%string) then
      let fileIdx := fileIdx + 1 in
      let filteredPath := Join tempDir ("checkpoint-" +:+ label +:+ "-" +:+ pretty fileIdx +:+ ".json") in
      ok ← write filteredPath (mkScheduleFile (filter (λ e, Step e ≤ stepCutoff) (sf_Entries orig)) (sf_SwarmProfile orig));
      if negb ok then mret (Err "likelihood: write truncated schedule"%string, fileIdx)
      else reps ← likelihood_trials cfg a filteredPath "" n; mret (Ok reps, fileIdx)
    else reps ← likelihood_trials cfg a remainingPath branchSnapshotDir n; mret (Ok reps, fileIdx).

(** The loop over the checkpoints. *)
Fixpoint checkpoints (cfg : RunConfig) (n : Z) (a : Artifact) (orig : ScheduleFile) (schedulePath tempDir : string)
    (cps : list (string * Z)) (fileIdx : Z) : M (result string (list CheckpointProbe)) :=
  match cps with
  | [] => mret (Ok [])
  | (label, percent) :: cps =>
      stop ← ctx_Err;
      if stop : bool then mret (Ok [])
      else
        let stepCutoff := cutoff (ar_Step a) percent in
        let setupFaults := setup_count percent stepCutoff (sf_Entries orig) in
        '(r, fileIdx) ← checkpoint cfg n a orig schedulePath tempDir label percent stepCutoff fileIdx;
        match r with
        | Err e => mret (Err e)
        | Ok reps =>
            rest ← checkpoints cfg n a orig schedulePath tempDir cps fileIdx;
            mret match rest with
                 | Err e => Err e
                 | Ok ps => Ok (mkProbe label stepCutoff setupFaults (rate reps n) n reps :: ps)
                 end
        end
  end.

(** The last loop: the first probe above one half. *)
Definition inception (ps : list CheckpointProbe) : Z * Z * string :=
  match find_index (λ p, fgt (ProbeRate p) (flit 1 2)) ps with
  | None => (-1, 0, ""%string)
  | Some i => match ps !! i with Some p => (Z.of_nat i, StepCutoff p, Label p) | None => (-1, 0, ""%string) end
  end.

(** The schedule that both analyses start from: its path and its content. *)
Definition load_schedule (who : string) (cfg : RunConfig) (a : Artifact) : M (result string (string * ScheduleFile)) := λ s,
  let schedulePath := if bool_decide (rc_FaultSchedulePath cfg = ""%string) then ar_FaultSchedule a else rc_FaultSchedulePath cfg in
  if bool_decide (schedulePath = ""%string) then (Err (who +:+ ": no fault schedule path in config or artifact"), s)
  else match files s !! schedulePath with
       | None => (Err (who +:+ ": read schedule"), s)
       | Some None => (Err (who +:+ ": parse schedule"), s)
       | Some (Some f) => (Ok (schedulePath, f), s)
       end.

Definition ComputeLikelihood (cfg : RunConfig) (TrialsPerCheckpoint : Z) (artifact : option Artifact) :
    M (result string LikelihoodResult) :=
  match artifact with
  | None => mret (Err "likelihood: artifact is required"%string)
  | Some a =>
      let n := if TrialsPerCheckpoint <=? 0 then 20 else TrialsPerCheckpoint in
      let cfg := if rc_Seed cfg =? 0 then cfg <| rc_Seed := ar_Seed a |> else cfg in
      sched ← load_schedule "likelihood" cfg a;
      match sched with
      | Err e => mret (Err e)
      | Ok (schedulePath, orig) =>
          if ar_Step a =? 0 then mret (Err "likelihood: artifact has no violation step"%string)
          else
            match mkdirTemp with
            | None => mret (Err "likelihood: mktemp"%string)
            | Some tempDir =>
                r ← checkpoints cfg n a orig schedulePath tempDir percentiles 0;
                mret match r with
                     | Err e => Err e
                     | Ok ps =>
                         let '(idx, st, label) := inception ps in
                         Ok (mkLikelihoodResult (ar_Property a) (ar_Message a) (ar_Step a) ps idx st label)
                     end
            end
      end
  end.

(** ** Causal attribution *)

Record CausalEntry := mkCausalEntry {
  ce_FaultKind : string; WithRate : float64; WithoutRate : float64; Strength : float64; ce_Trials : Z; ce_Reproductions : Z }.

Record BranchResult := mkBranchResult {
  BaselineRate : float64; BaselineTrials : Z; Attribution : list CausalEntry; MostCausal : string }.

(** The kinds of the schedule in the order of their first entry. *)
Definition schedule_kinds (es : list ScheduleEntry) : list string :=
  foldl (λ ks e, let k := FaultKind e in
    if negb (bool_decide (k = ""%string)) && negb (bool_decide (k ∈ ks)) then ks ++ [k] else ks) [] es.

(** The trials with one schedule; an error when one trial failed and none
    reproduced the violation. *)
Definition branch_trials (cfg : RunConfig) (a : Artifact) (schedPath : string) (n : Z) : M (option Z) :=
  '(reps, failed) ← trials (Z.to_nat n) 0 (λ i, cfg <| rc_FaultSchedulePath := schedPath |> <| rc_TrialIndex := i + 1 |>) a;
  mret (if failed && (reps =? 0) then None else Some reps).

(** The loop over the kinds, with the counter of files. *)
Fixpoint attribute (cfg : RunConfig) (n : Z) (a : Artifact) (orig : ScheduleFile) (tempDir : string) (baselineRate : float64)
    (kinds : list string) (fileCounter : Z) : M (result string (list CausalEntry)) :=
  match kinds with
  | [] => mret (Ok [])
  | kind :: kinds =>
      stop ← ctx_Err;
      if stop : bool then mret (Ok [])
      else
        let fileCounter := fileCounter + 1 in
        let filteredPath := Join tempDir ("no-" +:+ kind +:+ "-" +:+ pretty fileCounter +:+ ".json") in
        ok ← write filteredPath (mkScheduleFile (filter (λ e, FaultKind e ≠ kind) (sf_Entries orig)) (sf_SwarmProfile orig));
        if negb ok then mret (Err "multiverse: write filtered schedule"%string)
        else
          r ← branch_trials cfg a filteredPath n;
          let without := default 0 r in
          let withoutRate := rate without n in
          let entry := mkCausalEntry kind baselineRate withoutRate (fsub baselineRate withoutRate) n without in
          rest ← attribute cfg n a orig tempDir baselineRate kinds fileCounter;
          mret match rest with Err e => Err e | Ok es => Ok (entry :: es) end
  end.

Definition by_strength (x y : CausalEntry) : bool := fgt (Strength x) (Strength y).

Definition most_causal (es : list CausalEntry) : string :=
  match es with
  | e :: _ => if fgt (Strength e) fzero then ce_FaultKind e else ""
  | [] => ""
  end.

Definition Branch (cfg : RunConfig) (TrialsPerConfig : Z) (FaultKindsToTest : list string) (artifact : option Artifact) :
    M (result string BranchResult) :=
  match artifact with
  | None => mret (Err "multiverse: artifact is required"%string)
  | Some a =>
      let n := if TrialsPerConfig <=? 0 then 10 else TrialsPerConfig in
      let cfg := if rc_Seed cfg =? 0 then cfg <| rc_Seed := ar_Seed a |> else cfg in
      sched ← load_schedule "multiverse" cfg a;
      match sched with
      | Err e => mret (Err e)
      | Ok (schedulePath, orig) =>
          let kindsToTest := match FaultKindsToTest with [] => schedule_kinds (sf_Entries orig) | ks => ks end in
          match mkdirTemp with
          | None => mret (Err "multiverse: mktemp"%string)
          | Some tempDir =>
              base ← branch_trials cfg a schedulePath n;
              match base with
              | None => mret (Err "multiverse: baseline replay"%string)
              | Some reps =>
                  let baselineRate := rate reps n in
                  r ← attribute cfg n a orig tempDir baselineRate kindsToTest 0;
                  mret match r with
                       | Err e => Err e
                       | Ok es => let es := sort_by by_strength es in Ok (mkBranchResult baselineRate n es (most_causal es))
                       end
              end
          end
      end
  end.
End analyses.

(** ** Specification *)

Definition max_states (c : Config) : Z := ex_MaxStates (c_Exploration c).

(** The limit a replay runs under, from the one it finds. *)
Definition cap_of (a : Artifact) (m : Z) : Z := if (m =? 0) || (maxReplayStates a <? m) then maxReplayStates a else m.

(** A violation is the recorded one: the property decides. *)
Definition same_property (a : Artifact) (v : ViolationEntry) : Prop := vi_Property v = ar_Property a.
Definition same_violation (a : Artifact) (v : ViolationEntry) : Prop := same_property a v ∧ vi_Message v = ar_Message a.

Section spec.
Context `{Replays}.

(** How many of the runs [rs], made after [before], reproduce the violation. *)
Fixpoint reproductions (a : Artifact) (before rs : list run) : Z :=
  match rs with
  | [] => 0
  | r :: rs =>
      (match exec before r with
       | Some vs => if bool_decide (is_Some (match_violation a None vs)) then 1 else 0
       | None => 0
       end) + reproductions a (before ++ [r]) rs
  end.

(** Nothing fails but the runs, and nobody cancels. *)
Record undisturbed : Prop := {
  und_cancel rs : cancelled rs = false;
  und_temp : ∃ dir, mkdirTemp = Some dir ∧ IsAbs dir = true;
  und_dir p : mkdirAll p = true;
  und_write p : writeFile p = true }.

(** The curve of the checkpoints [cps]: each probe has the rate at which [n] runs
    reproduced the violation, after the setup runs of its checkpoint, all under
    the limit of its checkpoint; [m] is the limit found, [before] the runs so far
    and [after] all runs. *)
Fixpoint curve (a : Artifact) (n : Z) (orig : ScheduleFile) (cps : list (string * Z)) (ps : list CheckpointProbe)
    (m : Z) (before after : list run) : Prop :=
  match cps, ps with
  | [], [] => after = before
  | (label, percent) :: cps, p :: ps =>
      let inner := negb ((percent =? 0) || (percent =? 100)) in
      let sc := cutoff (ar_Step a) percent in
      let limit := cap_of a (if inner then add64 sc 10 else m) in
      ∃ setup rs, length setup = (if inner then 1 else 0)%nat ∧ length rs = Z.to_nat n ∧
        Forall (λ r, max_states (run_test r) = limit) (setup ++ rs) ∧
        p = mkProbe label sc (setup_count percent sc (sf_Entries orig))
              (rate (reproductions a (before ++ setup) rs) n) n (reproductions a (before ++ setup) rs) ∧
        curve a n orig cps ps limit (before ++ setup ++ rs) after
  | _, _ => False
  end.

(** The attribution to the kinds: for each one [n] runs with the schedule that
    lacks it. *)
Fixpoint attributed (a : Artifact) (n : Z) (orig : ScheduleFile) (base : float64) (kinds : list string) (es : list CausalEntry)
    (before after : list run) : Prop :=
  match kinds, es with
  | [], [] => after = before
  | kind :: kinds, e :: es => ∃ rs, length rs = Z.to_nat n ∧
      Forall (λ r, run_schedule r = Some (mkScheduleFile (filter (λ e, FaultKind e ≠ kind) (sf_Entries orig)) (sf_SwarmProfile orig))) rs ∧
      (let reps := reproductions a before rs in e = mkCausalEntry kind base (rate reps n) (fsub base (rate reps n)) n reps) ∧
      attributed a n orig base kinds es (before ++ rs) after
  | _, _ => False
  end.

(** ** Lemmas *)

Lemma match_violation_spec a vs : ∀ b, (∀ v, b = Some v → same_property a v) →
  match match_violation a b vs with
  | Some v => same_property a v ∧ (v ∈ vs ∨ b = Some v) ∧ (same_violation a v ∨ (∀ w, w ∈ vs → ¬ same_violation a w))
  | None => b = None ∧ ∀ w, w ∈ vs → ¬ same_property a w
  end.
Proof.
  induction vs as [|v vs IH]; intros b Hb; cbn [match_violation].
  { destruct b as [v|]; [|by split; [|intros w ?%elem_of_nil]]. split_and!; [by apply Hb|by right|right; by intros w ?%elem_of_nil]. }
  destruct (decide (vi_Property v = ar_Property a)) as [Hp|Hp].
  - rewrite (bool_decide_eq_true_2 (_ = ar_Property a)) by done. destruct (decide (vi_Message v = ar_Message a)) as [Hm|Hm].
    + rewrite bool_decide_eq_true_2 by done. cbn [andb]. split_and!; [done|left; by left|by left].
    + rewrite bool_decide_eq_false_2 by done. cbn [andb]. specialize (IH (match b with None => Some v | _ => b end)).
      destruct (match_violation a _ vs) as [w|].
      * destruct IH as (H1 & H2 & H3); [destruct b; naive_solver|]. split_and!; [done| |].
        { destruct H2 as [H2|H2]; [left; by right|]. destruct b; [by right|]. injection H2 as <-. left. by left. }
        destruct H3 as [H3|H3]; [by left|right]. intros x [->|Hx]%elem_of_cons; [by intros [_ ?]|by apply H3].
      * destruct IH as (H1 & H2); [destruct b; naive_solver|]. by destruct b.
  - rewrite (bool_decide_eq_false_2 (_ = ar_Property a)) by done. cbn [andb]. specialize (IH b Hb).
    destruct (match_violation a b vs) as [w|].
    + destruct IH as (H1 & H2 & H3). split_and!; [done|destruct H2; [left; by right|by right]|].
      destruct H3 as [H3|H3]; [by left|right]. intros x [->|Hx]%elem_of_cons; [by intros [? _]|by apply H3].
    + destruct IH as (H1 & H2). split; [done|]. intros w [->|Hw]%elem_of_cons; [done|by apply H2].
Qed.

Lemma maxReplayStates_pos a : 200 ≤ maxReplayStates a.
Proof. unfold maxReplayStates. cbv zeta. match goal with |- context [?m <? 200] => destruct (Z.ltb_spec m 200) end; lia. Qed.

Lemma cap_states_max a c : max_states (cap_states a c) = cap_of a (max_states c).
Proof. unfold cap_states, cap_of, max_states. cbn. by destruct (_ || _). Qed.

Lemma cap_of_kept a m : (cap_of a m =? 0) || (maxReplayStates a <? cap_of a m) = false.
Proof.
  unfold cap_of. pose proof (maxReplayStates_pos a). destruct ((m =? 0) || _) eqn:E; [|done].
  by rewrite Z.ltb_irrefl, orb_false_r, (proj2 (Z.eqb_neq _ _)) by lia.
Qed.

Lemma cap_of_idem a m : cap_of a (cap_of a m) = cap_of a m.
Proof. unfold cap_of at 1. by rewrite cap_of_kept. Qed.

Lemma cap_states_idem a c : cap_states a (cap_states a c) = cap_states a c.
Proof.
  pose proof (cap_of_kept a (max_states c)) as E. rewrite <- cap_states_max in E. unfold max_states in E.
  set (c' := cap_states a c) in *. assert (c_Duration c' = "15m"%string) as Hd by done. clearbody c'.
  unfold cap_states. rewrite E. destruct c'. cbn in *. by subst.
Qed.

(** One replay: one more run, under the cap. *)
Lemma Replay_spec cfg a s :
  let r := replay_run cfg a s in
  run_test r = cap_states a (test s) ∧
  (rc_FaultSchedulePath cfg ≠ ""%string → run_schedule r = default None (files s !! rc_FaultSchedulePath cfg)) ∧
  (Replay cfg (Some a) s).2 = s <| test := cap_states a (test s) |> <| runs := runs s ++ [r] |> ∧
  (if reproduces (Replay cfg (Some a) s).1 then 1 else 0) = reproductions a (runs s) [r].
Proof.
  split_and!; [reflexivity| |reflexivity|].
  - intros Hne. unfold replay_run. cbn [run_schedule].
    assert (rc_FaultSchedulePath (replay_cfg (stat (runs s)) cfg a) = rc_FaultSchedulePath cfg) as ->; [|done].
    unfold replay_cfg. rewrite (bool_decide_eq_false_2 (rc_FaultSchedulePath cfg = ""%string)) by done. cbn [andb].
    repeat case_match; done.
  - unfold Replay. cbn [reproductions fst]. destruct (exec (runs s) (replay_run cfg a s)) as [vs|]; [|done].
    cbn [reproduces Reproduced]. by rewrite Z.add_0_r.
Qed.

Lemma reproductions_bound a rs : ∀ before, 0 ≤ reproductions a before rs ≤ Z.of_nat (length rs).
Proof. induction rs as [|r rs IH]; intros before; cbn [reproductions length]; [done|]. specialize (IH (before ++ [r])). repeat case_match; lia. Qed.

(** The trials: as many runs, alike. *)
Lemma trials_spec (Hcancel : ∀ rs, cancelled rs = false) a path cfg (Hpath : ∀ i, rc_FaultSchedulePath (cfg i) = path) n : ∀ i s,
  ∃ rs failed s', trials n i cfg a s = ((reproductions a (runs s) rs, failed), s') ∧ length rs = n ∧
    runs s' = runs s ++ rs ∧ files s' = files s ∧ (n ≠ O → test s' = cap_states a (test s)) ∧ (n = O → test s' = test s) ∧
    Forall (λ r, run_test r = cap_states a (test s) ∧ (path ≠ ""%string → run_schedule r = default None (files s !! path))) rs.
Proof.
  induction n as [|n IH]; intros i s.
  { exists [], false, s. cbn. rewrite app_nil_r. split_and!; done. }
  cbn [trials]. unfold mbind, M_bind, ctx_Err. rewrite Hcancel.
  destruct (Replay_spec (cfg i) a s) as (Ht & Hs & Hst & Hrep). set (r := replay_run (cfg i) a s) in *. rewrite Hpath in Hs.
  destruct (Replay (cfg i) (Some a) s) as [res s1]. cbn [fst snd] in *.
  destruct (IH (i + 1) s1) as (rs & failed & s' & E & Hlen & Hruns & Hfiles & Htest & Htest0 & HF). rewrite E.
  assert (test s1 = cap_states a (test s) ∧ runs s1 = runs s ++ [r] ∧ files s1 = files s) as (Ht1 & Hr1 & Hf1) by (by subst s1).
  exists (r :: rs), (negb (is_ok res) || failed), s'. split_and!.
  - rewrite Hrep, Hr1. cbn. by rewrite Z.add_0_r.
  - cbn. by rewrite Hlen.
  - by rewrite Hruns, Hr1, <- app_assoc.
  - by rewrite Hfiles.
  - intros _. destruct n; [by rewrite Htest0|]. rewrite Htest by done. by rewrite Ht1, cap_states_idem.
  - done.
  - constructor; [done|]. by rewrite Ht1, cap_states_idem, Hf1 in HF.
Qed.

Lemma write_ok (Hu : undisturbed) path f s : write path f s = (true, s <| files := <[path := Some f]> (files s) |>).
Proof. unfold write. by rewrite (und_write Hu). Qed.

(** What a checkpoint leaves: its runs, the first [pre] of them to set it up,
    and the limit of all of them. *)
Definition checkpoint_result (a : Artifact) (pre n : nat) (limit : Z) (s : State) (reps : Z) (s' : State) : Prop := ∃ setup rs,
  length setup = pre ∧ length rs = n ∧ runs s' = runs s ++ setup ++ rs ∧ reps = reproductions a (runs s ++ setup) rs ∧
  max_states (test s') = limit ∧ Forall (λ r, max_states (run_test r) = limit) (setup ++ rs).

Lemma likelihood_trials_result (Hu : undisturbed) cfg a path dir n s : 0 < n →
  ∃ reps s', likelihood_trials cfg a path dir n s = (reps, s') ∧ files s' = files s ∧
    checkpoint_result a 0 (Z.to_nat n) (cap_of a (max_states (test s))) s reps s'.
Proof.
  intros Hn. unfold likelihood_trials, mbind, M_bind. match goal with |- context [trials _ _ ?f] => set (c := f) end.
  destruct (trials_spec (und_cancel Hu) a path c) with (n := Z.to_nat n) (i := 0) (s := s) as
    (rs & failed & s' & E & Hlen & Hruns & Hfiles & Htest & _ & HF).
  { intros i. unfold c. by case_bool_decide. }
  rewrite E. eexists _, s'. split; [done|]. split; [done|]. exists [], rs. rewrite app_nil_r, app_nil_l.
  split_and!; [done|done|done|done| |].
  - rewrite Htest by lia. apply cap_states_max.
  - eapply Forall_impl; [exact HF|]. intros r [-> _]. apply cap_states_max.
Qed.

Lemma branch_setup_result (Hu : undisturbed) cfg a sp tmp label sc s :
  ∃ dir r s', branch_setup cfg a sp tmp label sc s = (dir, s') ∧ runs s' = runs s ++ [r] ∧ files s' = files s ∧
    max_states (run_test r) = cap_of a (add64 sc 10) ∧ max_states (test s') = cap_of a (add64 sc 10).
Proof.
  unfold branch_setup. rewrite (und_dir Hu). cbn [negb]. unfold mbind, M_bind, modify, get.
  set (s1 := s <| test := _ |>). match goal with |- context [Replay ?c _ _] => set (bc := c) end.
  destruct (Replay_spec bc a s1) as (Ht & _ & Hst & _). set (r := replay_run bc a s1) in *.
  destruct (Replay bc (Some a) s1) as [res s2]. cbn [snd] in Hst. subst s2.
  eexists _, r, _. split; [reflexivity|]. split_and!; [done|done| |].
  - by rewrite Ht, cap_states_max.
  - apply cap_states_max.
Qed.

Lemma checkpoint_result_weaken a n limit s1 reps s' s setup :
  checkpoint_result a 0 n limit s1 reps s' → runs s1 = runs s ++ setup → Forall (λ r, max_states (run_test r) = limit) setup →
  checkpoint_result a (length setup) n limit s reps s'.
Proof.
  intros (pre & rs & Hpre & Hn & Hr & Hreps & Hl & HF) Hs1 Hset. apply length_zero_iff_nil in Hpre as ->.
  rewrite app_nil_r in Hreps. rewrite app_nil_l in HF. exists setup, rs. rewrite Hs1 in *.
  split_and!; [done|done|by rewrite Hr, <- app_assoc|done|done|by apply Forall_app].
Qed.

(** The limit under which the runs of a checkpoint are made. *)
Definition checkpoint_limit (a : Artifact) (percent m : Z) : Z :=
  if (percent =? 0) || (percent =? 100) then cap_of a m else cap_of a (add64 (cutoff (ar_Step a) percent) 10).

Lemma checkpoint_spec (Hu : undisturbed) cfg n a orig sp tmp label percent idx s : 0 < n →
  ∃ reps idx' s', checkpoint cfg n a orig sp tmp label percent (cutoff (ar_Step a) percent) idx s = ((Ok reps, idx'), s') ∧
    checkpoint_result a (if (percent =? 0) || (percent =? 100) then 0 else 1) (Z.to_nat n)
      (checkpoint_limit a percent (max_states (test s))) s reps s'.
Proof.
  intros Hn. unfold checkpoint, checkpoint_limit. destruct (percent =? 0); [|destruct (percent =? 100)]; cbn [orb].
  - unfold mbind, M_bind. rewrite (write_ok Hu). cbn [negb].
    match goal with |- context [likelihood_trials _ _ ?p ?d _ ?s0] => destruct (likelihood_trials_result Hu cfg a p d n s0 Hn) as (reps & s' & E & _ & Hc) end.
    rewrite E. eexists _, _, s'. split; [done|exact Hc].
  - unfold mbind, M_bind.
    destruct (likelihood_trials_result Hu cfg a sp "" n s Hn) as (reps & s' & E & _ & Hc).
    rewrite E. eexists _, _, s'. split; [done|exact Hc].
  - set (sc := cutoff (ar_Step a) percent).
    destruct (branch_setup_result Hu cfg a sp tmp label sc s) as (dir & r & s1 & E1 & Hr1 & _ & Hmr & Hms).
    unfold mbind at 1, M_bind at 1. rewrite E1. unfold mbind at 1, M_bind at 1. rewrite (write_ok Hu). cbn [negb].
    assert (∀ reps s2 s', runs s2 = runs s1 → max_states (test s2) = max_states (test s1) →
      checkpoint_result a 0 (Z.to_nat n) (cap_of a (max_states (test s2))) s2 reps s' →
      checkpoint_result a 1 (Z.to_nat n) (cap_of a (add64 sc 10)) s reps s') as Hfin.
    { intros reps s2 s' Hr2 Hm2 Hc. rewrite Hm2, Hms, cap_of_idem in Hc.
      apply (checkpoint_result_weaken _ _ _ _ _ _ s [r] Hc); [by rewrite Hr2|by constructor]. }
    case_bool_decide; unfold mbind, M_bind; rewrite ?(write_ok Hu); cbn [negb];
      match goal with |- context [likelihood_trials _ _ ?p ?d _ ?s0] =>
        destruct (likelihood_trials_result Hu cfg a p d n s0 Hn) as (reps & s' & E & _ & Hc) end;
      rewrite E; eexists _, _, s'; (split; [done|]); by apply (Hfin _ _ _) in Hc.
Qed.

Lemma checkpoints_spec (Hu : undisturbed) cfg n a orig sp tmp cps (Hn : 0 < n) : ∀ idx s,
  ∃ ps s', checkpoints cfg n a orig sp tmp cps idx s = (Ok ps, s') ∧
    curve a n orig cps ps (max_states (test s)) (runs s) (runs s').
Proof.
  induction cps as [|[label percent] cps IH]; intros idx s; [by exists [], s|].
  cbn [checkpoints]. unfold mbind at 1, M_bind at 1, ctx_Err. rewrite (und_cancel Hu).
  destruct (checkpoint_spec Hu cfg n a orig sp tmp label percent idx s Hn) as (reps & idx' & s1 & E1 & setup & rs & H1 & H2 & H3 & H4 & H5 & H6).
  unfold mbind at 1, M_bind at 1. rewrite E1. destruct (IH idx' s1) as (ps & s2 & E2 & Hc).
  unfold mbind, M_bind. rewrite E2. eexists _, s2. split; [done|].
  assert (cap_of a (if negb ((percent =? 0) || (percent =? 100)) then add64 (cutoff (ar_Step a) percent) 10 else max_states (test s))
    = checkpoint_limit a percent (max_states (test s))) as El by (unfold checkpoint_limit; by destruct (_ || _)).
  cbn [curve]. rewrite El. exists setup, rs. rewrite <- H4.
  split_and!; [by rewrite H1; destruct (_ || _)|done|done|done|]. by rewrite H5, H3 in Hc.
Qed.

(** Runs that stop too early to reproduce the violation. *)
Lemma reproductions_none a rs (Hlaw : ∀ before r vs, exec before r = Some vs → (∃ v, v ∈ vs ∧ same_property a v) →
    ar_Step a ≤ max_states (run_test r)) : ∀ before,
  Forall (λ r, max_states (run_test r) < ar_Step a) rs → reproductions a before rs = 0.
Proof.
  induction rs as [|r rs IH]; intros before Hrs; [done|]. apply Forall_cons in Hrs as [Hr Hrs]. cbn [reproductions].
  rewrite IH by done. destruct (exec before r) as [vs|] eqn:E; [|done].
  pose proof (match_violation_spec a vs None ltac:(done)) as Hm. destruct (match_violation a None vs) as [v|]; [|done].
  destruct Hm as (Hp & [Hv|?] & _); [|done]. specialize (Hlaw before r vs E (ex_intro _ v (conj Hv Hp))). lia.
Qed.

Lemma cutoff_exact step percent : 0 ≤ percent ≤ 100 → 0 ≤ step < 2 ^ 57 → cutoff step percent = step * percent / 100.
Proof.
  intros Hp Hs. unfold cutoff, mul64. destruct (Z.eqb_spec percent 0) as [->|]; [by rewrite Z.mul_0_r|].
  rewrite wrap_small; [done|]. split; [nia|]. change (2 ^ 64) with (2 ^ 57 * 128). nia.
Qed.

(** The likelihood curve.  When nothing but runs fails, the result has the five
    checkpoints with their cutoffs and numbers of faults, each with the rate of
    its trials that reproduced the violation, and the first rate above one half as
    inception.  Every inner checkpoint lowers the limit of states of the shared
    test configuration for all that follow it: the baseline of 100% runs under the
    limit of 75% plus ten states, so when runs need as many states as the recorded
    step to reproduce the violation, and that step is above 40, it never does. *)
Theorem likelihood_curve (cfg : RunConfig) (trials : Z) (a : Artifact) (path : string) (orig : ScheduleFile) (s : State)
    (Hu : undisturbed) (Hstep : 0 < ar_Step a < 2 ^ 57)
    (Hpath : (if bool_decide (rc_FaultSchedulePath cfg = ""%string) then ar_FaultSchedule a else rc_FaultSchedulePath cfg) = path)
    (Hne : path ≠ ""%string) (Hfile : files s !! path = Some (Some orig)) :
  let n := if trials <=? 0 then 20 else trials in
  ∃ ps s', ComputeLikelihood cfg trials (Some a) s =
      (Ok (let '(idx, st, label) := inception ps in
           mkLikelihoodResult (ar_Property a) (ar_Message a) (ar_Step a) ps idx st label), s') ∧
    curve a n orig percentiles ps (max_states (test s)) (runs s) (runs s') ∧
    ((∀ before r vs, exec before r = Some vs → (∃ v, v ∈ vs ∧ same_property a v) → ar_Step a ≤ max_states (run_test r)) →
     40 < ar_Step a → ∃ p, ps !! 4%nat = Some p ∧ Label p = "100%"%string ∧ Reproductions p = 0).
Proof.
  intros n. assert (0 < n) as Hn by (unfold n; destruct (Z.leb_spec trials 0); lia).
  set (cfg' := if rc_Seed cfg =? 0 then cfg <| rc_Seed := ar_Seed a |> else cfg).
  assert (rc_FaultSchedulePath cfg' = rc_FaultSchedulePath cfg) as Hp by (unfold cfg'; by destruct (_ =? _)).
  destruct (und_temp Hu) as (dir & Hdir & _).
  destruct (checkpoints_spec Hu cfg' n a orig path dir percentiles Hn 0 s) as (ps & s' & E & Hc).
  exists ps, s'. split; [|split; [exact Hc|]].
  - unfold ComputeLikelihood. fold n cfg'. unfold mbind at 1, M_bind at 1. unfold load_schedule. rewrite Hp, Hpath.
    rewrite bool_decide_eq_false_2 by done. rewrite Hfile, (proj2 (Z.eqb_neq _ 0)) by lia. rewrite Hdir.
    unfold mbind, M_bind. rewrite E. by destruct (inception ps) as [[idx st] label].
  - intros Hlaw H40. revert Hc. unfold percentiles. cbn [curve].
    repeat (destruct ps as [|? ps]; [intros; repeat match goal with H : ex _ |- _ => destruct H as (? & ? & ? & ? & ? & ? & ?) end; done|]).
    intros (? & ? & _ & _ & _ & _ & ? & ? & _ & _ & _ & _ & ? & ? & _ & _ & _ & _ & ? & ? & _ & _ & _ & _ & setup & rs & Hl & _ & HF & -> & _).
    eexists. split; [done|]. split; [done|]. cbn [Reproductions]. apply reproductions_none; [done|].
    apply Forall_app in HF as [_ HF]. eapply Forall_impl; [exact HF|]. intros r ->. cbn [negb orb].
    change (cap_of a (cap_of a (add64 (cutoff (ar_Step a) 75) 10)) < ar_Step a). rewrite cap_of_idem, cutoff_exact by lia.
    pose proof (Z.div_mod (ar_Step a * 75) 100 ltac:(done)). pose proof (Z.mod_pos_bound (ar_Step a * 75) 100 ltac:(done)).
    unfold add64. rewrite wrap_small by (split; change (2 ^ 64) with (2 ^ 57 * 128); lia).
    unfold cap_of. rewrite (proj2 (Z.eqb_neq _ 0)) by lia. cbn [orb]. destruct (Z.ltb_spec (maxReplayStates a) (ar_Step a * 75 / 100 + 10)); lia.
Qed.

Lemma schedule_kinds_spec es : NoDup (schedule_kinds es) ∧ ∀ k, k ∈ schedule_kinds es ↔ k ≠ ""%string ∧ ∃ e, e ∈ es ∧ FaultKind e = k.
Proof.
  unfold schedule_kinds. induction es as [|e es IH] using rev_ind; cbn [foldl].
  { split; [constructor|]. intros k. split; [by intros ?%elem_of_nil|intros (_ & e & ?%elem_of_nil & _); done]. }
  rewrite foldl_app. cbn [foldl]. destruct IH as [Hnd Hin]. set (ks := foldl _ [] es) in *.
  destruct (bool_decide (FaultKind e = ""%string)) eqn:E1; [|destruct (bool_decide (FaultKind e ∈ ks)) eqn:E2]; cbn [negb andb];
    rewrite ?bool_decide_eq_true, ?bool_decide_eq_false in *.
  - split; [done|]. intros k. rewrite Hin. setoid_rewrite elem_of_app. setoid_rewrite list_elem_of_singleton. naive_solver.
  - split; [done|]. intros k. rewrite Hin in *. setoid_rewrite elem_of_app. setoid_rewrite list_elem_of_singleton. naive_solver.
  - split; [apply NoDup_app; split_and!; [done|intros k Hk ->%list_elem_of_singleton; done|apply NoDup_singleton]|].
    intros k. rewrite elem_of_app, list_elem_of_singleton, Hin. setoid_rewrite elem_of_app. setoid_rewrite list_elem_of_singleton. naive_solver.
Qed.

Lemma branch_trials_result (Hu : undisturbed) cfg a path n s : path ≠ ""%string →
  ∃ r rs s', branch_trials cfg a path n s = (r, s') ∧ default 0 r = reproductions a (runs s) rs ∧ length rs = Z.to_nat n ∧
    runs s' = runs s ++ rs ∧ files s' = files s ∧ Forall (λ x, run_schedule x = default None (files s !! path)) rs.
Proof.
  intros Hne. unfold branch_trials, mbind, M_bind. match goal with |- context [trials _ _ ?f] => set (c := f) end.
  destruct (trials_spec (und_cancel Hu) a path c (λ _, eq_refl) (Z.to_nat n) 0 s) as (rs & failed & s' & E & Hlen & Hruns & Hfiles & _ & _ & HF).
  rewrite E. eexists _, rs, s'. split; [done|]. split_and!; [|done|done|done|].
  - destruct (failed && (reproductions a (runs s) rs =? 0)) eqn:Ef; [|done]. cbn. apply andb_true_iff in Ef as [_ Ef%Z.eqb_eq]. done.
  - eapply Forall_impl; [exact HF|]. intros r [_ Hr]. by apply Hr.
Qed.

Lemma attribute_spec (Hu : undisturbed) cfg n a orig dir base kinds (Hdir : IsAbs dir = true) : ∀ idx s,
  ∃ es s', attribute cfg n a orig dir base kinds idx s = (Ok es, s') ∧ attributed a n orig base kinds es (runs s) (runs s').
Proof.
  induction kinds as [|kind kinds IH]; intros idx s; [by exists [], s|].
  cbn [attribute]. unfold mbind at 1, M_bind at 1, ctx_Err. rewrite (und_cancel Hu).
  unfold mbind at 1, M_bind at 1. rewrite (write_ok Hu). cbn [negb]. unfold mbind at 1, M_bind at 1.
  match goal with |- context [branch_trials _ _ ?p _ ?s0] => set (s1 := s0); set (path := p) end.
  assert (path ≠ ""%string) as Hne by (intros E; pose proof (Join_abs dir ("no-" +:+ kind +:+ "-" +:+ pretty (idx + 1) +:+ ".json") Hdir) as Ha; fold path in Ha; by rewrite E in Ha).
  destruct (branch_trials_result Hu cfg a path n s1 Hne) as (r & rs & s2 & E2 & Hr & Hlen & Hruns & Hfiles & HF).
  rewrite E2. destruct (IH (idx + 1) s2) as (es & s3 & E3 & Hc).
  unfold mbind, M_bind. rewrite E3. eexists _, s3. split; [done|]. cbn [attributed]. exists rs. split_and!; [done| | |].
  - eapply Forall_impl; [exact HF|]. intros x ->. unfold s1. cbn [files setter]. fold path. by rewrite lookup_insert_eq.
  - by rewrite Hr.
  - by rewrite Hruns in Hc.
Qed.

(** Causal attribution.  When nothing but runs fails, every kind of the
    schedule (or of the list given) is tried with as many runs, whose schedule is
    the recorded one without exactly the entries of that kind, against runs with
    the whole schedule; a strength is the difference of the two rates; the entries
    come with the strongest first, and the most causal kind is the first one if
    its strength is above zero.  The only other outcome is the error of a baseline
    that reproduced nothing. *)
Theorem Branch_attributes (cfg : RunConfig) (trials : Z) (ks : list string) (a : Artifact) (path : string) (orig : ScheduleFile)
    (s : State) (Hu : undisturbed)
    (Hpath : (if bool_decide (rc_FaultSchedulePath cfg = ""%string) then ar_FaultSchedule a else rc_FaultSchedulePath cfg) = path)
    (Hne : path ≠ ""%string) (Hfile : files s !! path = Some (Some orig)) :
  let n := if trials <=? 0 then 10 else trials in
  let kinds := match ks with [] => schedule_kinds (sf_Entries orig) | _ => ks end in
  ∃ r rs0 s', Branch cfg trials ks (Some a) s = (r, s') ∧ length rs0 = Z.to_nat n ∧
    Forall (λ x, run_schedule x = Some orig) rs0 ∧
    let reps0 := reproductions a (runs s) rs0 in
    match r with
    | Err e => e = "multiverse: baseline replay"%string ∧ reps0 = 0
    | Ok b => BaselineRate b = rate reps0 n ∧ BaselineTrials b = n ∧
        ∃ es, attributed a n orig (rate reps0 n) kinds es (runs s ++ rs0) (runs s') ∧ Attribution b ≡ₚ es ∧
          (Forall (λ e, is_nan (Strength e) = false) es →
           StronglySorted (λ e e', flt (Strength e) (Strength e') = false) (Attribution b)) ∧
          MostCausal b = most_causal (Attribution b)
    end.
Proof.
  intros n kinds. unfold Branch. fold n.
  set (cfg' := if rc_Seed cfg =? 0 then cfg <| rc_Seed := ar_Seed a |> else cfg).
  assert (rc_FaultSchedulePath cfg' = rc_FaultSchedulePath cfg) as Hp by (unfold cfg'; by destruct (_ =? _)).
  destruct (und_temp Hu) as (dir & Hdir & Habs).
  unfold mbind at 1, M_bind at 1. unfold load_schedule. rewrite Hp, Hpath, bool_decide_eq_false_2 by done. rewrite Hfile, Hdir. fold kinds.
  destruct (branch_trials_result Hu cfg' a path n s Hne) as (r & rs & s1 & E1 & Hr & Hlen & Hruns & _ & HF).
  rewrite Hfile in HF. unfold mbind at 1, M_bind at 1. rewrite E1.
  destruct r as [reps|]; [|exists (Err "multiverse: baseline replay"%string), rs, s1; by split_and!]. cbn in Hr. subst reps.
  destruct (attribute_spec Hu cfg' n a orig dir (rate (reproductions a (runs s) rs) n) kinds Habs 0 s1) as (es & s2 & E2 & Hc).
  unfold mbind, M_bind. rewrite E2. eexists _, rs, s2. split; [done|]. split_and!; [done|done|done|done|].
  exists es. split_and!; [by rewrite Hruns in Hc|apply sort_by_Permutation| |done].
  apply (sort_by_key_descending Strength).
Qed.
End spec.

(** ** Witnesses and examples *)

Definition example_artifact : Artifact := mkArtifact "safe" "safe" 7 100 "/a/fault-schedule.json" "" 0.

Definition example_violation : ViolationEntry := mkViolationEntry "safe" "safe" 100.

Definition example_entry (step : Z) (k : Kind) : ScheduleEntry := mkScheduleEntry step k "" "" 0 [] 0 0.

Definition example_schedule : ScheduleFile := mkScheduleFile [example_entry 10 "drop"; example_entry 60 "hang"; example_entry 90 "drop"] None.

(** A system that violates the property at its hundredth state. *)
Definition at_state_100 : Replays := {|
  exec _ r := Some (if 100 <=? max_states (run_test r) then [example_violation] else []);
  cancelled _ := false; stat _ _ := true; mkdirTemp := Some "/tmp/x"%string; mkdirAll _ := true; writeFile _ := true |}.

(** A system that violates the property when packets are dropped. *)
Definition needs_drop : Replays := {|
  exec _ r := Some match run_schedule r with
                   | Some f => if existsb (λ e, bool_decide (FaultKind e = KindDrop)) (sf_Entries f) then [example_violation] else []
                   | None => []
                   end;
  cancelled _ := false; stat _ _ := true; mkdirTemp := Some "/tmp/x"%string; mkdirAll _ := true; writeFile _ := true |}.

Definition example_state : State := mkState example_config {["/a/fault-schedule.json"%string := Some example_schedule]} [].

Definition example_cfg : RunConfig := mkRunConfig 0 "" "" 0 false 0 "" 0.

Lemma at_state_100_law before r vs :
  exec (Replays := at_state_100) before r = Some vs → (∃ v, v ∈ vs ∧ same_property example_artifact v) →
  ar_Step example_artifact ≤ max_states (run_test r).
Proof.
  cbn [exec at_state_100]. intros [= <-] (v & Hv & _). destruct (100 <=? max_states (run_test r)) eqn:E; [by apply Z.leb_le in E|].
  by apply elem_of_nil in Hv.
Qed.

Lemma likelihood_curve_witness :
  ∃ ps s', fst (ComputeLikelihood (H := at_state_100) example_cfg 2 (Some example_artifact) example_state) =
      Ok (let '(idx, st, label) := inception ps in mkLikelihoodResult "safe" "safe" 100 ps idx st label) ∧
    curve (H := at_state_100) example_artifact 2 example_schedule percentiles ps 0 [] (runs s') ∧
    ∃ p, ps !! 4%nat = Some p ∧ Label p = "100%"%string ∧ Reproductions p = 0.
Proof.
  destruct (likelihood_curve (H := at_state_100) example_cfg 2 example_artifact "/a/fault-schedule.json" example_schedule example_state)
    as (ps & s' & E & Hc & Hz).
  - split; try done. by exists "/tmp/x"%string.
  - done.
  - reflexivity.
  - discriminate.
  - reflexivity.
  - exists ps, s'. split; [exact (f_equal fst E)|split; [exact Hc|]]. apply Hz; [|reflexivity].
    exact at_state_100_law.
Defined.

(** The violation is certain at the recorded step, and the curve says that it is
    certain at the start and impossible later. *)
Example likelihood_of_a_certain_violation :
  match fst (ComputeLikelihood (H := at_state_100) example_cfg 2 (Some example_artifact) example_state) with
  | Ok r => map Reproductions (Probes r) = [2; 0; 0; 0; 0] ∧ InceptionLabel r = "0%"%string
  | Err _ => False
  end.
Proof. vm_compute. split; reflexivity. Qed.

Lemma Branch_attributes_witness :
  ∃ r rs0 s', Branch (H := needs_drop) example_cfg 2 [] (Some example_artifact) example_state = (r, s') ∧ length rs0 = 2%nat ∧
    Forall (λ x, run_schedule x = Some example_schedule) rs0.
Proof.
  destruct (Branch_attributes (H := needs_drop) example_cfg 2 [] example_artifact "/a/fault-schedule.json" example_schedule example_state)
    as (r & rs0 & s' & E & Hl & HF & _).
  - split; try done. by exists "/tmp/x"%string.
  - reflexivity.
  - discriminate.
  - reflexivity.
  - exists r, rs0, s'. split; [exact E|split; [exact Hl|exact HF]].
Defined.

Example drops_are_causal :
  match fst (Branch (H := needs_drop) example_cfg 2 [] (Some example_artifact) example_state) with
  | Ok r => MostCausal r = "drop"%string ∧ map ce_FaultKind (Attribution r) = ["drop"; "hang"]%string
  | Err _ => False
  end.
Proof. vm_compute. split; reflexivity. Qed.

(** One failed trial among others that did not reproduce is an error of all. *)
Definition first_fails : Replays := {|
  exec rs _ := match rs with [] => None | _ => Some [] end;
  cancelled _ := false; stat _ _ := true; mkdirTemp := Some "/tmp/x"%string; mkdirAll _ := true; writeFile _ := true |}.

Example one_failed_trial :
  fst (Branch (H := first_fails) example_cfg 2 [] (Some example_artifact) example_state) = Err "multiverse: baseline replay"%string.
Proof. vm_compute. reflexivity. Qed.
