(* ===== verification/Debugger.v ===== *)
(** * Time-travel debugging ([internal/debugger])

    The debugger moves a machine over the snapshot tree; the hypervisor is the
    class [World] of the explorer, so a restore or a snapshot may fail at any
    time.  A session is a read-only cursor over the events of a finished run. *)
From stdpp Require Import strings.
From S2P Require Import Prelude Word Float SnapshotTree SnapshotTreeInv SnapshotTreeProps Explorer EventStore.
Local Open Scope Z_scope.

(** ** The debugger ([debugger.go], [timetravel.go]) *)

Module Nav.

Definition StatusRunning : string := "running".

Record VM := mkVM { VMID : string; Status : string }.

Inductive DebugError (E : Type) :=
| ErrNoSnapshot
| ErrVMNotRunning
| NotAhead (target current : Z)
| TreeError (e : SnapshotTree.Error)
| HypError (e : E).
Arguments ErrNoSnapshot {E}.
Arguments ErrVMNotRunning {E}.
Arguments NotAhead {E}.
Arguments TreeError {E}.
Arguments HypError {E}.

Record Debugger := mkDebugger { tree : Tree; vm : option VM; current : Z }.
#[export] Instance Debugger_eta : Eta Debugger := mkEta _ (λ r, mkDebugger (tree r) (vm r) (current r)).

Definition New (t : Tree) : Debugger := mkDebugger t None 0.

Section ops.
Context {W E : Type} `{World W E}.

Definition Attach (v : option VM) (d : Debugger) : result (DebugError E) unit * Debugger :=
  match v with
  | Some v' =>
      if bool_decide (Status v' = StatusRunning) then (Ok tt, d <| vm := v |> <| current := Current (tree d) |>)
      else (Err ErrVMNotRunning, d)
  | None => (Err ErrVMNotRunning, d)
  end.

(** The restore that [Rewind] and [Forward] end with. *)
Definition move_to (id : Z) (d : Debugger) (w : W) : result (DebugError E) unit * Debugger * W :=
  match hyp_Restore w id with
  | (Err e, w) => (Err (HypError e), d, w)
  | (Ok _, w) =>
      let d := d <| current := id |> in
      match SetCurrent (tree d) id with
      | (Err e, t) => (Err (TreeError e), d <| tree := t |>, w)
      | (Ok _, t) => (Ok tt, d <| tree := t |>, w)
      end
  end.

Definition Rewind (snapID : Z) (d : Debugger) (w : W) : result (DebugError E) unit * Debugger * W :=
  match vm d with
  | None => (Err ErrVMNotRunning, d, w)
  | Some _ =>
      match Get (tree d) snapID with
      | Err _ => (Err ErrNoSnapshot, d, w)
      | Ok _ => move_to snapID d w
      end
  end.

Definition Forward (targetID : Z) (d : Debugger) (w : W) : result (DebugError E) unit * Debugger * W :=
  match vm d with
  | None => (Err ErrVMNotRunning, d, w)
  | Some _ =>
      match Get (tree d) targetID with
      | Err _ => (Err ErrNoSnapshot, d, w)
      | Ok target =>
          if s_Depth target <=? Depth (tree d) (current d) then (Err (NotAhead targetID (current d)), d, w)
          else move_to targetID d w
      end
  end.

Definition Branch (newSeed : Z) (d : Debugger) (w : W) : result (DebugError E) Z * Debugger * W :=
  match vm d with
  | None => (Err ErrVMNotRunning, d, w)
  | Some _ =>
      match Get (tree d) (current d) with
      | Err e => (Err (TreeError e), d, w)
      | Ok cur =>
          match Create (tree d) (current d) 0 (s_TimeNS cur) (s_Coverage cur) newSeed 0 0 with
          | (Err e, t) => (Err (TreeError e), d <| tree := t |>, w)
          | (Ok newID, t) =>
              let d := d <| tree := t |> in
              match hyp_SetSeed w newSeed with
              | (Err e, w) => (Err (HypError e), d, w)
              | (Ok _, w) =>
                  match hyp_Snapshot w with
                  | (Err e, w) => (Err (HypError e), d, w)
                  | (Ok _, w) => (Ok newID, d, w)
                  end
              end
          end
      end
  end.

Definition CurrentSnapshot (d : Debugger) : Z := current d.

Definition Timeline (d : Debugger) : option (list Z) := Ancestors (tree d) (current d).

Definition StepBack (d : Debugger) (w : W) : result (DebugError E) unit * Debugger * W :=
  match vm d with
  | None => (Err ErrVMNotRunning, d, w)
  | Some _ =>
      if current d =? RootID then (Err ErrNoSnapshot, d, w)
      else
        match Get (tree d) (current d) with
        | Err e => (Err (TreeError e), d, w)
        | Ok cur => Rewind (s_ParentID cur) d w
        end
  end.

Definition StepForward (d : Debugger) (w : W) : result (DebugError E) unit * Debugger * W :=
  match vm d with
  | None => (Err ErrVMNotRunning, d, w)
  | Some _ =>
      match Children (tree d) (current d) with
      | Err e => (Err (TreeError e), d, w)
      | Ok [] => (Err ErrNoSnapshot, d, w)
      | Ok (c :: _) => Forward c d w
      end
  end.

Definition JumpTo (id : Z) (d : Debugger) (w : W) : result (DebugError E) unit * Debugger * W :=
  match vm d with
  | None => (Err ErrVMNotRunning, d, w)
  | Some _ =>
      match Get (tree d) id with
      | Err _ => (Err ErrNoSnapshot, d, w)
      | Ok _ =>
          let targetDepth := Depth (tree d) id in
          let currentDepth := Depth (tree d) (current d) in
          if targetDepth <? currentDepth then Rewind id d w
          else if currentDepth <? targetDepth then Forward id d w
          else Rewind id d w
      end
  end.

(** *** Lemmas *)

(** An attached debugger stands on a node of a well-formed tree, the one the
    tree calls current. *)
Record attached (d : Debugger) : Prop := {
  at_vm : is_Some (vm d);
  at_tree : wf (tree d);
  at_current : current d = SnapshotTree.current (tree d) }.

Lemma attached_node d : attached d → ∃ s, snapshots (tree d) !! current d = Some s.
Proof. intros [_ Hwf Hc]. destruct (wf_current _ Hwf) as [s Hs]. exists s. by rewrite Hc. Qed.

(** A debugger that has moved to [id]. *)
Definition moved (id : Z) (d : Debugger) : Debugger :=
  mkDebugger (mkTree (snapshots (tree d)) id (nextID (tree d)) (history (tree d))) (vm d) id.

Lemma move_to_spec id d w :
  is_Some (snapshots (tree d) !! id) →
  move_to id d w = match hyp_Restore w id with
                   | (Ok _, w') => (Ok tt, moved id d, w')
                   | (Err e, w') => (Err (HypError e), d, w')
                   end.
Proof.
  intros [s Hs]. unfold move_to. destruct (hyp_Restore w id) as [[[]|e] w']; [|done]. simpl. unfold SetCurrent. by rewrite Hs.
Qed.

Lemma moved_attached id d : attached d → is_Some (snapshots (tree d) !! id) → attached (moved id d).
Proof.
  intros [Hv Hwf Hc] Hid. split; [done| |done]. destruct Hwf as [H1 H2 H3]. split; simpl; done.
Qed.

Lemma Get_Some t id s : snapshots t !! id = Some s → Get t id = Ok s.
Proof. unfold Get. by intros ->. Qed.

Lemma Depth_Some t id s : snapshots t !! id = Some s → Depth t id = s_Depth s.
Proof. unfold Depth. by intros ->. Qed.

(** [JumpTo] is a single restore whatever the two depths are. *)
Lemma JumpTo_spec id d w :
  attached d →
  JumpTo id d w =
    match snapshots (tree d) !! id with
    | None => (Err ErrNoSnapshot, d, w)
    | Some _ => match hyp_Restore w id with
                | (Ok _, w') => (Ok tt, moved id d, w')
                | (Err e, w') => (Err (HypError e), d, w')
                end
    end.
Proof.
  intros Hd. pose proof Hd as [[v Hv] _ _]. unfold JumpTo. rewrite Hv. unfold Get.
  destruct (snapshots (tree d) !! id) as [s|] eqn:Hs; [|done].
  assert (is_Some (snapshots (tree d) !! id)) as Hid by by exists s.
  rewrite <- (move_to_spec id d w Hid).
  assert (Rewind id d w = move_to id d w) as HR by (unfold Rewind; by rewrite Hv, (Get_Some _ _ _ Hs)).
  destruct (Z.ltb_spec (Depth (tree d) id) (Depth (tree d) (current d))); [done|].
  destruct (Z.ltb_spec (Depth (tree d) (current d)) (Depth (tree d) id)) as [Hlt|]; [|done].
  unfold Forward. rewrite Hv, (Get_Some _ _ _ Hs). rewrite (Depth_Some _ _ _ Hs) in Hlt.
  by rewrite (proj2 (Z.leb_gt _ _)).
Qed.

Lemma StepBack_JumpTo d w s :
  attached d → snapshots (tree d) !! current d = Some s → current d ≠ RootID → StepBack d w = JumpTo (s_ParentID s) d w.
Proof.
  intros Hd Hs Hne. rewrite JumpTo_spec by done. pose proof Hd as [[v Hv] Hwf _]. unfold StepBack. rewrite Hv.
  rewrite (proj2 (Z.eqb_neq _ _)) by done. rewrite (Get_Some _ _ _ Hs).
  destruct (wn_parent _ _ _ (wm_node _ (wf_tree _ Hwf) _ _ Hs) Hne) as (_ & p & Hp & _). rewrite Hp.
  unfold Rewind. rewrite Hv, (Get_Some _ _ _ Hp). apply move_to_spec. by exists p.
Qed.

Lemma StepForward_JumpTo d w s c cs :
  attached d → snapshots (tree d) !! current d = Some s → s_Children s = c :: cs → StepForward d w = JumpTo c d w.
Proof.
  intros Hd Hs Hc. rewrite JumpTo_spec by done. pose proof Hd as [[v Hv] Hwf _]. unfold StepForward. rewrite Hv.
  unfold Children. rewrite Hs, Hc.
  destruct (wn_children _ _ _ (wm_node _ (wf_tree _ Hwf) _ _ Hs) c) as (sc & Hsc & Hpar & Hne); [rewrite Hc; by left|].
  rewrite Hsc. unfold Forward. rewrite Hv, (Get_Some _ _ _ Hsc), (Depth_Some _ _ _ Hs).
  destruct (wn_parent _ _ _ (wm_node _ (wf_tree _ Hwf) _ _ Hsc) Hne) as (_ & p & Hp & Hdep & _).
  rewrite Hpar in Hp. simplify_eq. rewrite (proj2 (Z.leb_gt _ _)) by lia. apply move_to_spec. by exists sc.
Qed.

(** The timeline of a node is that of its parent and the node. *)
Lemma Ancestors_child t id s p :
  wf t → snapshots t !! id = Some s → id ≠ RootID → Ancestors t (s_ParentID s) = Some p → Ancestors t id = Some (p ++ [id]).
Proof.
  intros Hwf Hs Hne Hp. destruct (walk_total t id s Hwf Hs) as (c & Hc & _ & Hh & _ & _ & Ha & _).
  destruct (wn_parent _ _ _ (wm_node _ (wf_tree _ Hwf) _ _ Hs) Hne) as (Hlt & sp & Hsp & _).
  destruct (walk_total t (s_ParentID s) sp Hwf Hsp) as (c' & Hc' & _ & _ & _ & _ & Ha' & _).
  rewrite Ha' in Hp. injection Hp as <-. rewrite Ha. f_equal.
  assert (c = s :: c') as ->.
  { unfold walk_fuel in Hc. cbn [chain] in Hc. rewrite Hs in Hc. rewrite (proj2 (Z.eqb_neq id RootID)) in Hc by done.
    destruct (chain (size (snapshots t)) (snapshots t) (s_ParentID s)) as [c''|] eqn:Hch; [|done]. simpl in Hc. injection Hc as <-.
    f_equal. pose proof (chain_mono _ (walk_fuel t) _ _ _ Hch ltac:(unfold walk_fuel; lia)). congruence. }
  rewrite fmap_cons, reverse_cons. f_equal. by rewrite (wn_id _ _ _ (wm_node _ (wf_tree _ Hwf) _ _ Hs)).
Qed.

Lemma Ancestors_total t id s : wf t → snapshots t !! id = Some s → is_Some (Ancestors t id).
Proof. intros Hwf Hs. destruct (walk_total t id s Hwf Hs) as (c & _ & _ & _ & _ & _ & -> & _). by eexists. Qed.

Lemma Ancestors_current t x id : Ancestors (mkTree (snapshots t) x (nextID t) (history t)) id = Ancestors t id.
Proof. done. Qed.
Lemma Branch_spec newSeed d w :
  attached d → nextID (tree d) < 2 ^ 32 →
  let '(r, d', _) := Branch newSeed d w in
  attached d' ∧ current d' = current d ∧ nextID (tree d') ≤ nextID (tree d) + 1 ∧
  snapshots (tree d') !! nextID (tree d) ≠ None ∧
  match r with Ok id => id = nextID (tree d) | Err e => ∃ x, e = HypError x end.
Proof.
  intros Hd Hn. pose proof Hd as [[v Hv] Hwf Hc]. destruct (attached_node d Hd) as [s Hs].
  unfold Branch. rewrite Hv, (Get_Some _ _ _ Hs).
  pose proof (wf_Create (tree d) (current d) 0 (s_TimeNS s) (s_Coverage s) newSeed 0 0 Hwf Hn) as Hwf'.
  unfold Create in *. rewrite Hs in *. cbn [snd] in Hwf'.
  set (t := mkTree _ _ _ _) in *.
  assert (attached (d <| tree := t |>)) as Ha by (by split; [exists v| |]).
  assert (nextID t ≤ nextID (tree d) + 1) as Hnt.
  { simpl. unfold add64. pose proof (wf_next _ Hwf) as [? _]. rewrite wrap_small by (split; lia). lia. }
  assert (snapshots t !! nextID (tree d) ≠ None) as Ht by (simpl; by rewrite lookup_insert_eq).
  destruct (hyp_SetSeed w newSeed) as [[[]|e] w1]; [|by split_and!; [..|exists e]].
  destruct (hyp_Snapshot w1) as [[h|e] w2]; [by split_and!|by split_and!; [..|exists e]].
Qed.

Inductive op := OpRewind (id : Z) | OpForward (id : Z) | OpBranch (seed : Z) | OpStepBack | OpStepForward | OpJumpTo (id : Z).

(** Whether the operation succeeded, with the new state. *)
Definition run_op (o : op) (d : Debugger) (w : W) : bool * Debugger * W :=
  match o with
  | OpRewind id => let '(r, d, w) := Rewind id d w in (is_ok r, d, w)
  | OpForward id => let '(r, d, w) := Forward id d w in (is_ok r, d, w)
  | OpBranch seed => let '(r, d, w) := Branch seed d w in (is_ok r, d, w)
  | OpStepBack => let '(r, d, w) := StepBack d w in (is_ok r, d, w)
  | OpStepForward => let '(r, d, w) := StepForward d w in (is_ok r, d, w)
  | OpJumpTo id => let '(r, d, w) := JumpTo id d w in (is_ok r, d, w)
  end.

Definition run_ops (os : list op) (d : Debugger) (w : W) : Debugger * W :=
  foldl (λ '(d, w) o, let '(_, d, w) := run_op o d w in (d, w)) (d, w) os.

(** What an operation may do to a debugger: nothing, a move within the tree, or
    a branch. *)
Definition op_effect (ok : bool) (d d' : Debugger) : Prop :=
  attached d' ∧ nextID (tree d') ≤ nextID (tree d) + 1 ∧ (ok = false → current d' = current d).

Lemma effect_none d : attached d → op_effect false d d.
Proof. intros. split_and!; [done|lia|done]. Qed.

Lemma effect_move id d w :
  attached d → is_Some (snapshots (tree d) !! id) →
  let '(r, d', w') := move_to id d w in op_effect (is_ok r) d d'.
Proof.
  intros Hd Hid. rewrite move_to_spec by done. destruct (hyp_Restore w id) as [[[]|e] w']; [|by apply effect_none].
  split_and!; [by apply moved_attached|simpl; lia|done].
Qed.

Lemma effect_Rewind id d w : attached d → let '(r, d', w') := Rewind id d w in op_effect (is_ok r) d d'.
Proof.
  intros Hd. pose proof Hd as [[v Hv] _ _]. unfold Rewind. rewrite Hv. unfold Get.
  destruct (snapshots (tree d) !! id) as [s|] eqn:Hs; [|by apply effect_none].
  apply effect_move; [done|by exists s].
Qed.

Lemma effect_Forward id d w : attached d → let '(r, d', w') := Forward id d w in op_effect (is_ok r) d d'.
Proof.
  intros Hd. pose proof Hd as [[v Hv] _ _]. unfold Forward. rewrite Hv. unfold Get.
  destruct (snapshots (tree d) !! id) as [s|] eqn:Hs; [|by apply effect_none].
  destruct (_ <=? _); [by apply effect_none|]. apply effect_move; [done|by exists s].
Qed.

Lemma run_op_effect o d w :
  attached d → nextID (tree d) < 2 ^ 32 → let '(ok, d', w') := run_op o d w in op_effect ok d d'.
Proof.
  intros Hd Hn. destruct o as [id|id|seed| | |id]; cbn [run_op].
  - pose proof (effect_Rewind id d w Hd). by destruct (Rewind id d w) as [[]].
  - pose proof (effect_Forward id d w Hd). by destruct (Forward id d w) as [[]].
  - pose proof (Branch_spec seed d w Hd Hn) as H1. destruct (Branch seed d w) as [[r d'] w'].
    destruct H1 as (? & ? & ? & _). by split_and!.
  - unfold StepBack. pose proof Hd as [[v Hv] _ _]. rewrite Hv. destruct (current d =? RootID); [by apply effect_none|].
    destruct (attached_node d Hd) as [s Hs]. rewrite (Get_Some _ _ _ Hs).
    pose proof (effect_Rewind (s_ParentID s) d w Hd). by destruct (Rewind _ d w) as [[]].
  - unfold StepForward. pose proof Hd as [[v Hv] _ _]. rewrite Hv. destruct (attached_node d Hd) as [s Hs].
    unfold Children. rewrite Hs. destruct (s_Children s) as [|c cs]; [by apply effect_none|].
    pose proof (effect_Forward c d w Hd). by destruct (Forward c d w) as [[]].
  - rewrite JumpTo_spec by done. destruct (snapshots (tree d) !! id) as [s|] eqn:Hs; [|by apply effect_none].
    assert (is_Some (snapshots (tree d) !! id)) as Hid by by exists s.
    pose proof (effect_move id d w Hd Hid) as He. rewrite move_to_spec in He by done.
    by destruct (hyp_Restore w id) as [[[]|e] w'].
Qed.

Lemma run_ops_attached os : ∀ d w,
  attached d → nextID (tree d) + Z.of_nat (length os) < 2 ^ 32 →
  attached (run_ops os d w).1 ∧ nextID (tree (run_ops os d w).1) ≤ nextID (tree d) + Z.of_nat (length os).
Proof.
  induction os as [|o os IH]; intros d w Hd Hn; [simpl; split; [done|lia]|].
  unfold run_ops. cbn [foldl length] in *. pose proof (run_op_effect o d w Hd ltac:(lia)) as He.
  destruct (run_op o d w) as [[ok d1] w1]. destruct He as (H1 & H2 & _).
  destruct (IH d1 w1 H1 ltac:(lia)) as [H3 H4]. split; [done|]. unfold run_ops in H4. lia.
Qed.

(** C35: whatever is asked of an attached debugger and whatever the hypervisor
    answers, it stays on a node of a well-formed tree, the one the tree calls
    current, and its timeline is the path from the root to that node.  An
    operation that fails leaves it where it was. *)
Theorem debugger_stays_on_tree (t : Tree) (v : VM) (os : list op) (w : W) (Hwf : wf t) (Hv : Status v = StatusRunning)
    (Hn : nextID t + Z.of_nat (length os) < 2 ^ 32) :
  let d0 := (Attach (Some v) (New t)).2 in
  let d := (run_ops os d0 w).1 in
  (Attach (Some v) (New t)).1 = Ok tt ∧ attached d ∧
  (∃ path, Timeline d = Some path ∧ head path = Some RootID ∧ last path = Some (current d)) ∧
  (∀ o w', (run_op o d w').1.1 = false → current (run_op o d w').1.2 = current d).
Proof.
  intros d0 d. assert (Attach (Some v) (New t) = (Ok tt, mkDebugger t (Some v) (Current t))) as HA
    by (unfold Attach; by rewrite bool_decide_eq_true_2).
  assert (attached d0) as Hd0 by (unfold d0; rewrite HA; by split; [exists v| |]).
  assert (attached d ∧ nextID (tree d) ≤ nextID (tree d0) + Z.of_nat (length os)) as [Hd Hnd].
  { apply run_ops_attached; [done|]. unfold d0. by rewrite HA. }
  split_and!; [by rewrite HA|done| |].
  - destruct (attached_node d Hd) as [s Hs]. destruct (Ancestors_path (tree d) (current d) s (at_tree _ Hd) Hs)
      as (path & Hp & _ & Hh & Hl & _). by exists path.
  - intros o w'. pose proof (run_op_effect o d w' Hd) as He. destruct (run_op o d w') as [[ok d'] w''] eqn:Ho. cbn [fst snd].
    intros ->. apply He; [|done]. unfold d0 in Hnd. rewrite HA in Hnd. simpl in Hnd. lia.
Qed.

(** C36: moving through time.  With a hypervisor that restores what it is
    asked, stepping back cuts the last node off the timeline and stepping forward
    adds the first child; stepping back after a step forward returns to the same
    state; a jump goes to any node of the tree with a single restore; at the ends
    of the tree, and for a node that does not exist, nothing happens but an
    error. *)
Theorem time_travel (d : Debugger) (s : Snapshot) (path : list Z) (w : W)
    (Hd : attached d) (Hs : snapshots (tree d) !! current d = Some s) (Hpath : Timeline d = Some path)
    (Hrestore : ∀ w id, ∃ w', hyp_Restore w id = (Ok tt, w')) :
  (current d = RootID → StepBack d w = (Err ErrNoSnapshot, d, w)) ∧
  (current d ≠ RootID → ∃ d' w' path', StepBack d w = (Ok tt, d', w') ∧ attached d' ∧
     Timeline d' = Some path' ∧ path = path' ++ [current d]) ∧
  (s_Children s = [] → StepForward d w = (Err ErrNoSnapshot, d, w)) ∧
  (∀ c cs, s_Children s = c :: cs → ∃ d' w', StepForward d w = (Ok tt, d', w') ∧ attached d' ∧
     Timeline d' = Some (path ++ [c]) ∧ ∃ w'', StepBack d' w' = (Ok tt, d, w'')) ∧
  (∀ id, match snapshots (tree d) !! id with
         | None => JumpTo id d w = (Err ErrNoSnapshot, d, w)
         | Some _ => ∃ d', JumpTo id d w = (Ok tt, d', (hyp_Restore w id).2) ∧ attached d' ∧ current d' = id
         end).
Proof.
  pose proof Hd as [[v Hv] Hwf Hc].
  assert (∀ d id w, attached d → is_Some (snapshots (tree d) !! id) →
    JumpTo id d w = (Ok tt, moved id d, (hyp_Restore w id).2) ∧ attached (moved id d)) as Hjump.
  { intros d1 id w1 Hd1 [s1 Hs1]. split; [|apply moved_attached; [done|by exists s1]].
    rewrite JumpTo_spec, Hs1 by done. by destruct (Hrestore w1 id) as [w' ->]. }
  split_and!.
  - intros Hr. unfold StepBack. rewrite Hv. by rewrite (proj2 (Z.eqb_eq _ _)).
  - intros Hne. destruct (wn_parent _ _ _ (wm_node _ (wf_tree _ Hwf) _ _ Hs) Hne) as (_ & p & Hp & _).
    destruct (Hjump d (s_ParentID s) w Hd ltac:(by exists p)) as [HJ Hm]. rewrite (StepBack_JumpTo d w s) by done.
    destruct (Ancestors_total (tree d) (s_ParentID s) p Hwf Hp) as [path' Hp'].
    exists (moved (s_ParentID s) d), (hyp_Restore w (s_ParentID s)).2, path'. split_and!; [done|done|done|].
    pose proof (Ancestors_child _ _ _ _ Hwf Hs Hne Hp') as Ha. unfold Timeline in Hpath. congruence.
  - intros Hcs. unfold StepForward. rewrite Hv. unfold Children. by rewrite Hs, Hcs.
  - intros c cs Hcs. destruct (wn_children _ _ _ (wm_node _ (wf_tree _ Hwf) _ _ Hs) c) as (sc & Hsc & Hpar & Hne); [rewrite Hcs; by left|].
    destruct (Hjump d c w Hd ltac:(by exists sc)) as [HJ Hm]. rewrite (StepForward_JumpTo d w s c cs) by done.
    exists (moved c d), (hyp_Restore w c).2. split_and!; [done|done| |].
    + unfold Timeline in *. simpl. rewrite Ancestors_current. apply (Ancestors_child _ c sc); [done..|]. by rewrite Hpar.
    + rewrite (StepBack_JumpTo _ _ sc) by done. rewrite Hpar.
      destruct (Hjump (moved c d) (current d) (hyp_Restore w c).2 Hm ltac:(by exists s)) as [-> _].
      eexists. do 2 f_equal. unfold moved. simpl. destruct d as [[m cur nx hi] vm0 cu]. simpl in *. by subst.
  - intros id. destruct (snapshots (tree d) !! id) as [s'|] eqn:Hs'; [|rewrite JumpTo_spec by done; by rewrite Hs'].
    destruct (Hjump d id w Hd ltac:(by exists s')) as [HJ Hm]. by exists (moved id d).
Qed.

End ops.
(** *** Witnesses and examples *)

(** A hypervisor that always succeeds and remembers what it was asked to
    restore. *)
#[local] Instance log_world : World (list Z) string := {
  hyp_Snapshot w := (Ok 77, w);
  hyp_Restore w id := (Ok tt, w ++ [id]);
  hyp_SetSeed w _ := (Ok tt, w);
  Explorer.ctx_Err w := (false, w);
  time_Now w := (0, w) }.

Definition at_node (id : Z) : Debugger := moved id (mkDebugger t4 (Some (mkVM "vm" StatusRunning)) 0).

Lemma at_node_attached id : is_Some (snapshots t4 !! id) → attached (at_node id).
Proof.
  intros Hid. unfold at_node. pose proof t4_wf as [H1 H2 H3]. split; [by eexists| |done]. split; simpl; done.
Qed.

Lemma debugger_stays_on_tree_witness :
  let os := [OpJumpTo 4; OpStepBack; OpBranch 9; OpStepForward; OpForward 99] in
  let d := (run_ops os (Attach (Some (mkVM "vm" StatusRunning)) (New t4) : result (DebugError string) unit * Debugger).2 []).1 in
  attached d ∧ ∃ path, Timeline d = Some path ∧ last path = Some (current d).
Proof.
  intros os d.
  destruct (debugger_stays_on_tree (E := string) t4 (mkVM "vm" StatusRunning) os [] t4_wf eq_refl ltac:(vm_compute; reflexivity))
    as (_ & Ha & (path & Hp & _ & Hl) & _).
  exact (conj Ha (ex_intro _ path (conj Hp Hl))).
Defined.

Lemma time_travel_witness :
  ∃ s path, snapshots t4 !! 4 = Some s ∧ Timeline (at_node 4) = Some path ∧
    ∃ d' w' path', StepBack (at_node 4) [] = (Ok tt, d', w') ∧ attached d' ∧ Timeline d' = Some path' ∧ path = path' ++ [4].
Proof.
  eexists. eexists. split; [vm_compute; reflexivity|]. split; [vm_compute; reflexivity|].
  refine (proj1 (proj2 (time_travel (at_node 4) _ _ [] _ _ _ _)) _).
  - apply at_node_attached. vm_compute. by eexists.
  - vm_compute. reflexivity.
  - vm_compute. reflexivity.
  - intros w id. by exists (w ++ [id]).
  - vm_compute. discriminate.
Defined.

(** A branch is a node without a hypervisor snapshot, although one was taken,
    and going to it asks the hypervisor for the identifier of the tree. *)
Example branch_then_jump :
  let '(r, d, w) := Branch 9 (at_node 4) [] in
  let '(r', d', w') := JumpTo 5 d w in
  (r, s_HypervisorID <$> snapshots (tree d) !! 5, w', r') = (Ok 5, Some 0, [5], Ok tt).
Proof. vm_compute. reflexivity. Qed.

(** When the seed cannot be set, the branch fails but its node stays. *)
Example failed_branch_leaves_node :
  let broken : World unit string := {| hyp_Snapshot w := (Ok 77, w); hyp_Restore w id := (Ok tt, w);
    hyp_SetSeed w _ := (Err "seed"%string, w); Explorer.ctx_Err w := (false, w); time_Now w := (0, w) |} in
  let '(r, d, _) := @Branch _ _ broken 9 (at_node 4) tt in
  (r, Len (tree d)) = (Err (HypError "seed"%string), Len t4 + 1).
Proof. vm_compute. reflexivity. Qed.

End Nav.

(** ** Sessions ([session.go]) *)

Module Cursor.

Record Session := mkSession {
  sID : string; RunID : string; ProjectID : string; TestID : string; currentStep : Z; maxStep : Z;
  evStorePath : string; treePath : string; stree : option Tree }.
#[export] Instance Session_eta : Eta Session := mkEta _ (λ r,
  mkSession (sID r) (RunID r) (ProjectID r) (TestID r) (currentStep r) (maxStep r) (evStorePath r) (treePath r) (stree r)).

Definition CurrentStep (s : Session) : Z := currentStep s.
Definition MaxStep (s : Session) : Z := maxStep s.

Definition Advance (n : Z) (s : Session) : Session :=
  let s := s <| currentStep := add64 (currentStep s) n |> in
  if maxStep s <? currentStep s then s <| currentStep := maxStep s |> else s.

Definition Rewind (n : Z) (s : Session) : Session :=
  if currentStep s <=? n then s <| currentStep := 0 |> else s <| currentStep := sub64 (currentStep s) n |>.

Definition JumpToStep (step : Z) (s : Session) : Session :=
  let step := if maxStep s <? step then maxStep s else step in s <| currentStep := step |>.

Section store.
Context (decode : bytes → option Event) (files : string → option bytes) (load_tree : string → option Tree).

Definition Events (extra : Filter) (s : Session) : option (list Event) :=
  all ← Query decode (files (evStorePath s)) (mkFilter 0 (Types extra) (fContainer extra) 0 0 (Limit extra));
  Some (filter (λ e, Step e <= currentStep s) all).

(** The history of the tree, loaded once; without a tree no moments. *)
Definition Moments (s : Session) : list NodeInfo * Session :=
  match stree s with
  | Some t => (History t, s)
  | None =>
      match load_tree (treePath s) with
      | None => ([], s)
      | Some t => (History t, s <| stree := Some t |>)
      end
  end.

Record SessionState := mkState {
  st_ID : string; st_RunID : string; st_ProjectID : string; st_TestID : string; st_CurrentStep : Z; st_MaxStep : Z }.

Definition State (s : Session) : SessionState :=
  mkState (sID s) (RunID s) (ProjectID s) (TestID s) (currentStep s) (maxStep s).

Abbreviation SessionManager := (gmap string Session).

Definition NewSessionManager : SessionManager := ∅.

Definition max_step (events : list Event) : Z := foldl (λ m e, if m <? Step e then Step e else m) 0 events.

Definition Create (id runID pid tid evPath trPath : string) (m : SessionManager) : option (Session * SessionManager) :=
  events ← Query decode (files evPath) no_filter;
  let mx := max_step events in
  let sess := mkSession id runID pid tid mx mx evPath trPath None in
  Some (sess, <[id := sess]> m).

Definition Get (id : string) (m : SessionManager) : option Session := m !! id.

Definition Delete (id : string) (m : SessionManager) : SessionManager := delete id m.

(** In map order. *)
Definition List_ (m : SessionManager) : list SessionState := map (λ kv, State kv.2) (map_to_list m).

(** *** Lemmas *)

Inductive cursor_op := CAdvance (n : Z) | CRewind (n : Z) | CJump (step : Z).

Definition run_cursor (s : Session) (o : cursor_op) : Session :=
  match o with CAdvance n => Advance n s | CRewind n => Rewind n s | CJump n => JumpToStep n s end.

(** The cursor as it is documented, on unbounded integers. *)
Definition spec_cursor (mx cur : Z) (o : cursor_op) : Z :=
  match o with
  | CAdvance n => Z.min mx (cur + n)
  | CRewind n => Z.max 0 (cur - n)
  | CJump n => Z.min mx n
  end.

Definition op_amount (o : cursor_op) : Z := match o with CAdvance n | CRewind n | CJump n => n end.

Lemma run_cursor_spec s o :
  0 ≤ currentStep s ≤ maxStep s → 0 ≤ op_amount o → maxStep s + op_amount o < 2 ^ 64 →
  run_cursor s o = s <| currentStep := spec_cursor (maxStep s) (currentStep s) o |> ∧
  0 ≤ spec_cursor (maxStep s) (currentStep s) o ≤ maxStep s.
Proof.
  intros Hs Ho Hb. destruct o as [n|n|n]; simpl in *.
  - unfold Advance, add64. simpl. rewrite wrap_small by (split; lia). split; [|lia].
    case_bool; simpl; unfold setter; do 2 f_equal; lia.
  - unfold Rewind, sub64. case_bool; simpl; [|rewrite wrap_small by (split; lia)]; (split; [|lia]); do 2 f_equal; lia.
  - unfold JumpToStep. case_bool; simpl; (split; [|lia]); do 2 f_equal; lia.
Qed.

Lemma max_step_spec events : ∀ m, 0 ≤ m →
  m ≤ foldl (λ m e, if m <? Step e then Step e else m) m events ∧
  (∀ e, e ∈ events → Step e ≤ foldl (λ m e, if m <? Step e then Step e else m) m events).
Proof.
  induction events as [|e events IH]; intros m Hm; [simpl; split; [lia|by intros e ?%elem_of_nil]|]. cbn [foldl].
  destruct (Z.ltb_spec m (Step e)).
  - destruct (IH (Step e)) as [H1 H2]; [lia|]. split; [lia|]. intros x [->|Hx]%elem_of_cons; [done|by apply H2].
  - destruct (IH m) as [H1 H2]; [lia|]. split; [lia|]. intros x [->|Hx]%elem_of_cons; [lia|by apply H2].
Qed.

(** A session.  It starts at the last step of the run; every sequence of
    moves by amounts that do not overflow takes the cursor where the unbounded
    specification says, within the run; and at any position the events without a
    limit are exactly those of the run, of the requested types and container, up
    to the cursor, all of them at the start. *)
Theorem session_cursor (id runID pid tid evPath trPath : string) (m : SessionManager) (content : bytes)
    (extra : Filter) (os : list cursor_op) (Hfile : files evPath = Some content) (Hlim : Limit extra = 0)
    (Hops : ∀ o, o ∈ os → 0 ≤ op_amount o < 2 ^ 63)
    (Hsteps : ∀ e, e ∈ lines_events decode (lines content) → 0 ≤ Step e < 2 ^ 63) :
  let all := lines_events decode (lines content) in
  let visible s := filter (λ e, Step e <= currentStep s)
    (filter (λ e, match_ e (mkFilter 0 (Types extra) (fContainer extra) 0 0 0) (list_to_set (Types extra)) = true) all) in
  ∃ s0 m', Create id runID pid tid evPath trPath m = Some (s0, m') ∧ Get id m' = Some s0 ∧
    (∀ e, e ∈ all → Step e ≤ currentStep s0) ∧
    let s := foldl run_cursor s0 os in
    currentStep s = foldl (spec_cursor (maxStep s0)) (currentStep s0) os ∧
    0 ≤ currentStep s ≤ maxStep s0 ∧ maxStep s = maxStep s0 ∧
    Events extra s = Some (visible s).
Proof.
  intros all visible. unfold Create. rewrite Hfile, Query_spec. cbn [mbind option_bind].
  set (evs := selected no_filter (lines_events decode (lines content))).
  assert (evs = all) as Hevs.
  { unfold evs, selected, limited. simpl.
    apply filter_all_in. intros e _. done. }
  rewrite Hevs. set (mx := max_step all).
  assert (0 ≤ mx < 2 ^ 63 ∧ ∀ e, e ∈ all → Step e ≤ mx) as [Hmx Hall].
  { destruct (max_step_spec all 0 ltac:(lia)) as [H1 H2]. split; [|done]. split; [done|].
    unfold mx, max_step. clear H1 H2. assert (∀ l m, 0 ≤ m < 2 ^ 63 → (∀ e, e ∈ l → 0 ≤ Step e < 2 ^ 63) →
      foldl (λ m e, if m <? Step e then Step e else m) m l < 2 ^ 63) as Hb.
    { induction l as [|e l IH]; intros m0 Hm Hl; [simpl; lia|]. cbn [foldl]. apply IH; [|intros; apply Hl; by right].
      assert (0 ≤ Step e < 2 ^ 63) by (apply Hl; by left). case_bool; lia. }
    apply Hb; [lia|done]. }
  set (s0 := mkSession id runID pid tid mx mx evPath trPath None).
  exists s0, (<[id := s0]> m). split; [done|]. split; [by unfold Get; rewrite lookup_insert_eq|]. split; [done|].
  assert (∀ os s, (∀ o, o ∈ os → 0 ≤ op_amount o < 2 ^ 63) → maxStep s = mx → evStorePath s = evPath → 0 ≤ currentStep s ≤ mx →
    let s' := foldl run_cursor s os in currentStep s' = foldl (spec_cursor mx) (currentStep s) os ∧ 0 ≤ currentStep s' ≤ mx ∧
      maxStep s' = mx ∧ evStorePath s' = evPath) as Hrun.
  { clear -Hmx. induction os as [|o os IH]; intros s Ho Hm He Hc; [simpl; split_and!; done || lia|]. cbn [foldl].
    assert (0 ≤ op_amount o < 2 ^ 63) as Ho1 by (apply Ho; by left).
    destruct (run_cursor_spec s o) as [E Hr]; [lia..|].
    rewrite E. rewrite Hm in Hr |- *. destruct (IH (s <| currentStep := spec_cursor mx (currentStep s) o |>)) as (H1 & H2 & H3 & H4);
      [intros; apply Ho; by right|done|done|done|]. split_and!; done || lia. }
  destruct (Hrun os s0 Hops eq_refl eq_refl ltac:(simpl; lia)) as (H1 & H2 & H3 & H4). cbv zeta in *.
  change (maxStep s0) with mx. change (currentStep s0) with mx in *. split; [done|]. split; [done|]. split; [done|]. unfold Events. rewrite H4, Hfile, Query_spec. cbn [mbind option_bind]. rewrite Hlim. done.
Qed.
End store.

Definition example_log : bytes := String.list_ascii_of_string ("{1}" ++ String (Ascii.ascii_of_nat 10) "{2}").

Lemma session_cursor_witness :
  ∃ s0 m', Create example_decode (λ _, Some example_log) "s" "r" "p" "t" "f" "" ∅ = Some (s0, m') ∧
    let s := foldl run_cursor s0 [CRewind 1] in
    currentStep s = foldl (spec_cursor (maxStep s0)) (currentStep s0) [CRewind 1] ∧
    currentStep s = 1.
Proof.
  destruct (session_cursor example_decode (λ _, Some example_log) "s" "r" "p" "t" "f" "" ∅ example_log no_filter [CRewind 1])
    as (s0 & m' & HC & _ & _ & H & _).
  - reflexivity.
  - reflexivity.
  - intros o ->%list_elem_of_singleton. simpl. lia.
  - intros e He%list_elem_of_In. vm_compute in He. destruct He as [<-|[<-|[]]]; simpl; lia.
  - exists s0, m'. split; [exact HC|]. split; [exact H|]. vm_compute in HC. injection HC as <- _. reflexivity.
Defined.

(** The limit is applied before the cursor: the first two events of the run
    are after it, so nothing is shown of the one before it; and an advance that
    overflows goes back. *)
Example limit_before_cursor :
  let content := String.list_ascii_of_string ("{3}" ++ String (Ascii.ascii_of_nat 10) ("{2}" ++ String (Ascii.ascii_of_nat 10) "{1}")) in
  let s := mkSession "s" "r" "p" "t" 1 3 "f" "" None in
  let ev limit := (map Step) <$> Events example_decode (λ _, Some content) (mkFilter 0 [] "" 0 0 limit) s in
  (ev 0, ev 2, currentStep (Advance (2 ^ 64 - 1) s)) = (Some [1], Some [], 0).
Proof. vm_compute. reflexivity. Qed.

End Cursor.
