(* ===== verification/Interleave.v ===== *)
(** * Concurrent workers

    A worker is a program whose every step works on the state that all workers
    share: a critical section, or one call of an object that locks itself.
    Workers run interleaved, in any order.  Then a logic for one worker among
    others, in the manner of rely and guarantee: [safe] says that a worker never
    panics whatever the others do within the rely [R], and that each of its own
    steps is a transition [T] of the shared state and of a ghost value of its
    own; [interleaving] puts the workers together. *)
From S2P Require Import Prelude.
From stdpp Require Import relations.

(** ** Programs *)

(** [None] is a panic. *)
Inductive prog (S A : Type) : Type :=
| Done (a : A)
| Atom (f : S → option (prog S A * S)).
Arguments Done {S A} _.
Arguments Atom {S A} _.

Fixpoint prog_bind {S A B} (k : A → prog S B) (p : prog S A) : prog S B :=
  match p with
  | Done a => k a
  | Atom f => Atom (λ s, match f s with Some (p, s) => Some (prog_bind k p, s) | None => None end)
  end.

(** One step on the shared state. *)
Definition once {S A} (f : S → option (A * S)) : prog S A :=
  Atom (λ s, match f s with Some (a, s) => Some (Done a, s) | None => None end).

(** ** Workers together *)

Definition config (S A : Type) : Type := list (prog S A) * S.

Inductive worker_step {S A} : config S A → config S A → Prop :=
| WorkerStep ps s i f p s' :
    ps !! i = Some (Atom f) → f s = Some (p, s') → worker_step (ps, s) (<[i := p]> ps, s').

Definition panics {S A} (c : config S A) : Prop := ∃ f, Atom f ∈ c.1 ∧ f c.2 = None.

Definition finished {S A} (c : config S A) : Prop := Forall (λ p, ∃ a, p = Done a) c.1.

Definition is_done {S A} (p : prog S A) : bool := match p with Done _ => true | Atom _ => false end.

(** One step of worker [i], nothing if it has finished; [None] is a panic. *)
Definition schedule_one {S A} (i : nat) (c : config S A) : option (config S A) :=
  match c.1 !! i with
  | Some (Atom f) => match f c.2 with Some (p, s) => Some (<[i := p]> c.1, s) | None => None end
  | _ => Some c
  end.

(** A schedule: the worker that makes each step. *)
Fixpoint run_schedule {S A} (sched : list nat) (c : config S A) : option (config S A) :=
  match sched with
  | [] => Some c
  | i :: sched => match schedule_one i c with Some c => run_schedule sched c | None => None end
  end.

(** ** Termination

    Programs are finite: no schedule is infinite. *)

Definition next {S A} (p' p : prog S A) : Prop := ∃ f s s', p = Atom f ∧ f s = Some (p', s').

Lemma prog_induction {S A} (P : prog S A → Prop) :
  (∀ a, P (Done a)) → (∀ f, (∀ s p s', f s = Some (p, s') → P p) → P (Atom f)) → ∀ p, P p.
Proof.
  intros Hd Ha. fix IH 1. intros [a|f]; [apply Hd|]. apply Ha. intros s p s'. destruct (f s) as [[q s0]|]; [|discriminate].
  intros [= <- _]. apply IH.
Qed.

Lemma next_wf {S A} : well_founded (next (S := S) (A := A)).
Proof.
  intros p. induction p as [a|f IH] using prog_induction; constructor; intros p' (f' & s & s' & E & Ef); [done|].
  injection E as <-. by apply (IH s p' s').
Qed.

(** One worker of the list takes a step. *)
Definition next_among {S A} (ps' ps : list (prog S A)) : Prop := ∃ i p p', ps !! i = Some p ∧ next p' p ∧ ps' = <[i := p']> ps.

Lemma next_among_wf {S A} : well_founded (next_among (S := S) (A := A)).
Proof.
  intros ps. induction ps as [|p ps IH].
  { constructor. intros ps' (i & q & q' & H & _). by rewrite lookup_nil in H. }
  revert p. refine (well_founded_ind next_wf _ _). intros p IHp. revert IHp.
  induction IH as [ps _ IH]. intros IHp. constructor. intros ps' ([|i] & q & q' & Hq & Hn & ->); cbn in Hq.
  - injection Hq as <-. by apply IHp.
  - apply IH.
    + by exists i, q, q'.
    + intros p' Hp'. apply IHp in Hp'. apply Hp'. by exists (Datatypes.S i), q, q'.
Qed.

Lemma worker_step_wf {S A} : well_founded (λ c' c : config S A, worker_step c c').
Proof.
  intros [ps s]. revert s. induction (next_among_wf ps) as [ps _ IH]. intros s. constructor.
  intros c' Hc. inversion Hc; subst. apply IH. exists i, (Atom f), p. split_and!; [done|by exists f, s, s'|done].
Qed.

Lemma no_infinite_run {S A} (run : nat → config S A) : ¬ ∀ i, worker_step (run i) (run (Datatypes.S i)).
Proof.
  intros Hrun. assert (∀ c i, run i = c → False) as He by (intros c; induction (worker_step_wf c) as [c _ IH]; intros i <-; by eapply IH).
  by apply (He (run 0) 0).
Qed.

(** ** The logic *)

Section logic.
Context {S G : Type} (R : S → S → Prop) `{!PreOrder R} (I : S → G → Prop) (T : S → G → S → G → Prop).

(** [s0] is the shared state when the worker last saw it; [I] is what it may
    take for granted of the shared state and its ghost value. *)
Fixpoint safe {A} (p : prog S A) (s0 : S) (g : G) (Q : A → S → G → Prop) : Prop :=
  match p with
  | Done a => Q a s0 g
  | Atom f => ∀ s, R s0 s → I s g →
      match f s with
      | Some (p, s') => ∃ g', T s g s' g' ∧ R s s' ∧ safe p s' g' Q
      | None => False
      end
  end.

Definition stable {A} (Q : A → S → G → Prop) : Prop := ∀ a s s' g, R s s' → Q a s g → Q a s' g.

Lemma safe_bind {A B} (k : A → prog S B) p s0 g Q :
  safe p s0 g (λ a s g, safe (k a) s g Q) → safe (prog_bind k p) s0 g Q.
Proof.
  revert s0 g. induction p as [a|f IH] using prog_induction; intros s0 g; [done|]. cbn. intros Hs s Hr Hi. specialize (Hs s Hr Hi).
  destruct (f s) as [[p s']|] eqn:Ef; [|done]. destruct Hs as (g' & Ht & Hr' & Hs). exists g'. split_and!; [done|done|].
  by apply (IH s p s').
Qed.

Lemma safe_mono {A} (Q Q' : A → S → G → Prop) p s0 g :
  safe p s0 g Q → (∀ a s g, R s0 s → Q a s g → Q' a s g) → safe p s0 g Q'.
Proof.
  revert s0 g. induction p as [a|f IH] using prog_induction; intros s0 g; cbn.
  - intros Hq HQ. by apply HQ.
  - intros Hs HQ s Hr Hi. specialize (Hs s Hr Hi). destruct (f s) as [[p s']|] eqn:Ef; [|done].
    destruct Hs as (g' & Ht & Hr' & Hs). exists g'. split_and!; [done|done|]. apply (IH s p s' Ef); [done|].
    intros a s1 g1 H1. apply HQ. by do 2 (etrans; [eassumption|]).
Qed.

(** What the others do in between. *)
Lemma safe_later {A} (Q : A → S → G → Prop) p s0 s1 g : stable Q → R s0 s1 → safe p s0 g Q → safe p s1 g Q.
Proof.
  intros HQ Hr. destruct p as [a|f]; cbn; [by apply HQ|]. intros Hs s H1. apply Hs. by etrans.
Qed.

Lemma safe_once {A} (f : S → option (A * S)) s0 g (Q : A → S → G → Prop) :
  (∀ s, R s0 s → I s g → ∃ a s' g', f s = Some (a, s') ∧ T s g s' g' ∧ R s s' ∧ Q a s' g') → safe (once f) s0 g Q.
Proof. intros Hf s Hr Hi. destruct (Hf s Hr Hi) as (a & s' & g' & -> & Ht & Hr' & HQ). eauto. Qed.

(** Workers that are safe, each with its ghost value, at some state. *)
Definition all_safe {A} (Q : A → S → G → Prop) (ps : list (prog S A)) (s : S) (gs : list G) : Prop :=
  Forall2 (λ p g, safe p s g Q) ps gs.

(** An invariant of the shared state and the ghost values that every transition
    of any one worker preserves. *)
Definition closed (J : S → list G → Prop) : Prop :=
  ∀ s gs i g s' g', J s gs → gs !! i = Some g → T s g s' g' → J s' (<[i := g']> gs).

Lemma interleaving {A} (Q : A → S → G → Prop) (J : S → list G → Prop) ps s gs c :
  stable Q → (∀ s gs i g, J s gs → gs !! i = Some g → I s g) → closed J → all_safe Q ps s gs → J s gs → rtc worker_step (ps, s) c →
  ¬ panics c ∧ R s c.2 ∧ ∃ gs', length gs' = length gs ∧ J c.2 gs' ∧ all_safe Q c.1 c.2 gs'.
Proof.
  intros HQ HI HJ Hs Hj Hc. remember (ps, s) as c0 eqn:E. revert ps s gs E Hs Hj.
  induction Hc as [c|c1 c2 c3 H1 H2 IH]; intros ps s gs -> Hs Hj.
  - split_and!; [|done|by exists gs]. intros (f & [i Hi]%list_elem_of_lookup & Hf). cbn in *.
    destruct (Forall2_lookup_l _ _ _ _ _ Hs Hi) as (g & Hg & Hsafe). specialize (Hsafe s ltac:(done) (HI _ _ _ _ Hj Hg)). by rewrite Hf in Hsafe.
  - inversion H1 as [ps' s0 i f p s' Hi Hf]; subst.
    destruct (Forall2_lookup_l _ _ _ _ _ Hs Hi) as (g & Hg & Hsafe). specialize (Hsafe s ltac:(done) (HI _ _ _ _ Hj Hg)). rewrite Hf in Hsafe.
    destruct Hsafe as (g' & Ht & Hr & Hp).
    destruct (IH (<[i := p]> ps) s' (<[i := g']> gs) eq_refl) as (Hnp & Hr' & gs' & Hl & Hj' & Hs').
    + apply Forall2_insert; [|done]. eapply Forall2_impl; [exact Hs|]. intros q h. by apply safe_later.
    + by apply (HJ s gs i g).
    + split_and!; [done|by etrans|]. exists gs'. split_and!; [by rewrite Hl, length_insert|done|done].
Qed.

(** From wherever it is, the system gets to its end. *)
Lemma gets_finished {A} (c : config S A) : (∀ c', rtc worker_step c c' → ¬ panics c') → ∃ c', rtc worker_step c c' ∧ finished c'.
Proof.
  induction (worker_step_wf c) as [c _ IH]. intros Hnp.
  destruct (decide (Forall (λ p, is_done p = true) c.1)) as [Hd|Hd].
  - exists c. split; [done|]. eapply Forall_impl; [exact Hd|]. intros [a|f]; [by exists a|discriminate].
  - apply not_Forall_Exists, Exists_exists in Hd as (p & [i Hi]%list_elem_of_lookup & Hp); [|intros ?; apply _].
    destruct p as [a|f]; [by destruct Hp|]. destruct c as [ps s]. cbn in Hi.
    destruct (f s) as [[q s']|] eqn:Ef.
    + assert (worker_step (ps, s) (<[i := q]> ps, s')) as H1 by by econstructor.
      destruct (IH _ H1) as (c' & H2 & Hf).
      { intros c' H2. apply Hnp. by eapply rtc_l. }
      exists c'. split; [by eapply rtc_l|done].
    + exfalso. apply (Hnp (ps, s)); [done|]. exists f. split; [by eapply list_elem_of_lookup_2|done].
Qed.
End logic.

(** A schedule is a sequence of steps. *)
Lemma run_schedule_steps {S A} sched : ∀ (c c' : config S A), run_schedule sched c = Some c' → rtc worker_step c c'.
Proof.
  induction sched as [|i sched IH]; intros c c'; cbn; [by intros [= <-]|].
  destruct (schedule_one i c) as [c1|] eqn:E; [|done]. intros H%IH. revert E. destruct c as [ps s]. unfold schedule_one. cbn.
  destruct (ps !! i) as [[a|f]|] eqn:Ei; [by intros [= ->]| |by intros [= ->]].
  destruct (f s) as [[p s']|] eqn:Ef; [|done]. intros [= <-]. eapply rtc_l; [by econstructor|done].
Qed.
