(* ===== verification/Pool.v ===== *)
(** * The worker pool: one burst of a worker ([internal/orchestrator/pool.go])

    The workers of the pool explore concurrently, each with a machine, a tree
    and a frontier of its own; they share the fields of [VMPool].  A worker runs
    in a state monad over its own fields whose steps are those of [Interleave]:
    every critical section and every call of a shared object that locks itself
    is one step, [share]; what a worker does to its own fields is no step.  The
    hypervisor, listener and clock of a worker are the class [Machine]; the calls
    that inject faults are the class [Injection].  Progress events, observers and
    log lines are left out. *)
From stdpp Require Import strings pretty.
From S2P Require Import Prelude Strings Word Float GoLib Json Prng TestConfig SnapshotTree Coverage InputTree ChoiceBuffer Novelty.
From S2P Require Import Frontier Explorer Output Composer EventStore Fault Schedule Adaptive FaultInject Campaign Interleave Explore ExploreLoop.
Local Open Scope Z_scope.

(** ** Data *)

(** What the pool asks of the hypervisor, the listener and the files besides
    [action]; each may fail. *)
Inductive pool_action :=
| SetPreemptionSchedule (intervals : list Z) | SetClockRate (multiplier : float64) | DrainLifecycle
| SetSocketPath | WaitConnectedFor (ns : Z) | RestoreForceKillRestart (id : Z).

Class PoolMachine (W : Type) `{Machine W} := {
  pact : pool_action → W → bool * W;
  Snapshot : W → option Z * W }.

(** The fields of [VMPool] that are set once: the configuration, the scorer, the
    injectors, and what interfaces the hypervisor implements. *)
Record PoolConfig := mkPoolConfig {
  cfg : FaultInject.RunConfig; StateDir : string; pMemoryMB : Z; pGCInterval : Z; expCfg : Explorer.Config; scorer : Scorer;
  faultNet : option NetworkInjector; faultNode : option NodeInjector; swarmProfile : option SwarmProfile;
  adaptiveFaultRates : gmap Kind float64; isPreemptionScheduler : bool; isClockRateController : bool; isFirecracker : bool }.

(** The fields that the workers change. *)
Record VMPool (B : Type) := mkVMPool {
  coverage : CoverageTracker; violations : list Violation; assertions : AssertionCounts; assertionEvals : list AssertionEval;
  states : Z; covTimeSeries : list CoveragePoint; faultSchedule : option Schedule;
  violationSchedules : gmap string Schedule; violationScheduleSteps : gmap string Z; evstore : option (list EventStore.Event);
  sometimesAllTracker : gmap string SometimesAllState; comp : option Composer; inputTree : Tracker B; choiceArrays : arrays;
  faultQuietUntil : option Z; satDet : Detector.SaturationDetector; totalBursts : Z }.
Arguments mkVMPool {B}. Arguments coverage {B}. Arguments violations {B}. Arguments assertions {B}. Arguments assertionEvals {B}.
Arguments states {B}. Arguments covTimeSeries {B}. Arguments faultSchedule {B}. Arguments violationSchedules {B}.
Arguments violationScheduleSteps {B}. Arguments evstore {B}. Arguments sometimesAllTracker {B}. Arguments comp {B}.
Arguments inputTree {B}. Arguments choiceArrays {B}. Arguments faultQuietUntil {B}. Arguments satDet {B}. Arguments totalBursts {B}.
#[export] Instance VMPool_eta B : Eta (VMPool B) := mkEta _ (λ r,
  mkVMPool (coverage r) (violations r) (assertions r) (assertionEvals r) (states r) (covTimeSeries r) (faultSchedule r)
    (violationSchedules r) (violationScheduleSteps r) (evstore r) (sometimesAllTracker r) (comp r) (inputTree r) (choiceArrays r)
    (faultQuietUntil r) (satDet r) (totalBursts r)).

(** [listener] and [shmCovReader] are whether the pointers are set; [calls] is
    what the injected faults' receivers have seen.  [faultRng] and [stepCount]
    are local variables of [workerInjectFaults] and [workerLoop]. *)
Record poolWorker (W : Type) := mkPoolWorker {
  id : Z; initialSeed : Z; tree : Tree; frontier : Frontier; rng : Source; listener : bool; shmCovReader : bool;
  currentTimeNS : Z; rootHypID : Z; rootSnapStaging : string; adaptiveFaults : option AdaptiveFaultSelector;
  lastInjectedFault : Kind; currentFaultMask : Z; pendingFaults : list ScheduleEntry; stepHint : Z;
  snapshotFaults : gmap Z (list ScheduleEntry); stepSometimesAllBoost : float64; stepChoiceEvents : Slice;
  faultRng : Source; stepCount : Z; calls : list call; vm : W }.
Arguments mkPoolWorker {W}. Arguments id {W}. Arguments initialSeed {W}. Arguments tree {W}. Arguments frontier {W}.
Arguments rng {W}. Arguments listener {W}. Arguments shmCovReader {W}. Arguments currentTimeNS {W}. Arguments rootHypID {W}.
Arguments rootSnapStaging {W}. Arguments adaptiveFaults {W}. Arguments lastInjectedFault {W}. Arguments currentFaultMask {W}.
Arguments pendingFaults {W}. Arguments stepHint {W}. Arguments snapshotFaults {W}. Arguments stepSometimesAllBoost {W}.
Arguments stepChoiceEvents {W}. Arguments faultRng {W}. Arguments stepCount {W}. Arguments calls {W}. Arguments vm {W}.
#[export] Instance poolWorker_eta W : Eta (poolWorker W) := mkEta _ (λ r,
  mkPoolWorker (id r) (initialSeed r) (tree r) (frontier r) (rng r) (listener r) (shmCovReader r) (currentTimeNS r) (rootHypID r)
    (rootSnapStaging r) (adaptiveFaults r) (lastInjectedFault r) (currentFaultMask r) (pendingFaults r) (stepHint r)
    (snapshotFaults r) (stepSometimesAllBoost r) (stepChoiceEvents r) (faultRng r) (stepCount r) (calls r) (vm r)).

(** ** The monad *)

Definition Y (W B A : Type) : Type := poolWorker W → prog (VMPool B) (A * poolWorker W).
#[export] Instance Y_ret W B : MRet (Y W B) := λ A a w, Done (a, w).
#[export] Instance Y_bind W B : MBind (Y W B) := λ A A' k m w, prog_bind (λ r, k r.1 r.2) (m w).

(** [concurrentCmds]: commands per step. *)
Definition concurrentCmds : nat := 3.
Definition drainInsnsPool : Z := 200000.
Definition maxFrontierPerWorker : nat := 50.

Section pool.
Context {W B : Type} `{PoolMachine W} `{Bitmap64 B} `{Injection} {growth : Growth} (log : float64 → float64) (p : PoolConfig).
Notation Y := (Y W B).
Implicit Types w : poolWorker W.

Definition update (f : poolWorker W → poolWorker W) : Y unit := λ w, Done (tt, f w).
Definition gets {A} (f : poolWorker W → A) : Y A := λ w, Done (f w, w).
Definition run {A} (f : poolWorker W → A * poolWorker W) : Y A := λ w, Done (f w).
Definition withs {A} (f : poolWorker W → Y A) : Y A := λ w, f w w.
Definition panic {A} : Y A := λ w, Atom (λ _, None).

(** One step on what is shared. *)
Definition share {A} (f : VMPool B → A * VMPool B) : Y A := λ w, once (λ s, let '(a, s) := f s in Some ((a, w), s)).
Definition change (f : VMPool B → VMPool B) : Y unit := share (λ s, (tt, f s)).
Definition look {A} (f : VMPool B → A) : Y A := share (λ s, (f s, s)).

(** A method of the coverage tracker. *)
Definition on_coverage {A} (f : CoverageTracker → CoverageTracker * A) : Y A :=
  share (λ s, let '(c, a) := f (coverage s) in (a, s <| coverage := c |>)).

Definition on_vm {A} (f : W → A * W) : Y A := run (λ w, let '(a, v) := f (vm w) in (a, w <| vm := v |>)).
Definition perform (a : action) : Y bool := on_vm (act a).
Definition perform_ (a : action) : Y unit := _ ← perform a; mret tt.
Definition pperform (a : pool_action) : Y bool := on_vm (pact a).
Definition pperform_ (a : pool_action) : Y unit := _ ← pperform a; mret tt.

Definition when (b : bool) (m : Y unit) : Y unit := if b then m else mret tt.

Fixpoint for_each {A} (f : A → Y unit) (l : list A) : Y unit :=
  match l with [] => mret tt | x :: l => _ ← f x; for_each f l end.

(** A loop that or-s what its body answers. *)
Fixpoint any_of {A} (f : A → Y bool) (l : list A) : Y bool :=
  match l with
  | [] => mret false
  | x :: l => b ← f x; c ← any_of f l; mret (b || c)
  end.

(** [for i, a := range l { for _, b := range l[i+1:] { f(a, b) } }]. *)
Fixpoint each_pair {A} (f : A → A → Y unit) (l : list A) : Y unit :=
  match l with
  | [] => mret tt
  | a :: l => _ ← for_each (f a) l; each_pair f l
  end.

Definition exploration : Exploration := c_Exploration (rcTestConfig (cfg p)).
Definition isFCBackend : bool := bool_decide (rcBackend (cfg p) = BackendFirecracker).
Definition fc_listener w : bool := isFCBackend && listener w.

(** [w.currentTimeNS += n * 128]. *)
Definition advance_time (n : Z) : Y unit := update (λ w, w <| currentTimeNS := add64 (currentTimeNS w) (mul64 n 128) |>).

(** [p.evstore.Append]. *)
Definition append_event (e : EventStore.Event) : Y unit := change (λ s, s <| evstore := (λ es, es ++ [e]) <$> evstore s |>).

(** ** Injecting faults *)

(** [workerHit]; a nil map of parameters is an empty one. *)
Definition workerHit (step : Z) (k : Kind) (target targetB : string) (ps : params) : Y unit :=
  withs $ λ w,
    let entry := mkScheduleEntry step k target targetB 0 ps 0 (currentTimeNS w) in
    _ ← update (λ w, w <| currentFaultMask := Z.lor (currentFaultMask w) (KindToMask k) |> <| pendingFaults := pendingFaults w ++ [entry] |>);
    _ ← change (λ s, s <| faultSchedule := (λ sch, Schedule.Record_ sch entry) <$> faultSchedule s |>);
    append_event (mkEvent (currentTimeNS w) (Current (tree w)) step "" "fault_applied"
      [("fault_kind", AnyString k); ("target", AnyString target); ("target_b", AnyString targetB); ("params", AnyMap ps);
       ("worker", AnyInt (id w))]%string).

(** A decision drawn from the generator of the step. *)
Definition draw {A} (d : Source → A * Source) : Y A := run (λ w, let '(a, r) := d (faultRng w) in (a, w <| faultRng := r |>)).

(** [p.hyp.InjectFault]; whether it fails. *)
Definition InjectFault (f : HypFault) : Y bool :=
  run (λ w, (fails (calls w) (ToHyp f), w <| calls := calls w ++ [ToHyp f] |>)).

(** [w.listener.Send], and the [sendWorkerAgent...] methods, which do nothing
    without a listener; all callers drop their error. *)
Definition Send (m : agentFaultMsg) : Y unit :=
  withs $ λ w, if listener w then update (λ w, w <| calls := calls w ++ [ToAgent m] |>) else panic.
Definition SendIf (m : agentFaultMsg) : Y unit := withs $ λ w, if listener w then Send m else mret tt.

Definition sendWorkerAgentFault (kind port : string) (delayMS : Z) : Y unit :=
  SendIf (msg kind <| pl_Port := port |> <| pl_DelayMS := delayMS |>).
Definition sendWorkerAgentPartition (srcPort dstPort direction : string) : Y unit :=
  SendIf (msg "block_one_way" <| pl_SrcPort := srcPort |> <| pl_DstPort := dstPort |> <| pl_Direction := direction |>).
Definition sendWorkerAgentThrottle (port : string) (rateKbps : Z) : Y unit :=
  SendIf (msg "throttle_port" <| pl_Port := port |> <| pl_RateKbps := rateKbps |>).
Definition sendWorkerAgentDiskSlow (node : string) (bps : Z) : Y unit :=
  SendIf (msg "disk_slow_node" <| pl_NodeName := node |> <| pl_Bps := bps |>).
Definition sendWorkerAgentDiskFull (targetFreeBytes : Z) : Y unit :=
  SendIf (msg "disk_full" <| pl_TargetFreeBytes := targetFreeBytes |>).
Definition sendWorkerAgentDiskFlakey (node : string) (intervalSecs durationSecs : Z) : Y unit :=
  SendIf (msg "disk_flakey_node" <| pl_NodeName := node |> <| pl_DiskFlakeyInterval := intervalSecs |> <| pl_DiskFlakeyDuration := durationSecs |>).
Definition sendWorkerAgentDiskCorrupt (node dataDir : string) : Y unit :=
  SendIf (msg "disk_corrupt_node" <| pl_NodeName := node |> <| pl_DataDir := dataDir |>).
Definition sendWorkerAgentMemPressure (node : string) (limitBytes : Z) : Y unit :=
  SendIf (msg "mem_pressure_node" <| pl_NodeName := node |> <| pl_TargetFreeBytes := limitBytes |>).
Definition sendWorkerAgentScript (path : string) (args : list string) (timeoutSeconds : Z) : Y unit :=
  SendIf (msg "exec_script" <| pl_ScriptPath := path |> <| pl_ScriptArgs := args |> <| pl_ScriptTimeout := timeoutSeconds |>).
Definition sendWorkerAgentCPUThrottle (node : string) (pct : Z) : Y unit :=
  SendIf (msg "cpu_throttle_node" <| pl_NodeName := node |> <| pl_CPUPct := pct |>).
Definition sendWorkerAgentCPUModulate (node : string) (speedPct : Z) : Y unit :=
  SendIf (msg "cpu_modulate_node" <| pl_NodeName := node |> <| pl_CPUPct := speedPct |>).
Definition sendWorkerAgentReorder (port : string) (correlation : Z) : Y unit :=
  SendIf (msg "reorder_port" <| pl_Port := port |> <| pl_Correlation := correlation |>).
Definition sendWorkerAgentHangNode (node : string) (durationNS : Z) : Y unit :=
  SendIf (msg "hang_node" <| pl_NodeName := node |> <| pl_DurationNS := durationNS |>).
Definition sendWorkerAgentTerminateNode (node : string) : Y unit := SendIf (msg "terminate_node" <| pl_NodeName := node |>).
Definition sendWorkerAgentPauseNode (node : string) (durationMS : Z) : Y unit :=
  SendIf (msg "pause_node" <| pl_NodeName := node |> <| pl_DurationMS := durationMS |>).

(** [w.adaptiveFaults == nil || selectedFault == k]; [None] for no selector. *)
Definition chosen (sel : option Kind) (k : Kind) : bool :=
  match sel with None => true | Some k' => bool_decide (k' = k) end.

Section injection.
Context (sel : option Kind) (step : Z).

Definition port_of (name : string) : string := nodePort (c_Nodes (rcTestConfig (cfg p))) name.

(** A message to the agent when the node has a port. *)
Definition with_port (name : string) (send : string → Y unit) : Y unit :=
  if bool_decide (port_of name = ""%string) then mret tt else send (port_of name).

(** The agent on Firecracker, the hypervisor elsewhere. *)
Definition deliver (agent : Y unit) (f : HypFault) : Y unit :=
  if isFCBackend then agent else _ ← InjectFault f; mret tt.

Definition try_nway (net : NetworkInjector) : Y unit :=
  when (chosen sel KindNWayPartition) (
    '(_, groups) ← draw (ShouldNWayPartition net (NodeNames (rcTestConfig (cfg p))));
    when (negb (bool_decide (groups = []))) (
      _ ← workerHit step KindNWayPartition "" "" [];
      for_each (λ pr, deliver (sendWorkerAgentPartition pr.1 pr.2 "both")
                        (mkHypFault KindNWayPartition [("src_port", AnyString pr.1); ("dst_port", AnyString pr.2)]%string))
        (cross_pairs (group_ports (cfg p) groups)))).

Definition try_drop (net : NetworkInjector) (a b : string) : Y unit :=
  when (chosen sel KindDrop) (
    drop ← draw (ShouldDrop net a b);
    when drop (
      _ ← workerHit step KindDrop a b [];
      deliver (with_port b (λ port, sendWorkerAgentFault "block_port" port 0)) (mkHypFault KindDrop (src_dst a b)))).

Definition try_delay (net : NetworkInjector) (a b : string) : Y unit :=
  when (chosen sel KindDelay) (
    delay ← draw (Delay net a b);
    when (0 <? delay) (
      let ms := Milliseconds delay in
      _ ← workerHit step KindDelay a b [("ms"%string, AnyInt64 ms)];
      deliver (with_port b (λ port, sendWorkerAgentFault "delay_port" port ms))
        (mkHypFault KindDelay (src_dst a b ++ [("ms"%string, AnyInt64 ms)])))).

Definition try_partition (net : NetworkInjector) (a b : string) : Y unit :=
  when (chosen sel KindPartition) (
    '(partitioned, dir) ← draw (ShouldPartition net a b);
    when partitioned (
      let portA := port_of a in
      let portB := port_of b in
      let ps := [("direction", AnyString (DirectionString dir)); ("src_port", AnyString portA); ("dst_port", AnyString portB)]%string in
      _ ← workerHit step KindPartition a b ps;
      deliver (when (negb (bool_decide (portA = ""%string)) && negb (bool_decide (portB = ""%string)))
                 (sendWorkerAgentPartition portA portB (DirectionString dir)))
        (mkHypFault KindPartition (src_dst a b ++ ps)))).

Definition try_throttle (net : NetworkInjector) (a b : string) : Y unit :=
  when (chosen sel KindThrottle) (
    '(throttled, rate) ← draw (ShouldThrottle net a b);
    when throttled (
      _ ← workerHit step KindThrottle a b [("rate_kbps"%string, AnyInt rate)];
      deliver (with_port b (λ port, sendWorkerAgentThrottle port rate))
        (mkHypFault KindThrottle (src_dst a b ++ [("rate_kbps"%string, AnyInt rate)])))).

Definition try_reorder (net : NetworkInjector) (a b : string) : Y unit :=
  when (chosen sel KindReorder) (
    '(reordered, corr) ← draw (ShouldReorder net a b);
    when reordered (
      _ ← workerHit step KindReorder a b [("correlation"%string, AnyInt corr)];
      deliver (with_port b (λ port, sendWorkerAgentReorder port corr))
        (mkHypFault KindReorder (src_dst a b ++ [("correlation"%string, AnyInt corr)])))).

Definition workerInjectNetFaults : Y unit :=
  match faultNet p with
  | None => mret tt
  | Some net =>
      _ ← try_nway net;
      each_pair (λ a b,
        _ ← try_drop net a b;
        _ ← try_delay net a b;
        _ ← try_partition net a b;
        _ ← try_throttle net a b;
        try_reorder net a b) (NodeNames (rcTestConfig (cfg p)))
  end.

Definition try_hang (nd : NodeInjector) (n : string) : Y unit :=
  when (chosen sel KindHang) (
    '(hang, hangDur) ← draw (ShouldHang nd n);
    when hang (
      let ps := [("duration_ns"%string, AnyInt64 hangDur)] in
      _ ← workerHit step KindHang n "" ps;
      deliver (sendWorkerAgentHangNode n hangDur) (mkHypFault KindHang (on_node n ++ ps)))).

Definition try_terminate (nd : NodeInjector) (n : string) : Y unit :=
  when (chosen sel KindTerminate) (
    terminate ← draw (ShouldTerminate nd n);
    when terminate (
      _ ← workerHit step KindTerminate n "" [];
      deliver (sendWorkerAgentTerminateNode n) (mkHypFault KindTerminate (on_node n)))).

Definition try_dirty_restart (nd : NodeInjector) (n : string) : Y unit :=
  restart ← draw (ShouldDirtyRestart nd n);
  when restart (
    _ ← workerHit step KindTerminate n "" [("dirty"%string, AnyBool true)];
    when isFCBackend (Send (msg "dirty_restart_node" <| pl_NodeName := n |>))).

Definition try_pause (nd : NodeInjector) (n : string) : Y unit :=
  when (chosen sel KindThreadPause) (
    '(pause, pauseDur) ← draw (ShouldPause nd n);
    when pause (
      let ps := [("duration_ms"%string, AnyInt64 (Milliseconds pauseDur))] in
      _ ← workerHit step KindThreadPause n "" ps;
      deliver (sendWorkerAgentPauseNode n (Milliseconds pauseDur)) (mkHypFault KindThreadPause (on_node n ++ ps)))).

Definition try_cpu_throttle (nd : NodeInjector) (n : string) : Y unit :=
  when (chosen sel KindCPUThrottle) (
    '(throttle, pct) ← draw (ShouldCPUThrottle nd n);
    when throttle (
      let ps := [("cpu_pct"%string, AnyInt pct)] in
      _ ← workerHit step KindCPUThrottle n "" ps;
      deliver (sendWorkerAgentCPUThrottle n pct) (mkHypFault KindCPUThrottle (on_node n ++ ps)))).

Definition try_cpu_modulate (nd : NodeInjector) (n : string) : Y unit :=
  when (chosen sel KindCPUModulate) (
    '(modulate, speedPct) ← draw (ShouldCPUModulate nd n);
    when modulate (
      let ps := [("cpu_pct"%string, AnyInt speedPct)] in
      _ ← workerHit step KindCPUModulate n "" ps;
      deliver (sendWorkerAgentCPUModulate n speedPct) (mkHypFault KindCPUModulate (on_node n ++ ps)))).

Definition try_disk_slow (nd : NodeInjector) (n : string) : Y unit :=
  when (chosen sel KindDiskSlow) (
    '(slow, bps) ← draw (ShouldDiskSlow nd n);
    when slow (
      let ps := [("bps"%string, AnyInt64 bps)] in
      _ ← workerHit step KindDiskSlow n "" ps;
      deliver (sendWorkerAgentDiskSlow n bps) (mkHypFault KindDiskSlow (on_node n ++ ps)))).

Definition try_disk_corrupt (nd : NodeInjector) (n : string) : Y unit :=
  when (chosen sel KindDiskCorrupt) (
    corrupt ← draw (ShouldDiskCorrupt nd n);
    when corrupt (
      _ ← workerHit step KindDiskCorrupt n "" [];
      when isFCBackend (sendWorkerAgentDiskCorrupt n (nf_DiskCorruptDataDir (fc_Node (c_Faults (rcTestConfig (cfg p)))))))).

Definition try_mem_pressure (nd : NodeInjector) (n : string) : Y unit :=
  when (chosen sel KindMemPressure) (
    '(pressure, limitBytes) ← draw (ShouldMemPressure nd n);
    when pressure (
      _ ← workerHit step KindMemPressure n "" [("limit_bytes"%string, AnyInt64 limitBytes)];
      when isFCBackend (sendWorkerAgentMemPressure n limitBytes))).

Definition try_script (nd : NodeInjector) (n : string) : Y unit :=
  when (chosen sel KindScript) (
    '(fire, path, args, timeout) ← draw (ShouldScript nd);
    when fire (
      _ ← workerHit step KindScript n ""
            [("path", AnyString path); ("args", AnyStrings args); ("timeout_seconds", AnyInt timeout)]%string;
      when isFCBackend (sendWorkerAgentScript path args timeout))).

Definition try_disk_flakey (nd : NodeInjector) (n : string) : Y unit :=
  when (chosen sel KindDiskFlakey) (
    '(flakey, interval, duration) ← draw (ShouldDiskFlakey nd n);
    when flakey (
      _ ← workerHit step KindDiskFlakey n "" [("interval_secs", AnyInt interval); ("duration_secs", AnyInt duration)]%string;
      when isFCBackend (sendWorkerAgentDiskFlakey n interval duration))).

Definition try_disk_full (nd : NodeInjector) : Y unit :=
  when (chosen sel KindDiskFull) (
    full ← draw (ShouldDiskFull nd "");
    when (full && isFCBackend) (
      _ ← workerHit step KindDiskFull "" "" [];
      sendWorkerAgentDiskFull (nf_DiskFullTargetFreeBytes (fc_Node (c_Faults (rcTestConfig (cfg p))))))).

Definition workerInjectNodeFaults : Y unit :=
  match faultNode p with
  | None => mret tt
  | Some nd =>
      _ ← for_each (λ n,
        _ ← try_hang nd n;
        _ ← try_terminate nd n;
        _ ← try_dirty_restart nd n;
        _ ← try_pause nd n;
        _ ← try_cpu_throttle nd n;
        _ ← try_cpu_modulate nd n;
        _ ← try_disk_slow nd n;
        _ ← try_disk_corrupt nd n;
        _ ← try_mem_pressure nd n;
        _ ← try_script nd n;
        try_disk_flakey nd n) (NodeNames (rcTestConfig (cfg p)));
      try_disk_full nd
  end.

(** A nil injector is a nil dereference here. *)
Definition inject_clock_jitter : Y unit :=
  when (chosen sel KindClockJitter) (
    match faultNode p with
    | None => panic
    | Some nd =>
        jitter ← draw (ClockJitter nd);
        when (negb (jitter =? 0)) (
          let ps := [("jitter_ns"%string, AnyInt64 jitter)] in
          err ← InjectFault (mkHypFault KindClockJitter ps);
          when (negb err) (workerHit step KindClockJitter "" "" ps))
    end).

Definition strobeRates : list float64 := [flit 1 4; flit 1 2; flit 3 4; flit 3 2; float_of_Z 2; float_of_Z 4].

Definition strobe : Y float64 :=
  if chosen sel KindCPUModulate then
    x ← draw Uint64;
    if x mod 4 =? 0 then
      y ← draw Uint64;
      mret (default fzero (strobeRates !! Z.to_nat (y mod Z.of_nat (length strobeRates))))
    else mret fone
  else mret fone.

Definition clock_rate : Y unit :=
  when (isClockRateController p) (multiplier ← strobe; pperform_ (SetClockRate multiplier)).
End injection.

(** The kind that the selector focuses on. *)
Definition select_fault : Y (option Kind) :=
  withs $ λ w,
    match adaptiveFaults w with
    | None => mret None
    | Some a =>
        k ← draw (Select log a);
        _ ← update (λ w, w <| lastInjectedFault := k |>);
        mret (Some k)
    end.

(** The seed of the decisions of a step. *)
Definition fault_seed w : Z := xor64 (initialSeed w) (mul64 (stepHint w) 0xFA17FA17FA17FA17).

Definition workerInjectFaults (step : Z) : Y unit :=
  _ ← update (λ w, w <| currentFaultMask := 0 |> <| pendingFaults := [] |>);
  match faultNet p, faultNode p with
  | None, None => mret tt
  | _, _ =>
      now ← on_vm Now;
      quiet ← look (λ s, match faultQuietUntil s with Some until => now <? until | None => false end);
      if quiet : bool then mret tt
      else
        _ ← update (λ w, w <| faultRng := Prng.New (fault_seed w) |>);
        sel ← select_fault;
        _ ← withs (λ w, when (isFCBackend && match faultNet p with Some _ => true | None => false end && listener w)
                          (sendWorkerAgentFault "clear" "" 0));
        _ ← workerInjectNetFaults sel step;
        _ ← workerInjectNodeFaults sel step;
        _ ← inject_clock_jitter sel step;
        clock_rate sel
  end.

(** ** What a burst wrote *)

Definition update_coverage (data : list Z) : Y bool := on_coverage (λ c, Update c data).

Definition collectWorkerCoverage : Y bool :=
  withs $ λ w,
    b1 ← (if shmCovReader w then
            r ← on_vm CollectShm;
            match r with Some (Some bitmap) => update_coverage bitmap | _ => mret false end
          else mret false);
    b2 ← (if listener w then data ← on_vm DrainCoverage; any_of update_coverage data else mret false);
    mret (b1 || b2).

(** The counters of an assertion type; the types that are not named here are not
    counted. *)
Definition count_assertion (assertType : string) (condition : bool) (c : AssertionCounts) : AssertionCounts :=
  let one := if condition then 1 else 0 in
  let ty t := bool_decide (assertType = t%string) in
  if ty "always" || ty "always_or_unreachable" then
    mkCounts (AlwaysTotal c + 1) (AlwaysPassed c + one) (AlwaysFailed c + (1 - one)) (SometimesTotal c) (SometimesPassed c)
      (ReachableTotal c) (ReachablePassed c)
  else if ty "sometimes" then
    mkCounts (AlwaysTotal c) (AlwaysPassed c) (AlwaysFailed c) (SometimesTotal c + 1) (SometimesPassed c + one)
      (ReachableTotal c) (ReachablePassed c)
  else if ty "reachable" then
    mkCounts (AlwaysTotal c) (AlwaysPassed c) (AlwaysFailed c) (SometimesTotal c) (SometimesPassed c)
      (ReachableTotal c + 1) (ReachablePassed c + one)
  else c.

Section output.
Context (step burstInsns snapID : Z).

Definition eval_of w (a : parsedAssertion) : AssertionEval :=
  mkEval step (currentTimeNS w) snapID (message a) (message a) (assertType a) (condition a).

Definition worker_event (container type_ : string) (payload : params) : Y unit :=
  withs $ λ w, append_event (mkEvent (currentTimeNS w) snapID step container type_ payload).

(** The sub-goals of [sometimes_all]: the tracker and the boost of the step. *)
Definition record_sub_goals (a : parsedAssertion) (goals : list (string * bool)) : Y bool :=
  let eval := sub_goal_eval a goals in
  boost ← share (λ s, let '(boost, tr) := Novelty.RecordSometimesAllEval (sometimesAllTracker s) eval in (boost, s <| sometimesAllTracker := tr |>));
  _ ← update (λ w, w <| stepSometimesAllBoost := fadd (stepSometimesAllBoost w) boost |>);
  if fgt boost fzero
  then on_coverage (λ c, RecordAssertionNovelty c (SometimesAllCoverageKey (message a) (SubGoals eval)))
  else mret false.

Definition process_assertion (container : string) (a : parsedAssertion) : Y bool :=
  withs $ λ w,
    _ ← change (λ s, s <| assertions := count_assertion (assertType a) (condition a) (assertions s) |>
                       <| assertionEvals := assertionEvals s ++ [eval_of w a] |>);
    n1 ← on_coverage (λ c, RecordAssertionNovelty c (novelty_key a));
    n2 ← match goals_of a with Some goals => record_sub_goals a goals | None => mret false end;
    _ ← worker_event container "sdk_assert"
          [("assert_type", AnyString (assertType a)); ("message", AnyString (message a)); ("condition", AnyBool (condition a));
           ("worker", AnyInt (id w))]%string;
    _ ← match goals_of a with
        | Some goals => for_each (λ g, worker_event container "sdk_assert"
            [("assert_type", AnyString "sometimes_all_subgoal"); ("message", AnyString (message a)); ("sub_goal_name", AnyString g.1);
             ("condition", AnyBool g.2); ("satisfied_count", AnyInt (satisfiedCount a)); ("total_count", AnyInt (totalCount a));
             ("worker", AnyInt (id w))]%string)
            (map_to_list (SubGoals (sub_goal_eval a goals)))
        | None => mret tt
        end;
    mret (n1 || n2).

(** [e := entry; e.Step = step]. *)
Definition at_step (n : Z) (e : ScheduleEntry) : ScheduleEntry :=
  mkScheduleEntry n (FaultKind e) (Target e) (TargetB e) (DurationNS e) (Params e) (SnapshotPathHash e) (VirtualTimeNS e).

(** The entries of the snapshots of a path, the first of which is the [i]-th. *)
Fixpoint path_entries (faults : gmap Z (list ScheduleEntry)) (i : Z) (path : list Z) : list ScheduleEntry :=
  match path with
  | [] => []
  | x :: path => map (at_step i) (default [] (faults !! x)) ++ path_entries faults (i + 1) path
  end.

(** The per-path schedule of a violation; [None] is a walk that does not end. *)
Definition buildViolationSchedule w : option Schedule :=
  path ← PathToRoot (tree w) snapID;
  let sched := mkSchedule [] (swarmProfile p) false 0 in
  Some (foldl Schedule.Record_ sched
          (path_entries (snapshotFaults w) 1 (drop 1 path) ++ map (at_step (Z.of_nat (length path))) (pendingFaults w))).

(** [v.Property + "\x00" + v.Message]. *)
Definition violation_key (v : Violation) : string := vProperty v +:+ String (Ascii.ascii_of_nat 0) (vMessage v).

Definition violation_of w (path : list Z) (v : Violation) : Violation :=
  mkViolation (vProperty v) (vMessage v) snapID (match HypervisorID (tree w) snapID with Ok h => h | Err _ => 0 end)
    (initialSeed w) step burstInsns [] path (wrap 16 (currentFaultMask w)) (Z.of_nat concurrentCmds).

(** The schedule kept for a property and message is that of the lowest step. *)
Definition file_violation (v : Violation) (sched : Schedule) (s : VMPool B) : VMPool B :=
  let s := s <| violations := violations s ++ [v] |> in
  let key := violation_key v in
  if match violationScheduleSteps s !! key with Some existing => vStep v <? existing | None => true end
  then s <| violationSchedules := <[key := sched]> (violationSchedules s) |>
         <| violationScheduleSteps := <[key := vStep v]> (violationScheduleSteps s) |>
  else s.

Definition process_violation (v : Violation) : Y unit :=
  withs $ λ w,
    match PathToRoot (tree w) snapID, buildViolationSchedule w with
    | Some path, Some sched => change (file_violation (violation_of w path v) sched)
    | _, _ => panic
    end.

Definition process_choice (rc : parsedRandomChoice) : Y bool :=
  n ← on_coverage (λ c, RecordRandomBranch c (chosenIndex rc) (totalChoices rc));
  _ ← withs (λ w,
        buf ← share (λ s, let '(m, buf) := slice_append (choiceArrays s) (stepChoiceEvents w)
                                             (mkChoice (chosenIndex rc) (totalChoices rc) (valueType rc)) in (buf, s <| choiceArrays := m |>));
        update (λ w, w <| stepChoiceEvents := buf |>));
  mret n.

Definition set_quiet (durSec : float64) : Y unit :=
  if fgt durSec fzero then
    now ← on_vm Now;
    let deadline := now + trunc (fmul durSec (float_of_Z 1000000000)) in
    change (λ s,
      if match faultQuietUntil s with Some until => until <? deadline | None => true end
      then s <| faultQuietUntil := Some deadline |> else s)
  else mret tt.

Definition process_lifecycle (evt : parsedLifecycle) : Y unit :=
  when (bool_decide (eventType evt = "openthesis_stop_faults"%string)) (set_quiet (duration_seconds (lcDetails evt))).

(** What one output brings: novelty, evaluations, violations, and evaluations
    under a fault. *)
Definition process_one (out : OutputData) : Y (bool * Z * Z * Z) :=
  let data := odData out in
  let container := odContainer out in
  let '(assertions, violations) := parseAssertionOutput data in
  n1 ← any_of (process_assertion container) assertions;
  _ ← for_each process_violation violations;
  n2 ← any_of (λ g, on_coverage (λ c, UpdateGuidance c (guidanceType g) (gName g) (gValue g))) (parseGuidanceOutput data);
  n3 ← any_of process_choice (parseRandomChoiceOutput data);
  _ ← for_each process_lifecycle (parseLifecycleOutput data);
  mask ← gets currentFaultMask;
  let evals := Z.of_nat (length assertions) in
  mret (n1 || negb (bool_decide (violations = [])) || n2 || n3, evals, Z.of_nat (length violations), if mask =? 0 then 0 else evals).

Fixpoint process_all (outs : list OutputData) : Y (bool * Z * Z * Z) :=
  match outs with
  | [] => mret (false, 0, 0, 0)
  | out :: outs =>
      r ← process_one out;
      r' ← process_all outs;
      let '(n, a, v, f) := r in
      let '(n', a', v', f') := r' in
      mret (n || n', a + a', v + v', f + f')
  end.

Definition processWorkerOutput : Y (bool * Z * Z * Z) :=
  withs $ λ w,
    if negb (listener w) then mret (false, 0, 0, 0)
    else
      _ ← pperform_ DrainLifecycle;
      outputs ← on_vm DrainOutput;
      process_all outputs.
End output.
End pool.
