(* ===== verification/PoolLoop.v ===== *)
(** * The worker pool: the loop of a worker, and the pool
    ([internal/orchestrator/pool.go], [parallel.go])

    A worker takes a root snapshot, then pops frontier entries and runs bursts
    from each until the deadline, the context or the number of states of the whole
    pool stops it.  The loop runs on fuel; running out of it is a panic, and
    [PoolProps] shows that it does not happen. *)
From stdpp Require Import strings pretty.
From S2P Require Import Prelude Strings Word Float GoLib Json Prng TestConfig SnapshotTree Coverage InputTree ChoiceBuffer Novelty.
From S2P Require Import Frontier Explorer Output Composer EventStore Fault Schedule Adaptive FaultInject Campaign Interleave Explore ExploreLoop Pool.
Local Open Scope Z_scope.

(** ** The length of a burst *)

(** The multiplier before it is clamped. *)
Definition burst_multiplier (fe : FrontierEntry) : float64 :=
  let m := fone in
  let m := if 10 <? RecentNewEdges fe then fmul m (float_of_Z 2)
           else if 0 <? RecentNewEdges fe then fmul m (flit 3 2) else m in
  let m := if fgt (SaturationScore fe) fzero && flt (SaturationScore fe) (flit 3 10) then fmul m (flit 1 2) else m in
  if negb (bool_decide (ActiveFaultKind fe = ""%string)) then fmul m (flit 3 2) else m.

Definition clamp_multiplier (m : float64) : float64 :=
  if flt m (flit 1 2) then flit 1 2 else if fgt m (float_of_Z 3) then float_of_Z 3 else m.

Definition adaptBurstInsns (base : Z) (fe : FrontierEntry) : Z :=
  let result := trunc (fmul (float_of_Z base) (clamp_multiplier (burst_multiplier fe))) in
  if result =? 0 then base else result.

(** ** The preemption schedule *)

Definition preemptionCount : nat := 12.

Definition baseInterval (burstNS : Z) : Z := let b := burstNS / 10 in if b <? 100000 then 100000 else b.

Definition preemption_interval (base : Z) (r : Source) : Z * Source :=
  let '(x, r) := Uint64 r in
  let jitter := x mod (base / 4) in
  let '(y, r) := Uint64 r in
  (if y mod 2 =? 0 then add64 base jitter else sub64 base (jitter / 2), r).

Fixpoint preemption_intervals (n : nat) (base : Z) (r : Source) : list Z :=
  match n with
  | O => []
  | S n => let '(x, r) := preemption_interval base r in x :: preemption_intervals n base r
  end.

Definition generatePreemptionSchedule (r : Source) (burstNS : Z) : list Z :=
  preemption_intervals preemptionCount (baseInterval burstNS) r.

Section loop.
Context {W B : Type} `{PoolMachine W} `{Bitmap64 B} `{Injection} {growth : Growth} (log : float64 → float64) (p : PoolConfig).
Notation Y := (Y W B).
Implicit Types w : poolWorker W.

Definition draw_rng : Y Z := run (λ w, let '(x, r) := Uint64 (rng w) in (x, w <| rng := r |>)).

(** [lo + (w.rng.Uint64() % n)]; a zero [n] would be a panic. *)
Definition in_range (lo n : Z) : Y Z :=
  x ← draw_rng;
  if n =? 0 then panic else mret (add64 lo (x mod n)).

Definition base_burst (step : Z) : Y Z :=
  let cfgMin := ex_BurstMinNS (exploration p) in
  if 0 <? cfgMin then
    let cfgMax := ex_BurstMaxNS (exploration p) in
    let cfgMax := if cfgMax <=? cfgMin then mul64 cfgMin 10 else cfgMax in
    in_range cfgMin (sub64 cfgMax cfgMin)
  else if step mod 4 =? 3 then in_range 3000000 17000000
  else mret (default 0 (burstSweep !! Z.to_nat (step mod Z.of_nat (length burstSweep)))).

(** ** Restoring *)

(** The bursts of [runWorkerUntilConnected]. *)
Fixpoint until_connected (fuel : nat) (maxInsns quantum executed : Z) : Y unit :=
  match fuel with
  | O => panic
  | S fuel =>
      if executed <? maxInsns then
        c ← on_vm IsConnected;
        if c : bool then mret tt
        else
          let chunk := Z.min quantum (maxInsns - executed) in
          err ← perform (RunForInstructions chunk);
          if err : bool then mret tt else until_connected fuel maxInsns quantum (executed + chunk)
      else mret tt
  end.

Definition runWorkerUntilConnected (maxInsns quantum : Z) : Y unit :=
  withs $ λ w,
    if negb (listener w) then perform_ (RunForInstructions maxInsns)
    else until_connected (connect_fuel maxInsns quantum) maxInsns quantum 0.

Definition reconnect : Y unit :=
  _ ← pperform_ SetSocketPath;
  _ ← runWorkerUntilConnected reconnectQuantumInsnsSnap reconnectQuantumInsnsSnap;
  pperform_ (WaitConnectedFor 500000000).

(** Whether it failed. *)
Definition workerRestoreVM (target : Z) : Y bool :=
  withs $ λ w,
    match SnapshotTree.HypervisorID (tree w) target with
    | Err _ => mret true
    | Ok hypID =>
        _ ← when (fc_listener p w) (perform_ NotifyDisconnect);
        err ← perform (Restore hypID);
        if err : bool then mret true
        else
          _ ← match Get (tree w) target with
              | Ok snap => update (λ w, w <| currentTimeNS := s_TimeNS snap |>)
              | Err _ => mret tt
              end;
          if fc_listener p w then
            _ ← reconnect;
            c ← on_vm IsConnected;
            if negb c && isFirecracker p then
              _ ← perform_ NotifyDisconnect;
              rerr ← pperform (RestoreForceKillRestart hypID);
              if rerr : bool then mret true else _ ← reconnect; mret false
            else mret false
          else mret false
    end.

(** ** After the burst *)

(** [p.comp.NextCommand], [nil] without a composer. *)
Definition nextCommand : Y (option Command) := λ w,
  once (λ s,
    match comp s with
    | None => Some (None, w, s)
    | Some c =>
        match NextCommand c with
        | Some (cmd, c) => Some (cmd, w, s <| comp := Some c |>)
        | None => None
        end
    end).

Fixpoint dispatch_commands (n : nat) : Y unit :=
  match n with
  | O => mret tt
  | S n =>
      cmd ← nextCommand;
      _ ← match cmd with
          | Some cmd => perform_ (SendRunCommand (Name cmd) ("/opt/openthesis/test/" +:+ Name cmd))
          | None => mret tt
          end;
      dispatch_commands n
  end.

Definition total_edges : Y Z := look (λ s, TotalEdges (coverage s)).

(** [NewEdges] of the tracker, and the hash of its bitmap. *)
Definition new_edges : Y Z := look (λ s, Coverage.NewEdges (coverage s)).
Definition cov_hash : Y Z := look (λ s, Coverage.Hash (coverage s)).

Definition float_max1000 (x : float64) : float64 := if flt x (flit 1 1000) then flit 1 1000 else x.

(** The reward of the fault of a burst, from all violations and bursts of the
    pool so far. *)
Definition reward_of (burstNewEdges : Z) (foundNovelty : bool) (nViolations bursts : Z) : float64 :=
  let reward := fmul (float_of_Z burstNewEdges) (float_of_Z 10) in
  let reward := if foundNovelty then fadd reward (float_of_Z 50) else reward in
  if 0 <? nViolations then
    let baseRate := float_max1000 (fdiv (float_of_Z nViolations) (float_of_Z (add64 bursts 1))) in
    fadd reward (fdiv (fmul (float_of_Z nViolations) (float_of_Z 500)) baseRate)
  else reward.

Definition count_burst : Y (Z * Z) :=
  share (λ s, ((Z.of_nat (length (violations s)), totalBursts s), s <| totalBursts := add64 (totalBursts s) 1 |>)).

Definition credit (burstNewEdges : Z) (foundNovelty : bool) : Y unit :=
  withs $ λ w,
    match adaptiveFaults w with
    | Some a =>
        if bool_decide (lastInjectedFault w = ""%string) then _ ← count_burst; mret tt
        else
          '(n, total) ← count_burst;
          update (λ w, w <| adaptiveFaults := Some (RecordReward a (lastInjectedFault w) (reward_of burstNewEdges foundNovelty n total)) |>)
    | None => _ ← count_burst; mret tt
    end.

(** An entry with the fields that the pool sets, the others zero. *)
Definition pool_entry (snapshotID depth newEdges : Z) (score boost evals : float64) : FrontierEntry :=
  mkEntry snapshotID score depth newEdges fzero fzero boost 0 0 0 0 fzero fzero 0 "" fzero evals 0.

(** Whether it is new, with the boost of the entry. *)
Definition record_sequence (target : Z) : Y bool :=
  withs $ λ w,
    seq ← look (λ s, NewSequence (choiceArrays s) (stepChoiceEvents w));
    new ← share (λ s, let '(new, t) := RecordSequence (inputTree s) seq in (new, s <| inputTree := t |>));
    _ ← change (λ s, s <| inputTree := RecordFromSnapshot (inputTree s) (pretty target) seq |>);
    mret new.

(** The snapshot taken after a burst: its node in the tree, the faults that led
    to it, its entry. *)
Definition add_child (target childHypID : Z) (foundNovelty : bool) (faultActiveEvals : Z) : Y bool :=
  hash ← cov_hash;
  withs $ λ w,
    match Create (tree w) target childHypID (currentTimeNS w) hash (Prng.State (rng w)) 0 0 with
    | (Err _, _) => mret foundNovelty
    | (Ok childID, t) =>
        _ ← update (λ w, w <| tree := t |>
              <| snapshotFaults := match pendingFaults w with [] => snapshotFaults w | fs => <[childID := fs]> (snapshotFaults w) end |>);
        match Get t childID with
        | Err _ => panic
        | Ok childSnap =>
            ne ← new_edges;
            boost ← gets stepSometimesAllBoost;
            new ← record_sequence target;
            let boost := if new : bool then fadd boost (float_of_Z 500) else boost in
            let entry := pool_entry childID (s_Depth childSnap) ne fzero boost (float_of_Z faultActiveEvals) in
            _ ← update (λ w, w <| frontier := Push (frontier w) (set_score (ScoreEntry (scorer p) entry) entry) |>);
            mret (foundNovelty || new)
        end
    end.

Definition workerMaybeChildSnapshot (target : Z) (foundNewEdges foundNovelty : bool) (faultActiveEvals : Z) : Y bool :=
  if negb foundNewEdges && negb foundNovelty then mret foundNovelty
  else
    withs $ λ w,
      match Get (tree w) target with
      | Err _ => mret foundNovelty
      | Ok parent =>
          if MaxDepth (expCfg p) <=? s_Depth parent then mret foundNovelty
          else
            _ ← when (fc_listener p w) (_ ← perform_ NotifyDisconnect; perform_ (Sleep 100000000));
            child ← on_vm SnapshotPaused;
            match child with
            | None => mret foundNovelty
            | Some childHypID => add_child target childHypID foundNovelty faultActiveEvals
            end
      end.

Fixpoint delete_all (hypIDs : list Z) : Y unit :=
  match hypIDs with [] => mret tt | h :: hs => _ ← perform_ (DeleteSnapshot h); delete_all hs end.

Definition hyp_ids (t : Tree) (ids : list Z) : list Z :=
  omap (λ i, match SnapshotTree.HypervisorID t i with Ok h => Some h | Err _ => None end) ids.

Definition workerRunGC (feID : Z) : Y unit :=
  dropped ← run (λ w, let '(d, f) := Trim (frontier w) maxFrontierPerWorker in (d, w <| frontier := f |>));
  _ ← withs (λ w, delete_all (hyp_ids (tree w) (filter (λ i, i ≠ feID) dropped)));
  withs $ λ w,
    match Prune (tree w) (IDs (frontier w) ++ [feID]) with
    | None => panic
    | Some (deleted, t) => _ ← update (λ w, w <| tree := t |>); delete_all deleted
    end.

(** ** One burst *)

Definition coverage_point (step : Z) : Y unit :=
  edges ← total_edges;
  maxSlots ← look (λ s, MaxMapSize (coverage s));
  let pct := if 0 <? maxSlots then fmul (fdiv (float_of_Z edges) (float_of_Z maxSlots)) (float_of_Z 100) else fzero in
  change (λ s, s <| covTimeSeries := covTimeSeries s ++ [mkCoveragePoint step edges pct] |>).

Definition stopped (deadline : Z) : Y bool :=
  c ← on_vm cancelled;
  if c : bool then mret true else now ← on_vm Now; mret (deadline <? now).

(** [p.states++; step := p.states], under the lock. *)
Definition claim_step : Y Z := share (λ s, let n := add64 (states s) 1 in (n, s <| states := n |>)).

Definition send_overrides (target : Z) : Y unit :=
  withs $ λ w,
    when (listener w) (
      ov ← look (λ s, NextOverrides (choiceArrays s) (inputTree s) (pretty target));
      perform_ (SendChoiceOverrides ov)).

Definition set_preemptions (step burstInsns : Z) : Y unit :=
  withs $ λ w,
    when (isPreemptionScheduler p)
      (pperform_ (SetPreemptionSchedule (generatePreemptionSchedule
         (Prng.New (xor64 (initialSeed w) (mul64 step Prng.gamma))) burstInsns))).

(** What follows a burst that ran: commands, drain, coverage, output, reward,
    snapshot; whether there was novelty. *)
Definition after_burst (step burstInsns preStepEdges : Z) (target : Z) : Y bool :=
  _ ← advance_time burstInsns;
  _ ← withs (λ w, when (listener w) (_ ← dispatch_commands concurrentCmds; perform_ SendFlushCoverage));
  _ ← perform_ (RunForInstructions drainInsnsPool);
  _ ← advance_time drainInsnsPool;
  foundNewEdges ← collectWorkerCoverage;
  edges ← total_edges;
  let burstNewEdges := Z.max 0 (int64 (int64 edges - int64 preStepEdges)) in
  _ ← change (λ s, s <| satDet := Detector.Record_ burstNewEdges (satDet s) |>);
  '(foundNovelty, _, _, faultActiveEvals) ← processWorkerOutput p step burstInsns target;
  _ ← credit burstNewEdges foundNovelty;
  foundNovelty ← workerMaybeChildSnapshot target foundNewEdges foundNovelty faultActiveEvals;
  _ ← update (λ w, w <| stepCount := add64 (stepCount w) 1 |>);
  _ ← withs (λ w, when (stepCount w mod 50 =? 0) (coverage_point step));
  mret (foundNewEdges || foundNovelty).

(** One burst from an entry; false when it was cut short. *)
Definition one_burst (fe : FrontierEntry) : Y bool :=
  let target := Frontier.SnapshotID fe in
  step ← claim_step;
  err ← workerRestoreVM target;
  if err : bool then mret false
  else
    _ ← update (λ w, w <| stepSometimesAllBoost := fzero |> <| stepChoiceEvents := slice_reset (stepChoiceEvents w) |>);
    preStepEdges ← total_edges;
    _ ← update (λ w, w <| stepHint := step |>);
    _ ← workerInjectFaults log p step;
    _ ← send_overrides target;
    base ← base_burst step;
    let burstInsns := adaptBurstInsns base fe in
    _ ← set_preemptions step burstInsns;
    err ← perform (RunForInstructions burstInsns);
    if err : bool then mret false else after_burst step burstInsns preStepEdges target.

(** The bursts from one entry, [n] at most: they go on while they find
    something. *)
Fixpoint bursts (n : nat) (deadline : Z) (fe : FrontierEntry) : Y unit :=
  match n with
  | O => mret tt
  | S n =>
      stop ← stopped deadline;
      if stop : bool then mret tt
      else
        novel ← one_burst fe;
        if novel : bool then bursts n deadline fe else mret tt
  end.

Definition maxBranch : Z := Z.max 1 (BranchFactor (expCfg p)).

Definition gcInterval : Z := resolveGCInterval (pGCInterval p) (ex_GCInterval (exploration p)) (rcBackend (cfg p)).

Definition root_entry (rootID : Z) : FrontierEntry := pool_entry rootID 1 0 fone fzero fzero.

Definition pop : Y FrontierEntry := λ w,
  match Pop (frontier w) with
  | Some (fe, f) => Done (fe, w <| frontier := f |>)
  | None => Atom (λ _, None)
  end.

Fixpoint worker_rounds (fuel : nat) (deadline rootID : Z) : Y unit :=
  match fuel with
  | O => panic
  | S fuel =>
      stop ← stopped deadline;
      if stop : bool then mret tt
      else
        total ← look states;
        if MaxStates (expCfg p) <=? total then mret tt
        else
          _ ← update (λ w, if Len (frontier w) =? 0 then w <| frontier := Push (frontier w) (root_entry rootID) |> else w);
          fe ← pop;
          _ ← bursts (Z.to_nat maxBranch) deadline fe;
          _ ← withs (λ w, when ((stepCount w mod gcInterval =? 0) && (0 <? stepCount w)) (workerRunGC (Frontier.SnapshotID fe)));
          worker_rounds fuel deadline rootID
  end.

(** ** A worker *)

Definition stagingDir : string := StateDir p +:+ "/pool-root-staging-w0".

(** The root snapshot of worker 0 is copied at once. *)
Definition stage_root (hypID : Z) : Y unit :=
  withs $ λ w,
    when ((id w =? 0) && isFCBackend p && isFirecracker p) (
      err ← perform (SaveRootSnapshot stagingDir hypID (if 0 <? pMemoryMB p then pMemoryMB p else 512));
      when (negb err) (update (λ w, w <| rootSnapStaging := stagingDir |>))).

Definition workerSetupRootSnapshot : Y (option Z) :=
  _ ← withs (λ w, when (fc_listener p w) (_ ← perform_ NotifyDisconnect; perform_ (Sleep 100000000)));
  hyp ← on_vm Snapshot;
  match hyp with
  | None => mret None
  | Some hypID =>
      _ ← update (λ w, w <| rootHypID := hypID |>);
      _ ← stage_root hypID;
      hash ← cov_hash;
      withs $ λ w,
        match Create (tree w) (Root (tree w)) hypID (currentTimeNS w) hash (Prng.State (rng w)) 0 0 with
        | (Err _, _) => mret None
        | (Ok rootID, t) =>
            _ ← update (λ w, w <| tree := t |> <| frontier := Push (frontier w) (root_entry rootID) |>);
            mret (Some rootID)
        end
  end.

Definition workerLoop (fuel : nat) (deadline : Z) : Y unit :=
  root ← workerSetupRootSnapshot;
  match root with
  | None => mret tt
  | Some rootID => _ ← update (λ w, w <| stepCount := 0 |>); worker_rounds fuel deadline rootID
  end.
End loop.

(** ** The pool *)

Section results.
Context {W B : Type} `{PoolMachine W} `{Bitmap64 B} `{Injection} {growth : Growth} (log : float64 → float64) (p : PoolConfig).

(** [newVMPool], for [n] workers: the arrays are those of their nil slices. *)
Definition newVMPool (n : nat) (schedule : option Schedule) (c : option Composer) (events : option (list EventStore.Event)) : VMPool B :=
  mkVMPool (NewCoverageTracker (Some (CoverageMapSize (expCfg p)))) [] (mkCounts 0 0 0 0 0 0 0) [] 0 [] schedule ∅ ∅ events ∅ c
    NewTracker (replicate n []) None (Detector.NewSaturationDetector 100 (flit 1 2)) 0.

(** [p.cfg.Seed + uint64(i)*0x9E3779B97F4A7C15]. *)
Definition worker_seed (i : Z) : Z := add64 (rcSeed (cfg p)) (mul64 i Prng.gamma).

(** Worker [i] on the machine that was booted for it. *)
Definition new_worker (i : nat) (v : W) : poolWorker W :=
  let seed := worker_seed (Z.of_nat i) in
  mkPoolWorker (Z.of_nat i) seed NewTree NewFrontier (Prng.New seed) (negb (bool_decide (rcBackend (cfg p) = BackendGVisor))) false 0 0 ""
    (if bool_decide (adaptiveFaultRates p = ∅) then None else Some (NewAdaptiveFaultSelector (adaptiveFaultRates p) fzero))
    "" 0 [] 0 ∅ fzero (mkSlice i 0) (Prng.New 0) 0 [] v.

(** [Start]: the workers, or the first that does not boot; those before it are
    stopped then. *)
Fixpoint start_workers {E} (boot : nat → result E W) (i n : nat) : result (nat * E) (list (poolWorker W)) :=
  match n with
  | O => Ok []
  | S n =>
      match boot i with
      | Err e => Err (i, e)
      | Ok v => match start_workers boot (S i) n with Ok ws => Ok (new_worker i v :: ws) | Err e => Err e end
      end
  end.

Definition Start {E} (boot : nat → result E W) (n : nat) : result (nat * E) (list (poolWorker W)) := start_workers boot 0 n.

(** [Explore]: every worker its loop, on what they share. *)
Definition Explore (fuel : nat) (deadline : Z) (ws : list (poolWorker W)) (s : VMPool B) : config (VMPool B) (unit * poolWorker W) :=
  (map (λ w, workerLoop log p fuel deadline w) ws, s).

(** The workers that have finished. *)
Definition workers_of (c : config (VMPool B) (unit * poolWorker W)) : list (poolWorker W) :=
  omap (λ q, match q with Done r => Some r.2 | Atom _ => None end) c.1.

(** The nodes of all trees, the first one of each identifier. *)
Definition merge_history (seen : gset Z) (ns : list NodeInfo) : gset Z * list NodeInfo :=
  foldl (λ r n, if decide (n_ID n ∈ r.1) then r else ({[n_ID n]} ∪ r.1, r.2 ++ [n])) (seen, []) ns.

Definition TreeHistory (ws : list (poolWorker W)) : list NodeInfo :=
  (merge_history ∅ (concat (map (λ w, History (tree w)) ws))).2.

Definition BuildResult (s : VMPool B) (duration : Z) : Result :=
  mkResult (violations s) (assertions s) (assertionEvals s) [] (states s) (TotalEdges (coverage s)) (Coverage.NewEdges (coverage s)) duration None.

(** The statistics of one arm added to those of the workers before. *)
Definition merge_arm (m : gmap Kind ArmStats) (s : ArmStats) : gmap Kind ArmStats :=
  match m !! asKind s with
  | Some e =>
      let pulls := add64 (asPulls e) (asPulls s) in
      let sum := fadd (fmul (asAvgReward e) (float_of_Z (sub64 pulls (asPulls s)))) (fmul (asAvgReward s) (float_of_Z (asPulls s))) in
      <[asKind s := mkArmStats (asKind e) pulls (if 0 <? pulls then fdiv sum (float_of_Z pulls) else sum) (asBaseRate e)]> m
  | None => <[asKind s := s]> m
  end.

Definition GetAggregatedFaultArmStats (ws : list (poolWorker W)) : list ArmStats :=
  let stats := concat (map (λ w, match adaptiveFaults w with Some a => AllStats a | None => [] end) ws) in
  sort_by (λ x y, String.ltb (asKind x) (asKind y)) (map snd (map_to_list (foldl merge_arm ∅ stats))).

Definition GetViolationSchedules (s : VMPool B) : gmap string Schedule := violationSchedules s.

Definition CoverageTimeSeries (s : VMPool B) : list CoveragePoint := covTimeSeries s.

Definition StageRootSnapshot (ws : list (poolWorker W)) : string :=
  match ws with [] => "" | w :: _ => rootSnapStaging w end.
End results.

(** ** [exploreParallel] *)

Definition parallel_config (c : FaultInject.RunConfig) (duration : Z) (corpusPath : string) : Explorer.Config :=
  let ex := c_Exploration (rcTestConfig c) in
  Explorer.mkConfig (or_default (ex_MaxDepth ex) 100) (or_default (ex_MaxStates ex) 10000) duration (parseStrategy (ex_Strategy ex))
    (rcSeed c) (or_default (ex_BranchFactor ex) 10) (ex_CoverageMapSize ex) corpusPath.

(** The rates of the workers' selectors, from the kinds' maximal rates. *)
Definition parallel_rates (c : FaultInject.RunConfig) (adaptive : bool) (maxRates : gmap Kind float64) : gmap Kind float64 :=
  if adaptive && fc_AdaptiveFaults (c_Faults (rcTestConfig c)) then filter (λ kv, fgt kv.2 fzero = true) maxRates else ∅.

(** The composer is taken to the phase of the drivers. *)
Definition to_drivers (c : option Composer) : option Composer := (λ c, (Advance (Advance c).2).2) <$> c.
