(* ===== verification/PoolProps.v ===== *)
(** * The worker pool: what holds whatever the interleaving

    What every worker guarantees the others ([rely], [trans]), that every
    operation of a worker keeps to it ([keeps]), and the theorems about the pool:
    it terminates without a panic, it does not run away from its budget of
    states, and the schedule kept for a violation is that of the shortest run to
    it. *)
From stdpp Require Import strings pretty sorting.
From S2P Require Import Prelude Strings Word Float GoLib Json Prng TestConfig SnapshotTree SnapshotTreeInv SnapshotTreeProps Coverage InputTree.
From S2P Require Import ChoiceBuffer Novelty Mcts Saturation Frontier Explorer Output Composer EventStore Fault Schedule Adaptive FaultInject.
From S2P Require Import Campaign Interleave Explore ExploreLoop ExploreProps Pool PoolLoop.
Local Open Scope Z_scope.

Class PoolMachineLaws (W : Type) `{PoolMachine W, !MachineLaws W} := {
  later_pact a w : later w (pact a w).2;
  later_Snapshot w : later w (Snapshot w).2 }.
#[export] Hint Resolve later_pact later_Snapshot : later.

(** ** Specification *)

(** A worker's own account: its seed, the steps it may still claim before it
    looks at the number of states again, the step it runs, and how many it has
    claimed. *)
Record ghost := mkGhost { seed : Z; allowance : Z; claimed : option Z; made : Z }.

Section spec.
Context {B : Type} (p : PoolConfig).
Implicit Types s : VMPool B.

(** The schedule of a violation at the end of [path]: what led to each snapshot
    of the path, and what was injected last. *)
Definition path_schedule (faults : gmap Z (list ScheduleEntry)) (pending : list ScheduleEntry) (path : list Z) : list ScheduleEntry :=
  path_entries faults 1 (drop 1 path) ++ map (at_step (Z.of_nat (length path))) pending.

Definition fits (v : Violation) (sched : Schedule) : Prop :=
  scheduleProfile sched = swarmProfile p ∧ ∃ faults pending, Entries sched = path_schedule faults pending (vPath v).

(** What the steps that are not about violations or states leave alone. *)
Definition core s := (states s, violations s, violationSchedules s, violationScheduleSteps s).

Definition comps_ok s : Prop := ∀ c, comp s = Some c → comp_ok c.

(** What the other workers may do. *)
Definition rely s s' : Prop :=
  states s ≤ states s' ∧ (comps_ok s → comps_ok s') ∧ violations s `prefix_of` violations s'.

(** The steps of one worker. *)
Inductive trans s (g : ghost) s' : ghost → Prop :=
| T_other : core s' = core s → trans s g s' g
| T_check : states s < MaxStates (expCfg p) → core s' = core s → trans s g s' (mkGhost (seed g) (maxBranch p) (claimed g) (made g))
| T_claim : 0 < allowance g → states s' = add64 (states s) 1 → violations s' = violations s →
    violationSchedules s' = violationSchedules s → violationScheduleSteps s' = violationScheduleSteps s →
    trans s g s' (mkGhost (seed g) (allowance g - 1) (Some (states s')) (made g + 1))
| T_violation v sched : vSeed v = seed g → claimed g = Some (vStep v) → fits v sched →
    core s' = core (file_violation v sched s) → trans s g s' g.

(** Room for the identifiers of the trees. *)
Definition limit : Z := 2 ^ 32 - 3.

Definition known s (g : ghost) : Prop := 0 ≤ made g ≤ states s ∧ states s < limit.

(** ** The invariant of the pool *)

(** [n] is the least step of the violations of a key, and the schedule kept is
    one of such a violation. *)
Definition kept_ok s (key : string) (n : Z) : Prop :=
  (∃ v sched, v ∈ violations s ∧ violation_key v = key ∧ vStep v = n ∧ violationSchedules s !! key = Some sched ∧ fits v sched) ∧
  ∀ v, v ∈ violations s → violation_key v = key → n ≤ vStep v.

Definition schedules_ok s : Prop := ∀ key,
  match violationScheduleSteps s !! key with
  | Some n => kept_ok s key n
  | None => violationSchedules s !! key = None ∧ ∀ v, v ∈ violations s → violation_key v ≠ key
  end.

(** What the workers may claim at most before they look again. *)
Definition slack (gs : list ghost) : Z := foldr (λ g n, maxBranch p - allowance g + n) 0 gs.

Definition account_ok s (g : ghost) : Prop := 0 ≤ allowance g ≤ maxBranch p ∧ 0 ≤ made g ≤ states s.

(** Every step has one owner: the worker that claimed it. *)
Definition owned s (gs : list ghost) (owner : Z → Z) : Prop :=
  (∀ v, v ∈ violations s → owner (vStep v) = vSeed v ∧ 1 ≤ vStep v ≤ states s) ∧
  (∀ g n, g ∈ gs → claimed g = Some n → owner n = seed g ∧ 1 ≤ n ≤ states s).

Record pool_inv (n : nat) s (gs : list ghost) : Prop := mkPoolInv {
  pi_length : length gs = n;
  pi_states : 0 ≤ states s ≤ Z.max 0 (MaxStates (expCfg p) - 1) + slack gs;
  pi_accounts : Forall (account_ok s) gs;
  pi_owned : ∃ owner, owned s gs owner;
  pi_schedules : schedules_ok s }.
End spec.

(** ** Lemmas *)

Section invariant.
Context {B : Type} (p : PoolConfig).
Implicit Types s : VMPool B.

#[export] Instance rely_preorder : PreOrder (rely (B := B)).
Proof.
  split.
  - intros s. by split_and!.
  - intros s1 s2 s3 (H1 & H2 & H3) (H4 & H5 & H6). split_and!; [lia|auto|by etrans].
Qed.

Lemma maxBranch_pos : 1 ≤ maxBranch p.
Proof. unfold maxBranch. lia. Qed.

Lemma slack_bound gs : Forall (λ g, 0 ≤ allowance g ≤ maxBranch p) gs → 0 ≤ slack p gs ≤ maxBranch p * Z.of_nat (length gs).
Proof.
  induction 1; cbn [slack foldr length]; [lia|]. rewrite Nat2Z.inj_succ, Z.mul_succ_r. unfold slack in *. lia.
Qed.

Lemma slack_cons g gs : slack p (g :: gs) = maxBranch p - allowance g + slack p gs.
Proof. done. Qed.

Lemma slack_insert gs i g g' : gs !! i = Some g → slack p (<[i := g']> gs) = slack p gs + allowance g - allowance g'.
Proof.
  revert i. induction gs as [|h gs IH]; intros [|i] Hi; [done|done| |].
  - injection Hi as ->. change (<[0%nat := g']> (g :: gs)) with (g' :: gs). rewrite !slack_cons. lia.
  - change (<[S i := g']> (h :: gs)) with (h :: <[i := g']> gs). rewrite !slack_cons, (IH i Hi). lia.
Qed.

(** Looking again, when there is room. *)
Lemma slack_check gs i g : gs !! i = Some g → Forall (λ g, 0 ≤ allowance g ≤ maxBranch p) gs →
  0 ≤ slack p (<[i := mkGhost (seed g) (maxBranch p) (claimed g) (made g)]> gs).
Proof.
  intros Hi Hf. apply slack_bound. apply Forall_insert; [done|]. cbn. pose proof maxBranch_pos. lia.
Qed.

Lemma file_violation_violations v sched s : violations (file_violation v sched s) = violations s ++ [v].
Proof. unfold file_violation. by case_match. Qed.

Lemma file_violation_states v sched s : states (file_violation v sched s) = states s.
Proof. unfold file_violation. by case_match. Qed.

Lemma file_violation_schedules v sched s : fits p v sched → schedules_ok p s → schedules_ok p (file_violation v sched s).
Proof.
  intros Hfit Hs key. specialize (Hs key). unfold kept_ok in *. rewrite file_violation_violations. unfold file_violation. cbn [violationScheduleSteps setter].
  set (old := violationScheduleSteps s !! violation_key v).
  assert (∀ n, kept_ok p s key n → ∀ u, u ∈ violations s → violation_key u = key → n ≤ vStep u) as Hmin by (by intros n [_ Hm]).
  destruct (match old with Some existing => vStep v <? existing | None => true end) eqn:Hnew; cbn.
  - destruct (decide (violation_key v = key)) as [<-|Hne].
    + rewrite !lookup_insert_eq. split.
      * exists v, sched. rewrite elem_of_app, list_elem_of_singleton. split_and!; auto.
      * intros u [Hu| ->%list_elem_of_singleton]%elem_of_app Hk; [|lia]. subst old.
        destruct (violationScheduleSteps s !! violation_key v); [apply Z.ltb_lt in Hnew; pose proof (proj2 Hs u Hu Hk); lia|].
        by destruct (proj2 Hs u Hu).
    + rewrite !lookup_insert_ne by done. destruct (violationScheduleSteps s !! key) as [n|].
      * destruct Hs as [(u & sc & Hu & Hrest) Hm]. split; [exists u, sc; split; [apply elem_of_app; by left|done]|].
        intros u' [Hu'| ->%list_elem_of_singleton]%elem_of_app; [by apply Hm|done].
      * destruct Hs as [Hn Hm]. split; [done|]. intros u' [Hu'| ->%list_elem_of_singleton]%elem_of_app; [by apply Hm|done].
  - subst old. destruct (violationScheduleSteps s !! key) as [n|] eqn:En.
    + destruct Hs as [(u & sc & Hu & Hrest) Hm]. split; [exists u, sc; split; [apply elem_of_app; by left|done]|].
      intros u' [Hu'| ->%list_elem_of_singleton]%elem_of_app Hk; [by apply Hm|]. subst key. rewrite En in Hnew. apply Z.ltb_ge in Hnew. lia.
    + destruct Hs as [Hn Hm]. split; [done|]. intros u' [Hu'| ->%list_elem_of_singleton]%elem_of_app; [by apply Hm|].
      intros <-. by rewrite En in Hnew.
Qed.

Lemma schedules_core s s' : core s' = core s → schedules_ok p s → schedules_ok p s'.
Proof. intros [= _ E1 E2 E3]. unfold schedules_ok, kept_ok. by rewrite E1, E2, E3. Qed.

(** The budget of states, and that it leaves room for the identifiers. *)
Definition budget (n : nat) : Z := Z.max 0 (MaxStates (expCfg p) - 1) + maxBranch p * Z.of_nat n.
Context (n : nat) (Hbudget : budget n < limit).

Lemma inv_budget s gs : pool_inv p n s gs → 0 ≤ states s ≤ budget n.
Proof.
  intros []. pose proof (slack_bound gs) as Hb. unfold budget. rewrite pi_length0 in Hb.
  assert (Forall (λ g, 0 ≤ allowance g ≤ maxBranch p) gs) as Hf by (eapply Forall_impl; [done|by intros g []]). specialize (Hb Hf). lia.
Qed.

Lemma inv_known s gs i g : pool_inv p n s gs → gs !! i = Some g → known s g.
Proof.
  intros Hi Hg. pose proof (inv_budget s gs Hi). destruct Hi. rewrite Forall_lookup in pi_accounts0.
  destruct (pi_accounts0 i g Hg). split; [done|lia].
Qed.

(** The account of one worker replaced, where the number of states does not
    shrink. *)
Lemma accounts_insert s s' gs i g g' : states s ≤ states s' → Forall (account_ok p s) gs → gs !! i = Some g →
  account_ok p s' g' → Forall (account_ok p s') (<[i := g']> gs).
Proof.
  intros Hle Hf Hi Hg. apply Forall_insert; [|done]. eapply Forall_impl; [exact Hf|]. intros h [? ?]. split; [done|lia].
Qed.

(** The owners, where a worker keeps its step. *)
Lemma owned_insert s s' gs i g g' owner : states s ≤ states s' → gs !! i = Some g → seed g' = seed g → claimed g' = claimed g →
  (∀ v, v ∈ violations s' → v ∈ violations s ∨ claimed g = Some (vStep v) ∧ vSeed v = seed g) →
  owned s gs owner → owned s' (<[i := g']> gs) owner.
Proof.
  intros Hle Hi Hs Hc Hv [H1 H2]. split.
  - intros v [Hv'|[Hcl Hseed]]%Hv; [destruct (H1 v Hv'); split; [done|lia]|].
    destruct (H2 g _ (list_elem_of_lookup_2 _ _ _ Hi) Hcl). split; [congruence|lia].
  - intros h m [j Hj]%list_elem_of_lookup Hm. destruct (decide (i = j)) as [<-|Hne].
    + rewrite list_lookup_insert_eq in Hj by by eapply lookup_lt_Some. injection Hj as <-. rewrite Hs. rewrite Hc in Hm.
      destruct (H2 g m (list_elem_of_lookup_2 _ _ _ Hi) Hm). split; [done|lia].
    + rewrite list_lookup_insert_ne in Hj by done. destruct (H2 h m (list_elem_of_lookup_2 _ _ _ Hj) Hm). split; [done|lia].
Qed.

(** A new step gets the worker that claims it as its owner. *)
Lemma owned_claim s s' gs i g owner : states s' = states s + 1 → violations s' = violations s → gs !! i = Some g → 0 ≤ states s →
  owned s gs owner →
  owned s' (<[i := mkGhost (seed g) (allowance g - 1) (Some (states s')) (made g + 1)]> gs) (λ m, if m =? states s' then seed g else owner m).
Proof.
  intros Hst Hv Hi Hpos [H1 H2]. split.
  - intros v Hv'. rewrite Hv in Hv'. destruct (H1 v Hv') as [Ho Hr]. destruct (Z.eqb_spec (vStep v) (states s')); [lia|]. split; [done|lia].
  - intros h m [j Hj]%list_elem_of_lookup Hm. destruct (decide (i = j)) as [<-|Hne].
    + rewrite list_lookup_insert_eq in Hj by by eapply lookup_lt_Some. injection Hj as <-. cbn in *. injection Hm as <-.
      rewrite Z.eqb_refl. split; [done|lia].
    + rewrite list_lookup_insert_ne in Hj by done. destruct (H2 h m (list_elem_of_lookup_2 _ _ _ Hj) Hm).
      destruct (Z.eqb_spec m (states s')); [lia|]. split; [done|lia].
Qed.

Lemma trans_states s g s' g' : known s g → trans p s g s' g' → states s ≤ states s'.
Proof.
  intros [H1 H2] [E|_ E|_ E|v sched _ _ _ E]; try (injection E as E; rewrite ?E, ?file_violation_states; lia).
  unfold limit in H2. unfold add64 in E. rewrite wrap_small in E by (unfold is_word; lia). lia.
Qed.

Lemma inv_closed : closed (trans (B := B) p) (pool_inv p n).
Proof.
  intros s gs i g s' g' Hinv Hi Ht. pose proof (inv_known s gs i g Hinv Hi) as Hk.
  pose proof (trans_states s g s' g' Hk Ht) as Hle. pose proof (inv_budget s gs Hinv) as Hb. destruct Hinv as [Hlen Hst Hacc [owner Hown] Hsch].
  assert (account_ok p s g) as [Hcr Hma] by (by eapply Forall_lookup_1).
  pose proof maxBranch_pos as Hpos. pose proof (slack_insert gs i g g' Hi) as Hsl. destruct Ht as [E|Hroom E|Hcredit E Ev Es Et|v sched Hseed Hcl Hfit E].
  - injection E as E1 E2 E3 E4. split; [by rewrite length_insert|rewrite E1; lia| | |by apply (schedules_core s s'); [unfold core; congruence|]].
    + apply (accounts_insert s _ gs i g); [lia|done|done|]. split; lia.
    + exists owner. apply (owned_insert s s' gs i g); try done. rewrite E2. by left.
  - injection E as E1 E2 E3 E4. split; [by rewrite length_insert| | | |by apply (schedules_core s s'); [unfold core; congruence|]].
    + rewrite E1. split; [lia|]. assert (0 ≤ slack p (<[i := mkGhost (seed g) (maxBranch p) (claimed g) (made g)]> gs)); [|lia].
      apply slack_check; [done|]. eapply Forall_impl; [exact Hacc|by intros h []].
    + apply (accounts_insert s _ gs i g); [lia|done|done|]. split; cbn; lia.
    + exists owner. apply (owned_insert s s' gs i g); try done. rewrite E2. by left.
  - assert (states s' = states s + 1) as E1.
    { rewrite E. unfold add64. apply wrap_small. unfold is_word, limit in *. lia. }
    split; [by rewrite length_insert| | | |by apply (schedules_core (s <| states := states s' |>)); [unfold core; cbn; congruence|]].
    + cbn in Hsl. lia.
    + apply (accounts_insert s _ gs i g); [lia|done|done|]. split; cbn; lia.
    + eexists. apply (owned_claim s); [done|done|done|lia|exact Hown].
  - injection E as E1 E2 E3 E4. rewrite file_violation_states in E1. rewrite file_violation_violations in E2.
    split; [by rewrite length_insert|rewrite E1; lia| | |].
    + apply (accounts_insert s _ gs i g); [lia|done|done|]. split; lia.
    + exists owner. apply (owned_insert s s' gs i g); try done. rewrite E2. intros u [Hu| ->%list_elem_of_singleton]%elem_of_app; [by left|by right].
    + apply (schedules_core (file_violation v sched s)); [|by apply file_violation_schedules].
      unfold core. rewrite file_violation_states, file_violation_violations. congruence.
Qed.
End invariant.

(** ** A worker among the others *)

Section worker.
Context {W B : Type} `{PoolMachineLaws W} `{Bitmap64 B} `{Injection} {growth : Growth} (log : float64 → float64) (p : PoolConfig).
Notation Y := (Pool.Y W B).
Implicit Types (w : poolWorker W) (s : VMPool B).

(** What holds of a worker between its operations; [k] snapshots may still be
    added to its tree. *)
Record worker_inv (k : Z) w s (g : ghost) : Prop := mkWorkerInv {
  wi_seed : seed g = initialSeed w;
  wi_wf : wf (tree w);
  wi_next : nextID (tree w) + k ≤ 2 + made g;
  wi_made : 0 ≤ made g ≤ limit;
  wi_listener : isFCBackend p = true → listener w = true;
  wi_comps : comps_ok s }.

(** What no operation changes, and the clock. *)
Record stays w w' : Prop := mkStays {
  st_seed : initialSeed w' = initialSeed w;
  st_listener : listener w' = listener w;
  st_later : later (vm w) (vm w') }.

Lemma stays_refl w : stays w w.
Proof. split; [done|done|apply later_refl]. Qed.

Lemma stays_trans w1 w2 w3 : stays w1 w2 → stays w2 w3 → stays w1 w3.
Proof. intros [] []. split; try congruence. by eapply later_trans. Qed.

Lemma worker_later k w s s' g : rely s s' → worker_inv k w s g → worker_inv k w s' g.
Proof. intros (_ & Hc & _) []. split; auto. Qed.

(** Changing nothing that the invariant speaks of. *)
Lemma worker_same k w w' s g : worker_inv k w s g → initialSeed w' = initialSeed w → tree w' = tree w → listener w' = listener w →
  worker_inv k w' s g.
Proof. intros [] E1 E2 E3. split; rewrite ?E1, ?E2, ?E3; auto. Qed.

Abbreviation safely := (safe rely known (trans p)).

(** The operation never panics, keeps the invariant, and takes only steps that
    are allowed while the worker runs the step [c]. *)
Definition keeps (c : option Z) {A} (m : Y A) : Prop := ∀ k w s g,
  worker_inv k w s g → claimed g = c → safely (m w) s g (λ r s' g', g' = g ∧ worker_inv k r.2 s' g ∧ stays w r.2).

Lemma keeps_ret c {A} (a : A) : keeps c (mret a).
Proof. intros k w s g Hw _. split_and!; [done|done|apply stays_refl]. Qed.

Lemma keeps_bind c {A A'} (m : Y A) (f : A → Y A') : keeps c m → (∀ a, keeps c (f a)) → keeps c (x ← m; f x).
Proof.
  intros Hm Hf k w s g Hw Hc. apply safe_bind. eapply safe_mono; [apply _|exact (Hm k w s g Hw Hc)|].
  intros [a w1] s1 g1 _ (-> & Hw1 & Hs1). cbn. eapply safe_mono; [apply _|exact (Hf a k w1 s1 g Hw1 Hc)|].
  intros [b w2] s2 g2 _ (-> & Hw2 & Hs2). split_and!; [done|done|by eapply stays_trans].
Qed.

Lemma keeps_withs c {A} (f : poolWorker W → Y A) : (∀ w, keeps c (f w)) → keeps c (withs f).
Proof. intros Hf k w s g. apply Hf. Qed.

Lemma keeps_run c {A} (f : poolWorker W → A * poolWorker W) :
  (∀ w, initialSeed (f w).2 = initialSeed w ∧ tree (f w).2 = tree w ∧ listener (f w).2 = listener w ∧ later (vm w) (vm (f w).2)) →
  keeps c (run f).
Proof.
  intros Hf k w s g Hw _. destruct (Hf w) as (E1 & E2 & E3 & Hl). split_and!; [done| |by split]. by apply (worker_same k w).
Qed.

Lemma keeps_update c (f : poolWorker W → poolWorker W) :
  (∀ w, initialSeed (f w) = initialSeed w ∧ tree (f w) = tree w ∧ listener (f w) = listener w ∧ vm (f w) = vm w) → keeps c (update f).
Proof.
  intros Hf. apply (keeps_run c (λ w, (tt, f w))). intros w. destruct (Hf w) as (E1 & E2 & E3 & E4). cbn. rewrite E4. split_and!; try done; apply later_refl.
Qed.

Lemma keeps_gets c {A} (f : poolWorker W → A) : keeps c (gets f).
Proof. apply (keeps_run c (λ w, (f w, w))). intros w. split_and!; try done; apply later_refl. Qed.

Lemma keeps_draw c {A} (d : Source → A * Source) : keeps c (Pool.draw d).
Proof. apply keeps_run. intros w. destruct (d (faultRng w)). split_and!; try done; apply later_refl. Qed.

Lemma keeps_on_vm c {A} (f : W → A * W) : (∀ v, later v (f v).2) → keeps c (on_vm f).
Proof. intros Hf. apply keeps_run. intros w. specialize (Hf (vm w)). by destruct (f (vm w)). Qed.

Lemma keeps_share c {A} (f : VMPool B → A * VMPool B) :
  (∀ s, core (f s).2 = core s ∧ comp (f s).2 = comp s) → keeps c (share f).
Proof.
  intros Hf k w s g Hw _. apply safe_once. intros s1 Hr _. destruct (Hf s1) as [Ec Ek]. destruct (f s1) as [a s2]. cbn in *.
  assert (rely s1 s2) as Hr2.
  { injection Ec as E1 E2 _ _. unfold rely, comps_ok. rewrite E1, E2, Ek. split_and!; [done|done|done]. }
  do 3 eexists. split_and!; [done|by apply T_other|done|done| |apply stays_refl]. cbn.
  eapply worker_later; [exact Hr2|]. by eapply worker_later.
Qed.

Lemma keeps_change c (f : VMPool B → VMPool B) : (∀ s, core (f s) = core s ∧ comp (f s) = comp s) → keeps c (change f).
Proof. intros Hf. by apply keeps_share. Qed.

Lemma keeps_look c {A} (f : VMPool B → A) : keeps c (look f).
Proof. by apply keeps_share. Qed.

Lemma keeps_on_coverage c {A} (f : CoverageTracker → CoverageTracker * A) : keeps c (on_coverage f).
Proof. apply keeps_share. intros s. by destruct (f (coverage s)). Qed.

Lemma keeps_if c {A} (b : bool) (m m' : Y A) : keeps c m → keeps c m' → keeps c (if b then m else m').
Proof. by destruct b. Qed.

Lemma keeps_when c b (m : Y unit) : keeps c m → keeps c (when b m).
Proof. intros. unfold when. apply keeps_if; [done|apply keeps_ret]. Qed.

Lemma keeps_for_each c {A} (f : A → Y unit) l : (∀ x, keeps c (f x)) → keeps c (for_each f l).
Proof. intros Hf. induction l; simpl; [apply keeps_ret|by apply keeps_bind]. Qed.

Lemma keeps_any_of c {A} (f : A → Y bool) l : (∀ x, keeps c (f x)) → keeps c (any_of f l).
Proof. intros Hf. induction l; simpl; [apply keeps_ret|]. repeat (apply keeps_bind; [done|intros ?]). apply keeps_ret. Qed.

Lemma keeps_each_pair c {A} (f : A → A → Y unit) l : (∀ x y, keeps c (f x y)) → keeps c (each_pair f l).
Proof. intros Hf. induction l; simpl; [apply keeps_ret|]. apply keeps_bind; [by apply keeps_for_each|done]. Qed.

Ltac decide_same := intros ?; repeat case_match; by split_and!.

(** One step of a proof that an operation keeps to the rules. *)
Ltac keep :=
  lazymatch goal with
  | |- keeps _ (mbind _ _) => apply keeps_bind; [|intros ?]
  | |- keeps _ (mret _) => apply keeps_ret
  | |- keeps _ (withs _) => apply keeps_withs; intros ?
  | |- keeps _ (update _) => apply keeps_update; decide_same
  | |- keeps _ (gets _) => apply keeps_gets
  | |- keeps _ (Pool.draw _) => apply keeps_draw
  | |- keeps _ (on_vm _) => apply keeps_on_vm; intros ?; auto with later
  | |- keeps _ (perform _) => unfold perform
  | |- keeps _ (perform_ _) => unfold perform_
  | |- keeps _ (pperform _) => unfold pperform
  | |- keeps _ (pperform_ _) => unfold pperform_
  | |- keeps _ (change _) => apply keeps_change; decide_same
  | |- keeps _ (look _) => apply keeps_look
  | |- keeps _ (share _) => apply keeps_share; decide_same
  | |- keeps _ (on_coverage _) => apply keeps_on_coverage
  | |- keeps _ (when _ _) => apply keeps_when
  | |- keeps _ (for_each _ _) => apply keeps_for_each; intros ?
  | |- keeps _ (any_of _ _) => apply keeps_any_of; intros ?
  | |- keeps _ (each_pair _ _) => apply keeps_each_pair; intros ? ?
  | |- keeps _ (match ?x with _ => _ end) => lazymatch type of x with bool => apply keeps_if | _ => destruct x end
  | |- keeps _ (let _ := _ in _) => cbv zeta
  end.

(** *** Faults *)

Lemma keeps_workerHit c step k t tb ps : keeps c (workerHit (W := W) (B := B) step k t tb ps).
Proof. unfold workerHit, append_event. repeat keep. Qed.

Lemma keeps_log c m : keeps c (update (W := W) (B := B) (λ w, w <| calls := calls w ++ [ToAgent m] |>)).
Proof. by apply keeps_update. Qed.

Lemma keeps_SendIf c m : keeps c (SendIf (W := W) (B := B) m).
Proof.
  intros k w s g Hw Hc. unfold SendIf, Send, withs. destruct (listener w) eqn:El; [rewrite El|]; [exact (keeps_log c m k w s g Hw Hc)|exact (keeps_ret c tt k w s g Hw Hc)].
Qed.

(** A message that needs the listener, on the backend that has one. *)
Lemma keeps_Send c m : keeps c (when (isFCBackend p) (Send (W := W) (B := B) m)).
Proof.
  intros k w s g Hw Hc. unfold when. destruct (isFCBackend p) eqn:Ef; [|exact (keeps_ret c tt k w s g Hw Hc)].
  unfold Send, withs. rewrite (wi_listener _ _ _ _ Hw Ef). exact (keeps_log c m k w s g Hw Hc).
Qed.

Lemma keeps_InjectFault c f : keeps c (Pool.InjectFault (W := W) (B := B) f).
Proof. apply keeps_run. intros w. split_and!; try done; apply later_refl. Qed.

Lemma keeps_deliver c m f : keeps c m → keeps c (deliver (W := W) (B := B) p m f).
Proof. intros Hm. unfold deliver. keep; [done|]. keep; [apply keeps_InjectFault|keep]. Qed.

Lemma keeps_with_port c n f : (∀ port, keeps c (f port)) → keeps c (Pool.with_port (W := W) (B := B) p n f).
Proof. intros Hf. unfold Pool.with_port. keep; [keep|done]. Qed.

Hint Resolve keeps_workerHit keeps_SendIf keeps_Send keeps_InjectFault keeps_deliver keeps_with_port : keeps.

Ltac keeping := repeat first [apply keeps_Send | keep | apply keeps_workerHit | apply keeps_SendIf | apply keeps_InjectFault
  | apply keeps_deliver | apply keeps_with_port; intros ?].

Lemma keeps_net c sel step : keeps c (workerInjectNetFaults (W := W) (B := B) p sel step).
Proof.
  unfold workerInjectNetFaults. destruct (faultNet p) as [net|]; [|keep].
  unfold Pool.try_nway, Pool.try_drop, Pool.try_delay, Pool.try_partition, Pool.try_throttle, Pool.try_reorder,
    sendWorkerAgentPartition, sendWorkerAgentFault, sendWorkerAgentThrottle, sendWorkerAgentReorder. keeping.
Qed.

Lemma keeps_node c sel step : keeps c (workerInjectNodeFaults (W := W) (B := B) p sel step).
Proof.
  unfold workerInjectNodeFaults. destruct (faultNode p) as [nd|]; [|keep]. keep; [keep|].
  - unfold Pool.try_hang, Pool.try_terminate, Pool.try_dirty_restart, Pool.try_pause, Pool.try_cpu_throttle, Pool.try_cpu_modulate,
      Pool.try_disk_slow, Pool.try_disk_corrupt, Pool.try_mem_pressure, Pool.try_script, Pool.try_disk_flakey,
      sendWorkerAgentHangNode, sendWorkerAgentTerminateNode, sendWorkerAgentPauseNode, sendWorkerAgentCPUThrottle,
      sendWorkerAgentCPUModulate, sendWorkerAgentDiskSlow, sendWorkerAgentDiskCorrupt, sendWorkerAgentMemPressure,
      sendWorkerAgentScript, sendWorkerAgentDiskFlakey. keeping.
  - unfold Pool.try_disk_full, sendWorkerAgentDiskFull. keeping.
Qed.

Lemma keeps_workerInjectFaults c step : (faultNode p = None → faultNet p = None) → keeps c (workerInjectFaults (W := W) (B := B) log p step).
Proof.
  intros Hinj. unfold workerInjectFaults, select_fault, inject_clock_jitter, clock_rate, strobe, sendWorkerAgentFault. keep; [keep|].
  destruct (faultNode p) as [nd|] eqn:En; [|rewrite (Hinj eq_refl); keep].
  destruct (faultNet p); repeat first [apply keeps_net | apply keeps_node | progress keeping].
Qed.

(** *** Output *)

Lemma keeps_collectWorkerCoverage c : keeps c (collectWorkerCoverage (W := W) (B := B)).
Proof. unfold collectWorkerCoverage, Pool.update_coverage. keeping. Qed.

Lemma keeps_process_assertion c step snapID container a : keeps c (Pool.process_assertion (W := W) (B := B) step snapID container a).
Proof. unfold Pool.process_assertion, Pool.record_sub_goals, worker_event, append_event. keeping. Qed.

Lemma path_total t x : wf t → is_Some (PathToRoot t x).
Proof.
  intros Hwf. destruct (snapshots t !! x) as [sn|] eqn:E.
  - destruct (walk_total t x sn Hwf E) as (ch & _ & _ & _ & _ & _ & _ & ->). eauto.
  - unfold PathToRoot, walk_fuel. cbn [path_loop]. rewrite E. eauto.
Qed.

Lemma record_fold_entries es : ∀ sched, replay sched = false →
  foldl Schedule.Record_ sched es = mkSchedule (Entries sched ++ es) (scheduleProfile sched) false (cursor sched).
Proof.
  induction es as [|e es IH]; intros [es0 pr r cu] Hr; cbn in *; subst; [by rewrite app_nil_r|].
  rewrite IH by done. cbn. by rewrite <- app_assoc.
Qed.

Lemma keeps_process_violation step insns snapID v :
  keeps (Some step) (Pool.process_violation (W := W) (B := B) p step insns snapID v).
Proof.
  intros k w s g Hw Hc. unfold Pool.process_violation, withs, buildViolationSchedule.
  destruct (path_total (tree w) snapID (wi_wf _ _ _ _ Hw)) as [path ->]. cbn [mbind option_bind].
  rewrite record_fold_entries by done. cbn [Entries scheduleProfile cursor app].
  apply safe_once. intros s1 Hr _. set (u := violation_of step insns snapID w path v). set (sched := mkSchedule _ _ _ _).
  assert (rely s1 (file_violation u sched s1)) as Hr2.
  { unfold rely. rewrite file_violation_states, file_violation_violations. split_and!; [done| |by apply prefix_app_r].
    unfold comps_ok, file_violation. by case_match. }
  do 3 eexists. split_and!; [done| |done|done| |apply stays_refl].
  - apply (T_violation _ _ _ _ u sched); [by rewrite (wi_seed _ _ _ _ Hw)|done| |done]. split; [done|]. by exists (snapshotFaults w), (pendingFaults w).
  - eapply worker_later; [exact Hr2|]. by eapply worker_later.
Qed.

Lemma keeps_process_all step insns snapID outs : keeps (Some step) (process_all (W := W) (B := B) p step insns snapID outs).
Proof.
  induction outs as [|out outs IH]; cbn [process_all]; [keep|]. keep; [|keep; [exact IH|keeping]].
  unfold Pool.process_one, Pool.process_choice, Pool.process_lifecycle, Pool.set_quiet. destruct (parseAssertionOutput (odData out)).
  repeat first [apply keeps_process_assertion | apply keeps_process_violation | progress keeping].
Qed.

Lemma keeps_processWorkerOutput step insns snapID : keeps (Some step) (processWorkerOutput (W := W) (B := B) p step insns snapID).
Proof. unfold processWorkerOutput. repeat first [apply keeps_process_all | progress keeping]. Qed.

(** *** Around the burst *)

Lemma keeps_until_connected c n maxInsns quantum : ∀ k executed, k = S n → maxInsns ≤ executed + quantum * Z.of_nat n →
  keeps c (PoolLoop.until_connected (W := W) (B := B) k maxInsns quantum executed).
Proof.
  induction n as [|n IH]; intros k executed -> Hn.
  - cbn [PoolLoop.until_connected]. destruct (Z.ltb_spec executed maxInsns); [lia|keep].
  - remember (S n) as k eqn:Hk. cbn [PoolLoop.until_connected]. destruct (Z.ltb_spec executed maxInsns); [|keep]. keeping.
    destruct (Z.min_spec quantum (maxInsns - executed)) as [[Hq E]|[Hq E]]; rewrite E.
    + apply (IH k); [done|]. lia.
    + replace (executed + (maxInsns - executed)) with maxInsns by lia. subst k. cbn [PoolLoop.until_connected]. rewrite Z.ltb_irrefl. keep.
Qed.

Lemma keeps_reconnect c : keeps c (PoolLoop.reconnect (W := W) (B := B)).
Proof.
  unfold PoolLoop.reconnect, runWorkerUntilConnected. keep; [keeping|]. keep; [|keeping]. keep. keep; [keeping|].
  by apply (keeps_until_connected c 2).
Qed.

Lemma keeps_workerRestoreVM c target : keeps c (workerRestoreVM (W := W) (B := B) p target).
Proof. unfold workerRestoreVM. repeat first [apply keeps_reconnect | progress keeping]. Qed.

Lemma keeps_nextCommand c : keeps c (PoolLoop.nextCommand (W := W) (B := B)).
Proof.
  intros k w s g Hw _. unfold PoolLoop.nextCommand. apply safe_once. intros s1 Hr _.
  assert (worker_inv k w s1 g) as Hw1 by by eapply worker_later. pose proof (wi_comps _ _ _ _ Hw1) as Hok.
  destruct (comp s1) as [cm|] eqn:Ecm.
  - destruct (Hok cm Ecm) as (Hrng & Hlen & Hph). destruct (NextCommand_spec cm Hrng Hlen Hph) as (o & cm' & -> & Hcs & Hp' & Hr' & _).
    set (s2 := s1 <| comp := Some cm' |>). assert (comps_ok s2) as Hok2.
    { intros x [= <-]. unfold comp_ok. by rewrite Hcs, Hp'. }
    assert (rely s1 s2) as Hr2 by (split_and!; [done|done|done]).
    do 3 eexists. split_and!; [done|by apply T_other|done|done| |apply stays_refl]. destruct Hw1. by split.
  - do 3 eexists. split_and!; [done|by apply T_other|done|done|done|apply stays_refl].
Qed.

Lemma keeps_dispatch c n : keeps c (dispatch_commands (W := W) (B := B) n).
Proof. induction n; cbn [dispatch_commands]; repeat first [apply keeps_nextCommand | assumption | progress keeping]. Qed.

Lemma keeps_credit c e b : keeps c (PoolLoop.credit (W := W) (B := B) e b).
Proof. unfold PoolLoop.credit, count_burst. keeping. Qed.

Lemma keeps_base_burst c step : words (exploration p) → keeps c (base_burst (W := W) (B := B) p step).
Proof.
  intros [Hmin Hmax _ _]. assert (∀ lo n, n ≠ 0 → keeps c (in_range (W := W) (B := B) lo n)) as Hspan.
  { intros lo n Hn. unfold in_range, draw_rng. keep; [|destruct (Z.eqb_spec n 0); [done|keep]].
    apply keeps_run. intros w. destruct (Uint64 (rng w)). split_and!; try done; apply later_refl. }
  unfold base_burst. cbv zeta. destruct (Z.ltb_spec 0 (ex_BurstMinNS (exploration p))).
  - by apply Hspan, burst_span.
  - keep; [by apply Hspan|keep].
Qed.

Lemma keeps_record_sequence c target : keeps c (PoolLoop.record_sequence (W := W) (B := B) target).
Proof. unfold PoolLoop.record_sequence. keep. keep; [keep|]. keep; [|keeping]. apply keeps_share. intros s. by destruct (RecordSequence _ _). Qed.

Lemma keeps_coverage_point c step : keeps c (PoolLoop.coverage_point (W := W) (B := B) step).
Proof. unfold PoolLoop.coverage_point, PoolLoop.total_edges. keeping. Qed.

Lemma keeps_delete_all c hs : keeps c (delete_all (W := W) (B := B) hs).
Proof. induction hs; cbn [delete_all]; repeat first [assumption | progress keeping]. Qed.

Lemma keeps_workerRunGC c feID : keeps c (workerRunGC (W := W) (B := B) feID).
Proof.
  unfold workerRunGC. keep; [apply keeps_run; intros w; destruct (Trim _ _); split_and!; try done; apply later_refl|].
  keep; [keep; apply keeps_delete_all|]. intros k w s g Hw Hc. unfold withs.
  destruct (Prune_spec (tree w) (IDs (frontier w) ++ [feID]) (wi_wf _ _ _ _ Hw)) as (keep & t' & _ & -> & Hwf & Hn & _).
  set (w' := w <| tree := t' |>). assert (worker_inv k w' s g) as Hw'.
  { destruct Hw. split; cbn; try done. by rewrite Hn. }
  eapply safe_mono; [apply _|exact (keeps_delete_all c _ k w' s g Hw' Hc)|].
  intros r s' g' _ (-> & Hr & []). split_and!; [done|done|by split].
Qed.

(** *** The burst *)

(** The operation adds one snapshot at most. *)
Definition spends (c : option Z) {A} (m : Y A) : Prop := ∀ w s g,
  worker_inv 1 w s g → claimed g = c → safely (m w) s g (λ r s' g', g' = g ∧ worker_inv 0 r.2 s' g ∧ stays w r.2).

Lemma worker_less k k' w s g : k' ≤ k → worker_inv k w s g → worker_inv k' w s g.
Proof. intros Hk []. split; try done. lia. Qed.

Lemma spends_keeps c {A} (m : Y A) : keeps c m → spends c m.
Proof.
  intros Hm w s g Hw Hc. eapply safe_mono; [apply _|exact (Hm 1 w s g Hw Hc)|]. intros r s' g' _ (-> & Hw' & Hs). split_and!; [done| |done].
  by apply (worker_less 1).
Qed.

Lemma spends_first c {A A'} (m : Y A) (f : A → Y A') : spends c m → (∀ a, keeps c (f a)) → spends c (x ← m; f x).
Proof.
  intros Hm Hf w s g Hw Hc. apply safe_bind. eapply safe_mono; [apply _|exact (Hm w s g Hw Hc)|].
  intros [a w1] s1 g1 _ (-> & Hw1 & Hs1). cbn. eapply safe_mono; [apply _|exact (Hf a 0 w1 s1 g Hw1 Hc)|].
  intros [b w2] s2 g2 _ (-> & Hw2 & Hs2). split_and!; [done|done|by eapply stays_trans].
Qed.

Lemma spends_then c {A A'} (m : Y A) (f : A → Y A') : keeps c m → (∀ a, spends c (f a)) → spends c (x ← m; f x).
Proof.
  intros Hm Hf w s g Hw Hc. apply safe_bind. eapply safe_mono; [apply _|exact (Hm 1 w s g Hw Hc)|].
  intros [a w1] s1 g1 _ (-> & Hw1 & Hs1). cbn. eapply safe_mono; [apply _|exact (Hf a w1 s1 g Hw1 Hc)|].
  intros [b w2] s2 g2 _ (-> & Hw2 & Hs2). split_and!; [done|done|by eapply stays_trans].
Qed.

Lemma spends_withs c {A} (f : poolWorker W → Y A) : (∀ w, spends c (f w)) → spends c (withs f).
Proof. intros Hf w s g. apply Hf. Qed.

Lemma spends_if c {A} (b : bool) (m m' : Y A) : spends c m → spends c m' → spends c (if b then m else m').
Proof. by destruct b. Qed.

(** A node added to the tree. *)
Lemma worker_create w s g parentID h tm cov r childID t : worker_inv 1 w s g →
  Create (tree w) parentID h tm cov r 0 0 = (Ok childID, t) →
  (∀ w', initialSeed w' = initialSeed w → listener w' = listener w → tree w' = t → worker_inv 0 w' s g) ∧ is_Some (snapshots t !! childID).
Proof.
  intros [] E. destruct (Create_facts _ _ _ _ _ _ _ _ _ _ wi_wf0 ltac:(unfold limit in *; lia) E) as (Hwf & Hn & Hreg).
  split; [|apply Hreg; by right]. intros w' E1 E2 E3. split; rewrite ?E1, ?E2, ?E3; try done. lia.
Qed.

Lemma spends_add_child c target hypID b n : spends c (add_child (W := W) (B := B) p target hypID b n).
Proof.
  unfold add_child. apply spends_then; [apply keeps_look|]. intros hash w s g Hw Hc. unfold withs.
  destruct (Create _ _ _ _ _ _ _ _) as [[childID|err] t] eqn:E; [|exact (spends_keeps c _ (keeps_ret c b) w s g Hw Hc)].
  destruct (worker_create _ _ _ _ _ _ _ _ _ _ Hw E) as [Hinv [sn Hsn]].
  set (f := λ w : poolWorker W, w <| tree := t |>
              <| snapshotFaults := match pendingFaults w with [] => snapshotFaults w | fs => <[childID := fs]> (snapshotFaults w) end |>).
  assert (worker_inv 0 (f w) s g) as Hw' by by apply Hinv.
  set (m := (ne ← new_edges; boost ← gets stepSometimesAllBoost; new ← PoolLoop.record_sequence target;
    _ ← update (λ w, w <| frontier := Push (frontier w) (set_score (ScoreEntry (scorer p) (pool_entry childID (s_Depth sn) ne fzero
        (if new : bool then fadd boost (float_of_Z 500) else boost) (float_of_Z n)))
        (pool_entry childID (s_Depth sn) ne fzero (if new : bool then fadd boost (float_of_Z 500) else boost) (float_of_Z n))) |>);
    mret (b || new)) : Y bool).
  assert (keeps c m) as Hm by (unfold m, new_edges; repeat first [apply keeps_record_sequence | progress keeping]).
  unfold Get. rewrite Hsn.
  eapply safe_mono; [apply _|exact (Hm 0 (f w) s g Hw' Hc)|]. intros r s' g' _ (-> & Hr & []). split_and!; [done|done|by split].
Qed.

Lemma spends_child c target b1 b2 n : spends c (workerMaybeChildSnapshot (W := W) (B := B) p target b1 b2 n).
Proof.
  unfold workerMaybeChildSnapshot. apply spends_if; [apply spends_keeps; keep|]. apply spends_withs. intros w.
  destruct (Get (tree w) target) as [parent|]; [|apply spends_keeps; keep]. apply spends_if; [apply spends_keeps; keep|].
  apply spends_then; [keeping|intros _]. apply spends_then; [keeping|]. intros [h|]; [apply spends_add_child|apply spends_keeps; keep].
Qed.

Lemma keeps_weaken c {A} (m : Y A) : (∀ c, keeps c m) → keeps c m.
Proof. done. Qed.

Context (Hinj : faultNode p = None → faultNet p = None) (Hwords : words (exploration p)).

Lemma spends_after_burst step insns pre target : spends (Some step) (after_burst (W := W) (B := B) p step insns pre target).
Proof.
  unfold after_burst. do 6 (apply spends_then; [repeat first [apply keeps_dispatch | apply keeps_collectWorkerCoverage | unfold advance_time, PoolLoop.total_edges; progress keeping]|intros ?]).
  cbv zeta. apply spends_then; [keeping|intros _]. apply spends_then; [apply keeps_processWorkerOutput|]. intros [[[foundNovelty n1] n2] evals].
  apply spends_then; [apply keeps_credit|intros _]. apply spends_first; [apply spends_child|]. intros b.
  repeat first [apply keeps_coverage_point | progress keeping].
Qed.

(** The step is claimed: the worker pays for it and may add a snapshot. *)
Lemma claim_ok w s g : worker_inv 0 w s g → 0 < allowance g →
  safely (claim_step w) s g (λ r s' g', r.2 = w ∧ worker_inv 1 w s' g' ∧ claimed g' = Some r.1 ∧
    allowance g' = allowance g - 1 ∧ states s + 1 ≤ states s').
Proof.
  intros Hw Hcr. apply safe_once. intros s1 Hr [Hm Hl]. set (s2 := s1 <| states := add64 (states s1) 1 |>).
  assert (states s2 = states s1 + 1) as Est.
  { unfold s2. cbn. unfold add64. apply wrap_small. unfold is_word, limit in *. lia. }
  assert (rely s1 s2) as Hr2 by (split_and!; [lia|done|done]).
  do 3 eexists. split_and!; [done|by apply (T_claim p s1 g s2)|done|done| |done|done|destruct Hr; cbn in *; lia]. cbn [fst snd].
  assert (worker_inv 0 w s2 g) as [] by (eapply worker_later; [exact Hr2|]; by eapply worker_later).
  split; cbn; try done; unfold limit in *; lia.
Qed.

Lemma one_burst_ok fe w s g : worker_inv 0 w s g → 0 < allowance g →
  safely (one_burst log p fe w) s g (λ r s' g', worker_inv 0 r.2 s' g' ∧ stays w r.2 ∧
    allowance g' = allowance g - 1 ∧ states s + 1 ≤ states s').
Proof.
  intros Hw Hcr. unfold one_burst. apply safe_bind. eapply safe_mono; [apply _|by apply claim_ok|].
  intros [step w1] s1 g1 _ (-> & Hw1 & Hc & Hcr1 & Hst). cbn [fst snd].
  match goal with |- safely (?m w) _ _ _ => assert (spends (Some step) m) as Hs end.
  { apply spends_then; [apply keeps_workerRestoreVM|]. intros err. apply spends_if; [apply spends_keeps; keep|].
    do 4 (apply spends_then; [first [apply keeps_workerInjectFaults; done | unfold PoolLoop.total_edges; keeping]|intros ?]).
    apply spends_then; [unfold send_overrides; keeping|intros _]. apply spends_then; [by apply keeps_base_burst|intros base]. cbv zeta.
    apply spends_then; [unfold set_preemptions; keeping|intros _]. apply spends_then; [keeping|intros err2].
    apply spends_if; [apply spends_keeps; keep|apply spends_after_burst]. }
  eapply safe_mono; [apply _|exact (Hs w s1 g1 Hw1 Hc)|]. intros r s2 g2 Hr (-> & Hw2 & Hs2). split_and!; [done|done|done|destruct Hr; lia].
Qed.

(** No more bursts: the context is cancelled, or it is past the deadline. *)
Definition halted (deadline : Z) (v : W) : Prop := dead v = true ∨ deadline < clock v.

Lemma halted_later deadline v v' : later v v' → halted deadline v → halted deadline v'.
Proof. intros [Hc Hd] [H'|H']; [left; auto|right; lia]. Qed.

(** The check returns at once: it says whether the worker is halted. *)
Lemma stopped_spec deadline w : ∃ b v, stopped (W := W) (B := B) deadline w = Done (b, w <| vm := v |>) ∧ later (vm w) v ∧
  (b = true → halted deadline v) ∧ (halted deadline (vm w) → b = true).
Proof.
  unfold stopped, on_vm, run, mbind, Y_bind. cbn. pose proof (later_cancelled (vm w)) as Hl. pose proof (cancelled_dead (vm w)) as Hd.
  destruct (cancelled (vm w)) as [[] v]; cbn in *.
  - exists true, v. split_and!; [done|done|left; by apply Hd|done].
  - pose proof (later_Now v) as Hl2. pose proof (Now_clock v) as Hn. destruct (Now v) as [now v2]; cbn in *.
    exists (deadline <? now), v2. split_and!; [done|by eapply later_trans| |].
    + intros Hb%Z.ltb_lt. right. lia.
    + intros [Hx|Hx]; [destruct Hl as [_ Hl]; discriminate (proj2 Hd (Hl Hx))|]. apply Z.ltb_lt. destruct Hl. lia.
Qed.

Lemma bursts_ok deadline fe n : ∀ w s g, worker_inv 0 w s g → Z.of_nat n ≤ allowance g →
  safely (bursts log p n deadline fe w) s g (λ r s' g', worker_inv 0 r.2 s' g' ∧ stays w r.2 ∧
    ((0 < n)%nat → halted deadline (vm r.2) ∨ states s + 1 ≤ states s')).
Proof.
  induction n as [|n IH]; intros w s g Hw Hn.
  { split_and!; [done|apply stays_refl|lia]. }
  cbn [bursts]. destruct (stopped_spec deadline w) as (b & v & E & Hl & Hb & _). apply safe_bind. rewrite E. cbn.
  set (w1 := w <| vm := v |>). assert (stays w w1) as Hs1 by by split. assert (worker_inv 0 w1 s g) as Hw1 by by apply (worker_same 0 w).
  destruct b.
  { split_and!; [done|done|]. intros _. left. by apply Hb. }
  apply safe_bind. eapply safe_mono; [apply _|apply one_burst_ok; [done|lia]|]. intros [novel w2] s2 g2 Hr2 (Hw2 & Hs2 & Hcr & Hst). cbn [fst snd] in *.
  destruct novel.
  - eapply safe_mono; [apply _|apply (IH w2 s2 g2); [done|lia]|]. intros r s3 g3 Hr3 (Hw3 & Hs3 & _).
    split_and!; [done|by do 2 (eapply stays_trans; [done|])|]. intros _. right. destruct Hr3. lia.
  - split_and!; [done|by eapply stays_trans|]. intros _. by right.
Qed.

Lemma hpush_nonempty (e : FrontierEntry) f : Heap.hpush e f ≠ [].
Proof. intros E. pose proof (Heap.hpush_contents scored e f) as Hc. rewrite E in Hc. apply Permutation_length in Hc. discriminate Hc. Qed.

(** A round pops an entry: the frontier was filled if it was empty. *)
Lemma refill_pop rootID w : ∃ fe f,
  Pop (frontier (if Frontier.Len (frontier w) =? 0 then w <| frontier := Push (frontier w) (root_entry rootID) |> else w)) = Some (fe, f).
Proof.
  set (fr := frontier _). assert (fr ≠ []) as Hne.
  { unfold fr, Frontier.Len. destruct (Z.eqb_spec (Z.of_nat (length (frontier w))) 0) as [E|E]; cbn; [apply hpush_nonempty|].
    intros E'. by rewrite E' in E. }
  unfold Pop. destruct (Heap.hpop fr) as [[fe f]|] eqn:E; [by exists fe, f|]. exfalso. by apply Hne, (Heap.hpop_None scored).
Qed.

(** [fuel] is enough for the states that are left. *)
Definition enough (fuel : nat) deadline w s : Prop :=
  (1 ≤ fuel)%nat ∧ (halted deadline (vm w) ∨ 2 + Z.max 0 (MaxStates (expCfg p) - states s) ≤ Z.of_nat fuel).

(** What the worker reads of the number of states, and what it owes then. *)
Lemma look_states_ok w s g : worker_inv 0 w s g → safely (look states w) s g (λ r s' g', r.2 = w ∧ worker_inv 0 w s' g' ∧
  states s ≤ states s' ∧ states s' = r.1 ∧ (r.1 < MaxStates (expCfg p) → allowance g' = maxBranch p)).
Proof.
  intros Hw. apply safe_once. intros s1 Hr _. assert (worker_inv 0 w s1 g) as Hw1 by by eapply worker_later.
  destruct (Z.ltb_spec (states s1) (MaxStates (expCfg p))) as [Hlt|Hge].
  - do 3 eexists. split_and!; [done|by apply T_check|done|done| |apply Hr|done|done]. destruct Hw1. by split.
  - do 3 eexists. split_and!; [done|by apply T_other|done|done|done|apply Hr|done|cbn; lia].
Qed.

Lemma worker_rounds_ok deadline rootID fuel : ∀ w s g, worker_inv 0 w s g → enough fuel deadline w s →
  safely (worker_rounds log p fuel deadline rootID w) s g (λ r s' g', worker_inv 0 r.2 s' g').
Proof.
  induction fuel as [|fuel IH]; intros w s g Hw [Hf He]; [lia|]. cbn [worker_rounds].
  destruct (stopped_spec deadline w) as (b & v & E & Hl & Hb & Hhalt). apply safe_bind. rewrite E. cbn [safe fst snd].
  set (w1 := w <| vm := v |>). assert (worker_inv 0 w1 s g) as Hw1 by by apply (worker_same 0 w). clearbody w1.
  destruct b; [done|]. destruct He as [He|He]; [by specialize (Hhalt He)|].
  apply safe_bind. eapply safe_mono; [apply _|by apply look_states_ok|].
  intros [total w2] s2 g2 Hr2 (-> & Hw2 & Hle & Etot & Hcr). cbn [fst snd] in *.
  destruct (Z.leb_spec (MaxStates (expCfg p)) total) as [Hfull|Hroom]; [done|]. specialize (Hcr Hroom).
  set (w3 := if Frontier.Len (frontier w1) =? 0 then w1 <| frontier := Push (frontier w1) (root_entry rootID) |> else w1).
  assert (initialSeed w3 = initialSeed w1 ∧ tree w3 = tree w1 ∧ listener w3 = listener w1 ∧ vm w3 = vm w1) as (E1 & E2 & E3 & E4) by (unfold w3; by case_match).
  destruct (refill_pop rootID w1) as (fe & f & Epop). fold w3 in Epop.
  unfold mbind at 1, Y_bind at 1. unfold update at 1. cbn [prog_bind fst snd]. fold w3.
  unfold mbind at 1, Y_bind at 1. unfold pop at 1. rewrite Epop. cbn [prog_bind fst snd].
  set (w4 := w3 <| frontier := f |>). assert (worker_inv 0 w4 s2 g2) as Hw4 by by apply (worker_same 0 w1).
  pose proof (maxBranch_pos p) as Hmb.
  apply safe_bind. eapply safe_mono; [apply _|apply bursts_ok; [exact Hw4|lia]|].
  intros [[] w5] s5 g5 Hr5 (Hw5 & Hs5 & Hprog). cbn [fst snd] in *. apply safe_bind.
  match goal with |- safely (?m w5) _ _ _ => assert (∀ c, keeps c m) as Hgc by (intros c; repeat first [apply keeps_workerRunGC | progress keeping]) end.
  eapply safe_mono; [apply _|exact (Hgc (claimed g5) 0 w5 s5 g5 Hw5 eq_refl)|].
  intros [[] w6] s6 g6 Hr6 (-> & Hw6 & Hs6). cbn [fst snd] in *. apply IH; [done|]. destruct Hr5 as [Hr5 _], Hr6 as [Hr6 _].
  split; [lia|]. destruct Hprog as [Hh|Hst]; [lia|left; by apply (halted_later deadline (vm w5)); [apply Hs6|]|]. right. lia.
Qed.

Lemma spends_setup c : spends c (workerSetupRootSnapshot (W := W) (B := B) p).
Proof.
  unfold workerSetupRootSnapshot. apply spends_then; [keeping|intros _]. apply spends_then; [keeping|]. intros [hypID|]; [|apply spends_keeps; keep].
  apply spends_then; [keep|intros _]. apply spends_then; [unfold stage_root; keeping|intros _]. apply spends_then; [apply keeps_look|].
  intros hash w s g Hw Hc. unfold withs. destruct (Create _ _ _ _ _ _ _ _) as [[rootID|err] t] eqn:E.
  - destruct (worker_create _ _ _ _ _ _ _ _ _ _ Hw E) as [Hinv _]. split_and!; [done|by apply Hinv|]. split; [done|done|apply later_refl].
  - split_and!; [done|by apply (worker_less 1)|apply stays_refl].
Qed.

(** Fuel for the loop of one worker. *)
Definition pool_fuel : nat := Z.to_nat (2 + Z.max 0 (MaxStates (expCfg p))).

Lemma workerLoop_ok fuel deadline w s g : (pool_fuel ≤ fuel)%nat → 0 ≤ states s → worker_inv 1 w s g →
  safely (workerLoop log p fuel deadline w) s g (λ r s' g', worker_inv 0 r.2 s' g').
Proof.
  intros Hf Hst Hw. unfold workerLoop. apply safe_bind. eapply safe_mono; [apply _|exact (spends_setup (claimed g) w s g Hw eq_refl)|].
  intros [[rootID|] w1] s1 g1 [Hr _] (-> & Hw1 & _); cbn [fst snd] in *; [|done].
  unfold mbind, Y_bind, update. cbn [prog_bind fst snd]. apply worker_rounds_ok; [by apply (worker_same 0 w1)|].
  unfold enough, pool_fuel in *. split; [lia|]. right. lia.
Qed.
End worker.
