(* ===== verification/PoolTheorems.v ===== *)
(** * The worker pool: theorems and runs

    The pool as [Start] and [newVMPool] leave it, and what holds of every
    interleaving of its workers; the lengths of bursts and of the intervals
    between preemptions; a pool to run. *)
From stdpp Require Import strings pretty sorting.
From S2P Require Import Prelude Strings Word Float GoLib Json Prng TestConfig SnapshotTree SnapshotTreeInv SnapshotTreeProps Coverage InputTree.
From S2P Require Import ChoiceBuffer Novelty Mcts Saturation Frontier Explorer Output Composer EventStore Fault Schedule Adaptive FaultInject.
From S2P Require Import Campaign Interleave Explore ExploreLoop ExploreProps ExploreDemo Pool PoolLoop PoolProps.
Local Open Scope Z_scope.

Section pool.
Context {W B : Type} `{PoolMachineLaws W} `{Bitmap64 B} `{Injection} {growth : Growth} (log : float64 → float64).

(** A pool that is about to explore: its configuration is that of a run, the
    machines [vs] are booted, and the composer is in order. *)
Record pool_setup := mkPoolSetup {
  ps_config : PoolConfig; ps_machines : list W; ps_schedule : option Schedule; ps_comp : option Composer;
  ps_events : option (list EventStore.Event); ps_deadline : Z; ps_fuel : nat }.

Implicit Types x : pool_setup.

Definition pool_workers x : list (poolWorker W) := imap (λ i v, new_worker (ps_config x) i v) (ps_machines x).

Definition pool_start x : config (VMPool B) (unit * poolWorker W) :=
  Explore log (ps_config x) (ps_fuel x) (ps_deadline x) (pool_workers x)
    (newVMPool (ps_config x) (length (ps_machines x)) (ps_schedule x) (ps_comp x) (ps_events x)).

Record pool_ok x : Prop := mkPoolOk {
  po_injectors : faultNode (ps_config x) = None → faultNet (ps_config x) = None;
  po_words : words (exploration (ps_config x));
  po_budget : budget (ps_config x) (length (ps_machines x)) < limit;
  po_comp : ∀ c, ps_comp x = Some c → comp_ok c;
  po_fuel : (pool_fuel (ps_config x) ≤ ps_fuel x)%nat }.

(** [Start] gives just these workers, when every machine boots. *)
Lemma start_workers_ok {E} (boot : nat → result E W) (p : PoolConfig) n : ∀ i ws,
  start_workers p boot i n = Ok ws → ∃ vs, length vs = n ∧ ws = imap (λ j v, new_worker p (i + j) v) vs.
Proof.
  induction n as [|n IH]; intros i ws; cbn; [intros [= <-]; by exists []|].
  destruct (boot i) as [v|e]; [|done]. destruct (start_workers p boot (S i) n) as [ws'|e] eqn:E1; [|done]. intros [= <-].
  destruct (IH _ _ E1) as (vs & Hl & ->). exists (v :: vs). split; [cbn; lia|]. cbn. rewrite Nat.add_0_r. f_equal.
  apply imap_ext. intros j y _. cbn. f_equal. lia.
Qed.

(** The account of a worker that has claimed nothing. *)
Definition fresh_ghost x (i : nat) : ghost := mkGhost (worker_seed (ps_config x) (Z.of_nat i)) 0 None 0.

Definition fresh_ghosts x : list ghost := map (fresh_ghost x) (seq 0 (length (ps_machines x))).

Abbreviation safely x := (safe rely known (trans (ps_config x))).

Definition ends_well x (r : unit * poolWorker W) (s : VMPool B) (g : ghost) : Prop := wf (tree r.2).

Lemma start_safe x : pool_ok x → all_safe rely known (trans (ps_config x)) (ends_well x) (pool_start x).1 (pool_start x).2 (fresh_ghosts x).
Proof.
  intros []. unfold all_safe, pool_start, Explore, pool_workers, fresh_ghosts. cbn [fst snd].
  apply Forall2_same_length_lookup. split; [by rewrite !length_map, length_imap, length_seq|].
  intros i q g Hq Hg. rewrite list_lookup_fmap, list_lookup_imap in Hq. rewrite list_lookup_fmap in Hg.
  destruct (ps_machines x !! i) as [v|] eqn:Ev; [|done]. injection Hq as <-.
  rewrite lookup_seq_lt in Hg by by eapply lookup_lt_Some. injection Hg as <-. cbn [Nat.add].
  eapply safe_mono; [apply _|eapply workerLoop_ok; try eassumption; [done|]|intros r s g _ []; done].
  split; [done|apply wf_NewTree|done|done| |done]. cbn. intros Hfc%bool_decide_eq_true. rewrite Hfc. done.
Qed.

Lemma start_inv x : pool_ok x → pool_inv (ps_config x) (length (ps_machines x)) (pool_start x).2 (fresh_ghosts x).
Proof.
  intros []. assert (∀ g, g ∈ fresh_ghosts x → allowance g = 0 ∧ claimed g = None ∧ made g = 0) as Hfresh.
  { intros g (i & -> & _)%list_elem_of_fmap. done. }
  assert (Forall (λ g, 0 ≤ allowance g ≤ maxBranch (ps_config x)) (fresh_ghosts x)) as Hal.
  { rewrite Forall_forall. intros g Hg. destruct (Hfresh g Hg) as (-> & _). pose proof (maxBranch_pos (ps_config x)). lia. }
  split.
  - unfold fresh_ghosts. by rewrite length_map, length_seq.
  - pose proof (slack_bound _ _ Hal). cbn. lia.
  - rewrite Forall_forall. intros g Hg. split; [rewrite Forall_forall in Hal; by apply Hal|]. destruct (Hfresh g Hg) as (_ & _ & ->). cbn. lia.
  - exists (λ _, 0). split; [intros v Hv; by apply elem_of_nil in Hv|]. intros g n Hg. by destruct (Hfresh g Hg) as (_ & -> & _).
  - intros key. cbn. rewrite !lookup_empty. split; [done|]. intros v Hv. by apply elem_of_nil in Hv.
Qed.

(** What is known of every state that the pool gets to, from a state it got to. *)
Lemma pool_goes_on x c gs c' : pool_ok x → pool_inv (ps_config x) (length (ps_machines x)) c.2 gs →
  all_safe rely known (trans (ps_config x)) (ends_well x) c.1 c.2 gs → rtc worker_step c c' →
  ¬ panics c' ∧ rely c.2 c'.2 ∧ ∃ gs', pool_inv (ps_config x) (length (ps_machines x)) c'.2 gs' ∧
    all_safe rely known (trans (ps_config x)) (ends_well x) c'.1 c'.2 gs'.
Proof.
  intros [] Hi Hs Hc. destruct c as [ps s]. edestruct (interleaving rely known (trans (ps_config x)) (ends_well x)
    (pool_inv (ps_config x) (length (ps_machines x)))) as (Hp & Hr & gs' & _ & Hi' & Hs'); [| | |exact Hs|exact Hi|exact Hc|].
  - by intros r s1 s2 g _.
  - intros. by eapply inv_known.
  - by apply inv_closed.
  - split_and!; [done|done|]. by exists gs'.
Qed.

Lemma pool_reaches x c : pool_ok x → rtc worker_step (pool_start x) c →
  ¬ panics c ∧ rely (pool_start x).2 c.2 ∧ ∃ gs, pool_inv (ps_config x) (length (ps_machines x)) c.2 gs ∧
    all_safe rely known (trans (ps_config x)) (ends_well x) c.1 c.2 gs.
Proof. intros Hx. by apply (pool_goes_on x (pool_start x) (fresh_ghosts x) c Hx (start_inv x Hx) (start_safe x Hx)). Qed.

(** C2: The parallel exploration ends: whatever the order in which the steps of
    the workers interleave and whatever the machines answer, no worker panics or
    runs out of the loop's fuel, no interleaving goes on for ever, every one can
    be continued to a state where all workers have returned, and the snapshot tree
    of each worker that has returned is valid. *)
Theorem pool_terminates (x : pool_setup) (Hx : pool_ok x) :
  (∀ c, rtc worker_step (pool_start x) c → ¬ panics c ∧ ∃ c', rtc worker_step c c' ∧ finished c') ∧
  (∀ run : nat → config (VMPool B) (unit * poolWorker W), run 0%nat = pool_start x → ¬ ∀ i, worker_step (run i) (run (S i))) ∧
  ∀ c w, rtc worker_step (pool_start x) c → w ∈ workers_of c → Validate (tree w) = None.
Proof.
  assert (∀ c, rtc worker_step (pool_start x) c → ¬ panics c) as Hnp by (intros c Hc; exact (proj1 (pool_reaches x c Hx Hc))).
  split_and!.
  - intros c Hc. split; [by apply Hnp|]. apply gets_finished. intros c' Hc'. apply Hnp. by etrans.
  - intros run _. apply no_infinite_run.
  - intros c w Hc Hw. destruct (pool_reaches x c Hx Hc) as (_ & _ & gs & _ & Hs). apply list_elem_of_omap in Hw as (q & [i Hq]%list_elem_of_lookup & Hw).
    destruct q as [r|f]; [|done]. injection Hw as <-. destruct (Forall2_lookup_l _ _ _ _ _ Hs Hq) as (g & _ & Hwf).
    apply Validate_valid, wf_valid, Hwf.
Qed.


(** C4: The number of states exceeds its limit by less than the number of workers
    times the branch factor: workers look at the counter, then may each claim as
    many steps as an entry has branches. *)
Theorem pool_state_budget (x : pool_setup) (Hx : pool_ok x) c (Hc : rtc worker_step (pool_start x) c) :
  let p := ps_config x in
  0 ≤ states c.2 ≤ Z.max 0 (MaxStates (expCfg p) - 1) + Z.max 1 (BranchFactor (expCfg p)) * Z.of_nat (length (ps_machines x)).
Proof. destruct (pool_reaches x c Hx Hc) as (_ & _ & gs & Hi & _). pose proof (inv_budget _ _ _ _ Hi) as Hb. done. Qed.

End pool.
