(* ===== verification/PoolBurst.v ===== *)
(** * The worker pool: the length of a burst, its preemptions, its faults

    What [adaptBurstInsns] computes, in integers; the intervals between the
    preemptions of a burst; the per-path schedule of a violation under replay. *)
From stdpp Require Import strings pretty sorting.
From S2P Require Import Prelude Strings Word Float GoLib Json Prng TestConfig SnapshotTree Coverage InputTree ChoiceBuffer Novelty.
From S2P Require Import Frontier Explorer Output Composer EventStore Fault Schedule Adaptive FaultInject Campaign Interleave Explore ExploreLoop Pool PoolLoop PoolProps.
From Stdlib Require Import Floats.SpecFloat.
Local Open Scope Z_scope.

(** ** Multiplying by eighths *)

(** [k / 8], for a [k] of [d] bits. *)
Definition eighths (k d : Z) : float64 := S754_finite false (Z.to_pos (k * 2 ^ (53 - d))) (d - 56).

Lemma trunc_mul_eighths b k dk : 0 < b < 2 ^ 48 → 0 < k → 0 < dk ≤ 5 → 2 ^ (dk - 1) ≤ k < 2 ^ dk →
  trunc (fmul (float_of_Z b) (eighths k dk)) = b * k / 8.
Proof.
  intros Hb Hk Hdk Hbk. destruct (leading_bit b 48) as (d & Hd & Hbd); [lia|lia|].
  pose proof (scaled_mantissa b d ltac:(lia) ltac:(lia) Hbd) as Hmb.
  pose proof (scaled_mantissa k dk ltac:(lia) ltac:(lia) Hbk) as Hmk.
  rewrite (float_of_Z_exact b d) by lia. unfold eighths, fmul, SFmul. simpl xorb.
  set (p := (Z.to_pos (b * 2 ^ (53 - d)) * Z.to_pos (k * 2 ^ (53 - dk)))%positive).
  assert (Z.pos p = b * 2 ^ (53 - d) * (k * 2 ^ (53 - dk))) as Hp by (unfold p; lia).
  assert (2 ^ 104 ≤ Z.pos p < 2 ^ 106) as Hpb by (rewrite Hp; nia).
  assert (∃ D, 105 ≤ D ≤ 106 ∧ 2 ^ (D - 1) ≤ Z.pos p < 2 ^ D) as (D & HD & HpD).
  { destruct (Z.lt_ge_cases (Z.pos p) (2 ^ 105)); [exists 105|exists 106]; simpl; lia. }
  destruct (binary_round_aux_product p (d - 53 + (dk - 56)) D) as (M & m & E & -> & HmE & HM); [done|lia|lia|].
  set (s := D - 53) in *. set (u := 106 - d - dk - s). assert (0 ≤ u) as Hu by (unfold u, s; lia).
  assert (Z.pos p = b * k * 2 ^ u * 2 ^ s) as Hps.
  { rewrite Hp. replace (b * 2 ^ (53 - d) * (k * 2 ^ (53 - dk))) with (b * k * (2 ^ (53 - d) * 2 ^ (53 - dk))) by ring.
    assert (2 ^ (53 - d) * 2 ^ (53 - dk) = 2 ^ u * 2 ^ s) as -> by (rewrite <- !Z.pow_add_r by (unfold u, s in *; lia); f_equal; unfold u; lia).
    ring. }
  assert (0 < 2 ^ s) as Hs by (apply Z.pow_pos_nonneg; unfold s; lia).
  assert (M = b * k * 2 ^ u) as HMv.
  { destruct HM as [->|[_ Hhalf]]; [by rewrite Hps, Z.div_mul by lia|]. rewrite Hps, Z.mod_mul in Hhalf by lia. lia. }
  assert (E < 0) as HE by (destruct HmE as [[_ ->]|[_ ->]]; unfold s; lia).
  unfold trunc. destruct (Z.leb_spec 0 E); [lia|].
  assert (0 < 2 ^ u) as H2u by (apply Z.pow_pos_nonneg; lia).
  destruct HmE as [[Hm ->]|[Hm ->]].
  - replace (- (d - 53 + (dk - 56) + s)) with (u + 3) by (unfold u; lia). rewrite Z.pow_add_r by lia.
    rewrite Hm, HMv, (Z.mul_comm (2 ^ u)). by apply Z.div_mul_cancel_r; lia.
  - replace (- (d - 53 + (dk - 56) + s + 1)) with (u + 2) by (unfold u; lia). rewrite Z.pow_add_r by lia.
    replace (Z.pos m / (2 ^ u * 2 ^ 2)) with (Z.pos m * 2 / (8 * 2 ^ u)) by
      (replace (8 * 2 ^ u) with (2 ^ u * 2 ^ 2 * 2) by lia; by apply Z.div_mul_cancel_r; lia).
    rewrite Hm, HMv. by apply Z.div_mul_cancel_r; lia.
Qed.

(** The multiplier of an entry, in eighths, before it is clamped. *)
Definition burst_eighths (fe : FrontierEntry) : Z :=
  let m := if 10 <? RecentNewEdges fe then 16 else if 0 <? RecentNewEdges fe then 12 else 8 in
  let m := if fgt (SaturationScore fe) fzero && flt (SaturationScore fe) (flit 3 10) then m / 2 else m in
  if negb (bool_decide (ActiveFaultKind fe = ""%string)) then m * 3 / 2 else m.

Lemma multiplier_eighths fe : let k := burst_eighths fe in
  clamp_multiplier (burst_multiplier fe) = eighths k (Z.log2 k + 1) ∧ 4 ≤ k ≤ 24.
Proof.
  unfold burst_eighths, burst_multiplier.
  destruct (10 <? RecentNewEdges fe), (0 <? RecentNewEdges fe), (fgt _ _ && flt _ _), (negb _); vm_compute; (split; [reflexivity|lia || split; discriminate]).
Qed.

(** The length of a burst, in integers: the base length times an eighth of
    16, 12 or 8 (more than ten new edges, some, none), halved in a saturated
    subtree, and half as much again after a fault; rounded down, and never zero.
    The product is exact and the clamp never acts: the result is between half the
    base and three times the base. *)
Theorem adaptBurstInsns_exact (base : Z) (fe : FrontierEntry) (Hbase : 0 < base < 2 ^ 48) :
  let k := burst_eighths fe in
  adaptBurstInsns base fe = (if base * k / 8 =? 0 then base else base * k / 8) ∧
  clamp_multiplier (burst_multiplier fe) = burst_multiplier fe ∧
  base / 2 ≤ adaptBurstInsns base fe ≤ 3 * base ∧ 0 < adaptBurstInsns base fe.
Proof.
  intros k. destruct (multiplier_eighths fe) as [Em Hk]. fold k in Em, Hk.
  assert (adaptBurstInsns base fe = (if base * k / 8 =? 0 then base else base * k / 8)) as E.
  { unfold adaptBurstInsns. rewrite Em, trunc_mul_eighths; [done|done|lia| |].
    - pose proof (Z.log2_le_mono 1 k ltac:(lia)). pose proof (Z.log2_le_mono k 31 ltac:(lia)) as Hu. change (Z.log2 31) with 4 in Hu.
      pose proof (Z.log2_nonneg k). lia.
    - replace (Z.log2 k + 1 - 1) with (Z.log2 k) by lia. rewrite Z.add_1_r. apply Z.log2_spec. lia. }
  split; [done|]. split.
  { unfold burst_multiplier. destruct (10 <? RecentNewEdges fe), (0 <? RecentNewEdges fe), (fgt _ _ && flt _ _), (negb _); by vm_compute. }
  rewrite E. assert (base / 2 ≤ base * k / 8 ≤ 3 * base) as Hr.
  { split; [|apply Z.div_le_upper_bound; nia]. apply Z.div_le_lower_bound; [lia|]. pose proof (Z.mul_div_le base 2 ltac:(lia)). nia. }
  pose proof (Z.div_le_upper_bound base 2 base ltac:(lia)). assert (0 ≤ base / 2) by (apply Z.div_pos; lia).
  set (q := base * k / 8) in *. clearbody q. destruct (Z.eqb_spec q 0); lia.
Qed.

(** ** The intervals between preemptions *)

Lemma preemption_interval_bounds base r : 100000 ≤ base < 2 ^ 61 →
  let x := (preemption_interval base r).1 in base - base / 8 ≤ x < base + base / 4.
Proof.
  intros Hb. unfold preemption_interval. destruct (Uint64 r) as [a r1], (Uint64 r1) as [b r2]. cbn [fst].
  pose proof (Z.mod_pos_bound a (base / 4) ltac:(apply Z.div_str_pos; lia)) as Hj.
  set (j := a mod (base / 4)) in *. assert (base / 4 ≤ base / 1) by (apply Z.div_le_compat_l; lia). rewrite Z.div_1_r in *.
  destruct (b mod 2 =? 0).
  - unfold add64, u64. rewrite Z.mod_small by lia. assert (0 ≤ base / 8) by (apply Z.div_pos; lia). lia.
  - assert (0 ≤ j / 2 ≤ base / 8).
    { split; [apply Z.div_pos; lia|]. replace 8 with (4 * 2) by done. rewrite <- Z.div_div by lia. apply Z.div_le_mono; lia. }
    assert (base / 8 ≤ base) by (apply Z.div_le_upper_bound; lia). unfold sub64, u64. rewrite Z.mod_small by lia. lia.
Qed.

Lemma preemption_intervals_all n base : 100000 ≤ base < 2 ^ 61 → ∀ r,
  length (preemption_intervals n base r) = n ∧
  Forall (λ x, base - base / 8 ≤ x < base + base / 4) (preemption_intervals n base r).
Proof.
  intros Hb. induction n as [|n IH]; intros r; cbn [preemption_intervals]; [done|].
  pose proof (preemption_interval_bounds base r Hb) as Hx. destruct (preemption_interval base r) as [x r']. cbn [fst] in Hx.
  destruct (IH r') as [Hl Hf]. split; [cbn; by rewrite Hl|by constructor].
Qed.

(** The virtual time between the preemptions of a burst: twelve intervals,
    each within an eighth below and a quarter above a tenth of the burst (or of a
    millisecond), so none is zero and none wraps. *)
Theorem generatePreemptionSchedule_bounds (r : Source) (burstNS : Z) (Hb : 0 ≤ burstNS < 2 ^ 64) :
  let base := Z.max 100000 (burstNS / 10) in
  let intervals := generatePreemptionSchedule r burstNS in
  length intervals = 12%nat ∧ Forall (λ x, 0 < base - base / 8 ≤ x ∧ x < base + base / 4) intervals.
Proof.
  intros base intervals. assert (baseInterval burstNS = base) as Eb by (unfold baseInterval, base; destruct (Z.ltb_spec (burstNS / 10) 100000); lia).
  assert (100000 ≤ base < 2 ^ 61) as Hbase.
  { assert (burstNS / 10 < 2 ^ 61) by (apply Z.div_lt_upper_bound; lia). lia. }
  unfold intervals, generatePreemptionSchedule. rewrite Eb. destruct (preemption_intervals_all preemptionCount base Hbase r) as [Hl Hf].
  split; [done|]. eapply Forall_impl; [exact Hf|]. intros x Hx. cbn beta in Hx. assert (base / 8 < base) by (apply Z.div_lt; lia). lia.
Qed.

(** ** Replaying the schedule of a path *)

Lemma path_entries_step faults path : ∀ i e, e ∈ path_entries faults i path → i ≤ Step e < i + Z.of_nat (length path).
Proof.
  induction path as [|y path IH]; intros i e; cbn [path_entries]; [by rewrite elem_of_nil|].
  intros [(e' & -> & _)%list_elem_of_fmap|He]%elem_of_app; cbn [length Step at_step]; [cbn; lia|]. specialize (IH _ _ He). lia.
Qed.

Lemma at_steps_sorted n l : StronglySorted by_step (map (at_step n) l).
Proof.
  induction l as [|e l IH]; cbn [map]; constructor; [done|]. rewrite Forall_forall.
  intros x (e' & -> & _)%list_elem_of_fmap. unfold by_step. done.
Qed.

Lemma path_entries_sorted faults path : ∀ i, StronglySorted by_step (path_entries faults i path).
Proof.
  induction path as [|y path IH]; intros i; cbn [path_entries]; [constructor|].
  apply StronglySorted_app_2; [|apply at_steps_sorted|apply IH].
  intros x z (e & -> & _)%list_elem_of_fmap Hz%path_entries_step. unfold by_step. cbn. lia.
Qed.

Lemma PathToRoot_nonempty t id path : PathToRoot t id = Some path → path ≠ [].
Proof.
  unfold PathToRoot, walk_fuel. cbn [path_loop]. intros (l & Hl & ->)%fmap_Some_1 E.
  apply (f_equal length) in E. rewrite length_reverse in E. repeat case_match; simplify_option_eq; done.
Qed.

Lemma StronglySorted_seqZ (n : nat) : ∀ i, StronglySorted Z.lt (seqZ i (Z.of_nat n)).
Proof.
  induction n as [|n IH]; intros i; [rewrite seqZ_nil by done; constructor|].
  rewrite seqZ_cons by lia. replace (Z.pred (Z.of_nat (S n))) with (Z.of_nat n) by lia. constructor; [apply IH|].
  rewrite Forall_forall. intros x Hx%elem_of_seqZ. lia.
Qed.

(** What each step of the path is to inject. *)
Fixpoint path_steps (faults : gmap Z (list ScheduleEntry)) (i : Z) (path : list Z) : list (list ScheduleEntry) :=
  match path with
  | [] => []
  | x :: path => map (at_step i) (default [] (faults !! x)) :: path_steps faults (i + 1) path
  end.

Lemma filter_at_steps n t l : filter (λ e, Step e = t) (map (at_step n) l) = if decide (n = t) then map (at_step n) l else [].
Proof. induction l as [|e l IH]; cbn [map]; [by case_decide|]. rewrite filter_cons, IH. cbn. by repeat case_decide. Qed.

Lemma path_entries_filter faults pending path : ∀ i n, n = i + Z.of_nat (length path) →
  map (λ t, filter (λ e, Step e = t) (path_entries faults i path ++ map (at_step n) pending)) (seqZ i (Z.of_nat (length path) + 1)) =
  path_steps faults i path ++ [map (at_step n) pending].
Proof.
  induction path as [|y path IH]; intros i n Hn; cbn [length path_entries path_steps].
  - rewrite (seqZ_cons i) by lia. cbn [map app]. rewrite seqZ_nil by lia. rewrite filter_at_steps. by rewrite decide_True by (cbn in Hn; lia).
  - rewrite seqZ_cons by lia. cbn [map app]. f_equal.
    + rewrite !filter_app, !filter_at_steps, decide_True, decide_False by (cbn in Hn; lia). rewrite app_nil_r.
      rewrite filter_none_in, app_nil_r; [done|]. intros e He%path_entries_step. lia.
    + rewrite <- Z.add_1_r, <- (IH (i + 1) n) by (cbn in Hn; lia).
      replace (Z.pred (Z.of_nat (S (length path)) + 1)) with (Z.of_nat (length path) + 1) by lia.
      apply map_ext_in. intros t Ht%list_elem_of_In%elem_of_seqZ. rewrite !filter_app, filter_at_steps, decide_False by lia. done.
Qed.

Section pool.
Context {W B : Type} `{PoolMachine W} `{Bitmap64 B} `{Injection} {growth : Growth} (p : PoolConfig).

(** C11: The schedule of a violation replays along its path: read as a replay
    schedule, its step [i] (from 1) gives back, at step [i], the faults that were
    in force when the [i]-th snapshot after the root was taken, and the step after
    the last snapshot gives the faults injected since: nothing is lost, doubled
    or moved to another step of the path. *)
Theorem buildViolationSchedule_replays (snapID : Z) (w : poolWorker W) (path : list Z) (sched : Schedule)
    (Hpath : PathToRoot (tree w) snapID = Some path)
    (Hsched : buildViolationSchedule p snapID w = Some sched) :
  scheduleProfile sched = swarmProfile p ∧
  ∀ profile, replay_steps (NewReplaySchedule (Entries sched) profile) (seqZ 1 (Z.of_nat (length path))) =
    path_steps (snapshotFaults w) 1 (drop 1 path) ++ [map (at_step (Z.of_nat (length path))) (pendingFaults w)].
Proof.
  assert (path ≠ []) as Hne by by eapply PathToRoot_nonempty. revert Hsched. unfold buildViolationSchedule. rewrite Hpath. cbn [mbind option_bind].
  rewrite record_fold_entries by done. intros [= <-]. cbn [Entries scheduleProfile cursor app]. split; [done|]. intros profile.
  destruct path as [|x path]; [done|]. cbn [drop length]. replace (Z.of_nat (S (length path))) with (Z.of_nat (length path) + 1) by lia.
  change (drop 0 path) with path. rewrite <- path_entries_filter by lia.
  assert (∀ e, e ∈ path_entries (snapshotFaults w) 1 path ++ map (at_step (Z.of_nat (length path) + 1)) (pendingFaults w) → 0 < Step e) as Hpos.
  { intros e [He%path_entries_step|(e' & -> & _)%list_elem_of_fmap]%elem_of_app; [lia|cbn; lia]. }
  apply (replay_steps_spec _ (NewReplaySchedule _ profile) 0); cbn; [done| | |replace (Z.of_nat (length path) + 1) with (Z.of_nat (S (length path))) by lia; apply StronglySorted_seqZ|].
  - apply StronglySorted_app_2; [|apply path_entries_sorted|apply at_steps_sorted].
    intros e1 e2 He%path_entries_step (e & -> & _)%list_elem_of_fmap. unfold by_step. cbn. lia.
  - symmetry. apply filter_all_in. intros e He. by apply Hpos.
  - rewrite Forall_forall. intros t Ht%elem_of_seqZ. lia.
Qed.
End pool.
