(* ===== verification/PoolDemo.v ===== *)
(** * The worker pool: runs

    Two workers on machines whose calls succeed and whose guests write what they
    are given, interleaved by schedules: the witnesses of the pool's theorems. *)
From stdpp Require Import strings pretty sorting.
From S2P Require Import Prelude Strings Word Float GoLib Json Prng TestConfig SnapshotTree SnapshotTreeInv SnapshotTreeProps Coverage InputTree.
From S2P Require Import ChoiceBuffer Novelty Mcts Saturation Frontier Explorer Output Composer EventStore Fault Schedule Adaptive FaultInject.
From S2P Require Import Campaign Interleave Explore ExploreLoop ExploreProps ExploreDemo Pool PoolLoop PoolProps PoolTheorems PoolBurst.
Local Open Scope Z_scope.

Definition demo_pact (a : pool_action) (w : Demo) : bool * Demo := (false, w).

#[export] Instance demo_pool_machine : PoolMachine Demo := {|
  pact := demo_pact;
  Snapshot w := (Some (1000 + Z.of_nat (length (d_log w))), w) |}.

#[export] Instance demo_pool_laws : PoolMachineLaws Demo.
Proof. split; intros; cbn; unfold later; cbn; (done || (split; [lia|done])). Qed.

Definition demo_pool_config : PoolConfig :=
  mkPoolConfig (FaultInject.mkRunConfig BackendFirecracker 42 demo_config) "/state" 512 0
    (Explorer.mkConfig 10 1 0 StrategyBreadthFirst 42 2 64 "") (NewScorer StrategyBreadthFirst) None None None ∅ false false false.

(** The guest fails an assertion in every burst. *)
Definition failing : list (list OutputData) := repeat [demo_violation] 4.

Definition demo_pool : pool_setup (W := Demo) :=
  mkPoolSetup demo_pool_config [mkDemo 0 [] failing false; mkDemo 0 [] failing false] (Some NewSchedule) (Some demo_comp) (Some []) 1000000000000 4.

Abbreviation demo_start := (pool_start (B := gset Z) (H3 := never) log_id demo_pool).

(** Both workers look at the number of states, worker 0 claims a step, worker 1
    runs to its end, then worker 0 does. *)
Definition overtaken : list nat := repeat 0%nat 2 ++ repeat 1%nat 2 ++ [0%nat] ++ repeat 1%nat 300 ++ repeat 0%nat 300.

Definition seen (c : config (VMPool (gset Z)) (unit * poolWorker Demo)) : list bool * Z * list Z * list Z :=
  (is_done <$> c.1, states c.2, vStep <$> violations c.2, snd <$> map_to_list (violationScheduleSteps c.2)).

Definition overtaken_end : config (VMPool (gset Z)) (unit * poolWorker Demo) := default demo_start (run_schedule overtaken demo_start).

(** With a limit of one state the two make four steps, as many as
    [pool_state_budget] allows; the violation of step 1 is found third, and its
    schedule is the one kept. *)
Lemma overtaken_seen : seen <$> run_schedule overtaken demo_start = Some ([true; true], 4, [2; 3; 1; 4], [1]).
Proof. vm_compute. reflexivity. Qed.

Lemma ran {A X} (d : A) (o : option A) (f : A → X) x : f <$> o = Some x → o = Some (default d o) ∧ f (default d o) = x.
Proof. intros (a & -> & ->)%fmap_Some_1. by split. Qed.

Lemma seen_parts c bs n vs ks : seen c = (bs, n, vs, ks) →
  is_done <$> c.1 = bs ∧ states c.2 = n ∧ vStep <$> violations c.2 = vs ∧ snd <$> map_to_list (violationScheduleSteps c.2) = ks.
Proof. by intros [= <- <- <- <-]. Qed.

Lemma overtaken_reached : rtc worker_step demo_start overtaken_end ∧ seen overtaken_end = ([true; true], 4, [2; 3; 1; 4], [1]).
Proof.
  destruct (ran demo_start _ _ _ overtaken_seen) as [E Hs].
  exact (conj (run_schedule_steps overtaken _ _ E) Hs).
Qed.

Lemma demo_pool_ok : pool_ok demo_pool.
Proof.
  split; [done|split; done|vm_compute; done| |vm_compute; lia]. intros c [= <-]. split_and!; done.
Qed.

(** ** Witnesses *)

Lemma pool_terminates_witness :
  (∀ c, rtc worker_step demo_start c → ¬ panics c ∧ ∃ c', rtc worker_step c c' ∧ finished c') ∧
  rtc worker_step demo_start overtaken_end ∧ length (workers_of overtaken_end) = 2%nat ∧
  ∀ w, w ∈ workers_of overtaken_end → Validate (tree w) = None.
Proof.
  destruct (pool_terminates (H3 := never) (B := gset Z) log_id demo_pool demo_pool_ok) as (Hends & _ & Hvalid).
  split; [exact Hends|]. split; [apply overtaken_reached|]. split; [vm_compute; reflexivity|].
  intros w. apply Hvalid, overtaken_reached.
Defined.


Lemma pool_state_budget_witness : states overtaken_end.2 = 4 ∧
  0 ≤ states overtaken_end.2 ≤ Z.max 0 (MaxStates (expCfg demo_pool_config) - 1) +
    Z.max 1 (BranchFactor (expCfg demo_pool_config)) * Z.of_nat (length (ps_machines demo_pool)).
Proof.
  destruct overtaken_reached as [Hr Hs]. revert Hr Hs. generalize overtaken_end. intros c Hr Hs. apply seen_parts in Hs as (_ & H4 & _ & _). split; [exact H4|].
  exact (pool_state_budget (H3 := never) (B := gset Z) log_id demo_pool demo_pool_ok c Hr).
Defined.


(** A saturated subtree that found a little, under a fault. *)
Definition demo_burst_entry : FrontierEntry := mkEntry 1 fone 1 0 fzero fzero fzero 0 0 0 0 fzero (flit 1 5) 3 "packet_drop" fzero fzero 0.

Lemma adaptBurstInsns_exact_witness : 0 < 1000000 < 2 ^ 48 ∧ adaptBurstInsns 1000000 demo_burst_entry = 1125000.
Proof.
  split; [lia|]. destruct (adaptBurstInsns_exact 1000000 demo_burst_entry ltac:(lia)) as [E _]. rewrite E. vm_compute. reflexivity.
Defined.

Lemma generatePreemptionSchedule_bounds_witness :
  Forall (λ x, 0 < 5000000 - 5000000 / 8 ≤ x ∧ x < 5000000 + 5000000 / 4) (generatePreemptionSchedule (Prng.New 7) 50000000).
Proof. exact (proj2 (generatePreemptionSchedule_bounds (Prng.New 7) 50000000 ltac:(lia))). Defined.

(** A worker at snapshot 4, whose path is 0, 1, 2, 4, with a fault behind 2 and 4 and one pending. *)
Definition demo_tree : Tree := (Create (Create (Create (Create NewTree 0 100 0 0 0 0 0).2 1 101 128 7 11 0 1).2 1 102 256 8 12 0 2).2 2 103 384 9 13 0 0).2.

Definition demo_at_path : poolWorker Demo :=
  new_worker demo_pool_config 0 (mkDemo 0 [] [] false) <| tree := demo_tree |>
    <| snapshotFaults := <[2 := [demo_entry 17 "a"]]> (<[4 := [demo_entry 23 "b"]]> ∅) |> <| pendingFaults := [demo_entry 31 "c"] |>.

Lemma buildViolationSchedule_replays_witness :
  ∃ sched, PathToRoot (tree demo_at_path) 4 = Some [0; 1; 2; 4] ∧ buildViolationSchedule demo_pool_config 4 demo_at_path = Some sched ∧
    replay_steps (NewReplaySchedule (Entries sched) None) [1; 2; 3; 4] = [[]; [demo_entry 2 "a"]; [demo_entry 3 "b"]; [demo_entry 4 "c"]].
Proof.
  destruct (buildViolationSchedule demo_pool_config 4 demo_at_path) as [sched|] eqn:E; [|vm_compute in E; discriminate].
  assert (PathToRoot (tree demo_at_path) 4 = Some [0; 1; 2; 4]) as Hp by (vm_compute; reflexivity).
  exists sched. split; [exact Hp|]. split; [reflexivity|].
  exact (proj2 (buildViolationSchedule_replays demo_pool_config 4 demo_at_path _ sched Hp E) None).
Defined.

(** The schedule of a violation in the burst from the root snapshot: the path
    starts with the tree's own node 0, so the fault of that first burst is put at
    step 2, where a serial exploration, which numbers its steps from 0, makes its
    third. *)
Example root_burst_late :
  let w := demo_at_path <| pendingFaults := [demo_entry 31 "c"] |> in
  PathToRoot (tree w) 1 = Some [0; 1] ∧
  match buildViolationSchedule demo_pool_config 1 w with
  | Some sched => replay_steps (NewReplaySchedule (Entries sched) None) [0; 1; 2] = [[]; []; [demo_entry 2 "c"]]
  | None => False
  end.
Proof. vm_compute. split; reflexivity. Qed.
