(* ===== verification/Windows.v ===== *)
(** * Windows of virtual time
    ([buildPropertyTimeline] and [ComputeBugReport] of [internal/report])

    Both reports divide the time between the first and the last evaluation into
    windows and count each evaluation in the window that a float division gives.
    An index below zero would be a panic of Go's slice; here an index is an
    option, and the lemmas show that it is always there. *)
From S2P Require Import Prelude Float.
From Stdlib Require Import Floats.SpecFloat.
Local Open Scope Z_scope.

(** ** Definitions *)

(** Five milliseconds a step: [float64(step) * 0.005]. *)
Definition vtime_of (step : Z) : float64 := fmul (float_of_Z step) (flit 5 1000).

(** [math.Ceil], as an integer. *)
Definition ceil (x : float64) : Z := let t := trunc x in if flt (float_of_Z t) x then t + 1 else t.

(** The range of the times, one second if it is empty. *)
Definition time_range (minT maxT : float64) : float64 := let r := fsub maxT minT in if fle r fzero then fone else r.

(** The length of a window when there are to be [target] of them: half a second
    at least. *)
Definition window_size (range : float64) (target : Z) : float64 :=
  let w := fdiv range (float_of_Z target) in if flt w (flit 1 2) then flit 1 2 else w.

Definition num_windows (range w : float64) : nat := Z.to_nat (Z.max 1 (ceil (fdiv range w))).

(** The window of a time, of [n] windows. *)
Definition window_index (minT w : float64) (n : nat) (t : float64) : option nat :=
  let idx := trunc (fdiv (fsub t minT) w) in
  let idx := if Z.of_nat n <=? idx then Z.of_nat n - 1 else idx in
  if idx <? 0 then None else Some (Z.to_nat idx).

(** The middle of window [i]. *)
Definition window_time (minT w : float64) (i : nat) : float64 :=
  fadd (fadd minT (fmul (float_of_Z (Z.of_nat i)) w)) (fdiv w (float_of_Z 2)).

(** Counting items into buckets: an item without an index, or with one outside
    the slice, is a panic. *)
Section tally.
Context {A B : Type} (idx : A → option nat) (add : B → A → B).

Definition tally (bs : list B) (x : A) : option (list B) := i ← idx x; b ← bs !! i; Some (<[i := add b x]> bs).

Fixpoint tally_all (bs : list B) (xs : list A) : option (list B) :=
  match xs with
  | [] => Some bs
  | x :: xs => bs ← tally bs x; tally_all bs xs
  end.

(** Each bucket gets its items, in order. *)
Lemma tally_all_spec xs : ∀ bs, (∀ x, x ∈ xs → ∃ i, idx x = Some i ∧ (i < length bs)%nat) →
  ∃ bs', tally_all bs xs = Some bs' ∧ length bs' = length bs ∧
    ∀ i b, bs !! i = Some b → bs' !! i = Some (foldl add b (filter (λ x, idx x = Some i) xs)).
Proof.
  induction xs as [|x xs IH]; intros bs Hx; cbn [tally_all]; [by exists bs|].
  destruct (Hx x ltac:(by left)) as (i & Ei & Hi). destruct (lookup_lt_is_Some_2 bs i Hi) as [b Hb].
  unfold tally at 1. rewrite Ei. cbn [mbind option_bind]. rewrite Hb.
  destruct (IH (<[i := add b x]> bs)) as (bs' & E & Hl & Hbs); [intros y Hy; rewrite length_insert; apply Hx; by right|].
  exists bs'. rewrite length_insert in Hl. split_and!; [done|done|]. intros j c Hj. rewrite filter_cons.
  destruct (decide (idx x = Some j)) as [Ej|Hne].
  - assert (i = j) as <- by congruence. apply Hbs. rewrite Hb in Hj. injection Hj as <-. by apply list_lookup_insert_eq.
  - apply Hbs. rewrite list_lookup_insert_ne; [done|congruence].
Qed.

(** The buckets partition the items. *)
Lemma count_buckets (P : A → bool) n xs : (∀ x, x ∈ xs → ∃ i, idx x = Some i ∧ (i < n)%nat) →
  sum_list_with (λ i, count_if P (filter (λ x, idx x = Some i) xs)) (seq 0 n) = count_if P xs.
Proof.
  induction xs as [|x xs IH]; intros Hx; [induction (seq 0 n); done|].
  destruct (Hx x ltac:(by left)) as (i & Ei & Hi). rewrite <- Nat.add_0_r at 1. cbn [count_if]. rewrite <- IH by (intros y Hy; apply Hx; by right).
  assert (∀ l, NoDup l → sum_list_with (λ j, count_if P (filter (λ x, idx x = Some j) (x :: xs))) l =
    ((if bool_decide (i ∈ l) then if P x then 1 else 0 else 0) + sum_list_with (λ j, count_if P (filter (λ x, idx x = Some j) xs)) l)%nat) as Hsum.
  { induction 1 as [|j l Hj _ IHl]; [done|]. cbn [sum_list_with]. rewrite IHl, filter_cons. destruct (decide (idx x = Some j)) as [Ej|Hne].
    - assert (i = j) as <- by congruence. rewrite (bool_decide_eq_false_2 (i ∈ l)), (bool_decide_eq_true_2 (i ∈ i :: l)) by (done || by left).
      cbn [count_if]. lia.
    - assert (i ≠ j) by congruence. rewrite (bool_decide_ext (i ∈ j :: l) (i ∈ l)) by set_solver. lia. }
  rewrite Nat.add_0_r, Hsum by apply NoDup_seq. rewrite bool_decide_eq_true_2 by (apply elem_of_seq; lia). lia.
Qed.
End tally.

(** ** Positive floats *)

(** A positive float with a full mantissa and its exponent within bounds. *)
Definition pos_in (lo hi : Z) (x : float64) : Prop :=
  ∃ m e, x = S754_finite false m e ∧ 2 ^ 52 ≤ Z.pos m < 2 ^ 53 ∧ lo ≤ e ≤ hi.

Lemma pos_in_weaken lo hi lo' hi' x : lo' ≤ lo → hi ≤ hi' → pos_in lo hi x → pos_in lo' hi' x.
Proof. intros Hl Hh (m & e & -> & Hm & He). exists m, e. split_and!; [done|lia|lia|lia|lia]. Qed.

Lemma shr_m_shift n : ∀ mrs, 0 ≤ shr_m mrs → shr_m (Nat.iter n shr_1 mrs) = shr_m mrs / 2 ^ Z.of_nat n.
Proof.
  induction n as [|n IH]; intros mrs Hm; [by rewrite Z.div_1_r|].
  rewrite Nat.iter_succ. assert (0 ≤ shr_m (Nat.iter n shr_1 mrs)) as Hn by (rewrite IH by done; apply Z.div_pos; lia).
  destruct (shr_1_fields _ Hn) as (-> & _). rewrite IH by done. rewrite Z.div_div by lia. f_equal.
  rewrite Nat2Z.inj_succ, Z.pow_succ_r by lia. lia.
Qed.

Lemma round_step M l : M ≤ round_nearest_even M l ≤ M + 1.
Proof. destruct l as [|[]]; cbn; [lia| |lia|lia]. destruct (Z.even M); lia. Qed.

(** Rounding to 53 bits keeps a mantissa full, whatever was lost before. *)
Lemma round_full p e l D : 2 ^ (D - 1) ≤ p < 2 ^ D → 53 ≤ D → -900 ≤ e + D ≤ 900 →
  pos_in (e + D - 53) (e + D - 52) (binary_round_aux 53 1024 false p e l).
Proof.
  intros Hp HD He. assert (0 < p) as Hp0 by (pose proof (Z.pow_pos_nonneg 2 (D - 1)); lia). destruct p as [|p|p]; try lia.
  unfold binary_round_aux, shr_fexp. cbn [Zdigits2]. rewrite (digits2_unique p D) by lia. rewrite fexp_normal by lia.
  replace (D + e - 53 - e) with (D - 53) by lia.
  assert (∃ mrs, shr (shr_record_of_loc (Z.pos p) l) e (D - 53) = (mrs, e + (D - 53)) ∧ shr_m mrs = Z.pos p / 2 ^ (D - 53)) as (mrs & -> & Hm).
  { assert (shr_m (shr_record_of_loc (Z.pos p) l) = Z.pos p) as Hl by (destruct l as [|[]]; done). unfold shr.
    destruct (D - 53) as [|n|n] eqn:E; [|rewrite iter_pos_nat|lia]; eexists; (split; [done || (f_equal; lia)|]).
    - by rewrite Hl, Z.div_1_r.
    - rewrite shr_m_shift by lia. by rewrite Hl, positive_nat_Z. }
  assert (2 ^ 52 ≤ shr_m mrs < 2 ^ 53) as Hq.
  { rewrite Hm. assert (0 < 2 ^ (D - 53)) by (apply Z.pow_pos_nonneg; lia).
    replace (2 ^ (D - 1)) with (2 ^ (D - 53) * 2 ^ 52) in Hp by (rewrite <- Z.pow_add_r by lia; f_equal; lia).
    replace (2 ^ D) with (2 ^ (D - 53) * 2 ^ 53) in Hp by (rewrite <- Z.pow_add_r by lia; f_equal; lia).
    split; [apply Z.div_le_lower_bound; lia|apply Z.div_lt_upper_bound; lia]. }
  pose proof (round_step (shr_m mrs) (loc_of_shr_record mrs)) as Hr. set (M := round_nearest_even _ _) in *. clearbody M. cbv beta iota.
  destruct M as [|M|M]; try lia. cbn [Zdigits2]. destruct (decide (Z.pos M = 2 ^ 53)) as [HM|HM].
  - rewrite (digits2_unique M 54) by lia. rewrite fexp_normal by lia.
    replace (54 + (e + (D - 53)) - 53 - (e + (D - 53))) with 1 by lia. assert (M = xO (2 ^ 52)) as -> by lia. simpl.
    rewrite (proj2 (Z.leb_le _ _)) by lia. do 2 eexists. split_and!; [done|lia|lia|lia|lia].
  - rewrite (digits2_unique M 53) by lia. rewrite fexp_normal by lia.
    replace (53 + (e + (D - 53)) - 53 - (e + (D - 53))) with 0 by lia. simpl.
    rewrite (proj2 (Z.leb_le _ _)) by lia. do 2 eexists. split_and!; [done|lia|lia|lia|lia].
Qed.

Lemma normalize_full k e D : 2 ^ (D - 1) ≤ k < 2 ^ D → 0 < D → -500 ≤ e ≤ 0 → D ≤ 300 →
  pos_in (e + D - 53) (e + D - 52) (binary_normalize 53 1024 k e false).
Proof.
  intros Hk HD He HD2. assert (0 < k) as Hk0 by (pose proof (Z.pow_pos_nonneg 2 (D - 1)); lia).
  destruct (Z.le_gt_cases D 53) as [Hs|Hl].
  - rewrite (binary_normalize_exact k e D) by lia. pose proof (scaled_mantissa k D Hk0 ltac:(lia) Hk).
    do 2 eexists. split_and!; [done|lia|lia|lia|lia].
  - destruct k as [|k|k]; try lia. unfold binary_normalize, binary_round, shl_align.
    rewrite (digits2_unique k D) by lia. rewrite fexp_normal by lia.
    destruct (D + e - 53 - e) as [|n|n] eqn:E; try lia. apply round_full; lia.
Qed.

Lemma fdiv_full x y a b c d : pos_in a b x → pos_in c d y → -300 ≤ a → b ≤ 300 → -300 ≤ c → d ≤ 300 →
  pos_in (a - d - 53) (b - c - 51) (fdiv x y).
Proof.
  intros (m1 & e1 & -> & Hm1 & He1) (m2 & e2 & -> & Hm2 & He2) Ha Hb Hc Hd. unfold fdiv, SFdiv, SFdiv_core_binary. cbn [Zdigits2 xorb].
  rewrite (digits2_unique m1 53), (digits2_unique m2 53) by lia. rewrite fexp_normal by lia.
  replace (Z.min (53 + e1 - (53 + e2) - 53) (e1 - e2)) with (e1 - e2 - 53) by lia. replace (e1 - e2 - (e1 - e2 - 53)) with 53 by lia.
  rewrite Z.shiftl_mul_pow2 by lia. pose proof (Z_div_mod (Z.pos m1 * 2 ^ 53) (Z.pos m2) ltac:(lia)) as Hdm.
  destruct (Z.div_eucl _ _) as [q r]. destruct Hdm as [Hq Hr].
  assert (2 ^ 52 ≤ q < 2 ^ 54) as Hqb by nia.
  assert (∃ D, 53 ≤ D ≤ 54 ∧ 2 ^ (D - 1) ≤ q < 2 ^ D) as (D & HD & HqD).
  { destruct (Z.lt_ge_cases q (2 ^ 53)); [exists 53|exists 54]; simpl; lia. }
  eapply pos_in_weaken; [| |apply (round_full q _ _ D HqD)]; lia.
Qed.

(** ** Virtual times *)

(** Its value in units of [2^-113]. *)
Definition value (x : float64) : Z :=
  match x with S754_finite false m e => Z.pos m * 2 ^ (e + 113) | _ => 0 end.

(** The bits of [0.005]. *)
Lemma step_float : flit 5 1000 = S754_finite false 5764607523034235 (-60).
Proof. vm_compute. reflexivity. Qed.

Lemma vtime_zero : vtime_of 0 = fzero.
Proof. vm_compute. reflexivity. Qed.

Lemma vtime_pos k : 0 < k < 2 ^ 48 →
  pos_in (-60) (-11) (vtime_of k) ∧ Z.abs (value (vtime_of k) - k * (5764607523034235 * 2 ^ 53)) ≤ 2 ^ 101.
Proof.
  intros Hk. destruct (leading_bit k 48 ltac:(lia) ltac:(lia)) as (d & Hd & Hb).
  pose proof (scaled_mantissa k d ltac:(lia) ltac:(lia) Hb) as Hmk. unfold vtime_of.
  rewrite (float_of_Z_exact k d), step_float by lia. unfold fmul, SFmul. cbn [xorb].
  set (c := 5764607523034235%positive). set (p := (Z.to_pos (k * 2 ^ (53 - d)) * c)%positive).
  assert (Z.pos p = k * 2 ^ (53 - d) * Z.pos c) as Hp by (unfold p; lia).
  assert (2 ^ 52 < Z.pos c < 2 ^ 53) as Hc by (unfold c; lia).
  assert (2 ^ 104 ≤ Z.pos p < 2 ^ 106) as Hpb by (rewrite Hp; nia).
  assert (∃ D, 105 ≤ D ≤ 106 ∧ 2 ^ (D - 1) ≤ Z.pos p < 2 ^ D) as (D & HD & HpD).
  { destruct (Z.lt_ge_cases (Z.pos p) (2 ^ 105)); [exists 105|exists 106]; simpl; lia. }
  destruct (binary_round_aux_product p (d - 53 + -60) D) as (M & m & E & EQ & HmE & HM); [done|lia|lia|].
  pose proof (round_full (Z.pos p) (d - 53 + -60) loc_Exact D HpD ltac:(lia) ltac:(lia)) as Hfull. rewrite EQ in Hfull |- *.
  split; [eapply pos_in_weaken; [| |exact Hfull]; lia|]. cbn [value]. set (s := D - 53) in *.
  assert (Z.pos m * 2 ^ (E + 113) = M * 2 ^ (d + s)) as ->.
  { destruct HmE as [[-> ->]|[<- ->]]; [f_equal; f_equal; lia|].
    replace (d - 53 + -60 + s + 1 + 113) with (1 + (d + s)) by lia. rewrite Z.pow_add_r by (unfold s; lia). lia. }
  assert (k * (Z.pos c * 2 ^ 53) = Z.pos p * 2 ^ d) as ->.
  { rewrite Hp. replace (2 ^ 53) with (2 ^ (53 - d) * 2 ^ d) by (rewrite <- Z.pow_add_r by lia; f_equal; lia). ring. }
  rewrite Z.add_comm, Z.pow_add_r by (unfold s; lia). rewrite Z.mul_assoc, <- Z.mul_sub_distr_r, Z.abs_mul, (Z.abs_eq (2 ^ d)) by lia.
  assert (Z.abs (M * 2 ^ s - Z.pos p) ≤ 2 ^ s) as Hround.
  { assert (0 < 2 ^ s) as Hs by (apply Z.pow_pos_nonneg; unfold s; lia).
    pose proof (Z.div_mod (Z.pos p) (2 ^ s) ltac:(lia)) as Hdm. pose proof (Z.mod_pos_bound (Z.pos p) (2 ^ s) Hs). destruct HM as [->|[-> _]]; nia. }
  assert (2 ^ s ≤ 2 ^ 53) by (apply Z.pow_le_mono_r; unfold s; lia). assert (2 ^ d ≤ 2 ^ 48) by (apply Z.pow_le_mono_r; lia).
  change (2 ^ 101) with (2 ^ 53 * 2 ^ 48). apply Z.mul_le_mono_nonneg; lia.
Qed.

Lemma vtime_value_lt j k : 0 ≤ j < k → k < 2 ^ 48 → value (vtime_of j) < value (vtime_of k).
Proof.
  intros Hjk Hk. destruct (vtime_pos k ltac:(lia)) as [(m & e & E & Hm & He) H2]. destruct (decide (j = 0)) as [->|Hj].
  - rewrite vtime_zero. change (value fzero) with 0. rewrite E. cbn [value]. apply Z.mul_pos_pos; [lia|apply Z.pow_pos_nonneg; lia].
  - destruct (vtime_pos j ltac:(lia)) as [_ H1]. lia.
Qed.

Lemma vtime_value_mono j k : 0 ≤ j ≤ k → k < 2 ^ 48 → value (vtime_of j) ≤ value (vtime_of k).
Proof. intros Hjk Hk. destruct (decide (j = k)) as [->|Hne]; [lia|]. apply Z.lt_le_incl, vtime_value_lt; lia. Qed.

(** A time is zero or positive, in bounds. *)
Definition time (lo hi : Z) (x : float64) : Prop := x = fzero ∨ pos_in lo hi x.

Lemma vtime_time k : 0 ≤ k < 2 ^ 48 → time (-60) (-11) (vtime_of k).
Proof. intros Hk. destruct (decide (k = 0)) as [->|]; [left; apply vtime_zero|]. right. by apply vtime_pos; lia. Qed.

(** Positive floats with full mantissas are ordered by their values. *)
Lemma flt_value x y : time (-60) (-11) x → time (-60) (-11) y → flt x y = (value x <? value y).
Proof.
  assert (∀ a, -60 ≤ a → 0 < 2 ^ (a + 113)) as Hpow by (intros; apply Z.pow_pos_nonneg; lia).
  assert (∀ m1 e1 m2 e2, -60 ≤ e1 → e1 < e2 → 2 ^ 52 ≤ Z.pos m2 → Z.pos m1 < 2 ^ 53 → Z.pos m1 * 2 ^ (e1 + 113) < Z.pos m2 * 2 ^ (e2 + 113)) as Hexp.
  { intros m1 e1 m2 e2 H1 H2 H3 H4. pose proof (Hpow e1 H1). assert (2 ^ (e1 + 113 + 1) ≤ 2 ^ (e2 + 113)) as H5 by (apply Z.pow_le_mono_r; lia).
    rewrite Z.pow_add_r in H5 by lia. nia. }
  intros [->|(m1 & e1 & -> & Hm1 & He1)] [->|(m2 & e2 & -> & Hm2 & He2)]; unfold flt, SFltb, SFcompare; cbn [value]; change (value fzero) with 0.
  - done.
  - pose proof (Hpow e2 ltac:(lia)). cbn. symmetry. apply Z.ltb_lt. nia.
  - pose proof (Hpow e1 ltac:(lia)). cbn. symmetry. apply Z.ltb_ge. nia.
  - destruct (Z.compare_spec e1 e2) as [->|Hlt|Hgt].
    + pose proof (Hpow e2 ltac:(lia)) as Hp. change (Pos.compare_cont Eq m1 m2) with (Pos.compare m1 m2). destruct (Pos.compare_spec m1 m2) as [->|H|H]; symmetry.
      * apply Z.ltb_irrefl.
      * apply Z.ltb_lt, Z.mul_lt_mono_pos_r; lia.
      * apply Z.ltb_ge, Z.mul_le_mono_nonneg_r; lia.
    + symmetry. apply Z.ltb_lt, Hexp; lia.
    + symmetry. apply Z.ltb_ge, Z.lt_le_incl, Hexp; lia.
Qed.

(** The times of steps are in the order of the steps. *)
Lemma flt_vtime j k : 0 ≤ j < 2 ^ 48 → 0 ≤ k < 2 ^ 48 → flt (vtime_of j) (vtime_of k) = (j <? k).
Proof.
  intros Hj Hk. rewrite flt_value by by apply vtime_time. destruct (Z.ltb_spec j k).
  - apply Z.ltb_lt, vtime_value_lt; lia.
  - apply Z.ltb_ge. destruct (decide (k = j)) as [->|]; [lia|]. apply Z.lt_le_incl, vtime_value_lt; lia.
Qed.

Lemma align_value m e ez : ez ≤ e → Z.pos (fst (shl_align m e ez)) = Z.pos m * 2 ^ (e - ez).
Proof.
  intros He. unfold shl_align. destruct (ez - e) as [|n|n] eqn:E; [|lia|].
  - replace (e - ez) with 0 by lia. cbn [fst]. lia.
  - cbn [fst]. rewrite iter_xO. f_equal. f_equal. lia.
Qed.

Lemma fsub_time x y : time (-60) (-11) x → time (-60) (-11) y → value y ≤ value x → time (-113) (-9) (fsub x y).
Proof.
  intros [->|(m1 & e1 & -> & Hm1 & He1)] [->|(m2 & e2 & -> & Hm2 & He2)] Hv; cbn [value] in Hv.
  - by left.
  - assert (0 < 2 ^ (e2 + 113)) by (apply Z.pow_pos_nonneg; lia). change (value fzero) with 0 in Hv. lia.
  - right. exists m1, e1. split_and!; [done|lia|lia|lia|lia].
  - unfold fsub, SFsub. cbn [cond_Zopp]. set (ez := Z.min e1 e2). rewrite !align_value by (unfold ez; lia).
    set (k := Z.pos m1 * 2 ^ (e1 - ez) - Z.pos m2 * 2 ^ (e2 - ez)).
    assert (0 ≤ k) as Hk.
    { assert (0 < 2 ^ (ez + 113)) as Hz by (apply Z.pow_pos_nonneg; unfold ez; lia).
      apply (Z.mul_le_mono_pos_r _ _ _ Hz). unfold k. rewrite Z.mul_sub_distr_r, <- !Z.mul_assoc, <- !Z.pow_add_r by (unfold ez; lia).
      replace (e1 - ez + (ez + 113)) with (e1 + 113) by lia. replace (e2 - ez + (ez + 113)) with (e2 + 113) by lia. lia. }
    destruct (decide (k = 0)) as [->|Hk0]; [by left|]. right.
    assert (2 ^ (e1 - ez) ≤ 2 ^ 49) as Hp1 by (apply Z.pow_le_mono_r; unfold ez; lia).
    assert (0 < 2 ^ (e1 - ez)) by (apply Z.pow_pos_nonneg; unfold ez; lia).
    assert (0 < 2 ^ (e2 - ez)) by (apply Z.pow_pos_nonneg; unfold ez; lia).
    assert (k < 2 ^ 102) as Hkb by (unfold k; nia).
    destruct (leading_bit k 102 ltac:(lia) ltac:(lia)) as (D & HD & HkD).
    assert (ez + D ≤ 43) as HeD.
    { destruct (Z.le_gt_cases (ez + D) 43) as [|Hgt]; [done|]. exfalso.
      assert (2 ^ (e1 - ez + 53) ≤ 2 ^ (D - 1)) as Hpow by (apply Z.pow_le_mono_r; lia).
      rewrite Z.pow_add_r in Hpow by (unfold ez; lia). assert (k < 2 ^ (e1 - ez) * 2 ^ 53) by (unfold k; nia). lia. }
    eapply pos_in_weaken; [| |apply (normalize_full k ez D HkD)]; try lia; unfold ez; lia.
Qed.

(** ** The window of a time *)

Lemma time_range_pos x y : time (-60) (-11) x → time (-60) (-11) y → value x ≤ value y → pos_in (-113) (-9) (time_range x y).
Proof.
  intros Hx Hy Hv. unfold time_range. destruct (fsub_time y x Hy Hx Hv) as [->|Hp].
  - exists (2 ^ 52)%positive, (-52). by split_and!.
  - destruct Hp as (m & e & E & Hm & He). rewrite E. by exists m, e.
Qed.

Lemma window_size_pos r target : pos_in (-113) (-9) r → 0 < target < 2 ^ 10 → pos_in (-53) (-8) (window_size r target).
Proof.
  intros Hr Ht. unfold window_size. destruct (leading_bit target 10 ltac:(lia) ltac:(lia)) as (d & Hd & Hb).
  assert (pos_in (-52) (-43) (float_of_Z target)) as Hf.
  { rewrite (float_of_Z_exact target d) by lia. pose proof (scaled_mantissa target d ltac:(lia) ltac:(lia) Hb). do 2 eexists. split_and!; [done|lia|lia|lia|lia]. }
  destruct (fdiv_full r (float_of_Z target) _ _ _ _ Hr Hf) as (m & e & E & Hm & He); [lia..|]. rewrite E.
  change (flit 1 2) with (S754_finite false (2 ^ 52)%positive (-53)).
  destruct (flt _ _) eqn:Hlt; [exists (2 ^ 52)%positive, (-53); by split_and!|].
  exists m, e. split_and!; [done|lia|lia| |lia]. destruct (Z.le_gt_cases (-53) e) as [|Hgt]; [done|]. exfalso.
  unfold flt, SFltb, SFcompare in Hlt. rewrite (proj2 (Z.compare_lt_iff e (-53))) in Hlt by lia. done.
Qed.

(** The index is there, and below the number of windows. *)
Lemma window_index_ok minT t w n : time (-60) (-11) minT → time (-60) (-11) t → value minT ≤ value t → pos_in (-53) (-8) w → (0 < n)%nat →
  ∃ i, window_index minT w n t = Some i ∧ (i < n)%nat.
Proof.
  intros Hm Ht Hv Hw Hn. unfold window_index.
  assert (0 ≤ trunc (fdiv (fsub t minT) w)) as H0.
  { destruct (fsub_time t minT Ht Hm Hv) as [->|Hp]; [by destruct Hw as (m & e & -> & _)|].
    destruct (fdiv_full _ w _ _ _ _ Hp Hw) as (m & e & -> & Hme & _); [lia..|]. unfold trunc.
    destruct (Z.leb_spec 0 e); [apply Z.mul_nonneg_nonneg; lia|apply Z.div_pos; [lia|apply Z.pow_pos_nonneg; lia]]. }
  set (idx := trunc _) in *. clearbody idx. destruct (Z.leb_spec (Z.of_nat n) idx).
  - destruct (Z.ltb_spec (Z.of_nat n - 1) 0); [lia|]. eexists. split; [done|lia].
  - destruct (Z.ltb_spec idx 0); [lia|]. eexists. split; [done|lia].
Qed.

Lemma num_windows_pos r w : (0 < num_windows r w)%nat.
Proof. unfold num_windows. lia. Qed.

(** The windows of the times of some steps, the first of which is the least and
    the last the greatest. *)
Lemma step_windows lo hi target : 0 ≤ lo ≤ hi → hi < 2 ^ 48 → 0 < target < 2 ^ 10 →
  let r := time_range (vtime_of lo) (vtime_of hi) in
  let w := window_size r target in
  ∀ k, lo ≤ k ≤ hi → ∃ i, window_index (vtime_of lo) w (num_windows r w) (vtime_of k) = Some i ∧ (i < num_windows r w)%nat.
Proof.
  intros Hlo Hhi Ht r w k Hk. apply window_index_ok; [apply vtime_time; lia|apply vtime_time; lia|apply vtime_value_mono; lia| |apply num_windows_pos].
  apply window_size_pos; [|done]. apply time_range_pos; [apply vtime_time; lia|apply vtime_time; lia|apply vtime_value_mono; lia].
Qed.

(** Two evaluations in order fall into windows in order, and a range of a second
    is cut into two halves. *)
Example window_demo :
  let r := time_range (vtime_of 100) (vtime_of 300) in
  let w := window_size r 50 in
  num_windows r w = 2%nat ∧ map (window_index (vtime_of 100) w 2) (map vtime_of [100; 150; 200; 250; 300]) =
    [Some 0; Some 0; Some 1; Some 1; Some 1]%nat.
Proof. vm_compute. by split. Qed.
