(* ===== verification/Triage.v ===== *)
(** * Triage and reproduction bundles
    ([internal/report/triage.go], [artifact.go] and the fault statistics of [report.go])

    The violations of a run are reduced to one entry for each property and
    message, sorted, attributed to fault kinds, and saved as bundles that a replay
    can load.  A file system is a map from paths to bytes, with a class that says
    which calls succeed; the JSON codec of the manifest is a class. *)
From stdpp Require Import strings pretty sorting.
From S2P Require Import Prelude Strings Word Float GoLib Json SnapshotTree SnapshotTreeInv Fault Explorer.
Local Open Scope Z_scope.

(** ** Data *)

Definition manifestVersion : Z := 2.

Record Artifact := mkArtifact {
  a_ManifestVersion : Z; a_Property : string; a_Message : string; a_SnapshotID : Z; a_HypervisorID : Z; a_Seed : Z; a_Step : Z;
  a_BurstInsns : Z; a_ReplayFile : string; a_FaultSchedule : string; a_PathIDs : list Z; a_PathBranchIndices : list Z;
  a_Backend : string; a_ConcurrentCmds : Z; a_RootSnapshot : string }.
#[export] Instance Artifact_eta : Eta Artifact := mkEta _ (λ r,
  mkArtifact (a_ManifestVersion r) (a_Property r) (a_Message r) (a_SnapshotID r) (a_HypervisorID r) (a_Seed r) (a_Step r)
    (a_BurstInsns r) (a_ReplayFile r) (a_FaultSchedule r) (a_PathIDs r) (a_PathBranchIndices r) (a_Backend r) (a_ConcurrentCmds r)
    (a_RootSnapshot r)).

Record ViolationEntry := mkEntry {
  e_Property : string; e_Message : string; e_SnapshotID : Z; e_Seed : Z; e_Step : Z; e_Artifact : option Artifact;
  e_Details : list (string * any); e_PathIDs : list Z; e_PathDepth : Z; e_ActiveFaults : list string; e_ArtifactDir : string }.
#[export] Instance ViolationEntry_eta : Eta ViolationEntry := mkEta _ (λ r,
  mkEntry (e_Property r) (e_Message r) (e_SnapshotID r) (e_Seed r) (e_Step r) (e_Artifact r) (e_Details r) (e_PathIDs r)
    (e_PathDepth r) (e_ActiveFaults r) (e_ArtifactDir r)).

(** ** Triage *)

(** The property, a zero byte, the message. *)
Definition key_of (property message : string) : string := property +:+ String (Ascii.ascii_of_nat 0) message.
Definition dedup_key (v : Violation) : string := key_of (vProperty v) (vMessage v).
Definition entry_key (e : ViolationEntry) : string := key_of (e_Property e) (e_Message e).

Definition keep_lowest (best : gmap string Violation) (v : Violation) : gmap string Violation :=
  match best !! dedup_key v with
  | Some existing => if vStep v <? vStep existing then <[dedup_key v := v]> best else best
  | None => <[dedup_key v := v]> best
  end.

Definition best_of (violations : list Violation) : gmap string Violation := foldl keep_lowest ∅ violations.

(** The values of the map, in one of the orders that its iteration may give. *)
Definition deduplicate (violations : list Violation) : list Violation := map snd (map_to_list (best_of violations)).

(** The eight kinds of [faultKindMaskToNames]. *)
Definition named_kinds : list (Z * Kind) :=
  [(Z.shiftl 1 0, KindDrop); (Z.shiftl 1 1, KindDelay); (Z.shiftl 1 2, KindPartition); (Z.shiftl 1 3, KindThrottle);
   (Z.shiftl 1 4, KindHang); (Z.shiftl 1 5, KindTerminate); (Z.shiftl 1 6, KindClockJitter); (Z.shiftl 1 7, KindThreadPause)].

Definition faultKindMaskToNames (mask : Z) : list string :=
  if mask =? 0 then [] else (filter (λ p, Z.land mask p.1 ≠ 0) named_kinds).*2.

Definition entry_of (v : Violation) : ViolationEntry :=
  mkEntry (vProperty v) (vMessage v) (vSnapshotID v) (vSeed v) (vStep v)
    (Some (mkArtifact manifestVersion (vProperty v) (vMessage v) (vSnapshotID v) (vHypervisorID v) (vSeed v) (vStep v) (vBurstInsns v)
             "" "" [] [] "" (vConcurrentCmds v) ""))
    (vDetails v) (vPath v) (Z.of_nat (length (vPath v))) (faultKindMaskToNames (vFaultKindMask v)) "".

Definition entry_before (a b : ViolationEntry) : bool :=
  (e_Step a <? e_Step b) || ((e_Step a =? e_Step b) && String.ltb (e_Property a) (e_Property b)).

(** What the sort makes of the deduplicated violations in the order [l]. *)
Definition triage_order (l : list Violation) : list ViolationEntry := sort_by entry_before (map entry_of l).

Definition Triage (violations : list Violation) : list ViolationEntry := triage_order (deduplicate violations).

(** ** Fault statistics *)

Record FaultStats := mkFaultStats { ViolationsByKind : gmap string Z; TotalWithFaults : Z; TotalWithoutFaults : Z }.

Definition count_name (m : gmap string Z) (name : string) : gmap string Z := <[name := default 0 (m !! name) + 1]> m.

Definition count_violation (stats : FaultStats) (v : Violation) : FaultStats :=
  if vFaultKindMask v =? 0 then mkFaultStats (ViolationsByKind stats) (TotalWithFaults stats) (TotalWithoutFaults stats + 1)
  else mkFaultStats (foldl count_name (ViolationsByKind stats) (faultKindMaskToNames (vFaultKindMask v)))
         (TotalWithFaults stats + 1) (TotalWithoutFaults stats).

Definition buildFaultStats (violations : list Violation) : FaultStats := foldl count_violation (mkFaultStats ∅ 0 0) violations.

(** ** Branch indices *)

(** The index of a child among the children of its parent, or -1. *)
Definition branch_index (t : Tree) (parent child : Z) : Z :=
  match Children t parent with
  | Err _ => -1
  | Ok siblings => match find_index (Z.eqb child) siblings with Some j => Z.of_nat j | None => -1 end
  end.

Fixpoint branch_indices (t : Tree) (parent : Z) (path : list Z) : list Z :=
  match path with
  | [] => []
  | child :: path => branch_index t parent child :: branch_indices t child path
  end.

Definition populate (t : Tree) (v : ViolationEntry) : ViolationEntry :=
  match e_Artifact v, e_PathIDs v with
  | Some a, root :: path =>
      v <| e_Artifact := Some (a <| a_PathIDs := root :: path |> <| a_PathBranchIndices := 0 :: branch_indices t root path |>) |>
  | _, _ => v
  end.

Definition PopulateBranchIndices (t : Tree) (violations : list ViolationEntry) : list ViolationEntry := map (populate t) violations.

(** ** Bundles *)

Definition is_safe (c : Ascii.ascii) : bool :=
  let n := code c in
  ((97 <=? n) && (n <=? 122)) || ((65 <=? n) && (n <=? 90)) || ((48 <=? n) && (n <=? 57)) || (n =? 45) || (n =? 95).

Definition sanitize (s : string) : string :=
  String.string_of_list_ascii (take 64 (map (λ c, if is_safe c then c else chr 95) (String.list_ascii_of_string s))).

Definition SanitizeProperty : string → string := sanitize.

(** A line of the script; double quotes are written as back quotes here. *)
Definition quoted (l : string) : string :=
  String.string_of_list_ascii (map (λ c, if code c =? 96 then chr 34 else c) (String.list_ascii_of_string l)).

Definition newline : string := String (chr 10) "".

Definition buildReproduceScript (a : Artifact) : string :=
  let backend := if bool_decide (a_Backend a = "") then "firecracker" else a_Backend a in
  "#!/bin/sh" +:+ newline +:+
  "# Reproduce violation: " +:+ a_Property a +:+ newline +:+
  "# " +:+ a_Message a +:+ newline +:+
  "#" +:+ newline +:+
  "# Usage:" +:+ newline +:+
  "#   ./reproduce.sh [path/to/openthesis.json]" +:+ newline +:+
  "#" +:+ newline +:+
  "# If no config path is given, the script looks for OPENTHESIS_CONFIG" +:+ newline +:+
  "# in the environment, then falls back to ./openthesis.json." +:+ newline +:+
  "set -eu" +:+ newline +:+ newline +:+
  quoted "ARTIFACT_DIR=`$(cd `$(dirname `$0`)` && pwd)`" +:+ newline +:+
  quoted "CONFIG=`${1:-${OPENTHESIS_CONFIG:-openthesis.json}}`" +:+ newline +:+ newline +:+
  quoted "if [ ! -f `$CONFIG` ]; then" +:+ newline +:+
  quoted "  echo `error: config file not found: $CONFIG` >&2" +:+ newline +:+
  quoted "  echo `  pass the openthesis.json path as the first argument` >&2" +:+ newline +:+
  "  exit 2" +:+ newline +:+
  "fi" +:+ newline +:+ newline +:+
  "exec openthesis replay \" +:+ newline +:+
  "  --backend " +:+ backend +:+ " \" +:+ newline +:+
  quoted "  --config `$CONFIG` \" +:+ newline +:+
  quoted "  --artifact `$ARTIFACT_DIR` \" +:+ newline +:+
  "  --verify" +:+ newline.

(** The calls on the file system that succeed, and the JSON codec. *)
Class Disk := { can_mkdir : string → bool; can_write : string → bool; can_read : string → bool }.
Class Codec := { marshal_manifest : Artifact → option bytes; unmarshal_manifest : bytes → option Artifact;
                 marshal_meta : ViolationEntry → option bytes }.

Abbreviation disk := (gmap string bytes).

Inductive BundleError :=
| MkdirFailed | WriteFailed (file : string) | MarshalFailed | ReadFailed | ParseFailed.

Section bundles.
Context `{Disk, Codec}.

Definition ReadFile (d : disk) (path : string) : option bytes := if can_read path then d !! path else None.

Definition WriteFile (d : disk) (dir file : string) (data : bytes) : result BundleError disk :=
  let path := Join dir file in
  if can_write path then Ok (<[path := data]> d) else Err (WriteFailed file).

(** The schedule in the bundle: the artifact's own, or the one given. *)
Definition resolved_schedule (a : Artifact) (faultSchedulePath : string) : string :=
  if bool_decide (a_FaultSchedule a ≠ ""%string) && bool_decide (a_FaultSchedule a ≠ "fault-schedule.json"%string)
  then a_FaultSchedule a else faultSchedulePath.

Definition copy_schedule (d : disk) (dir : string) (a : Artifact) (faultSchedulePath : string) : result BundleError (disk * Artifact) :=
  let path := resolved_schedule a faultSchedulePath in
  if bool_decide (path = ""%string) then Ok (d, a)
  else
    match ReadFile d path with
    | None => Ok (d, a)
    | Some data =>
        match WriteFile d dir "fault-schedule.json" data with
        | Err e => Err e
        | Ok d => Ok (d, a <| a_FaultSchedule := "fault-schedule.json"%string |>)
        end
    end.

(** The artifact of an entry, with the fields that the bundle sets. *)
Definition bundled (v : ViolationEntry) (a : Artifact) : Artifact :=
  let a := a <| a_ManifestVersion := manifestVersion |> <| a_Property := e_Property v |> <| a_Message := e_Message v |> in
  if negb (bool_decide (e_PathIDs v = [])) && bool_decide (a_PathIDs a = []) then a <| a_PathIDs := e_PathIDs v |> else a.

(** The disk, and the entry, whose artifact is written through the pointer. *)
Definition SaveBundle (d : disk) (dir : string) (v : ViolationEntry) (faultSchedulePath : string) :
    result BundleError (disk * ViolationEntry) :=
  if negb (can_mkdir dir) then Err MkdirFailed
  else
    match e_Artifact v with
    | None => Ok (d, v)
    | Some a =>
        let! (d, a) := copy_schedule d dir (bundled v a) faultSchedulePath in
        match marshal_manifest a with
        | None => Err MarshalFailed
        | Some data =>
            let! d := WriteFile d dir "manifest.json" data in
            let! d := WriteFile d dir "artifact.json" data in
            match marshal_meta v with
            | None => Err MarshalFailed
            | Some meta =>
                let! d := WriteFile d dir "violation.json" meta in
                let! d := WriteFile d dir "reproduce.sh" (String.list_ascii_of_string (buildReproduceScript a)) in
                Ok (d, v <| e_Artifact := Some a |>)
            end
        end
    end%ot.

Definition LoadBundle (d : disk) (dir : string) : result BundleError Artifact :=
  match (match ReadFile d (Join dir "manifest.json") with Some data => Some data | None => ReadFile d (Join dir "artifact.json") end) with
  | None => Err ReadFailed
  | Some data =>
      match unmarshal_manifest data with
      | None => Err ParseFailed
      | Some a =>
          let a := if bool_decide (a_FaultSchedule a ≠ ""%string) && negb (IsAbs (a_FaultSchedule a))
                   then a <| a_FaultSchedule := Join dir (a_FaultSchedule a) |> else a in
          let candidate := Join dir "fault-schedule.json" in
          let a := if bool_decide (a_FaultSchedule a = ""%string) && bool_decide (is_Some (d !! candidate))
                   then a <| a_FaultSchedule := candidate |> else a in
          let a := if bool_decide (a_RootSnapshot a ≠ ""%string) && negb (IsAbs (a_RootSnapshot a))
                   then a <| a_RootSnapshot := Join dir (a_RootSnapshot a) |> else a in
          Ok a
      end
  end.

(** [violation-%03d-%s]. *)
Definition bundle_name (i : nat) (property : string) : string :=
  let d := pretty i in
  "violation-" +:+ String.concat "" (replicate (3 - String.length d) "0"%string) +:+ d +:+ "-" +:+ sanitize property.

Fixpoint save_bundles (d : disk) (baseDir : string) (i : nat) (violations : list ViolationEntry) (faultSchedulePath : string) :
    result BundleError (disk * list ViolationEntry) :=
  match violations with
  | [] => Ok (d, [])
  | v :: vs =>
      let! (d, v) := match e_Artifact v with
                      | None => Ok (d, v)
                      | Some _ => SaveBundle d (Join baseDir (bundle_name i (e_Property v))) v faultSchedulePath
                      end in
      let! (d, vs) := save_bundles d baseDir (S i) vs faultSchedulePath in
      Ok (d, v :: vs)
  end%ot.

Definition SaveAllBundles (d : disk) (baseDir : string) (violations : list ViolationEntry) (faultSchedulePath : string) :
    result BundleError (disk * list ViolationEntry) :=
  if can_mkdir baseDir then save_bundles d baseDir 0 violations faultSchedulePath else Err MkdirFailed.
End bundles.

(** ** Lemmas *)

(** [v] is one of the violations of the key with the fewest steps. *)
Definition lowest (vs : list Violation) (key : string) (v : Violation) : Prop :=
  v ∈ vs ∧ dedup_key v = key ∧ ∀ v', v' ∈ vs → dedup_key v' = key → vStep v ≤ vStep v'.

Lemma best_of_spec vs key :
  match best_of vs !! key with
  | Some v => lowest vs key v
  | None => ∀ v, v ∈ vs → dedup_key v ≠ key
  end.
Proof.
  unfold best_of. induction vs as [|x vs IH] using rev_ind; [cbn [foldl]; rewrite lookup_empty; by intros v ?%elem_of_nil|].
  rewrite foldl_snoc. set (best := foldl keep_lowest ∅ vs) in *. unfold keep_lowest.
  destruct (decide (dedup_key x = key)) as [<-|Hk].
  - destruct (best !! dedup_key x) as [y|] eqn:E; [destruct (Z.ltb_spec (vStep x) (vStep y)) as [Hlt|Hge]|].
    + rewrite lookup_insert_eq. destruct IH as (_ & _ & Hmin). split_and!; [set_solver|done|].
      intros v' [Hv'| ->%list_elem_of_singleton]%elem_of_app Hk'; [specialize (Hmin v' Hv' Hk'); lia|lia].
    + rewrite E. destruct IH as (Hin & Hky & Hmin). split_and!; [set_solver|done|].
      intros v' [Hv'| ->%list_elem_of_singleton]%elem_of_app Hk'; [by apply Hmin|lia].
    + rewrite lookup_insert_eq. split_and!; [set_solver|done|].
      intros v' [Hv'| ->%list_elem_of_singleton]%elem_of_app Hk'; [by destruct (IH v' Hv')|lia].
  - assert ((match best !! dedup_key x with
      | Some existing => if vStep x <? vStep existing then <[dedup_key x := x]> best else best
      | None => <[dedup_key x := x]> best end) !! key = best !! key) as ->.
    { repeat case_match; by rewrite ?lookup_insert_ne. }
    destruct (best !! key) as [y|]; [destruct IH as (Hin & Hky & Hmin); split_and!; [set_solver|done|]|];
      intros v' [Hv'| ->%list_elem_of_singleton]%elem_of_app; [eauto|done|eauto|done].
Qed.

Lemma deduplicate_spec vs :
  NoDup (dedup_key <$> deduplicate vs) ∧
  (∀ v, v ∈ deduplicate vs → lowest vs (dedup_key v) v) ∧
  ∀ v, v ∈ vs → ∃ v', v' ∈ deduplicate vs ∧ dedup_key v' = dedup_key v.
Proof.
  assert (∀ k v, best_of vs !! k = Some v → lowest vs k v) as Hlow by (intros k v E; pose proof (best_of_spec vs k) as H; by rewrite E in H).
  assert (dedup_key <$> deduplicate vs = (map_to_list (best_of vs)).*1) as Hkeys.
  { unfold deduplicate. rewrite <- list_fmap_compose. apply list_fmap_ext. intros i [k v] Hi. cbn.
    by apply list_elem_of_lookup_2, elem_of_map_to_list, Hlow in Hi as (_ & ? & _). }
  split_and!.
  - rewrite Hkeys. apply NoDup_fst_map_to_list.
  - intros v ([k v'] & -> & Hv)%list_elem_of_fmap. apply elem_of_map_to_list, Hlow in Hv. cbn. by destruct Hv as (? & <- & ?).
  - intros v Hv. pose proof (best_of_spec vs (dedup_key v)) as H. destruct (best_of vs !! dedup_key v) as [v'|] eqn:E; [|by destruct (H v Hv)].
    exists v'. split; [|by destruct H as (_ & ? & _)]. apply list_elem_of_fmap. exists (dedup_key v, v'). by rewrite elem_of_map_to_list.
Qed.

(** The entries in order: by step, then by property. *)
Definition rank (e : ViolationEntry) : Z * string := (e_Step e, e_Property e).

Lemma entry_before_asym a b : entry_before a b = true → entry_before b a = false.
Proof.
  unfold entry_before. intros [H|[H1 H2]%andb_true_iff]%orb_true_iff; apply orb_false_iff; rewrite andb_false_iff.
  - split; [lia|left; lia].
  - split; [lia|right; by apply string_ltb_asym].
Qed.

Lemma entry_before_negtrans a b c : entry_before b a = false → entry_before c b = false → entry_before c a = false.
Proof.
  unfold entry_before. intros [H1 H2]%orb_false_iff [H3 H4]%orb_false_iff. apply orb_false_iff. split; [lia|].
  destruct (Z.eqb_spec (e_Step c) (e_Step a)) as [E|]; [|done]. cbn.
  destruct (Z.eqb_spec (e_Step b) (e_Step a)); [|lia]. destruct (Z.eqb_spec (e_Step c) (e_Step b)); [|lia]. cbn in *.
  eapply string_ltb_negtrans; [exact H2|exact H4].
Qed.

Lemma entry_before_tie a b : entry_before a b = false → entry_before b a = false → rank a = rank b.
Proof.
  unfold entry_before. intros [H1 H2]%orb_false_iff [H3 H4]%orb_false_iff. assert (e_Step a = e_Step b) as E by lia.
  rewrite E, Z.eqb_refl in *. cbn in *. unfold rank. rewrite E. f_equal. by apply string_ltb_total.
Qed.

Lemma triage_order_sorted l : StronglySorted (λ a b, entry_before b a = false) (triage_order l).
Proof.
  apply (sort_by_sorted entry_before (λ _, True)); [apply entry_before_asym| |by apply Forall_true].
  intros a b c _ _ _. apply entry_before_negtrans.
Qed.

Lemma NoDup_fmap_tie {A B} (f : A → B) l x y : NoDup (f <$> l) → x ∈ l → y ∈ l → f x = f y → x = y.
Proof.
  intros Hnd [i Hi]%list_elem_of_lookup [j Hj]%list_elem_of_lookup E.
  assert (i = j) as -> by (eapply (NoDup_lookup (f <$> l)); [done|by rewrite list_lookup_fmap, Hi|by rewrite list_lookup_fmap, Hj, E]).
  congruence.
Qed.

Lemma triage_Permutation vs : Triage vs ≡ₚ map entry_of (deduplicate vs).
Proof. apply sort_by_Permutation. Qed.

Lemma triage_entry vs e : e ∈ Triage vs → ∃ v, e = entry_of v ∧ lowest vs (entry_key e) v.
Proof.
  rewrite triage_Permutation. intros (v & -> & Hv)%list_elem_of_fmap. exists v. split; [done|]. by apply (deduplicate_spec vs).
Qed.

Lemma triage_all vs v : v ∈ vs → ∃ e, e ∈ Triage vs ∧ entry_key e = dedup_key v ∧ e_Step e ≤ vStep v.
Proof.
  intros Hv. destruct (deduplicate_spec vs) as (_ & Hlow & Hall). destruct (Hall v Hv) as (v' & Hv' & E). exists (entry_of v').
  split_and!; [rewrite triage_Permutation; by apply list_elem_of_fmap_2|done|]. destruct (Hlow v' Hv') as (_ & _ & Hmin). by apply Hmin.
Qed.

(** C16: The triage of violations: one entry for every property and message that
    was violated, made from a violation with the fewest steps of that key, in the
    order of steps, then properties.  The order is the same whatever the order in
    which Go iterates over the map, as long as no two entries have the same step
    and property. *)
Theorem Triage_exact (vs : list Violation) :
  let es := Triage vs in
  NoDup (entry_key <$> es) ∧
  (∀ e, e ∈ es → ∃ v, e = entry_of v ∧ lowest vs (entry_key e) v) ∧
  (∀ v, v ∈ vs → ∃ e, e ∈ es ∧ entry_key e = dedup_key v ∧ e_Step e ≤ vStep v) ∧
  StronglySorted (λ a b, entry_before b a = false) es ∧
  ∀ l, l ≡ₚ deduplicate vs → NoDup (rank <$> es) → triage_order l = es.
Proof.
  intros es. split_and!.
  - unfold es. rewrite triage_Permutation, <- list_fmap_compose. apply (deduplicate_spec vs).
  - intros e. apply triage_entry.
  - intros v. apply triage_all.
  - apply triage_order_sorted.
  - intros l Hl Hr. assert (triage_order l ≡ₚ es) as Hp by (unfold triage_order, es; rewrite sort_by_Permutation, triage_Permutation; by rewrite Hl).
    apply (StronglySorted_unique_strong (λ a b, entry_before b a = false)); [|apply triage_order_sorted..|done].
    intros a b Ha Hb H1 H2. rewrite Hp in Ha. by apply (NoDup_fmap_tie rank es); [| | |apply entry_before_tie].
Qed.

(** *** Fault statistics *)

Definition has_kind (p : Z * Kind) (v : Violation) : bool := negb (Z.land (vFaultKindMask v) p.1 =? 0).

Lemma count_names m names k : NoDup names →
  default 0 (foldl count_name m names !! k) = default 0 (m !! k) + (if bool_decide (k ∈ names) then 1 else 0).
Proof.
  intros Hnd. revert m. induction Hnd as [|n names Hn _ IH]; intros m; cbn [foldl].
  { rewrite bool_decide_eq_false_2 by apply not_elem_of_nil. lia. }
  rewrite IH. unfold count_name. destruct (decide (k = n)) as [->|Hkn].
  - rewrite lookup_insert_eq. cbn. rewrite (bool_decide_eq_false_2 _ Hn), (bool_decide_eq_true_2 (n ∈ n :: names)) by by left. lia.
  - rewrite lookup_insert_ne by done. f_equal. by rewrite (bool_decide_ext (k ∈ n :: names) (k ∈ names)) by set_solver.
Qed.

Lemma NoDup_fmap_filter {A B} (f : A → B) (P : A → Prop) `{∀ x, Decision (P x)} l : NoDup (f <$> l) → NoDup (f <$> filter P l).
Proof.
  induction l as [|x l IH]; [done|]. rewrite fmap_cons, filter_cons. intros [Hx Hnd]%NoDup_cons. case_decide; [|by apply IH].
  rewrite fmap_cons. constructor; [|by apply IH]. intros (y & E & [_ Hy]%list_elem_of_filter)%list_elem_of_fmap.
  apply Hx. rewrite E. by apply list_elem_of_fmap_2.
Qed.

Lemma names_NoDup mask : NoDup (faultKindMaskToNames mask).
Proof.
  unfold faultKindMaskToNames. destruct (mask =? 0); [constructor|].
  apply NoDup_fmap_filter. by apply (bool_decide_unpack _), I.
Qed.

Lemma elem_of_fmap_filter {A B} (f : A → B) (P : A → Prop) `{∀ x, Decision (P x)} l x :
  NoDup (f <$> l) → x ∈ l → f x ∈ f <$> filter P l ↔ P x.
Proof.
  intros Hnd Hx. rewrite list_elem_of_fmap. split; [|intros Hp; exists x; by rewrite list_elem_of_filter].
  intros (y & E & [Hy Hyl]%list_elem_of_filter). by rewrite (NoDup_fmap_tie f l x y Hnd Hx Hyl E).
Qed.

Lemma elem_of_names p mask : p ∈ named_kinds → bool_decide (p.2 ∈ faultKindMaskToNames mask) = negb (Z.land mask p.1 =? 0).
Proof.
  intros Hp. unfold faultKindMaskToNames. destruct (Z.eqb_spec mask 0) as [->|Hm]; [by rewrite Z.land_0_l|].
  assert (NoDup (snd <$> named_kinds)) as Hnd by by apply (bool_decide_unpack _), I.
  rewrite (bool_decide_ext _ _ (elem_of_fmap_filter snd (λ q, Z.land mask q.1 ≠ 0) named_kinds p Hnd Hp)).
  destruct (Z.eqb_spec (Z.land mask p.1) 0); [by apply bool_decide_eq_false_2; intros []|by apply bool_decide_eq_true_2].
Qed.

(** The fault statistics count every violation once, with or without faults,
    and under each of the eight kinds that have a name here the violations whose
    mask has the kind's bit. *)
Theorem buildFaultStats_exact (vs : list Violation) :
  let stats := buildFaultStats vs in
  TotalWithoutFaults stats = Z.of_nat (count_if (λ v, vFaultKindMask v =? 0) vs) ∧
  TotalWithFaults stats + TotalWithoutFaults stats = Z.of_nat (length vs) ∧
  ∀ p, p ∈ named_kinds → default 0 (ViolationsByKind stats !! p.2) = Z.of_nat (count_if (has_kind p) vs).
Proof.
  intros stats. unfold stats, buildFaultStats. induction vs as [|v vs IH] using rev_ind; [cbn; split_and!; [done|done|]; intros p _; by rewrite lookup_empty|].
  rewrite foldl_snoc. destruct IH as (H1 & H2 & H3). set (s := foldl _ _ vs) in *. unfold count_violation. rewrite length_app. cbn [length].
  destruct (Z.eqb_spec (vFaultKindMask v) 0) as [E|E]; cbn [TotalWithoutFaults TotalWithFaults ViolationsByKind]; rewrite !count_if_app; cbn [count_if].
  - rewrite E. cbn [Z.eqb]. split_and!; [lia|lia|]. intros p Hp. rewrite (H3 p Hp), count_if_app. cbn [count_if]. unfold has_kind at 3. rewrite E, Z.land_0_l. cbn. lia.
  - rewrite (proj2 (Z.eqb_neq _ _) E). split_and!; [lia|lia|]. intros p Hp.
    rewrite count_names by apply names_NoDup. rewrite (H3 p Hp), (elem_of_names p) by done. rewrite count_if_app. cbn [count_if]. unfold has_kind at 3.
    by destruct (negb _); lia.
Qed.

(** Half of the kinds have no name: a violation under a full disk is counted as
    one with faults, under no kind, and shown without active faults. *)
Example names_miss_kinds :
  MaskToKinds (KindToMask KindDiskFull) = [KindDiskFull] ∧ faultKindMaskToNames (KindToMask KindDiskFull) = [].
Proof. split; reflexivity. Qed.

(** *** Branch indices *)

(** Going down the tree from a node by the indices of children. *)
Fixpoint walk_branches (t : Tree) (cur : Z) (indices : list Z) : option (list Z) :=
  match indices with
  | [] => Some []
  | i :: indices =>
      match Children t cur with
      | Ok siblings => if i <? 0 then None else child ← siblings !! Z.to_nat i; cons child <$> walk_branches t child indices
      | Err _ => None
      end
  end.

(** Each node of the list is a child of the one before. *)
Fixpoint descends (t : Tree) (parent : Z) (path : list Z) : Prop :=
  match path with
  | [] => True
  | child :: path => (∃ s, snapshots t !! parent = Some s ∧ child ∈ s_Children s) ∧ descends t child path
  end.

Lemma descends_snoc t path : ∀ parent x s, descends t parent path →
  snapshots t !! default parent (last path) = Some s → x ∈ s_Children s → descends t parent (path ++ [x]).
Proof.
  induction path as [|y path IH]; intros parent x s; cbn [descends app].
  - intros _ Hs Hx. split; [by exists s|done].
  - intros [Hy Hd] Hs Hx. split; [done|]. apply (IH y x s); [done| |done]. rewrite last_cons in Hs. by destruct (last path).
Qed.

Lemma path_loop_descends t fuel : wf t → ∀ id s l, snapshots t !! id = Some s → path_loop fuel (snapshots t) id = Some l →
  ∃ rest, reverse l = RootID :: rest ∧ descends t RootID rest ∧ last (RootID :: rest) = Some id.
Proof.
  intros Hwf. induction fuel as [|fuel IH]; intros id s l Hs; [done|]. cbn [path_loop]. rewrite Hs.
  destruct (Z.eqb_spec id RootID) as [->|Hne]; [intros [= <-]; by exists []|].
  destruct (wm_node _ (wf_tree _ Hwf) _ _ Hs) as [Hi _ Hpar _ _]. destruct (Hpar Hne) as (Hlt & p & Hp & _ & Hch).
  destruct (Z.eqb_spec (s_ParentID s) id); [lia|]. destruct (path_loop fuel (snapshots t) (s_ParentID s)) as [l'|] eqn:E; [|done].
  intros [= <-]. destruct (IH _ _ _ Hp E) as (rest & Er & Hd & Hl). exists (rest ++ [id]). rewrite reverse_cons, Er. split_and!; [done| |].
  - eapply descends_snoc; [done| |exact Hch]. rewrite last_cons in Hl. destruct (last rest); cbn; [by injection Hl as ->|].
    injection Hl as Hl. by rewrite Hl.
  - change (RootID :: rest ++ [id]) with ((RootID :: rest) ++ [id]). apply last_snoc.
Qed.

Lemma branch_index_walk t parent s child : snapshots t !! parent = Some s → child ∈ s_Children s →
  ∃ j, branch_index t parent child = Z.of_nat j ∧ Children t parent = Ok (s_Children s) ∧ s_Children s !! j = Some child.
Proof.
  intros Hs Hc. unfold branch_index, Children. rewrite Hs. destruct (find_index (Z.eqb child) (s_Children s)) as [j|] eqn:E.
  - exists j. apply find_index_Some in E as (x & Hx & Ex & _). apply Z.eqb_eq in Ex as <-. done.
  - exfalso. pose proof (proj1 (find_index_None _ _) E child Hc) as H. by rewrite Z.eqb_refl in H.
Qed.

Lemma walk_indices t path : ∀ parent, descends t parent path → walk_branches t parent (branch_indices t parent path) = Some path.
Proof.
  induction path as [|child path IH]; intros parent; cbn [descends branch_indices walk_branches]; [done|].
  intros [(s & Hs & Hc) Hd]. destruct (branch_index_walk t parent s child Hs Hc) as (j & -> & -> & Hj).
  destruct (Z.ltb_spec (Z.of_nat j) 0); [lia|]. rewrite Nat2Z.id, Hj. cbn [mbind option_bind]. by rewrite IH.
Qed.

(** C17: The branch indices of a violation lead back to its snapshot: on a valid
    tree, for the path from the root to a node, the artifact gets the path and one
    index for each of its nodes, and going down from the root by those after the
    first visits exactly the path, whatever identifiers the nodes have. *)
Theorem PopulateBranchIndices_walks (t : Tree) (Hwf : wf t) (v : ViolationEntry) (a : Artifact) (id : Z)
    (Hid : is_Some (snapshots t !! id)) (Ha : e_Artifact v = Some a) (Hpath : PathToRoot t id = Some (e_PathIDs v)) :
  ∃ root path indices, e_PathIDs v = root :: path ∧ last (e_PathIDs v) = Some id ∧
    e_Artifact <$> PopulateBranchIndices t [v] = [Some (a <| a_PathIDs := root :: path |> <| a_PathBranchIndices := 0 :: indices |>)] ∧
    length indices = length path ∧ walk_branches t root indices = Some path.
Proof.
  destruct Hid as [s Hs]. unfold PathToRoot in Hpath. apply fmap_Some_1 in Hpath as (l & Hl & Hp).
  destruct (path_loop_descends t _ Hwf id s l Hs Hl) as (rest & Er & Hd & Hlast). rewrite Er in Hp.
  exists RootID, rest, (branch_indices t RootID rest). split_and!; [done|by rewrite Hp| | |by apply walk_indices].
  - cbn. unfold populate. by rewrite Ha, Hp.
  - clear. generalize RootID. induction rest as [|x rest IH]; intros r; [done|]. cbn. by rewrite IH.
Qed.

(** On a tree that has not the nodes of the path, as the one of the orchestrator
    after a parallel exploration, every index but the first is -1. *)
Lemma indices_of_other_tree t path : ∀ parent, (∀ x, x ∈ parent :: path → is_Some (snapshots t !! x) → Children t x = Ok []) →
  branch_indices t parent path = replicate (length path) (-1).
Proof.
  induction path as [|x path IH]; intros parent H; cbn [branch_indices length replicate]; [done|]. f_equal.
  - unfold branch_index. pose proof (H parent ltac:(by left)) as Hp. unfold Children in *. destruct (snapshots t !! parent) as [s|]; [|done].
    specialize (Hp ltac:(eauto)). injection Hp as ->. done.
  - apply IH. intros y Hy. apply H. by right.
Qed.

Lemma parallel_branch_indices path : branch_indices NewTree RootID path = replicate (length path) (-1).
Proof.
  apply indices_of_other_tree. intros x _ [s Hs]. cbn in Hs. apply lookup_singleton_Some in Hs as [<- <-]. done.
Qed.

(** *** Bundles *)

(** A file name: not empty, no slash, not a dot or two. *)
Definition simple (name : string) : bool :=
  let l := String.list_ascii_of_string name in
  negb (bool_decide (l = [])) && negb (bool_decide (l = dot)) && negb (bool_decide (l = dotdot)) && forallb (λ c, negb (Ascii.eqb c slash)) l.

Lemma split_slash_none l : forallb (λ c, negb (Ascii.eqb c slash)) l = true → split_slash l = [l].
Proof. induction l as [|c l IH]; cbn; [done|]. intros [Hc%negb_true_iff Hl]%andb_true_iff. by rewrite Hc, IH. Qed.

Lemma split_slash_app l1 l2 : split_slash (l1 ++ slash :: l2) = split_slash l1 ++ split_slash l2.
Proof.
  induction l1 as [|c l1 IH]; cbn [split_slash app]; [by rewrite Ascii.eqb_refl|]. rewrite IH. destruct (Ascii.eqb c slash); [done|].
  destruct (split_slash l1) as [|w ws] eqn:E; [|done]. destruct l1 as [|c1 l1]; [done|]. cbn in E. repeat case_match; done.
Qed.

Lemma list_ascii_app s1 s2 : String.list_ascii_of_string (s1 +:+ s2) = String.list_ascii_of_string s1 ++ String.list_ascii_of_string s2.
Proof. induction s1 as [|c s1 IH]; [done|]. exact (f_equal (cons c) IH). Qed.

Lemma string_of_list_app l1 l2 : String.string_of_list_ascii (l1 ++ l2) = String.string_of_list_ascii l1 +:+ String.string_of_list_ascii l2.
Proof. induction l1 as [|c l1 IH]; [done|]. exact (f_equal (String c) IH). Qed.

Lemma join_slash_snoc ws w : join_slash (ws ++ [w]) = match ws with [] => w | _ => join_slash ws ++ slash :: w end.
Proof. destruct ws as [|w0 ws]; cbn; [done|]. by rewrite foldl_app. Qed.

(** Joining a file name onto a directory appends it to what the directory is. *)
Lemma Join_simple dir : ∃ p, ∀ name, simple name = true → Join dir name = p +:+ name.
Proof.
  set (st := foldl (clean_step (IsAbs (dir +:+ "/"))) [] (split_slash (String.list_ascii_of_string dir))).
  exists (if bool_decide (dir = ""%string) then ""%string else String.string_of_list_ascii
    (match rev st with [] => if IsAbs (dir +:+ "/") then [slash] else [] | ws => (if IsAbs (dir +:+ "/") then [slash] else []) ++ join_slash ws ++ [slash] end)).
  intros name [[[H1%negb_true_iff H2%negb_true_iff]%andb_true_iff H3%negb_true_iff]%andb_true_iff H4]%andb_true_iff.
  set (l := String.list_ascii_of_string name) in *. assert (String.string_of_list_ascii l = name) as El by apply String.string_of_list_ascii_of_string.
  apply bool_decide_eq_false in H1, H2, H3.
  assert (∀ r s, clean_step r s l = l :: s) as Hstep by (intros; unfold clean_step; by rewrite !bool_decide_eq_false_2).
  assert (name ≠ ""%string) as Hne by (intros ->; by apply H1).
  unfold Join, Clean. destruct (decide (dir = ""%string)) as [->|Hd].
  - rewrite !(bool_decide_eq_true_2 (""%string = ""%string)), !(bool_decide_eq_false_2 (name = ""%string)) by done. fold l.
    assert (IsAbs name = false) as ->.
    { destruct (IsAbs name) eqn:E; [|done]. exfalso. destruct name as [|c n]; [done|]. apply IsAbs_String in E as ->.
      unfold l in H4. cbn in H4. done. }
    rewrite split_slash_none by done. cbn [foldl]. rewrite Hstep. cbn [rev app join_slash foldl].
    rewrite bool_decide_eq_false_2 by done. exact El.
  - rewrite !(bool_decide_eq_false_2 (dir = ""%string)) by done.
    rewrite bool_decide_eq_false_2 by by destruct dir.
    assert (IsAbs (dir +:+ "/" +:+ name) = IsAbs (dir +:+ "/")) as ->.
    { destruct dir as [|c dir]; [done|]. apply eq_true_iff_eq. exact (iff_trans (IsAbs_String c _) (iff_sym (IsAbs_String c _))). }
    rewrite !list_ascii_app. fold l. change (String.list_ascii_of_string "/" ++ l) with (slash :: l).
    rewrite split_slash_app, (split_slash_none l) by done. rewrite foldl_app. fold st. cbn [foldl]. rewrite Hstep. cbn [rev].
    rewrite join_slash_snoc, <- El. clearbody st l.
    destruct (IsAbs (dir +:+ "/")).
    + rewrite <- string_of_list_app. f_equal. destruct (rev st) as [|w ws]; [done|]. cbn [app]. by rewrite <- app_assoc.
    + rewrite bool_decide_eq_false_2 by by destruct (rev st). rewrite <- string_of_list_app. f_equal.
      destruct (rev st) as [|w ws]; [done|]. cbn [app]. by rewrite <- app_assoc.
Qed.

Lemma Join_ne dir x y : simple x = true → simple y = true → x ≠ y → Join dir x ≠ Join dir y.
Proof.
  destruct (Join_simple dir) as [p Hp]. intros Hx Hy Hxy. rewrite !Hp by done. intros E. apply Hxy.
  clear Hp. induction p as [|c p IH]; [exact E|]. exact (IH (f_equal (λ s, match s with String _ s => s | _ => s end) E)).
Qed.


(** A message of two lines puts its second line outside the comment of the
    script, where the shell runs it. *)
Example message_runs_in_script :
  let a := mkArtifact 2 "balance" ("negative" +:+ newline +:+ "reboot") 0 0 0 1 0 "" "" [] [] "gvisor" 0 "" in
  ∃ before after, buildReproduceScript a = before +:+ newline +:+ "reboot" +:+ newline +:+ after.
Proof.
  exists ("#!/bin/sh" +:+ newline +:+ "# Reproduce violation: balance" +:+ newline +:+ "# negative"). eexists. vm_compute. reflexivity.
Qed.

(** ** Witnesses *)

Definition demo_violation (property message : string) (step : Z) : Violation :=
  mkViolation property message 3 103 42 step 5000000 [] [0; 1; 3] 5 3.

Definition demo_violations : list Violation :=
  [demo_violation "b" "x" 9; demo_violation "a" "x" 7; demo_violation "b" "x" 4; demo_violation "a" "y" 4].

Example triage_demo : (λ e, (e_Property e, e_Message e, e_Step e)) <$> Triage demo_violations =
  [("a", "y", 4); ("b", "x", 4); ("a", "x", 7)]%string.
Proof. vm_compute. reflexivity. Qed.

(** Two messages of one property in one step tie: the report lists them in the
    order of Go's map iteration. *)
Example triage_ties :
  let vs := [demo_violation "a" "x" 4; demo_violation "a" "y" 4] in
  rank <$> Triage vs = [(4, "a"); (4, "a")]%string ∧
  ∃ l, l ≡ₚ deduplicate vs ∧ e_Message <$> triage_order l ≠ e_Message <$> Triage vs.
Proof.
  cbv zeta. split; [reflexivity|]. exists (reverse (deduplicate [demo_violation "a" "x" 4; demo_violation "a" "y" 4])).
  split; [apply reverse_Permutation|]. vm_compute. discriminate.
Qed.

(** A codec: the fields of the manifest under their JSON names, on one line. *)
Definition jstr (s : string) : json := JStr (String.list_ascii_of_string s).
Definition jint (n : Z) : json := JNum (itoa n).
Definition member (k : string) (j : json) : bytes * json := (String.list_ascii_of_string k, j).

Definition dec_ints : decoder (list Z) := λ j l,
  match j with
  | JArr js => (map (λ j, (dec_int j 0).1) js, existsb (λ j, (dec_int j 0).2) js)
  | JNull => (l, false)
  | _ => (l, true)
  end.

Definition manifest_json (a : Artifact) : json := JObj
  [member "manifest_version" (jint (a_ManifestVersion a)); member "property" (jstr (a_Property a)); member "message" (jstr (a_Message a));
   member "snapshot_id" (jint (a_SnapshotID a)); member "hypervisor_id" (jint (a_HypervisorID a)); member "seed" (jint (a_Seed a));
   member "step" (jint (a_Step a)); member "burst_instructions" (jint (a_BurstInsns a)); member "replay_file" (jstr (a_ReplayFile a));
   member "fault_schedule" (jstr (a_FaultSchedule a)); member "path_ids" (JArr (map jint (a_PathIDs a)));
   member "path_branch_indices" (JArr (map jint (a_PathBranchIndices a))); member "backend" (jstr (a_Backend a));
   member "concurrent_cmds" (jint (a_ConcurrentCmds a)); member "root_snapshot" (jstr (a_RootSnapshot a))].

Definition no_artifact : Artifact := mkArtifact 0 "" "" 0 0 0 0 0 "" "" [] [] "" 0 "".

Definition dec_manifest : decoder Artifact := dec_struct
  [field_at "manifest_version" a_ManifestVersion dec_int; field_at "property" a_Property dec_string; field_at "message" a_Message dec_string;
   field_at "snapshot_id" a_SnapshotID dec_int; field_at "hypervisor_id" a_HypervisorID dec_int; field_at "seed" a_Seed dec_int;
   field_at "step" a_Step dec_int; field_at "burst_instructions" a_BurstInsns dec_int; field_at "replay_file" a_ReplayFile dec_string;
   field_at "fault_schedule" a_FaultSchedule dec_string; field_at "path_ids" a_PathIDs dec_ints;
   field_at "path_branch_indices" a_PathBranchIndices dec_ints; field_at "backend" a_Backend dec_string;
   field_at "concurrent_cmds" a_ConcurrentCmds dec_int; field_at "root_snapshot" a_RootSnapshot dec_string].

Definition line_codec : Codec := {|
  marshal_manifest a := Some (Json.print (manifest_json a));
  unmarshal_manifest l := j ← parse l; unmarshal dec_manifest no_artifact j;
  marshal_meta v := Some (Json.print (JObj [member "property" (jstr (e_Property v)); member "step" (jint (e_Step v))])) |}.

Definition working : Disk := {| can_mkdir _ := true; can_write _ := true; can_read _ := true |}.

Definition demo_entry : ViolationEntry := entry_of (demo_violation "b" "x" 4).

(** The entry's artifact, with a schedule of its own. *)
Definition demo_artifact : Artifact := default no_artifact (e_Artifact demo_entry) <| a_FaultSchedule := "/run/v0/fault-schedule.json"%string |>.

Definition demo_saved : ViolationEntry := demo_entry <| e_Artifact := Some demo_artifact |>.

Definition demo_manifest : Artifact := bundled demo_saved demo_artifact <| a_FaultSchedule := "fault-schedule.json"%string |>.


(** The tree 0 - 1 - {2, 3}, and the entry of a violation at 3. *)
Definition demo_tree : Tree := (Create (Create (Create NewTree 0 100 0 0 0 0 0).2 1 101 128 7 11 0 1).2 1 102 256 8 12 0 2).2.

Lemma demo_tree_wf : wf demo_tree.
Proof. do 3 (apply wf_Create; [|vm_compute; reflexivity]). apply wf_NewTree. Qed.

Lemma PopulateBranchIndices_walks_witness :
  map (λ v, a_PathBranchIndices (default no_artifact (e_Artifact v))) (PopulateBranchIndices demo_tree [demo_entry]) = [[0; 0; 1]] ∧
  ∃ path indices, walk_branches demo_tree 0 indices = Some path ∧ path = [1; 3] ∧ indices = [0; 1].
Proof.
  split; [vm_compute; reflexivity|].
  destruct (PopulateBranchIndices_walks demo_tree demo_tree_wf demo_entry (default no_artifact (e_Artifact demo_entry)) 3
    ltac:(eexists; vm_compute; reflexivity) ltac:(reflexivity) ltac:(vm_compute; reflexivity)) as (root & path & indices & Ep & _ & Ei & _ & Hw).
  injection Ep as <- <-. exists [1; 3], indices. assert (indices = [0; 1]) as -> by (vm_compute in Ei; congruence). split_and!; [exact Hw|reflexivity|reflexivity].
Defined.
