(* ===== verification/Report.v ===== *)
(** * The report of a run
    ([internal/report/report.go], [properties.go], [findability.go], [findings.go])

    The counts and the sampled evaluations of the explorer become property groups
    with their timelines and examples, bug reports and findings.  A slice index out
    of range is a panic, so what indexes the buckets of a timeline returns an
    option; [math.Log] and [math.Exp] are parameters. *)
From stdpp Require Import strings sorting.
From S2P Require Import Prelude Strings Word Ring Float GoLib SnapshotTree Novelty Explorer ExplorerProps Windows Triage.
Local Open Scope Z_scope.

(** ** Data *)

Record PropertyTimePoint := mkPoint { tp_VTime : float64; tp_Passed : Z; tp_Failed : Z }.
Record PropertyExample := mkExample { x_VTime : float64; x_Step : Z; x_Condition : bool }.

Record PropertyReport := mkProperty {
  r_Message : string; r_AssertType : string; r_Status : string; r_Passed : Z; r_Failed : Z; r_Total : Z; r_LastFailed : float64;
  r_Timeline : list PropertyTimePoint; r_Examples : list PropertyExample }.

Record PropertyGroup := mkGroup {
  g_Name : string; g_Description : string; g_Status : string; g_Passed : Z; g_Failed : Z; g_Total : Z; g_Properties : list PropertyReport }.

Record LogEntry := mkLog { l_VTime : float64; l_Source : string; l_Message : string; l_Container : string }.
Record BugObservation := mkObservation { o_VTime : float64; o_Observed : bool; o_LogLines : list LogEntry }.

Record BugProbabilityPoint := mkBugPoint {
  bp_VTime : float64; bp_Probability : float64; bp_CILow : float64; bp_CIHigh : float64; bp_RawProbability : float64;
  bp_ChangePointP : float64 }.

Record BugReport := mkBugReport {
  b_Property : string; b_Message : string; b_Timeline : list BugProbabilityPoint; b_Logs : list LogEntry; b_MeanTimeToBug : float64;
  b_PSurvival : float64; b_TotalOccurrences : Z; b_TotalWindows : Z }.

Record FindingExample := mkFindingExample {
  fx_VTime : float64; fx_Step : Z; fx_Condition : bool; fx_Logs : list LogEntry; fx_HasLogs : bool }.

Record Finding := mkFinding {
  fi_Property : string; fi_Message : string; fi_AssertType : string; fi_Status : string; fi_PassedCount : Z; fi_FailedCount : Z;
  fi_FirstFailure : float64; fi_LastFailure : float64; fi_Timeline : list PropertyTimePoint; fi_Examples : list FindingExample;
  fi_BugReport : option BugReport }.

(** ** Timelines and examples of a property *)

(** [append] to the slice under the key. *)
Definition group_by {K A} `{Countable K} (key : A → K) (l : list A) : gmap K (list A) :=
  foldl (λ m x, <[key x := default [] (m !! key x) ++ [x]]> m) ∅ l.

Definition prop_key (eval : AssertionEval) : string * string := (AssertType eval, Message eval).

Definition vtimeOf (eval : AssertionEval) : float64 := vtime_of (Step eval).

Definition earlier_step (a b : AssertionEval) : bool := Step a <? Step b.

Definition count_eval (b : Z * Z) (eval : AssertionEval) : Z * Z := if Condition eval then (b.1 + 1, b.2) else (b.1, b.2 + 1).

Definition time_point (minT w : float64) (i : nat) (b : Z * Z) : list PropertyTimePoint :=
  if (b.1 =? 0) && (b.2 =? 0) then [] else [mkPoint (window_time minT w i) b.1 b.2].

(** The timeline and the time of the last failure; the evaluations are sorted in
    place. *)
Definition buildPropertyTimeline (evals : list AssertionEval) : option (list PropertyTimePoint * float64) :=
  let evals := sort_by earlier_step evals in
  match head evals, last evals with
  | Some first, Some last =>
      let minT := vtimeOf first in
      let range := time_range minT (vtimeOf last) in
      let w := window_size range 50 in
      let n := num_windows range w in
      buckets ← tally_all (λ eval, window_index minT w n (vtimeOf eval)) count_eval (replicate n (0, 0)) evals;
      Some (concat (imap (time_point minT w) buckets),
            foldl (λ t eval, if Condition eval then t else vtimeOf eval) fzero evals)
  | _, _ => Some ([], fzero)
  end.

Definition maxExamples : nat := 20.

Definition example_of (eval : AssertionEval) : PropertyExample := mkExample (vtimeOf eval) (Step eval) (Condition eval).

Definition buildPropertyExamples (evals : list AssertionEval) : list PropertyExample :=
  let failures := map example_of (filter (λ eval, Condition eval = false) evals) in
  let passes := map example_of (filter (λ eval, Condition eval = true) evals) in
  let examples := take maxExamples failures in
  sort_by (λ a b, flt (x_VTime a) (x_VTime b)) (examples ++ take (maxExamples - length examples) passes).

(** ** Groups of properties *)

Definition status_of (failed : Z) : string := if 0 <? failed then "failed" else "passed".

(** The report of one property, from its counts and its evaluations. *)
Definition property_report (evals : list AssertionEval) (pc : PropertyCount) : option PropertyReport :=
  '(timeline, last) ← (match evals with [] => Some ([], fzero) | _ => buildPropertyTimeline evals end);
  Some (mkProperty (pcMessage pc) (pcAssertType pc) (status_of (Failed pc)) (Passed pc) (Failed pc) (Total pc) last timeline
          (match evals with [] => [] | _ => buildPropertyExamples (sort_by earlier_step evals) end)).

Definition groupDescriptions (assertType : string) : option (string * string) :=
  (if bool_decide (assertType = "always") then Some ("Always assertions", "Properties that must hold in every reachable state. A failure indicates a bug.")
   else if bool_decide (assertType = "always_or_unreachable") then Some ("AlwaysOrUnreachable assertions", "Properties that must hold whenever the code path is reached.")
   else if bool_decide (assertType = "sometimes") then
     Some ("Sometimes assertions", "Properties expected to be true in at least some states. Failure means the explorer never observed the condition; exploration may be insufficient.")
   else if bool_decide (assertType = "reachable") then
     Some ("Reachability assertions", "Code paths that should be exercised during testing. Failure means the path was never reached.")
   else if bool_decide (assertType = "unreachable") then
     Some ("Unreachability assertions", "Code paths that should never be reached. A failure means supposedly unreachable code was executed.")
   else if bool_decide (assertType = "sometimes_all") then
     Some ("SometimesAll assertions", "Sets of sub-goals where all must be satisfied simultaneously in at least one state. Failure means the full combination was never observed.")
   else if bool_decide (assertType = "sometimes_all_subgoal") then
     Some ("SometimesAll sub-goals", "Individual sub-goal satisfaction events emitted as part of a SometimesAll assertion.")
   else None)%string.

(** The failed ones first, then by name. *)
Definition failed_first {A} (status name : A → string) (a b : A) : bool :=
  if bool_decide (status a = status b) then String.ltb (name a) (name b) else bool_decide (status a = "failed"%string).

Definition property_before : PropertyReport → PropertyReport → bool := failed_first r_Status r_Message.
Definition group_before : PropertyGroup → PropertyGroup → bool := failed_first g_Status g_Name.

Definition make_group (assertType : string) (props : list PropertyReport) : PropertyGroup :=
  let props := sort_by property_before props in
  let '(name, desc) := default ((assertType +:+ " assertions")%string, ""%string) (groupDescriptions assertType) in
  let failed := count_if (λ p, 0 <? r_Failed p) props in
  mkGroup name desc (status_of (Z.of_nat failed)) (Z.of_nat (length props - failed)) (Z.of_nat failed) (Z.of_nat (length props)) props.

(** The groups, from an iteration over the map of the reports. *)
Definition buildPropertyGroups (pcs : list PropertyCount) (evals : list AssertionEval) : option (list PropertyGroup) :=
  let evalsByProp := group_by prop_key evals in
  reports ← mapM (λ pc, property_report (default [] (evalsByProp !! (pcAssertType pc, pcMessage pc))) pc) pcs;
  Some (sort_by group_before (map (λ p, make_group p.1 p.2) (map_to_list (group_by r_AssertType reports)))).

(** ** Findability *)

(** [math.Min] and [math.Max] of numbers that are not both zero. *)
Definition math_Min (x y : float64) : float64 := if is_nan x || is_nan y then S754_nan else if flt x y then x else y.
Definition math_Max (x y : float64) : float64 := if is_nan x || is_nan y then S754_nan else if fgt x y then x else y.

Definition betaCredibleInterval (alpha beta confidence : float64) : float64 * float64 :=
  let mean := fdiv alpha (fadd alpha beta) in
  let sum := fadd alpha beta in
  let variance := fdiv (fmul alpha beta) (fmul (fmul sum sum) (fadd sum fone)) in
  let sd := fsqrt variance in
  let z := if fge confidence (flit 99 100) then flit 2576 1000 else if fge confidence (flit 95 100) then flit 196 100 else flit 1645 1000 in
  let low := fsub mean (fmul z sd) in
  let high := fadd mean (fmul z sd) in
  (if flt low fzero then fzero else low, if fgt high fone then fone else high).

Section findability.
Context (log exp : float64 → float64).

Definition RunsNeededFor94 (pSurvive : float64) : Z :=
  if fle pSurvive fzero then 1
  else if fge pSurvive fone then -1
  else ceil (fdiv (log (flit 6 100)) (log (fsub fone pSurvive))).

Definition klDivergenceBernoulli (p q : float64) : float64 :=
  let eps := flit 1 (10 ^ 10) in
  let eps' := flit (10 ^ 10 - 1) (10 ^ 10) in
  let p := math_Max eps (math_Min eps' p) in
  let q := math_Max eps (math_Min eps' q) in
  fadd (fmul p (log (fdiv p q))) (fmul (fsub fone p) (log (fdiv (fsub fone p) (fsub fone q)))).

Record Bucket := mkBucket { bk_hits : Z; bk_total : Z; bk_logs : list LogEntry }.

Definition count_observation (b : Bucket) (obs : BugObservation) : Bucket :=
  mkBucket (if o_Observed obs then bk_hits b + 1 else bk_hits b) (bk_total b + 1) (bk_logs b ++ o_LogLines obs).

(** The totals of the loop over the buckets, and the points so far. *)
Record Trend := mkTrend { tr_hits : Z; tr_trials : Z; tr_recentHits : Z; tr_recentTrials : Z; tr_points : list BugProbabilityPoint }.

Definition windowLookback : nat := 5.

Definition trend_step (minT w : float64) (buckets : list Bucket) (st : Trend) (ib : nat * Bucket) : Trend :=
  let '(i, b) := ib in
  if bk_total b =? 0 then st
  else
    let hits := tr_hits st + bk_hits b in
    let trials := tr_trials st + bk_total b in
    let hundred := float_of_Z 100 in
    let rawP := fmul (fdiv (float_of_Z (bk_hits b)) (float_of_Z (bk_total b))) hundred in
    let alpha := fadd (flit 1 2) (float_of_Z hits) in
    let beta := fadd (flit 1 2) (float_of_Z (trials - hits)) in
    let smoothedP := fmul (fdiv alpha (fadd alpha beta)) hundred in
    let '(low, high) := betaCredibleInterval alpha beta (flit 90 100) in
    let recentHits := tr_recentHits st + bk_hits b in
    let recentTrials := tr_recentTrials st + bk_total b in
    let '(changeP, recentHits, recentTrials) :=
      if (windowLookback <=? i)%nat && (0 <? recentTrials) then
        let overallRate := fdiv (float_of_Z hits) (float_of_Z trials) in
        let recentRate := fdiv (float_of_Z recentHits) (float_of_Z recentTrials) in
        let changeP := fmul (klDivergenceBernoulli recentRate overallRate) hundred in
        let changeP := if fgt changeP hundred then hundred else changeP in
        match buckets !! (i - windowLookback)%nat with
        | Some old => (changeP, recentHits - bk_hits old, recentTrials - bk_total old)
        | None => (changeP, recentHits, recentTrials)
        end
      else (fzero, recentHits, recentTrials) in
    mkTrend hits trials recentHits recentTrials
      (tr_points st ++ [mkBugPoint (window_time minT w i) smoothedP (fmul low hundred) (fmul high hundred) rawP changeP]).

Definition earlier_time (a b : BugObservation) : bool := flt (o_VTime a) (o_VTime b).

Definition ComputeBugReport (property message : string) (observations : list BugObservation) (totalDuration : float64) : option BugReport :=
  let observations := sort_by earlier_time observations in
  match head observations, last observations with
  | Some first, Some last =>
      let minT := o_VTime first in
      let range := time_range minT (o_VTime last) in
      let w := window_size range 100 in
      let n := num_windows range w in
      buckets ← tally_all (λ obs, window_index minT w n (o_VTime obs)) count_observation (replicate n (mkBucket 0 0 [])) observations;
      let tr := foldl (trend_step minT w buckets) (mkTrend 0 0 0 0 []) (imap pair buckets) in
      let '(meanTTB, pSurvival) :=
        if 0 <? tr_hits tr then
          let mean := fdiv totalDuration (float_of_Z (tr_hits tr)) in
          (mean, fmul (fsub fone (exp (fdiv (fneg totalDuration) mean))) (float_of_Z 100))
        else (fzero, fzero) in
      Some (mkBugReport property message (tr_points tr) (concat (map bk_logs buckets)) meanTTB pSurvival (tr_hits tr) (tr_trials tr))
  | _, _ => Some (mkBugReport property message [] [] fzero fzero 0 0)
  end.

(** By type, then by message. *)
Definition key_before (a b : string * string) : bool :=
  if bool_decide (a.1 = b.1) then String.ltb a.2 b.2 else String.ltb a.1 b.1.

Definition hasFailed (evals : list AssertionEval) : gset (string * string) :=
  foldl (λ s eval, if Condition eval then s else {[prop_key eval]} ∪ s) ∅ evals.

Definition observation_of (eval : AssertionEval) : BugObservation := mkObservation (vtimeOf eval) (negb (Condition eval)) [].

(** [duration.Seconds()] of nanoseconds. *)
Definition seconds (d : Z) : float64 :=
  fadd (float_of_Z (Z.quot d (10 ^ 9))) (fdiv (float_of_Z (Z.rem d (10 ^ 9))) (float_of_Z (10 ^ 9))).

Definition buildBugReports (evals : list AssertionEval) (duration : Z) : option (list BugReport) :=
  let groups := group_by prop_key evals in
  let total := let s := seconds duration in if fle s fzero then fone else s in
  mapM (λ key, ComputeBugReport key.1 key.2 (map observation_of (default [] (groups !! key))) total)
    (filter (λ key, key ∈ hasFailed evals) (sort_by key_before (elements (dom groups)))).
End findability.

(** ** Findings *)

Definition bug_by_message (bugReports : list BugReport) : gmap string BugReport := foldl (λ m b, <[b_Message b := b]> m) ∅ bugReports.

(** The first and the last point with a failure; a time of zero counts as none. *)
Definition failure_span (timeline : list PropertyTimePoint) : float64 * float64 :=
  foldl (λ s pt, if 0 <? tp_Failed pt then (if feq s.1 fzero then tp_VTime pt else s.1, tp_VTime pt) else s) (fzero, fzero) timeline.

Definition finding_example (bug : option BugReport) (ex : PropertyExample) : FindingExample :=
  let logs := match bug with
              | Some br => filter (λ l, fge (l_VTime l) (fsub (x_VTime ex) (float_of_Z 2)) = true ∧ fle (l_VTime l) (fadd (x_VTime ex) (float_of_Z 2)) = true)
                             (b_Logs br)
              | None => []
              end in
  mkFindingExample (x_VTime ex) (x_Step ex) (x_Condition ex) logs (negb (bool_decide (logs = []))).

Definition finding_of (bugByMsg : gmap string BugReport) (p : PropertyReport) : Finding :=
  let bug := bugByMsg !! r_Message p in
  let '(firstFail, lastFail) := failure_span (r_Timeline p) in
  mkFinding (r_AssertType p) (r_Message p) (r_AssertType p) "new" (r_Passed p) (r_Failed p) firstFail lastFail (r_Timeline p)
    (map (finding_example bug) (r_Examples p)) bug.

Definition buildFindings (properties : list PropertyGroup) (bugReports : list BugReport) : list Finding :=
  map (finding_of (bug_by_message bugReports))
    (filter (λ p, r_Status p = "failed"%string) (concat (map g_Properties properties))).

(** ** The report *)

Record SubGoalStatus := mkSubGoal { sg_Name : string; sg_Satisfied : bool }.
Record SometimesAllProgress := mkProgress { sp_Message : string; sp_Satisfied : bool; sp_SubGoals : list SubGoalStatus }.

Definition sorted_names {A} (m : gmap string A) : list string := sort_by String.ltb (elements (dom m)).

Definition progress_of (name : string) (st : SometimesAllState) : SometimesAllProgress :=
  mkProgress name (Satisfied st)
    (map (λ k, mkSubGoal k (default false (BestSubGoals st !! k))) (sorted_names (BestSubGoals st))).

Definition buildSometimesAllProgress (states : option (gmap string SometimesAllState)) : list SometimesAllProgress :=
  match states with
  | None => []
  | Some m => omap (λ name, progress_of name <$> m !! name) (sorted_names m)
  end.

Record Summary := mkSummary { s_TotalStates : Z; s_BugsFound : Z; s_MaxDepth : Z }.
Record AssertionGroup := mkAssertionGroup { ag_Total : Z; ag_Passed : Z; ag_Failed : Z }.
Record AssertionSummary := mkAssertionSummary { as_Always : AssertionGroup; as_Sometimes : AssertionGroup; as_Reachable : AssertionGroup }.
Record CoverageSummary := mkCoverage { cs_TotalEdges : Z; cs_NewEdges : Z; cs_Percentage : float64 }.
Record TreeNode := mkTreeNode {
  tn_ID : Z; tn_ParentID : Z; tn_Depth : Z; tn_VTimeNS : Z; tn_ICount : Z; tn_Faults : Z; tn_FaultKindMask : Z }.
Record TreeEvent := mkTreeEvent {
  te_SnapshotID : Z; te_VTime : float64; te_Type : string; te_Property : string; te_Message : string; te_Condition : option bool }.

(** The fields that [Generate] sets. *)
Record Report := mkReport {
  RunID : string; rp_Seed : Z; Duration : Z; rp_Summary : Summary; Violations : list ViolationEntry; Assertions : AssertionSummary;
  rp_Coverage : CoverageSummary; rp_FaultStats : FaultStats; Properties : list PropertyGroup; Findings : list Finding;
  BugReports : list BugReport; TreeNodes : list TreeNode; TreeEvents : list TreeEvent; SometimesAll : list SometimesAllProgress;
  CreatedAt : Z }.

Definition tree_node (n : NodeInfo) : TreeNode :=
  mkTreeNode (n_ID n) (n_ParentID n) (n_Depth n) (n_TimeNS n) (n_ICount n) (n_Faults n) (n_FaultKindMask n).

Definition eval_event (eval : AssertionEval) : TreeEvent :=
  mkTreeEvent (EvalSnapshotID eval) (vtimeOf eval) "assertion" (AssertType eval) (Message eval) (Some (Condition eval)).
Definition violation_event (v : Violation) : TreeEvent :=
  mkTreeEvent (vSnapshotID v) (vtime_of (vStep v)) "violation" (vProperty v) (vMessage v) None.

Definition tree_events (result : Result) : list TreeEvent := map eval_event (rAssertionEvals result) ++ map violation_event (rViolations result).

Definition max_depth (history : list NodeInfo) : Z := foldl (λ d n, if d <? n_Depth n then n_Depth n else d) 0 history.

Definition percentage (result : Result) : float64 :=
  if 0 <? rTotalEdges result then fmul (fdiv (float_of_Z (rNewEdges result)) (float_of_Z (rTotalEdges result))) (float_of_Z 100) else fzero.

Definition assertion_summary (a : AssertionCounts) : AssertionSummary :=
  mkAssertionSummary (mkAssertionGroup (AlwaysTotal a) (AlwaysPassed a) (AlwaysFailed a)) (mkAssertionGroup (SometimesTotal a) (SometimesPassed a) 0)
    (mkAssertionGroup (ReachableTotal a) (ReachablePassed a) 0).

(** [now] is the time of the call, [history] the history of the tree. *)
Definition Generate (log exp : float64 → float64) (now : Z) (runID : string) (seed : Z) (result : Result) (duration : Z)
    (history : list NodeInfo) : option Report :=
  let violations := Triage (rViolations result) in
  bugReports ← buildBugReports log exp (rAssertionEvals result) duration;
  properties ← buildPropertyGroups (rPropertyCounts result) (rAssertionEvals result);
  Some (mkReport runID seed duration
          (mkSummary (rTotalStates result) (Z.of_nat (length violations)) (max_depth history))
          violations (assertion_summary (rAssertions result))
          (mkCoverage (rTotalEdges result) (rNewEdges result) (percentage result))
          (buildFaultStats (rViolations result)) properties (buildFindings properties bugReports) bugReports
          (map tree_node history) (match history with [] => [] | _ => tree_events result end)
          (buildSometimesAllProgress (rSometimesAllStates result)) now).

(** ** Grouping and sorting *)

Lemma group_by_lookup {K A} `{Countable K} (key : A → K) l k :
  group_by key l !! k = match filter (λ x, key x = k) l with [] => None | xs => Some xs end.
Proof.
  unfold group_by. induction l as [|x l IH] using rev_ind; [apply lookup_empty|]. rewrite foldl_snoc, filter_app, filter_cons, filter_nil.
  set (m := foldl _ ∅ l) in *. destruct (decide (key x = k)) as [<-|Hne].
  - rewrite lookup_insert_eq, IH. by destruct (filter _ l).
  - rewrite lookup_insert_ne, IH by done. by rewrite app_nil_r.
Qed.

Lemma group_by_default {K A} `{Countable K} (key : A → K) l k : default [] (group_by key l !! k) = filter (λ x, key x = k) l.
Proof. rewrite group_by_lookup. by destruct (filter _ l). Qed.

Lemma group_by_Some {K A} `{Countable K} (key : A → K) l k xs :
  group_by key l !! k = Some xs ↔ xs ≠ [] ∧ xs = filter (λ x, key x = k) l.
Proof.
  rewrite group_by_lookup. split; [destruct (filter _ l); intros [= <-]; done|]. intros [Hne ->]. by destruct (filter _ l).
Qed.

(** The groups together are the list. *)
Lemma group_by_Permutation {K A} `{Countable K} (key : A → K) l : concat (map_to_list (group_by key l)).*2 ≡ₚ l.
Proof.
  unfold group_by. induction l as [|x l IH] using rev_ind; [cbn [foldl]; by rewrite map_to_list_empty|]. rewrite foldl_snoc. set (m := foldl _ ∅ l) in *.
  rewrite <- IH, <- (insert_delete_eq m), map_to_list_insert, fmap_cons by apply lookup_delete_eq. cbn [concat snd].
  destruct (m !! key x) as [xs|] eqn:E; cbn [default].
  - rewrite <- (insert_delete_id m (key x) xs) at 2 by done. rewrite map_to_list_insert, fmap_cons by apply lookup_delete_eq. cbn [concat snd].
    rewrite <- !app_assoc. apply Permutation_app_head. apply Permutation_app_comm.
  - rewrite delete_id by done. cbn [app]. by rewrite <- Permutation_cons_append.
Qed.

(** Sorting the images is sorting by the images. *)
Lemma sort_by_map {A B} (f : A → B) (lt : A → A → bool) (lt' : B → B → bool) l :
  (∀ x y, x ∈ l → y ∈ l → lt' (f x) (f y) = lt x y) → sort_by lt' (map f l) = map f (sort_by lt l).
Proof.
  induction l as [|x l IH]; intros Hf; [done|]. cbn [map sort_by foldr]. unfold sort_by in IH. rewrite IH by (intros; apply Hf; by right).
  fold (sort_by lt l). assert (∀ y, y ∈ sort_by lt l → y ∈ x :: l) as Hin by (intros y; rewrite sort_by_Permutation; by right).
  induction (sort_by lt l) as [|y k IHk]; cbn [insert_by map]; [done|]. rewrite (Hf y x (Hin y ltac:(by left)) ltac:(by left)). destruct (lt y x); [|done].
  cbn [map]. f_equal. apply IHk. intros z Hz. apply Hin. by right.
Qed.

Lemma StronglySorted_impl {A} (R R' : A → A → Prop) l : (∀ x y, R x y → R' x y) → StronglySorted R l → StronglySorted R' l.
Proof. intros HR. induction 1; constructor; [done|]. eapply Forall_impl; [done|]. intros y. apply HR. Qed.

Lemma earlier_step_sorted evals : StronglySorted (λ a b, Step a ≤ Step b) (sort_by earlier_step evals).
Proof.
  eapply (StronglySorted_impl (λ a b, earlier_step b a = false)); [unfold earlier_step; lia|].
  apply (sort_by_sorted earlier_step (λ _, True)); unfold earlier_step; [lia|lia|by apply Forall_true].
Qed.

Lemma sorted_ends {A} (f : A → Z) l x y z : StronglySorted (λ a b, f a ≤ f b) l → head l = Some x → last l = Some y → z ∈ l → f x ≤ f z ≤ f y.
Proof.
  intros Hs Hx Hy Hz. destruct l as [|x0 l]; [done|]. injection Hx as ->. split.
  - apply StronglySorted_inv in Hs as [_ Hall]. apply elem_of_cons in Hz as [->|Hz]; [lia|]. rewrite Forall_forall in Hall. by apply Hall.
  - clear -Hs Hy Hz. revert x z Hs Hy Hz. induction l as [|a l IH]; intros x z Hs Hy Hz; [injection Hy as ->; apply list_elem_of_singleton in Hz as ->; lia|].
    apply StronglySorted_inv in Hs as [Hs Hall]. rewrite last_cons_cons in Hy. apply elem_of_cons in Hz as [->|Hz]; [|by apply (IH a)].
    rewrite Forall_forall in Hall. etrans; [apply (Hall a); by left|]. apply (IH a); [done|done|by left].
Qed.

(** ** Timelines *)

Definition steps_bounded (evals : list AssertionEval) : Prop := Forall (λ ev, 0 ≤ Step ev < 2 ^ 48) evals.

Fixpoint total {A} (f : A → Z) (l : list A) : Z := match l with [] => 0 | x :: l => f x + total f l end.

Lemma total_app {A} (f : A → Z) l1 l2 : total f (l1 ++ l2) = total f l1 + total f l2.
Proof. induction l1 as [|x l1 IH]; cbn; [done|]. rewrite IH. lia. Qed.

Lemma total_seq (f : nat → nat) l : total (λ i, Z.of_nat (f i)) l = Z.of_nat (sum_list_with f l).
Proof. induction l; cbn; lia. Qed.

Lemma total_imap {A B} (f : A → Z) (f' : B → Z) (g : nat → A → list B) l : (∀ i x, total f' (g i x) = f x) →
  total f' (concat (imap g l)) = total f l.
Proof.
  revert g. induction l as [|x l IH]; intros g Hg; [done|]. rewrite imap_cons. cbn [concat total]. rewrite total_app, Hg. f_equal. apply IH. intros. apply Hg.
Qed.

Lemma count_eval_fold l b :
  foldl count_eval b l = (b.1 + Z.of_nat (count_if Condition l), b.2 + Z.of_nat (count_if (λ ev, negb (Condition ev)) l)).
Proof.
  revert b. induction l as [|ev l IH]; intros [p f]; cbn [foldl count_if fst snd]; [f_equal; lia|]. rewrite IH. unfold count_eval.
  destruct (Condition ev); cbn; f_equal; lia.
Qed.

(** The buckets of sorted evaluations: nothing panics, and bucket [i] has the
    counts of the evaluations in window [i]. *)
Lemma timeline_buckets (target : Z) (l : list AssertionEval) first last_ : 0 < target < 2 ^ 10 →
  StronglySorted (λ a b, Step a ≤ Step b) l → head l = Some first → last l = Some last_ → steps_bounded l →
  let range := time_range (vtimeOf first) (vtimeOf last_) in
  let w := window_size range target in
  let n := num_windows range w in
  ∀ ev, ev ∈ l → ∃ i, window_index (vtimeOf first) w n (vtimeOf ev) = Some i ∧ (i < n)%nat.
Proof.
  intros Ht Hs Hf Hl Hb range w n ev Hev. unfold steps_bounded in Hb. rewrite Forall_forall in Hb.
  destruct (sorted_ends Step l first last_ ev Hs Hf Hl Hev) as [H1 H2].
  pose proof (Hb first (head_Some_elem_of _ _ Hf)). pose proof (Hb last_ (last_Some_elem_of _ _ Hl)).
  apply step_windows; [lia|lia|done|lia].
Qed.

(** The counts of a property's evaluations in a window. *)
Definition window_counts (idx : AssertionEval → option nat) (l : list AssertionEval) (i : nat) : Z * Z :=
  let evals := filter (λ ev, idx ev = Some i) l in (Z.of_nat (count_if Condition evals), Z.of_nat (count_if (λ ev, negb (Condition ev)) evals)).

Lemma buckets_exact idx n l : (∀ ev, ev ∈ l → ∃ i, idx ev = Some i ∧ (i < n)%nat) →
  tally_all idx count_eval (replicate n (0, 0)) l = Some (map (window_counts idx l) (seq 0 n)).
Proof.
  intros Hi. destruct (tally_all_spec idx count_eval l (replicate n (0, 0))) as (bs & -> & Hl & Hbs); [by rewrite length_replicate|].
  f_equal. rewrite length_replicate in Hl. apply list_eq. intros i. rewrite list_lookup_fmap. destruct (decide (i < n)%nat) as [Hn|Hn].
  - rewrite (Hbs i (0, 0)) by by apply lookup_replicate_2. rewrite lookup_seq_lt by done. cbn [fmap option_map option_fmap]. rewrite count_eval_fold. done.
  - rewrite lookup_ge_None_2, lookup_seq_ge by lia. done.
Qed.

Lemma window_totals idx n l : (∀ ev, ev ∈ l → ∃ i, idx ev = Some i ∧ (i < n)%nat) →
  total fst (map (window_counts idx l) (seq 0 n)) = Z.of_nat (count_if Condition l) ∧
  total snd (map (window_counts idx l) (seq 0 n)) = Z.of_nat (count_if (λ ev, negb (Condition ev)) l).
Proof.
  intros Hi. rewrite <- (count_buckets idx Condition n), <- (count_buckets idx (λ ev, negb (Condition ev)) n) by done. rewrite <- !total_seq.
  split; (induction (seq 0 n) as [|i k IH]; [done|]; cbn [map total]; by rewrite IH).
Qed.

(** The time of the last failure. *)
Definition last_failure (l : list AssertionEval) : float64 := foldl (λ t eval, if Condition eval then t else vtimeOf eval) fzero l.

Lemma last_failure_spec l : StronglySorted (λ a b, Step a ≤ Step b) l →
  if existsb (λ ev, negb (Condition ev)) l
  then ∃ ev, ev ∈ l ∧ Condition ev = false ∧ last_failure l = vtimeOf ev ∧ ∀ ev', ev' ∈ l → Condition ev' = false → Step ev' ≤ Step ev
  else last_failure l = fzero.
Proof.
  unfold last_failure. induction l as [|x l IH] using rev_ind; intros Hs; [done|]. rewrite existsb_app, foldl_snoc. cbn [existsb].
  apply StronglySorted_app in Hs as (Hx & Hs & _). destruct (Condition x) eqn:E; cbn [negb orb].
  - rewrite orb_false_r. specialize (IH Hs). destruct (existsb _ l); [|done]. destruct IH as (ev & H1 & H2 & H3 & H4). exists ev.
    split_and!; [set_solver|done|done|]. intros ev' [He| ->%list_elem_of_singleton]%elem_of_app Hc; [by apply H4|congruence].
  - rewrite orb_true_r. exists x. split_and!; [set_solver|done|done|].
    intros ev' [He| ->%list_elem_of_singleton]%elem_of_app Hc; [|lia]. apply Hx; [done|by left].
Qed.

Lemma existsb_Permutation {A} (p : A → bool) l l' : l ≡ₚ l' → existsb p l = existsb p l'.
Proof. induction 1; cbn [existsb]; [done|congruence|by destruct (p x), (p y)|congruence]. Qed.

Lemma timeline_totals minT w bs :
  total tp_Passed (concat (imap (time_point minT w) bs)) = total fst bs ∧ total tp_Failed (concat (imap (time_point minT w) bs)) = total snd bs.
Proof.
  split; apply total_imap; intros i [p q]; unfold time_point; cbn [fst snd];
    destruct (Z.eqb_spec p 0) as [->|], (Z.eqb_spec q 0) as [->|]; cbn; lia.
Qed.

Lemma timeline_nonempty minT w bs : Forall (λ b, 0 ≤ b.1 ∧ 0 ≤ b.2) bs →
  Forall (λ pt, 0 < tp_Passed pt + tp_Failed pt) (concat (imap (time_point minT w) bs)).
Proof.
  intros Hbs. apply Forall_concat, Forall_lookup. intros i l E. rewrite list_lookup_imap in E. destruct (bs !! i) as [b|] eqn:Hb; [|done].
  injection E as <-. rewrite Forall_lookup in Hbs. specialize (Hbs i b Hb). unfold time_point. destruct (Z.eqb_spec b.1 0), (Z.eqb_spec b.2 0); cbn; repeat constructor; cbn; lia.
Qed.

Lemma timeline_value evals : steps_bounded evals → ∃ minT w bs,
  buildPropertyTimeline evals = Some (concat (imap (time_point minT w) bs), last_failure (sort_by earlier_step evals)) ∧
  Forall (λ b, 0 ≤ b.1 ∧ 0 ≤ b.2) bs ∧ total fst bs = Z.of_nat (count_if Condition evals) ∧
  total snd bs = Z.of_nat (count_if (λ ev, negb (Condition ev)) evals).
Proof.
  intros Hb. unfold buildPropertyTimeline. pose proof (sort_by_Permutation earlier_step evals) as Hp. pose proof (earlier_step_sorted evals) as Hs.
  set (l := sort_by earlier_step evals) in *. clearbody l. unfold steps_bounded in Hb. rewrite <- Hp in Hb. rewrite <- !(count_if_Permutation _ _ _ Hp).
  destruct (head l) as [first|] eqn:Hf; [|destruct l; [|done]; by exists fzero, fzero, []].
  destruct (last l) as [last_|] eqn:Hl; [|apply last_None in Hl as ->; done].
  set (idx := λ ev, window_index _ _ _ (vtimeOf ev)).
  pose proof (timeline_buckets 50 l first last_ ltac:(lia) Hs Hf Hl Hb) as Hi. fold idx in Hi.
  rewrite (buckets_exact idx _ l Hi). cbn [mbind option_bind]. do 3 eexists. split; [done|].
  destruct (window_totals idx _ l Hi) as [<- <-]. split_and!; [|done|done].
  apply Forall_fmap, Forall_true. intros i. unfold window_counts. cbn. lia.
Qed.

(** C18: The timeline of a property accounts for every one of its evaluations:
    there is no index out of range, whatever the floats round to; the passed and
    the failed counts of the points add up to those of the evaluations, no point
    is empty, and the time of the last failure is that of a failing evaluation
    with the greatest step, zero when there is none. *)
Theorem buildPropertyTimeline_exact (evals : list AssertionEval) (Hb : steps_bounded evals) :
  ∃ timeline last, buildPropertyTimeline evals = Some (timeline, last) ∧
    total tp_Passed timeline = Z.of_nat (count_if Condition evals) ∧
    total tp_Failed timeline = Z.of_nat (count_if (λ ev, negb (Condition ev)) evals) ∧
    Forall (λ pt, 0 < tp_Passed pt + tp_Failed pt) timeline ∧
    if existsb (λ ev, negb (Condition ev)) evals
    then ∃ ev, ev ∈ evals ∧ Condition ev = false ∧ last = vtimeOf ev ∧ ∀ ev', ev' ∈ evals → Condition ev' = false → Step ev' ≤ Step ev
    else last = fzero.
Proof.
  destruct (timeline_value evals Hb) as (minT & w & bs & E & Hbs & <- & <-). destruct (timeline_totals minT w bs) as [<- <-].
  do 2 eexists. split; [exact E|]. split_and!; [done|done|by apply timeline_nonempty|].
  pose proof (sort_by_Permutation earlier_step evals) as Hp. pose proof (last_failure_spec _ (earlier_step_sorted evals)) as Hlast.
  rewrite (existsb_Permutation _ _ _ Hp) in Hlast. destruct (existsb _ evals); [|done].
  destruct Hlast as (ev & H1 & H2 & H3 & H4). exists ev. split_and!; [by rewrite <- Hp|done|done|]. intros ev' Hev'. apply H4. by rewrite Hp.
Qed.

(** ** Bug reports *)

Definition bucket_of (idx : BugObservation → option nat) (l : list BugObservation) (i : nat) : Bucket :=
  let obs := filter (λ o, idx o = Some i) l in
  mkBucket (Z.of_nat (count_if o_Observed obs)) (Z.of_nat (count_if (λ _, true) obs)) (concat (map o_LogLines obs)).

Lemma count_observation_fold l b : foldl count_observation b l =
  mkBucket (bk_hits b + Z.of_nat (count_if o_Observed l)) (bk_total b + Z.of_nat (count_if (λ _, true) l)) (bk_logs b ++ concat (map o_LogLines l)).
Proof.
  revert b. induction l as [|o l IH]; intros [h t lg]; cbn [foldl count_if bk_hits bk_total bk_logs map concat]; [rewrite app_nil_r; f_equal; lia|].
  rewrite IH. unfold count_observation. cbn [bk_hits bk_total bk_logs]. rewrite <- app_assoc. destruct (o_Observed o); f_equal; lia.
Qed.

Lemma bug_buckets_exact idx n l : (∀ o, o ∈ l → ∃ i, idx o = Some i ∧ (i < n)%nat) →
  tally_all idx count_observation (replicate n (mkBucket 0 0 [])) l = Some (map (bucket_of idx l) (seq 0 n)).
Proof.
  intros Hi. destruct (tally_all_spec idx count_observation l (replicate n (mkBucket 0 0 []))) as (bs & -> & Hl & Hbs); [by rewrite length_replicate|].
  f_equal. rewrite length_replicate in Hl. apply list_eq. intros i. rewrite list_lookup_fmap. destruct (decide (i < n)%nat) as [Hn|Hn].
  - rewrite (Hbs i (mkBucket 0 0 [])) by by apply lookup_replicate_2. rewrite lookup_seq_lt by done. cbn [fmap option_map option_fmap].
    by rewrite count_observation_fold.
  - rewrite lookup_ge_None_2, lookup_seq_ge by lia. done.
Qed.

Lemma bug_totals idx n l : (∀ o, o ∈ l → ∃ i, idx o = Some i ∧ (i < n)%nat) →
  total bk_hits (map (bucket_of idx l) (seq 0 n)) = Z.of_nat (count_if o_Observed l) ∧
  total bk_total (map (bucket_of idx l) (seq 0 n)) = Z.of_nat (length l).
Proof.
  intros Hi. assert (count_if (λ _, true) l = length l) as <- by (clear; induction l; cbn; congruence).
  rewrite <- (count_buckets idx o_Observed n), <- (count_buckets idx (λ _, true) n) by done. rewrite <- !total_seq.
  split; (induction (seq 0 n) as [|i k IH]; [done|]; cbn [map total]; by rewrite IH).
Qed.

Lemma bucket_sane idx l i : let b := bucket_of idx l i in 0 ≤ bk_hits b ≤ bk_total b.
Proof.
  unfold bucket_of. cbn [bk_hits bk_total]. induction (filter _ l) as [|o k IH]; cbn [count_if]; [lia|]. destruct (o_Observed o); lia.
Qed.

Lemma bucket_no_logs idx l i : Forall (λ o, o_LogLines o = []) l → bk_logs (bucket_of idx l i) = [].
Proof.
  intros Hl. unfold bucket_of. cbn [bk_logs]. assert (Forall (λ o, o_LogLines o = []) (filter (λ o, idx o = Some i) l)) as Hf by (rewrite Forall_forall in *; intros o [_ Ho]%list_elem_of_filter; auto).
  induction Hf as [|o k Ho _ IH]; [done|]. cbn [map concat]. by rewrite Ho, IH.
Qed.

Section bugs.
Context (log exp : float64 → float64).

Lemma trend_totals minT w buckets l : Forall (λ ib, 0 ≤ bk_hits ib.2 ≤ bk_total ib.2) l → ∀ st,
  let st' := foldl (trend_step log minT w buckets) st l in
  tr_hits st' = tr_hits st + total (λ ib, bk_hits ib.2) l ∧ tr_trials st' = tr_trials st + total (λ ib, bk_total ib.2) l.
Proof.
  induction 1 as [|[i b] l Hb _ IH]; intros st; cbn [foldl total]; [lia|]. cbn [snd] in *.
  destruct (IH (trend_step log minT w buckets st (i, b))) as [-> ->].
  assert (tr_hits (trend_step log minT w buckets st (i, b)) = tr_hits st + bk_hits b ∧
    tr_trials (trend_step log minT w buckets st (i, b)) = tr_trials st + bk_total b) as [-> ->]; [|lia].
  unfold trend_step. destruct (Z.eqb_spec (bk_total b) 0) as [E|_]; [lia|]. destruct (betaCredibleInterval _ _ _).
  destruct (_ && _); [destruct (buckets !! _)|]; done.
Qed.

Lemma total_snd {A} (f : A → Z) l : ∀ (h : nat → nat), total (λ ib : nat * A, f ib.2) (imap (λ i x, (h i, x)) l) = total f l.
Proof. induction l as [|x l IH]; intros h; [done|]. rewrite imap_cons. cbn [total snd]. f_equal. apply (IH (λ i, h (S i))). Qed.

Lemma total_imap_pair {A} (f : A → Z) l : total (λ ib : nat * A, f ib.2) (imap pair l) = total f l.
Proof. exact (total_snd f l (λ i, i)). Qed.

(** The bug report of a property's evaluations counts each of them. *)
Lemma bug_report_exact property message evals d : steps_bounded evals →
  ∃ b, ComputeBugReport log exp property message (map observation_of evals) d = Some b ∧
    b_Property b = property ∧ b_Message b = message ∧ b_Logs b = [] ∧
    b_TotalOccurrences b = Z.of_nat (count_if (λ ev, negb (Condition ev)) evals) ∧ b_TotalWindows b = Z.of_nat (length evals).
Proof.
  intros Hb. unfold ComputeBugReport.
  rewrite (sort_by_map observation_of earlier_step); [|intros x y Hx Hy; unfold steps_bounded in Hb; rewrite Forall_forall in Hb; by apply flt_vtime; apply Hb].
  pose proof (sort_by_Permutation earlier_step evals) as Hp. pose proof (earlier_step_sorted evals) as Hs.
  set (l := sort_by earlier_step evals) in *. clearbody l. unfold steps_bounded in Hb. rewrite <- Hp in Hb.
  rewrite <- (count_if_Permutation _ _ _ Hp), <- (Permutation_length Hp). change (map observation_of l) with (observation_of <$> l).
  rewrite fmap_last. replace (head (observation_of <$> l)) with (observation_of <$> head l) by by destruct l.
  destruct (head l) as [first|] eqn:Hf; cbn [fmap option_map option_fmap]; [|destruct l; [|done]; by eexists].
  destruct (last l) as [last_|] eqn:Hl; cbn [fmap option_map option_fmap]; [|apply last_None in Hl as ->; done].
  change (o_VTime (observation_of first)) with (vtimeOf first). change (o_VTime (observation_of last_)) with (vtimeOf last_).
  set (idx := λ obs, window_index _ _ _ (o_VTime obs)).
  assert (∀ o, o ∈ observation_of <$> l → ∃ i, idx o = Some i ∧
    (i < num_windows (time_range (vtimeOf first) (vtimeOf last_)) (window_size (time_range (vtimeOf first) (vtimeOf last_)) 100))%nat) as Hi.
  { intros o (ev & -> & Hev)%list_elem_of_fmap. exact (timeline_buckets 100 l first last_ ltac:(lia) Hs Hf Hl Hb ev Hev). }
  rewrite (bug_buckets_exact idx _ _ Hi). cbn [mbind option_bind]. destruct (bug_totals idx _ _ Hi) as [Hh Ht].
  set (bs := map (bucket_of idx _) _) in *.
  assert (Forall (λ b, (0 ≤ bk_hits b ≤ bk_total b) ∧ bk_logs b = []) bs) as Hbs.
  { apply Forall_fmap, Forall_true. intros i. split; [apply bucket_sane|apply bucket_no_logs, Forall_fmap, Forall_true; done]. }
  destruct (trend_totals (vtimeOf first) (window_size (time_range (vtimeOf first) (vtimeOf last_)) 100) bs (imap pair bs)
    ltac:(apply Forall_lookup; intros i [j b] (b' & Hb' & [= -> ->])%list_lookup_imap_Some; rewrite Forall_lookup in Hbs; by apply (Hbs i))
    (mkTrend 0 0 0 0 [])) as [E1 E2].
  cbn [tr_hits tr_trials] in E1, E2.
  rewrite (total_imap_pair bk_hits), Hh in E1. rewrite (total_imap_pair bk_total), Ht in E2.
  set (tr := foldl _ _ _) in *. destruct (if 0 <? tr_hits tr then _ else _) as [mean ps] eqn:E. eexists. split; [done|].
  cbn [b_Property b_Message b_Logs b_TotalOccurrences b_TotalWindows]. split_and!; [done|done| | |].
  - clear -Hbs. induction Hbs as [|b bs [_ H] _ IH]; [done|]. cbn [map concat]. by rewrite H, IH.
  - rewrite E1. clear. induction l as [|ev l IH]; [done|]. cbn [fmap list_fmap count_if] in *. cbn [o_Observed observation_of]. lia.
  - rewrite E2. by rewrite length_fmap.
Qed.
End bugs.

(** ** Groups *)

Definition pc_key (pc : PropertyCount) : string * string := (pcAssertType pc, pcMessage pc).
Definition report_key (p : PropertyReport) : string * string := (r_AssertType p, r_Message p).

(** The report of a property repeats its counts. *)
Definition reports_count (pc : PropertyCount) (p : PropertyReport) : Prop :=
  report_key p = pc_key pc ∧ r_Total p = Total pc ∧ r_Passed p = Passed pc ∧ r_Failed p = Failed pc ∧ r_Status p = status_of (Failed pc).

Lemma property_report_some evals pc : steps_bounded evals → ∃ p, property_report evals pc = Some p ∧ reports_count pc p.
Proof.
  intros Hb. unfold property_report. destruct evals as [|ev evals]; [by eexists|].
  destruct (timeline_value (ev :: evals) Hb) as (minT & w & bs & E & _). rewrite E. by eexists.
Qed.

(** A group as it should be: of one type, its counts those of its members. *)
Definition group_ok (g : PropertyGroup) : Prop :=
  g_Properties g ≠ [] ∧ (∃ t, Forall (λ p, r_AssertType p = t) (g_Properties g)) ∧ g_Total g = Z.of_nat (length (g_Properties g)) ∧
  g_Failed g = Z.of_nat (count_if (λ p, 0 <? r_Failed p) (g_Properties g)) ∧ g_Passed g + g_Failed g = g_Total g ∧
  g_Status g = status_of (g_Failed g) ∧ StronglySorted (λ a b, property_before b a = false) (g_Properties g).

Lemma failed_first_sorted {A} (status name : A → string) l :
  Forall (λ x, status x = "failed"%string ∨ status x = "passed"%string) l →
  StronglySorted (λ a b, failed_first status name b a = false) (sort_by (failed_first status name) l).
Proof.
  intros Hl. apply (sort_by_sorted _ (λ x, status x = "failed"%string ∨ status x = "passed"%string)); [| |done].
  - intros x y. unfold failed_first. destruct (decide (status x = status y)) as [E|Hne].
    + rewrite !bool_decide_eq_true_2 by done. apply string_ltb_asym.
    + rewrite (bool_decide_eq_false_2 (status x = status y)), (bool_decide_eq_false_2 (status y = status x)) by congruence.
      intros H%bool_decide_eq_true. apply bool_decide_eq_false_2. congruence.
  - intros x y z Hx Hy Hz. unfold failed_first. destruct Hx as [-> | ->], Hy as [-> | ->], Hz as [-> | ->]; cbn; try done; apply string_ltb_negtrans.
Qed.

Lemma status_cases n : status_of n = "failed"%string ∨ status_of n = "passed"%string.
Proof. unfold status_of. destruct (0 <? n); auto. Qed.

Lemma make_group_ok t ps : ps ≠ [] → Forall (λ p, r_AssertType p = t ∧ r_Status p = status_of (r_Failed p)) ps → group_ok (make_group t ps).
Proof.
  intros Hne Hps. unfold make_group. destruct (default _ (groupDescriptions t)) as [name desc]. pose proof (sort_by_Permutation property_before ps) as Hp.
  assert (Forall (λ p, r_AssertType p = t ∧ r_Status p = status_of (r_Failed p)) (sort_by property_before ps)) as Hall by by rewrite Hp.
  unfold group_ok. cbn [g_Properties g_Total g_Failed g_Passed g_Status]. split_and!; try done.
  - intros E. rewrite E in Hp. by apply Permutation_nil_l in Hp.
  - exists t. eapply Forall_impl; [exact Hall|by intros p []].
  - pose proof (count_if_le_length (λ p, 0 <? r_Failed p) (sort_by property_before ps)). lia.
  - apply failed_first_sorted. eapply Forall_impl; [exact Hps|]. intros p [_ ->]. apply status_cases.
Qed.

Lemma make_groups_properties l : concat (map g_Properties (map (λ p, make_group p.1 p.2) l)) ≡ₚ concat l.*2.
Proof.
  induction l as [|[t ps] l IH]; [done|]. cbn [map concat fmap list_fmap fst snd]. rewrite IH. apply Permutation_app_tail.
  unfold make_group. destruct (default _ _). apply sort_by_Permutation.
Qed.

Lemma concat_Permutation {A} (l l' : list (list A)) : l ≡ₚ l' → concat l ≡ₚ concat l'.
Proof.
  induction 1 as [|x l l' _ IH|x y l|l1 l2 l3 _ IH1 _ IH2]; cbn [concat]; [done|by rewrite IH| |by rewrite IH1].
  rewrite !app_assoc. apply Permutation_app_tail, Permutation_app_comm.
Qed.

(** The groups hold one report for each count, and nothing panics. *)
Lemma groups_spec pcs evals : steps_bounded evals → ∃ groups reports, buildPropertyGroups pcs evals = Some groups ∧
  Forall2 reports_count pcs reports ∧ concat (map g_Properties groups) ≡ₚ reports ∧ Forall group_ok groups ∧
  StronglySorted (λ a b, group_before b a = false) groups.
Proof.
  intros Hb. unfold buildPropertyGroups.
  assert (∃ reports, mapM (λ pc, property_report (default [] (group_by prop_key evals !! (pcAssertType pc, pcMessage pc))) pc) pcs = Some reports ∧
    Forall2 reports_count pcs reports) as (reports & E & Hr).
  { assert (∀ pc, ∃ p, property_report (default [] (group_by prop_key evals !! (pcAssertType pc, pcMessage pc))) pc = Some p ∧ reports_count pc p) as Hone.
    { intros pc. rewrite group_by_default. apply property_report_some. unfold steps_bounded in *. rewrite Forall_forall in *.
      intros ev [_ Hev]%list_elem_of_filter. by apply Hb. }
    clear -Hone. induction pcs as [|pc pcs (reports & E & Hr)]; [by exists []|]. destruct (Hone pc) as (p & E1 & H1). exists (p :: reports).
    split; [|by constructor]. cbn [mapM]. rewrite E1. cbn [mbind option_bind]. by rewrite E. }
  rewrite E. cbn [mbind option_bind]. set (gs := map _ (map_to_list _)). exists (sort_by group_before gs), reports.
  assert (sort_by group_before gs ≡ₚ gs) as Hp by apply sort_by_Permutation.
  assert (Forall group_ok gs) as Hok.
  { apply Forall_fmap, Forall_forall. intros [t ps] Hin%elem_of_map_to_list. cbn [fst snd]. apply group_by_Some in Hin as [Hne ->].
    apply make_group_ok; [done|]. apply Forall_forall. intros p [Ht Hpin]%list_elem_of_filter. split; [done|].
    apply list_elem_of_lookup in Hpin as [i Hi]. destruct (Forall2_lookup_r _ _ _ _ _ Hr Hi) as (pc & _ & (_ & _ & _ & -> & ->)). done. }
  split_and!; [done|done| |by rewrite Hp|].
  - rewrite (concat_Permutation _ (map g_Properties gs)) by (by apply Permutation_map). unfold gs. rewrite make_groups_properties. apply group_by_Permutation.
  - apply failed_first_sorted. eapply Forall_impl; [exact Hok|]. intros g (_ & _ & _ & _ & _ & -> & _). apply status_cases.
Qed.

(** ** Bug reports of a run *)

Lemma elem_of_hasFailed evals key : key ∈ hasFailed evals ↔ ∃ ev, ev ∈ evals ∧ prop_key ev = key ∧ Condition ev = false.
Proof.
  unfold hasFailed. induction evals as [|ev evals IH] using rev_ind; [split; [set_solver|by intros (ev & ?%elem_of_nil & _)]|].
  rewrite foldl_snoc. destruct (Condition ev) eqn:E.
  - rewrite IH. split; intros (ev' & Hin & Hk & Hc); exists ev'; (split; [|done]); [set_solver|].
    apply elem_of_app in Hin as [?| ->%list_elem_of_singleton]; [done|congruence].
  - rewrite elem_of_union, elem_of_singleton, IH. split; [intros [->|(ev' & Hin & Hk & Hc)]; [exists ev|exists ev']; set_solver|].
    intros (ev' & [Hin| ->%list_elem_of_singleton]%elem_of_app & Hk & Hc); [right; by exists ev'|by left].
Qed.

Definition bug_key (b : BugReport) : string * string := (b_Property b, b_Message b).

(** One bug report for each property that failed, with its number of failures. *)
Lemma bug_reports_spec log exp evals d : steps_bounded evals → ∃ bs, buildBugReports log exp evals d = Some bs ∧ NoDup (bug_key <$> bs) ∧
  (∀ key, key ∈ bug_key <$> bs ↔ ∃ ev, ev ∈ evals ∧ prop_key ev = key ∧ Condition ev = false) ∧
  ∀ b, b ∈ bs → b_TotalOccurrences b = Z.of_nat (count_if (λ ev, negb (Condition ev)) (filter (λ ev, prop_key ev = bug_key b) evals)).
Proof.
  intros Hb. unfold buildBugReports. set (keys := filter _ (sort_by _ _)). set (total := if fle _ _ then _ else _). clearbody total.
  assert (∀ key, key ∈ keys ↔ ∃ ev, ev ∈ evals ∧ prop_key ev = key ∧ Condition ev = false) as Hkeys.
  { intros key. unfold keys. rewrite list_elem_of_filter, elem_of_hasFailed, sort_by_Permutation, elem_of_elements, elem_of_dom, group_by_lookup.
    split; [by intros []|]. intros (ev & Hin & Hk & Hc). split; [by exists ev|]. destruct (filter _ evals) eqn:E; [|by eexists].
    exfalso. apply (filter_nil_not_elem_of (λ ev, prop_key ev = key) evals ev E Hk Hin). }
  assert (NoDup keys) as Hnd by (unfold keys; apply NoDup_filter; rewrite sort_by_Permutation; apply NoDup_elements).
  assert (∃ bs, mapM (λ key, ComputeBugReport log exp key.1 key.2 (map observation_of (default [] (group_by prop_key evals !! key))) total) keys = Some bs ∧
    bug_key <$> bs = keys ∧
    Forall (λ b, b_TotalOccurrences b = Z.of_nat (count_if (λ ev, negb (Condition ev)) (filter (λ ev, prop_key ev = bug_key b) evals))) bs) as (bs & E & Hk & Ho).
  { clear Hkeys Hnd. induction keys as [|[t m] keys (bs & E & Hk & Ho)]; [by exists []|].
    assert (steps_bounded (filter (λ ev, prop_key ev = (t, m)) evals)) as Hf.
    { unfold steps_bounded in *. rewrite Forall_forall in *. intros ev [_ Hev]%list_elem_of_filter. by apply Hb. }
    destruct (bug_report_exact log exp t m _ total Hf) as (b & Eb & E1 & E2 & _ & E3 & _). exists (b :: bs). cbn [mapM]. rewrite group_by_default. cbn [fst snd].
    rewrite Eb. cbn [mbind option_bind]. rewrite E. assert (bug_key b = (t, m)) as Hkb by (unfold bug_key; by rewrite E1, E2).
    split_and!; [done|by rewrite fmap_cons, Hkb, Hk|]. constructor; [by rewrite Hkb|done]. }
  exists bs. rewrite Hk. rewrite Forall_forall in Ho. by split_and!.
Qed.

(** ** The report of an explorer *)

(** No zero byte: the count keys of assertions of such types are distinct. *)
Definition nul_free (s : string) : bool := forallb (λ c, negb (Ascii.eqb c (Ascii.ascii_of_nat 0))) (String.list_ascii_of_string s).

Lemma count_key_inj t m t' m' : nul_free t = true → nul_free t' = true → count_key t m = count_key t' m' → (t, m) = (t', m').
Proof.
  unfold nul_free, count_key. revert t'. induction t as [|c t IH]; intros [|c' t'] H1 H2 E.
  - injection E as ->. done.
  - injection E as <- _. done.
  - injection E as -> _. done.
  - apply andb_true_iff in H1 as [_ H1], H2 as [_ H2]. injection E as -> E. specialize (IH t' H1 H2 E). congruence.
Qed.

Definition types_ok (evals : list AssertionEval) : Prop := Forall (λ ev, nul_free (AssertType ev) = true) evals.

Lemma with_key_prop evals ev : types_ok evals → nul_free (AssertType ev) = true →
  with_key (ExplorerProps.key_of ev) evals = filter (λ ev', prop_key ev' = prop_key ev) evals.
Proof.
  intros Ht Hev. apply filter_ext_in. intros ev' Hin. unfold types_ok in Ht. rewrite Forall_forall in Ht. specialize (Ht ev' Hin).
  unfold ExplorerProps.key_of, prop_key. split; [by apply count_key_inj|by intros [= -> ->]].
Qed.


Lemma omap_key_NoDup {A B C} (f : A → option B) (g : B → A) (h : B → C) (r : C → A) l : NoDup l →
  (∀ x y, x ∈ l → f x = Some y → g y = x) → (∀ y, r (h y) = g y) → NoDup (h <$> omap f l).
Proof.
  intros Hnd Hf Hr. assert (NoDup (r <$> (h <$> omap f l))) as H.
  { rewrite <- list_fmap_compose. rewrite (list_fmap_ext (r ∘ h) g) by (intros; apply Hr).
    assert (g <$> omap f l = filter (λ x, is_Some (f x)) l) as ->; [|by apply NoDup_filter].
    clear Hnd. induction l as [|x l IH]; [done|]. rewrite filter_cons. cbn [omap list_omap]. rewrite <- IH by (intros; apply Hf; [by right|done]).
    destruct (f x) as [y|] eqn:E; [|by rewrite decide_False by by intros []]. rewrite decide_True by by eexists. cbn. f_equal. apply Hf; [by left|done]. }
  by apply NoDup_fmap_1 in H.
Qed.

(** The counts in the result are those of the evaluations, one for each property. *)
Lemma result_counts evals e elapsed : recorded evals e → types_ok evals →
  let pcs := rPropertyCounts (BuildResult e elapsed) in
  NoDup (pc_key <$> pcs) ∧ (∀ key, key ∈ pc_key <$> pcs ↔ ∃ ev, ev ∈ evals ∧ prop_key ev = key) ∧
  ∀ pc, pc ∈ pcs → let l := filter (λ ev, prop_key ev = pc_key pc) evals in
    Total pc = Z.of_nat (length l) ∧ Passed pc = Z.of_nat (count_if Condition l) ∧ Failed pc = Z.of_nat (count_if (λ ev, negb (Condition ev)) l).
Proof.
  intros [Hc _ _ _] Ht pcs. set (keys := sort_by String.ltb (elements (dom (propertyCounts e)))).
  assert (NoDup keys) as Hnd by (unfold keys; rewrite sort_by_Permutation; apply NoDup_elements).
  assert (∀ k pc, propertyCounts e !! k = Some pc → count_key (pcAssertType pc) (pcMessage pc) = k ∧ (∃ ev, ev ∈ evals ∧ prop_key ev = pc_key pc) ∧
    let l := filter (λ ev, prop_key ev = pc_key pc) evals in
    Total pc = Z.of_nat (length l) ∧ Passed pc = Z.of_nat (count_if Condition l) ∧ Failed pc = Z.of_nat (count_if (λ ev, negb (Condition ev)) l)) as Hpc.
  { intros k pc E. rewrite Hc in E. destruct (with_key k evals) as [|ev l] eqn:El; [done|]. injection E as <-.
    assert (ev ∈ with_key k evals) as Hin by (rewrite El; by left). apply list_elem_of_filter in Hin as [<- Hin].
    unfold types_ok in Ht. rewrite Forall_forall in Ht. rewrite with_key_prop in El by (by apply Forall_forall || by apply Ht).
    cbn [pcAssertType pcMessage Total Passed Failed]. split_and!; [done|by exists ev|..]; unfold pc_key; cbn [pcAssertType pcMessage];
      fold (prop_key ev); by rewrite El. }
  assert (∀ pc, pc ∈ pcs ↔ ∃ k, k ∈ keys ∧ propertyCounts e !! k = Some pc) as Hin by (intros pc; apply list_elem_of_omap).
  split_and!.
  - apply (omap_key_NoDup _ (λ pc, count_key (pcAssertType pc) (pcMessage pc)) _ (λ k, count_key k.1 k.2)); [done| |done]. intros k pc _ E. by apply Hpc.
  - intros key. rewrite list_elem_of_fmap. setoid_rewrite Hin. split.
    + intros (pc & -> & k & _ & E). by destruct (Hpc k pc E) as (_ & ? & _).
    + intros (ev & Hev & <-). destruct (propertyCounts e !! ExplorerProps.key_of ev) as [pc|] eqn:E.
      * exists pc. split; [|exists (ExplorerProps.key_of ev); split; [|done]; unfold keys; by rewrite sort_by_Permutation, elem_of_elements, elem_of_dom, E].
        destruct (Hpc _ _ E) as (Hk & (ev' & Hin' & Hk') & _). rewrite <- Hk'. unfold types_ok in Ht. rewrite Forall_forall in Ht.
        apply (count_key_inj _ _ _ _ (Ht ev Hev) (Ht ev' Hin')). unfold prop_key, pc_key in Hk'. injection Hk' as -> ->. done.
      * rewrite Hc in E. destruct (with_key (ExplorerProps.key_of ev) evals) eqn:El; [|done]. exfalso.
        by apply (filter_nil_not_elem_of (λ ev', ExplorerProps.key_of ev' = ExplorerProps.key_of ev) evals ev El).
  - intros pc (k & _ & E)%Hin. by destruct (Hpc k pc E) as (_ & _ & ?).
Qed.

Lemma count_failures l : count_if (λ ev, negb (Condition ev)) l = length (filter (λ ev, Condition ev = false) l).
Proof. induction l as [|ev l IH]; [done|]. rewrite filter_cons. cbn [count_if]. rewrite IH. by destruct (Condition ev). Qed.

Definition report_properties (r : Report) : list PropertyReport := concat (map g_Properties (Properties r)).

Lemma failures_sampled evals e key : recorded evals e →
  count_if (λ ev, negb (Condition ev)) (filter (λ ev, prop_key ev = key) (assertionEvals e)) =
  count_if (λ ev, negb (Condition ev)) (filter (λ ev, prop_key ev = key) evals).
Proof.
  intros [_ _ Hf _]. rewrite !count_failures.
  assert (∀ l : list AssertionEval, filter (λ ev, Condition ev = false) (filter (λ ev, prop_key ev = key) l) =
    filter (λ ev, prop_key ev = key) (filter (λ ev, Condition ev = false) l)) as Hswap.
  { intros l. rewrite !filter_filter. apply filter_ext_in. tauto. }
  by rewrite !Hswap, Hf.
Qed.

Lemma failing_sampled evals e key : recorded evals e →
  (∃ ev, ev ∈ assertionEvals e ∧ prop_key ev = key ∧ Condition ev = false) ↔ ∃ ev, ev ∈ evals ∧ prop_key ev = key ∧ Condition ev = false.
Proof.
  intros [_ _ Hf _]. assert (∀ l : list AssertionEval, (∃ ev, ev ∈ l ∧ prop_key ev = key ∧ Condition ev = false) ↔
    ∃ ev, ev ∈ filter (λ ev, Condition ev = false) l ∧ prop_key ev = key) as Hl.
  { intros l. setoid_rewrite list_elem_of_filter. naive_solver. }
  by rewrite !Hl, Hf.
Qed.

Lemma count_positive l : 0 < Z.of_nat (count_if (λ ev, negb (Condition ev)) l) ↔ ∃ ev, ev ∈ l ∧ Condition ev = false.
Proof.
  rewrite count_failures. destruct (filter _ l) as [|ev k] eqn:E; cbn [length].
  - split; [lia|]. intros (ev & Hin & Hc). by destruct (filter_nil_not_elem_of (λ ev, Condition ev = false) l ev E).
  - split; [|lia]. intros _. exists ev. assert (ev ∈ filter (λ ev, Condition ev = false) l) as [? ?]%list_elem_of_filter by (rewrite E; by left). done.
Qed.

Lemma status_failed n : status_of n = "failed"%string ↔ 0 < n.
Proof. unfold status_of. destruct (Z.ltb_spec 0 n); split; (done || lia). Qed.


(** ** Findability *)

(** The credible interval stays within the unit interval, whatever rounds. *)
Lemma credible_interval_clamped alpha beta confidence :
  let '(low, high) := betaCredibleInterval alpha beta confidence in flt low fzero = false ∧ fgt high fone = false.
Proof.
  assert (∀ x, flt (if flt x fzero then fzero else x) fzero = false) as Hlow by (intros x; by destruct (flt x fzero) eqn:E).
  assert (∀ x, fgt (if fgt x fone then fone else x) fone = false) as Hhigh by (intros x; by destruct (fgt x fone) eqn:E).
  split; [apply Hlow|apply Hhigh].
Qed.

(** No run proves a bug that always appears fixed, one run a bug that never
    does. *)
Lemma runs_needed_ends log p : (fle p fzero = true → RunsNeededFor94 log p = 1) ∧
  (fle p fzero = false → fge p fone = true → RunsNeededFor94 log p = -1).
Proof. unfold RunsNeededFor94. split; [by intros ->|by intros -> ->]. Qed.

(** ** Witnesses *)

(** Bug reports are found by message alone: with the message in two types of
    assertion, the finding of one carries the bug report of the other. *)
Example finding_of_other_type :
  let report t n := mkBugReport t "leader elected" [] [] fzero fzero n n in
  let p := mkProperty "leader elected" "always" "failed" 0 2 2 fzero [] [] in
  b_Property <$> fi_BugReport (finding_of (bug_by_message [report "always" 2; report "sometimes" 7]) p) = Some "sometimes"%string.
Proof. reflexivity. Qed.

Definition demo_eval (assertType message : string) (step : Z) (condition : bool) : AssertionEval :=
  mkEval step 0 1 assertType message assertType condition.

Definition demo_evals : list AssertionEval :=
  [demo_eval "always" "balance" 100 true; demo_eval "sometimes" "leader elected" 120 false; demo_eval "always" "balance" 300 false;
   demo_eval "sometimes" "leader elected" 200 true; demo_eval "always" "balance" 200 true; demo_eval "reachable" "recovery" 150 true].

Lemma demo_evals_ok : steps_bounded demo_evals ∧ types_ok demo_evals.
Proof. split; repeat constructor; vm_compute; congruence. Qed.

Lemma buildPropertyTimeline_exact_witness :
  let evals := filter (λ ev, AssertType ev = "always"%string) demo_evals in
  ∃ timeline last, buildPropertyTimeline evals = Some (timeline, last) ∧
    (λ p, (tp_Passed p, tp_Failed p)) <$> timeline = [(1, 0); (1, 1)] ∧ last = vtime_of 300 ∧ total tp_Passed timeline = 2.
Proof.
  intros evals. assert (steps_bounded evals) as Hb by (repeat constructor; vm_compute; congruence).
  destruct (buildPropertyTimeline_exact evals Hb) as (timeline & last & E & H1 & _). exists timeline, last.
  assert (buildPropertyTimeline evals = Some (timeline, last)) as E2 by exact E. vm_compute in E2. injection E2 as <- <-.
  split_and!; [exact E|reflexivity|vm_compute; reflexivity|exact H1].
Defined.

Definition demo_explorer : Explorer := New NewTree (mkConfig 8 100 0 StrategyBreadthFirst 1 2 64 "") None.

