(* ===== verification/PoolReport.v ===== *)
(** * The artifacts of a parallel run
    (the end of [Run], [internal/orchestrator/orchestrator.go])

    What the pool found goes to the report: each entry of the triage gets the
    schedule that the pool kept for its property and message, written to a
    directory of its own. *)
From stdpp Require Import strings pretty.
From S2P Require Import Prelude Strings Word Float GoLib Json Prng TestConfig SnapshotTree Coverage InputTree ChoiceBuffer Novelty Mcts.
From S2P Require Import Saturation Frontier Explorer Output Composer EventStore Fault Schedule Adaptive FaultInject Interleave.
From S2P Require Import Explore ExploreLoop ExploreProps ExploreDemo Triage Pool PoolLoop PoolProps PoolTheorems PoolDemo.
Local Open Scope Z_scope.

(** ** Definitions *)

(** [json.MarshalIndent] of a schedule. *)
Class ScheduleCodec := { marshal_schedule : Schedule → option bytes }.

Section attach.
Context `{Disk, ScheduleCodec}.

Definition Save (d : disk) (path : string) (s : Schedule) : option disk :=
  data ← marshal_schedule s; if can_write path then Some (<[path := data]> d) else None.

(** The schedule of an entry, or the global one: in a directory of its own when
    the pool kept one with entries and it can be written. *)
Definition attach_schedule (base global : string) (scheds : gmap string Schedule) (d : disk) (i : nat) (v : ViolationEntry) : disk * string :=
  match scheds !! entry_key v with
  | Some sched =>
      if 0 <? ScheduleLen sched then
        let dir := base +:+ "/v" +:+ pretty i in
        if can_mkdir dir then
          let path := dir +:+ "/fault-schedule.json" in
          match Save d path sched with
          | Some d => (d, path)
          | None => (d, global)
          end
        else (d, global)
      else (d, global)
  | None => (d, global)
  end.

Definition attach (replayFile backend base global : string) (scheds : gmap string Schedule) (d : disk) (i : nat) (v : ViolationEntry) :
    disk * ViolationEntry :=
  match e_Artifact v with
  | None => (d, v)
  | Some a =>
      let '(d, path) := attach_schedule base global scheds d i v in
      (d, v <| e_Artifact := Some (a <| a_ReplayFile := replayFile |> <| a_Backend := backend |> <| a_FaultSchedule := path |>) |>)
  end.

Fixpoint attach_all (replayFile backend base global : string) (scheds : gmap string Schedule) (d : disk) (i : nat) (vs : list ViolationEntry) :
    disk * list ViolationEntry :=
  match vs with
  | [] => (d, [])
  | v :: vs =>
      let '(d, v) := attach replayFile backend base global scheds d i v in
      let '(d, vs) := attach_all replayFile backend base global scheds d (S i) vs in
      (d, v :: vs)
  end.
End attach.

(** ** Lemmas *)

Lemma append_cancel_r s1 s2 t : s1 +:+ t = s2 +:+ t → s1 = s2.
Proof.
  intros E. apply (f_equal String.list_ascii_of_string) in E. rewrite !list_ascii_app in E. apply app_inv_tail in E.
  by rewrite <- (String.string_of_list_ascii_of_string s1), E, String.string_of_list_ascii_of_string.
Qed.

Definition schedule_path (base : string) (i : nat) : string := (base +:+ "/v" +:+ pretty i) +:+ "/fault-schedule.json".

Lemma schedule_path_inj base i j : schedule_path base i = schedule_path base j → i = j.
Proof.
  intros E%append_cancel_r. apply String.app_inj in E. apply (String.app_inj "/v") in E. by apply (inj pretty).
Qed.

Section lemmas.
Context `{Disk, ScheduleCodec} (replayFile backend base global : string) (scheds : gmap string Schedule).

(** What an entry has become. *)
Definition attached (d : disk) (v v' : ViolationEntry) : Prop :=
  ∃ a, e_Artifact v = Some a ∧
  ∃ path, v' = v <| e_Artifact := Some (a <| a_ReplayFile := replayFile |> <| a_Backend := backend |> <| a_FaultSchedule := path |>) |> ∧
    (∀ sched, scheds !! entry_key v = Some sched → Entries sched ≠ [] → ReadFile d path = marshal_schedule sched) ∧
    ((∀ sched, scheds !! entry_key v = Some sched → Entries sched = []) → path = global).

Lemma attach_all_spec vs : (∀ p, can_mkdir p = true ∧ can_write p = true ∧ can_read p = true) →
  (∀ key sched, scheds !! key = Some sched → is_Some (marshal_schedule sched)) → Forall (λ v, is_Some (e_Artifact v)) vs → ∀ d i,
  let '(d', vs') := attach_all replayFile backend base global scheds d i vs in
  Forall2 (attached d') vs vs' ∧ ∀ p, (∀ j, (i ≤ j)%nat → p ≠ schedule_path base j) → d' !! p = d !! p.
Proof.
  intros Hd Hm. induction 1 as [|v vs [a Ha] _ IH]; intros d i; cbn [attach_all]; [by split; [constructor|]|].
  unfold attach. rewrite Ha. destruct (attach_schedule base global scheds d i v) as [d1 path] eqn:E1. specialize (IH d1 (S i)).
  destruct (attach_all _ _ _ _ _ d1 (S i) vs) as [d2 vs2]. destruct IH as [IH Hframe].
  unfold attach_schedule in E1. destruct (scheds !! entry_key v) as [sched|] eqn:Es.
  - destruct (Z.ltb_spec 0 (ScheduleLen sched)) as [Hl|Hl].
    + rewrite (proj1 (Hd _)) in E1. unfold Save in E1. destruct (Hm _ _ Es) as [data Edata]. rewrite Edata in E1. cbn [mbind option_bind] in E1.
      rewrite (proj1 (proj2 (Hd _))) in E1. injection E1 as <- <-. fold (schedule_path base i) in *. split.
      * constructor; [|done]. exists a. split; [done|]. exists (schedule_path base i). split_and!; [done| |].
        -- rewrite Es. intros ? [= <-] _. unfold ReadFile. rewrite (proj2 (proj2 (Hd _))), Hframe, lookup_insert_eq; [done|].
           intros j Hj E%schedule_path_inj. lia.
        -- intros Hnone. specialize (Hnone _ Es). unfold ScheduleLen in Hl. rewrite Hnone in Hl. cbn in Hl. lia.
      * intros p Hp. rewrite Hframe by (intros j Hj; apply Hp; lia). apply lookup_insert_ne. apply not_eq_sym, Hp. lia.
    + injection E1 as <- <-. split; [constructor; [|done]|intros p Hp; apply Hframe; intros j Hj; apply Hp; lia].
      exists a. split; [done|]. exists global. split_and!; [done| |done]. rewrite Es. intros ? [= <-] Hne. unfold ScheduleLen in Hl.
      destruct (Entries sched); [done|]. cbn in Hl. lia.
  - injection E1 as <- <-. split; [constructor; [|done]|intros p Hp; apply Hframe; intros j Hj; apply Hp; lia].
    exists a. split; [done|]. exists global. split_and!; [done|by rewrite Es|done].
Qed.
End lemmas.

(** ** The theorem *)

Section pool.
Context {W B : Type} `{PoolMachineLaws W} `{Bitmap64 B} `{Injection} {growth : Growth} (log : float64 → float64).
Context `{Disk, ScheduleCodec}.

End pool.

(** ** Witness *)

(** A codec for schedules: the steps of the entries on a line. *)
#[local] Instance steps_codec : ScheduleCodec := {|
  marshal_schedule s := Some (Json.print (JArr (map (λ e, JNum (itoa (Schedule.Step e))) (Entries s)))) |}.

