(* ===== verification/ApiData.v ===== *)
(** * The resources of the API server ([internal/api])

    The records that the server stores as JSON files, with the source's fields; a
    pointer is an option, a time is in nanoseconds since the epoch. *)
From stdpp Require Import strings.
From S2P Require Import Prelude Float.
Local Open Scope Z_scope.

Definition time : Type := Z.

(** The zero [time.Time], the first instant of year 1. *)
Definition zero_time : time := -62135596800 * 1000000000.

(** ** Environments (environments.go) *)

Record ImageRef := mkImageRef { im_Name : string; im_Ref : string }.
#[export] Instance ImageRef_eta : Eta ImageRef := mkEta _ (λ x, mkImageRef (im_Name x) (im_Ref x)).

Record NodeDef := mkNodeDef { n_Name : string; n_Image : string; n_Binary : string; n_Args : list string; n_Env : gmap string
  string; n_ReadyProbe : string; n_Daemon : option bool }.
#[export] Instance NodeDef_eta : Eta NodeDef := mkEta _ (λ x, mkNodeDef (n_Name x) (n_Image x) (n_Binary x) (n_Args x) (n_Env x)
  (n_ReadyProbe x) (n_Daemon x)).

Record ResourceLimits := mkResourceLimits { rl_MemoryMB : Z; rl_VCPUs : Z }.
#[export] Instance ResourceLimits_eta : Eta ResourceLimits := mkEta _ (λ x, mkResourceLimits (rl_MemoryMB x) (rl_VCPUs x)).

Record Environment := mkEnvironment { env_ID : string; env_ProjectID : string; env_Name : string; env_Backend : string;
  env_ComposeFile : string; env_ComposeContent : string; env_Images : list ImageRef; env_Nodes : list NodeDef; env_TestDir :
  string; env_Resources : ResourceLimits; env_Version : Z; env_CreatedAt : time; env_UpdatedAt : time }.
#[export] Instance Environment_eta : Eta Environment := mkEta _ (λ x, mkEnvironment (env_ID x) (env_ProjectID x) (env_Name x)
  (env_Backend x) (env_ComposeFile x) (env_ComposeContent x) (env_Images x) (env_Nodes x) (env_TestDir x) (env_Resources x)
  (env_Version x) (env_CreatedAt x) (env_UpdatedAt x)).

(** ** Projects (projects.go) *)

Record ProjectStats := mkProjectStats { ps_Tests : Z; ps_ActiveRuns : Z; ps_TotalFindings : Z }.
#[export] Instance ProjectStats_eta : Eta ProjectStats := mkEta _ (λ x, mkProjectStats (ps_Tests x) (ps_ActiveRuns x)
  (ps_TotalFindings x)).

Record Project := mkProject { proj_ID : string; proj_Name : string; proj_Description : string; proj_CreatedAt : time;
  proj_UpdatedAt : time; proj_Stats : ProjectStats }.
#[export] Instance Project_eta : Eta Project := mkEta _ (λ x, mkProject (proj_ID x) (proj_Name x) (proj_Description x)
  (proj_CreatedAt x) (proj_UpdatedAt x) (proj_Stats x)).

(** ** Findings (findings.go) *)

Record FindingCounts := mkFindingCounts { fc_New : Z; fc_Ongoing : Z; fc_Resolved : Z; fc_Rare : Z }.
#[export] Instance FindingCounts_eta : Eta FindingCounts := mkEta _ (λ x, mkFindingCounts (fc_New x) (fc_Ongoing x) (fc_Resolved
  x) (fc_Rare x)).

Record ActiveFault := mkActiveFault { af_Kind : string; af_Targets : list string; af_StartedAtStep : Z }.
#[export] Instance ActiveFault_eta : Eta ActiveFault := mkEta _ (λ x, mkActiveFault (af_Kind x) (af_Targets x) (af_StartedAtStep
  x)).

Record FaultContext := mkFaultContext { fx_ActiveFaults : list ActiveFault }.
#[export] Instance FaultContext_eta : Eta FaultContext := mkEta _ (λ x, mkFaultContext (fx_ActiveFaults x)).

Record BugReport := mkBugReport { br_MeanTimeToBugSec : float64; br_PSurvival : float64; br_TotalOccurrences : Z;
  br_TotalRunsSinceFirst : Z }.
#[export] Instance BugReport_eta : Eta BugReport := mkEta _ (λ x, mkBugReport (br_MeanTimeToBugSec x) (br_PSurvival x)
  (br_TotalOccurrences x) (br_TotalRunsSinceFirst x)).

Record FindingExample := mkFindingExample { fe_RunID : string; fe_SnapshotID : string; fe_VTimeNS : Z; fe_Context : list (string
  * any) }.
#[export] Instance FindingExample_eta : Eta FindingExample := mkEta _ (λ x, mkFindingExample (fe_RunID x) (fe_SnapshotID x)
  (fe_VTimeNS x) (fe_Context x)).

Record Finding := mkFinding { f_ID : string; f_ProjectID : string; f_TestID : string; f_RunID : string; f_Source : string;
  f_Status : string; f_AssertType : string; f_Property : string; f_Message : string; f_Fingerprint : string; f_SnapshotID :
  string; f_Step : Z; f_VTimeNS : Z; f_ReplayToken : string; f_FaultContext : option FaultContext; f_BugReport : option
  BugReport; f_Examples : list FindingExample; f_Occurrences : Z; f_Notes : string; f_Assignee : string; f_FirstSeenAt : time;
  f_LastSeenAt : time }.
#[export] Instance Finding_eta : Eta Finding := mkEta _ (λ x, mkFinding (f_ID x) (f_ProjectID x) (f_TestID x) (f_RunID x)
  (f_Source x) (f_Status x) (f_AssertType x) (f_Property x) (f_Message x) (f_Fingerprint x) (f_SnapshotID x) (f_Step x)
  (f_VTimeNS x) (f_ReplayToken x) (f_FaultContext x) (f_BugReport x) (f_Examples x) (f_Occurrences x) (f_Notes x) (f_Assignee x)
  (f_FirstSeenAt x) (f_LastSeenAt x)).

(** ** Assertions and coverage (assertions.go) *)

Record Assertion := mkAssertion { a_ID : string; a_TestID : string; a_Type : string; a_Message : string; a_Status : string;
  a_TotalEvals : Z; a_PassedEvals : Z; a_FailedEvals : Z; a_SatisfiedCount : Z; a_SatisfactionRate : float64; a_FindingID :
  string; a_FirstFailureRun : string; a_FirstFailureVTimeNS : Z; a_LastEvaluatedRun : string; a_LastSatisfiedRun : string;
  a_Trend : string; a_Group : string; a_Description : string }.
#[export] Instance Assertion_eta : Eta Assertion := mkEta _ (λ x, mkAssertion (a_ID x) (a_TestID x) (a_Type x) (a_Message x)
  (a_Status x) (a_TotalEvals x) (a_PassedEvals x) (a_FailedEvals x) (a_SatisfiedCount x) (a_SatisfactionRate x) (a_FindingID x)
  (a_FirstFailureRun x) (a_FirstFailureVTimeNS x) (a_LastEvaluatedRun x) (a_LastSatisfiedRun x) (a_Trend x) (a_Group x)
  (a_Description x)).

Record AssertionCounts := mkAssertionCounts { ac_Total : Z; ac_Passing : Z; ac_Failing : Z; ac_Satisfied : Z }.
#[export] Instance AssertionCounts_eta : Eta AssertionCounts := mkEta _ (λ x, mkAssertionCounts (ac_Total x) (ac_Passing x)
  (ac_Failing x) (ac_Satisfied x)).

Record AssertionSummary := mkAssertionSummary { as_Always : AssertionCounts; as_Sometimes : AssertionCounts; as_Reachable :
  AssertionCounts }.
#[export] Instance AssertionSummary_eta : Eta AssertionSummary := mkEta _ (λ x, mkAssertionSummary (as_Always x) (as_Sometimes
  x) (as_Reachable x)).

Record RunCovStats := mkRunCovStats { rc_RunID : string; rc_NewEdges : Z; rc_Cumulative : Z; rc_At : time }.
#[export] Instance RunCovStats_eta : Eta RunCovStats := mkEta _ (λ x, mkRunCovStats (rc_RunID x) (rc_NewEdges x) (rc_Cumulative
  x) (rc_At x)).

Record Coverage := mkCoverage { cov_TestID : string; cov_TotalEdges : Z; cov_CumulativeNewEdges : Z; cov_CoveragePercentage :
  float64; cov_PerRun : list RunCovStats }.
#[export] Instance Coverage_eta : Eta Coverage := mkEta _ (λ x, mkCoverage (cov_TestID x) (cov_TotalEdges x)
  (cov_CumulativeNewEdges x) (cov_CoveragePercentage x) (cov_PerRun x)).

(** ** Tests (tests.go) *)

Record TestSchedule := mkTestSchedule { ts_Mode : string; ts_Parallelism : Z; ts_Cron : string; ts_Source : string;
  ts_CurrentRunID : string; ts_TotalRuns : Z; ts_CompletedRuns : Z }.
#[export] Instance TestSchedule_eta : Eta TestSchedule := mkEta _ (λ x, mkTestSchedule (ts_Mode x) (ts_Parallelism x) (ts_Cron
  x) (ts_Source x) (ts_CurrentRunID x) (ts_TotalRuns x) (ts_CompletedRuns x)).

Record ExplorationCfg := mkExplorationCfg { xc_Strategy : string; xc_MaxStatesPerRun : Z; xc_MaxDepth : Z; xc_BranchFactor : Z;
  xc_RunDuration : string }.
#[export] Instance ExplorationCfg_eta : Eta ExplorationCfg := mkEta _ (λ x, mkExplorationCfg (xc_Strategy x) (xc_MaxStatesPerRun
  x) (xc_MaxDepth x) (xc_BranchFactor x) (xc_RunDuration x)).

Record NetworkFault := mkNetworkFault { nf_DropRate : float64; nf_DelayMin : string; nf_DelayMax : string }.
#[export] Instance NetworkFault_eta : Eta NetworkFault := mkEta _ (λ x, mkNetworkFault (nf_DropRate x) (nf_DelayMin x)
  (nf_DelayMax x)).

Record NodeFault := mkNodeFault { of_HangRate : float64; of_HangMin : string; of_HangMax : string; of_TerminateRate : float64 }.
#[export] Instance NodeFault_eta : Eta NodeFault := mkEta _ (λ x, mkNodeFault (of_HangRate x) (of_HangMin x) (of_HangMax x)
  (of_TerminateRate x)).

Record FaultCfg := mkFaultCfg { fg_Enabled : bool; fg_Network : NetworkFault; fg_Node : NodeFault; fg_SwarmTesting : bool;
  fg_AdaptiveFaults : bool }.
#[export] Instance FaultCfg_eta : Eta FaultCfg := mkEta _ (λ x, mkFaultCfg (fg_Enabled x) (fg_Network x) (fg_Node x)
  (fg_SwarmTesting x) (fg_AdaptiveFaults x)).

Record TestStats := mkTestStats { st_TotalStatesExplored : Z; st_TotalEdges : Z; st_Findings : FindingCounts; st_Assertions :
  AssertionSummary }.
#[export] Instance TestStats_eta : Eta TestStats := mkEta _ (λ x, mkTestStats (st_TotalStatesExplored x) (st_TotalEdges x)
  (st_Findings x) (st_Assertions x)).

Record Test := mkTest { t_ID : string; t_ProjectID : string; t_EnvironmentID : string; t_Name : string; t_Description : string;
  t_Status : string; t_Schedule : TestSchedule; t_Exploration : ExplorationCfg; t_Faults : FaultCfg; t_Stats : TestStats;
  t_CreatedAt : time; t_UpdatedAt : time; t_StartedAt : option time }.
#[export] Instance Test_eta : Eta Test := mkEta _ (λ x, mkTest (t_ID x) (t_ProjectID x) (t_EnvironmentID x) (t_Name x)
  (t_Description x) (t_Status x) (t_Schedule x) (t_Exploration x) (t_Faults x) (t_Stats x) (t_CreatedAt x) (t_UpdatedAt x)
  (t_StartedAt x)).

(** ** Runs (runs.go) *)

Record RunSummary := mkRunSummary { rs_TotalStates : Z; rs_MaxDepth : Z; rs_FindingsDiscovered : Z }.
#[export] Instance RunSummary_eta : Eta RunSummary := mkEta _ (λ x, mkRunSummary (rs_TotalStates x) (rs_MaxDepth x)
  (rs_FindingsDiscovered x)).

Record RunCoverage := mkRunCoverage { rv_NewEdges : Z; rv_TotalEdgesAfter : Z; rv_CumulativePercentage : float64 }.
#[export] Instance RunCoverage_eta : Eta RunCoverage := mkEta _ (λ x, mkRunCoverage (rv_NewEdges x) (rv_TotalEdgesAfter x)
  (rv_CumulativePercentage x)).

Record RunInternal := mkRunInternal { ri_Seed : Z; ri_Backend : string; ri_EnvironmentVersion : string }.
#[export] Instance RunInternal_eta : Eta RunInternal := mkEta _ (λ x, mkRunInternal (ri_Seed x) (ri_Backend x)
  (ri_EnvironmentVersion x)).

Record Run := mkRun { r_ID : string; r_TestID : string; r_ProjectID : string; r_Status : string; r_Trigger : string; r_Sequence
  : Z; r_Source : string; r_IsEphemeral : bool; r_Description : string; r_Summary : option RunSummary; r_Assertions : option
  AssertionSummary; r_Coverage : option RunCoverage; r_Internal : RunInternal; r_CreatedAt : time; r_StartedAt : option time;
  r_CompletedAt : option time; r_Duration : string; r_Stream : string }.
#[export] Instance Run_eta : Eta Run := mkEta _ (λ x, mkRun (r_ID x) (r_TestID x) (r_ProjectID x) (r_Status x) (r_Trigger x)
  (r_Sequence x) (r_Source x) (r_IsEphemeral x) (r_Description x) (r_Summary x) (r_Assertions x) (r_Coverage x) (r_Internal x)
  (r_CreatedAt x) (r_StartedAt x) (r_CompletedAt x) (r_Duration x) (r_Stream x)).

(** ** Reports (reports.go); the rendered content is not stored *)

Record ReportResource := mkReportResource { rp_ID : string; rp_TestID : string; rp_ProjectID : string; rp_Format : string;
  rp_Status : string; rp_Sections : list string; rp_FileURL : string; rp_CreatedAt : time }.
#[export] Instance ReportResource_eta : Eta ReportResource := mkEta _ (λ x, mkReportResource (rp_ID x) (rp_TestID x)
  (rp_ProjectID x) (rp_Format x) (rp_Status x) (rp_Sections x) (rp_FileURL x) (rp_CreatedAt x)).

(** ** Webhooks (webhooks.go) *)

Record Webhook := mkWebhook { wh_ID : string; wh_ProjectID : string; wh_URL : string; wh_Events : list string; wh_Active : bool;
  wh_CreatedAt : time; wh_UpdatedAt : time }.
#[export] Instance Webhook_eta : Eta Webhook := mkEta _ (λ x, mkWebhook (wh_ID x) (wh_ProjectID x) (wh_URL x) (wh_Events x)
  (wh_Active x) (wh_CreatedAt x) (wh_UpdatedAt x)).

Record WebhookDelivery := mkWebhookDelivery { wd_ID : string; wd_WebhookID : string; wd_EventType : string; wd_Status : string;
  wd_StatusCode : Z; wd_Attempts : Z; wd_DeliveredAt : option time; wd_CreatedAt : time }.
#[export] Instance WebhookDelivery_eta : Eta WebhookDelivery := mkEta _ (λ x, mkWebhookDelivery (wd_ID x) (wd_WebhookID x)
  (wd_EventType x) (wd_Status x) (wd_StatusCode x) (wd_Attempts x) (wd_DeliveredAt x) (wd_CreatedAt x)).

(** ** Replays (replays.go) *)

Record VMState := mkVMState { vs_SnapshotID : string; vs_Step : Z; vs_VTimeNS : Z }.
#[export] Instance VMState_eta : Eta VMState := mkEta _ (λ x, mkVMState (vs_SnapshotID x) (vs_Step x) (vs_VTimeNS x)).

Record DebugInfo := mkDebugInfo { di_ConnectCommand : string }.
#[export] Instance DebugInfo_eta : Eta DebugInfo := mkEta _ (λ x, mkDebugInfo (di_ConnectCommand x)).

Record Replay := mkReplay { rpl_ID : string; rpl_ProjectID : string; rpl_FindingID : string; rpl_ReplayToken : string;
  rpl_Status : string; rpl_Mode : string; rpl_ViolationReproduced : bool; rpl_VMState : option VMState; rpl_Debugger : option
  DebugInfo; rpl_CreatedAt : time; rpl_ExpiresAt : time; rpl_Stream : string }.
#[export] Instance Replay_eta : Eta Replay := mkEta _ (λ x, mkReplay (rpl_ID x) (rpl_ProjectID x) (rpl_FindingID x)
  (rpl_ReplayToken x) (rpl_Status x) (rpl_Mode x) (rpl_ViolationReproduced x) (rpl_VMState x) (rpl_Debugger x) (rpl_CreatedAt x)
  (rpl_ExpiresAt x) (rpl_Stream x)).

(** ** Notebooks (notebooks.go) *)

Record Notebook := mkNotebook { nb_ID : string; nb_ProjectID : string; nb_FindingID : string; nb_RunID : string; nb_SnapshotID :
  string; nb_SessionID : string; nb_Status : string; nb_CreatedAt : time; nb_ExpiresAt : time; nb_Stream : string;
  nb_LiveSessionID : string; nb_LiveStatus : string; nb_ArtifactDir : string; nb_ConfigPath : string; nb_LiveBackend : string }.
#[export] Instance Notebook_eta : Eta Notebook := mkEta _ (λ x, mkNotebook (nb_ID x) (nb_ProjectID x) (nb_FindingID x) (nb_RunID
  x) (nb_SnapshotID x) (nb_SessionID x) (nb_Status x) (nb_CreatedAt x) (nb_ExpiresAt x) (nb_Stream x) (nb_LiveSessionID x)
  (nb_LiveStatus x) (nb_ArtifactDir x) (nb_ConfigPath x) (nb_LiveBackend x)).

(** ** Keys (auth.go, store.go) *)

Record APIKey := mkAPIKey { k_ID : string; k_Name : string; k_Type : string; k_Prefix : string; k_LastFour : string; k_CreatedAt
  : time; k_ExpiresAt : option time }.
#[export] Instance APIKey_eta : Eta APIKey := mkEta _ (λ x, mkAPIKey (k_ID x) (k_Name x) (k_Type x) (k_Prefix x) (k_LastFour x)
  (k_CreatedAt x) (k_ExpiresAt x)).

Record storedAPIKey := mkstoredAPIKey { sk_APIKey : APIKey; sk_Hash : string }.
#[export] Instance storedAPIKey_eta : Eta storedAPIKey := mkEta _ (λ x, mkstoredAPIKey (sk_APIKey x) (sk_Hash x)).

(** ** Settings (settings.go) *)

Record ExplorationSettings := mkExplorationSettings { es_DefaultStrategy : string; es_DefaultMaxStatesPerRun : Z;
  es_DefaultRunDuration : string; es_DefaultBranchFactor : Z }.
#[export] Instance ExplorationSettings_eta : Eta ExplorationSettings := mkEta _ (λ x, mkExplorationSettings (es_DefaultStrategy
  x) (es_DefaultMaxStatesPerRun x) (es_DefaultRunDuration x) (es_DefaultBranchFactor x)).

Record FaultSettings := mkFaultSettings { fs_DefaultEnabled : bool; fs_DefaultNetworkDropRate : float64; fs_DefaultSwarmTesting
  : bool; fs_DefaultAdaptiveFaults : bool }.
#[export] Instance FaultSettings_eta : Eta FaultSettings := mkEta _ (λ x, mkFaultSettings (fs_DefaultEnabled x)
  (fs_DefaultNetworkDropRate x) (fs_DefaultSwarmTesting x) (fs_DefaultAdaptiveFaults x)).

Record NotificationSettings := mkNotificationSettings { ns_EmailRecipients : list string; ns_ReportFormat : string;
  ns_AutoReportOnTestStop : bool }.
#[export] Instance NotificationSettings_eta : Eta NotificationSettings := mkEta _ (λ x, mkNotificationSettings
  (ns_EmailRecipients x) (ns_ReportFormat x) (ns_AutoReportOnTestStop x)).

Record RetentionSettings := mkRetentionSettings { rt_FindingsDays : Z; rt_ReportsDays : Z; rt_SnapshotsDays : Z; rt_RunLogsDays
  : Z }.
#[export] Instance RetentionSettings_eta : Eta RetentionSettings := mkEta _ (λ x, mkRetentionSettings (rt_FindingsDays x)
  (rt_ReportsDays x) (rt_SnapshotsDays x) (rt_RunLogsDays x)).

Record ContinuousSettings := mkContinuousSettings { cs_MaxParallelRunsPerProject : Z; cs_AutoPauseAfterFindings : Z }.
#[export] Instance ContinuousSettings_eta : Eta ContinuousSettings := mkEta _ (λ x, mkContinuousSettings
  (cs_MaxParallelRunsPerProject x) (cs_AutoPauseAfterFindings x)).

Record Settings := mkSettings { s_Exploration : ExplorationSettings; s_Faults : FaultSettings; s_Notifications :
  NotificationSettings; s_Retention : RetentionSettings; s_Continuous : ContinuousSettings }.
#[export] Instance Settings_eta : Eta Settings := mkEta _ (λ x, mkSettings (s_Exploration x) (s_Faults x) (s_Notifications x)
  (s_Retention x) (s_Continuous x)).
