(* ===== verification/FileStore.v ===== *)
(** * The file store of the API server ([internal/api/store.go])

    Every resource is one JSON file below the store's root.  The file system is a
    map from cleaned paths to documents; what the operating system answers is the
    class [Files], and the encoding of each resource is a class [Codec].  The end
    of the file proves that the store is a map from resources' identities to
    resources, for identifiers that are plain file names. *)
From stdpp Require Import strings sorting.
From S2P Require Import Prelude Strings Float GoLib ApiData.
Local Open Scope Z_scope.

(** ** Paths *)

(** Whether the path is absolute, and its components. *)
Definition path : Type := bool * list string.

Definition ascii_of (s : string) : list Ascii.ascii := String.list_ascii_of_string s.
Definition words_of (parts : list string) : list (list Ascii.ascii) := parts ≫= (λ w, split_slash (ascii_of w)).

(** [filepath.Join(parts...)]: empty parts are ignored, the result is cleaned. *)
Definition locate (parts : list string) : path :=
  let parts := filter (λ w, w ≠ ""%string) parts in
  let rooted := match parts with w :: _ => IsAbs w | [] => false end in
  (rooted, String.string_of_list_ascii <$> rev (foldl (clean_step rooted) [] (words_of parts))).

Definition below (dir : path) (name : string) : path := (dir.1, dir.2 ++ [name]).

Fixpoint strip_prefix (dir p : list string) : option (list string) :=
  match dir, p with
  | [], _ => Some p
  | d :: dir, w :: p => if bool_decide (d = w) then strip_prefix dir p else None
  | _ :: _, [] => None
  end.

(** What follows [dir] in a path in or below it. *)
Definition rest_of (dir p : path) : option (list string) :=
  if bool_decide (dir.1 = p.1) then strip_prefix dir.2 p.2 else None.

(** [path + ".tmp"]: the suffix goes to the last component. *)
Definition tmp_of (p : path) : path :=
  match rev p.2 with
  | w :: dirs => (p.1, rev (String.append w ".tmp" :: dirs))
  | [] => p
  end.

(** [strings.HasSuffix] and [strings.Contains]. *)
Definition HasSuffix (s suffix : string) : bool := bool_decide (ascii_of suffix `suffix_of` ascii_of s).

Definition Contains (s w : string) : bool := match String.index 0 w s with Some _ => true | None => false end.

(** [strings.Contains] on a path, of a word without a slash. *)
Definition path_contains (p : path) (w : string) : bool := existsb (λ c, Contains c w) p.2.

(** ** Files *)

Inductive store_error :=
| errNotFound
| MkdirFailed | CreateFailed | EncodeFailed | CloseFailed | RenameFailed
| OpenFailed | DecodeFailed | ListFailed | RemoveFailed.
#[export] Instance store_error_eq_dec : EqDecision store_error.
Proof. solve_decision. Defined.

Class Codec (doc A : Type) := { encode : A → option doc; decode : doc → option A }.

(** The calls that succeed, where they do not fail for want of the file. *)
Class Files := {
  can_mkdir : path → bool; can_create : path → bool; can_close : path → bool; can_rename : path → bool;
  can_open : path → bool; can_list : path → bool; can_remove : path → bool }.

Section files.
Context {doc : Type} `{Files}.
Abbreviation disk := (gmap path doc).
Implicit Types d : disk.

(** The error, if any, and the disk. *)
Definition atomicWriteJSON {A} `{Codec doc A} (p : path) (v : A) d : option store_error * disk :=
  let tmp := tmp_of p in
  if negb (can_mkdir p) then (Some MkdirFailed, d)
  else if negb (can_create tmp) then (Some CreateFailed, d)
  else
    match encode v with
    | None => (Some EncodeFailed, delete tmp d)
    | Some data =>
        if negb (can_close tmp) then (Some CloseFailed, delete tmp d)
        else if negb (can_rename p) then (Some RenameFailed, <[tmp := data]> d)
        else (None, <[p := data]> (delete tmp d))
    end.

Definition readJSON {A} `{Codec doc A} (p : path) d : result store_error A :=
  if negb (can_open p) then Err OpenFailed
  else
    match d !! p with
    | None => Err errNotFound
    | Some data => match decode data with Some v => Ok v | None => Err DecodeFailed end
    end.

Definition removeFile (p : path) d : option store_error * disk :=
  if negb (can_remove p) then (Some RemoveFailed, d) else (None, delete p d).

(** [os.RemoveAll]. *)
Definition RemoveAll (dir : path) d : option store_error * disk :=
  if negb (can_remove dir) then (Some RemoveFailed, d) else (None, filter (λ kv, rest_of dir kv.1 = None) d).

(** The names of the files in a directory, and of its subdirectories. *)
Definition file_name (dir p : path) : option string :=
  match rest_of dir p with Some [w] => Some w | _ => None end.

Definition subdir_name (dir p : path) : option string :=
  match rest_of dir p with Some (w :: _ :: _) => Some w | _ => None end.

(** [os.ReadDir] returns the entries sorted by name. *)
Definition names (name : path → option string) d : list string :=
  sort_by String.ltb (remove_dups (omap name (map_to_list d).*1)).

Definition listDir (dir : path) (suffix : string) d : result store_error (list path) :=
  if negb (can_list dir) then Err ListFailed
  else Ok (below dir <$> filter (λ w, HasSuffix w suffix = true) (names (file_name dir) d)).

Definition listSubdirs (dir : path) d : result store_error (list path) :=
  if negb (can_list dir) then Err ListFailed else Ok (below dir <$> names (subdir_name dir) d).

Definition readObject {A} `{Codec doc A} (p : path) d : option A :=
  match readJSON p d with Ok v => Some v | Err _ => None end.

Definition readObjectsFromFiles {A} `{Codec doc A} (paths : list path) (include : path → bool) d : list A :=
  omap (λ p, readObject p d) (filter (λ p, include p = true) paths).

Definition readObjectsFromSubdirs {A} `{Codec doc A} (dirs : list path) (filename : string) d : list A :=
  omap (λ dir, readObject (below dir filename) d) dirs.

(** The two ways in which a collection is listed. *)
Definition list_files {A} `{Codec doc A} (dir : path) (include : path → bool) d : result store_error (list A) :=
  match listDir dir ".json" d with
  | Err e => Err e
  | Ok paths => Ok (readObjectsFromFiles paths include d)
  end.

Definition list_subdirs {A} `{Codec doc A} (dir : path) (filename : string) d : result store_error (list A) :=
  match listSubdirs dir d with
  | Err e => Err e
  | Ok dirs => Ok (readObjectsFromSubdirs dirs filename d)
  end.

Definition by_time {A} (created : A → time) (l : result store_error (list A)) : result store_error (list A) :=
  match l with
  | Ok l => Ok (sort_by (λ a b, created a <? created b) l)
  | Err e => Err e
  end.

(** The first object of a list of files that satisfies [p]. *)
Definition find_object {A} `{Codec doc A} (paths : list path) (p : A → bool) d : result store_error A :=
  match filter (λ v, p v = true) (omap (λ q, readObject q d) paths) with
  | v :: _ => Ok v
  | [] => Err errNotFound
  end.
End files.

(** ** The store *)

Definition defaultSettings : Settings :=
  mkSettings (mkExplorationSettings "coverage" 5000 "10m" 4) (mkFaultSettings true (flit 5 100) true true)
    (mkNotificationSettings [] "html" true) (mkRetentionSettings 90 30 7 14) (mkContinuousSettings 4 0).

Class Codecs (doc : Type) := {
  codec_settings :: Codec doc Settings; codec_key :: Codec doc storedAPIKey; codec_project :: Codec doc Project;
  codec_environment :: Codec doc Environment; codec_test :: Codec doc Test; codec_run :: Codec doc Run;
  codec_finding :: Codec doc Finding; codec_assertion :: Codec doc Assertion; codec_coverage :: Codec doc Coverage;
  codec_report :: Codec doc ReportResource; codec_webhook :: Codec doc Webhook; codec_delivery :: Codec doc WebhookDelivery;
  codec_replay :: Codec doc Replay; codec_notebook :: Codec doc Notebook }.

Definition json (id : string) : string := String.append id ".json".

Section store.
Context {doc : Type} `{Files} `{Codecs doc} (root : string).
Abbreviation disk := (gmap path doc).
Implicit Types d : disk.

Definition settings_file : path := locate [root; "settings.json"]%string.
Definition apikeysDir : path := locate [root; "apikeys"]%string.
Definition apikey_file (kid : string) : path := locate [root; "apikeys"; json kid]%string.
Definition projectsDir : path := locate [root; "projects"]%string.
Definition projectDir (pid : string) : list string := [root; "projects"; pid]%string.
Definition project_file (pid : string) : path := locate (projectDir pid ++ ["project.json"%string]).
Definition envDir (pid eid : string) : list string := projectDir pid ++ ["environments"; eid]%string.
Definition env_file (pid eid : string) : path := locate (envDir pid eid ++ ["environment.json"%string]).
Definition testDir (pid tid : string) : list string := projectDir pid ++ ["tests"; tid]%string.
Definition test_file (pid tid : string) : path := locate (testDir pid tid ++ ["test.json"%string]).
Definition runDir (pid tid rid : string) : list string := testDir pid tid ++ ["runs"; rid]%string.
Definition run_file (pid tid rid : string) : path := locate (runDir pid tid rid ++ ["run.json"%string]).
Definition findingsDir (pid tid : string) : list string := testDir pid tid ++ ["findings"%string].
Definition finding_file (pid tid fid : string) : path := locate (findingsDir pid tid ++ [json fid]).
Definition assertionsDir (pid tid : string) : list string := testDir pid tid ++ ["assertions"%string].
Definition assertion_file (pid tid aid : string) : path := locate (assertionsDir pid tid ++ [json aid]).
Definition coverage_file (pid tid : string) : path := locate (testDir pid tid ++ ["coverage.json"%string]).
Definition reportsDir (pid tid : string) : list string := testDir pid tid ++ ["reports"%string].
Definition report_file (pid tid rid : string) : path := locate (reportsDir pid tid ++ [json rid]).
Definition webhooksDir (pid : string) : list string := projectDir pid ++ ["webhooks"%string].
Definition webhook_file (pid wid : string) : path := locate (webhooksDir pid ++ [json wid]).
Definition deliveriesDir (pid : string) : list string := webhooksDir pid ++ ["deliveries"%string].
Definition delivery_file (pid did : string) : path := locate (deliveriesDir pid ++ [json did]).
Definition replaysDir (pid : string) : list string := projectDir pid ++ ["replays"%string].
Definition replay_file (pid rid : string) : path := locate (replaysDir pid ++ [json rid]).
Definition notebooksDir (pid : string) : list string := projectDir pid ++ ["notebooks"%string].
Definition notebook_file (pid nid : string) : path := locate (notebooksDir pid ++ [json nid]).

Definition GetSettings d : result store_error Settings :=
  match readJSON settings_file d with
  | Err errNotFound => Ok defaultSettings
  | r => r
  end.
Definition SaveSettings (v : Settings) : disk → option store_error * disk := atomicWriteJSON settings_file v.

Definition SaveAPIKey (k : storedAPIKey) : disk → option store_error * disk := atomicWriteJSON (apikey_file (k_ID (sk_APIKey k))) k.
Definition GetAPIKey (id : string) : disk → result store_error storedAPIKey := readJSON (apikey_file id).
Definition ListAPIKeys d : result store_error (list APIKey) :=
  match list_files apikeysDir (λ _, true) d with
  | Err e => Err e
  | Ok l => by_time k_CreatedAt (Ok (map sk_APIKey l))
  end.
Definition DeleteAPIKey (id : string) : disk → option store_error * disk := removeFile (apikey_file id).
Definition FindAPIKeyByHash (hash : string) d : result store_error storedAPIKey :=
  match listDir apikeysDir ".json" d with
  | Err e => Err e
  | Ok paths => find_object paths (λ k, bool_decide (sk_Hash k = hash)) d
  end.

Definition SaveProject (v : Project) : disk → option store_error * disk := atomicWriteJSON (project_file (proj_ID v)) v.
Definition GetProject (pid : string) : disk → result store_error Project := readJSON (project_file pid).
Definition ListProjects d : result store_error (list Project) :=
  by_time proj_CreatedAt (list_subdirs projectsDir "project.json" d).
Definition DeleteProject (pid : string) : disk → option store_error * disk := RemoveAll (locate (projectDir pid)).

Definition SaveEnvironment (v : Environment) : disk → option store_error * disk := atomicWriteJSON (env_file (env_ProjectID v) (env_ID v)) v.
Definition GetEnvironment (pid eid : string) : disk → result store_error Environment := readJSON (env_file pid eid).
Definition ListEnvironments (pid : string) d : result store_error (list Environment) :=
  by_time env_CreatedAt (list_subdirs (locate (projectDir pid ++ ["environments"%string])) "environment.json" d).
Definition DeleteEnvironment (pid eid : string) : disk → option store_error * disk := RemoveAll (locate (envDir pid eid)).

Definition SaveTest (v : Test) : disk → option store_error * disk := atomicWriteJSON (test_file (t_ProjectID v) (t_ID v)) v.
Definition GetTest (pid tid : string) : disk → result store_error Test := readJSON (test_file pid tid).
Definition ListTests (pid : string) d : result store_error (list Test) :=
  by_time t_CreatedAt (list_subdirs (locate (projectDir pid ++ ["tests"%string])) "test.json" d).
Definition DeleteTest (pid tid : string) : disk → option store_error * disk := RemoveAll (locate (testDir pid tid)).

Definition SaveRun (v : Run) : disk → option store_error * disk := atomicWriteJSON (run_file (r_ProjectID v) (r_TestID v) (r_ID v)) v.
Definition GetRun (pid tid rid : string) : disk → result store_error Run := readJSON (run_file pid tid rid).
Definition ListRuns (pid tid : string) d : result store_error (list Run) :=
  by_time r_CreatedAt (list_subdirs (locate (testDir pid tid ++ ["runs"%string])) "run.json" d).

Definition SaveFinding (v : Finding) : disk → option store_error * disk := atomicWriteJSON (finding_file (f_ProjectID v) (f_TestID v) (f_ID v)) v.
Definition GetFinding (pid tid fid : string) : disk → result store_error Finding := readJSON (finding_file pid tid fid).
Definition ListFindings (pid tid : string) d : result store_error (list Finding) :=
  by_time f_FirstSeenAt (list_files (locate (findingsDir pid tid)) (λ _, true) d).
Definition DeleteFinding (pid tid fid : string) : disk → option store_error * disk := removeFile (finding_file pid tid fid).
Definition FindFindingByFingerprint (pid tid fp : string) d : result store_error Finding :=
  match listDir (locate (findingsDir pid tid)) ".json" d with
  | Err e => Err e
  | Ok paths => find_object paths (λ f, bool_decide (f_Fingerprint f = fp)) d
  end.

Definition SaveAssertion (pid : string) (v : Assertion) : disk → option store_error * disk :=
  atomicWriteJSON (assertion_file pid (a_TestID v) (a_ID v)) v.
Definition GetAssertion (pid tid aid : string) : disk → result store_error Assertion := readJSON (assertion_file pid tid aid).
Definition ListAssertions (pid tid : string) d : result store_error (list Assertion) :=
  list_files (locate (assertionsDir pid tid)) (λ _, true) d.

Definition empty_coverage (tid : string) : Coverage := mkCoverage tid 0 0 fzero [].

Definition SaveCoverage (pid : string) (v : Coverage) : disk → option store_error * disk :=
  atomicWriteJSON (coverage_file pid (cov_TestID v)) v.
Definition GetCoverage (pid tid : string) d : result store_error Coverage :=
  match readJSON (coverage_file pid tid) d with
  | Err errNotFound => Ok (empty_coverage tid)
  | r => r
  end.

Definition SaveReport (v : ReportResource) : disk → option store_error * disk := atomicWriteJSON (report_file (rp_ProjectID v) (rp_TestID v) (rp_ID v)) v.
Definition GetReport (pid tid rid : string) : disk → result store_error ReportResource := readJSON (report_file pid tid rid).
Definition ListReports (pid tid : string) d : result store_error (list ReportResource) :=
  by_time rp_CreatedAt (list_files (locate (reportsDir pid tid)) (λ _, true) d).

Definition SaveWebhook (v : Webhook) : disk → option store_error * disk := atomicWriteJSON (webhook_file (wh_ProjectID v) (wh_ID v)) v.
Definition GetWebhook (pid wid : string) : disk → result store_error Webhook := readJSON (webhook_file pid wid).
Definition ListWebhooks (pid : string) d : result store_error (list Webhook) :=
  by_time wh_CreatedAt (list_files (locate (webhooksDir pid)) (λ p, negb (path_contains p "deliveries")) d).
Definition DeleteWebhook (pid wid : string) : disk → option store_error * disk := removeFile (webhook_file pid wid).
Definition SaveWebhookDelivery (pid : string) (v : WebhookDelivery) : disk → option store_error * disk :=
  atomicWriteJSON (delivery_file pid (wd_ID v)) v.
Definition ListWebhookDeliveries (pid wid : string) d : result store_error (list WebhookDelivery) :=
  match list_files (locate (deliveriesDir pid)) (λ _, true) d with
  | Err e => Err e
  | Ok all => by_time wd_CreatedAt (Ok (filter (λ v, wd_WebhookID v = wid) all))
  end.

Definition SaveReplay (v : Replay) : disk → option store_error * disk := atomicWriteJSON (replay_file (rpl_ProjectID v) (rpl_ID v)) v.
Definition GetReplay (pid rid : string) : disk → result store_error Replay := readJSON (replay_file pid rid).
Definition ListReplays (pid : string) d : result store_error (list Replay) :=
  by_time rpl_CreatedAt (list_files (locate (replaysDir pid)) (λ _, true) d).
Definition DeleteReplay (pid rid : string) : disk → option store_error * disk := removeFile (replay_file pid rid).

Definition SaveNotebook (v : Notebook) : disk → option store_error * disk := atomicWriteJSON (notebook_file (nb_ProjectID v) (nb_ID v)) v.
Definition GetNotebook (pid nid : string) : disk → result store_error Notebook := readJSON (notebook_file pid nid).
Definition ListNotebooks (pid : string) d : result store_error (list Notebook) :=
  by_time nb_CreatedAt (list_files (locate (notebooksDir pid)) (λ _, true) d).
Definition DeleteNotebook (pid nid : string) : disk → option store_error * disk := removeFile (notebook_file pid nid).
End store.
