(* ===== verification/FileStoreProps.v ===== *)
(** * The file store is a map

    [loc] is the identity of a resource and [value] a resource of any kind; the
    specification of the store is a finite map from the former to the latter.
    For identifiers that are plain file names the methods of [FileStore] refine
    it; identifiers that are not reach files of other resources. *)
From stdpp Require Import strings sorting.
From S2P Require Import Prelude Strings Float GoLib ApiData FileStore.
Local Open Scope Z_scope.

(** ** Specification *)

Inductive loc :=
| LSettings | LKey (kid : string) | LProject (pid : string) | LEnv (pid eid : string) | LTest (pid tid : string)
| LRun (pid tid rid : string) | LFinding (pid tid fid : string) | LAssertion (pid tid aid : string) | LCoverage (pid tid : string)
| LReport (pid tid rid : string) | LWebhook (pid wid : string) | LDelivery (pid did : string) | LReplay (pid rid : string)
| LNotebook (pid nid : string).

Inductive value :=
| VSettings (v : Settings) | VKey (v : storedAPIKey) | VProject (v : Project) | VEnv (v : Environment) | VTest (v : Test)
| VRun (v : Run) | VFinding (v : Finding) | VAssertion (v : Assertion) | VCoverage (v : Coverage)
| VReport (v : ReportResource) | VWebhook (v : Webhook) | VDelivery (v : WebhookDelivery) | VReplay (v : Replay)
| VNotebook (v : Notebook).

(** Constructor and identifiers. *)
Definition loc_parts (l : loc) : nat * list string :=
  match l with
  | LSettings => (0%nat, []) | LKey k => (1%nat, [k]) | LProject p => (2%nat, [p]) | LEnv p e => (3%nat, [p; e])
  | LTest p t => (4%nat, [p; t]) | LRun p t r => (5%nat, [p; t; r]) | LFinding p t f => (6%nat, [p; t; f])
  | LAssertion p t a => (7%nat, [p; t; a]) | LCoverage p t => (8%nat, [p; t]) | LReport p t r => (9%nat, [p; t; r])
  | LWebhook p w => (10%nat, [p; w]) | LDelivery p d => (11%nat, [p; d]) | LReplay p r => (12%nat, [p; r])
  | LNotebook p n => (13%nat, [p; n])
  end.

Definition loc_of_parts (x : nat * list string) : loc :=
  match x with
  | (1%nat, [k]) => LKey k | (2%nat, [p]) => LProject p | (3%nat, [p; e]) => LEnv p e | (4%nat, [p; t]) => LTest p t
  | (5%nat, [p; t; r]) => LRun p t r | (6%nat, [p; t; f]) => LFinding p t f | (7%nat, [p; t; a]) => LAssertion p t a
  | (8%nat, [p; t]) => LCoverage p t | (9%nat, [p; t; r]) => LReport p t r | (10%nat, [p; w]) => LWebhook p w
  | (11%nat, [p; d]) => LDelivery p d | (12%nat, [p; r]) => LReplay p r | (13%nat, [p; n]) => LNotebook p n
  | _ => LSettings
  end.

Lemma loc_parts_inj l : loc_of_parts (loc_parts l) = l.
Proof. by destruct l. Qed.

#[export] Instance loc_eq_dec : EqDecision loc.
Proof. solve_decision. Defined.
#[export] Instance loc_countable : Countable loc := inj_countable' loc_parts loc_of_parts loc_parts_inj.

(** The file of a resource, below the root. *)
Definition place (l : loc) : list string :=
  match l with
  | LSettings => ["settings.json"]
  | LKey k => ["apikeys"; json k]
  | LProject p => ["projects"; p; "project.json"]
  | LEnv p e => ["projects"; p; "environments"; e; "environment.json"]
  | LTest p t => ["projects"; p; "tests"; t; "test.json"]
  | LRun p t r => ["projects"; p; "tests"; t; "runs"; r; "run.json"]
  | LFinding p t f => ["projects"; p; "tests"; t; "findings"; json f]
  | LAssertion p t a => ["projects"; p; "tests"; t; "assertions"; json a]
  | LCoverage p t => ["projects"; p; "tests"; t; "coverage.json"]
  | LReport p t r => ["projects"; p; "tests"; t; "reports"; json r]
  | LWebhook p w => ["projects"; p; "webhooks"; json w]
  | LDelivery p d => ["projects"; p; "webhooks"; "deliveries"; json d]
  | LReplay p r => ["projects"; p; "replays"; json r]
  | LNotebook p n => ["projects"; p; "notebooks"; json n]
  end%string.

(** A component of a path that names a file or directory. *)
Definition plain (w : string) : Prop := w ≠ ""%string ∧ w ≠ "."%string ∧ w ≠ ".."%string ∧ slash ∉ ascii_of w.
#[export] Instance plain_dec w : Decision (plain w) := _.

Definition plain_loc (l : loc) : Prop := Forall plain (loc_parts l).2.

(** The identity that a resource carries, in project [pid]. *)
Definition loc_of (pid : string) (v : value) : loc :=
  match v with
  | VSettings _ => LSettings
  | VKey v => LKey (k_ID (sk_APIKey v))
  | VProject v => LProject (proj_ID v)
  | VEnv v => LEnv (env_ProjectID v) (env_ID v)
  | VTest v => LTest (t_ProjectID v) (t_ID v)
  | VRun v => LRun (r_ProjectID v) (r_TestID v) (r_ID v)
  | VFinding v => LFinding (f_ProjectID v) (f_TestID v) (f_ID v)
  | VAssertion v => LAssertion pid (a_TestID v) (a_ID v)
  | VCoverage v => LCoverage pid (cov_TestID v)
  | VReport v => LReport (rp_ProjectID v) (rp_TestID v) (rp_ID v)
  | VWebhook v => LWebhook (wh_ProjectID v) (wh_ID v)
  | VDelivery v => LDelivery pid (wd_ID v)
  | VReplay v => LReplay (rpl_ProjectID v) (rpl_ID v)
  | VNotebook v => LNotebook (nb_ProjectID v) (nb_ID v)
  end.

(** Collections. *)
Inductive coll :=
| CKeys | CProjects | CEnvs (pid : string) | CTests (pid : string) | CRuns (pid tid : string) | CFindings (pid tid : string)
| CAssertions (pid tid : string) | CReports (pid tid : string) | CWebhooks (pid : string) | CDeliveries (pid wid : string)
| CReplays (pid : string) | CNotebooks (pid : string).

Definition in_coll (c : coll) (l : loc) (v : value) : Prop :=
  match c, l, v with
  | CKeys, LKey _, _ => True
  | CProjects, LProject _, _ => True
  | CEnvs p, LEnv q _, _ => p = q
  | CTests p, LTest q _, _ => p = q
  | CRuns p t, LRun q u _, _ => p = q ∧ t = u
  | CFindings p t, LFinding q u _, _ => p = q ∧ t = u
  | CAssertions p t, LAssertion q u _, _ => p = q ∧ t = u
  | CReports p t, LReport q u _, _ => p = q ∧ t = u
  | CWebhooks p, LWebhook q _, _ => p = q
  | CDeliveries p w, LDelivery q _, VDelivery v => p = q ∧ wd_WebhookID v = w
  | CReplays p, LReplay q _, _ => p = q
  | CNotebooks p, LNotebook q _, _ => p = q
  | _, _, _ => False
  end.

(** When a resource was created, where lists are sorted by it. *)
Definition created (v : value) : time :=
  match v with
  | VKey v => k_CreatedAt (sk_APIKey v) | VProject v => proj_CreatedAt v | VEnv v => env_CreatedAt v | VTest v => t_CreatedAt v
  | VRun v => r_CreatedAt v | VFinding v => f_FirstSeenAt v | VReport v => rp_CreatedAt v | VWebhook v => wh_CreatedAt v
  | VDelivery v => wd_CreatedAt v | VReplay v => rpl_CreatedAt v | VNotebook v => nb_CreatedAt v
  | _ => 0
  end.

Inductive op := Save (pid : string) (v : value) | Get (l : loc) | Delete (l : loc) | List (c : coll).

Inductive out :=
| Saved (e : option store_error) | Got (r : result store_error value) | Listed (r : result store_error (list value)).

(** What a resource's absence reads as. *)
Definition absent (l : loc) : result store_error value :=
  match l with
  | LSettings => Ok (VSettings defaultSettings)
  | LCoverage _ t => Ok (VCoverage (empty_coverage t))
  | _ => Err errNotFound
  end.

(** What goes with a resource when it is deleted: all that it contains. *)
Definition contains (l l' : loc) : Prop :=
  match l with
  | LProject p => head (loc_parts l').2 = Some p ∧ l' ≠ LKey p
  | LTest p t => take 2 (loc_parts l').2 = [p; t] ∧
      match l' with LTest _ _ | LRun _ _ _ | LFinding _ _ _ | LAssertion _ _ _ | LCoverage _ _ | LReport _ _ _ => True | _ => False end
  | _ => l' = l
  end.

Definition deletable (l : loc) : Prop :=
  match l with
  | LKey _ | LProject _ | LEnv _ _ | LTest _ _ | LFinding _ _ _ | LWebhook _ _ | LReplay _ _ | LNotebook _ _ => True
  | _ => False
  end.

Definition map_ok {E A B} (f : A → B) (r : result E A) : result E B := match r with Ok a => Ok (f a) | Err e => Err e end.

Section exec.
Context {doc : Type} `{Files} `{Codecs doc} (root : string).
Abbreviation disk := (gmap path doc).
Implicit Types d : disk.

Definition encode_value (v : value) : option doc :=
  match v with
  | VSettings v => encode v | VKey v => encode v | VProject v => encode v | VEnv v => encode v | VTest v => encode v
  | VRun v => encode v | VFinding v => encode v | VAssertion v => encode v | VCoverage v => encode v | VReport v => encode v
  | VWebhook v => encode v | VDelivery v => encode v | VReplay v => encode v | VNotebook v => encode v
  end.

(** A file read as the resource of [l]. *)
Definition decode_value (l : loc) (data : doc) : option value :=
  match l with
  | LSettings => VSettings <$> decode data | LKey _ => VKey <$> decode data | LProject _ => VProject <$> decode data
  | LEnv _ _ => VEnv <$> decode data | LTest _ _ => VTest <$> decode data | LRun _ _ _ => VRun <$> decode data
  | LFinding _ _ _ => VFinding <$> decode data | LAssertion _ _ _ => VAssertion <$> decode data
  | LCoverage _ _ => VCoverage <$> decode data | LReport _ _ _ => VReport <$> decode data
  | LWebhook _ _ => VWebhook <$> decode data | LDelivery _ _ => VDelivery <$> decode data
  | LReplay _ _ => VReplay <$> decode data | LNotebook _ _ => VNotebook <$> decode data
  end.

(** The methods of the store. *)
Definition save (pid : string) (v : value) : disk → option store_error * disk :=
  match v with
  | VSettings v => SaveSettings root v | VKey v => SaveAPIKey root v | VProject v => SaveProject root v
  | VEnv v => SaveEnvironment root v | VTest v => SaveTest root v | VRun v => SaveRun root v | VFinding v => SaveFinding root v
  | VAssertion v => SaveAssertion root pid v | VCoverage v => SaveCoverage root pid v | VReport v => SaveReport root v
  | VWebhook v => SaveWebhook root v | VDelivery v => SaveWebhookDelivery root pid v | VReplay v => SaveReplay root v
  | VNotebook v => SaveNotebook root v
  end.

Definition get (l : loc) d : result store_error value :=
  match l with
  | LSettings => map_ok VSettings (GetSettings root d)
  | LKey k => map_ok VKey (GetAPIKey root k d)
  | LProject p => map_ok VProject (GetProject root p d)
  | LEnv p e => map_ok VEnv (GetEnvironment root p e d)
  | LTest p t => map_ok VTest (GetTest root p t d)
  | LRun p t r => map_ok VRun (GetRun root p t r d)
  | LFinding p t f => map_ok VFinding (GetFinding root p t f d)
  | LAssertion p t a => map_ok VAssertion (GetAssertion root p t a d)
  | LCoverage p t => map_ok VCoverage (GetCoverage root p t d)
  | LReport p t r => map_ok VReport (GetReport root p t r d)
  | LWebhook p w => map_ok VWebhook (GetWebhook root p w d)
  | LDelivery p i => map_ok VDelivery (readJSON (delivery_file root p i) d)
  | LReplay p r => map_ok VReplay (GetReplay root p r d)
  | LNotebook p n => map_ok VNotebook (GetNotebook root p n d)
  end.

Definition delete_ (l : loc) : disk → option store_error * disk :=
  match l with
  | LKey k => DeleteAPIKey root k
  | LProject p => DeleteProject root p
  | LEnv p e => DeleteEnvironment root p e
  | LTest p t => DeleteTest root p t
  | LFinding p t f => DeleteFinding root p t f
  | LWebhook p w => DeleteWebhook root p w
  | LReplay p r => DeleteReplay root p r
  | LNotebook p n => DeleteNotebook root p n
  | _ => λ d, (None, d)
  end.

(** [ListAPIKeys] returns the keys without their hashes. *)
Definition list_ (c : coll) d : result store_error (list value) :=
  match c with
  | CKeys => map_ok (map (λ k, VKey (mkstoredAPIKey k ""))) (ListAPIKeys root d)
  | CProjects => map_ok (map VProject) (ListProjects root d)
  | CEnvs p => map_ok (map VEnv) (ListEnvironments root p d)
  | CTests p => map_ok (map VTest) (ListTests root p d)
  | CRuns p t => map_ok (map VRun) (ListRuns root p t d)
  | CFindings p t => map_ok (map VFinding) (ListFindings root p t d)
  | CAssertions p t => map_ok (map VAssertion) (ListAssertions root p t d)
  | CReports p t => map_ok (map VReport) (ListReports root p t d)
  | CWebhooks p => map_ok (map VWebhook) (ListWebhooks root p d)
  | CDeliveries p w => map_ok (map VDelivery) (ListWebhookDeliveries root p w d)
  | CReplays p => map_ok (map VReplay) (ListReplays root p d)
  | CNotebooks p => map_ok (map VNotebook) (ListNotebooks root p d)
  end.

Definition exec (o : op) d : out * disk :=
  match o with
  | Save pid v => let '(e, d) := save pid v d in (Saved e, d)
  | Get l => (Got (get l d), d)
  | Delete l => let '(e, d) := delete_ l d in (Saved e, d)
  | List c => (Listed (list_ c d), d)
  end.

Fixpoint exec_all (ops : list op) d : list out * disk :=
  match ops with
  | [] => ([], d)
  | o :: ops => let '(x, d) := exec o d in let '(xs, d) := exec_all ops d in (x :: xs, d)
  end.

(** ** The specification of a step *)

Abbreviation resources := (gmap loc value).

(** What a listing shows of a resource. *)
Definition shown (v : value) : value :=
  match v with VKey k => VKey (mkstoredAPIKey (sk_APIKey k) "") | _ => v end.

Definition listed (m : resources) (c : coll) (vs : list value) : Prop :=
  NoDup vs ∧ (∀ v, v ∈ vs ↔ ∃ l w, m !! l = Some w ∧ in_coll c l w ∧ v = shown w) ∧
  match c with
  | CAssertions _ _ => True
  | _ => StronglySorted (λ a b, (created b <? created a) = false) vs
  end.

Definition spec (o : op) (m : resources) (x : out) (m' : resources) : Prop :=
  match o with
  | Save pid v =>
      if encode_value v then x = Saved None ∧ m' = <[loc_of pid v := v]> m else x = Saved (Some EncodeFailed) ∧ m' = m
  | Get l => x = Got (match m !! l with Some v => Ok v | None => absent l end) ∧ m' = m
  | Delete l => x = Saved None ∧ ∀ l', (contains l l' → m' !! l' = None) ∧ (¬ contains l l' → m' !! l' = m !! l')
  | List c => (∃ vs, x = Listed (Ok vs) ∧ listed m c vs) ∧ m' = m
  end.

Fixpoint spec_all (ops : list op) (m : resources) (xs : list out) (m' : resources) : Prop :=
  match ops, xs with
  | [], [] => m' = m
  | o :: ops, x :: xs => ∃ m1, spec o m x m1 ∧ spec_all ops m1 xs m'
  | _, _ => False
  end.

(** ** What is assumed *)

(** No call on the file system fails. *)
Definition sound_disk : Prop :=
  ∀ p, can_mkdir p = true ∧ can_create p = true ∧ can_close p = true ∧ can_rename p = true ∧ can_open p = true ∧
       can_list p = true ∧ can_remove p = true.

(** What is encoded decodes as itself. *)
Definition faithful (v : value) : Prop :=
  ∀ pid data, encode_value v = Some data → decode_value (loc_of pid v) data = Some v.

Definition plain_coll (c : coll) : Prop :=
  match c with
  | CKeys | CProjects => True
  | CEnvs p | CTests p | CReplays p | CNotebooks p => plain p
  | CRuns p t | CFindings p t | CAssertions p t | CReports p t => plain p ∧ plain t
  | CWebhooks p => plain p ∧ path_contains (locate (webhooksDir root p)) "deliveries" = false
  | CDeliveries p w => plain p
  end.

(** Listing webhooks also wants identifiers of webhooks without that word. *)
Definition good_op (o : op) : Prop :=
  match o with
  | Save pid v => plain_loc (loc_of pid v) ∧ faithful v ∧ match v with VWebhook w => Contains (json (wh_ID w)) "deliveries" = false | _ => True end
  | Get l => plain_loc l
  | Delete l => plain_loc l ∧ deletable l
  | List c => plain_coll c
  end.
End exec.

(** ** Paths *)

Lemma split_slash_plain w : slash ∉ w → split_slash w = [w].
Proof.
  induction w as [|c w IH]; intros Hc; [done|]. apply not_elem_of_cons in Hc as [Hne Hw]. cbn [split_slash].
  destruct (Ascii.eqb_spec c slash); [by subst|]. by rewrite IH.
Qed.

Lemma ascii_of_inj s t : ascii_of s = ascii_of t → s = t.
Proof. intros E. unfold ascii_of in E. rewrite <-(String.string_of_list_ascii_of_string s), E. apply String.string_of_list_ascii_of_string. Qed.

Lemma ascii_of_app s t : ascii_of (String.append s t) = ascii_of s ++ ascii_of t.
Proof. unfold ascii_of. induction s as [|c s IH]; [done|]. simpl. by rewrite IH. Qed.

Lemma words_of_plain parts : Forall plain parts → words_of parts = ascii_of <$> parts.
Proof.
  induction 1 as [|w parts (_ & _ & _ & Hw) _ IH]; [done|]. unfold words_of in *. cbn [mbind list_bind fmap list_fmap].
  by rewrite split_slash_plain, IH.
Qed.

Lemma clean_plain rooted parts stack : Forall plain parts →
  foldl (clean_step rooted) stack (ascii_of <$> parts) = rev (ascii_of <$> parts) ++ stack.
Proof.
  intros Hp. revert stack. induction Hp as [|w parts (Hw & Hd & Hdd & _) _ IH]; intros stack; [done|]. cbn [fmap list_fmap foldl rev].
  rewrite IH, <-app_assoc. f_equal. unfold clean_step.
  rewrite !bool_decide_eq_false_2; [done| | |]; intros E; [by apply Hdd, ascii_of_inj|by apply Hd, ascii_of_inj|by apply Hw, ascii_of_inj].
Qed.

Lemma plain_not_abs w : plain w → IsAbs w = false.
Proof.
  intros (Hw & _ & _ & Hs). destruct w as [|c w]; [done|]. apply not_true_is_false. intros ->%IsAbs_String. apply Hs. cbn. left.
Qed.

Lemma locate_plain root parts : Forall plain parts →
  locate (root :: parts) = ((locate [root]).1, (locate [root]).2 ++ parts).
Proof.
  intros Hp. assert (filter (λ w, w ≠ ""%string) parts = parts) as Hf.
  { clear -Hp. induction Hp as [|w parts (Hw & _) _ IH]; [done|]. rewrite filter_cons_True by done. by f_equal. }
  assert (∀ r stack, rev (foldl (clean_step r) stack (words_of parts)) = rev stack ++ (ascii_of <$> parts)) as Hc.
  { intros r stack. rewrite words_of_plain, clean_plain by done. by rewrite rev_app_distr, rev_involutive. }
  assert (String.string_of_list_ascii <$> (ascii_of <$> parts) = parts) as Hs.
  { rewrite <-list_fmap_compose. rewrite <-(list_fmap_id parts) at 2. apply list_fmap_ext. intros i w _. apply String.string_of_list_ascii_of_string. }
  unfold locate. destruct (decide (root = ""%string)) as [->|Hr].
  - rewrite !filter_cons_False by (by intros ?). cbn [filter list_filter]. rewrite Hf, Hc, fmap_app, Hs. cbn [fst snd].
    f_equal. destruct Hp as [|w parts Hw _]; [done|]. by apply plain_not_abs.
  - rewrite !filter_cons_True by done. rewrite Hf. cbn [fst snd]. f_equal.
    unfold words_of at 1. cbn [mbind list_bind]. rewrite foldl_app. fold (words_of parts). rewrite Hc, fmap_app, Hs.
    unfold words_of. cbn. by rewrite app_nil_r.
Qed.

Lemma plain_json id : plain id → plain (json id).
Proof.
  intros (_ & _ & _ & Hs). unfold json. assert (5 ≤ length (ascii_of (String.append id ".json")))%nat as Hl.
  { rewrite ascii_of_app, length_app. cbn. lia. }
  split_and!; [intros E; rewrite E in Hl; cbn in Hl; lia..|].
  rewrite ascii_of_app, not_elem_of_app. split; [done|]. by apply (bool_decide_unpack _).
Qed.

Lemma json_inj i j : json i = json j → i = j.
Proof. intros E%(f_equal ascii_of). unfold json in E. rewrite !ascii_of_app in E. by apply ascii_of_inj, (app_inj_2 _ _ _ _ eq_refl) in E as [<-%ascii_of_inj _] || (apply app_inv_tail in E; by apply ascii_of_inj). Qed.

Lemma json_not_deliveries id : "deliveries"%string ≠ json id.
Proof. intros E%(f_equal (λ s, last (ascii_of s))). revert E. unfold json. by rewrite ascii_of_app, last_app. Qed.

Lemma place_inj l l' : place l = place l' → l = l'.
Proof. destruct l, l'; cbn; intros E; simplify_eq; try done; repeat match goal with H : json _ = json _ |- _ => apply json_inj in H as <- end; done. Qed.

Lemma place_plain l : plain_loc l → Forall plain (place l).
Proof.
  unfold plain_loc. destruct l; cbn [loc_parts place snd]; rewrite ?Forall_cons; intros Hp; destruct_and?; split_and?;
    first [done | by apply plain_json | by apply (bool_decide_unpack _)].
Qed.

Lemma strip_prefix_Some dir p r : strip_prefix dir p = Some r ↔ p = dir ++ r.
Proof.
  revert p. induction dir as [|w dir IH]; intros [|v p]; cbn; try naive_solver.
  case_bool_decide as E; [subst; rewrite IH; naive_solver|]. split; [done|]. intros [= -> _]. done.
Qed.

Section places.
Context (root : string).

(** A path below the root. *)
Definition at_ (parts : list string) : path := ((locate [root]).1, (locate [root]).2 ++ parts).

Lemma at_inj a b : at_ a = at_ b → a = b.
Proof. intros [= E]. by apply app_inv_head in E. Qed.

Lemma locate_at parts : Forall plain parts → locate (root :: parts) = at_ parts.
Proof. apply locate_plain. Qed.

Lemma rest_of_at dir p : rest_of (at_ dir) (at_ p) = strip_prefix dir p.
Proof.
  unfold rest_of, at_. cbn [fst snd]. rewrite bool_decide_eq_true_2 by done. induction (locate [root]).2 as [|w l IH]; [done|].
  cbn. by rewrite bool_decide_eq_true_2.
Qed.

Lemma rest_of_Some dir p r : rest_of (at_ dir) p = Some r ↔ p = at_ (dir ++ r).
Proof.
  unfold rest_of, at_. cbn [fst snd]. destruct p as [b p]. cbn [fst snd]. case_bool_decide as E.
  - rewrite strip_prefix_Some, <-app_assoc. subst b. split; [by intros ->|by intros [= ->]].
  - split; [done|]. intros [= -> _]. done.
Qed.

Lemma below_at dir w : below (at_ dir) w = at_ (dir ++ [w]).
Proof. unfold below, at_. cbn [fst snd]. by rewrite <-app_assoc. Qed.

(** No resource is kept in a temporary file. *)
Lemma tmp_of_at parts w : tmp_of (at_ (parts ++ [w])) = at_ (parts ++ [String.append w ".tmp"]).
Proof. unfold tmp_of, at_. cbn [fst snd]. rewrite app_assoc, rev_app_distr. cbn [rev app fst]. by rewrite rev_involutive, app_assoc. Qed.

Lemma place_last l : plain_loc l → ∃ dirs w, place l = dirs ++ [json w].
Proof.
  intros _. destruct l; cbn [place];
    lazymatch goal with
    | |- ∃ _ _, [?a] = _ => exists [], "settings"%string
    | |- ∃ _ _, [?a; json ?b] = _ => exists [a], b
    | |- ∃ _ _, [?a; ?b; ?c] = _ => exists [a; b], "project"%string
    | |- ∃ _ _, [?a; ?b; ?c; json ?w] = _ => exists [a; b; c], w
    | |- ∃ _ _, [?a; ?b; ?c; ?e; json ?w] = _ => exists [a; b; c; e], w
    | |- ∃ _ _, [?a; ?b; ?c; ?e; "environment.json"%string] = _ => exists [a; b; c; e], "environment"%string
    | |- ∃ _ _, [?a; ?b; ?c; ?e; "test.json"%string] = _ => exists [a; b; c; e], "test"%string
    | |- ∃ _ _, [?a; ?b; ?c; ?e; "coverage.json"%string] = _ => exists [a; b; c; e], "coverage"%string
    | |- ∃ _ _, [?a; ?b; ?c; ?e; ?g; json ?w] = _ => exists [a; b; c; e; g], w
    | |- ∃ _ _, [?a; ?b; ?c; ?e; ?g; ?h; _] = _ => exists [a; b; c; e; g; h], "run"%string
    end; done.
Qed.

Lemma tmp_not_place l l' : plain_loc l → plain_loc l' → tmp_of (at_ (place l)) ≠ at_ (place l').
Proof.
  intros (dirs & w & E)%place_last (dirs' & w' & E')%place_last. rewrite E, E', tmp_of_at. intros H%at_inj.
  apply app_inj_tail in H as [_ H]. apply (f_equal (λ s, last (ascii_of s))) in H. revert H. unfold json.
  rewrite !ascii_of_app, !last_app. by cbn.
Qed.
End places.

(** ** The representation *)

Section refine.
Context {doc : Type} `{Files} `{Codecs doc} (root : string) (Hdisk : sound_disk).
Abbreviation disk := (gmap path doc).
Abbreviation resources := (gmap loc value).
Implicit Types (d : disk) (m : resources).

Definition good_value (v : value) : Prop :=
  faithful v ∧ match v with VWebhook w => Contains (json (wh_ID w)) "deliveries" = false | _ => True end.

Definition good_entry (l : loc) (v : value) : Prop := plain_loc l ∧ good_value v ∧ (∃ pid, loc_of pid v = l) ∧ is_Some (encode_value v).

(** The disk holds the resources of [m], and nothing else. *)
Record rep d m : Prop := mkRep {
  rep_good l v : m !! l = Some v → good_entry l v;
  rep_disk p data : d !! p = Some data ↔ ∃ l v, m !! l = Some v ∧ p = at_ root (place l) ∧ encode_value v = Some data }.

Lemma rep_lookup d m l : rep d m → d !! at_ root (place l) = m !! l ≫= encode_value.
Proof.
  intros Hr. apply option_eq. intros data. rewrite (rep_disk _ _ Hr). split.
  - intros (l' & v & Hv & E%at_inj%place_inj & Hd). by rewrite E, Hv.
  - intros (v & Hv & Hd)%bind_Some. by exists l, v.
Qed.

Lemma rep_decode d m l data : rep d m → d !! at_ root (place l) = Some data → ∃ v, m !! l = Some v ∧ encode_value v = Some data ∧ decode_value l data = Some v.
Proof.
  intros Hr Hd. rewrite (rep_lookup _ _ _ Hr) in Hd. apply bind_Some in Hd as (v & Hv & He).
  destruct (rep_good _ _ Hr l v Hv) as (_ & (Hf & _) & (pid & Hl) & _). exists v. split_and!; [done|done|]. rewrite <-Hl. by apply Hf.
Qed.

(** ** Reading *)

Lemma get_read d l : plain_loc l →
  get root l d = match d !! at_ root (place l) with
                 | None => absent l
                 | Some data => match decode_value l data with Some v => Ok v | None => Err DecodeFailed end
                 end.
Proof.
  intros Hl. rewrite <-(locate_at root (place l)) by by apply place_plain.
  assert (∀ p, can_open p = true) as Ho by by intros p; apply Hdisk.
  destruct l; cbn -[locate]; unfold GetSettings, GetAPIKey, GetProject, GetEnvironment, GetTest, GetRun, GetFinding, GetAssertion,
    GetCoverage, GetReport, GetWebhook, GetReplay, GetNotebook, readJSON, settings_file; rewrite Ho; cbn -[locate];
    unfold apikey_file, project_file, env_file, test_file, run_file, finding_file, assertion_file, coverage_file, report_file,
      webhook_file, delivery_file, replay_file, notebook_file; cbn -[locate];
    destruct (d !! _) as [data|]; try done; by destruct (decode data).
Qed.

Lemma get_spec d m l : rep d m → plain_loc l → get root l d = match m !! l with Some v => Ok v | None => absent l end.
Proof.
  intros Hr Hl. rewrite get_read by done. destruct (d !! at_ root (place l)) as [data|] eqn:Hd.
  - destruct (rep_decode _ _ _ _ Hr Hd) as (v & -> & _ & ->). done.
  - rewrite (rep_lookup _ _ _ Hr) in Hd. destruct (m !! l) as [v|] eqn:Hv; [|done].
    destruct (rep_good _ _ Hr l v Hv) as (_ & _ & _ & [data He]). cbn in Hd. congruence.
Qed.

(** ** Writing *)

Definition write (p : path) (data : option doc) d : option store_error * disk :=
  match data with
  | None => (Some EncodeFailed, delete (tmp_of p) d)
  | Some data => (None, <[p := data]> (delete (tmp_of p) d))
  end.

Lemma atomicWriteJSON_write {A} `{!Codec doc A} p (v : A) d : atomicWriteJSON p v d = write p (encode v) d.
Proof.
  unfold atomicWriteJSON. destruct (Hdisk p) as (-> & _ & _ & -> & _), (Hdisk (tmp_of p)) as (_ & -> & -> & _). by destruct (encode v).
Qed.

Lemma save_write pid v d : plain_loc (loc_of pid v) → save root pid v d = write (at_ root (place (loc_of pid v))) (encode_value v) d.
Proof.
  intros Hl. rewrite <-(locate_at root (place _)) by by apply place_plain.
  destruct v; apply atomicWriteJSON_write.
Qed.

Lemma rep_tmp d m l : rep d m → plain_loc l → d !! tmp_of (at_ root (place l)) = None.
Proof.
  intros Hr Hl. apply eq_None_not_Some. intros [data (l' & v & Hv & E & _)%(rep_disk _ _ Hr)].
  by apply (tmp_not_place root l l') in E; [|done|apply (rep_good _ _ Hr _ _ Hv)].
Qed.

Lemma rep_insert d m l v data : rep d m → good_entry l v → encode_value v = Some data →
  rep (<[at_ root (place l) := data]> d) (<[l := v]> m).
Proof.
  intros Hr Hg He. split.
  - intros l' v'. rewrite lookup_insert_Some. intros [[<- <-]|[_ Hv]]; [done|]. by apply (rep_good _ _ Hr).
  - intros p data'. rewrite lookup_insert_Some. split.
    + intros [[<- <-]|[Hne (l' & v' & Hv & -> & Hd)%(rep_disk _ _ Hr)]].
      * exists l, v. by rewrite lookup_insert_eq.
      * exists l', v'. rewrite lookup_insert_ne; [done|]. by intros <-.
    + intros (l' & v' & Hv & -> & Hd). apply lookup_insert_Some in Hv as [[<- <-]|[Hne Hv]].
      * left. split; [done|congruence].
      * right. split; [by intros E%at_inj%place_inj|]. apply (rep_disk _ _ Hr). by exists l', v'.
Qed.

Lemma save_spec pid v d m : rep d m → plain_loc (loc_of pid v) → good_value v →
  ∃ x d' m', exec root (Save pid v) d = (x, d') ∧ spec (Save pid v) m x m' ∧ rep d' m'.
Proof.
  intros Hr Hl Hg. cbn [exec]. rewrite save_write by done. unfold write. cbn [spec].
  rewrite (delete_id d) by by eapply rep_tmp. destruct (encode_value v) as [data|] eqn:He.
  - eexists _, _, _. split; [done|]. split; [done|]. apply rep_insert; [done| |done]. split_and!; [done|done|by exists pid|done].
  - by exists (Saved (Some EncodeFailed)), d, m.
Qed.

(** ** Deleting *)

Lemma rep_filter d m (g : loc → bool) (f : path → bool) : rep d m →
  (∀ l, plain_loc l → f (at_ root (place l)) = g l) →
  rep (filter (λ kv, f kv.1 = true) d) (filter (λ kv, g kv.1 = true) m).
Proof.
  intros Hr Hf. split.
  - intros l v [Hv _]%map_lookup_filter_Some. by apply (rep_good _ _ Hr).
  - intros p data. rewrite map_lookup_filter_Some. cbn [fst]. split.
    + intros [(l & v & Hv & -> & Hd)%(rep_disk _ _ Hr) Hp]. exists l, v. split; [|done]. apply map_lookup_filter_Some. split; [done|].
      cbn. rewrite <-Hf; [done|]. apply (rep_good _ _ Hr _ _ Hv).
    + intros (l & v & [Hv Hp]%map_lookup_filter_Some & -> & Hd). split; [apply (rep_disk _ _ Hr); by exists l, v|].
      rewrite Hf; [done|]. apply (rep_good _ _ Hr _ _ Hv).
Qed.

#[local] Instance contains_dec l l' : Decision (contains l l').
Proof. destruct l, l'; cbn; apply _. Defined.

Definition spared (l l' : loc) : bool := bool_decide (¬ contains l l').

(** The directory, or the file, that goes when a resource is deleted. *)
Definition doomed (l : loc) : list string :=
  match l with
  | LProject p => ["projects"; p]
  | LEnv p e => ["projects"; p; "environments"; e]
  | LTest p t => ["projects"; p; "tests"; t]
  | _ => place l
  end%string.

Lemma doomed_contains l l' : deletable l → strip_prefix (doomed l) (place l') = None ↔ ¬ contains l l'.
Proof.
  intros Hl. rewrite eq_None_not_Some. apply not_iff_compat. unfold is_Some. setoid_rewrite strip_prefix_Some. split.
  - intros [r E]. destruct l, l'; cbn in *; simplify_eq; try done; try (split; [done|]; try done);
      repeat match goal with H : json _ = json _ |- _ => apply json_inj in H as <- end; try done.
    match goal with E : _ = json _ |- _ => by apply json_not_deliveries in E end.
  - destruct l; try done; destruct l'; cbn in *; intros Hc; destruct_and?; simplify_eq; first [done | by eexists].
Qed.

Lemma doomed_plain l : plain_loc l → deletable l → Forall plain (doomed l).
Proof.
  intros Hl Hd. pose proof (place_plain l Hl) as Hp. unfold plain_loc in Hl.
  destruct l; try done; cbn in *; rewrite ?Forall_cons in *; destruct_and?; split_and?; try done; by apply (bool_decide_unpack _).
Qed.

(** What [RemoveAll] leaves. *)
Definition keep (dir p : path) : bool := bool_decide (rest_of dir p = None).

Lemma filter_keep dir d : filter (λ kv, rest_of dir kv.1 = None) d = filter (λ kv, keep dir kv.1 = true) d.
Proof. apply map_filter_ext. intros p data _. cbn. unfold keep. by rewrite bool_decide_eq_true. Qed.

Lemma delete_keep d m l : rep d m → plain_loc l → place l = doomed l →
  delete (at_ root (place l)) d = filter (λ kv, keep (at_ root (doomed l)) kv.1 = true) d.
Proof.
  intros Hr Hl Hp. apply map_eq. intros p. rewrite map_lookup_filter. destruct (decide (p = at_ root (place l))) as [->|Hne].
  - rewrite lookup_delete_eq. destruct (d !! _) as [data|]; [|done]. cbn.
    rewrite option_guard_False; [done|]. unfold keep. rewrite Hp, rest_of_at.
    assert (strip_prefix (doomed l) (doomed l) = Some []) as -> by (apply strip_prefix_Some; by rewrite app_nil_r). done.
  - rewrite lookup_delete_ne by done. destruct (d !! p) as [data|] eqn:Hd; [|done]. cbn.
    apply (rep_disk _ _ Hr) in Hd as (l' & v & Hv & -> & _). rewrite option_guard_True; [done|]. unfold keep. rewrite rest_of_at.
    destruct (strip_prefix (doomed l) (place l')) as [r|] eqn:E; [|done]. exfalso. apply Hne. f_equal.
    apply strip_prefix_Some in E. rewrite <-Hp in E. clear -E Hp.
    destruct l, l'; cbn in *; simplify_eq; try congruence.
    match goal with E : _ = json _ |- _ => by apply json_not_deliveries in E end.
Qed.

Lemma delete_spec l d m : rep d m → plain_loc l → deletable l →
  ∃ x d' m', exec root (Delete l) d = (x, d') ∧ spec (Delete l) m x m' ∧ rep d' m'.
Proof.
  intros Hr Hl Hd. assert (delete_ root l d = (None, filter (λ kv, keep (at_ root (doomed l)) kv.1 = true) d)) as E.
  { assert (∀ p, can_remove p = true) as Hrm by by intros p; apply Hdisk.
    rewrite <-(locate_at root (doomed l)) by by apply doomed_plain.
    destruct l; try done; cbn [delete_]; unfold DeleteAPIKey, DeleteProject, DeleteEnvironment, DeleteTest, DeleteFinding, DeleteWebhook,
      DeleteReplay, DeleteNotebook, removeFile, RemoveAll; rewrite Hrm; cbn [negb];
      try (by rewrite filter_keep); f_equal; rewrite locate_at by (by apply doomed_plain);
      rewrite <-(delete_keep _ m) by done; rewrite <-locate_at by (by apply place_plain); done. }
  exists (Saved None), (filter (λ kv, keep (at_ root (doomed l)) kv.1 = true) d), (filter (λ kv, spared l kv.1 = true) m).
  cbn [exec]. rewrite E. split; [done|]. split; [|apply (rep_filter d m (spared l) (keep (at_ root (doomed l)))); [done|]].
  - cbn. split; [done|]. intros l'. rewrite map_lookup_filter. destruct (m !! l') as [v|]; cbn; [|done].
    split; intros Hc; unfold spared; [rewrite option_guard_False; [done|]|rewrite option_guard_True; [done|]]; rewrite bool_decide_eq_true; tauto.
  - intros l' Hl'. unfold keep, spared. rewrite rest_of_at. by apply bool_decide_ext, doomed_contains.
Qed.
End refine.

(** ** Listing *)

Lemma NoDup_omap {A B} (f : A → option B) (l : list A) :
  NoDup l → (∀ x y b, x ∈ l → y ∈ l → f x = Some b → f y = Some b → x = y) → NoDup (omap f l).
Proof.
  induction 1 as [|x l Hx Hl IH]; intros Hf; [constructor|]. cbn. destruct (f x) as [b|] eqn:Hb.
  - constructor.
    + rewrite list_elem_of_omap. intros (y & Hy & Hyb). apply Hx. by rewrite (Hf x y b) by (done || set_solver).
    + apply IH. intros y z c ??. apply Hf; set_solver.
  - apply IH. intros y z c ??. apply Hf; set_solver.
Qed.

Lemma listing_NoDup {doc} (name : path → option string) (d : gmap path doc) : NoDup (names name d).
Proof. unfold names. rewrite sort_by_Permutation. apply NoDup_remove_dups. Qed.

Lemma elem_of_listing {doc} (name : path → option string) (d : gmap path doc) w : w ∈ names name d ↔ ∃ p data, d !! p = Some data ∧ name p = Some w.
Proof.
  unfold names. rewrite sort_by_Permutation, elem_of_remove_dups, list_elem_of_omap. split.
  - intros (p & ([q data] & -> & Hq)%list_elem_of_fmap & Hp). exists q, data. split; [by apply elem_of_map_to_list|done].
  - intros (p & data & Hd & Hp). exists p. split; [|done]. apply list_elem_of_fmap. exists (p, data). split; [done|by apply elem_of_map_to_list].
Qed.

Lemma HasSuffix_json id : HasSuffix (json id) ".json" = true.
Proof. unfold HasSuffix, json. rewrite bool_decide_eq_true, ascii_of_app. by exists (ascii_of id). Qed.

Section list.
Context {doc : Type} `{Files} `{Codecs doc} (root : string) (Hdisk : sound_disk).
Context {A} `{!Codec doc A} (V : A → value) (L : string → loc) (dir : list string).
Context (d : gmap path doc) (m : gmap loc value) (Hrep : rep root d m) (Hdir : Forall plain dir).
Context (HdecV : ∀ id data, decode_value (L id) data = V <$> decode data) (HVinj : Inj (=) (=) V).
Context (HL : ∀ v pid pid' id id', loc_of pid (V v) = L id → loc_of pid' (V v) = L id' → id = id').

(** The object in the file of [L id]. *)
Lemma read_object (p : path) (v : A) id : p = at_ root (place (L id)) → readObject p d = Some v ↔ m !! L id = Some (V v).
Proof.
  intros ->. unfold readObject, readJSON. destruct (Hdisk (at_ root (place (L id)))) as (_ & _ & _ & _ & -> & _). cbn [negb].
  destruct (d !! at_ root (place (L id))) as [data|] eqn:Hd.
  - destruct (rep_decode _ _ _ _ _ Hrep Hd) as (v' & Hv' & _ & E). rewrite Hv'. rewrite HdecV in E.
    destruct (decode data) as [w|]; [|done]. cbn in E. injection E as <-. split; [by intros [= ->]|by intros [= ->%HVinj]].
  - rewrite (rep_lookup _ _ _ _ Hrep) in Hd. split; [done|]. intros Hv. rewrite Hv in Hd. cbn in Hd.
    destruct (rep_good _ _ _ Hrep _ _ Hv) as (_ & _ & _ & [data E]). congruence.
Qed.

Lemma same_object (v : A) id id' : m !! L id = Some (V v) → m !! L id' = Some (V v) → id = id'.
Proof.
  intros Hv Hv'. destruct (rep_good _ _ _ Hrep _ _ Hv) as (_ & _ & (pid & E) & _).
  destruct (rep_good _ _ _ Hrep _ _ Hv') as (_ & _ & (pid' & E') & _). by eapply HL.
Qed.

Definition exact_list (vs : list A) : Prop := NoDup vs ∧ ∀ v, v ∈ vs ↔ ∃ id, m !! L id = Some (V v).

Lemma list_files_spec include : (∀ id, place (L id) = dir ++ [json id]) → (∀ l w, place l = dir ++ [w] → ∃ id, l = L id) →
  (∀ id v, m !! L id = Some v → include (at_ root (place (L id))) = true) →
  ∃ vs, list_files (locate (root :: dir)) include d = Ok vs ∧ exact_list vs.
Proof.
  intros Hplace Hback Hinc. rewrite locate_at by done. unfold list_files, listDir.
  destruct (Hdisk (at_ root dir)) as (_ & _ & _ & _ & _ & -> & _). cbn [negb]. eexists. split; [done|].
  assert (∀ p, p ∈ filter (λ p, include p = true) (below (at_ root dir) <$> filter (λ w, HasSuffix w ".json" = true) (names (file_name (at_ root dir)) d)) →
    ∃ id v, p = at_ root (place (L id)) ∧ m !! L id = Some v) as Hp.
  { intros p [_ (w & -> & [_ (q & data & Hq & Hw)%elem_of_listing]%list_elem_of_filter)%list_elem_of_fmap]%list_elem_of_filter.
    unfold file_name in Hw. destruct (rest_of (at_ root dir) q) as [r|] eqn:Er; [|done]. destruct r as [|? [|]]; simplify_eq.
    apply rest_of_Some in Er as ->. rewrite below_at. apply (rep_disk _ _ _ Hrep) in Hq as (l & v & Hv & E%at_inj & _).
    destruct (Hback l w) as [id ->]; [done|]. exists id, v. by rewrite E. }
  split.
  - apply NoDup_omap.
    + apply NoDup_filter, NoDup_fmap_2; [|apply NoDup_filter, listing_NoDup]. intros x y. rewrite !below_at. intros E%at_inj.
      by apply app_inj_tail in E as [_ ->].
    + intros p q v (id & ? & -> & _)%Hp (id' & ? & -> & _)%Hp. rewrite !(read_object _ v _ eq_refl). intros H1 H2.
      by rewrite (same_object v id id').
  - intros v. unfold readObjectsFromFiles. rewrite list_elem_of_omap. split.
    + intros (p & (id & w & -> & _)%Hp & E). exists id. by apply (read_object _ v id eq_refl).
    + intros [id Hv]. exists (at_ root (place (L id))). split; [|by apply read_object with id].
      apply list_elem_of_filter. split; [by eapply Hinc|]. apply list_elem_of_fmap. exists (json id). split; [by rewrite below_at, Hplace|].
      apply list_elem_of_filter. split; [by rewrite HasSuffix_json|]. apply elem_of_listing.
      destruct (rep_good _ _ _ Hrep _ _ Hv) as (_ & _ & _ & [data E]). exists (at_ root (place (L id))), data. split.
      * rewrite (rep_lookup _ _ _ _ Hrep), Hv. done.
      * unfold file_name. rewrite Hplace. rewrite (proj2 (rest_of_Some root dir _ [json id]) eq_refl). done.
Qed.

Lemma list_subdirs_spec filename : (∀ id, place (L id) = dir ++ [id; filename]) → (∀ l w, place l = dir ++ [w; filename] → ∃ id, l = L id) →
  ∃ vs, list_subdirs (locate (root :: dir)) filename d = Ok vs ∧ exact_list vs.
Proof.
  intros Hplace Hback. rewrite locate_at by done. unfold list_subdirs, listSubdirs.
  destruct (Hdisk (at_ root dir)) as (_ & _ & _ & _ & _ & -> & _). cbn [negb]. eexists. split; [done|].
  assert (∀ w v, readObject (below (below (at_ root dir) w) filename) d = Some v ↔ m !! L w = Some (V v)) as Hread.
  { intros w v. apply read_object. by rewrite !below_at, Hplace, <-app_assoc. }
  unfold readObjectsFromSubdirs. split.
  - apply NoDup_omap; [apply NoDup_fmap_2; [|apply listing_NoDup]; intros x y; rewrite !below_at; intros E%at_inj; by apply app_inj_tail in E as [_ ->]|].
    intros p q v (x & -> & _)%list_elem_of_fmap (y & -> & _)%list_elem_of_fmap. rewrite !Hread. intros H1 H2. by rewrite (same_object v x y).
  - intros v. rewrite list_elem_of_omap. split.
    + intros (p & (w & -> & _)%list_elem_of_fmap & E). exists w. by apply Hread.
    + intros [id Hv]. exists (below (at_ root dir) id). split; [|by apply Hread]. apply list_elem_of_fmap. exists id. split; [done|].
      apply elem_of_listing. destruct (rep_good _ _ _ Hrep _ _ Hv) as (_ & _ & _ & [data E]).
      exists (at_ root (place (L id))), data. split; [rewrite (rep_lookup _ _ _ _ Hrep), Hv; done|].
      unfold subdir_name. rewrite Hplace, (proj2 (rest_of_Some root dir _ [id; filename]) eq_refl). done.
Qed.
End list.

Lemma insert_by_map {A B} (f : A → B) lt x l : insert_by lt (f x) (map f l) = map f (insert_by (λ a b, lt (f a) (f b)) x l).
Proof. induction l as [|y l IH]; cbn; [done|]. destruct (lt (f y) (f x)); [|done]. cbn. by rewrite IH. Qed.

Lemma sort_by_fmap {A B} (f : A → B) lt l : sort_by lt (map f l) = map f (sort_by (λ a b, lt (f a) (f b)) l).
Proof. induction l as [|x l IH]; [done|]. cbn. unfold sort_by in IH. by rewrite IH, insert_by_map. Qed.

Lemma sort_by_time_sorted {A} (t : A → Z) l : StronglySorted (λ a b, (t b <? t a) = false) (sort_by (λ a b, t a <? t b) l).
Proof. apply (sort_by_sorted _ (λ _, True)); [lia..|]. by apply Forall_forall. Qed.

Lemma StronglySorted_map {A B} (R : B → B → Prop) (f : A → B) l : StronglySorted (λ a b, R (f a) (f b)) l → StronglySorted R (map f l).
Proof. induction 1 as [|x l _ IH Hx]; cbn; constructor; [done|]. by apply Forall_map. Qed.

Lemma filter_True {A} (l : list A) : filter (λ _, True) l = l.
Proof. induction l as [|x l IH]; [done|]. rewrite filter_cons_True by done. by rewrite IH. Qed.

Section listed.
Context {doc : Type} `{Files} `{Codecs doc} (root : string).
Context {A} (V W : A → value) (L : string → loc) (c : coll) (t : A → time) (sel : A → Prop) `{!∀ a, Decision (sel a)}.
Context (d : gmap path doc) (m : gmap loc value) (Hrep : rep root d m) (vs : list A) (Hvs : exact_list V L m vs).
Context (HW : ∀ a, shown (V a) = W a) (Ht : ∀ a, created (W a) = t a).
Context (Hinj : ∀ id id' a b, m !! L id = Some (V a) → m !! L id' = Some (V b) → W a = W b → a = b).
Context (Hin : ∀ l v pid, loc_of pid v = l → in_coll c l v → ∃ id a, l = L id ∧ v = V a ∧ sel a).
Context (Hout : ∀ id a, sel a → in_coll c (L id) (V a)).

Lemma listed_of vs' : vs' ≡ₚ filter sel vs →
  (match c with CAssertions _ _ => True | _ => StronglySorted (λ a b, (t b <? t a) = false) vs' end) → listed m c (map W vs').
Proof.
  destruct Hvs as [Hnd Hel]. intros Hperm Hs. split_and!.
  - apply NoDup_fmap_2_strong; [|rewrite Hperm; by apply NoDup_filter].
    intros a b [_ [id Ha]%Hel]%(elem_of_Permutation_proper _ _ _ Hperm)%list_elem_of_filter [_ [id' Hb]%Hel]%(elem_of_Permutation_proper _ _ _ Hperm)%list_elem_of_filter. by apply (Hinj id id').
  - intros v. change (map W vs') with (W <$> vs'). rewrite list_elem_of_fmap. setoid_rewrite (elem_of_Permutation_proper _ _ _ Hperm). split.
    + intros (a & -> & [Hsel [id Ha]%Hel]%list_elem_of_filter). exists (L id), (V a). split_and!; [done|by apply Hout|by rewrite HW].
    + intros (l & w & Hw & Hc & ->). destruct (rep_good _ _ _ Hrep _ _ Hw) as (_ & _ & (pid & E) & _).
      destruct (Hin _ _ _ E Hc) as (id & a & -> & -> & Hsel). exists a. split; [by rewrite HW|]. apply list_elem_of_filter.
      split; [done|]. apply Hel. by exists id.
  - assert (∀ l, StronglySorted (λ a b, (t b <? t a) = false) l → StronglySorted (λ a b, (created b <? created a) = false) (map W l)) as Hw.
    { intros l Hsort. apply StronglySorted_map. induction Hsort as [|a l _ IH Ha]; constructor; [done|].
      eapply Forall_impl; [exact Ha|]. intros b. cbn. by rewrite !Ht. }
    destruct c; auto.
Qed.

Lemma listed_sorted : listed m c (map W (sort_by (λ a b, t a <? t b) (filter sel vs))).
Proof. apply listed_of; [apply sort_by_Permutation|]. destruct c; try done; apply sort_by_time_sorted. Qed.
End listed.

Section refinement.
Context {doc : Type} `{Files} `{Codecs doc} (root : string) (Hdisk : sound_disk).
Implicit Types (d : gmap path doc) (m : gmap loc value).

(** Goals about the constructors of locations and resources. *)
Ltac by_cases :=
  repeat match goal with
  | |- Inj _ _ _ => intros ?? [=]; assumption
  | |- ∀ _, _ => intro
  | v : value |- _ => destruct v; cbn in *; simplify_eq
  | l : loc |- _ => destruct l; cbn in *; simplify_eq
  end; cbn in *; simplify_eq; destruct_and?; simplify_eq; try done;
  repeat match goal with E : json _ = json _ |- _ => apply json_inj in E; simplify_eq end; eauto 10.

Lemma listed_all {A} (c : coll) (V : A → value) (L : string → loc) (t : A → time) d m vs (r : result store_error (list A)) :
  rep root d m → r = Ok vs → exact_list V L m vs → (∀ a, shown (V a) = V a) → (∀ a, created (V a) = t a) → Inj (=) (=) V →
  (∀ l v pid, loc_of pid v = l → in_coll c l v → ∃ id a, l = L id ∧ v = V a ∧ True) → (∀ id a, in_coll c (L id) (V a)) →
  ∃ ws, map_ok (map V) (by_time t r) = Ok ws ∧ listed m c ws.
Proof.
  intros Hr -> Hvs HW Ht HV Hin Hout. eexists. split; [done|]. rewrite <-(filter_True vs).
  eapply (listed_sorted root V V L c t (λ _, True)); try done. intros id id' a b _ _ E. by apply HV.
Qed.

Lemma dirs_plain_project p : plain p → Forall plain ["projects"; p]%string.
Proof. intros Hp. rewrite !Forall_cons. split_and!; [by apply (bool_decide_unpack _)|done|done]. Qed.

Lemma dirs_plain_collection p c : plain p → plain c → Forall plain ["projects"; p; c]%string.
Proof. intros Hp Hc. rewrite !Forall_cons. split_and!; [by apply (bool_decide_unpack _)|done|done|done]. Qed.

Lemma dirs_plain_test p t c : plain p → plain t → plain c → Forall plain ["projects"; p; "tests"; t; c]%string.
Proof. intros Hp Ht Hc. rewrite !Forall_cons. split_and!; try done; by apply (bool_decide_unpack _). Qed.

Lemma list_spec c d m : rep root d m → plain_coll root c → ∃ vs, list_ root c d = Ok vs ∧ listed m c vs.
Proof.
  intros Hr Hp. destruct c as [| |p|p|p t|p t|p t|p t|p|p w|p|p]; cbn [list_ plain_coll] in *.
  - destruct (list_files_spec root Hdisk VKey LKey ["apikeys"%string] d m Hr) with (λ _ : path, true) as (vs & E & Hvs);
      [by apply (bool_decide_unpack _)|by_cases..|].
    unfold ListAPIKeys, apikeysDir. rewrite E. unfold by_time, map_ok. rewrite sort_by_fmap, map_map. eexists. split; [done|].
    rewrite <-(filter_True vs). eapply (listed_sorted root VKey (λ k, VKey (mkstoredAPIKey (sk_APIKey k) "")) LKey CKeys
      (λ k, k_CreatedAt (sk_APIKey k)) (λ _, True)); [done|done|done|done| |by_cases..].
    intros id id' a b Ha Hb [= Eab]. assert (id = id') as <-; [|congruence].
    destruct (rep_good _ _ _ Hr _ _ Ha) as (_ & _ & (? & [= <-]) & _), (rep_good _ _ _ Hr _ _ Hb) as (_ & _ & (? & [= <-]) & _). by rewrite Eab.
  - destruct (list_subdirs_spec root Hdisk VProject LProject ["projects"%string] d m Hr) with "project.json"%string as (vs & E & Hvs); [by apply (bool_decide_unpack _)|by_cases..|].
    eapply (listed_all CProjects VProject LProject proj_CreatedAt); [done|exact E|done|done|done|by_cases..].
  - destruct (list_subdirs_spec root Hdisk VEnv (LEnv p) ["projects"; p; "environments"]%string d m Hr) with "environment.json"%string as (vs & E & Hvs); [apply dirs_plain_collection; [done|by apply (bool_decide_unpack _)]|by_cases..|].
    eapply (listed_all (CEnvs p) VEnv (LEnv p) env_CreatedAt); [done|exact E|done|done|done|by_cases..].
  - destruct (list_subdirs_spec root Hdisk VTest (LTest p) ["projects"; p; "tests"]%string d m Hr) with "test.json"%string as (vs & E & Hvs); [apply dirs_plain_collection; [done|by apply (bool_decide_unpack _)]|by_cases..|].
    eapply (listed_all (CTests p) VTest (LTest p) t_CreatedAt); [done|exact E|done|done|done|by_cases..].
  - destruct (list_subdirs_spec root Hdisk VRun (LRun p t) ["projects"; p; "tests"; t; "runs"]%string d m Hr) with "run.json"%string as (vs & E & Hvs); [destruct Hp; apply dirs_plain_test; [done|done|by apply (bool_decide_unpack _)]|by_cases..|].
    eapply (listed_all (CRuns p t) VRun (LRun p t) r_CreatedAt); [done|exact E|done|done|done|by_cases..].
  - destruct (list_files_spec root Hdisk VFinding (LFinding p t) ["projects"; p; "tests"; t; "findings"]%string d m Hr) with (λ _ : path, true) as (vs & E & Hvs); [destruct Hp; apply dirs_plain_test; [done|done|by apply (bool_decide_unpack _)]|by_cases..|].
    eapply (listed_all (CFindings p t) VFinding (LFinding p t) f_FirstSeenAt); [done|exact E|done|done|done|by_cases..].
  - destruct (list_files_spec root Hdisk VAssertion (LAssertion p t) ["projects"; p; "tests"; t; "assertions"]%string d m Hr) with (λ _ : path, true)
      as (vs & E & Hvs); [destruct Hp; apply dirs_plain_test; [done|done|by apply (bool_decide_unpack _)]|by_cases..|].
    unfold ListAssertions, assertionsDir, testDir, projectDir. cbn [app]. rewrite E. unfold map_ok. eexists. split; [done|].
    eapply (listed_of root VAssertion VAssertion (LAssertion p t) (CAssertions p t) (λ _, 0) (λ _, True)); [done|done|done|done|by_cases..| |done].
    by rewrite filter_True.
  - destruct (list_files_spec root Hdisk VReport (LReport p t) ["projects"; p; "tests"; t; "reports"]%string d m Hr) with (λ _ : path, true) as (vs & E & Hvs); [destruct Hp; apply dirs_plain_test; [done|done|by apply (bool_decide_unpack _)]|by_cases..|].
    eapply (listed_all (CReports p t) VReport (LReport p t) rp_CreatedAt); [done|exact E|done|done|done|by_cases..].
  - destruct Hp as [Hp Hdel].
    destruct (list_files_spec root Hdisk VWebhook (LWebhook p) ["projects"; p; "webhooks"]%string d m Hr) with (λ q, negb (path_contains q "deliveries"))
      as (vs & E & Hvs); [apply dirs_plain_collection; [done|by apply (bool_decide_unpack _)]|by_cases..| |].
    { intros id v Hv. destruct (rep_good _ _ _ Hr _ _ Hv) as (_ & [_ Hw] & (pid & E) & _). destruct v; try done. cbn in E. injection E as E1 <-.
      apply negb_true_iff. revert Hdel. unfold path_contains, webhooksDir, projectDir. cbn [app place].
      rewrite locate_at by (apply dirs_plain_collection; [done|by apply (bool_decide_unpack _)]). unfold at_. cbn [snd].
      rewrite !existsb_app. cbn [existsb]. rewrite Hw, !orb_false_r, !orb_false_iff. tauto. }
    eapply (listed_all (CWebhooks p) VWebhook (LWebhook p) wh_CreatedAt); [done|exact E|done|done|done|by_cases..].
  - destruct (list_files_spec root Hdisk VDelivery (LDelivery p) ["projects"; p; "webhooks"; "deliveries"]%string d m Hr) with (λ _ : path, true)
      as (vs & E & Hvs); [rewrite !Forall_cons; split_and!; try done; by apply (bool_decide_unpack _)|by_cases..|].
    unfold ListWebhookDeliveries, deliveriesDir, webhooksDir, projectDir. cbn [app]. rewrite E. unfold by_time, map_ok. eexists. split; [done|].
    eapply (listed_sorted root VDelivery VDelivery (LDelivery p) (CDeliveries p w) wd_CreatedAt (λ v, wd_WebhookID v = w)); [done|done|done|done|by_cases..].
  - destruct (list_files_spec root Hdisk VReplay (LReplay p) ["projects"; p; "replays"]%string d m Hr) with (λ _ : path, true) as (vs & E & Hvs); [apply dirs_plain_collection; [done|by apply (bool_decide_unpack _)]|by_cases..|].
    eapply (listed_all (CReplays p) VReplay (LReplay p) rpl_CreatedAt); [done|exact E|done|done|done|by_cases..].
  - destruct (list_files_spec root Hdisk VNotebook (LNotebook p) ["projects"; p; "notebooks"]%string d m Hr) with (λ _ : path, true) as (vs & E & Hvs); [apply dirs_plain_collection; [done|by apply (bool_decide_unpack _)]|by_cases..|].
    eapply (listed_all (CNotebooks p) VNotebook (LNotebook p) nb_CreatedAt); [done|exact E|done|done|done|by_cases..].
Qed.

Lemma exec_refines o d m : rep root d m → good_op root o →
  ∃ x d' m', exec root o d = (x, d') ∧ spec o m x m' ∧ rep root d' m'.
Proof.
  intros Hr Hg. destruct o as [pid v|l|l|c]; cbn [good_op] in Hg.
  - apply save_spec; [done|done|tauto|]. split; tauto.
  - exists (Got (get root l d)), d, m. split; [done|]. split; [|done]. cbn [spec]. by rewrite (get_spec root Hdisk d m l).
  - destruct Hg. by apply delete_spec.
  - destruct (list_spec c d m Hr Hg) as (vs & E & Hvs). exists (Listed (Ok vs)), d, m. cbn [exec spec]. rewrite E. split; [done|].
    split; [|done]. split; [|done]. by exists vs.
Qed.

Lemma rep_empty : rep root (∅ : gmap path doc) ∅.
Proof. split; [done|]. intros p data. rewrite lookup_empty. split; [done|]. intros (l & v & Hv & _). by rewrite lookup_empty in Hv. Qed.

Lemma exec_all_refines ops d m : rep root d m → Forall (good_op root) ops →
  ∃ m', spec_all ops m (exec_all root ops d).1 m' ∧ rep root (exec_all root ops d).2 m'.
Proof.
  intros Hr Hg. revert d m Hr. induction Hg as [|o ops Ho _ IH]; intros d m Hr; [by exists m|].
  destruct (exec_refines o d m Hr Ho) as (x & d' & m1 & E & Hs & Hr'). destruct (IH d' m1 Hr') as (m' & Hall & Hrep).
  cbn [exec_all]. rewrite E. destruct (exec_all root ops d') as [xs d'']. exists m'. split; [|done]. by exists m1.
Qed.

(** C8: The store is a map.  Starting with no files, any sequence of its
    operations on identifiers that are file names gives the answers that a
    finite map from identities to resources gives: reads return what was saved
    last, absent settings and coverage read as the defaults, a deleted project or
    test takes all that it contains and nothing else, and a listing has every
    resource of its collection once, in the order of creation; and the disk ends
    with a file for each resource of the map and no other. *)
Theorem store_refines ops : Forall (good_op root) ops →
  ∃ m, spec_all ops ∅ (exec_all root ops ∅).1 m ∧ rep root (exec_all root ops ∅).2 m.
Proof. apply exec_all_refines, rep_empty. Qed.
End refinement.

(** ** A store to run *)

(** Resources as their own encoding, on a disk where no call fails. *)
Module Plain.
#[export] Instance files : Files := Build_Files (λ _, true) (λ _, true) (λ _, true) (λ _, true) (λ _, true) (λ _, true) (λ _, true).

#[export] Instance codecs : Codecs value := {|
  codec_settings := {| encode := λ v, Some (VSettings v); decode := λ x, match x with VSettings v => Some v | _ => None end |};
  codec_key := {| encode := λ v, Some (VKey v); decode := λ x, match x with VKey v => Some v | _ => None end |};
  codec_project := {| encode := λ v, Some (VProject v); decode := λ x, match x with VProject v => Some v | _ => None end |};
  codec_environment := {| encode := λ v, Some (VEnv v); decode := λ x, match x with VEnv v => Some v | _ => None end |};
  codec_test := {| encode := λ v, Some (VTest v); decode := λ x, match x with VTest v => Some v | _ => None end |};
  codec_run := {| encode := λ v, Some (VRun v); decode := λ x, match x with VRun v => Some v | _ => None end |};
  codec_finding := {| encode := λ v, Some (VFinding v); decode := λ x, match x with VFinding v => Some v | _ => None end |};
  codec_assertion := {| encode := λ v, Some (VAssertion v); decode := λ x, match x with VAssertion v => Some v | _ => None end |};
  codec_coverage := {| encode := λ v, Some (VCoverage v); decode := λ x, match x with VCoverage v => Some v | _ => None end |};
  codec_report := {| encode := λ v, Some (VReport v); decode := λ x, match x with VReport v => Some v | _ => None end |};
  codec_webhook := {| encode := λ v, Some (VWebhook v); decode := λ x, match x with VWebhook v => Some v | _ => None end |};
  codec_delivery := {| encode := λ v, Some (VDelivery v); decode := λ x, match x with VDelivery v => Some v | _ => None end |};
  codec_replay := {| encode := λ v, Some (VReplay v); decode := λ x, match x with VReplay v => Some v | _ => None end |};
  codec_notebook := {| encode := λ v, Some (VNotebook v); decode := λ x, match x with VNotebook v => Some v | _ => None end |} |}.

Lemma sound : sound_disk.
Proof. done. Qed.

Lemma faithful_all v : faithful v.
Proof. by destruct v; intros pid data [= <-]. Qed.

Definition project (id : string) (t : time) : Project := mkProject id "" "" t t (mkProjectStats 0 0 0).
Definition webhook (pid id : string) : Webhook := mkWebhook id pid "https://example.com" ["run.failed"%string] true 0 0.
Definition api_key (id : string) : storedAPIKey := mkstoredAPIKey (mkAPIKey id "" "live" "" "" 0 None) "h".
End Plain.
Import Plain.

Definition example_ops : list op :=
  [Save "" (VProject (project "proj_b" 2)); Save "" (VProject (project "proj_a" 1)); Save "" (VWebhook (webhook "proj_a" "wh_1"));
   Get (LProject "proj_a"); Get (LCoverage "proj_a" "tst_1"); List CProjects; List (CWebhooks "proj_a"); Delete (LProject "proj_a");
   List (CWebhooks "proj_a"); List CProjects; Get (LProject "proj_a")].

Example example_outs : (exec_all "/var/lib/openthesis" example_ops ∅).1 =
  [Saved None; Saved None; Saved None; Got (Ok (VProject (project "proj_a" 1))); Got (Ok (VCoverage (empty_coverage "tst_1")));
   Listed (Ok [VProject (project "proj_a" 1); VProject (project "proj_b" 2)]); Listed (Ok [VWebhook (webhook "proj_a" "wh_1")]); Saved None;
   Listed (Ok []); Listed (Ok [VProject (project "proj_b" 2)]); Got (Err errNotFound)].
Proof. vm_compute. reflexivity. Qed.

Lemma example_ops_good : Forall (good_op "/var/lib/openthesis") example_ops.
Proof.
  unfold example_ops. rewrite !Forall_cons. cbn -[path_contains locate Contains json].
  unfold plain_loc. cbn [loc_of loc_parts snd proj_ID wh_ProjectID wh_ID project webhook]. rewrite ?Forall_cons.
  split_and!; first [done | apply faithful_all | by apply (bool_decide_unpack _) | by vm_compute].
Qed.

Lemma store_refines_witness : Forall (good_op "/var/lib/openthesis") example_ops ∧
  ∃ m, spec_all example_ops ∅ (exec_all "/var/lib/openthesis" example_ops ∅).1 m ∧
       rep "/var/lib/openthesis" (exec_all "/var/lib/openthesis" example_ops ∅).2 m.
Proof. split; [apply example_ops_good|]. apply (store_refines "/var/lib/openthesis" sound), example_ops_good. Defined.

(** ** Identifiers that are not file names *)

(** A request may name any file that ends in [.json]: deleting a webhook deletes
    an API key. *)
Lemma webhook_escapes :
  let d := (SaveAPIKey "/state" (api_key "otk_1") ∅).2 : gmap path value in
  GetAPIKey "/state" "otk_1" d = Ok (api_key "otk_1") ∧
  GetAPIKey "/state" "otk_1" (DeleteWebhook "/state" "proj_a" "../../../apikeys/otk_1" d).2 = Err errNotFound.
Proof. vm_compute. split; reflexivity. Qed.

(** A project whose identifier has the word "deliveries" has no webhooks. *)
Lemma deliveries_hide_webhooks :
  let d := (SaveWebhook "/state" (webhook "proj_food_deliveries" "wh_1") ∅).2 : gmap path value in
  GetWebhook "/state" "proj_food_deliveries" "wh_1" d = Ok (webhook "proj_food_deliveries" "wh_1") ∧
  ListWebhooks "/state" "proj_food_deliveries" d = Ok [].
Proof. vm_compute. split; reflexivity. Qed.
