(* ===== verification/Runner.v ===== *)
(** * The test runner ([internal/test/runner.go])

    [Execute] and [Replay] resolve a run for the orchestrator and take the result
    apart; the orchestrator and the file system that [filepath.Glob] reads are the
    class [Orchestrator]. *)
From stdpp Require Import strings pretty.
From S2P Require Import Prelude Float Word GoLib TestConfig Explorer Triage Report.
Local Open Scope Z_scope.

(** ** Data *)

Record RunnerCfg := mkRunnerCfg { ru_StateDir : string; ru_QEMUBin : string; ru_RunscBin : string; ru_KernelPath : string; ru_InitBin : string }.

Record RunCfg := mkRunCfg {
  rn_RunID : string; rn_StateDir : string; rn_Seed : Z; rn_Backend : string; rn_MemoryMB : Z; rn_CorpusPath : string; rn_TestConfig : TestConfig.Config }.
#[export] Instance RunCfg_eta : Eta RunCfg := mkEta _ (λ r,
  mkRunCfg (rn_RunID r) (rn_StateDir r) (rn_Seed r) (rn_Backend r) (rn_MemoryMB r) (rn_CorpusPath r) (rn_TestConfig r)).

Record RunViolation := mkRunViolation {
  rx_Property : string; rx_Message : string; rx_Seed : Z; rx_Step : Z; rx_Details : list (string * any) }.

Record AssertionResult := mkAssertionResult { ar_Total : Z; ar_Passed : Z; ar_Failed : Z }.

Record RunPropertyCount := mkRunPropertyCount {
  pn_AssertType : string; pn_Message : string; pn_Total : Z; pn_Passed : Z; pn_Failed : Z }.

Record RunResult := mkRunResult {
  rr_TotalStates : Z; rr_MaxDepth : Z; rr_TotalEdges : Z; rr_NewEdges : Z; rr_Violations : list RunViolation;
  rr_Always : AssertionResult; rr_Sometimes : AssertionResult; rr_Reachable : AssertionResult;
  rr_PropertyCounts : list RunPropertyCount; rr_Duration : Z; rr_Err : option string }.
#[export] Instance RunResult_eta : Eta RunResult := mkEta _ (λ r,
  mkRunResult (rr_TotalStates r) (rr_MaxDepth r) (rr_TotalEdges r) (rr_NewEdges r) (rr_Violations r) (rr_Always r) (rr_Sometimes r)
    (rr_Reachable r) (rr_PropertyCounts r) (rr_Duration r) (rr_Err r)).

(** The zero result with an error. *)
Definition failed_result (err : string) : RunResult :=
  mkRunResult 0 0 0 0 [] (mkAssertionResult 0 0 0) (mkAssertionResult 0 0 0) (mkAssertionResult 0 0 0) [] 0 (Some err).

(** The fields of [orchestrator.RunConfig] that the runner sets. *)
Record RunConfig := mkRunConfig {
  oc_TestConfig : TestConfig.Config; oc_StateDir : string; oc_QEMUBinary : string; oc_RunscBinary : string; oc_InitBinary : string;
  oc_Seed : Z; oc_MemoryMB : Z; oc_SetupTimeout : Z; oc_Backend : string; oc_CorpusPath : string; oc_RequirePMC : bool;
  oc_FaultSchedulePath : string; oc_ReplayFile : string; oc_RecordReplay : string }.
#[export] Instance RunConfig_eta : Eta RunConfig := mkEta _ (λ r,
  mkRunConfig (oc_TestConfig r) (oc_StateDir r) (oc_QEMUBinary r) (oc_RunscBinary r) (oc_InitBinary r) (oc_Seed r) (oc_MemoryMB r)
    (oc_SetupTimeout r) (oc_Backend r) (oc_CorpusPath r) (oc_RequirePMC r) (oc_FaultSchedulePath r) (oc_ReplayFile r) (oc_RecordReplay r)).

(** [orchestrator.RunResult]: its run, what the explorer returned and the report. *)
Record OrchResult := mkOrchResult { or_RunID : string; or_Explorer : option Result; or_Report : option Report }.

Record OrchReplay := mkOrchReplay { op_Reproduced : bool; op_Run : option OrchResult; op_Matched : option ViolationEntry }.

Class Orchestrator (W : Type) := {
  New : RunConfig → W → option string * W;
  Run : RunConfig → W → result string (option OrchResult) * W;
  OrchestratorReplay : RunConfig → option Artifact → W → result string (option OrchReplay) * W;
  Glob : string → W → result string (list string) }.

(** ** Running *)

Definition parseBackend (s : string) : string :=
  if bool_decide (s = "patched"%string) then "patched" else if bool_decide (s = "gvisor"%string) then "gvisor" else "tcg".

Definition or_default (s d : string) : string := if bool_decide (s = ""%string) then d else s.

Section runner.
Context {W : Type} `{Orchestrator W} (r : RunnerCfg).

(** What the two kinds of run share. *)
Definition orch_config (cfg : RunCfg) (kind backend : string) (seed : Z) : RunConfig :=
  mkRunConfig (rn_TestConfig cfg) (or_default (rn_StateDir cfg) (ru_StateDir r +:+ "/" +:+ kind +:+ "/" +:+ rn_RunID cfg)) (ru_QEMUBin r) (ru_RunscBin r)
    (ru_InitBin r) seed (if rn_MemoryMB cfg =? 0 then 2048 else rn_MemoryMB cfg) (5 * 60 * 1000000000) backend "" true "" "" "".

Definition run_violation (seed : Z) (v : ViolationEntry) : RunViolation :=
  mkRunViolation (e_Property v) (e_Message v) seed (e_Step v) (e_Details v).

Definition run_count (pc : PropertyCount) : RunPropertyCount :=
  mkRunPropertyCount (pcAssertType pc) (pcMessage pc) (Total pc) (Passed pc) (Failed pc).

Definition result_of (seed : Z) (e : Result) (rpt : option Report) : RunResult :=
  let a := rAssertions e in
  mkRunResult (int64 (rTotalStates e)) (match rpt with Some p => s_MaxDepth (rp_Summary p) | None => 0 end) (int64 (rTotalEdges e))
    (int64 (rNewEdges e)) (match rpt with Some p => map (run_violation seed) (Violations p) | None => [] end)
    (mkAssertionResult (AlwaysTotal a) (AlwaysPassed a) (AlwaysFailed a)) (mkAssertionResult (SometimesTotal a) (SometimesPassed a) 0)
    (mkAssertionResult (ReachableTotal a) (ReachablePassed a) 0) (map run_count (rPropertyCounts e)) (rDuration e) None.

Definition Execute (cfg : RunCfg) (w : W) : RunResult * W :=
  let oc := orch_config cfg "runs" (parseBackend (rn_Backend cfg)) (rn_Seed cfg) <| oc_CorpusPath := rn_CorpusPath cfg |> in
  match New oc w with
  | (Some err, w) => (failed_result ("orchestrator.New: " +:+ err), w)
  | (None, w) =>
      match Run oc w with
      | (Err err, w) => (failed_result err, w)
      | (Ok (Some (mkOrchResult _ (Some e) rpt)), w) => (result_of (rn_Seed cfg) e rpt, w)
      | (Ok _, w) => (failed_result "orchestrator returned nil result", w)
      end
  end.

(** ** Replaying *)

Record ReplayResult := mkReplayResult {
  rq_Reproduced : bool; rq_MatchedStep : Z; rq_MatchedMessage : string; rq_MatchedSnap : string; rq_RunID : string; rq_TotalStates : Z;
  rq_TotalEdges : Z; rq_Violations : list RunViolation; rq_Err : option string }.

Definition failed_replay (err : string) : ReplayResult := mkReplayResult false 0 "" "" "" 0 0 [] (Some err).

(** [None] is a panic: [Replay] reads [result.Run.Explorer] without the check
    that [Execute] makes. *)
Definition Replay (cfg : RunCfg) (artifact : option Artifact) (w : W) : option (ReplayResult * W) :=
  let backend := match artifact with
                 | Some a => if bool_decide (rn_Backend cfg = ""%string) then parseBackend (a_Backend a) else parseBackend (rn_Backend cfg)
                 | None => parseBackend (rn_Backend cfg)
                 end in
  let seed := match artifact with Some a => if rn_Seed cfg =? 0 then a_Seed a else rn_Seed cfg | None => rn_Seed cfg end in
  let oc := orch_config cfg "replays" backend seed in
  let oc := match artifact with
            | Some a =>
                let oc := oc <| oc_FaultSchedulePath := a_FaultSchedule a |> <| oc_ReplayFile := a_ReplayFile a |> in
                if bool_decide (a_ReplayFile a = ""%string) then oc else oc <| oc_RecordReplay := "replay"%string |>
            | None => oc
            end in
  match OrchestratorReplay oc artifact w with
  | (Err err, w) => Some (failed_replay err, w)
  | (Ok (Some (mkOrchReplay reproduced (Some run) matched)), w) =>
      match or_Explorer run with
      | None => None
      | Some e =>
          Some (mkReplayResult reproduced (match matched with Some v => e_Step v | None => 0 end)
            (match matched with Some v => e_Message v | None => ""%string end)
            (match matched with Some v => pretty (e_SnapshotID v) | None => ""%string end)
            (or_RunID run) (int64 (rTotalStates e)) (int64 (rTotalEdges e))
            (match or_Report run with Some p => map (run_violation seed) (Violations p) | None => [] end) None, w)
      end
  | (Ok _, w) => Some (failed_replay "replay returned nil result", w)
  end.

(** ** Paths *)

Definition DefaultKernelPath : string := ru_KernelPath r.
Definition DefaultStateDir : string := ru_StateDir r.

Definition run_pattern (runID rest : string) : string := ru_StateDir r +:+ "/runs/" +:+ runID +:+ rest.

Definition ViolationBundleDirs (runID property : string) (w : W) : result string (list string) :=
  match Glob (run_pattern runID ("/*/violations/violation-*-" +:+ SanitizeProperty property)) w with
  | Err err => Err ("violation bundle glob: " +:+ err)
  | r => r
  end.

Definition CorpusPath (pid tid : string) : string :=
  ru_StateDir r +:+ "/projects/" +:+ pid +:+ "/tests/" +:+ tid +:+ "/corpus/coverage.json".

Definition SDKOutputGlob (runID : string) : string := run_pattern runID "/*/output/sdk.jsonl".
Definition ReportGlob (runID : string) : string := run_pattern runID "/*/report.json".
Definition FaultScheduleGlob (runID : string) : string := run_pattern runID "/*/fault-schedule.json".

Definition globFirst (pattern : string) (w : W) : string :=
  match Glob pattern w with Ok (m :: _) => m | _ => ""%string end.

Definition FaultSchedulePath (runID : string) (w : W) : string := globFirst (FaultScheduleGlob runID) w.

Definition EventStorePath (runID : string) (w : W) : string :=
  or_default (globFirst (run_pattern runID "/*/events.jsonl") w) (run_pattern runID "/events.jsonl").

Definition SnapshotTreePath (runID : string) (w : W) : string :=
  or_default (globFirst (run_pattern runID "/*/snapshot-tree.json") w) (run_pattern runID "/snapshot-tree.json").

Definition InputTapePath (runID : string) : string := run_pattern runID "/input-tape.json".
End runner.
