(* ===== verification/TestManager.v ===== *)
(** * The test manager of the API server ([internal/api/testmanager.go])

    Tests are started and stopped, runs are triggered, executed by the runner and
    cancelled, each by goroutines of their own.  A goroutine is a program of
    [Interleave] over the server's state: a step is one call of the store, one
    critical section of the manager, a reading of the clock or of the random
    source, or one call of the runner.  What a goroutine starts with [go] is a
    value of [task] in its result. *)
From stdpp Require Import strings pretty.
From S2P Require Import Prelude Strings Word Float GoLib Json Sha256 TestConfig Runner ApiData FileStore Interleave.
Local Open Scope Z_scope.

(** ** Durations *)

Definition second : Z := 1000000000.

(** [t.Sub(u)] saturates. *)
Definition Sub (t u : time) : Z := Z.max (- 2 ^ 63) (Z.min (2 ^ 63 - 1) (t - u)).

(** [d.Round(m)] for positive [m]: half is rounded away from zero. *)
Definition Round (d m : Z) : Z :=
  if d <? 0 then
    let r := Z.rem (- d) m in
    if 2 * r <? m then d + r else let d1 := d - m + r in if - 2 ^ 63 <=? d1 then d1 else - 2 ^ 63
  else
    let r := Z.rem d m in
    if 2 * r <? m then d - r else let d1 := d + m - r in if d1 <? 2 ^ 63 then d1 else 2 ^ 63 - 1.

Fixpoint last_digits (n : nat) (u : Z) : string :=
  match n with
  | O => ""
  | S n => last_digits n (u / 10) +:+ pretty (u mod 10)
  end.

(** The fraction of [u] over [10 ^ prec], without zeros at its end. *)
Fixpoint fraction (prec : nat) (u : Z) : string :=
  match prec with
  | O => ""
  | S prec' => if u mod 10 =? 0 then fraction prec' (u / 10) else "." +:+ last_digits prec u
  end.

Definition fmtFrac (u : Z) (prec : nat) : string := pretty (u / 10 ^ Z.of_nat prec) +:+ fraction prec (u mod 10 ^ Z.of_nat prec).

(** [d.String()]. *)
Definition Duration_String (d : Z) : string :=
  let u := Z.abs d in
  let sign := if d <? 0 then "-"%string else ""%string in
  sign +:+
  (if u =? 0 then "0s"
   else if u <? 1000 then pretty u +:+ "ns"
   else if u <? 1000000 then fmtFrac u 3 +:+ micro_sign
   else if u <? second then fmtFrac u 6 +:+ "ms"
   else
     let secs := pretty (u / second mod 60) +:+ fraction 9 (u mod second) +:+ "s" in
     let mins := u / second / 60 in
     if mins =? 0 then secs
     else let m := pretty (mins mod 60) +:+ "m" +:+ secs in if mins / 60 =? 0 then m else pretty (mins / 60) +:+ "h" +:+ m).

Example Duration_String_ex :
  map Duration_String [0; 5000000000; 65000000000; 3600000000000; 1500000000; -2000000; 1; 1001000; Round 89500000000 second] =
  ["0s"; "5s"; "1m5s"; "1h0m0s"; "1.5s"; "-2ms"; "1ns"; "1.001ms"; "1m30s"]%string.
Proof. vm_compute. reflexivity. Qed.

(** ** The server's state *)

(** The clock, and [rand.Read] of a number of bytes. *)
Class Host (W : Type) := { read_clock : W → time * W; rand_read : nat → W → option (list Z) * W }.

(** A context: its number among those made so far. *)
Definition ctx : Type := nat.

(** [jobCancel] is [None] for a job that a run made for itself. *)
Record testJob := mkJob { jobCancel : option ctx; runCancels : gmap string ctx }.
#[export] Instance testJob_eta : Eta testJob := mkEta _ (λ r, mkJob (jobCancel r) (runCancels r)).

Inductive payload := PRun (r : Run) | PFinding (f : Finding) | PTest (t : Test).

Record notification := mkNotification { nt_pid : string; nt_event : string; nt_payload : payload }.

(** [cancelled] are the contexts that were cancelled; [outbox] the calls of
    [notify], in order. *)
Record server (doc W : Type) := mkServer {
  disk : gmap path doc; active : gmap string testJob; nextCtx : nat; cancelled : gset nat; outbox : list notification; world : W }.
Arguments mkServer {doc W}. Arguments disk {doc W}. Arguments active {doc W}. Arguments nextCtx {doc W}.
Arguments cancelled {doc W}. Arguments outbox {doc W}. Arguments world {doc W}.
#[export] Instance server_eta doc W : Eta (server doc W) := mkEta _ (λ s,
  mkServer (disk s) (active s) (nextCtx s) (cancelled s) (outbox s) (world s)).

(** A goroutine. *)
Definition M (doc W A : Type) : Type := prog (server doc W) A.
#[export] Instance M_bind doc W : MBind (M doc W) := λ A B k p, prog_bind k p.
#[export] Instance M_ret doc W : MRet (M doc W) := λ A a, Done a.

(** What a goroutine starts. *)
Inductive task :=
| TExecuteRun (c : ctx) (pid tid rid : string) (env : Environment) (t : Test) (seed : Z)
| TContinuousLoop (c : ctx) (pid tid : string) (parallelism : Z)
| TCronLoop (c : ctx) (pid tid cronExpr : string).

Inductive manager_error :=
| StoreError (e : store_error)
| AlreadyRunning
| SaveTestFailed (e : store_error)
| SaveRunFailed (e : store_error)
| SeedFailed
| RunNotActive.

Definition hex_byte (b : Z) : string := String.string_of_list_ascii [hexdigit (b / 16); hexdigit (b mod 16)].
Definition hex_string (bs : list Z) : string := foldr (λ b s, hex_byte b +:+ s) "" bs.

Definition jobKey (pid tid : string) : string := pid +:+ ":" +:+ tid.

Definition fingerprintFinding (assertType message : string) : string :=
  hex_string (take 8 (Sum256 (map code (ascii_of (assertType +:+ "::" +:+ message))))).

Definition boolToInt (b : bool) : Z := if b then 1 else 0.

Definition assertionStatus (assertType : string) (satisfiedOrPassed total : Z) : string :=
  if total =? 0 then "pending"
  else if bool_decide (assertType = "sometimes"%string) || bool_decide (assertType = "reachable"%string) then
    if 0 <? satisfiedOrPassed then "satisfied" else "unsatisfied"
  else if satisfiedOrPassed <? total then "failing" else "passing".

Definition encodeReplayToken (seed : Z) (runID : string) : string := runID +:+ ".seed_" +:+ pretty seed.

Definition cron_prefix : string := "@every ".

Definition parseCronInterval (expr : string) : Z :=
  let n := String.length cron_prefix in
  if (n <? String.length expr)%nat && bool_decide (String.substring 0 n expr = cron_prefix) then
    default (24 * 3600 * second) (ParseDuration (String.substring n (String.length expr - n) expr))
  else 24 * 3600 * second.

Example cron_ex : map parseCronInterval ["@every 5m"; "*/5 * * * *"; "@every "; "@every 0s"; "@every -1s"]%string =
  [300 * second; 24 * 3600 * second; 24 * 3600 * second; 0; - second].
Proof. vm_compute. reflexivity. Qed.

Definition is_active (status : string) : bool := bool_decide (status = "running"%string) || bool_decide (status = "pending"%string).

(** ** The manager *)

Section manager.
Context {doc W : Type} `{Files} `{Codecs doc} `{Host W} `{Orchestrator W} (root : string) (runner : RunnerCfg).
Abbreviation S := (server doc W).
Notation G := (M doc W).

Definition reads {A} (f : gmap path doc → A) : G A := once (λ s, Some (f (disk s), s)).
Definition writes {A} (f : gmap path doc → A * gmap path doc) : G A :=
  once (λ s, let '(a, d) := f (disk s) in Some (a, s <| disk := d |>)).
Definition locked {A} (f : S → A * S) : G A := once (λ s, Some (f s)).
Definition panics_ {A} : G A := once (λ _, None).

Definition now : G time := once (λ s, let '(t, w) := read_clock (world s) in Some (t, s <| world := w |>)).

Definition random (n : nat) : G (option (list Z)) := once (λ s, let '(b, w) := rand_read n (world s) in Some (b, s <| world := w |>)).

Definition generateID (prefix : string) : G string :=
  b ← random 8; mret (match b with Some b => prefix +:+ "_" +:+ hex_string b | None => prefix +:+ "_fallback" end).

(** Little-endian. *)
Definition RandomSeed : G (option Z) := b ← random 8; mret (foldr (λ x n, x + 256 * n) 0 <$> b).

Definition notify (pid event : string) (p : payload) : G unit :=
  locked (λ s, (tt, s <| outbox := outbox s ++ [mkNotification pid event p] |>)).

Definition is_cancelled (c : ctx) : G bool := locked (λ s, (bool_decide (c ∈ cancelled s), s)).

Definition runner_Execute (cfg : RunCfg) : G RunResult :=
  once (λ s, let '(r, w) := Execute runner cfg (world s) in Some (r, s <| world := w |>)).

(** *** Starting and stopping a test *)

(** The job of the test with its context, or [None] when there is one. *)
Definition claim_job (key : string) : G (option ctx) :=
  locked (λ s,
    match active s !! key with
    | Some _ => (None, s)
    | None =>
        let c := nextCtx s in
        (Some c, s <| nextCtx := Datatypes.S c |> <| active := <[key := mkJob (Some c) ∅]> (active s) |>)
    end).

Definition cancel (c : ctx) (s : S) : S := s <| cancelled := {[c]} ∪ cancelled s |>.

Definition schedule_tasks (c : ctx) (pid tid : string) (t : Test) : list task :=
  let mode := ts_Mode (t_Schedule t) in
  if bool_decide (mode = "continuous"%string) then
    let p := ts_Parallelism (t_Schedule t) in [TContinuousLoop c pid tid (if p <=? 0 then 1 else p)]
  else if bool_decide (mode = "cron"%string) then [TCronLoop c pid tid (ts_Cron (t_Schedule t))]
  else [].

Definition StartTest (pid tid : string) : G (result manager_error (list task)) :=
  rt ← reads (GetTest root pid tid);
  match rt with
  | Err e => mret (Err (StoreError e))
  | Ok t =>
      let key := jobKey pid tid in
      oc ← claim_job key;
      match oc with
      | None => mret (Err AlreadyRunning)
      | Some c =>
          t0 ← now;
          let t := t <| t_Status := "running"%string |> <| t_StartedAt := Some t0 |> <| t_UpdatedAt := t0 |> in
          err ← writes (SaveTest root t);
          match err with
          | Some e =>
              _ ← locked (λ s, (tt, cancel c s <| active := delete key (active s) |>));
              mret (Err (SaveTestFailed e))
          | None => mret (Ok (schedule_tasks c pid tid t))
          end
      end
  end.

Definition StopTest (pid tid : string) : G unit :=
  let key := jobKey pid tid in
  _ ← locked (λ s,
        match active s !! key with
        | Some job =>
            let s := match jobCancel job with Some c => cancel c s | None => s end in
            (tt, s <| active := delete key (active s) |>)
        | None => (tt, s)
        end);
  rt ← reads (GetTest root pid tid);
  match rt with
  | Err _ => mret tt
  | Ok t =>
      t0 ← now;
      _ ← writes (SaveTest root (t <| t_Status := "idle"%string |> <| t_UpdatedAt := t0 |>));
      mret tt
  end.

(** *** Triggering a run *)

(** The context of a run, entered in the job of its test. *)
Definition enter_run (key rid : string) : G ctx :=
  locked (λ s,
    let c := nextCtx s in
    let job := default (mkJob None ∅) (active s !! key) in
    (c, s <| nextCtx := Datatypes.S c |> <| active := <[key := job <| runCancels := <[rid := c]> (runCancels job) |>]> (active s) |>)).

Definition new_run (pid tid rid source description : string) (isEphemeral : bool) (trigger : string) (seq seed : Z) (env : Environment)
    (t0 : time) : Run :=
  mkRun rid tid pid "pending" trigger seq (or_default source "main") isEphemeral description None None None
    (mkRunInternal seed (env_Backend env) "") t0 None None "" "".

Definition TriggerRunWithSeed (pid tid source description : string) (isEphemeral : bool) (trigger : string) (seed : Z) :
    G (result manager_error (Run * task)) :=
  rt ← reads (GetTest root pid tid);
  match rt with
  | Err e => mret (Err (StoreError e))
  | Ok t =>
      re ← reads (GetEnvironment root pid (t_EnvironmentID t));
      match re with
      | Err e => mret (Err (StoreError e))
      | Ok env =>
          oseed ← (if seed =? 0 then RandomSeed else mret (Some seed));
          match oseed with
          | None => mret (Err SeedFailed)
          | Some seed =>
              runs ← reads (ListRuns root pid tid);
              let seq := Z.of_nat (length (match runs with Ok l => l | Err _ => [] end)) + 1 in
              t0 ← now;
              rid ← generateID "run";
              let run := new_run pid tid rid source description isEphemeral trigger seq seed env t0 in
              err ← writes (SaveRun root run);
              match err with
              | Some e => mret (Err (SaveRunFailed e))
              | None =>
                  c ← enter_run (jobKey pid tid) rid;
                  mret (Ok (run, TExecuteRun c pid tid rid env t seed))
              end
          end
      end
  end.

Definition TriggerRun (pid tid source description : string) (isEphemeral : bool) (trigger : string) :
    G (result manager_error (Run * task)) :=
  TriggerRunWithSeed pid tid source description isEphemeral trigger 0.

(** *** Cancelling a run *)

Definition cancel_run (key rid : string) : G unit :=
  locked (λ s,
    match active s !! key with
    | Some job =>
        match runCancels job !! rid with
        | Some c => (tt, cancel c s <| active := <[key := job <| runCancels := delete rid (runCancels job) |>]> (active s) |>)
        | None => (tt, s)
        end
    | None => (tt, s)
    end).

Definition CancelRun (pid tid rid : string) : G (option manager_error) :=
  _ ← cancel_run (jobKey pid tid) rid;
  rr ← reads (GetRun root pid tid rid);
  match rr with
  | Err e => mret (Some (StoreError e))
  | Ok run =>
      if negb (is_active (r_Status run)) then mret (Some RunNotActive)
      else
        t0 ← now;
        err ← writes (SaveRun root (run <| r_Status := "cancelled"%string |> <| r_CompletedAt := Some t0 |>));
        mret (StoreError <$> err)
  end.

(** *** Executing a run *)

Definition node_of (n : NodeDef) : Node :=
  mkNode (n_Name n) (n_Binary n) (n_Args n) (n_Env n) (n_ReadyProbe n) "" (n_Daemon n) "" fzero fzero.

Definition or_zero (x d : Z) : Z := if x =? 0 then d else x.

(** The test's fault settings in a run's configuration; the fields that the
    server does not have are zero. *)
Definition run_faults (f : FaultCfg) : FaultConfig :=
  let nw := fg_Network f in
  let nd := fg_Node f in
  mkFaultConfig (fg_Enabled f) ""
    (mkNetworkFaultCfg (nf_DropRate nw) (nf_DelayMin nw) (nf_DelayMax nw) fzero fzero fzero fzero 0 0 fzero 0 fzero 0)
    (mkNodeFaultCfg (of_HangRate nd) (of_HangMin nd) (of_HangMax nd) (of_TerminateRate nd) fzero "" fzero "" "" fzero 0 0 fzero 0 0
       fzero 0 fzero "" fzero 0 0 fzero 0 0 fzero "" [] 0 fzero 0 0)
    (fg_SwarmTesting f) (fg_AdaptiveFaults f).

Definition run_exploration (x : ExplorationCfg) : Exploration :=
  mkExploration (xc_Strategy x) (or_zero (u64 (xc_MaxStatesPerRun x)) 5000) (or_zero (wrap 32 (xc_MaxDepth x)) 50)
    (or_zero (xc_BranchFactor x) 4) 0 0 0 0 0 0 0 0 0 0 false 0 0 false.

Definition run_config (pid tid : string) (env : Environment) (t : Test) (seed : Z) (runID runDuration : string) : RunCfg :=
  mkRunCfg runID "" seed (env_Backend env) (or_zero (u64 (rl_MemoryMB (env_Resources env))) 2048) (CorpusPath runner pid tid)
    (mkConfig (t_Name t) (t_Description t) (map node_of (env_Nodes env)) (env_TestDir env) "" (DefaultKernelPath runner) (env_ComposeFile env)
       0 "" "" None (run_exploration (t_Exploration t)) (run_faults (t_Faults t)) (mkAdaptation false 0 fzero 0 fzero fzero 0 0 false)
       runDuration "" 0 (mkNotifyConfig "" [] false None)).

Definition buildRunCfg (pid tid : string) (env : Environment) (t : Test) (seed : Z) (runID : string) : G RunCfg :=
  d ← (if bool_decide (xc_RunDuration (t_Exploration t) = ""%string) then
         st ← reads (GetSettings root);
         mret (match st with Ok st => es_DefaultRunDuration (s_Exploration st) | Err _ => ""%string end)
       else mret (xc_RunDuration (t_Exploration t)));
  mret (run_config pid tid env t seed runID d).

(** Whether the finding counts as discovered. *)
Definition saveFinding (pid tid : string) (run : Run) (assertType property message : string) (details : list (string * any)) : G bool :=
  let fp := fingerprintFinding assertType message in
  t0 ← now;
  let example := mkFindingExample (r_ID run) "" 0 details in
  found ← reads (FindFindingByFingerprint root pid tid fp);
  match found with
  | Ok existing =>
      let existing := existing <| f_Occurrences := f_Occurrences existing + 1 |> <| f_LastSeenAt := t0 |>
        <| f_Status := if bool_decide (f_Status existing = "new"%string) then "ongoing"%string else f_Status existing |>
        <| f_Examples := f_Examples existing ++ [example] |> in
      _ ← writes (SaveFinding root existing);
      mret true
  | Err _ =>
      fid ← generateID "find";
      let f := mkFinding fid pid tid (r_ID run) (r_Source run) "new" assertType property message fp "" 0 0
                 (encodeReplayToken (ri_Seed (r_Internal run)) (r_ID run)) None None [example] 1 "" "" t0 t0 in
      err ← writes (SaveFinding root f);
      match err with
      | Some _ => mret false
      | None => _ ← notify pid "finding.created" (PFinding f); mret true
      end
  end.

(** What a result reports: type, property, message and details. *)
Definition report : Type := string * string * string * list (string * any).

Definition violation_reports (result : RunResult) : list report :=
  map (λ v, ("always"%string, rx_Property v, rx_Message v, rx_Details v)) (rr_Violations result).

Definition unsatisfied (pc : RunPropertyCount) : bool :=
  (bool_decide (pn_AssertType pc = "sometimes"%string) || bool_decide (pn_AssertType pc = "reachable"%string)) &&
  (0 <? pn_Total pc) && (pn_Passed pc =? 0).

Definition count_reports (result : RunResult) : list report :=
  map (λ pc, (pn_AssertType pc, pn_Message pc, pn_Message pc, [])) (filter (λ pc, unsatisfied pc = true) (rr_PropertyCounts result)).

Definition reports_of (result : RunResult) : list report := violation_reports result ++ count_reports result.

Fixpoint save_findings (pid tid : string) (run : Run) (reports : list report) (discovered : Z) : G Z :=
  match reports with
  | [] => mret discovered
  | (ty, property, message, details) :: reports =>
      b ← saveFinding pid tid run ty property message details;
      save_findings pid tid run reports (if b : bool then discovered + 1 else discovered)
  end.

Definition no_assertion : Assertion := mkAssertion "" "" "" "" "" 0 0 0 0 fzero "" "" 0 "" "" "" "" "".

Definition updateAssertion (pid tid id typ msg : string) (newTotal newPassed newFailed : Z) : G unit :=
  ra ← reads (GetAssertion root pid tid id);
  let existing := match ra with Ok a => a | Err _ => no_assertion end in
  let total := a_TotalEvals existing + newTotal in
  let passed := a_PassedEvals existing + newPassed in
  _ ← writes (SaveAssertion root pid (mkAssertion id tid typ msg (assertionStatus typ passed total) total passed
                (a_FailedEvals existing + newFailed) passed fzero "" "" 0 "" "" "" "" ""));
  mret tt.

Record sysUpdate := mkSysUpdate { u_id : string; u_typ : string; u_msg : string; u_passed : Z; u_failed : Z }.

Definition system_updates (result : RunResult) (t : Test) : list sysUpdate :=
  let totalAssertions := ar_Total (rr_Always result) + ar_Total (rr_Sometimes result) + ar_Total (rr_Reachable result) in
  [mkSysUpdate "sys:driver_setup" "always" "Driver setup completed" (boolToInt (0 <? rr_TotalStates result)) (boolToInt (rr_TotalStates result =? 0));
   mkSysUpdate "sys:assertions_declared" "always" "SDK assertions were registered" (boolToInt (0 <? totalAssertions)) (boolToInt (totalAssertions =? 0));
   mkSysUpdate "sys:faults_active" "always" "Fault injection is active" (boolToInt (fg_Enabled (t_Faults t))) (boolToInt (negb (fg_Enabled (t_Faults t))));
   mkSysUpdate "sys:coverage_growing" "always" "New coverage edges discovered" (boolToInt (0 <? rr_NewEdges result)) (boolToInt (rr_NewEdges result =? 0));
   mkSysUpdate "sys:no_always_violations" "always" "No always-assertion violations"
     (boolToInt ((ar_Failed (rr_Always result) =? 0) && (0 <? ar_Total (rr_Always result)))) (boolToInt (0 <? ar_Failed (rr_Always result)));
   mkSysUpdate "sys:sometimes_satisfied" "sometimes" "Sometimes goals observed" (boolToInt (0 <? ar_Passed (rr_Sometimes result))) 0].

Fixpoint update_all (pid tid : string) (us : list sysUpdate) : G unit :=
  match us with
  | [] => mret tt
  | u :: us => _ ← updateAssertion pid tid (u_id u) (u_typ u) (u_msg u) (u_passed u + u_failed u) (u_passed u) (u_failed u); update_all pid tid us
  end.

Definition updateSystemProperties (pid tid : string) (result : RunResult) (t : Test) : G unit := update_all pid tid (system_updates result t).

(** The summary over a run's own assertions. *)
Definition assertion_updates (result : RunResult) : list (string * string * AssertionResult) :=
  [("always", "always assertions", rr_Always result);
   ("sometimes", "sometimes assertions", mkAssertionResult (ar_Total (rr_Sometimes result)) (ar_Passed (rr_Sometimes result)) 0);
   ("reachable", "reachable assertions", mkAssertionResult (ar_Total (rr_Reachable result)) (ar_Passed (rr_Reachable result)) 0)]%string.

Fixpoint update_assertions (pid tid : string) (us : list (string * string * AssertionResult)) : G unit :=
  match us with
  | [] => mret tt
  | (id, msg, r) :: us => _ ← updateAssertion pid tid id id msg (ar_Total r) (ar_Passed r) (ar_Failed r); update_assertions pid tid us
  end.

Definition updateCoverage (pid tid : string) (run : Run) (result : RunResult) : G unit :=
  rc ← reads (GetCoverage root pid tid);
  let cov := match rc with Ok c => c | Err _ => empty_coverage "" end in
  let cumulative := cov_CumulativeNewEdges cov + rr_NewEdges result in
  let cov := cov <| cov_TestID := tid |> <| cov_TotalEdges := rr_TotalEdges result |> <| cov_CumulativeNewEdges := cumulative |> in
  let cov := match r_CompletedAt run with
             | Some t1 => cov <| cov_PerRun := cov_PerRun cov ++ [mkRunCovStats (r_ID run) (rr_NewEdges result) cumulative t1] |>
             | None => cov
             end in
  _ ← writes (SaveCoverage root pid cov);
  mret tt.

(** The run, which is written through a pointer. *)
Definition applyResult (pid tid : string) (run : Run) (result : RunResult) (t : Test) : G Run :=
  let run := run <| r_Coverage := Some (mkRunCoverage (rr_NewEdges result) (rr_TotalEdges result) fzero) |> in
  discovered ← save_findings pid tid run (reports_of result) 0;
  let run := run <| r_Summary := Some (mkRunSummary (rr_TotalStates result) (rr_MaxDepth result) discovered) |> in
  _ ← update_assertions pid tid (assertion_updates result);
  _ ← updateSystemProperties pid tid result t;
  _ ← updateCoverage pid tid run result;
  mret run.

(** The deferred call. *)
Definition leave_run (key rid : string) : G unit :=
  locked (λ s,
    match active s !! key with
    | Some job => (tt, s <| active := <[key := job <| runCancels := delete rid (runCancels job) |>]> (active s) |>)
    | None => (tt, s)
    end).

Definition final_status (cancelled : bool) (result : RunResult) : string :=
  if cancelled then "cancelled" else match rr_Err result with Some _ => "failed" | None => "completed" end.

Definition finish_run (c : ctx) (pid tid : string) (t : Test) (result : RunResult) (run : Run) (startedAt : time) : G unit :=
  t1 ← now;
  let run := run <| r_CompletedAt := Some t1 |> <| r_Duration := Duration_String (Round (Sub t1 startedAt) second) |> in
  b ← is_cancelled c;
  let run := run <| r_Status := final_status b result |> in
  run ← (match rr_Err result with None => applyResult pid tid run result t | Some _ => mret run end);
  _ ← writes (SaveRun root run);
  if bool_decide (r_Status run = "cancelled"%string) then mret tt
  else notify pid (if bool_decide (r_Status run = "failed"%string) then "run.failed" else "run.completed") (PRun run).

Definition run_body (c : ctx) (pid tid rid : string) (env : Environment) (t : Test) (seed : Z) : G unit :=
  rr ← reads (GetRun root pid tid rid);
  match rr with
  | Err _ => mret tt
  | Ok run =>
      t0 ← now;
      _ ← writes (SaveRun root (run <| r_Status := "running"%string |> <| r_StartedAt := Some t0 |>));
      cfg ← buildRunCfg pid tid env t seed rid;
      result ← runner_Execute cfg;
      rr ← reads (GetRun root pid tid rid);
      match rr with
      | Err _ => mret tt
      | Ok run =>
          match r_StartedAt run with
          | None => panics_
          | Some startedAt => finish_run c pid tid t result run startedAt
          end
      end
  end.

Definition executeRun (c : ctx) (pid tid rid : string) (env : Environment) (t : Test) (seed : Z) : G unit :=
  _ ← run_body c pid tid rid env t seed; leave_run (jobKey pid tid) rid.

(** *** The loops of a schedule *)

(** Polls until the run is over or the test is stopped. *)
Fixpoint waitForRun (polls : nat) (c : ctx) (pid tid rid : string) : G unit :=
  match polls with
  | O => mret tt
  | Datatypes.S polls =>
      stop ← is_cancelled c;
      if stop : bool then mret tt
      else
        rr ← reads (GetRun root pid tid rid);
        match rr with
        | Err _ => mret tt
        | Ok run => if is_active (r_Status run) then waitForRun polls c pid tid rid else mret tt
        end
  end.

(** What the goroutine of one slot of [runContinuousLoop] does. *)
Definition continuous_slot (polls : nat) (c : ctx) (pid tid : string) : G (option task) :=
  r ← TriggerRun pid tid "" "" false "continuous";
  match r with
  | Err _ => mret None
  | Ok (run, tk) => _ ← waitForRun polls c pid tid (r_ID run); mret (Some tk)
  end.

(** The ticks of [runCronLoop]: [time.NewTicker] panics on an interval that is
    not positive. *)
Fixpoint cron_ticks (ticks : nat) (c : ctx) (pid tid : string) : G (list task) :=
  match ticks with
  | O => mret []
  | Datatypes.S ticks =>
      stop ← is_cancelled c;
      if stop : bool then mret []
      else
        r ← TriggerRun pid tid "" "" false "cron";
        rest ← cron_ticks ticks c pid tid;
        mret (match r with Ok (_, tk) => tk :: rest | Err _ => rest end)
  end.

Definition runCronLoop (ticks : nat) (c : ctx) (pid tid cronExpr : string) : G (list task) :=
  if 0 <? parseCronInterval cronExpr then cron_ticks ticks c pid tid else panics_.

(** The goroutine of a run. *)
Definition trigger_and_execute (pid tid source description : string) (isEphemeral : bool) (trigger : string) (seed : Z) : G unit :=
  r ← TriggerRunWithSeed pid tid source description isEphemeral trigger seed;
  match r with
  | Ok (_, TExecuteRun c pid tid rid env t seed) => executeRun c pid tid rid env t seed
  | _ => mret tt
  end.
End manager.
