(* ===== verification/TestManagerProps.v ===== *)
(** * The test manager: what its runs leave in the store

    What one goroutine does when it runs alone ([alone]), against the map of
    resources that [FileStoreProps] makes of the store, and what holds of any
    interleaving of goroutines. *)
From stdpp Require Import strings pretty.
From S2P Require Import Prelude Strings Word Float GoLib Json Sha256 TestConfig Runner ApiData FileStore FileStoreProps Interleave TestManager.
Local Open Scope Z_scope.

(** ** A goroutine alone *)

Fixpoint alone {S A} (p : prog S A) (s : S) : option (A * S) :=
  match p with
  | Done a => Some (a, s)
  | Atom f => match f s with Some (p, s) => alone p s | None => None end
  end.

Lemma alone_bind {S A B} (k : A → prog S B) p s :
  alone (prog_bind k p) s = match alone p s with Some (a, s) => alone (k a) s | None => None end.
Proof.
  revert s. induction p as [a|f IH] using prog_induction; intros s; cbn; [done|].
  destruct (f s) as [[p s']|] eqn:E; [|done]. by eapply IH.
Qed.

Lemma alone_once {S A} (f : S → option (A * S)) s : alone (once f) s = f s.
Proof. cbn. by destruct (f s) as [[a s']|]. Qed.

(** It is one of the interleavings of a pool of one. *)
Lemma alone_steps {S A} (p : prog S A) s a s' : alone p s = Some (a, s') → rtc worker_step ([p], s) ([Done a], s').
Proof.
  revert s. induction p as [b|f IH] using prog_induction; intros s; cbn; [by intros [= -> ->]|].
  destruct (f s) as [[p s1]|] eqn:E; [|done]. intros Ha. eapply rtc_l; [by eapply (WorkerStep _ s 0)|]. by eapply IH.
Qed.

(** ** What is assumed *)

(** Everything can be encoded, and decodes as itself: text is valid UTF-8 and
    numbers are those that JSON has. *)
Class Lossless (doc : Type) `{Codecs doc} := {
  encodes v : is_Some (encode_value (doc := doc) v);
  decodes v : faithful (doc := doc) v }.

(** The random source does not fail, and no identifier comes twice: an
    idealisation of eight random bytes, so nothing is said of their number. *)
Class HostLaws (W : Type) `{Host W, Orchestrator W} := {
  drawn : W → gset string;
  draws w : ∃ b, (rand_read 8 w).1 = Some b ∧ Forall (λ x, 0 ≤ x < 256) b ∧ hex_string b ∉ drawn w ∧
              drawn (rand_read 8 w).2 = {[hex_string b]} ∪ drawn w;
  clock_drawn w : drawn (read_clock w).2 = drawn w;
  Execute_drawn r cfg w : drawn (Execute r cfg w).2 = drawn w }.

(** ** Typed reads and writes of the map *)

Section typed.
Context {doc : Type} `{Files} `{Codecs doc, !Lossless doc} (root : string) (Hdisk : sound_disk).
Implicit Types (d : gmap path doc) (m : gmap loc value).

Definition the_run m pid tid rid : option Run := match m !! LRun pid tid rid with Some (VRun v) => Some v | _ => None end.
Definition the_test m pid tid : option Test := match m !! LTest pid tid with Some (VTest v) => Some v | _ => None end.
Definition the_environment m pid eid : option Environment := match m !! LEnv pid eid with Some (VEnv v) => Some v | _ => None end.
Definition the_finding m pid tid fid : option Finding := match m !! LFinding pid tid fid with Some (VFinding v) => Some v | _ => None end.
Definition the_assertion m pid tid aid : Assertion := match m !! LAssertion pid tid aid with Some (VAssertion v) => v | _ => no_assertion end.
Definition the_coverage m pid tid : Coverage := match m !! LCoverage pid tid with Some (VCoverage v) => v | _ => empty_coverage tid end.
Definition the_settings m : Settings := match m !! LSettings with Some (VSettings v) => v | _ => defaultSettings end.

Definition found {A} (o : option A) : result store_error A := match o with Some a => Ok a | None => Err errNotFound end.

Lemma rep_kind d m l v : rep root d m → m !! l = Some v → ∃ pid, loc_of pid v = l.
Proof. intros Hr Hv. by destruct (rep_good _ _ _ Hr _ _ Hv) as (_ & _ & ? & _). Qed.

Ltac typed_read Hr l :=
  let E := fresh in
  pose proof (get_spec root Hdisk _ _ l Hr) as E; cbn [get] in E; unfold found; cbn [absent] in E;
  let v := fresh "v" in let Hv := fresh "Hv" in
  match type of E with _ → _ = match ?m !! l with _ => _ end =>
    destruct (m !! l) as [v|] eqn:Hv;
    [destruct (rep_kind _ _ _ _ Hr Hv) as [? ?]; destruct v; simplify_eq/= |]
  end;
  match type of E with _ → map_ok _ ?r = _ => destruct r; naive_solver end.

Lemma GetRun_rep d m pid tid rid : rep root d m → plain pid → plain tid → plain rid → GetRun root pid tid rid d = found (the_run m pid tid rid).
Proof. intros Hr Hp Ht Hi. assert (plain_loc (LRun pid tid rid)) by (unfold plain_loc; cbn; rewrite !Forall_cons; done). unfold the_run. typed_read Hr (LRun pid tid rid). Qed.
Lemma GetTest_rep d m pid tid : rep root d m → plain pid → plain tid → GetTest root pid tid d = found (the_test m pid tid).
Proof. intros Hr Hp Ht. assert (plain_loc (LTest pid tid)) by (unfold plain_loc; cbn; rewrite !Forall_cons; done). unfold the_test. typed_read Hr (LTest pid tid). Qed.

Lemma GetEnvironment_rep d m pid eid : rep root d m → plain pid → plain eid → GetEnvironment root pid eid d = found (the_environment m pid eid).
Proof. intros Hr Hp Ht. assert (plain_loc (LEnv pid eid)) by (unfold plain_loc; cbn; rewrite !Forall_cons; done). unfold the_environment. typed_read Hr (LEnv pid eid). Qed.

Lemma GetAssertion_rep d m pid tid aid : rep root d m → plain pid → plain tid → plain aid →
  match GetAssertion root pid tid aid d with Ok a => a | Err _ => no_assertion end = the_assertion m pid tid aid.
Proof.
  intros Hr Hp Ht Hi. assert (plain_loc (LAssertion pid tid aid)) by (unfold plain_loc; cbn; rewrite !Forall_cons; done). unfold the_assertion.
  typed_read Hr (LAssertion pid tid aid).
Qed.

Lemma GetCoverage_rep d m pid tid : rep root d m → plain pid → plain tid → GetCoverage root pid tid d = Ok (the_coverage m pid tid).
Proof. intros Hr Hp Ht. assert (plain_loc (LCoverage pid tid)) by (unfold plain_loc; cbn; rewrite !Forall_cons; done). unfold the_coverage. typed_read Hr (LCoverage pid tid). Qed.

Lemma GetSettings_rep d m : rep root d m → GetSettings root d = Ok (the_settings m).
Proof. intros Hr. assert (plain_loc LSettings) by (unfold plain_loc; done). unfold the_settings. typed_read Hr LSettings. Qed.

(** Every test has at most one finding for a fingerprint, seen so often and with
    such a status. *)
Definition sees m pid tid fp (o : option (Z * string)) : Prop :=
  match o with
  | None => ∀ fid f, the_finding m pid tid fid = Some f → f_Fingerprint f ≠ fp
  | Some (n, st) => ∃ fid f, the_finding m pid tid fid = Some f ∧ f_Fingerprint f = fp ∧ f_Occurrences f = n ∧ f_Status f = st ∧
      ∀ fid' f', the_finding m pid tid fid' = Some f' → f_Fingerprint f' = fp → fid' = fid
  end.

Lemma the_finding_ids d m pid tid fid f : rep root d m → the_finding m pid tid fid = Some f →
  m !! LFinding pid tid fid = Some (VFinding f) ∧ f_ProjectID f = pid ∧ f_TestID f = tid ∧ f_ID f = fid.
Proof.
  unfold the_finding. intros Hr. destruct (m !! LFinding pid tid fid) as [v|] eqn:Hv; [|done]. destruct v; try done. intros [= ->].
  destruct (rep_kind _ _ _ _ Hr Hv) as (p & E). cbn in E. by simplify_eq.
Qed.

Lemma FindFinding_list d pid tid fp : FindFindingByFingerprint root pid tid fp d =
  match list_files (locate (findingsDir root pid tid)) (λ _, true) d with
  | Err e => Err e
  | Ok vs => match filter (λ f, bool_decide (f_Fingerprint f = fp) = true) vs with f :: _ => Ok f | [] => Err errNotFound end
  end.
Proof.
  unfold FindFindingByFingerprint, list_files, find_object, readObjectsFromFiles. destruct (listDir _ _ _) as [paths|]; [|done].
  assert (filter (λ p : path, true = true) paths = paths) as ->; [|done].
  induction paths as [|p l IH]; [done|]. rewrite filter_cons_True by done. by rewrite IH.
Qed.

Lemma findings_listed d m pid tid : rep root d m → plain pid → plain tid →
  ∃ vs, list_files (locate (findingsDir root pid tid)) (λ _, true) d = Ok vs ∧ ∀ f, f ∈ vs ↔ the_finding m pid tid (f_ID f) = Some f.
Proof.
  intros Hr Hp Ht. unfold findingsDir, testDir, projectDir. cbn [app].
  destruct (list_files_spec root Hdisk VFinding (LFinding pid tid) ["projects"; pid; "tests"; tid; "findings"]%string d m Hr)
    with (λ _ : path, true) as (vs & E & _ & Hel); try done.
  { by apply dirs_plain_test; [| |apply (bool_decide_unpack _)]. }
  { by intros ?? [= ->]. }
  { by intros v p p' i i' [= _ _ <-] [= _ _ <-]. }
  { intros l w. destruct l; cbn; intros E; simplify_eq; by eexists. }
  exists vs. split; [done|]. intros f. rewrite Hel. split.
  - intros [id Hid]. destruct (rep_kind _ _ _ _ Hr Hid) as (p & [= _ _ <-]). unfold the_finding. by rewrite Hid.
  - intros Hid. apply (the_finding_ids d) in Hid as (Hid & _); [|done]. by exists (f_ID f).
Qed.

(** A finding that is found is one of the store. *)
Lemma FindFinding_in d m pid tid fp f : rep root d m → plain pid → plain tid →
  FindFindingByFingerprint root pid tid fp d = Ok f → the_finding m pid tid (f_ID f) = Some f.
Proof.
  intros Hr Hp Ht. rewrite FindFinding_list. destruct (findings_listed d m pid tid Hr Hp Ht) as (vs & -> & Hf).
  destruct (filter (λ f, bool_decide (f_Fingerprint f = fp) = true) vs) as [|g l] eqn:El; [done|]. intros [= ->].
  assert (f ∈ f :: l) as Hin by left. rewrite <-El in Hin. apply list_elem_of_filter in Hin as [_ Hin]. by apply Hf.
Qed.

Lemma FindFinding_rep d m pid tid fp o : rep root d m → plain pid → plain tid → sees m pid tid fp o →
  match o with
  | None => FindFindingByFingerprint root pid tid fp d = Err errNotFound
  | Some (n, st) => ∃ f, FindFindingByFingerprint root pid tid fp d = Ok f ∧ the_finding m pid tid (f_ID f) = Some f ∧
      f_Fingerprint f = fp ∧ f_Occurrences f = n ∧ f_Status f = st ∧
      ∀ fid' f', the_finding m pid tid fid' = Some f' → f_Fingerprint f' = fp → fid' = f_ID f
  end.
Proof.
  intros Hr Hp Ht Hs. rewrite FindFinding_list. destruct (findings_listed d m pid tid Hr Hp Ht) as (vs & -> & Hf).
  destruct (filter (λ f, bool_decide (f_Fingerprint f = fp) = true) vs) as [|f l] eqn:El.
  - destruct o as [[n st]|]; [|done]. destruct Hs as (fid & f & Hid & Hfp & _). exfalso.
    destruct (the_finding_ids d _ _ _ _ _ Hr Hid) as (_ & _ & _ & <-). assert (f ∈ (@nil Finding)) as Hin; [|by apply not_elem_of_nil in Hin].
    rewrite <-El. apply list_elem_of_filter. rewrite bool_decide_eq_true. split; [done|by apply Hf].
  - assert (f ∈ f :: l) as Hin by left. rewrite <-El in Hin. apply list_elem_of_filter in Hin as [Hfp%bool_decide_eq_true Hin%Hf].
    destruct o as [[n st]|]; [|by destruct (Hs _ _ Hin)]. destruct Hs as (fid & f0 & Hid & _ & Hn & Hst & Hu).
    exists f. pose proof (Hu _ _ Hin Hfp) as <-. rewrite Hin in Hid. injection Hid as <-. done.
Qed.

Lemma save_rep pid v d m : rep root d m → plain_loc (loc_of pid v) → (if v is VWebhook _ then False else True) →
  ∃ d', save root pid v d = (None, d') ∧ rep root d' (<[loc_of pid v := v]> m).
Proof.
  intros Hr Hl Hw. destruct (encodes v) as [data He].
  destruct (save_spec root Hdisk pid v d m Hr Hl) as (x & d' & m' & E & Hs & Hr').
  { split; [apply decodes|by destruct v]. }
  cbn [exec spec] in *. rewrite He in Hs. destruct Hs as [-> ->]. destruct (save root pid v d) as [e d1]. injection E as -> ->. by exists d'.
Qed.
End typed.

(** ** Total correctness of a goroutine alone *)

Section does.
Context {doc W : Type} `{Files} `{Codecs doc, !Lossless doc} `{HostLaws W} (root : string) (runner : RunnerCfg) (Hdisk : sound_disk).
Notation G := (M doc W).
Implicit Types (s : server doc W) (m : gmap loc value).

Definition does {A} (p : G A) s (Q : A → server doc W → Prop) : Prop := ∃ a s', alone p s = Some (a, s') ∧ Q a s'.

Lemma does_ret {A} (a : A) s (Q : A → server doc W → Prop) : Q a s → does (mret a) s Q.
Proof. intros HQ. by exists a, s. Qed.

Lemma does_and_then {A B} (p : G A) (k : A → G B) s Q : does p s (λ a s, does (k a) s Q) → does (p ≫= k) s Q.
Proof. intros (a & s1 & E & b & s2 & E2 & HQ). exists b, s2. split; [|done]. unfold mbind, M_bind. by rewrite alone_bind, E. Qed.

Lemma does_mono {A} (p : G A) s (Q Q' : A → server doc W → Prop) : does p s Q → (∀ a s, Q a s → Q' a s) → does p s Q'.
Proof. intros (a & s' & E & HQ) Hm. exists a, s'. auto. Qed.

Lemma does_once {A} (f : server doc W → option (A * server doc W)) s a s' Q : f s = Some (a, s') → Q a s' → does (once f) s Q.
Proof. intros E HQ. exists a, s'. by rewrite alone_once. Qed.

Lemma does_reads {A} (f : gmap path doc → A) s Q : Q (f (disk s)) s → does (reads f) s Q.
Proof. by apply does_once. Qed.

Lemma does_locked {A} (f : server doc W → A * server doc W) s Q : Q (f s).1 (f s).2 → does (locked f) s Q.
Proof. apply does_once. by destruct (f s). Qed.

(** What [generateID] makes identifiers of, with which prefix. *)
Definition minted (l : loc) : option (string * string) :=
  match l with LRun _ _ rid => Some ("run", rid) | LFinding _ _ fid => Some ("find", fid) | _ => None end%string.

Definition was_drawn (w : W) (l : loc) : Prop :=
  match minted l with Some (prefix, id) => ∃ h, h ∈ drawn w ∧ id = prefix +:+ "_" +:+ h | None => True end.

(** The store holds [m], and the identifiers in it were drawn. *)
Record holds s m : Prop := mkHolds { h_rep : rep root (disk s) m; h_drawn l : is_Some (m !! l) → was_drawn (world s) l }.

Lemma was_drawn_mono w w' l : drawn w ⊆ drawn w' → was_drawn w l → was_drawn w' l.
Proof. intros Hw. unfold was_drawn. destruct (minted l) as [[prefix id]|]; [|done]. intros (h & Hh & ->). exists h. split; [by apply Hw|done]. Qed.

Lemma holds_mono s s' m : disk s' = disk s → drawn (world s) ⊆ drawn (world s') → holds s m → holds s' m.
Proof. intros Ed Hw [Hr Hd]. split; [by rewrite Ed|]. intros l Hl. by eapply was_drawn_mono, Hd. Qed.

(** The jobs and contexts are as before, and nothing notified or drawn is taken back. *)
Definition quiet s s' : Prop :=
  active s' = active s ∧ nextCtx s' = nextCtx s ∧ cancelled s' = cancelled s ∧ outbox s `prefix_of` outbox s' ∧
  drawn (world s) ⊆ drawn (world s').

#[export] Instance quiet_preorder : PreOrder quiet.
Proof. split; [by intros s; split_and!|]. intros s1 s2 s3 (?&?&?&?&?) (?&?&?&?&?). split_and!; [congruence..|by etrans|by etrans]. Qed.

Lemma does_now s m (Q : time → server doc W → Prop) :
  holds s m → (∀ t s', holds s' m → quiet s s' → outbox s' = outbox s → Q t s') → does now s Q.
Proof.
  intros Hh HQ. unfold now. pose proof (clock_drawn (world s)) as Ew. destruct (read_clock (world s)) as [t w] eqn:E.
  eapply does_once; [by rewrite E|]. cbn in Ew. assert (drawn (world s) ⊆ drawn w) by by rewrite Ew.
  apply HQ; [|by split_and!|done]. by apply (holds_mono s).
Qed.

Lemma does_generateID prefix s m (Q : string → server doc W → Prop) :
  holds s m →
  (∀ b s', Forall (λ x, 0 ≤ x < 256) b → hex_string b ∉ drawn (world s) → drawn (world s') = {[hex_string b]} ∪ drawn (world s) →
     holds s' m → quiet s s' → outbox s' = outbox s → Q (prefix +:+ "_" +:+ hex_string b) s') →
  does (generateID prefix) s Q.
Proof.
  intros Hh HQ. unfold generateID. apply does_and_then. destruct (draws (world s)) as (b & Eb & Hb & Hn & Hw).
  unfold random. destruct (rand_read 8 (world s)) as [o w] eqn:E. cbn in *. subst o. eapply does_once; [by rewrite E|].
  assert (drawn (world s) ⊆ drawn w) by set_solver.
  apply does_ret, HQ; [done|done|done| |by split_and!|done]. by apply (holds_mono s).
Qed.

Lemma save_holds pid v s m : holds s m → plain_loc (loc_of pid v) → (if v is VWebhook _ then False else True) →
  is_Some (m !! loc_of pid v) ∨ was_drawn (world s) (loc_of pid v) →
  ∃ d, save root pid v (disk s) = (None, d) ∧ holds (s <| disk := d |>) (<[loc_of pid v := v]> m).
Proof.
  intros [Hr Hd] Hl Hw Hf. destruct (save_rep root Hdisk pid v (disk s) m Hr Hl Hw) as (d & E & Hr').
  exists d. split; [done|]. split; [done|]. intros l Hs. destruct (decide (l = loc_of pid v)) as [->|Hne].
  - destruct Hf as [Hs'%Hd|Hf]; done.
  - rewrite lookup_insert_ne in Hs by done. by apply Hd in Hs.
Qed.

Lemma does_save pid v s m (Q : option store_error → server doc W → Prop) :
  holds s m → plain_loc (loc_of pid v) → (if v is VWebhook _ then False else True) →
  is_Some (m !! loc_of pid v) ∨ was_drawn (world s) (loc_of pid v) →
  (∀ s', holds s' (<[loc_of pid v := v]> m) → quiet s s' → outbox s' = outbox s → world s' = world s → Q None s') →
  does (writes (save root pid v)) s Q.
Proof.
  intros Hh Hl Hw Hf HQ. destruct (save_holds pid v s m Hh Hl Hw Hf) as (d & E & Hh').
  unfold writes. eapply does_once; [by rewrite E|]. by apply HQ; [|split_and!| |].
Qed.

Lemma hex_inj_prefix (p a b : string) : p +:+ a = p +:+ b → a = b.
Proof. intros E%(f_equal ascii_of). rewrite !ascii_of_app in E. by apply app_inv_head, ascii_of_inj in E. Qed.

(** The identifier just drawn is not in use. *)
Lemma fresh_finding s m pid tid h : holds s m → h ∉ drawn (world s) → m !! LFinding pid tid ("find" +:+ "_" +:+ h) = None.
Proof.
  intros [_ Hd] Hh. apply eq_None_not_Some. intros (h' & Hh' & E)%Hd. cbn in E. apply hex_inj_prefix, hex_inj_prefix in E as <-. done.
Qed.

Lemma hex_plain b : Forall (λ x, 0 ≤ x < 256) b → slash ∉ ascii_of (hex_string b).
Proof.
  induction 1 as [|x b Hx _ IH]; [by apply not_elem_of_nil|]. change (hex_string (x :: b)) with (hex_byte x +:+ hex_string b).
  rewrite ascii_of_app, not_elem_of_app. split; [|done]. unfold hex_byte, ascii_of. rewrite String.list_ascii_of_string_of_list_ascii.
  assert (∀ n, 0 ≤ n < 16 → slash ≠ hexdigit n) as Hd.
  { intros n Hn. assert (n ∈ (Z.of_nat <$> seq 0 16)) as Hin.
    { apply list_elem_of_fmap. exists (Z.to_nat n). split; [lia|]. apply elem_of_seq. lia. }
    assert (Forall (λ n, slash ≠ hexdigit n) (Z.of_nat <$> seq 0 16)) as Hall by by apply (bool_decide_unpack _).
    rewrite Forall_forall in Hall. by apply Hall. }
  rewrite !not_elem_of_cons. split_and!; [apply Hd..|apply not_elem_of_nil]; [|apply Z.mod_pos_bound; lia].
  split; [apply Z.div_pos; lia|apply Z.div_lt_upper_bound; lia].
Qed.

Lemma plain_id prefix b : plain prefix → Forall (λ x, 0 ≤ x < 256) b → plain (prefix +:+ "_" +:+ hex_string b).
Proof.
  intros (Hw & Hd & Hdd & Hs) Hb. assert (slash ∉ ascii_of (prefix +:+ "_" +:+ hex_string b)) as Hsl.
  { rewrite !ascii_of_app, !not_elem_of_app. split_and!; [done|by apply (bool_decide_unpack _)|by apply hex_plain]. }
  assert (Ascii.ascii_of_nat 95 ∈ ascii_of (prefix +:+ "_" +:+ hex_string b)) as Hin.
  { rewrite !ascii_of_app. set_solver. }
  split_and!; [intros E; rewrite E in Hin; revert Hin; cbn; rewrite ?elem_of_cons, elem_of_nil; naive_solver..|done].
Qed.

(** *** Findings *)

(** A finding that is new, then one that goes on. *)
Definition seen_again (o : option (Z * string)) : option (Z * string) :=
  match o with
  | None => Some (1, "new"%string)
  | Some (n, st) => Some (n + 1, if bool_decide (st = "new"%string) then "ongoing"%string else st)
  end.

Lemma the_finding_insert m pid tid id f fid :
  the_finding (<[LFinding pid tid id := VFinding f]> m) pid tid fid = if bool_decide (fid = id) then Some f else the_finding m pid tid fid.
Proof.
  unfold the_finding. case_bool_decide as E; [by rewrite E, lookup_insert_eq|]. by rewrite lookup_insert_ne by by intros [= ->].
Qed.

Lemma sees_fun m pid tid fp o o' : sees m pid tid fp o → sees m pid tid fp o' → o = o'.
Proof.
  destruct o as [[n st]|], o' as [[n' st']|]; cbn; [|naive_solver|naive_solver|done].
  intros (i & f & Hi & Hf & Hn & Hs & Hu) (j & g & Hj & Hg & Hn' & Hs' & _). pose proof (Hu _ _ Hj Hg) as ->. naive_solver.
Qed.

(** Writing a finding with fingerprint [fp0] to an identifier that no finding of
    another fingerprint has. *)
Lemma sees_insert m pid tid id f : (∀ g, the_finding m pid tid id = Some g → f_Fingerprint g = f_Fingerprint f) →
  (∀ fid g, the_finding m pid tid fid = Some g → f_Fingerprint g = f_Fingerprint f → fid = id) → ∀ fp o, sees m pid tid fp o →
  sees (<[LFinding pid tid id := VFinding f]> m) pid tid fp
    (if bool_decide (fp = f_Fingerprint f) then Some (f_Occurrences f, f_Status f) else o).
Proof.
  intros Hid Hu fp o Ho. case_bool_decide as E.
  - exists id, f. rewrite the_finding_insert, bool_decide_eq_true_2 by done. split_and!; try done. intros fid g.
    rewrite the_finding_insert. case_bool_decide; [done|]. intros Hg Hfp. apply (Hu fid g); [done|congruence].
  - destruct o as [[n st]|]; cbn in *.
    + destruct Ho as (fid & g & Hg & Hfp & Hn & Hst & Huu). exists fid, g. rewrite the_finding_insert. case_bool_decide as Ei.
      * subst fid. rewrite <-(Hid _ Hg) in E. congruence.
      * split_and!; try done. intros fid' g'. rewrite the_finding_insert. case_bool_decide; [intros [= <-]; congruence|apply Huu].
    + intros fid g. rewrite the_finding_insert. case_bool_decide; [intros [= <-]; congruence|apply Ho].
Qed.

Definition one_each m pid tid : Prop := ∀ fp, ∃ o, sees m pid tid fp o.

Lemma does_saveFinding pid tid run ty property msg details s m (Q : bool → server doc W → Prop) :
  plain pid → plain tid → holds s m → one_each m pid tid →
  (∀ s' m', holds s' m' → quiet s s' →
     (∀ fp o, sees m pid tid fp o → sees m' pid tid fp (if bool_decide (fp = fingerprintFinding ty msg) then seen_again o else o)) →
     (∀ l, (∀ fid, l ≠ LFinding pid tid fid) → m' !! l = m !! l) → Q true s') →
  does (saveFinding root pid tid run ty property msg details) s Q.
Proof.
  intros Hp Ht Hh Hone HQ. unfold saveFinding. set (fp0 := fingerprintFinding ty msg) in *.
  apply does_and_then, (does_now s m); [done|]. intros t0 s1 Hh1 Hq1 _. apply does_and_then, does_reads.
  destruct (Hone fp0) as [o Ho]. pose proof (FindFinding_rep root Hdisk _ _ _ _ _ _ (h_rep _ _ Hh1) Hp Ht Ho) as Hfind.
  destruct o as [[n st]|].
  - destruct Hfind as (f & -> & Hf & Hfp & Hn & Hst & Hu). apply does_and_then.
    destruct (the_finding_ids root _ _ _ _ _ _ (h_rep _ _ Hh1) Hf) as (Hm & Hfpid & Hftid & _).
    lazymatch goal with |- does (writes (SaveFinding root ?g)) _ _ => set (f' := g) end.
    assert (loc_of "" (VFinding f') = LFinding pid tid (f_ID f)) as El by (cbn; congruence).
    apply (does_save "" (VFinding f') s1 m); [done| |done|left; by rewrite El|].
    { rewrite El. apply (rep_good _ _ _ (h_rep _ _ Hh1) _ _ Hm). }
    rewrite El. intros s2 Hh2 Hq2 _ _. apply does_ret, (HQ s2 _ Hh2); [by etrans| |].
    + intros fp o Hs. rewrite <-Hfp. replace (if bool_decide (fp = f_Fingerprint f) then seen_again o else o) with
        (if bool_decide (fp = f_Fingerprint f') then Some (f_Occurrences f', f_Status f') else o).
      * apply sees_insert; change (f_Fingerprint f') with (f_Fingerprint f); [congruence| |done].
        intros fid g Hg Hgf. apply (Hu _ _ Hg). congruence.
      * change (f_Fingerprint f') with (f_Fingerprint f). case_bool_decide as E; [|done]. subst fp. rewrite Hfp in Hs.
        rewrite (sees_fun _ _ _ _ _ _ Hs Ho). cbn. by rewrite Hn, Hst.
    + intros l Hl. by rewrite lookup_insert_ne by done.
  - rewrite Hfind. apply does_and_then, (does_generateID "find" s1 m); [done|]. intros b s2 Hb Hfresh Hdr Hh2 Hq2 _. apply does_and_then.
    lazymatch goal with |- does (writes (SaveFinding root ?g)) _ _ => set (f' := g) end.
    apply (does_save "" (VFinding f') s2 m); [done| |done| |].
    { unfold plain_loc. cbn. rewrite !Forall_cons. split_and!; [done|done| |done]. apply plain_id; [by apply (bool_decide_unpack _)|done]. }
    { right. exists (hex_string b). split; [set_solver|done]. }
    cbn [loc_of]. intros s3 Hh3 Hq3 _ _. apply does_and_then, does_locked, does_ret. cbn [fst snd].
    apply (HQ _ (<[LFinding pid tid (f_ID f') := VFinding f']> m)); [split; [apply (h_rep _ _ Hh3)|apply (h_drawn _ _ Hh3)]| | |].
    { do 3 (etrans; [eassumption|]). by split_and!; try apply prefix_app_r. }
    + intros fp o Hs. replace (if bool_decide (fp = fp0) then seen_again o else o) with
        (if bool_decide (fp = f_Fingerprint f') then Some (f_Occurrences f', f_Status f') else o).
      * apply sees_insert; [| |done].
        -- change (f_ID f') with ("find" +:+ "_" +:+ hex_string b). unfold the_finding. by rewrite (fresh_finding s1 m).
        -- intros fid g Hg Hgf. by destruct (Ho _ _ Hg).
      * change (f_Fingerprint f') with fp0. case_bool_decide as E; [|done]. subst fp. by rewrite (sees_fun _ _ _ _ _ _ Hs Ho).
    + intros l Hl. by rewrite lookup_insert_ne by done.
Qed.

Definition report_fp (r : report) : string := let '(ty, _, msg, _) := r in fingerprintFinding ty msg.

(** How often a fingerprint is reported. *)
Definition times_reported (fp : string) (rs : list report) : nat := count_if (λ r, bool_decide (fp = report_fp r)) rs.

Lemma does_save_findings pid tid run rs : ∀ n s m (Q : Z → server doc W → Prop),
  plain pid → plain tid → holds s m → one_each m pid tid →
  (∀ s' m', holds s' m' → quiet s s' →
     (∀ fp o, sees m pid tid fp o → sees m' pid tid fp (Nat.iter (times_reported fp rs) seen_again o)) →
     (∀ l, (∀ fid, l ≠ LFinding pid tid fid) → m' !! l = m !! l) → Q (n + Z.of_nat (length rs)) s') →
  does (save_findings root pid tid run rs n) s Q.
Proof.
  induction rs as [|[[[ty prop] msg] det] rs IH]; intros n s m Q Hp Ht Hh Hone HQ; cbn [save_findings].
  { apply does_ret. rewrite <-(Z.add_0_r n). by apply (HQ s m). }
  apply does_and_then, (does_saveFinding _ _ _ _ _ _ _ s m); [done..|]. intros s1 m1 Hh1 Hq1 Hs1 Hf1.
  apply (IH _ s1 m1); [done|done|done| |].
  { intros fp. destruct (Hone fp) as [o Ho]. eexists. by apply Hs1. }
  intros s2 m2 Hh2 Hq2 Hs2 Hf2. assert (n + Z.of_nat (length ((ty, prop, msg, det) :: rs)) = n + 1 + Z.of_nat (length rs)) as <- by (cbn [length]; unfold report; lia).
  apply (HQ s2 m2); [done|by etrans| |].
  - intros fp o Ho. apply Hs1, Hs2 in Ho. unfold times_reported in *. cbn [count_if report_fp]. revert Ho.
    case_bool_decide; [|done]. cbn [Nat.add]. by rewrite Nat.iter_succ_r.
  - intros l Hl. by rewrite Hf2, Hf1.
Qed.

(** *** Assertions and coverage *)

(** The aggregate record of assertions [id] after [total] more evaluations. *)
Definition add_evals (tid id typ msg : string) (total passed failed : Z) (a : Assertion) : Assertion :=
  let total := a_TotalEvals a + total in
  let passed := a_PassedEvals a + passed in
  mkAssertion id tid typ msg (assertionStatus typ passed total) total passed (a_FailedEvals a + failed) passed fzero "" "" 0 "" "" "" "" "".

Definition put_evals (pid tid : string) (u : sysUpdate) m : gmap loc value :=
  <[LAssertion pid tid (u_id u) := VAssertion (add_evals tid (u_id u) (u_typ u) (u_msg u) (u_passed u + u_failed u) (u_passed u) (u_failed u)
      (the_assertion m pid tid (u_id u)))]> m.

Lemma does_updateAssertion pid tid id typ msg total passed failed s m (Q : unit → server doc W → Prop) :
  plain pid → plain tid → plain id → holds s m →
  (∀ s', holds s' (<[LAssertion pid tid id := VAssertion (add_evals tid id typ msg total passed failed (the_assertion m pid tid id))]> m) →
     quiet s s' → Q tt s') →
  does (updateAssertion root pid tid id typ msg total passed failed) s Q.
Proof.
  intros Hp Ht Hi Hh HQ. unfold updateAssertion. apply does_and_then, does_reads.
  rewrite (GetAssertion_rep root Hdisk _ m) by (done || apply Hh). apply does_and_then.
  lazymatch goal with |- does (writes (SaveAssertion root pid ?g)) _ _ => apply (does_save pid (VAssertion g) s m) end; [done| |done|by right|].
  { unfold plain_loc. cbn. rewrite !Forall_cons. done. }
  intros s' Hh' Hq' _ _. apply does_ret, HQ; done.
Qed.

Lemma does_update_all pid tid us : ∀ s m (Q : unit → server doc W → Prop),
  plain pid → plain tid → Forall (λ u, plain (u_id u)) us → holds s m →
  (∀ s', holds s' (foldl (λ m u, put_evals pid tid u m) m us) → quiet s s' → Q tt s') → does (update_all root pid tid us) s Q.
Proof.
  induction us as [|u us IH]; intros s m Q Hp Ht Hu Hh HQ; cbn [update_all]; [apply does_ret; by apply HQ|].
  inversion_clear Hu as [|?? Hui Hus]. apply does_and_then, (does_updateAssertion _ _ _ _ _ _ _ _ s m); [done..|]. intros s1 Hh1 Hq1.
  apply (IH s1 (put_evals pid tid u m)); [done..|]. intros s2 Hh2 Hq2. apply HQ; [done|by etrans].
Qed.

(** A run's own assertions as updates. *)
Definition own_updates (result : RunResult) : list (string * string * AssertionResult) := assertion_updates result.

Definition put_result (pid tid : string) (u : string * string * AssertionResult) m : gmap loc value :=
  let '(id, msg, r) := u in
  <[LAssertion pid tid id := VAssertion (add_evals tid id id msg (ar_Total r) (ar_Passed r) (ar_Failed r) (the_assertion m pid tid id))]> m.

Lemma does_update_assertions pid tid us : ∀ s m (Q : unit → server doc W → Prop),
  plain pid → plain tid → Forall (λ u, plain u.1.1) us → holds s m →
  (∀ s', holds s' (foldl (λ m u, put_result pid tid u m) m us) → quiet s s' → Q tt s') → does (update_assertions root pid tid us) s Q.
Proof.
  induction us as [|[[id msg] r] us IH]; intros s m Q Hp Ht Hu Hh HQ; cbn [update_assertions]; [apply does_ret; by apply HQ|].
  inversion_clear Hu as [|?? Hui Hus]. apply does_and_then, (does_updateAssertion _ _ _ _ _ _ _ _ s m); [done..|]. intros s1 Hh1 Hq1.
  apply (IH s1 (put_result pid tid (id, msg, r) m)); [done..|]. intros s2 Hh2 Hq2. apply HQ; [done|by etrans].
Qed.

Definition add_coverage (tid : string) (run : Run) (result : RunResult) (c : Coverage) : Coverage :=
  let cumulative := cov_CumulativeNewEdges c + rr_NewEdges result in
  mkCoverage tid (rr_TotalEdges result) cumulative (cov_CoveragePercentage c)
    (match r_CompletedAt run with
     | Some t1 => cov_PerRun c ++ [mkRunCovStats (r_ID run) (rr_NewEdges result) cumulative t1]
     | None => cov_PerRun c
     end).

Lemma does_updateCoverage pid tid run result s m (Q : unit → server doc W → Prop) :
  plain pid → plain tid → holds s m →
  (∀ s', holds s' (<[LCoverage pid tid := VCoverage (add_coverage tid run result (the_coverage m pid tid))]> m) → quiet s s' → Q tt s') →
  does (updateCoverage root pid tid run result) s Q.
Proof.
  intros Hp Ht Hh HQ. unfold updateCoverage. apply does_and_then, does_reads.
  rewrite (GetCoverage_rep root Hdisk _ m) by (done || apply Hh). cbv zeta beta iota. apply does_and_then.
  lazymatch goal with |- does (writes (SaveCoverage root pid ?g)) _ _ =>
    replace g with (add_coverage tid run result (the_coverage m pid tid)) by (unfold add_coverage; by destruct (r_CompletedAt run)) end.
  apply (does_save pid (VCoverage _) s m); [done| |done|by right|].
  { unfold plain_loc. cbn. rewrite !Forall_cons. done. }
  intros s' Hh' Hq' _ _. apply does_ret, HQ; done.
Qed.
(** *** A run *)

(** The two maps may differ at [P]. *)
Definition same_off (P : loc → Prop) m m' : Prop := ∀ l, ¬ P l → m' !! l = m !! l.

Definition totals_off (P : loc → Prop) (pid tid : string) : Prop := (∀ id, ¬ P (LAssertion pid tid id)) ∧ ¬ P (LCoverage pid tid).

Lemma same_insert P l v m m' : same_off P m m' → same_off P (<[l := v]> m) (<[l := v]> m').
Proof. intros Hs l' Hl. destruct (decide (l' = l)) as [->|]; [by rewrite !lookup_insert_eq|]. rewrite !lookup_insert_ne by done. by apply Hs. Qed.

Lemma same_assertion P pid tid id m m' : totals_off P pid tid → same_off P m m' → the_assertion m' pid tid id = the_assertion m pid tid id.
Proof. intros [Ha _] Hs. unfold the_assertion. by rewrite Hs. Qed.

Lemma same_foldl {A} P (f : gmap loc value → A → gmap loc value) us :
  (∀ m m' u, same_off P m m' → same_off P (f m u) (f m' u)) → ∀ m m', same_off P m m' → same_off P (foldl f m us) (foldl f m' us).
Proof. intros Hf. induction us as [|u us IH]; intros m m' Hs; [done|]. by apply IH, Hf. Qed.

(** What a result adds to the totals of a test, for the run as it ends. *)
Definition with_result (pid tid : string) (result : RunResult) (t : Test) (run : Run) m : gmap loc value :=
  let m := foldl (λ m u, put_result pid tid u m) m (assertion_updates result) in
  let m := foldl (λ m u, put_evals pid tid u m) m (system_updates result t) in
  <[LCoverage pid tid := VCoverage (add_coverage tid run result (the_coverage m pid tid))]> m.

Lemma same_with_result P pid tid result t run m m' :
  totals_off P pid tid → same_off P m m' → same_off P (with_result pid tid result t run m) (with_result pid tid result t run m').
Proof.
  intros HP Hs. unfold with_result. cbv zeta.
  assert (∀ us us' : list _, same_off P
    (foldl (λ m u, put_evals pid tid u m) (foldl (λ m u, put_result pid tid u m) m us) us')
    (foldl (λ m u, put_evals pid tid u m) (foldl (λ m u, put_result pid tid u m) m' us) us')) as Hf.
  { intros us us'. apply same_foldl; [intros m1 m2 u Hm|apply same_foldl; [intros m1 m2 [[id msg] r] Hm|done]].
    - unfold put_evals. rewrite (same_assertion _ _ _ _ _ _ HP Hm). by apply same_insert.
    - unfold put_result. rewrite (same_assertion _ _ _ _ _ _ HP Hm). by apply same_insert. }
  assert (∀ m1 m2, same_off P m1 m2 → the_coverage m2 pid tid = the_coverage m1 pid tid) as Hc.
  { intros m1 m2 Hm. unfold the_coverage. rewrite Hm; [done|apply HP]. }
  rewrite (Hc _ _ (Hf _ _)). by apply same_insert.
Qed.

Definition is_finding_of (pid tid : string) (l : loc) : Prop := ∃ fid, l = LFinding pid tid fid.

Lemma sees_same m m' pid tid fp o : (∀ fid, m' !! LFinding pid tid fid = m !! LFinding pid tid fid) → sees m pid tid fp o → sees m' pid tid fp o.
Proof.
  intros Hm. assert (∀ fid, the_finding m' pid tid fid = the_finding m pid tid fid) as Hf by (intros fid; unfold the_finding; by rewrite Hm).
  destruct o as [[n st]|]; cbn; [|intros Hs fid f; rewrite Hf; apply Hs].
  intros (fid & f & Hi & ? & ? & ? & Hu). exists fid, f. rewrite Hf. split_and!; [done..|]. intros fid' f'. rewrite Hf. apply Hu.
Qed.
Lemma foldl_same_findings {A} pid tid (f : gmap loc value → A → gmap loc value) us :
  (∀ m u fid, f m u !! LFinding pid tid fid = m !! LFinding pid tid fid) →
  ∀ m fid, foldl f m us !! LFinding pid tid fid = m !! LFinding pid tid fid.
Proof. intros Hf. induction us as [|u us IH]; intros m fid; [done|]. cbn. by rewrite IH. Qed.

Lemma with_result_findings pid tid result t run m fid :
  with_result pid tid result t run m !! LFinding pid tid fid = m !! LFinding pid tid fid.
Proof.
  unfold with_result. rewrite lookup_insert_ne by done. rewrite !foldl_same_findings; [done|..].
  - intros m' [[id msg] r] fid'. by apply lookup_insert_ne.
  - intros m' u fid'. by apply lookup_insert_ne.
Qed.

(** The run with what its result says of it. *)
Definition summarised (result : RunResult) (run : Run) : Run :=
  run <| r_Coverage := Some (mkRunCoverage (rr_NewEdges result) (rr_TotalEdges result) fzero) |>
    <| r_Summary := Some (mkRunSummary (rr_TotalStates result) (rr_MaxDepth result) (Z.of_nat (length (reports_of result)))) |>.

Lemma system_updates_plain result t : Forall (λ u, plain (u_id u)) (system_updates result t).
Proof. repeat constructor; by apply (bool_decide_unpack _). Qed.

Lemma assertion_updates_plain result : Forall (λ u, plain u.1.1) (assertion_updates result).
Proof. repeat constructor; by apply (bool_decide_unpack _). Qed.

Lemma does_applyResult pid tid run result t s m (Q : Run → server doc W → Prop) :
  plain pid → plain tid → holds s m → one_each m pid tid →
  (∀ s' m', holds s' m' → quiet s s' →
     (∀ fp o, sees m pid tid fp o → sees m' pid tid fp (Nat.iter (times_reported fp (reports_of result)) seen_again o)) →
     same_off (is_finding_of pid tid) (with_result pid tid result t (summarised result run) m) m' → Q (summarised result run) s') →
  does (applyResult root pid tid run result t) s Q.
Proof.
  intros Hp Ht Hh Hone HQ. unfold applyResult. apply does_and_then, (does_save_findings _ _ _ _ _ s m); [done..|].
  intros s1 m1 Hh1 Hq1 Hs1 Hf1. rewrite Z.add_0_l.
  apply does_and_then, (does_update_assertions _ _ _ s1 m1); [done|done|apply assertion_updates_plain|done|]. intros s2 Hh2 Hq2.
  apply does_and_then. unfold updateSystemProperties.
  eapply (does_update_all _ _ _ s2); [done|done|apply system_updates_plain|done|]. intros s3 Hh3 Hq3.
  apply does_and_then. eapply (does_updateCoverage _ _ _ _ s3); [done|done|done|]. intros s4 Hh4 Hq4.
  apply does_ret. change (Q (summarised result run) s4). eapply (HQ s4); [done|by do 3 (etrans; [eassumption|])| |].
  - intros fp o Ho. apply Hs1 in Ho. revert Ho. apply sees_same. intros fid. apply with_result_findings.
  - apply same_with_result; [split; [intros id|]; intros [fid [=]]|]. intros l Hl. apply Hf1. intros fid ->. apply Hl. by exists fid.
Qed.
(** The duration of a run: the test's own, or that of the settings. *)
Definition run_duration m (t : Test) : string :=
  if bool_decide (xc_RunDuration (t_Exploration t) = ""%string) then es_DefaultRunDuration (s_Exploration (the_settings m))
  else xc_RunDuration (t_Exploration t).

Lemma does_buildRunCfg pid tid env t seed rid s m (Q : RunCfg → server doc W → Prop) :
  holds s m → Q (run_config runner pid tid env t seed rid (run_duration m t)) s → does (buildRunCfg root runner pid tid env t seed rid) s Q.
Proof.
  intros Hh HQ. unfold buildRunCfg. apply does_and_then. unfold run_duration in HQ.
  case_bool_decide; [|by do 2 apply does_ret]. apply does_and_then, does_reads. rewrite (GetSettings_rep root Hdisk _ m) by apply Hh.
  by do 2 apply does_ret.
Qed.

Lemma does_Execute cfg s m (Q : RunResult → server doc W → Prop) :
  holds s m → (∀ s', holds s' m → quiet s s' → Q (Execute runner cfg (world s)).1 s') → does (runner_Execute runner cfg) s Q.
Proof.
  intros Hh HQ. unfold runner_Execute. pose proof (Execute_drawn runner cfg (world s)) as Hw.
  destruct (Execute runner cfg (world s)) as [r w] eqn:E. cbn in *. eapply does_once; [by rewrite E|].
  assert (drawn (world s) ⊆ drawn w) by by rewrite Hw.
  apply HQ; [|by split_and!]. by apply (holds_mono s).
Qed.

(** The record of a run that started at [t0] and ended at [t1]. *)
Definition closed_run (result : RunResult) (cancelled : bool) (t0 t1 : time) (run : Run) : Run :=
  let run := run <| r_Status := final_status cancelled result |> <| r_StartedAt := Some t0 |> <| r_CompletedAt := Some t1 |>
    <| r_Duration := Duration_String (Round (Sub t1 t0) second) |> in
  match rr_Err result with Some _ => run | None => summarised result run end.

(** What a run leaves: its own record [final], and if it did not fail its
    findings and its part of the totals. *)
Record left_by (pid tid rid : string) (result : RunResult) (t : Test) (final : Run) m m' : Prop := {
  left_run : the_run m' pid tid rid = Some final;
  left_findings fp o : sees m pid tid fp o →
    sees m' pid tid fp (match rr_Err result with Some _ => o | None => Nat.iter (times_reported fp (reports_of result)) seen_again o end);
  left_rest l : l ≠ LRun pid tid rid → ¬ is_finding_of pid tid l →
    m' !! l = match rr_Err result with Some _ => m !! l | None => with_result pid tid result t final m !! l end }.

Definition run_event (run : Run) : string := if bool_decide (r_Status run = "failed"%string) then "run.failed" else "run.completed".

(** The notification that ends the outbox. *)
Definition announced (pid : string) (run : Run) s : Prop :=
  r_Status run ≠ "cancelled"%string → last (outbox s) = Some (mkNotification pid (run_event run) (PRun run)).

Lemma the_run_ids s m pid tid rid run : holds s m → the_run m pid tid rid = Some run →
  r_ProjectID run = pid ∧ r_TestID run = tid ∧ r_ID run = rid ∧ m !! LRun pid tid rid = Some (VRun run).
Proof.
  intros Hh. unfold the_run. destruct (m !! LRun pid tid rid) as [v|] eqn:Hv; [|done]. destruct v; try done. intros [= ->].
  destruct (rep_kind root _ _ _ _ (h_rep _ _ Hh) Hv) as (p & E). cbn in E. by simplify_eq.
Qed.

Lemma does_finish_run c pid tid rid t result run t0 s m m0 (Q : unit → server doc W → Prop) :
  plain pid → plain tid → plain rid → holds s m → was_drawn (world s) (LRun pid tid rid) → one_each m0 pid tid →
  r_ProjectID run = pid → r_TestID run = tid → r_ID run = rid → r_StartedAt run = Some t0 →
  (∀ l, l ≠ LRun pid tid rid → m !! l = m0 !! l) →
  (∀ s' m' t1, let final := closed_run result (bool_decide (c ∈ cancelled s)) t0 t1 run in
     holds s' m' → quiet s s' → left_by pid tid rid result t final m0 m' → announced pid final s' → Q tt s') →
  does (finish_run root c pid tid t result run t0) s Q.
Proof.
  intros Hp Ht Hi Hh Hdrawn Hone Hrp Hrt Hri Hst Hm HQ. unfold finish_run. apply does_and_then, (does_now s m); [done|]. intros t1 s1 Hh1 Hq1 _.
  apply does_and_then, does_locked. cbn [fst snd].
  assert (cancelled s1 = cancelled s) as -> by apply Hq1. revert HQ. generalize (bool_decide (c ∈ cancelled s)). intros b HQ.
  set (final := closed_run result b t0 t1 run).
  assert (∀ fp o, sees m0 pid tid fp o → sees m pid tid fp o) as Hs0.
  { intros fp o. apply sees_same. intros fid. by apply Hm. }
  assert (∀ s2 m2, holds s2 m2 → quiet s1 s2 →
    (∀ fp o, sees m0 pid tid fp o → sees m2 pid tid fp (match rr_Err result with Some _ => o | None => Nat.iter (times_reported fp (reports_of result)) seen_again o end)) →
    (∀ l, l ≠ LRun pid tid rid → ¬ is_finding_of pid tid l →
       m2 !! l = match rr_Err result with Some _ => m0 !! l | None => with_result pid tid result t final m0 !! l end) →
    does (_ ← writes (SaveRun root final); if bool_decide (r_Status final = "cancelled"%string) then mret tt
          else notify pid (run_event final) (PRun final)) s2 Q) as Hend.
  { intros s2 m2 Hh2 Hq2 Hs2 Hf2. apply does_and_then. assert (loc_of pid (VRun final) = LRun pid tid rid) as El.
    { unfold final, closed_run, summarised. destruct (rr_Err result); cbn; congruence. }
    apply (does_save pid (VRun final) s2 m2); [done| |done| |]; rewrite El.
    { unfold plain_loc. cbn. by rewrite !Forall_cons. }
    { right. eapply was_drawn_mono; [|exact Hdrawn]. assert (quiet s s2) as (_ & _ & _ & _ & Hd) by by etrans. exact Hd. }
    intros s3 Hh3 Hq3 Ho3 _.
    assert (left_by pid tid rid result t final m0 (<[LRun pid tid rid := VRun final]> m2)) as Hleft.
    { split; [by unfold the_run; rewrite lookup_insert_eq| |].
      - intros fp o Ho. apply Hs2 in Ho. revert Ho. apply sees_same. intros fid. by apply lookup_insert_ne.
      - intros l Hl Hl'. rewrite lookup_insert_ne by done. by apply Hf2. }
    assert (quiet s s3) as Hq by by do 2 (etrans; [eassumption|]).
    case_bool_decide as Ec.
    - apply does_ret. eapply (HQ s3); [done|done|done|by intros []].
    - apply does_locked. cbn [fst snd]. eapply (HQ _ _ t1); [split; [apply Hh3|apply (h_drawn _ _ Hh3)]| |done|].
      + etrans; [exact Hq|]. by split_and!; try apply prefix_app_r.
      + intros _. cbn. by rewrite last_snoc. }
  set (ended := run <| r_CompletedAt := Some t1 |> <| r_Duration := Duration_String (Round (Sub t1 t0) second) |> <| r_Status := final_status b result |>).
  assert (final = match rr_Err result with Some _ => ended | None => summarised result ended end) as Ef.
  { unfold final, ended, closed_run, summarised. destruct run. cbn in Hst. subst. by destruct (rr_Err result). }
  apply does_and_then. clearbody final. destruct (rr_Err result) eqn:Er.
  - apply does_ret. rewrite <-Ef. apply (Hend s1 m); [done|done|done|]. intros l Hl _. by apply Hm.
  - apply (does_applyResult _ _ _ _ _ s1 m); [done|done|done| |].
    { intros fp. destruct (Hone fp) as [o Ho]. exists o. by apply Hs0. }
    rewrite <-Ef. intros s2 m2 Hh2 Hq2 Hs2 Hf2. apply (Hend s2 m2); [done|done| |].
    + intros fp o Ho. by apply Hs2, Hs0.
    + intros l Hl Hl'. rewrite Hf2 by done. apply (same_with_result (λ l, l = LRun pid tid rid)); [by split|by intros l' ?; apply Hm|done].
Qed.
(** The run taken off the job of its test. *)
Definition without_run (key rid : string) (jobs : gmap string testJob) : gmap string testJob :=
  alter (λ job, job <| runCancels := delete rid (runCancels job) |>) key jobs.

Lemma leave_run_alter key rid (jobs : gmap string testJob) :
  match jobs !! key with Some job => <[key := job <| runCancels := delete rid (runCancels job) |>]> jobs | None => jobs end = without_run key rid jobs.
Proof.
  unfold without_run. apply map_eq. intros k. destruct (jobs !! key) as [job|] eqn:E.
  - destruct (decide (k = key)) as [->|]; [by rewrite lookup_insert_eq, lookup_alter_eq, E|by rewrite lookup_insert_ne, lookup_alter_ne].
  - destruct (decide (k = key)) as [->|]; [by rewrite lookup_alter_eq, E|by rewrite lookup_alter_ne].
Qed.

Lemma leave_run_server key rid s :
  (match active s !! key with
   | Some job => (tt, s <| active := <[key := job <| runCancels := delete rid (runCancels job) |>]> (active s) |>)
   | None => (tt, s)
   end).2 = s <| active := without_run key rid (active s) |>.
Proof. rewrite <-leave_run_alter. destruct (active s !! key); [done|]. by destruct s. Qed.

End does.
