(* ===== verification/TestManagerPool.v ===== *)
(** * The test manager: any interleaving of its goroutines

    What every goroutine guarantees the others, with a ghost value that says
    which run it owns; that triggering, executing, starting and stopping keep to
    it; and that whatever the interleaving every run that is triggered is
    executed to its end. *)
From stdpp Require Import strings pretty relations.
From S2P Require Import Prelude Strings Word Float GoLib Json Sha256 TestConfig Runner ApiData FileStore FileStoreProps Interleave TestManager TestManagerProps.
Local Open Scope Z_scope.

(** ** Specification *)

(** A goroutine with no run of its own, and the test that it still has to make
    one for; or its run: as the store has it, and its context while the run is
    in the job table. *)
Inductive ghost :=
| Idle (due : option (string * string))
| Owns (pid tid rid : string) (run : option Run) (c : option ctx).

Definition owns (g : ghost) (pid tid rid : string) : Prop :=
  match g with Idle _ => False | Owns p t r _ _ => p = pid ∧ t = tid ∧ r = rid end.

Definition entered (g : ghost) (key rid : string) : Prop :=
  match g with Owns p t r _ (Some _) => jobKey p t = key ∧ r = rid | _ => False end.

#[export] Instance owns_dec g pid tid rid : Decision (owns g pid tid rid).
Proof. destruct g; cbn; apply _. Defined.

#[export] Instance entered_dec g key rid : Decision (entered g key rid).
Proof. destruct g as [|p t r run [c|]]; cbn; apply _. Defined.

(** The test that the goroutine makes a run for. *)
Definition target (g : ghost) : option (string * string) :=
  match g with Idle due => due | Owns p t _ _ _ => Some (p, t) end.

Section spec.
Context {doc W : Type} `{Files} `{Codecs doc, !Lossless doc} `{HostLaws W} (root : string) (runner : RunnerCfg) (Hdisk : sound_disk).
Notation G := (M doc W).
Implicit Types (s : server doc W) (m : gmap loc value) (g : ghost).

(** A context that stopping a test cancels, or that was cancelled. *)
Definition job_ctx s (c : ctx) : Prop := c ∈ cancelled s ∨ ∃ key job, active s !! key = Some job ∧ jobCancel job = Some c.

Definition in_job s (key rid : string) : Prop := ∃ job, active s !! key = Some job ∧ is_Some (runCancels job !! rid).

Definition ctxs_ok s : Prop := ∀ c, job_ctx s c → (c < nextCtx s)%nat.

(** What is known of the goroutine's own run. *)
Definition own s m g : Prop :=
  match g with
  | Idle _ => True
  | Owns p t r run c =>
      plain p ∧ plain t ∧ plain r ∧ was_drawn (world s) (LRun p t r) ∧ the_run m p t r = run ∧
      match c with Some c => (c < nextCtx s)%nat ∧ ¬ job_ctx s c | None => True end
  end.

(** Tests keep their environments, and environments stay. *)
Definition keeps m m' : Prop :=
  (∀ p t v, the_test m p t = Some v → ∃ v', the_test m' p t = Some v' ∧ t_EnvironmentID v' = t_EnvironmentID v) ∧
  (∀ p e v, the_environment m p e = Some v → the_environment m' p e = Some v).

#[export] Instance keeps_preorder : PreOrder keeps.
Proof.
  split; [by intros m; split; [intros p t v Hv; exists v|]|]. intros m1 m2 m3 [Ht1 He1] [Ht2 He2]. split; [|auto].
  intros p t v (v1 & Hv1 & E1)%Ht1. apply Ht2 in Hv1 as (v2 & Hv2 & E2). exists v2. split; [done|congruence].
Qed.

(** What others may do. *)
Definition rely s s' : Prop :=
  drawn (world s) ⊆ drawn (world s') ∧ ∀ m, holds root s m → ∃ m', holds root s' m' ∧ keeps m m'.

#[export] Instance rely_preorder : PreOrder rely.
Proof.
  split; [by intros s; split; [done|intros m Hm; exists m]|]. intros s1 s2 s3 [Hd1 H12] [Hd2 H23]. split; [by etrans|].
  intros m1 (m2 & Hm2 & Hk2)%H12. apply H23 in Hm2 as (m3 & Hm3 & Hk3). exists m3. split; [done|by etrans].
Qed.

(** A step of a goroutine: the store's runs change only where it owns them. *)
Record evolves s m g s' m' g' : Prop := {
  ev_holds : holds root s' m';
  ev_ctxs : ctxs_ok s';
  ev_own : own s' m' g';
  ev_same p t r : owns g p t r → owns g' p t r;
  ev_new p t r : owns g' p t r → owns g p t r ∨ ¬ was_drawn (world s) (LRun p t r);
  ev_runs p t r : ¬ owns g' p t r → the_run m' p t r = the_run m p t r;
  ev_drawn : drawn (world s) ⊆ drawn (world s');
  ev_next : (nextCtx s ≤ nextCtx s')%nat;
  ev_job c : job_ctx s' c → job_ctx s c ∨ (nextCtx s ≤ c)%nat;
  ev_in key rid : in_job s' key rid → entered g' key rid ∨ in_job s key rid ∧ ¬ entered g key rid;
  ev_target x : target g = Some x → target g' = Some x;
  ev_keeps : keeps m m' }.

Definition trans s g s' g' : Prop := ∀ m, holds root s m → own s m g → ctxs_ok s → ∃ m', evolves s m g s' m' g'.

Definition known s g : Prop := ∃ m, holds root s m ∧ own s m g ∧ ctxs_ok s.

Abbreviation safely := (safe rely known trans).

(** ** Rules *)

Lemma rep_unique d m m' : rep root d m → rep root d m' → m = m'.
Proof.
  intros Hm Hm'. assert (∀ m1 m2 l v, rep root d m1 → rep root d m2 → m1 !! l = Some v → m2 !! l = Some v) as Hle.
  { intros m1 m2 l v Hr1 Hr2 Hv. destruct (encodes (doc := doc) v) as [data He].
    assert (d !! at_ root (place l) = Some data) as Hd by by rewrite (rep_lookup _ _ _ _ Hr1), Hv.
    destruct (rep_decode _ _ _ _ _ Hr1 Hd) as (v1 & Hv1 & _ & E1). destruct (rep_decode _ _ _ _ _ Hr2 Hd) as (v2 & Hv2 & _ & E2). congruence. }
  apply map_eq. intros l. apply option_eq. intros v. split; by apply Hle.
Qed.

Lemma holds_unique s m m' : holds root s m → holds root s m' → m = m'.
Proof. intros Hm Hm'. eapply rep_unique; [apply Hm|apply Hm']. Qed.

Lemma safe_step {A} (f : server doc W → option (A * server doc W)) s0 g (Q : A → server doc W → ghost → Prop) :
  (∀ s m, rely s0 s → holds root s m → own s m g → ctxs_ok s →
     ∃ a s' m' g', f s = Some (a, s') ∧ evolves s m g s' m' g' ∧ Q a s' g') → safely (once f) s0 g Q.
Proof.
  intros Hf. apply safe_once. intros s Hr (m & Hm & Ho & Hc). destruct (Hf s m Hr Hm Ho Hc) as (a & s' & m' & g' & E & He & HQ).
  exists a, s', g'. split_and!; [done| | |done].
  - intros m1 Hm1 _ _. rewrite (holds_unique _ _ _ Hm1 Hm). by exists m'.
  - split; [apply He|]. intros m1 Hm1. rewrite (holds_unique _ _ _ Hm1 Hm). exists m'. split; apply He.
Qed.

Lemma safe_then {A B} (k : A → G B) (p : G A) s0 g Q : safely p s0 g (λ a s g, safely (k a) s g Q) → safely (p ≫= k) s0 g Q.
Proof. apply safe_bind. Qed.

Lemma safe_ret {A} (a : A) s g (Q : A → server doc W → ghost → Prop) : Q a s g → safely (mret a : G A) s g Q.
Proof. done. Qed.

(** Steps that leave the store, the jobs and the contexts as they are. *)
Lemma own_step s m s' m' p t r run run' c : own s m (Owns p t r run c) → the_run m' p t r = run' → drawn (world s) ⊆ drawn (world s') →
  (nextCtx s ≤ nextCtx s')%nat → (∀ c, job_ctx s' c → job_ctx s c ∨ (nextCtx s ≤ c)%nat) → own s' m' (Owns p t r run' c).
Proof.
  intros (Hp & Ht & Hr & Hd & _ & Hc) Hrun Hdr Hn Hj. split_and!; [done..|by eapply was_drawn_mono|done|].
  destruct c as [c|]; [|done]. destruct Hc as [Hlt Hno]. split; [lia|]. intros [|Hge]%Hj; [done|lia].
Qed.

Lemma own_later s m s' m' g : own s m g → (∀ p t r, owns g p t r → the_run m' p t r = the_run m p t r) → drawn (world s) ⊆ drawn (world s') →
  (nextCtx s ≤ nextCtx s')%nat → (∀ c, job_ctx s' c → job_ctx s c ∨ (nextCtx s ≤ c)%nat) → own s' m' g.
Proof.
  destruct g as [due|p t r run c]; [done|]. intros Ho Hrun Hdr Hn Hj. eapply own_step; try done.
  rewrite Hrun by done. by destruct Ho as (_ & _ & _ & _ & ? & _).
Qed.

Lemma evolves_quiet s m g s' : holds root s m → own s m g → ctxs_ok s → disk s' = disk s → quiet s s' → evolves s m g s' m g.
Proof.
  intros Hh Ho Hc Ed (Ea & En & Ec & _ & Hd).
  assert (∀ c, job_ctx s' c ↔ job_ctx s c) as Hj by by intros c; unfold job_ctx; rewrite Ea, Ec.
  split; try done.
  - by eapply holds_mono.
  - intros c. rewrite Hj, En. apply Hc.
  - eapply own_later; try done; [by rewrite En|]. intros c. rewrite Hj. by left.
  - by left.
  - by rewrite En.
  - intros c. rewrite Hj. by left.
  - intros key rid. unfold in_job. rewrite Ea. intros Hi. destruct (decide (entered g key rid)); [by left|by right].
Qed.

Lemma quiet_world s w : drawn (world s) ⊆ drawn w → quiet s (s <| world := w |>).
Proof. intros Hw. by split_and!. Qed.

Lemma quiet_outbox s o : quiet s (s <| outbox := outbox s ++ o |>).
Proof. split_and!; [done..|by apply prefix_app_r|done]. Qed.

Lemma rely_world s0 s w : rely s0 s → drawn (world s) ⊆ drawn w → rely s0 (s <| world := w |>).
Proof. intros Hr Hw. etrans; [done|]. split; [done|]. intros m Hm. exists m. split; [by eapply holds_mono; [| |exact Hm]|done]. Qed.

Lemma safe_quiet {A} (f : server doc W → option (A * server doc W)) s0 g (Q : A → server doc W → ghost → Prop) :
  (∀ s m, rely s0 s → holds root s m → own s m g → ∃ a s', f s = Some (a, s') ∧ disk s' = disk s ∧ quiet s s' ∧ Q a s' g) →
  safely (once f) s0 g Q.
Proof.
  intros Hf. apply safe_step. intros s m Hr Hh Ho Hc. destruct (Hf s m Hr Hh Ho) as (a & s' & E & Ed & Hq & HQ).
  exists a, s', m, g. split_and!; [done|by apply evolves_quiet|done].
Qed.

Lemma safe_reads {A} (f : gmap path doc → A) s0 g (Q : A → server doc W → ghost → Prop) :
  (∀ s m, rely s0 s → holds root s m → own s m g → Q (f (disk s)) s g) → safely (reads f) s0 g Q.
Proof. intros HQ. apply safe_quiet. intros s m Hr Hh Ho. exists (f (disk s)), s. split_and!; [done|done|done|by apply (HQ s m)]. Qed.

Lemma safe_now s0 g (Q : time → server doc W → ghost → Prop) : (∀ t s, rely s0 s → Q t s g) → safely now s0 g Q.
Proof.
  intros HQ. apply safe_quiet. intros s m Hr Hh Ho. pose proof (clock_drawn (world s)) as Ew.
  destruct (read_clock (world s)) as [t w]. exists t, (s <| world := w |>). cbn in Ew. assert (drawn (world s) ⊆ drawn w) by by rewrite Ew.
  split_and!; [done|done|by apply quiet_world|by apply HQ, rely_world].
Qed.

Lemma safe_notify pid event p s0 g (Q : unit → server doc W → ghost → Prop) : (∀ s, Q tt s g) → safely (notify pid event p) s0 g Q.
Proof. intros HQ. apply safe_quiet. intros s m _ _ _. eexists tt, _. split_and!; [done|done|apply quiet_outbox|apply HQ]. Qed.

(** No other goroutine cancels the context of a run. *)
Lemma safe_is_cancelled p t r run c s0 (Q : bool → server doc W → ghost → Prop) :
  (∀ s, Q false s (Owns p t r run (Some c))) → safely (is_cancelled c) s0 (Owns p t r run (Some c)) Q.
Proof.
  intros HQ. apply safe_quiet. intros s m _ _ (_ & _ & _ & _ & _ & _ & Hc). exists false, s. split_and!; [|done|done|done].
  rewrite bool_decide_eq_false_2; [done|]. intros Hin. apply Hc. by left.
Qed.

Lemma safe_Execute cfg s0 g (Q : RunResult → server doc W → ghost → Prop) :
  (∀ w s, Q (Execute runner cfg w).1 s g) → safely (runner_Execute runner cfg) s0 g Q.
Proof.
  intros HQ. apply safe_quiet. intros s m _ _ _. pose proof (Execute_drawn runner cfg (world s)) as Ew. specialize (HQ (world s)).
  destruct (Execute runner cfg (world s)) as [r w]. exists r, (s <| world := w |>). cbn in Ew.
  split_and!; [done|done|apply quiet_world; by rewrite Ew|apply HQ].
Qed.

Lemma safe_random s0 g (Q : option (list Z) → server doc W → ghost → Prop) : (∀ b s, rely s0 s → Q (Some b) s g) → safely (random 8) s0 g Q.
Proof.
  intros HQ. apply safe_quiet. intros s m Hr Hh _. destruct (draws (world s)) as (b & Eb & _ & _ & Hw). destruct (rand_read 8 (world s)) as [o w].
  cbn in *. subst o. exists (Some b), (s <| world := w |>). assert (drawn (world s) ⊆ drawn w) by set_solver.
  split_and!; [done|done|by apply quiet_world|by apply HQ, rely_world].
Qed.

(** *** Saving *)

Lemma evolves_rely s m g s' m' g' : holds root s m → evolves s m g s' m' g' → rely s s'.
Proof. intros Hh He. split; [apply He|]. intros m1 Hm1. rewrite (holds_unique _ _ _ Hm1 Hh). exists m'. split; apply He. Qed.

Lemma the_run_insert m p t r l v : l ≠ LRun p t r → the_run (<[l := v]> m) p t r = the_run m p t r.
Proof. intros Hl. unfold the_run. by rewrite lookup_insert_ne. Qed.

Lemma evolves_save pid v s m g g' d : holds root s m → ctxs_ok s → holds root (s <| disk := d |>) (<[loc_of pid v := v]> m) →
  own (s <| disk := d |>) (<[loc_of pid v := v]> m) g' → (∀ p t r, owns g p t r ↔ owns g' p t r) →
  (∀ key rid, entered g key rid → entered g' key rid) → target g = target g' →
  (∀ p t r, loc_of pid v = LRun p t r → owns g' p t r) → keeps m (<[loc_of pid v := v]> m) →
  evolves s m g (s <| disk := d |>) (<[loc_of pid v := v]> m) g'.
Proof.
  intros Hh Hc Hh' Ho' Hown Hent Ht Hrun Hk. split; try done.
  - by intros p t r ?%Hown.
  - intros p t r ?%Hown. by left.
  - intros p t r Hno. apply the_run_insert. intros E. by apply Hno, Hrun.
  - by left.
  - intros key rid Hi. destruct (decide (entered g key rid)) as [He|]; [left; by apply Hent|by right].
  - intros x. by rewrite Ht.
Qed.

(** Anything but a run, a test or an environment. *)
Definition side_value (v : value) : Prop := match v with VRun _ | VTest _ | VEnv _ | VWebhook _ => False | _ => True end.

Lemma keeps_insert m l v : (∀ p t, l ≠ LTest p t) → (∀ p e, l ≠ LEnv p e) → keeps m (<[l := v]> m).
Proof.
  intros Ht He. split.
  - intros p t w Hw. exists w. split; [|done]. revert Hw. unfold the_test. by rewrite lookup_insert_ne.
  - intros p e w. unfold the_environment. by rewrite lookup_insert_ne.
Qed.

Lemma safe_save pid v s0 g (Q : option store_error → server doc W → ghost → Prop) : side_value v → plain_loc (loc_of pid v) →
  (∀ s, rely s0 s → was_drawn (world s) (loc_of pid v)) → (∀ s, rely s0 s → Q None s g) → safely (writes (save root pid v)) s0 g Q.
Proof.
  intros Hv Hl Hd HQ. apply safe_step. intros s m Hr Hh Ho Hc.
  destruct (save_holds root Hdisk pid v s m Hh Hl) as (d & E & Hh'); [by destruct v|by right; apply Hd|].
  exists None, (s <| disk := d |>), (<[loc_of pid v := v]> m), g.
  assert (evolves s m g (s <| disk := d |>) (<[loc_of pid v := v]> m) g) as He.
  { apply evolves_save; try done; [|by destruct v|apply keeps_insert; by destruct v].
    eapply own_later; try done; [|by left]. intros p t r _. apply the_run_insert. by destruct v. }
  split_and!; [by rewrite E|done|]. apply HQ. etrans; [exact Hr|]. by eapply evolves_rely.
Qed.

(** The goroutine's own run. *)
Lemma safe_save_run run p t r old c s0 (Q : option store_error → server doc W → ghost → Prop) :
  r_ProjectID run = p → r_TestID run = t → r_ID run = r → (∀ s, rely s0 s → Q None s (Owns p t r (Some run) c)) →
  safely (writes (SaveRun root run)) s0 (Owns p t r old c) Q.
Proof.
  intros <- <- <- HQ. apply safe_step. intros s m Hr Hh Ho Hc. pose proof Ho as (Hp & Ht & Hi & Hd & _ & _).
  destruct (save_holds root Hdisk "" (VRun run) s m Hh) as (d & E & Hh'); [unfold plain_loc; cbn; by rewrite !Forall_cons|done|by right|].
  set (g' := Owns _ _ _ (Some run) c) in *. exists None, (s <| disk := d |>), (<[loc_of "" (VRun run) := VRun run]> m), g'.
  assert (evolves s m (Owns (r_ProjectID run) (r_TestID run) (r_ID run) old c) (s <| disk := d |>) (<[loc_of "" (VRun run) := VRun run]> m) g') as He.
  { apply evolves_save; try done; [|by intros p t r [= <- <- <-]|by apply keeps_insert].
    eapply own_step; try done; [|by left]. unfold the_run. cbn. by rewrite lookup_insert_eq. }
  split_and!; [|done|].
  - change (SaveRun root run) with (save root "" (VRun run)). by rewrite E.
  - apply HQ. etrans; [exact Hr|]. by eapply evolves_rely.
Qed.

(** A test, with the environment that it has. *)
Lemma safe_save_test v s0 g (Q : option store_error → server doc W → ghost → Prop) :
  plain (t_ProjectID v) → plain (t_ID v) →
  (∃ m v0, holds root s0 m ∧ the_test m (t_ProjectID v) (t_ID v) = Some v0 ∧ t_EnvironmentID v0 = t_EnvironmentID v) →
  (∀ s, Q None s g) → safely (writes (SaveTest root v)) s0 g Q.
Proof.
  intros Hp Ht (m0 & v0 & Hm0 & Hv0 & Ev0) HQ. apply safe_step. intros s m Hr Hh Ho Hc.
  destruct (save_holds root Hdisk "" (VTest v) s m Hh) as (d & E & Hh'); [unfold plain_loc; cbn; by rewrite !Forall_cons|done|by right|].
  exists None, (s <| disk := d |>), (<[loc_of "" (VTest v) := VTest v]> m), g. split_and!; [| |apply HQ].
  { change (SaveTest root v) with (save root "" (VTest v)). by rewrite E. }
  apply evolves_save; try done.
  - eapply own_later; try done; [|by left]. intros p t r _. by apply the_run_insert.
  - destruct Hr as [_ Hr]. destruct (Hr _ Hm0) as (m1 & Hm1 & Hk1). rewrite (holds_unique _ _ _ Hm1 Hh) in Hk1.
    destruct Hk1 as [Hk1 _]. destruct (Hk1 _ _ _ Hv0) as (v1 & Hv1 & E1). split.
    + intros p t w. unfold the_test. cbn. destruct (decide (LTest (t_ProjectID v) (t_ID v) = LTest p t)) as [[= <- <-]|Hne].
      * rewrite lookup_insert_eq. unfold the_test in Hv1. destruct (m !! _) as [[]|]; try done. intros [= ->]. exists v. split; [done|congruence].
      * rewrite lookup_insert_ne by done. by exists w.
    + intros p e w. unfold the_environment. cbn. by rewrite lookup_insert_ne.
Qed.

(** ** Executing a run

    The continuation needs nothing of the state, only that the goroutine still
    owns its run. *)

Lemma safe_generateID_find s0 g (Q : string → server doc W → ghost → Prop) :
  (∀ id s, plain id → (∀ s' p t, rely s s' → was_drawn (world s') (LFinding p t id)) → Q id s g) → safely (generateID "find") s0 g Q.
Proof.
  intros HQ. unfold generateID. apply safe_then. apply safe_quiet. intros s m Hr Hh _.
  destruct (draws (world s)) as (b & Eb & Hb & _ & Hw). destruct (rand_read 8 (world s)) as [o w].
  cbn in Eb, Hw. subst o. exists (Some b), (s <| world := w |>). assert (drawn (world s) ⊆ drawn w) by set_solver.
  split_and!; [done|done|by apply quiet_world|]. apply safe_ret, HQ; [apply (plain_id Hdisk); [by apply (bool_decide_unpack _)|done]|].
  intros s' p t [Hd _]. eapply was_drawn_mono; [exact Hd|]. exists (hex_string b). split; [cbn; set_solver|done].
Qed.

Lemma safe_saveFinding pid tid run ty property msg details s0 g (Q : bool → server doc W → ghost → Prop) :
  plain pid → plain tid → (∀ s, Q true s g) → safely (saveFinding root pid tid run ty property msg details) s0 g Q.
Proof.
  intros Hp Ht HQ. unfold saveFinding. apply safe_then, safe_now. intros t0 s1 _. apply safe_then, safe_reads. intros s2 m2 _ Hh2 _.
  destruct (FindFindingByFingerprint _ _ _ _ _) as [f|e] eqn:E.
  - apply (FindFinding_in root Hdisk _ m2) in E; [|apply Hh2|done|done].
    destruct (the_finding_ids root _ _ _ _ _ _ (h_rep _ _ _ Hh2) E) as (Em & Ep & Et & _). apply safe_then.
    lazymatch goal with |- safe _ _ _ (writes (SaveFinding root ?f')) _ _ _ => change (SaveFinding root f') with (save root "" (VFinding f')) end.
    assert (∀ f', f_ProjectID f' = f_ProjectID f → f_TestID f' = f_TestID f → f_ID f' = f_ID f → loc_of "" (VFinding f') = LFinding pid tid (f_ID f)) as El.
    { intros f' E1 E2 E3. cbn. congruence. }
    apply safe_save; [done|rewrite El by done; apply (rep_good _ _ _ (h_rep _ _ _ Hh2) _ _ Em)| |intros s3 _; apply safe_ret, HQ].
    intros s3 [Hd _]. rewrite El by done. eapply was_drawn_mono; [exact Hd|]. apply (h_drawn _ _ _ Hh2). by rewrite Em.
  - apply safe_then, safe_generateID_find. intros id s3 Hid Hd. apply safe_then.
    lazymatch goal with |- safe _ _ _ (writes (SaveFinding root ?f')) _ _ _ => change (SaveFinding root f') with (save root "" (VFinding f')) end.
    apply safe_save; [done|unfold plain_loc; cbn; by rewrite !Forall_cons| |].
    + intros s4 Hr4. by apply Hd.
    + intros s4 _. apply safe_then, safe_notify. intros s5. apply safe_ret, HQ.
Qed.

Lemma safe_save_findings pid tid run rs : ∀ n s0 g (Q : Z → server doc W → ghost → Prop),
  plain pid → plain tid → (∀ s, Q (n + Z.of_nat (length rs)) s g) → safely (save_findings root pid tid run rs n) s0 g Q.
Proof.
  induction rs as [|[[[ty prop] msg] det] rs IH]; intros n s0 g Q Hp Ht HQ; cbn [save_findings].
  { apply safe_ret. rewrite <-(Z.add_0_r n). apply HQ. }
  apply safe_then, safe_saveFinding; [done..|]. intros s. apply IH; [done..|]. intros s'.
  assert (n + Z.of_nat (length ((ty, prop, msg, det) :: rs)) = n + 1 + Z.of_nat (length rs)) as <- by (cbn [length]; unfold report; lia).
  apply HQ.
Qed.

Lemma safe_updateAssertion pid tid id typ msg total passed failed s0 g (Q : unit → server doc W → ghost → Prop) :
  plain pid → plain tid → plain id → (∀ s, Q tt s g) → safely (updateAssertion root pid tid id typ msg total passed failed) s0 g Q.
Proof.
  intros Hp Ht Hi HQ. unfold updateAssertion. apply safe_then, safe_reads. intros s m _ _ _. apply safe_then.
  lazymatch goal with |- safe _ _ _ (writes (SaveAssertion root pid ?a)) _ _ _ => change (SaveAssertion root pid a) with (save root pid (VAssertion a)) end.
  apply safe_save; [done|unfold plain_loc; cbn; by rewrite !Forall_cons|done|]. intros s' _. apply safe_ret, HQ.
Qed.

Lemma safe_update_all pid tid us : ∀ s0 g (Q : unit → server doc W → ghost → Prop),
  plain pid → plain tid → Forall (λ u, plain (u_id u)) us → (∀ s, Q tt s g) → safely (update_all root pid tid us) s0 g Q.
Proof.
  induction us as [|u us IH]; intros s0 g Q Hp Ht Hu HQ; cbn [update_all]; [apply safe_ret, HQ|].
  inversion_clear Hu. apply safe_then, safe_updateAssertion; [done..|]. intros s. by apply IH.
Qed.

Lemma safe_update_assertions pid tid us : ∀ s0 g (Q : unit → server doc W → ghost → Prop),
  plain pid → plain tid → Forall (λ u, plain u.1.1) us → (∀ s, Q tt s g) → safely (update_assertions root pid tid us) s0 g Q.
Proof.
  induction us as [|[[id msg] r] us IH]; intros s0 g Q Hp Ht Hu HQ; cbn [update_assertions]; [apply safe_ret, HQ|].
  inversion_clear Hu. apply safe_then, safe_updateAssertion; [done..|]. intros s. by apply IH.
Qed.

Lemma safe_updateCoverage pid tid run result s0 g (Q : unit → server doc W → ghost → Prop) :
  plain pid → plain tid → (∀ s, Q tt s g) → safely (updateCoverage root pid tid run result) s0 g Q.
Proof.
  intros Hp Ht HQ. unfold updateCoverage. apply safe_then, safe_reads. intros s m _ _ _. cbv zeta. apply safe_then.
  lazymatch goal with |- safe _ _ _ (writes (SaveCoverage root pid ?c)) _ _ _ =>
    assert (cov_TestID c = tid) as Et by (by destruct (r_CompletedAt run)); revert Et; generalize c; intros cov Et end.
  change (SaveCoverage root pid cov) with (save root pid (VCoverage cov)).
  apply safe_save; [done|unfold plain_loc; cbn [loc_of loc_parts snd]; rewrite Et; by rewrite !Forall_cons|done|]. intros s' _. apply safe_ret, HQ.
Qed.

Lemma safe_applyResult pid tid run result t s0 g (Q : Run → server doc W → ghost → Prop) :
  plain pid → plain tid → (∀ s, Q (summarised result run) s g) → safely (applyResult root pid tid run result t) s0 g Q.
Proof.
  intros Hp Ht HQ. unfold applyResult. apply safe_then, safe_save_findings; [done..|]. intros s1. rewrite Z.add_0_l.
  apply safe_then, safe_update_assertions; [done|done|apply assertion_updates_plain|]. intros s2.
  apply safe_then, safe_update_all; [done|done|apply system_updates_plain|]. intros s3.
  apply safe_then, safe_updateCoverage; [done|done|]. intros s4. apply safe_ret, HQ.
Qed.

Lemma safe_buildRunCfg pid tid env t seed rid s0 g (Q : RunCfg → server doc W → ghost → Prop) :
  (∀ cfg s, rn_RunID cfg = rid → Q cfg s g) → safely (buildRunCfg root runner pid tid env t seed rid) s0 g Q.
Proof.
  intros HQ. unfold buildRunCfg. apply safe_then. case_bool_decide.
  - apply safe_then, safe_reads. intros s m _ _ _. by do 2 apply safe_ret; apply HQ.
  - by do 2 apply safe_ret; apply HQ.
Qed.

(** A run that was executed to its end: its record is what the result of an
    execution for it says. *)
Definition settled (rid : string) (run : Run) : Prop :=
  ∃ cfg w t0 t1 run0, rn_RunID cfg = rid ∧ run = closed_run (Execute runner cfg w).1 false t0 t1 run0.

Definition settled_ghost g : Prop :=
  match g with
  | Idle due => due = None
  | Owns p t r run c => c = None ∧ ∃ v, run = Some v ∧ settled r v
  end.

Lemma safe_leave_run p t r run c s0 (Q : unit → server doc W → ghost → Prop) :
  (∀ s, Q tt s (Owns p t r run None)) → safely (leave_run (jobKey p t) r) s0 (Owns p t r run (Some c)) Q.
Proof.
  intros HQ. unfold leave_run, locked. apply safe_step. intros s m Hr Hh Ho Hc.
  exists tt, (s <| active := without_run (jobKey p t) r (active s) |>), m, (Owns p t r run None). split_and!; [| |apply HQ].
  { rewrite <-leave_run_server. by destruct (active s !! jobKey p t). }
  assert (∀ c, job_ctx (s <| active := without_run (jobKey p t) r (active s) |>) c → job_ctx s c) as Hj.
  { intros c' [|(key & job & Ha & Ej)]; [by left|right]. cbn in Ha. unfold without_run in Ha. apply lookup_alter_Some in Ha as [(<- & job0 & Ha & ->)|[_ Ha]].
    - by exists (jobKey p t), job0.
    - by exists key, job. }
  split; try done.
  - by eapply holds_mono; [| |exact Hh].
  - intros c' Hc'%Hj. by apply Hc.
  - destruct Ho as (? & ? & ? & ? & ? & _). by split_and!.
  - by left.
  - intros c' Hc'%Hj. by left.
  - intros key rid (job & Ha & Hin). right. cbn in Ha. unfold without_run in Ha. apply lookup_alter_Some in Ha as [(<- & job0 & Ha & ->)|[Hne Ha]].
    + cbn in Hin. destruct (decide (rid = r)) as [->|Hne]; [rewrite lookup_delete_eq in Hin; by destruct Hin|].
      rewrite lookup_delete_ne in Hin by done. split; [by exists job0|]. by intros [_ ?].
    + split; [by exists job|]. by intros [? _].
Qed.

Lemma safe_finish_run p t r tst result run old c t0 s0 (Q : unit → server doc W → ghost → Prop) :
  plain p → plain t → r_ProjectID run = p → r_TestID run = t → r_ID run = r → r_StartedAt run = Some t0 →
  (∀ t1 s, Q tt s (Owns p t r (Some (closed_run result false t0 t1 run)) (Some c))) →
  safely (finish_run root c p t tst result run t0) s0 (Owns p t r old (Some c)) Q.
Proof.
  intros Hp Ht Hrp Hrt Hri Hst HQ. unfold finish_run. apply safe_then, safe_now. intros t1 s1 _.
  apply safe_then, safe_is_cancelled. intros s2. specialize (HQ t1).
  set (ended := run <| r_CompletedAt := Some t1 |> <| r_Duration := Duration_String (Round (Sub t1 t0) second) |> <| r_Status := final_status false result |>).
  set (final := closed_run result false t0 t1 run) in *.
  assert (final = match rr_Err result with Some _ => ended | None => summarised result ended end) as Ef.
  { unfold final, ended, closed_run, summarised. destruct run. cbn in Hst. subst. by destruct (rr_Err result). }
  assert (r_ProjectID final = p ∧ r_TestID final = t ∧ r_ID final = r) as (Efp & Eft & Efr).
  { unfold final, closed_run, summarised. by destruct (rr_Err result). }
  assert (∀ s, safely (_ ← writes (SaveRun root final); if bool_decide (r_Status final = "cancelled"%string) then mret tt
          else notify p (run_event final) (PRun final)) s (Owns p t r old (Some c)) Q) as Hend.
  { intros s. apply safe_then, safe_save_run; [done..|]. intros s3 _.
    destruct (bool_decide (r_Status final = "cancelled"%string)); [apply HQ|apply safe_notify, HQ]. }
  apply safe_then. clearbody final. destruct (rr_Err result).
  - apply safe_ret. rewrite <-Ef. apply Hend.
  - apply safe_applyResult; [done..|]. intros s. rewrite <-Ef. apply Hend.
Qed.

(** The goroutine's own run, read back. *)
Lemma safe_GetRun p t r run c s0 (Q : result store_error Run → server doc W → ghost → Prop) :
  (∀ s, plain p → plain t → r_ProjectID run = p → r_TestID run = t → r_ID run = r → Q (Ok run) s (Owns p t r (Some run) c)) →
  safely (reads (GetRun root p t r)) s0 (Owns p t r (Some run) c) Q.
Proof.
  intros HQ. apply safe_reads. intros s m _ Hh (Hp & Ht & Hi & _ & Hrun & _).
  destruct (the_run_ids root _ _ _ _ _ _ Hh Hrun) as (? & ? & ? & _).
  rewrite (GetRun_rep root Hdisk _ m), Hrun by (done || apply Hh). by apply HQ.
Qed.

Lemma safe_executeRun p t r env tst seed run c s0 (Q : unit → server doc W → ghost → Prop) :
  (∀ s v, settled r v → Q tt s (Owns p t r (Some v) None)) →
  safely (executeRun root runner c p t r env tst seed) s0 (Owns p t r (Some run) (Some c)) Q.
Proof.
  intros HQ. unfold executeRun. apply safe_then. unfold run_body. apply safe_then, safe_GetRun. intros s1 Hp Ht Ep Et Er.
  apply safe_then, safe_now. intros t0 s2 _. apply safe_then, safe_save_run; [done..|]. intros s3 _.
  apply safe_then, safe_buildRunCfg. intros cfg s4 Ecfg. apply safe_then, safe_Execute. intros w s5.
  apply safe_then, safe_GetRun. intros s6 _ _ _ _ _. cbn [r_StartedAt].
  apply (safe_finish_run _ _ _ _ _ _ _ _ t0); [done..|]. intros t1 s7. apply safe_leave_run. intros s8. apply HQ.
  eexists cfg, w, t0, t1, _. split; [done|reflexivity].
Qed.

(** ** Triggering a run *)

Lemma the_run_undrawn s m p t r : holds root s m → ¬ was_drawn (world s) (LRun p t r) → the_run m p t r = None.
Proof.
  intros Hh Hn. unfold the_run. destruct (m !! LRun p t r) eqn:E; [|done]. exfalso. apply Hn, (h_drawn _ _ _ Hh). by rewrite E.
Qed.

(** A new run belongs to the goroutine that drew its identifier. *)
Lemma safe_generateID_run p t due s0 (Q : string → server doc W → ghost → Prop) :
  plain p → plain t → (∀ x, due = Some x → x = (p, t)) → (∀ rid s, plain rid → Q rid s (Owns p t rid None None)) →
  safely (generateID "run") s0 (Idle due) Q.
Proof.
  intros Hp Ht Hdue HQ. unfold generateID. apply safe_then. apply safe_step. intros s m _ Hh _ Hc.
  destruct (draws (world s)) as (b & Eb & Hb & Hfresh & Hw). destruct (rand_read 8 (world s)) as [o w] eqn:Erand.
  cbn in Eb, Hw. subst o. assert (drawn (world s) ⊆ drawn w) as Hdr by set_solver. set (rid := "run" +:+ "_" +:+ hex_string b).
  assert (plain rid) as Hrid by (apply (plain_id Hdisk); [by apply (bool_decide_unpack _)|done]).
  assert (¬ was_drawn (world s) (LRun p t rid)) as Hno.
  { intros (h & Hh' & E). apply hex_inj_prefix, hex_inj_prefix in E as <-. done. }
  exists (Some b), (s <| world := w |>), m, (Owns p t rid None None). split_and!; [done| |by apply safe_ret, HQ].
  split; try done.
  - by eapply holds_mono; [| |exact Hh].
  - split_and!; [done..| |by eapply the_run_undrawn|done]. exists (hex_string b). split; [set_solver|done].
  - intros p' t' r' (<- & <- & <-). by right.
  - by left.
  - intros key rid' Hin. right. split; [exact Hin|intros []].
  - intros x. cbn. by intros ->%Hdue.
Qed.

(** The run's context is entered in the job of its test. *)
Lemma safe_enter_run p t r run s0 (Q : ctx → server doc W → ghost → Prop) :
  (∀ c s, Q c s (Owns p t r run (Some c))) → safely (enter_run (jobKey p t) r) s0 (Owns p t r run None) Q.
Proof.
  intros HQ. unfold enter_run, locked. apply safe_step. intros s m _ Hh Ho Hc.
  set (job := default (mkJob None ∅) (active s !! jobKey p t)). eexists (nextCtx s), _, m, (Owns p t r run (Some (nextCtx s))).
  split_and!; [done| |apply HQ]. lazymatch goal with |- evolves _ _ _ ?s2 _ _ => set (s' := s2) end.
  assert (∀ c, job_ctx s' c → job_ctx s c) as Hj.
  { intros c [|(key & job' & Ha & Ej)]; [by left|right]. cbn in Ha. apply lookup_insert_Some in Ha as [[<- <-]|[_ Ha]]; [|by exists key, job'].
    cbn in Ej. unfold job in Ej. destruct (active s !! jobKey p t) as [job0|] eqn:Ea; [|done]. by exists (jobKey p t), job0. }
  split; try done.
  - by eapply holds_mono; [| |exact Hh].
  - intros c Hc'%Hj%Hc. cbn. lia.
  - destruct Ho as (? & ? & ? & ? & ? & _). split_and!; [done..|cbn; lia|]. intros Hc'%Hj%Hc. lia.
  - by left.
  - cbn. lia.
  - intros c Hc'%Hj. by left.
  - intros key rid (job' & Ha & Hin). cbn in Ha. apply lookup_insert_Some in Ha as [[<- <-]|[_ Ha]]; [|right; split; [by exists job'|by intros []]].
    cbn in Hin. destruct (decide (r = rid)) as [<-|Hne]; [by left|]. rewrite lookup_insert_ne in Hin by done. right. split; [|by intros []].
    unfold job in Hin. destruct (active s !! jobKey p t) as [job0|] eqn:Ea; [by exists job0|]. cbn in Hin. rewrite lookup_empty in Hin. by destruct Hin.
Qed.

(** The test and its environment can be read. *)
Definition triggerable m (p t : string) : Prop := ∃ v e, the_test m p t = Some v ∧ the_environment m p (t_EnvironmentID v) = Some e.

Definition ready s (p t : string) : Prop := ∃ m, holds root s m ∧ triggerable m p t.

Lemma ready_later s s' p t : rely s s' → ready s p t → ready s' p t.
Proof.
  intros [_ Hr] (m & Hm & v & e & Hv & He). destruct (Hr m Hm) as (m' & Hm' & Ht' & He'). exists m'. split; [done|].
  destruct (Ht' _ _ _ Hv) as (v' & Hv' & Ee). exists v', e. split; [done|]. rewrite Ee. by apply He'.
Qed.

Lemma plain_environment s m p e v : holds root s m → the_environment m p e = Some v → plain e.
Proof.
  intros Hh. unfold the_environment. destruct (m !! LEnv p e) as [w|] eqn:E; [|done]. intros _.
  destruct (rep_good _ _ _ (h_rep _ _ _ Hh) _ _ E) as (Hl & _). unfold plain_loc in Hl. cbn in Hl. rewrite !Forall_cons in Hl. by destruct Hl as (_ & ? & _).
Qed.

Lemma safe_TriggerRunWithSeed p t source description eph trigger seed due s0 (Q : result manager_error (Run * task) → server doc W → ghost → Prop) :
  plain p → plain t → (∀ x, due = Some x → x = (p, t) ∧ ready s0 p t) →
  (∀ e s, due = None → Q (Err e) s (Idle due)) →
  (∀ c r env tst sd run s, Q (Ok (run, TExecuteRun c p t r env tst sd)) s (Owns p t r (Some run) (Some c))) →
  safely (TriggerRunWithSeed root p t source description eph trigger seed) s0 (Idle due) Q.
Proof.
  intros Hp Ht Hdue Herr HQ. unfold TriggerRunWithSeed. apply safe_then, safe_reads. intros s1 m1 Hr1 Hh1 _.
  assert (∀ x, due = Some x → triggerable m1 p t) as Htr1.
  { intros x Hx. destruct (Hdue x Hx) as [_ Hy]. destruct (ready_later _ _ _ _ Hr1 Hy) as (m & Hm & Htr). by rewrite (holds_unique _ _ _ Hh1 Hm). }
  rewrite (GetTest_rep root Hdisk _ m1) by (done || apply Hh1). destruct (the_test m1 p t) as [tst|] eqn:Etst; cbn [found].
  2: { apply safe_ret, Herr. destruct due as [x|]; [|done]. destruct (Htr1 x eq_refl) as (v & e & Hv & _). congruence. }
  apply safe_then, safe_reads. intros s2 m2 Hr2 Hh2 _.
  destruct (GetEnvironment root p (t_EnvironmentID tst) (disk s2)) as [env|e] eqn:Eenv.
  2: { apply safe_ret, Herr. destruct due as [x|]; [|done]. destruct (Htr1 x eq_refl) as (v & e' & Hv & He). simplify_eq.
       destruct Hr2 as [_ Hr2]. destruct (Hr2 _ Hh1) as (m & Hm & _ & Henv). rewrite (holds_unique _ _ _ Hm Hh2) in Henv. apply Henv in He.
       rewrite (GetEnvironment_rep root Hdisk _ m2), He in Eenv; [done|apply Hh2|done|exact (plain_environment _ _ _ _ _ Hh2 He)]. }
  apply safe_then. eapply (safe_mono _ _ _ (λ o s g, is_Some o ∧ g = Idle due)).
  { destruct (seed =? 0); [|by apply safe_ret]. apply safe_then, safe_random. intros b s _. apply safe_ret. by split. }
  intros oseed s3 g _ [[sd ->] ->]. apply safe_then, safe_reads. intros s4 m4 _ _ _.
  apply safe_then, safe_now. intros t0 s5 _. apply safe_then, (safe_generateID_run p t); [done|done|by intros x [? _]%Hdue|]. intros rid s6 Hrid.
  apply safe_then, safe_save_run; [done..|]. intros s7 _. apply safe_then, safe_enter_run. intros c s8. apply safe_ret, HQ.
Qed.

Lemma safe_trigger_and_execute p t source description eph trigger seed due s0 :
  plain p → plain t → (∀ x, due = Some x → x = (p, t) ∧ ready s0 p t) →
  safely (trigger_and_execute root runner p t source description eph trigger seed) s0 (Idle due) (λ _ _ g, settled_ghost g).
Proof.
  intros Hp Ht Hdue. unfold trigger_and_execute. apply safe_then, safe_TriggerRunWithSeed; [done..|by intros e s ->|].
  intros c r env tst sd run s. apply safe_executeRun. intros s' v Hv. split; [done|]. by exists v.
Qed.

(** ** Starting and stopping a test *)

(** Changes of the jobs that enter no run: no context of a run is touched. *)
Lemma evolves_jobs s m g s' : holds root s m → own s m g → ctxs_ok s' → disk s' = disk s → world s' = world s → (nextCtx s ≤ nextCtx s')%nat →
  (∀ c, job_ctx s' c → job_ctx s c ∨ (nextCtx s ≤ c)%nat) → (∀ key rid, in_job s' key rid → in_job s key rid) → evolves s m g s' m g.
Proof.
  intros Hh Ho Hc Ed Ew Hn Hj Hin. split; try done.
  - eapply holds_mono; [| |exact Hh]; [done|by rewrite Ew].
  - eapply own_later; try done. by rewrite Ew.
  - by left.
  - by rewrite Ew.
  - intros key rid Hi. destruct (decide (entered g key rid)); [by left|]. right. split; [by apply Hin|done].
Qed.

Lemma safe_claim_job key s0 g (Q : option ctx → server doc W → ghost → Prop) : (∀ o s, rely s0 s → Q o s g) → safely (claim_job key) s0 g Q.
Proof.
  intros HQ. unfold claim_job, locked. apply safe_step. intros s m Hr Hh Ho Hc. destruct (active s !! key) as [job|] eqn:Ea.
  - exists None, s, m, g. split_and!; [done| |by apply HQ]. apply evolves_jobs; try done. by left.
  - eexists (Some (nextCtx s)), _, m, g. split_and!; [done| |].
    2: { apply HQ. etrans; [exact Hr|]. split; [done|]. intros m1 Hm1. exists m1. split; [|done]. by eapply holds_mono; [| |exact Hm1]. }
    lazymatch goal with |- evolves _ _ _ ?s2 _ _ => set (s' := s2) end.
    assert (∀ c, job_ctx s' c → job_ctx s c ∨ c = nextCtx s) as Hj.
    { intros c [|(k & job & Ha & Ej)]; [by left; left|]. cbn in Ha. apply lookup_insert_Some in Ha as [[<- <-]|[_ Ha]]; [|by left; right; exists k, job].
      injection Ej as <-. by right. }
    apply evolves_jobs; try done.
    + intros c [Hc'%Hc| ->]%Hj; cbn; lia.
    + cbn. lia.
    + intros c [| ->]%Hj; [by left|by right].
    + intros k rid (job & Ha & Hin). cbn in Ha. apply lookup_insert_Some in Ha as [[<- <-]|[_ Ha]]; [|by exists job].
      cbn in Hin. rewrite lookup_empty in Hin. by destruct Hin.
Qed.

Lemma the_test_ids s m p t v : holds root s m → the_test m p t = Some v → t_ProjectID v = p ∧ t_ID v = t.
Proof.
  intros Hh. unfold the_test. destruct (m !! LTest p t) as [w|] eqn:E; [|done]. destruct w; try done. intros [= ->].
  destruct (rep_kind root _ _ _ _ (h_rep _ _ _ Hh) E) as (? & E'). cbn in E'. by simplify_eq.
Qed.

(** A test that was read still has the environment it had then. *)
Lemma test_later s s' m p t v : rely s s' → holds root s m → the_test m p t = Some v →
  ∃ m' v', holds root s' m' ∧ the_test m' p t = Some v' ∧ t_EnvironmentID v' = t_EnvironmentID v.
Proof. intros [_ Hr] Hh Hv. destruct (Hr m Hh) as (m' & Hm' & Ht & _). destruct (Ht _ _ _ Hv) as (v' & Hv' & E). by exists m', v'. Qed.

Lemma safe_StartTest p t s0 g (Q : result manager_error (list task) → server doc W → ghost → Prop) :
  plain p → plain t → (∀ r s, Q r s g) → safely (StartTest root p t) s0 g Q.
Proof.
  intros Hp Ht HQ. unfold StartTest. apply safe_then, safe_reads. intros s1 m1 _ Hh1 _.
  rewrite (GetTest_rep root Hdisk _ m1) by (done || apply Hh1). destruct (the_test m1 p t) as [v|] eqn:Ev; cbn [found]; [|apply safe_ret, HQ].
  destruct (the_test_ids _ _ _ _ _ Hh1 Ev) as [Ep Et]. apply safe_then, safe_claim_job. intros [c|] s2 Hr2; [|apply safe_ret, HQ].
  apply safe_then, safe_now. intros t0 s3 Hr3. apply safe_then, safe_save_test; cbn.
  - by rewrite Ep.
  - by rewrite Et.
  - rewrite Ep, Et. eapply test_later; [|exact Hh1|exact Ev]. by etrans.
  - intros s4. apply HQ.
Qed.

Lemma safe_StopTest p t s0 g (Q : unit → server doc W → ghost → Prop) :
  plain p → plain t → (∀ s, Q tt s g) → safely (StopTest root p t) s0 g Q.
Proof.
  intros Hp Ht HQ. unfold StopTest. apply safe_then. unfold locked. apply safe_step. intros s m _ Hh Ho Hc.
  set (s' := match active s !! jobKey p t with
             | Some job => (match jobCancel job with Some c => cancel c s | None => s end) <| active := delete (jobKey p t) (active s) |>
             | None => s end).
  exists tt, s', m, g. split_and!.
  { unfold s'. destruct (active s !! jobKey p t) as [job|]; [|done]. by destruct (jobCancel job). }
  - assert (∀ k job, active s' !! k = Some job → active s !! k = Some job) as Ha.
    { unfold s'. destruct (active s !! jobKey p t) as [job|]; [|done]. intros k job' Hk.
      destruct (jobCancel job); cbn in Hk; by apply lookup_delete_Some in Hk as [_ ?]. }
    assert (∀ c, job_ctx s' c → job_ctx s c) as Hj.
    { intros c [Hin|(k & job & Hk & Ej)]; [|right; exists k, job; split; [by apply Ha|done]].
      unfold s' in Hin. destruct (active s !! jobKey p t) as [job|] eqn:Ea; [|by left].
      destruct (jobCancel job) as [c'|] eqn:Ej; [|by left]. cbn in Hin. apply elem_of_union in Hin as [->%elem_of_singleton|]; [|by left].
      right. by exists (jobKey p t), job. }
    assert (disk s' = disk s ∧ world s' = world s ∧ nextCtx s' = nextCtx s) as (Ed & Ew & En).
    { unfold s'. destruct (active s !! jobKey p t) as [job|]; [|done]. by destruct (jobCancel job). }
    apply evolves_jobs; try done.
    + intros c Hc'%Hj%Hc. by rewrite En.
    + by rewrite En.
    + intros c Hc'%Hj. by left.
    + intros k rid (job & Hk & Hin). exists job. split; [by apply Ha|done].
  - apply safe_then, safe_reads. intros s1 m1 _ Hh1 _.
    rewrite (GetTest_rep root Hdisk _ m1) by (done || apply Hh1). destruct (the_test m1 p t) as [v|] eqn:Ev; cbn [found]; [|apply safe_ret, HQ].
    destruct (the_test_ids _ _ _ _ _ Hh1 Ev) as [Ep Et].
    apply safe_then, safe_now. intros t0 s3 Hr3. apply safe_then, safe_save_test; cbn.
    + by rewrite Ep.
    + by rewrite Et.
    + rewrite Ep, Et. by eapply test_later.
    + intros s4. apply HQ.
Qed.

(** ** All goroutines *)

Record pool_inv m0 (gs0 : list ghost) s (gs : list ghost) : Prop := {
  pi_map : ∃ m, holds root s m ∧ ctxs_ok s ∧ keeps m0 m ∧ (∀ i g, gs !! i = Some g → own s m g) ∧
    (∀ p t r, the_run m p t r = the_run m0 p t r ∨ ∃ i g, gs !! i = Some g ∧ owns g p t r);
  pi_one i j gi gj p t r p' t' : gs !! i = Some gi → gs !! j = Some gj → owns gi p t r → owns gj p' t' r → i = j;
  pi_jobs key rid : in_job s key rid → ∃ i g, gs !! i = Some g ∧ entered g key rid;
  pi_target i g0 x : gs0 !! i = Some g0 → target g0 = Some x → ∃ g, gs !! i = Some g ∧ target g = Some x }.

Lemma own_drawn s m g p t r : own s m g → owns g p t r → ∀ p' t', was_drawn (world s) (LRun p' t' r).
Proof. destruct g; [done|]. intros (_ & _ & _ & Hd & _) (-> & -> & ->). done. Qed.

(** A step of one goroutine leaves the others what they own. *)
Lemma evolves_own s m g s' m' g' h : evolves s m g s' m' g' → own s m h → (∀ p t r p' t', owns g p t r → ¬ owns h p' t' r) → own s' m' h.
Proof.
  intros He Ho Hne. eapply own_later; try apply He; [done|]. intros p t r Hh. apply (ev_runs _ _ _ _ _ _ He). intros Hg'.
  destruct (ev_new _ _ _ _ _ _ He _ _ _ Hg') as [Hg|Hn]; [by eapply Hne|]. apply Hn. by eapply own_drawn.
Qed.

Lemma pool_closed m0 gs0 : closed trans (pool_inv m0 gs0).
Proof.
  intros s gs i g s' g' [(m & Hh & Hc & Hk & Hown & Hruns) Hone Hjobs Htarget] Hi HT.
  destruct (HT m Hh (Hown _ _ Hi) Hc) as (m' & He).
  assert (∀ j h, <[i := g']> gs !! j = Some h → (j = i ∧ h = g') ∨ (j ≠ i ∧ gs !! j = Some h)) as Hins.
  { intros j h. rewrite list_lookup_insert_Some. intros [(<- & <- & _)|[]]; [by left|by right]. }
  assert (<[i := g']> gs !! i = Some g') as Hi' by (apply list_lookup_insert_eq; by eapply lookup_lt_Some).
  assert (∀ j h, gs !! j = Some h → j ≠ i → <[i := g']> gs !! j = Some h) as Hj by by intros j h ? ?; rewrite list_lookup_insert_ne.
  assert (∀ j h p t r p' t', gs !! j = Some h → j ≠ i → owns g' p t r → ¬ owns h p' t' r) as Hne.
  { intros j h p t r p' t' Hh' Hji Hg' Ho. destruct (ev_new _ _ _ _ _ _ He _ _ _ Hg') as [Hg|Hn].
    - by apply Hji, (Hone j i h g p' t' r p t).
    - apply Hn. eapply own_drawn; [by apply (Hown j)|done]. }
  split.
  - exists m'. split_and!; [apply He|apply He|etrans; [exact Hk|apply He]| |].
    + intros j h [[-> ->]|[Hji Hjh]]%Hins; [apply He|]. eapply evolves_own; [exact He|by eapply Hown|].
      intros p t r p' t' Hg. by apply (Hne j h p t r), (ev_same _ _ _ _ _ _ He).
    + intros p t r. destruct (decide (owns g' p t r)) as [Hg'|Hg']; [by right; exists i, g'|].
      rewrite (ev_runs _ _ _ _ _ _ He) by done. destruct (Hruns p t r) as [|(j & h & Hjh & Ho)]; [by left|right].
      exists j, h. split; [|done]. apply Hj; [done|]. intros ->. simplify_eq. by apply Hg', (ev_same _ _ _ _ _ _ He).
  - intros j k gj gk p t r p' t' [[-> ->]|[Hji Hjg]]%Hins [[-> ->]|[Hki Hkg]]%Hins Hoj Hok; [done|..].
    + by destruct (Hne _ _ _ _ _ _ _ Hkg Hki Hoj Hok).
    + by destruct (Hne _ _ _ _ _ _ _ Hjg Hji Hok Hoj).
    + by eapply Hone.
  - intros key rid [Hg'|[Hin Hng]]%(ev_in _ _ _ _ _ _ He); [by exists i, g'|]. destruct (Hjobs _ _ Hin) as (j & h & Hjh & Hent).
    destruct (decide (j = i)) as [->|]; [by simplify_eq|by exists j, h; auto].
  - intros j g0 x Hg0 Hx. destruct (Htarget _ _ _ Hg0 Hx) as (h & Hjh & Hht). destruct (decide (j = i)) as [->|]; [|by exists h; auto].
    simplify_eq. exists g'. split; [done|by apply (ev_target _ _ _ _ _ _ He)].
Qed.

(** What the server's clients ask for. *)
Inductive request :=
| RTrigger (pid tid source description : string) (isEphemeral : bool) (trigger : string) (seed : Z)
| RStart (pid tid : string)
| RStop (pid tid : string).

Definition goroutine (r : request) : G unit :=
  match r with
  | RTrigger pid tid source description eph trigger seed => trigger_and_execute root runner pid tid source description eph trigger seed
  | RStart pid tid => _ ← StartTest root pid tid; mret tt
  | RStop pid tid => StopTest root pid tid
  end.

Definition request_test (r : request) : string * string :=
  match r with RTrigger p t _ _ _ _ _ | RStart p t | RStop p t => (p, t) end.

Definition plain_request (r : request) : Prop := plain (request_test r).1 ∧ plain (request_test r).2.

Definition is_trigger (r : request) : bool := match r with RTrigger _ _ _ _ _ _ _ => true | _ => false end.

(** The goroutine of a trigger for a test that can run has a run to make. *)
Definition initial_ghost m (r : request) : ghost :=
  match the_test m (request_test r).1 (request_test r).2 with
  | Some v => match the_environment m (request_test r).1 (t_EnvironmentID v) with
              | Some _ => Idle (if is_trigger r then Some (request_test r) else None)
              | None => Idle None
              end
  | None => Idle None
  end.

Lemma initial_due m r x : target (initial_ghost m r) = Some x ↔ is_trigger r = true ∧ x = request_test r ∧ triggerable m (request_test r).1 (request_test r).2.
Proof.
  unfold initial_ghost, triggerable. destruct (the_test m _ _) as [v|] eqn:Ev; [|split; [done|intros (_ & _ & v & e & [=] & _)]].
  destruct (the_environment m _ _) as [e|] eqn:Ee; [|split; [done|intros (_ & _ & v' & e & [= <-] & ?); congruence]].
  cbn. destruct (is_trigger r); split; try done; [intros [= <-]; split_and!; [done|done|by exists v, e]|by intros (_ & -> & _)|by intros (? & _)].
Qed.

Lemma initial_idle m r : ∃ due, initial_ghost m r = Idle due.
Proof. unfold initial_ghost. destruct (the_test _ _ _) as [v|]; [|by eexists]. destruct (the_environment _ _ _); by eexists. Qed.

Lemma goroutine_safe m s r : holds root s m → plain_request r → safely (goroutine r) s (initial_ghost m r) (λ _ _ g, settled_ghost g).
Proof.
  intros Hh [Hp Ht]. pose proof (initial_due m r) as Hdue. destruct (initial_idle m r) as [due E]. rewrite E in *. cbn [target] in Hdue.
  assert (is_trigger r = false → due = None) as Hnone.
  { intros Hr. destruct due as [x|]; [|done]. destruct (Hdue x) as [Hx _]. destruct (Hx eq_refl) as (Hy & _). congruence. }
  destruct r as [p t source description eph trigger seed|p t|p t]; cbn [goroutine is_trigger request_test fst snd] in *.
  - apply safe_trigger_and_execute; [done..|]. intros x Hx. destruct (Hdue x) as [H1' _]. destruct (H1' Hx) as (_ & -> & Htr). split; [done|]. by exists m.
  - apply safe_then, safe_StartTest; [done..|]. intros a s'. apply safe_ret, Hnone, eq_refl.
  - apply safe_StopTest; [done..|]. intros s'. apply Hnone, eq_refl.
Qed.

Lemma initial_inv m s rs : holds root s m → ctxs_ok s → (∀ key rid, ¬ in_job s key rid) → pool_inv m (initial_ghost m <$> rs) s (initial_ghost m <$> rs).
Proof.
  intros Hh Hc Hj. assert (∀ i g, (initial_ghost m <$> rs) !! i = Some g → ∃ due, g = Idle due) as Hidle.
  { intros i g. rewrite list_lookup_fmap. destruct (rs !! i) as [r|]; [|done]. intros [= <-]. apply initial_idle. }
  split.
  - exists m. split_and!; [done|done|done| |by left]. intros i g (due & ->)%Hidle. done.
  - intros i j gi gj p t r p' t' (due & ->)%Hidle. done.
  - intros key rid Hin. by destruct (Hj key rid).
  - intros i g0 x Hg0 Hx. by exists g0.
Qed.

End spec.
