(* ===== verification/TestManagerDemo.v ===== *)
(** * A server to run

    A host on which the goroutines of the test manager can be evaluated; the
    theorems on them applied there; and the schedule on which [CancelRun] makes
    the goroutine of the run it cancels panic. *)
From stdpp Require Import strings pretty.
From S2P Require Import Prelude Strings Word Float GoLib Explorer Report TestConfig Runner ApiData FileStore FileStoreProps Interleave TestManager TestManagerProps TestManagerPool.
Local Open Scope Z_scope.
Import Plain.

(** ** The host *)

(** The clock's ticks and the random draws so far. *)
Definition demo_host : Type := nat * nat.

(** A random source that counts in unary. *)
#[export] Instance demo_Host : Host demo_host := {|
  read_clock w := (Z.of_nat w.1 * second, (S w.1, w.2)); rand_read _ w := (Some (replicate w.2 0), (w.1, S w.2)) |}.

(** What the exploration of every run returns: one goal that was never met. *)
Definition explored : Result :=
  mkResult [] (mkCounts 4 4 0 3 0 0 0) [] [mkPropertyCount "sometimes" "leader elected" 3 0 3] 120 4096 17 0 None.

#[export] Instance demo_Orchestrator : Orchestrator demo_host := {|
  Runner.New _ w := (None, w); Runner.Run _ w := (Ok (Some (mkOrchResult "run" (Some explored) None)), (S w.1, w.2));
  OrchestratorReplay _ _ w := (Err "no bundle"%string, w); Glob _ _ := Ok [] |}.

Lemma hex_zeros n : String.length (hex_string (replicate n 0)) = (2 * n)%nat.
Proof.
  induction n as [|n IH]; [done|]. cbn [replicate].
  change (String.length (hex_string (0 :: replicate n 0))) with (S (S (String.length (hex_string (replicate n 0))))). lia.
Qed.

#[export] Instance demo_laws : HostLaws demo_host.
Proof.
  refine {| drawn w := list_to_set ((λ n, hex_string (replicate n 0)) <$> seq 0 w.2) |}; [|done|done].
  intros [t w]. exists (replicate w 0). split_and!; [done|by apply Forall_replicate| |].
  - rewrite elem_of_list_to_set, list_elem_of_fmap. intros (n & E & Hn%elem_of_seq).
    apply (f_equal String.length) in E. rewrite !hex_zeros in E. cbn in Hn. lia.
  - change (rand_read 8 (t, w)).2.2 with (S w). rewrite seq_S, fmap_app, list_to_set_app_L. cbn. set_solver.
Defined.

#[export] Instance plain_lossless : Lossless value.
Proof. split; [by intros []; eexists|apply faithful_all]. Defined.

(** ** One run *)

Definition demo_root : string := "/var/lib/openthesis".
Definition demo_runner : RunnerCfg := mkRunnerCfg "/var/lib/openthesis" "qemu" "runsc" "vmlinux" "init".
Definition demo_environment : Environment := mkEnvironment "env_1" "proj_a" "env" "gvisor" "" "" [] [] "" (mkResourceLimits 0 0) 1 0 0.
Definition demo_test : Test :=
  mkTest "tst_1" "proj_a" "env_1" "test" "" "idle" (mkTestSchedule "manual" 1 "" "" "" 0 0) (mkExplorationCfg "coverage" 0 0 0 "")
    (mkFaultCfg true (mkNetworkFault fzero "" "") (mkNodeFault fzero "" "" fzero) false false)
    (mkTestStats 0 0 (mkFindingCounts 0 0 0 0)
       (mkAssertionSummary (ApiData.mkAssertionCounts 0 0 0 0) (ApiData.mkAssertionCounts 0 0 0 0) (ApiData.mkAssertionCounts 0 0 0 0))) 0 0 None.

(** The server with an environment and a test. *)
Definition demo_disk : gmap path value := (SaveTest demo_root demo_test (SaveEnvironment demo_root demo_environment ∅).2).2.
Definition demo_server : server value demo_host := mkServer demo_disk ∅ 0 ∅ [] (1%nat, 1%nat).
Definition demo_map : gmap loc value := <[LTest "proj_a" "tst_1" := VTest demo_test]> (<[LEnv "proj_a" "env_1" := VEnv demo_environment]> ∅).

Lemma demo_holds : holds demo_root demo_server demo_map.
Proof.
  assert (holds demo_root (mkServer (∅ : gmap path value) ∅ 0 ∅ [] ((1, 1)%nat : demo_host)) ∅) as H0.
  { split; [apply rep_empty|]. intros l [v Hv]. by rewrite lookup_empty in Hv. }
  destruct (save_holds demo_root sound "" (VEnv demo_environment) _ _ H0) as (d1 & E1 & H1); [by apply (bool_decide_unpack _)|done|by right|].
  destruct (save_holds demo_root sound "" (VTest demo_test) _ _ H1) as (d2 & E2 & H2); [by apply (bool_decide_unpack _)|done|by right|].
  assert (d2 = demo_disk) as ->; [|exact H2].
  change d2 with (None : option store_error, d2).2. rewrite <-E2. change d1 with (None : option store_error, d1).2. by rewrite <-E1.
Qed.

(** The server after a run was triggered: as [TriggerRun] leaves it. *)
Definition demo_run : Run :=
  mkRun "run_" "tst_1" "proj_a" "pending" "manual" 1 "main" false "" None None None (mkRunInternal 7 "gvisor" "") 0 None None "" "".
Definition triggered : server value demo_host :=
  mkServer (SaveRun demo_root demo_run demo_disk).2 {["proj_a:tst_1" := mkJob None {["run_" := 0%nat]}]} 1 ∅ [] (1%nat, 1%nat).
Definition triggered_map : gmap loc value := <[LRun "proj_a" "tst_1" "run_" := VRun demo_run]> demo_map.

Lemma triggered_holds : holds demo_root triggered triggered_map.
Proof.
  destruct (save_holds demo_root sound "" (VRun demo_run) _ _ demo_holds) as (d & E & Hd); [by apply (bool_decide_unpack _)|done| |].
  { right. exists ""%string. split; [|done]. apply elem_of_list_to_set. by left. }
  change d with (None : option store_error, d).2 in Hd. rewrite <-E in Hd. by eapply holds_mono, Hd.
Qed.

Lemma no_findings m pid tid fp : (∀ fid, m !! LFinding pid tid fid = None) → sees m pid tid fp None.
Proof. intros Hm fid f. unfold the_finding. by rewrite Hm. Qed.

Lemma triggered_new fid : triggered_map !! LFinding "proj_a" "tst_1" fid = None.
Proof. unfold triggered_map, demo_map. by rewrite !lookup_insert_ne, lookup_empty. Qed.

Definition demo_fingerprint : string := fingerprintFinding "sometimes" "leader elected".

Lemma demo_reported cfg w : times_reported demo_fingerprint (reports_of (Execute demo_runner cfg w).1) = 1%nat.
Proof. vm_compute. reflexivity. Qed.

Lemma demo_no_error cfg w : rr_Err (Execute demo_runner cfg w).1 = None.
Proof. reflexivity. Qed.


(** ** A run that is cancelled as it starts *)

Definition cancel_race : config (server value demo_host) unit :=
  ([executeRun demo_root demo_runner 0%nat "proj_a" "tst_1" "run_" demo_environment demo_test 7;
    CancelRun demo_root "proj_a" "tst_1" "run_" ≫= λ _, mret tt], triggered).

(** [CancelRun] reads the run as it is pending; the run starts; [CancelRun] writes
    back what it read, without the time of the start, which the goroutine of the
    run dereferences when it ends. *)
Lemma cancelled_run_panics :
  let sched := [1; 1; 0; 0; 0; 1; 1; 0; 0; 0]%nat in
  (match run_schedule sched cancel_race with Some _ => true | None => false end) = true ∧ run_schedule (sched ++ [0%nat]) cancel_race = None.
Proof. vm_compute. split; reflexivity. Qed.

(** Cancelled a step later, it ends as cancelled. *)
Lemma cancelled_run_ends :
  (λ c, r_Status <$> (match GetRun demo_root "proj_a" "tst_1" "run_" (disk c.2) with Ok r => Some r | Err _ => None end)) <$>
    run_schedule ([1; 0; 0; 0; 1; 1; 1] ++ replicate 80 0)%nat cancel_race = Some (Some "cancelled"%string).
Proof. vm_compute. reflexivity. Qed.

(** ** Two runs, and a test that is started and stopped meanwhile *)

Definition demo_requests : list request :=
  [RTrigger "proj_a" "tst_1" "" "" false "manual" 7; RStart "proj_a" "tst_1"; RTrigger "proj_a" "tst_1" "feature" "" true "api" 0; RStop "proj_a" "tst_1"].

(** In turns. *)
Definition demo_start : config (server value demo_host) unit := (goroutine demo_root demo_runner <$> demo_requests, demo_server).
Definition demo_schedule : list nat := concat (replicate 70 [0; 1; 2; 3]%nat).

Lemma demo_finishes : (match run_schedule demo_schedule demo_start with Some c => forallb is_done c.1 | None => false end) = true.
Proof. vm_compute. reflexivity. Qed.

Lemma demo_idle : ctxs_ok demo_server ∧ ∀ key rid, ¬ in_job demo_server key rid.
Proof. split; [intros c [Hc|(key & job & Hj & _)]|intros key rid (job & Hj & _)]; [by apply not_elem_of_empty in Hc|cbn in Hj; by rewrite lookup_empty in Hj..]. Qed.

Lemma demo_triggerable : triggerable demo_map "proj_a" "tst_1".
Proof. exists demo_test, demo_environment. split; reflexivity. Qed.

